(* ===== verification/_CoqProject ===== *)
-Q . S2P
Prelude.v
Gmsg.v
SwapQueue.v
Batcher.v
QueueBatcher.v
DataBus.v
Serve.v
Proto.v
Rpc.v
Router.v
Sender.v
Sharded.v
Session.v
GateStop.v
Role.v
RoleSend.v
Components.v
Config.v
Saver.v
Logon.v
LogonFlow.v
Redis.v
Account.v
AccLoader.v
AccDebug.v
AccStop.v
Discovery.v
Watch.v
EventLoop.v
Registry.v
Actors.v
App.v
Offline.v
Lock.v
Crypt.v
Rand.v
Util.v
Database.v
Metrics.v
Shutdown.v
Process.v
Notice.v
MsgGen.v
ProtoGen.v
Robot.v
Fleet.v
Monitor.v
Jetq.v
JetServer.v
Election.v
Http.v
HttpServer.v
Json.v
TableMake.v
TableRead.v
