(* ===== verification/Prelude.v ===== *)
(** * server-v2: a verification of the game server's core

    The program is a distributed game server in Go: gateways hold the web-socket
    sessions of clients, account servers log players in, game servers run one goroutine
    per online role, a center keeps track of who is online. The processes talk over NATS
    through a message bus of their own; Redis and MongoDB hold the data.

    ** How the parts interact

    A client's packet enters a gateway session, which forwards it by its message id to
    the service and node it names. The senders of [pkg/gnet] marshal typed messages into
    pooled buffers and hand them to the data bus, whose batchers collect frames per
    destination and publish them to a NATS subject; the receiver decodes the batch and
    passes each message to a router, which parses it into a (pooled) message object and
    calls its handler. A login goes from the gateway to an account server (rate limit, SDK,
    account loaded from Redis or MongoDB or registered), which grants it by comparing and
    raising a sequence number in Redis and sends it to a game server. There the logon
    service loads the role's data, runs the role, and on logout keeps the data until a
    saver has stored them; it then tells the account server, which clears the game server
    of exactly that login. A role receives its messages through a queue of its own that the
    registry finds by role or by session; the center relays messages to the game server
    where a role is online and runs actors with queues of the same kind.

    ** Files

    - [Prelude.v]: machine integers, bytes and slices, Go errors, tactics, general lemmas.
    - [Gmsg.v] (pkg/gnet/gmsg): heads, frames, batch decoding.
    - [SwapQueue.v] (pkg/queue): the double-buffered queue with its wake-up channel.
    - [Batcher.v] (pkg/gnet/pool, pkg/gnet/pub): buffer pools and batchers;
      [QueueBatcher.v] (pkg/gnet/pub/_queue_batcher.go): the other batcher, over a queue.
    - [DataBus.v] (pkg/gnet/pub/manage.go, pkg/gnet/msgq): subjects, batcher tables,
      the five sending operations, flushing and closing, publications that fail; [Serve.v]:
      subscribing, and which servers a subject reaches.
    - [Proto.v] (api/pb/init.go, msg_helper.go): the message id registry, over a class
      [VTMessage] of messages with its laws.
    - [Rpc.v] (pkg/gnet/msgq/rpc.go), [Router.v] (pkg/gnet/router): remote calls and
      handlers.
    - [Sender.v] (pkg/gnet/sender.go, pkg/idgen): the typed senders, over a class
      [Sonyflake] of the id generator.
    - [Sharded.v] (gateway/session/network.go, center/onlines): the sharded tables, in
      Modules [SessionTable] and [Onlines].
    - [Session.v] (internal/gateway): sessions, their two loops, server messages;
      [GateStop.v] (gateway/session/network.go): accepting connections and the graceful stop.
    - [Role.v] (internal/game/role): a role's clock, heartbeat, saving and loading, over a
      class [IComp] of components and a class [Calendar] of local time; [RoleSend.v]: what a
      role sends, on its way to the client; [Components.v] (game/component): the two
      components there are, and a role's session with them.
    - [Config.v] (pkg/cfg): the configuration in etcd and the one a process uses.
    - [Saver.v] (logon_service/save.go, load.go): storing and loading roles.
    - [Logon.v] (logon_service/login.go): the state of every role on a game server;
      [LogonFlow.v]: the bounded channels between its goroutines, with loads that fail.
    - [Redis.v]: the Redis commands the account service uses, as a class with the
      documented laws, and a concrete store that has them.
    - [Account.v] (internal/account/auth: acc.go, service.go, auth.go): accounts, Lua
      scripts, login sessions, account ids.
    - [AccLoader.v] (internal/account/auth: auth.go, loader.go): from a login request to
      its answer; [AccDebug.v] (debug.go, [BindNewSDK] of acc.go; logon_service/debug.go): the
      self checks of debug builds and binding another channel; [AccStop.v]: stopping the
      service.
    - [Discovery.v] (pkg/discovery): node tables that follow etcd, selection by load,
      registration under a lease; and the game server allocation of [Account.v] over them;
      [Watch.v]: the watch loop against etcd's history, the [Manager], closing.
    - [EventLoop.v] (game/role/role.go: [Run]): a role's goroutine, its mailbox, context and
      wait group; [Registry.v] (game/role/registry.go): the two sharded tables of running
      roles, ticking, kicking, dispatching; [Actors.v] (share/actor): actors and their table.
    - [App.v] (game/app.go, center/app.go, game/role/router.go): where a message goes on a
      game server and on the center, role handlers over [Router.v], and a remote call from the
      caller through a network that may lose its request or its reply to the handler.
    - [Shutdown.v] (logon_service: [run], [Close], the savers' goroutines): the service of
      [Logon.v] and the savers of [Saver.v] with their channel and queues, and closing.
    - [Process.v] (share/app, the services' [app.go], cmd, pkg/flag, pkg/db/mongo.go): a process
      from start to exit; [Notice.v] (pkg/notice, pkg/logger): alerts and derived loggers.
    - [Offline.v] (share/offline_evt), [Lock.v] (pkg/lock), [Election.v] (pkg/util/master.go):
      offline events, distributed locks and the election of a master, over classes for the
      Redis commands they use and a model of etcd's keys.
    - [Crypt.v] (pkg/crypt): padding, CBC in place, the key exchange, over a class of block
      ciphers; [Rand.v] (pkg/util/rand.go) and [Util.v] (pkg/util, pkg/gerror, pkg/flag);
      [Database.v] (pkg/db): the clients of the databases; [Metrics.v] (pkg/gnet/gmetrics,
      the handlers of pkg/gnet/msgq/nats.go): metrics and their caches.
    - [MsgGen.v], [ProtoGen.v] (tools/proto): the generators of message ids and of their
      registration; [Robot.v], [Fleet.v], [Monitor.v] (internal/robot): the test client
      against the gateway, a robot's life, and the run with its statistics; [Jetq.v]
      (pkg/gnet/jetq): the durable queue on top of the bus's batchers; [JetServer.v]: its
      streams and consumers, over a class [JetAPI] of the JetStream service with its laws, and
      the acknowledgements of publications; [Http.v] (pkg/ghttp, pkg/thread): the HTTP
      middleware; [HttpServer.v]: the server, its routes and shutdown, running commands.
    - [Json.v], [TableMake.v], [TableRead.v] (pkg/tb_load): from the sheets of a workbook to
      JSON files and generated types, and back into the tables of a running server.

    ** How code is modelled

    A Go function is a function of its receiver's state; [(T, error)] is [result T], a
    run-time panic is [None] of an [option]. Shared objects that code changes in place are
    passed through and returned. What a call outside the repository may do is an
    argument: whether a write fails and which part of it was applied, which object a pool
    hands out, in which order a map is iterated, what [Select] answers. Where goroutines
    interleave, a component is an [Inductive] step relation whose steps are the atomic
    sections of the code (a mutex or an atomic operation), and the theorems are invariants
    of its reachable states. Integers are [Z] with the wrap-around of their width written
    out; times are nanoseconds or seconds as in the code.

    ** What the theorems show

    - Messages: encoding and batch decoding are inverse, decoding is total and robust;
      batchers hand over every accepted message exactly once across [Close]; the bus
      delivers what was sent, in order, to the addressed slot only, but for the batches whose
      publication fails; typed senders compose with it; a remote call returns the answer of
      the handler that its message is dispatched to, or an error; a published message reaches the servers its subject
      names; what a role sends is what its client reads; the router refines a plain table
      of handlers; the generated registration has every message under its id; the two
      batchers publish the same; metrics are shared by all callers and count apart.
    - Queues: bounded FIFO, no lost wake-up, nothing lost at shutdown.
    - Gateway: client packets reach the node their id names, sessions are torn down
      exactly once, clients receive in order; the sharded tables refine a map; a graceful
      stop ends every session that is in time.
    - Game: at most one instance of a role runs (with the three windows in which it does not
      hold stated and two of them exhibited); a role's last data are kept until stored;
      saving loses nothing and loads back; resets happen once a day. A role handles its
      events in order and exits when kicked; the registry is the table of running roles and
      reaches each by role and by session; role handlers always get their role; closing the
      server stores every role it waits for, before the databases are closed; logins drain
      while no more are under way than a channel holds, answered or dropped by a failed load.
    - Center and actors: a relayed message reaches the role's queue where it is online;
      actors handle their events in order.
    - Account: logins of one account are serialised by the sequence number for as long as its
      hash has not expired, a player who is
      still online is sent back to the same game server, late logouts are ignored, ids are
      unique, every request is answered once, with the account its name is bound to, which
      the self check of a debug build finds in the database and in the cache; binding another
      name keeps every binding and binds no name twice.
    - Discovery: the node tables follow etcd across failures, the lighter of two nodes is selected, a login
      is allocated an existing game server.
    - Around them: offline events come back in order, once unless the trim behind them fails; a lock and an election are exclusive
      while the lease lasts; encryption round trips; weighted choice equals choice in the
      expanded list and random ranges are exact; message ids are stable; client and gateway
      agree on the wire; the durable queue delivers at least once, from the one stream and
      to the one consumer of a subject; the HTTP log is transparent and the server is shut
      down when its process exits; the sheets of a workbook come back from the loader as they were; a process starts and stops
      its parts in order; the configuration is the last valid one read; alerts and
      statistics lose no count; robots log in once.
    - Theorems that describe defects of the code are stated as such: a slow load or an early
      re-entry runs a role twice, a role outside of the snapshot of [Close] is lost, offline
      messages are never handled and events can be trimmed unhandled, an optimistic lock
      gives up silently, an empty save blocks a saver, documents in MongoDB are never loaded, a
      component that cannot be encoded is forgotten, the default auto-save never happens,
      bindings with commas are not kept, a node whose lease ran out never registers again,
      too many logins at once stop the logon service, a crash keeps a role from logging out,
      a stopping account server leaves batches unanswered, the bus is never closed, a change
      of the configuration can be missed, names with underscores make unloadable tables, a
      graceful stop can return before game servers were told and never closes a session that
      starts behind its sweep, an outage of NATS is never
      shown, a durable message before the first server is lost, the batcher over a queue
      never stops.

    ** Fuel and bounds

    [decode_loop] gets one unit of fuel per byte and one more, which [batch_decode_total]
    shows to be enough; [chunks] gets the length of its list. Login sequence numbers are
    32 bits wide: the theorems on login sessions are about fewer than [2 ^ 32 - 1] logins
    of an account. Account ids stay below [2 ^ 53], beyond which Lua numbers are inexact. A
    kicked role needs at most 1606 steps of its goroutine to exit: 1600 is the size of its
    queue.

    The reader of JSON gets at least two units of fuel per character, which [p_ok] shows to
    be enough for any text.

    ** What is not modelled

    Generated protocol code: messages are an interface. The libraries the code calls (NATS,
    etcd, Redis, MongoDB, gin, gorilla's web sockets, redsync, zap, the spreadsheet library)
    are arguments or interfaces; what is left of the code around them only passes options on
    or formats text: the redsync mutexes of pkg/lock/lock.go, the HTTP client, the printing
    of stacks and of versions, the formatting of logs, times and floats, the months of
    pkg/util/time.go (which depend on the zone), the listening side of the robot's sessions,
    which nothing starts. The expiry of role and bind keys is not part of the stores; that of the
    account hash is a step of the login sessions in [Account.v]. *)

From stdpp Require Export base tactics option list gmap strings numbers pretty sorting.
From Stdlib Require Export ZArith Lia.

Global Open Scope Z_scope.
Global Set Default Goal Selector "!".

(** ** Scope and hint databases of the development *)

Declare Scope srv_scope.
Delimit Scope srv_scope with srv.

Create HintDb srv discriminated.
Create Rewrite HintDb srvw.

(** ** Machine-width integers

    A Go integer of width [w] is a [Z]; a conversion such as [uint8(x)] or
    [int32(x)] is one of the wrap functions below. *)

Definition u8 (z : Z) : Z := z mod 2 ^ 8.
Definition u32 (z : Z) : Z := z mod 2 ^ 32.
Definition u64 (z : Z) : Z := z mod 2 ^ 64.
Definition i32 (z : Z) : Z := (z + 2 ^ 31) mod 2 ^ 32 - 2 ^ 31.
Definition i64 (z : Z) : Z := (z + 2 ^ 63) mod 2 ^ 64 - 2 ^ 63.

Definition is_u8 (z : Z) : Prop := 0 ≤ z < 2 ^ 8.
Definition is_u32 (z : Z) : Prop := 0 ≤ z < 2 ^ 32.
Definition is_u64 (z : Z) : Prop := 0 ≤ z < 2 ^ 64.
Definition is_i32 (z : Z) : Prop := - 2 ^ 31 ≤ z < 2 ^ 31.
Definition is_i64 (z : Z) : Prop := - 2 ^ 63 ≤ z < 2 ^ 63.

#[export] Instance is_u8_dec z : Decision (is_u8 z).
Proof. unfold is_u8. apply _. Defined.
#[export] Instance is_u32_dec z : Decision (is_u32 z).
Proof. unfold is_u32. apply _. Defined.
#[export] Instance is_u64_dec z : Decision (is_u64 z).
Proof. unfold is_u64. apply _. Defined.
#[export] Instance is_i32_dec z : Decision (is_i32 z).
Proof. unfold is_i32. apply _. Defined.
#[export] Instance is_i64_dec z : Decision (is_i64 z).
Proof. unfold is_i64. apply _. Defined.

(** [width] unfolds the width predicates and wraps for [lia]. *)
Ltac width :=
  unfold is_u8, is_u32, is_u64, is_i32, is_i64, u8, u32, u64, i32, i64 in *;
  change (2 ^ 8) with 256 in *; change (2 ^ 31) with 2147483648 in *;
  change (2 ^ 32) with 4294967296 in *;
  change (2 ^ 63) with 9223372036854775808 in *;
  change (2 ^ 64) with 18446744073709551616 in *;
  try lia.

Lemma u8_id z : is_u8 z → u8 z = z.
Proof. intros. unfold u8. apply Z.mod_small. assumption. Qed.
Lemma u32_id z : is_u32 z → u32 z = z.
Proof. intros. unfold u32. apply Z.mod_small. assumption. Qed.
Lemma u64_id z : is_u64 z → u64 z = z.
Proof. intros. unfold u64. apply Z.mod_small. assumption. Qed.
Lemma u8_range z : is_u8 (u8 z).
Proof. apply Z.mod_pos_bound. lia. Qed.
Lemma u32_range z : is_u32 (u32 z).
Proof. apply Z.mod_pos_bound. lia. Qed.
Lemma u64_range z : is_u64 (u64 z).
Proof. apply Z.mod_pos_bound. lia. Qed.
Lemma i32_range z : is_i32 (i32 z).
Proof. unfold i32, is_i32. pose proof (Z.mod_pos_bound (z + 2 ^ 31) (2 ^ 32)). lia. Qed.
Lemma i32_id z : is_i32 z → i32 z = z.
Proof. intros. unfold i32. rewrite Z.mod_small; width. Qed.
Lemma i64_id z : is_i64 z → i64 z = z.
Proof. intros. unfold i64. rewrite Z.mod_small; width. Qed.

#[export] Hint Resolve u8_range u32_range u64_range i32_range : srv.

(** ** Go error values

    The sentinel errors the sources compare with [errors.Is], and every other
    error by its message. *)

Inductive gerror :=
| ErrClosed            (* dep.ErrClosed   *)
| ErrArg               (* dep.ErrArg      *)
| ErrQueueFull         (* queue.ErrQueueFull *)
| ErrQueueClosed       (* queue.ErrQueueClosed *)
| ErrMsg (msg : string).

#[export] Instance gerror_eq_dec : EqDecision gerror.
Proof. solve_decision. Defined.

(** A Go function returning [(T, error)] returns [result T]. *)
Inductive result (A : Type) :=
| Ok (a : A)
| Err (e : gerror).
Arguments Ok {_} _.
Arguments Err {_} _.

#[export] Instance result_eq_dec `{EqDecision A} : EqDecision (result A).
Proof. solve_decision. Defined.

Definition is_ok {A} (r : result A) : bool := match r with Ok _ => true | Err _ => false end.

(** A Go function returning [error] alone: [None] is [nil]. *)
Abbreviation go_error := (option gerror).

Notation "'try' x <- c ; k" := (match c with Ok x => k | Err e => Err e end)
  (at level 10, x name, c at level 100, k at level 200) : srv_scope.

(** ** Strings *)

Lemma append_cons c s t : String c s +:+ t = String c (s +:+ t).
Proof. reflexivity. Qed.
Lemma append_nil_l s : EmptyString +:+ s = s.
Proof. reflexivity. Qed.
Lemma append_nil s : s +:+ EmptyString = s.
Proof. induction s as [|c s IH]; [done|]. by rewrite append_cons, IH. Qed.
Lemma append_assoc s t u : s +:+ (t +:+ u) = (s +:+ t) +:+ u.
Proof.
  induction s as [|a s IH]; [done|]. change (String a (s +:+ (t +:+ u)) = String a ((s +:+ t) +:+ u)). by rewrite IH.
Qed.

(** ** Byte slices

    A byte is a [Z] in [0, 256); a byte slice is a list of them. *)

Abbreviation bytes := (list Z).

Definition is_bytes (l : bytes) : Prop := Forall is_u8 l.

Definition len {A} (l : list A) : Z := Z.of_nat (length l).

(** [encoding/binary]'s little- and big-endian integers. *)
Fixpoint le_split (n : nat) (z : Z) : bytes :=
  match n with
  | O => []
  | S n => z mod 256 :: le_split n (z / 256)
  end.

Fixpoint le_combine (l : bytes) : Z :=
  match l with
  | [] => 0
  | b :: l => b + 256 * le_combine l
  end.

Definition be_split (n : nat) (z : Z) : bytes := reverse (le_split n z).
Definition be_combine (l : bytes) : Z := le_combine (reverse l).

Lemma length_le_split n z : length (le_split n z) = n.
Proof. revert z. induction n; intros; simpl; [done|]. by rewrite IHn. Qed.

Lemma le_combine_le_split n z : le_combine (le_split n z) = z mod 256 ^ Z.of_nat n.
Proof.
  revert z. induction n as [|n IH]; intros z.
  { simpl. by rewrite Z.mod_1_r. }
  cbn [le_split le_combine]. rewrite IH, Nat2Z.inj_succ, Z.pow_succ_r by lia.
  rewrite Z.rem_mul_r by lia. lia.
Qed.

Lemma le_split_bytes n z : is_bytes (le_split n z).
Proof.
  revert z. induction n; intros z; simpl; constructor; [|apply IHn].
  unfold is_u8. apply Z.mod_pos_bound. lia.
Qed.

Lemma le_combine_range l : is_bytes l → 0 ≤ le_combine l < 256 ^ len l.
Proof.
  induction 1 as [|b l Hb Hl IH]; [simpl; unfold len; simpl; lia|].
  unfold len in *. cbn [le_combine length]. rewrite Nat2Z.inj_succ, Z.pow_succ_r by lia. width.
Qed.

Lemma le_split_le_combine l : is_bytes l → le_split (length l) (le_combine l) = l.
Proof.
  induction 1 as [|b l Hb Hl IH]; [done|]. cbn [length le_split le_combine].
  rewrite (Z.mul_comm 256), Z.mod_add, Z.mod_small, Z.div_add by (width).
  rewrite Z.div_small by width. by rewrite Z.add_0_l, IH.
Qed.

Lemma be_combine_be_split n z : be_combine (be_split n z) = z mod 256 ^ Z.of_nat n.
Proof. unfold be_combine, be_split. by rewrite reverse_involutive, le_combine_le_split. Qed.

Lemma length_be_split n z : length (be_split n z) = n.
Proof. unfold be_split. by rewrite length_reverse, length_le_split. Qed.

Lemma be_split_be_combine l : is_bytes l → be_split (length l) (be_combine l) = l.
Proof.
  intros. unfold be_split, be_combine. rewrite <- (length_reverse l), le_split_le_combine.
  - apply reverse_involutive.
  - by apply Forall_reverse.
Qed.

(** [b[i:j]] of a Go slice with [0 <= i <= j <= len b]; [None] is the
    run-time panic. *)
Definition slice {A} (b : list A) (i j : Z) : option (list A) :=
  if decide (0 ≤ i ≤ j ∧ j ≤ len b)
  then Some (take (Z.to_nat (j - i)) (drop (Z.to_nat i) b)) else None.

(** [copy(b[i:], bs)] where the write must fit (a [PutUint*] or an index
    assignment): [None] is the run-time panic. *)
Definition write_at (b : bytes) (i : Z) (bs : bytes) : option bytes :=
  if decide (0 ≤ i ∧ i + len bs ≤ len b)
  then Some (take (Z.to_nat i) b ++ bs ++ drop (Z.to_nat (i + len bs)) b) else None.

Lemma length_len {A} (l : list A) : length l = Z.to_nat (len l).
Proof. unfold len. lia. Qed.
Lemma len_app {A} (l k : list A) : len (l ++ k) = len l + len k.
Proof. unfold len. rewrite length_app. lia. Qed.
Lemma len_cons {A} (x : A) l : len (x :: l) = 1 + len l.
Proof. unfold len. cbn [length]. lia. Qed.
Lemma len_nil {A} : len (@nil A) = 0.
Proof. reflexivity. Qed.
Lemma len_nonneg {A} (l : list A) : 0 ≤ len l.
Proof. unfold len. lia. Qed.
Lemma len_le_split n z : len (le_split n z) = Z.of_nat n.
Proof. unfold len. by rewrite length_le_split. Qed.
Lemma len_replicate {A} n (x : A) : len (replicate n x) = Z.of_nat n.
Proof. unfold len. by rewrite length_replicate. Qed.
Lemma len_0_nil {A} (l : list A) : len l = 0 → l = [].
Proof. unfold len. destruct l; simpl; [done|lia]. Qed.
Lemma len_take {A} n (l : list A) : len (take n l) = Z.min (Z.of_nat n) (len l).
Proof. unfold len. rewrite length_take. lia. Qed.
Lemma len_drop {A} n (l : list A) : len (drop n l) = Z.max 0 (len l - Z.of_nat n).
Proof. unfold len. rewrite length_drop. lia. Qed.

#[export] Hint Rewrite @len_app @len_cons @len_nil len_le_split @len_replicate @len_take @len_drop : srvw.
#[export] Hint Resolve len_nonneg : srv.

(** [lens] rewrites list lengths and calls [lia]. *)
Ltac lens := autorewrite with srvw in *;
  repeat match goal with
         | |- context [len ?l] => lazymatch goal with
             | _ : 0 ≤ len l |- _ => fail
             | _ => pose proof (len_nonneg l) end
         | H : context [len ?l] |- _ => lazymatch goal with
             | _ : 0 ≤ len l |- _ => fail
             | _ => pose proof (len_nonneg l) end
         end; try lia.

Lemma write_at_app pre old post bs i :
  len pre = i → length old = length bs →
  write_at (pre ++ old ++ post) i bs = Some (pre ++ bs ++ post).
Proof.
  intros Hi Hl. assert (len old = len bs) by (unfold len; lia).
  unfold write_at. rewrite decide_True by lens. f_equal.
  replace (Z.to_nat i) with (length pre) by (unfold len in *; lia).
  rewrite take_app_length. f_equal. f_equal.
  replace (Z.to_nat (i + len bs)) with (length pre + length old)%nat by (unfold len in *; lia).
  rewrite <- drop_drop, drop_app_length, drop_app_length. done.
Qed.

Lemma slice_app {A} (pre mid post : list A) i j :
  len pre = i → j = i + len mid → slice (pre ++ mid ++ post) i j = Some mid.
Proof.
  intros Hi ->. unfold slice. rewrite decide_True by lens.
  replace (Z.to_nat i) with (length pre) by (unfold len in *; lia).
  rewrite drop_app_length. f_equal.
  replace (Z.to_nat (i + len mid - i)) with (length mid) by (unfold len in *; lia).
  apply take_app_length.
Qed.

Lemma slice_suffix {A} (pre l : list A) i j :
  len pre = i → j = len (pre ++ l) → slice (pre ++ l) i j = Some l.
Proof.
  intros Hi ->. rewrite <- (app_nil_r l) at 1. apply slice_app; [done|lens].
Qed.

Lemma slice_prefix {A} (mid post : list A) j :
  j = len mid → slice (mid ++ post) 0 j = Some mid.
Proof. intros ->. by apply (slice_app [] mid post). Qed.

(** ** Bit fields *)

(** Packing a field below a shifted one is addition. *)
Lemma lor_shiftl a b n : 0 ≤ n → 0 ≤ b < 2 ^ n → Z.lor (Z.shiftl a n) b = a * 2 ^ n + b.
Proof.
  intros Hn Hb. rewrite <- Z.shiftl_mul_pow2 by done. symmetry. apply Z.add_nocarry_lor.
  apply Z.bits_inj'. intros k Hk. rewrite Z.land_spec, Z.bits_0.
  destruct (decide (k < n)); [by rewrite Z.shiftl_spec_low|].
  rewrite <- (Z.mod_small b (2 ^ n)), Z.mod_pow2_bits_high by lia. apply andb_false_r.
Qed.

Lemma land_le_r a b : 0 ≤ b → 0 ≤ Z.land a b ≤ b.
Proof.
  intros Hb. split; [apply Z.land_nonneg; by right|].
  rewrite Z.land_comm. assert (E : Z.ldiff b a + Z.land b a = b).
  { rewrite Z.add_nocarry_lor; [apply Z.lor_ldiff_and|].
    apply Z.bits_inj'. intros n _. rewrite !Z.land_spec, Z.ldiff_spec, Z.bits_0.
    by destruct (Z.testbit b n), (Z.testbit a n). }
  assert (0 ≤ Z.ldiff b a) by (apply Z.ldiff_nonneg; by left). lia.
Qed.

(** ** Filters *)

Lemma filter_ext_in {A} (P Q : A → Prop) `{!∀ x, Decision (P x), !∀ x, Decision (Q x)} (l : list A) :
  (∀ x, x ∈ l → P x ↔ Q x) → filter P l = filter Q l.
Proof.
  induction l as [|x l IH]; intros Hi; [done|]. rewrite !filter_cons, IH.
  - destruct (Hi x) as [H1 H2]; [by left|]. repeat case_decide; tauto || done.
  - intros y Hy. apply Hi. by right.
Qed.

Lemma filter_true_in {A} (P : A → Prop) `{!∀ x, Decision (P x)} (l : list A) :
  (∀ x, x ∈ l → P x) → filter P l = l.
Proof.
  induction l as [|x l IH]; intros Hi; [done|]. rewrite filter_cons_True by (apply Hi; by left).
  rewrite IH; [done|]. intros y Hy. apply Hi. by right.
Qed.
Lemma filter_false_in {A} (P : A → Prop) `{!∀ x, Decision (P x)} (l : list A) :
  (∀ x, x ∈ l → ¬ P x) → filter P l = [].
Proof.
  induction l as [|x l IH]; intros Hi; [done|]. rewrite filter_cons_False by (apply Hi; by left).
  apply IH. intros y Hy. apply Hi. by right.
Qed.

(** ** Maps *)

Lemma alter_Some {V} (f : V → V) (m : gmap Z V) k v : m !! k = Some v → alter f k m = <[k := f v]> m.
Proof.
  intros E. apply map_eq. intros j. destruct (decide (j = k)) as [->|].
  - by rewrite lookup_insert_eq, lookup_alter_eq, E.
  - by rewrite lookup_insert_ne, lookup_alter_ne.
Qed.
Lemma alter_None {V} (f : V → V) (m : gmap Z V) k : m !! k = None → alter f k m = m.
Proof.
  intros E. apply map_eq. intros j. destruct (decide (j = k)) as [->|].
  - by rewrite lookup_alter_eq, E.
  - by rewrite lookup_alter_ne.
Qed.

(** ** Strings *)

Lemma append_char_inj c s t : s +:+ String c EmptyString = t +:+ String c EmptyString → s = t.
Proof.
  revert t. induction s as [|a s IH]; intros [|b t] E; cbn in E; [done| | |].
  - injection E as _ E. by destruct t.
  - injection E as _ E. by destruct s.
  - injection E as -> E. f_equal. by apply IH.
Qed.

(** ** Small general tactics *)

(** Decide a closed decidable goal by evaluation. *)
Ltac dec := apply (bool_decide_unpack _); vm_compute; exact I.

(** Split a conjunction goal completely. *)
Ltac splits := repeat match goal with |- _ ∧ _ => split end.

(** Take the conjunctions of the context apart and prove those of the goal one by one. *)
Ltac conjs := repeat match goal with H : _ ∧ _ |- _ => destruct H end; simplify_eq/=; splits; first [done|lia|congruence|exfalso; lia|idtac].

(** Case analysis on every [match]/[if] scrutinee of the goal, with equations. *)
Ltac cases := repeat (case_match; simplify_eq/=; try done).

(** ** Folds and invariants of step relations *)

Lemma fold_left_inv {A B} (P : A → Prop) (f : A → B → A) l a :
  P a → (∀ a b, P a → P (f a b)) → P (fold_left f l a).
Proof. intros Ha Hf. revert a Ha. induction l; intros; cbn; eauto. Qed.


(** [P] is preserved by [R]. *)
Definition preserved {A} (R : A → A → Prop) (P : A → Prop) : Prop :=
  ∀ s s', R s s' → P s → P s'.

Lemma rtc_preserved {A} (R : A → A → Prop) (P : A → Prop) s s' :
  preserved R P → rtc R s s' → P s → P s'.
Proof. intros HP. induction 1; eauto. Qed.
