(* ===== verification/Gmsg.v ===== *)
(** * pkg/gnet/gmsg: the message frame and the batch decoder

    A message travels as [len(4) | msgID(4) | actorID(8) | sesID(8) | fromSer |
    fromSerID | toSer | toSerID | flag | data], all integers little endian.
    [DecodeManyAndHandle] splits a batch of such frames and hands every decoded
    message to a callback. *)

From S2P Require Import Prelude.

(** ** Data *)

Definition Normal : Z := 0.
Definition Forward : Z := 1.
Definition Broadcast : Z := Z.shiftl 1 1.

Definition FrameLenSize : Z := 4.
Definition FrameBodyHeadSize : Z := 4 + 8 + 8 + 1 + 1 + 1 + 1 + 1.

Record Head := mkHead {
  ActorID : Z; SesID : Z; MsgID : Z; Flag : Z;
  FromSer : Z; FromSerID : Z; ToSer : Z; ToSerID : Z }.

(** [U] (the handler's receiver) never travels; [reply] is set on receipt. *)
Record Message := mkMessage { msg_head : Head; msg_data : bytes; msg_reply : string }.

#[export] Instance Head_eq_dec : EqDecision Head.
Proof. solve_decision. Defined.
#[export] Instance Message_eq_dec : EqDecision Message.
Proof. solve_decision. Defined.

(** A head whose fields are in the range of their Go types. *)
Definition head_wf (h : Head) : Prop :=
  is_u64 (ActorID h) ∧ is_u64 (SesID h) ∧ is_u32 (MsgID h) ∧ is_u8 (Flag h) ∧
  is_u8 (FromSer h) ∧ is_u8 (FromSerID h) ∧ is_u8 (ToSer h) ∧ is_u8 (ToSerID h).

#[export] Instance head_wf_dec h : Decision (head_wf h).
Proof. unfold head_wf. apply _. Defined.

(** ** Encoding *)

Definition Head_EncodeTo (head : Head) (dst : bytes) (bodySize : Z) : option bytes :=
  dst ← write_at dst 0 (le_split 4 (u32 bodySize));
  dst ← write_at dst 4 (le_split 4 (MsgID head));
  dst ← write_at dst 8 (le_split 8 (ActorID head));
  dst ← write_at dst 16 (le_split 8 (SesID head));
  dst ← write_at dst 24 [FromSer head];
  dst ← write_at dst 25 [FromSerID head];
  dst ← write_at dst 26 [ToSer head];
  dst ← write_at dst 27 [ToSerID head];
  write_at dst 28 [Flag head].

(** [copy(dst[29:], data)] copies what fits; [dst[29:]] panics on a short [dst]. *)
Definition Message_EncodeTo (s : Message) (dst : bytes) (bodySize : Z) : option bytes :=
  dst ← Head_EncodeTo (msg_head s) dst bodySize;
  let off := FrameLenSize + FrameBodyHeadSize in
  room ← slice dst off (len dst);
  write_at dst off (take (length room) (msg_data s)).

(** ** Decoding *)

Definition errHeader : gerror := ErrMsg "decode error: buffer too small for header".

(** The reads are in range once the length guard has passed; a read out of
    range would be the panic [None]. *)
Definition Head_Decode (buf : bytes) : option (result Head) :=
  if decide (len buf < FrameBodyHeadSize) then Some (Err errHeader)
  else
    m ← slice buf 0 4;
    a ← slice buf 4 12;
    s ← slice buf 12 20;
    fs ← slice buf 20 21;
    fsi ← slice buf 21 22;
    ts ← slice buf 22 23;
    tsi ← slice buf 23 24;
    fl ← slice buf 24 25;
    Some (Ok {| MsgID := le_combine m; ActorID := le_combine a; SesID := le_combine s;
                FromSer := le_combine fs; FromSerID := le_combine fsi;
                ToSer := le_combine ts; ToSerID := le_combine tsi;
                Flag := le_combine fl |}).

Definition Message_Decode (buf : bytes) : option (result Message) :=
  if decide (len buf < FrameBodyHeadSize) then Some (Err errHeader)
  else
    rh ← Head_Decode buf;
    match rh with
    | Err e => Some (Err e)
    | Ok h =>
        d ← slice buf FrameBodyHeadSize (len buf);
        Some (Ok {| msg_head := h; msg_data := d; msg_reply := EmptyString |})
    end.

Definition SetReply (m : Message) (str : string) : Message :=
  {| msg_head := msg_head m; msg_data := msg_data m; msg_reply := str |}.

Definition Reply (m : Message) : string := msg_reply m.

(** ** The batch decoder *)

(** The subject's metrics the loop updates. *)
Record SubMetrics := mkSub { DecodeErr : Z; MsgCounter : gmap Z Z }.

Definition incDecodeErr (sm : SubMetrics) : SubMetrics :=
  {| DecodeErr := DecodeErr sm + 1; MsgCounter := MsgCounter sm |}.
Definition incMsgCounter (id : Z) (sm : SubMetrics) : SubMetrics :=
  {| DecodeErr := DecodeErr sm;
     MsgCounter := <[id := default 0 (MsgCounter sm !! id) + 1]> (MsgCounter sm) |}.

Definition errPrefix : gerror := ErrMsg "batch decode error: missing length prefix".
Definition errSub : gerror := ErrMsg "batch decode error: buffer too small for sub-message".

(** One pass of the [for] body at [offset]. *)
Inductive loop_step (S : Type) :=
| Return (e : go_error) (sm : SubMetrics) (s : S)
| Continue (offset : Z) (sm : SubMetrics) (s : S).
Arguments Return {_} _ _ _.
Arguments Continue {_} _ _ _.

Section DecodeMany.
Context {S : Type} (reply : string) (callback : Message → S → S).

Definition decode_body (buf : bytes) (offset : Z) (sm : SubMetrics) (s : S) : option (loop_step S) :=
  if decide (len buf - offset < 4) then Some (Return (Some errPrefix) (incDecodeErr sm) s)
  else
    pre ← slice buf offset (offset + 4);
    let subSize := le_combine pre in
    let offset := offset + 4 in
    if decide (len buf - offset < subSize) then Some (Return (Some errSub) (incDecodeErr sm) s)
    else
      subBuf ← slice buf offset (offset + subSize);
      r ← Message_Decode subBuf;
      match r with
      | Err _ => Some (Continue (offset + subSize) (incDecodeErr sm) s)
      | Ok msg =>
          let sm := incMsgCounter (MsgID (msg_head msg)) sm in
          Some (Continue (offset + subSize) sm (callback (SetReply msg reply) s))
      end.

(** [None] is a panic or exhausted fuel; [decode_loop_total] shows that
    neither happens with [length buf + 1] units. *)
Fixpoint decode_loop (fuel : nat) (buf : bytes) (offset : Z) (sm : SubMetrics) (s : S)
    : option (go_error * SubMetrics * S) :=
  match fuel with
  | O => None
  | Datatypes.S fuel =>
      if decide (offset < len buf) then
        r ← decode_body buf offset sm s;
        match r with
        | Return e sm s => Some (e, sm, s)
        | Continue offset sm s => decode_loop fuel buf offset sm s
        end
      else Some (None, sm, s)
  end.

Definition DecodeManyAndHandle (buf : bytes) (sm : SubMetrics) (s : S)
    : option (go_error * SubMetrics * S) :=
  decode_loop (Datatypes.S (length buf)) buf 0 sm s.

End DecodeMany.

(** ** The frame as a specification *)

(** The bytes of a head after the length prefix, and of a whole frame. *)
Definition head_bytes (h : Head) : bytes :=
  le_split 4 (MsgID h) ++ le_split 8 (ActorID h) ++ le_split 8 (SesID h) ++
  [FromSer h; FromSerID h; ToSer h; ToSerID h; Flag h].

Definition frame (m : Message) : bytes :=
  le_split 4 (u32 (FrameBodyHeadSize + len (msg_data m))) ++ head_bytes (msg_head m) ++ msg_data m.

#[global] Arguments frame : simpl never.
#[global] Arguments head_bytes : simpl never.

(** A message that fits the length prefix. *)
Definition msg_wf (m : Message) : Prop :=
  head_wf (msg_head m) ∧ FrameBodyHeadSize + len (msg_data m) < 2 ^ 32.

#[export] Instance msg_wf_dec m : Decision (msg_wf m).
Proof. unfold msg_wf. apply _. Defined.

Lemma len_head_bytes h : len (head_bytes h) = FrameBodyHeadSize.
Proof. unfold head_bytes. lens. reflexivity. Qed.

Lemma len_frame m : len (frame m) = FrameLenSize + FrameBodyHeadSize + len (msg_data m).
Proof. unfold frame. autorewrite with srvw. rewrite len_head_bytes. unfold FrameLenSize. lia. Qed.

#[export] Hint Rewrite len_head_bytes len_frame : srvw.

(** [lens] with the frame constants and widths unfolded. *)
Ltac frames := lens; unfold FrameLenSize, FrameBodyHeadSize in *; width.

(** One write of an encoder that fills its target from the left: [pre] is what
    has been written so far. *)
Lemma write_at_step (pre dst bs : bytes) (i : Z) :
  len pre = i → i + len bs ≤ len dst →
  write_at (pre ++ drop (length pre) dst) i bs
    = Some ((pre ++ bs) ++ drop (length (pre ++ bs)) dst).
Proof.
  intros Hi Hl. rewrite <- (take_drop (length bs) (drop (length pre) dst)) at 1.
  rewrite write_at_app.
  - rewrite drop_drop, length_app, <- app_assoc. done.
  - done.
  - rewrite length_take, length_drop. unfold len in *. lia.
Qed.

Ltac enc_step :=
  lazymatch goal with
  | |- context [write_at (?p ++ drop _ ?d) ?i ?b] =>
      rewrite (write_at_step p d b i) by (unfold FrameBodyHeadSize in *; lens; done);
      cbn [mbind option_bind]
  end.

Lemma Head_EncodeTo_spec h dst n :
  FrameLenSize + FrameBodyHeadSize ≤ len dst →
  Head_EncodeTo h dst n
    = Some ((le_split 4 (u32 n) ++ head_bytes h) ++ drop 29 dst).
Proof.
  unfold FrameLenSize, FrameBodyHeadSize. intros Hl. unfold Head_EncodeTo.
  change dst with ([] ++ drop (length (@nil Z)) dst) at 1.
  do 9 enc_step. unfold head_bytes. rewrite <- !app_assoc. done.
Qed.

(** Encoding into a target of exactly the frame's size writes the frame. *)
Lemma Message_EncodeTo_spec m dst :
  len dst = FrameLenSize + FrameBodyHeadSize + len (msg_data m) →
  Message_EncodeTo m dst (FrameBodyHeadSize + len (msg_data m)) = Some (frame m).
Proof.
  intros Hl. unfold Message_EncodeTo.
  rewrite Head_EncodeTo_spec by lens. cbn [mbind option_bind].
  set (pre := le_split 4 _ ++ head_bytes _).
  assert (Hp : len pre = FrameLenSize + FrameBodyHeadSize) by (unfold pre; lens; done).
  assert (Hd : len (drop 29 dst) = len (msg_data m))
    by (unfold FrameLenSize, FrameBodyHeadSize in *; lens).
  rewrite slice_suffix by done. cbn [mbind option_bind].
  rewrite take_ge by (unfold len in *; lia).
  rewrite <- (app_nil_r (drop 29 dst)), write_at_app by (unfold len in *; lia).
  rewrite app_nil_r. unfold pre, frame. by rewrite <- app_assoc.
Qed.

(** Reading back the bytes of a head. *)
Lemma Head_Decode_spec h d :
  head_wf h → Head_Decode (head_bytes h ++ d) = Some (Ok h).
Proof.
  intros (Ha & Hs & Hm & Hf & H1 & H2 & H3 & H4). unfold Head_Decode.
  rewrite decide_False by (lens). unfold head_bytes.
  set (A := le_split 4 _). set (B := le_split 8 _). set (C := le_split 8 (SesID h)).
  assert (HA : len A = 4) by (unfold A; lens). assert (HB : len B = 8) by (unfold B; lens).
  assert (HC : len C = 8) by (unfold C; lens).
  set (t := [FromSer h; FromSerID h; ToSer h; ToSerID h; Flag h]).
  rewrite <- !app_assoc.
  rewrite (slice_prefix _ _ 4) by done. cbn [mbind option_bind].
  rewrite (slice_app A B _ 4 12) by lia. cbn [mbind option_bind].
  rewrite (app_assoc A), (slice_app (A ++ B) C _ 12 20) by lens. cbn [mbind option_bind].
  rewrite (app_assoc (A ++ B)). set (P := (A ++ B) ++ C).
  assert (HP : len P = 20) by (unfold P; lens).
  assert (Hb : ∀ l x r i j, t = l ++ x :: r → 20 + len l = i → j = i + 1 →
                 slice (P ++ t ++ d) i j = Some [x]).
  { intros l x r i j -> <- ->. rewrite <- app_assoc, app_assoc.
    change ((x :: r) ++ d) with ([x] ++ r ++ d).
    apply slice_app; lens. }
  rewrite (Hb [] (FromSer h) _ 20 21), (Hb [FromSer h] (FromSerID h) _ 21 22),
    (Hb [FromSer h; FromSerID h] (ToSer h) _ 22 23),
    (Hb [FromSer h; FromSerID h; ToSer h] (ToSerID h) _ 23 24),
    (Hb [FromSer h; FromSerID h; ToSer h; ToSerID h] (Flag h) _ 24 25) by done.
  cbn [mbind option_bind]. unfold A, B, C. rewrite !le_combine_le_split. cbn [le_combine].
  destruct h; cbn in *. rewrite !Z.mod_small by width. rewrite !Z.add_0_r. done.
Qed.

Lemma Message_Decode_spec h d :
  head_wf h → Message_Decode (head_bytes h ++ d) = Some (Ok (mkMessage h d EmptyString)).
Proof.
  intros Hh. unfold Message_Decode. rewrite decide_False by lens.
  rewrite Head_Decode_spec by done. cbn [mbind option_bind].
  rewrite slice_suffix by (lens; done). done.
Qed.

(** A body shorter than a head is an error, never a panic. *)
Lemma Message_Decode_short buf :
  len buf < FrameBodyHeadSize → Message_Decode buf = Some (Err errHeader).
Proof. intros. unfold Message_Decode. by rewrite decide_True. Qed.

(** Any slice within bounds is defined. *)
Lemma slice_some {A} (b : list A) i j : 0 ≤ i ≤ j → j ≤ len b → is_Some (slice b i j).
Proof. intros. unfold slice. rewrite decide_True by lia. eauto. Qed.

Ltac slice_ok :=
  lazymatch goal with
  | |- context [slice ?b ?i ?j] =>
      let x := fresh "x" in let E := fresh "E" in
      destruct (slice_some b i j) as [x E]; [lia|lia|]; rewrite E; cbn [mbind option_bind]
  end.

Lemma Message_Decode_total buf : ∃ r, Message_Decode buf = Some r.
Proof.
  unfold Message_Decode. case_decide as H; [eauto|].
  unfold Head_Decode. rewrite decide_False by done. unfold FrameBodyHeadSize in *.
  do 8 slice_ok. slice_ok. eauto.
Qed.

(** ** The decode loop *)

(** What a peer may put in a batch: a frame, or a length prefix followed by a
    body too short for a head. *)
Inductive item :=
| IMsg (m : Message)
| IShort (body : bytes).

Definition item_bytes (i : item) : bytes :=
  match i with
  | IMsg m => frame m
  | IShort body => le_split 4 (len body) ++ body
  end.

Definition item_wf (i : item) : Prop :=
  match i with IMsg m => msg_wf m | IShort body => len body < FrameBodyHeadSize end.

#[export] Instance item_wf_dec i : Decision (item_wf i).
Proof. destruct i; apply _. Defined.

(** What follows the last complete item: nothing, a cut length prefix, or a
    length prefix that announces more than is left. *)
Inductive tail :=
| TNone
| TPrefix (cut : bytes)
| TSub (n : Z) (cut : bytes).

Definition tail_bytes (t : tail) : bytes :=
  match t with TNone => [] | TPrefix cut => cut | TSub n cut => le_split 4 n ++ cut end.

Definition tail_wf (t : tail) : Prop :=
  match t with
  | TNone => True
  | TPrefix cut => 0 < len cut < 4
  | TSub n cut => is_u32 n ∧ len cut < n
  end.

#[export] Instance tail_wf_dec t : Decision (tail_wf t).
Proof. destruct t; apply _. Defined.

Definition tail_error (t : tail) : go_error :=
  match t with TNone => None | TPrefix _ => Some errPrefix | TSub _ _ => Some errSub end.

Section LoopFacts.
Context {S : Type} (reply : string) (callback : Message → S → S).

(** The effect of one item and of the tail on metrics and callback state. *)
Definition item_effect (st : SubMetrics * S) (i : item) : SubMetrics * S :=
  match i with
  | IMsg m => (incMsgCounter (MsgID (msg_head m)) st.1, callback (SetReply m reply) st.2)
  | IShort _ => (incDecodeErr st.1, st.2)
  end.

Definition tail_effect (t : tail) (sm : SubMetrics) : SubMetrics :=
  match t with TNone => sm | _ => incDecodeErr sm end.

(** Both kinds of item are a prefix announcing a body that is there. *)
Lemma decode_body_prefix (pre body rest : bytes) n sm s :
  len body = n → is_u32 n →
  decode_body reply callback (pre ++ le_split 4 n ++ body ++ rest) (len pre) sm s =
    (r ← Message_Decode body;
     match r with
     | Err _ => Some (Continue (len pre + 4 + n) (incDecodeErr sm) s)
     | Ok msg => Some (Continue (len pre + 4 + n) (incMsgCounter (MsgID (msg_head msg)) sm)
                         (callback (SetReply msg reply) s))
     end).
Proof.
  intros Hn Hr. unfold decode_body. rewrite decide_False by lens.
  rewrite (slice_app pre (le_split 4 n)) by (lens; done). cbn [mbind option_bind].
  rewrite le_combine_le_split, Z.mod_small by width.
  rewrite decide_False by lens.
  rewrite app_assoc, (slice_app (pre ++ le_split 4 n) body) by lens. done.
Qed.

Lemma decode_body_item (pre rest : bytes) i sm s :
  item_wf i →
  decode_body reply callback (pre ++ item_bytes i ++ rest) (len pre) sm s =
    Some (Continue (len (pre ++ item_bytes i)) (item_effect (sm, s) i).1 (item_effect (sm, s) i).2).
Proof.
  destruct i as [m|body]; cbn [item_bytes item_wf item_effect fst snd].
  - intros [Hh Hl]. unfold frame. rewrite u32_id by frames.
    rewrite <- app_assoc, (decode_body_prefix pre (head_bytes _ ++ _) rest)
      by frames.
    rewrite Message_Decode_spec by done. cbn [mbind option_bind].
    f_equal. f_equal. lens.
  - intros Hl. rewrite <- app_assoc, decode_body_prefix by frames.
    rewrite Message_Decode_short by done. cbn [mbind option_bind]. f_equal. f_equal. lens.
Qed.

Lemma decode_loop_tail (pre : bytes) t sm s fuel :
  tail_wf t →
  decode_loop reply callback (Datatypes.S fuel) (pre ++ tail_bytes t) (len pre) sm s =
    Some (tail_error t, tail_effect t sm, s).
Proof.
  intros Hw. cbn [decode_loop]. destruct t as [|cut|n cut]; cbn [tail_bytes tail_wf] in *.
  - rewrite decide_False by lens. done.
  - rewrite decide_True by lens. unfold decode_body. rewrite decide_True by lens. done.
  - rewrite decide_True by lens. unfold decode_body. rewrite decide_False by lens.
    rewrite (slice_app pre) by (lens; done). cbn [mbind option_bind].
    rewrite le_combine_le_split, Z.mod_small by width. rewrite decide_True by lens. done.
Qed.

Lemma decode_loop_items (pre : bytes) items t sm s fuel :
  Forall item_wf items → tail_wf t → (length items < fuel)%nat →
  decode_loop reply callback fuel (pre ++ mjoin (item_bytes <$> items) ++ tail_bytes t)
      (len pre) sm s =
    let '(sm', s') := fold_left item_effect items (sm, s) in
    Some (tail_error t, tail_effect t sm', s').
Proof.
  intros Hi Ht. revert pre sm s fuel. induction Hi as [|i items Hw Hi IH]; intros pre sm s fuel Hf.
  { destruct fuel; [cbn in Hf; lia|]. apply decode_loop_tail. done. }
  destruct fuel as [|fuel]; [cbn in Hf; lia|]. cbn [fmap list_fmap mjoin list_join fold_left].
  cbn [decode_loop]. rewrite decide_True; cycle 1.
  { destruct i; cbn; frames. }
  rewrite <- (app_assoc (item_bytes i)), decode_body_item by done. cbn [mbind option_bind].
  rewrite app_assoc.
  destruct (item_effect (sm, s) i) as [sm1 s1]. cbn [fst snd].
  apply IH. cbn in Hf. lia.
Qed.

(** *** Totality *)

Lemma decode_body_total buf offset sm s :
  is_bytes buf → 0 ≤ offset < len buf →
  ∃ r, decode_body reply callback buf offset sm s = Some r ∧
       ∀ o sm' s', r = Continue o sm' s' → offset < o ≤ len buf.
Proof.
  intros Hb Ho. unfold decode_body. case_decide; [eexists; split; [done|congruence]|].
  destruct (slice_some buf offset (offset + 4)) as [p Hp]; [lia|lia|]. rewrite Hp. cbn [mbind option_bind].
  assert (0 ≤ le_combine p).
  { apply le_combine_range. unfold slice in Hp. case_decide; simplify_eq.
    by apply Forall_take, Forall_drop. }
  case_decide; [eexists; split; [done|congruence]|].
  slice_ok. destruct (Message_Decode_total x) as [r Hr]. rewrite Hr. cbn [mbind option_bind].
  destruct r; eexists; (split; [done|]); intros; simplify_eq; lia.
Qed.

Lemma decode_loop_total fuel buf offset sm s :
  is_bytes buf → 0 ≤ offset ≤ len buf → len buf - offset < Z.of_nat fuel →
  is_Some (decode_loop reply callback fuel buf offset sm s).
Proof.
  intros Hb. revert offset sm s. induction fuel as [|fuel IH]; intros offset sm s Ho Hf; [lia|].
  cbn [decode_loop]. case_decide; [|eauto].
  destruct (decode_body_total buf offset sm s) as (r & -> & Hr); [done|lia|].
  cbn [mbind option_bind]. destruct r as [|o sm' s']; [eauto|].
  specialize (Hr _ _ _ eq_refl). apply IH; lia.
Qed.

End LoopFacts.

Lemma length_join_items items :
  Forall item_wf items → (length items ≤ length (mjoin (item_bytes <$> items)))%nat.
Proof.
  induction 1 as [|i items Hw _ IH]; [done|].
  change (mjoin (item_bytes <$> i :: items)) with (item_bytes i ++ mjoin (item_bytes <$> items)).
  rewrite length_app. cbn [length].
  assert (1 ≤ length (item_bytes i))%nat.
  { assert (0 < len (item_bytes i)) by (destruct i; cbn [item_bytes]; frames).
    unfold len in *. lia. }
  lia.
Qed.

(** ** Properties *)

(** C23. The wire format round-trips: encoding well-formed messages one after the
    other, each into a target of exactly its frame size, and decoding the
    concatenation hands the callback exactly those messages, in order, with the
    reply subject set, and reports no error. *)
Theorem batch_roundtrip {S} (reply : string) (cb : Message → S → S) (ms : list Message)
    (bufs : list bytes) (sm : SubMetrics) (s : S) :
  Forall msg_wf ms →
  Forall2 (λ m b, ∃ dst, len dst = FrameLenSize + FrameBodyHeadSize + len (msg_data m) ∧
             Message_EncodeTo m dst (FrameBodyHeadSize + len (msg_data m)) = Some b) ms bufs →
  ∃ sm', DecodeManyAndHandle reply cb (mjoin bufs) sm s =
    Some (None, sm', fold_left (λ s m, cb (SetReply m reply) s) ms s) ∧
    DecodeErr sm' = DecodeErr sm.
Proof.
  intros Hw HF.
  assert (bufs = item_bytes <$> (IMsg <$> ms)) as ->.
  { clear Hw. induction HF as [|m b ms bs (dst & Hl & E) HF IH]; [done|]. cbn.
    rewrite Message_EncodeTo_spec in E by done. injection E as <-. by f_equal. }
  assert (Hi : Forall item_wf (IMsg <$> ms)) by (by apply Forall_fmap).
  unfold DecodeManyAndHandle.
  pose proof (decode_loop_items reply cb [] (IMsg <$> ms) TNone sm s
                (Datatypes.S (length (mjoin (item_bytes <$> (IMsg <$> ms)))))) as E.
  cbn [tail_bytes app] in E. rewrite app_nil_r in E. change (len []) with 0 in E.
  rewrite E; [|done|done|pose proof (length_join_items _ Hi); lia]. clear.
  revert sm s. induction ms as [|m ms IH]; intros sm s; cbn; [eauto|].
  destruct (IH (incMsgCounter (MsgID (msg_head m)) sm) (cb (SetReply m reply) s)) as (sm' & H & H').
  eexists. split; [exact H|]. by rewrite H'.
Qed.

Definition demo_head : Head := mkHead 100001 7 200004 0 0 1 2 3.
Definition demo_msg (d : bytes) : Message := mkMessage demo_head d EmptyString.

Lemma batch_roundtrip_witness :
  ∃ sm', DecodeManyAndHandle "r" (λ m l, m :: l)
      (mjoin [frame (demo_msg [1;2;3]); frame (demo_msg [])]) (mkSub 0 ∅) [] =
    Some (None, sm', fold_left (λ s m, SetReply m "r" :: s) [demo_msg [1;2;3]; demo_msg []] []) ∧
    DecodeErr sm' = 0.
Proof.
  apply (batch_roundtrip "r" (λ m l, m :: l) [demo_msg [1;2;3]; demo_msg []]
           [frame (demo_msg [1;2;3]); frame (demo_msg [])] (mkSub 0 ∅) []).
  - repeat constructor; vm_compute; congruence.
  - repeat constructor.
    + exists (replicate 32 0). split; [reflexivity|vm_compute; reflexivity].
    + exists (replicate 29 0). split; [reflexivity|vm_compute; reflexivity].
Defined.

(** The decoder is robust against malformed batches: over any sequence of
    well-formed frames and bodies too short for a head, followed by nothing, a
    cut length prefix or a body announced but missing, it delivers every
    well-formed frame in order, counts one decode error per bad item, and returns
    the error of the tail. *)
Theorem batch_malformed {S} (reply : string) (cb : Message → S → S) items t sm (s : S) :
  Forall item_wf items → tail_wf t →
  DecodeManyAndHandle reply cb (mjoin (item_bytes <$> items) ++ tail_bytes t) sm s =
    let '(sm', s') := fold_left (item_effect reply cb) items (sm, s) in
    Some (tail_error t, tail_effect t sm', s').
Proof.
  intros Hi Ht. unfold DecodeManyAndHandle. apply (decode_loop_items reply cb []); [done|done|].
  rewrite length_app. pose proof (length_join_items _ Hi). lia.
Qed.

Lemma batch_malformed_witness :
  DecodeManyAndHandle "r" (λ m l, msg_data m :: l)
    (mjoin (item_bytes <$> [IShort [9]; IMsg (demo_msg [5])]) ++ tail_bytes (TSub 9 [1])) (mkSub 0 ∅) []
  = Some (Some errSub, mkSub 2 {[200004 := 1]}, [[5]]).
Proof.
  rewrite (batch_malformed "r" (λ m l, msg_data m :: l) [IShort [9]; IMsg (demo_msg [5])] (TSub 9 [1])).
  - vm_compute. reflexivity.
  - repeat constructor; vm_compute; congruence.
  - vm_compute. split; [split|]; congruence.
Defined.

(** C37. Decoding terminates without a panic on every byte sequence: the loop makes
    at most one pass per byte and no read leaves the buffer. *)
Theorem batch_decode_total {S} (reply : string) (cb : Message → S → S) buf sm (s : S) :
  is_bytes buf → is_Some (DecodeManyAndHandle reply cb buf sm s).
Proof.
  intros Hb. unfold DecodeManyAndHandle. apply decode_loop_total; [done| |]; unfold len; lia.
Qed.

Lemma batch_decode_total_witness :
  is_Some (DecodeManyAndHandle "r" (λ m l, m :: l) [255; 0; 0; 0; 7] (mkSub 0 ∅) []).
Proof. apply batch_decode_total. repeat constructor; vm_compute; congruence. Defined.
