(* ===== verification/SwapQueue.v ===== *)
(** * pkg/queue: the double-buffered queue

    Producers append to [write] under a mutex and drop a token into a channel of
    capacity one; the single consumer takes the token, swaps the two buffers and
    iterates over the old one outside the mutex. Roles, actors, sessions, savers
    and the account service all receive their work through this queue.

    Go slices carry a capacity because [Range] decides on [cap]; how [append]
    grows a full slice is the run-time's choice, the parameter [growcap]. *)

From S2P Require Import Prelude.

Record SwapQueue (T : Type) := mkQ {
  write : list T; wcap : Z;
  read : list T; rcap : Z;
  sig : bool;              (* a token is in the channel *)
  maxSize : Z; size : Z;
  closed : bool }.
Arguments mkQ {_}.
Arguments write {_}.
Arguments wcap {_}.
Arguments read {_}.
Arguments rcap {_}.
Arguments sig {_}.
Arguments maxSize {_}.
Arguments size {_}.
Arguments closed {_}.

Section Ops.
Context {T : Type} (zero : T) (growcap : Z → Z → Z).
Implicit Types q : SwapQueue T.

Definition NewSwapQueue (sz mx : Z) : SwapQueue T :=
  {| write := []; wcap := sz; read := []; rcap := sz; sig := false;
     maxSize := mx; size := sz; closed := false |}.

(** [s.write = append(s.write, data)]. *)
Definition append_write (data : T) q : SwapQueue T :=
  {| write := write q ++ [data];
     wcap := if decide (len (write q) + 1 ≤ wcap q) then wcap q
             else growcap (wcap q) (len (write q) + 1);
     read := read q; rcap := rcap q; sig := sig q;
     maxSize := maxSize q; size := size q; closed := closed q |}.

Definition pushData (data : T) q : SwapQueue T * go_error :=
  if closed q then (q, Some ErrQueueClosed)
  else if decide (len (write q) >= maxSize q) then (q, Some ErrQueueFull)
  else (append_write data q, None).

(** The non-blocking send: a token that is already there is enough. *)
Definition Wake q : SwapQueue T :=
  {| write := write q; wcap := wcap q; read := read q; rcap := rcap q; sig := true;
     maxSize := maxSize q; size := size q; closed := closed q |}.

Definition Push (data : T) q : SwapQueue T * go_error :=
  let '(q, err) := pushData data q in (Wake q, err).

Definition set_closed q : SwapQueue T :=
  {| write := write q; wcap := wcap q; read := read q; rcap := rcap q; sig := sig q;
     maxSize := maxSize q; size := size q; closed := true |}.

Definition Close q : SwapQueue T := if closed q then q else Wake (set_closed q).

(** [<-s.Sig()]: blocks ([None]) while the channel is empty. *)
Definition recvSig q : option (SwapQueue T) :=
  if sig q then
    Some {| write := write q; wcap := wcap q; read := read q; rcap := rcap q; sig := false;
            maxSize := maxSize q; size := size q; closed := closed q |}
  else None.

(** [s.write, s.read = s.read[:0], s.write]. *)
Definition swap q : SwapQueue T :=
  {| write := []; wcap := rcap q; read := write q; rcap := wcap q; sig := sig q;
     maxSize := maxSize q; size := size q; closed := closed q |}.

(** [clear(s.read)] and the reallocation of an oversized buffer. *)
Definition finish q : SwapQueue T :=
  let shrink := bool_decide (rcap q > size q) in
  {| write := write q; wcap := wcap q;
     read := if shrink then [] else replicate (length (read q)) zero;
     rcap := if shrink then size q else rcap q; sig := sig q;
     maxSize := maxSize q; size := size q; closed := closed q |}.

(** The callback may itself push to the queue, so it acts on the queue and on
    its own state. *)
Definition Range {S} (f : T → SwapQueue T * S → SwapQueue T * S) (st : SwapQueue T * S)
    : SwapQueue T * S :=
  let '(q, s) := st in
  match write q with
  | [] => (q, s)
  | _ =>
      let q1 := swap q in
      let '(q2, s2) := fold_left (λ st x, f x st) (read q1) (q1, s) in
      (finish q2, s2)
  end.

(** ** Basic facts *)

Lemma pushData_cases x q :
  (closed q = true ∧ pushData x q = (q, Some ErrQueueClosed)) ∨
  (closed q = false ∧ len (write q) >= maxSize q ∧ pushData x q = (q, Some ErrQueueFull)) ∨
  (closed q = false ∧ len (write q) < maxSize q ∧ pushData x q = (append_write x q, None)).
Proof.
  unfold pushData. destruct (closed q); [by left|]. right. case_decide; [left|right]; repeat split; lia.
Qed.

Definition wf q : Prop := len (write q) ≤ Z.max 0 (maxSize q).

Lemma Push_wf x q : wf q → wf (Push x q).1.
Proof.
  unfold wf, Push. intros. destruct (pushData_cases x q) as [[_ ->]|[(_ & _ & ->)|(_ & ? & ->)]]; cbn; lens.
Qed.

(** A callback that consumes an element into its state and pushes reactions. *)
Definition pushAll (l : list T) q : SwapQueue T := fold_left (λ q x, (Push x q).1) l q.
Definition reacting {S} (g : T → S → S) (out : T → S → list T) (x : T)
    (st : SwapQueue T * S) : SwapQueue T * S :=
  (pushAll (out x st.2) st.1, g x st.2).

Lemma pushAll_wf l q : wf q → wf (pushAll l q).
Proof. unfold pushAll. revert q. induction l; intros; cbn; eauto using Push_wf. Qed.

Lemma Push_params x q :
  maxSize (Push x q).1 = maxSize q ∧ size (Push x q).1 = size q ∧ read (Push x q).1 = read q ∧
  rcap (Push x q).1 = rcap q ∧ closed (Push x q).1 = closed q ∧ sig (Push x q).1 = true.
Proof. unfold Push. destruct (pushData_cases x q) as [[_ ->]|[(_ & _ & ->)|(_ & _ & ->)]]; done. Qed.

(** The reactions to the elements of [l], in order. *)
Fixpoint reactions {S} (g : T → S → S) (out : T → S → list T) (l : list T) (s : S) : list T :=
  match l with [] => [] | x :: l => out x s ++ reactions g out l (g x s) end.

Lemma pushAll_write l q : ∃ l', write (pushAll l q) = write q ++ l' ∧ l' `sublist_of` l.
Proof.
  unfold pushAll. revert q. induction l as [|x l IH]; intros q; cbn [fold_left].
  { exists []. by rewrite app_nil_r. }
  destruct (IH (Push x q).1) as (l' & -> & Hl). unfold Push.
  destruct (pushData_cases x q) as [[_ ->]|[(_ & _ & ->)|(_ & _ & ->)]]; cbn.
  - exists l'. auto using sublist_cons.
  - exists l'. auto using sublist_cons.
  - exists (x :: l'). rewrite <- app_assoc. auto using sublist_skip.
Qed.

Lemma pushAll_params l q :
  maxSize (pushAll l q) = maxSize q ∧ size (pushAll l q) = size q ∧ read (pushAll l q) = read q.
Proof.
  unfold pushAll. apply (fold_left_inv (λ p, maxSize p = maxSize q ∧ size p = size q ∧ read p = read q)).
  - done.
  - intros p x (? & ? & ?). destruct (Push_params x p) as (? & ? & ? & _). repeat split; congruence.
Qed.

Lemma fold_reacting_queue {S} (g : T → S → S) out l q (s : S) :
  let q' := (fold_left (λ st x, reacting g out x st) l (q, s)).1 in
  wf q → wf q' ∧ maxSize q' = maxSize q ∧ size q' = size q ∧ read q' = read q ∧
  ∃ l', write q' = write q ++ l' ∧ l' `sublist_of` reactions g out l s.
Proof.
  cbv zeta. revert q s. induction l as [|x l IH]; intros q s Hw.
  { cbn. repeat split; [done|]. exists []. by rewrite app_nil_r. }
  cbn [fold_left reactions].
  change (reacting g out x (q, s)) with (pushAll (out x s) q, g x s).
  destruct (IH (pushAll (out x s) q) (g x s)) as (? & Hm & Hs & Hr & l2 & Hq & Hl2); [by apply pushAll_wf|].
  destruct (pushAll_params (out x s) q) as (? & ? & ?).
  destruct (pushAll_write (out x s) q) as (l1 & E & Hl1).
  repeat split; [done|congruence..|]. exists (l1 ++ l2). rewrite Hq, E, app_assoc.
  auto using sublist_app.
Qed.

Lemma fold_reacting_state {S} (g : T → S → S) out l q (s : S) :
  (fold_left (λ st x, reacting g out x st) l (q, s)).2 = fold_left (λ s x, g x s) l s.
Proof.
  revert q s. induction l as [|x l IH]; intros; [done|]. cbn [fold_left].
  change (reacting g out x (q, s)) with (pushAll (out x s) q, g x s). apply IH.
Qed.

(** ** The queue as a bounded FIFO *)

Inductive qop := OPush (x : T) | ORange | OClose | OWake | ORecv.

(** The queue with the history of accepted and of delivered elements. *)
Record hist := mkH { hq : SwapQueue T; accepted : list T; delivered : list T }.

Definition hstep (h : hist) (o : qop) : hist :=
  match o with
  | OPush x => let '(q, err) := Push x (hq h) in
      {| hq := q; delivered := delivered h;
         accepted := if err is None then accepted h ++ [x] else accepted h |}
  | ORange => let '(q, d) := Range (λ x st, (st.1, st.2 ++ [x])) (hq h, delivered h) in
      {| hq := q; accepted := accepted h; delivered := d |}
  | OClose => {| hq := Close (hq h); accepted := accepted h; delivered := delivered h |}
  | OWake => {| hq := Wake (hq h); accepted := accepted h; delivered := delivered h |}
  | ORecv => {| hq := default (hq h) (recvSig (hq h)); accepted := accepted h;
                delivered := delivered h |}
  end.

Definition hrun (sz mx : Z) (ops : list qop) : hist :=
  fold_left hstep ops (mkH (NewSwapQueue sz mx) [] []).

Lemma fold_collect l (q : SwapQueue T) (d : list T) :
  fold_left (λ st x, (st.1, st.2 ++ [x])) l (q, d) = (q, d ++ l).
Proof. revert d. induction l; intros; cbn; [by rewrite app_nil_r|]. by rewrite IHl, <- app_assoc. Qed.

Lemma Range_collect q d :
  Range (λ x st, (st.1, st.2 ++ [x])) (q, d) =
    (match write q with [] => q | _ => finish (swap q) end, d ++ write q).
Proof.
  unfold Range. destruct (write q) eqn:E; [by rewrite app_nil_r|].
  rewrite fold_collect. cbn [read swap]. by rewrite E.
Qed.

Definition hinv (mx sz : Z) (h : hist) : Prop :=
  delivered h ++ write (hq h) = accepted h ∧ wf (hq h) ∧
  maxSize (hq h) = mx ∧ size (hq h) = sz.

Lemma hstep_inv mx sz h o : hinv mx sz h → hinv mx sz (hstep h o).
Proof.
  intros (Hd & Hw & Hm & Hs). destruct o as [x| | | |]; cbn [hstep].
  - pose proof (Push_wf x _ Hw) as Hw'. destruct (Push_params x (hq h)) as (Hm' & Hs' & _).
    unfold Push in *.
    destruct (pushData_cases x (hq h)) as [[_ E]|[(_ & _ & E)|(_ & _ & E)]]; rewrite E in *;
      repeat split; cbn in *; try congruence. by rewrite <- Hd, app_assoc.
  - rewrite Range_collect. repeat split; cbn [hq accepted delivered].
    + rewrite <- Hd. destruct (write (hq h)) eqn:E; cbn [write finish swap]; by rewrite ?E, ?app_nil_r.
    + destruct (write (hq h)) eqn:E; [done|]. unfold wf. cbn. lens.
    + by destruct (write (hq h)).
    + by destruct (write (hq h)).
  - unfold Close. destruct (closed (hq h)); repeat split; done.
  - repeat split; done.
  - unfold recvSig. destruct (sig (hq h)); repeat split; done.
Qed.

Lemma hrun_inv sz mx ops : hinv mx sz (hrun sz mx ops).
Proof.
  unfold hrun. apply fold_left_inv; [|intros; by apply hstep_inv].
  repeat split; cbn. unfold wf. cbn. lens.
Qed.

End Ops.

(** ** Wake-ups: producers and the consumer as interleaved steps

    A producer's [Push] is two atomic steps, [pushData] under the mutex and then
    [Wake]; the consumer waits for the token, then swaps. *)

Section Wakeup.
Context {T : Type} (zero : T) (growcap : Z → Z → Z).

Inductive consumer := Waiting | Woken.

Record wsys := mkW {
  wq : SwapQueue T;
  wakes : nat;              (* producers and closers between the update and [Wake] *)
  cons : consumer }.

Inductive wstep : wsys → wsys → Prop :=
| w_push q n c x : wstep (mkW q n c) (mkW (pushData growcap x q).1 (S n) c)
| w_close q n c : closed q = false → wstep (mkW q n c) (mkW (set_closed q) (S n) c)
| w_wake q n c : wstep (mkW q (S n) c) (mkW (Wake q) n c)
| w_recv q q' n : recvSig q = Some q' → wstep (mkW q n Waiting) (mkW q' n Woken)
| w_range q n :
    wstep (mkW q n Woken) (mkW (match write q with [] => q | _ => finish zero (swap q) end) n Waiting).

Definition winit (sz mx : Z) : wsys := mkW (NewSwapQueue sz mx) 0 Waiting.

Definition winv (w : wsys) : Prop :=
  write (wq w) ≠ [] → sig (wq w) = true ∨ (0 < wakes w)%nat ∨ cons w = Woken.

Lemma winv_preserved : preserved wstep winv.
Proof.
  intros s s' Hs. unfold winv. destruct Hs; cbn; intros Hi Hne.
  - right. left. lia.
  - right. left. lia.
  - by left.
  - unfold recvSig in *. destruct (sig q); simplify_eq. auto.
  - destruct (write q) eqn:E; cbn in *; congruence.
Qed.

End Wakeup.

(** ** Shutdown: the mutex at the granularity of its critical sections

    [Close] sets [closed] without the mutex, so it may fall between the check and
    the append of a producer that is inside [pushData]. *)

Section Shutdown.
Context {T : Type}.

(** The producer inside the mutex: its element, and whether it has passed the
    [closed] and capacity checks. *)
Record csys := mkC {
  cwrite : list T; cclosed : bool; cmax : Z;
  crit : option (T * bool);
  cdrained : bool;             (* a [Range] ran after [Close] *)
  caccepted : list T; cdelivered : list T }.

Inductive cstep : csys → csys → Prop :=
| c_lock w cl mx dr a d x :
    cstep (mkC w cl mx None dr a d) (mkC w cl mx (Some (x, false)) dr a d)
| c_reject w cl mx dr a d x : cl = true ∨ mx ≤ len w →
    cstep (mkC w cl mx (Some (x, false)) dr a d) (mkC w cl mx None dr a d)
| c_check w mx dr a d x : len w < mx →
    cstep (mkC w false mx (Some (x, false)) dr a d) (mkC w false mx (Some (x, true)) dr a d)
| c_append w cl mx dr a d x :
    cstep (mkC w cl mx (Some (x, true)) dr a d) (mkC (w ++ [x]) cl mx None dr (a ++ [x]) d)
| c_close w cl mx cr dr a d : cstep (mkC w cl mx cr dr a d) (mkC w true mx cr dr a d)
| c_range w cl mx dr a d :
    cstep (mkC w cl mx None dr a d) (mkC [] cl mx None (dr || cl) a (d ++ w)).

Definition cinv (c : csys) : Prop :=
  cdelivered c ++ cwrite c = caccepted c ∧
  (cdrained c = true →
     cclosed c = true ∧ cwrite c = [] ∧ match crit c with Some (_, true) => False | _ => True end).

Lemma cinv_preserved : preserved cstep cinv.
Proof.
  intros s s' Hs [Hd Hc]. destruct Hs; split; cbn in *; try done.
  - intros Hx. destruct (Hc Hx) as (? & ? & ?). done.
  - by rewrite <- Hd, app_assoc.
  - intros Hx. destruct (Hc Hx) as (_ & _ & []).
  - intros Hx. destruct (Hc Hx) as (_ & ? & ?). done.
  - by rewrite app_nil_r.
  - intros [Hx| ->]%orb_true_iff; [|done]. destruct (Hc Hx) as (? & _ & _). done.
Qed.

End Shutdown.

(** ** Properties *)

(** C31. The queue is a bounded FIFO: after any sequence of pushes, ranges, wakes,
    closes and receives, the elements delivered to the consumer followed by the
    elements still buffered are exactly the accepted pushes in order, and the
    buffer never exceeds its limit. *)
Theorem swap_queue_fifo {T} (zero : T) growcap (sz mx : Z) (ops : list qop) :
  0 ≤ mx →
  let h := hrun zero growcap sz mx ops in
  delivered h ++ write (hq h) = accepted h ∧ len (write (hq h)) ≤ mx.
Proof.
  intros Hm h. destruct (hrun_inv zero growcap sz mx ops) as (Hd & Hw & Hx & _).
  split; [done|]. unfold wf in Hw. fold h in Hw, Hx. lia.
Qed.

Lemma swap_queue_fifo_witness :
  let h := hrun 0 (λ c n, 2 * n) 2 3
    [OPush 1; OPush 2; OPush 3; OPush 4; ORange; OPush 5; OClose; OPush 6] in
  (delivered h ++ write (hq h) = accepted h ∧ len (write (hq h)) ≤ 3) ∧
  accepted h = [1; 2; 3; 5] ∧ delivered h = [1; 2; 3].
Proof.
  cbv zeta. split; [|split; vm_compute; reflexivity].
  apply (swap_queue_fifo 0 (λ c n, 2 * n) 2 3). lia.
Defined.

(** A callback that pushes follow-up work while the queue is being ranged over
    (as the account service does when a login fails) sees every element of the
    swapped batch exactly once, in order; what it pushed and was accepted is left,
    in order, for the next round within the limit; and the buffer kept for reuse
    is no larger than the configured size. *)
Theorem range_reentrant {T S} (zero : T) growcap q (s : S) (g : T → S → S) (out : T → S → list T) :
  write q ≠ [] →
  ∃ q', Range zero (reacting growcap g out) (q, s) = (q', fold_left (λ s x, g x s) (write q) s) ∧
    write q' `sublist_of` reactions g out (write q) s ∧
    len (write q') ≤ Z.max 0 (maxSize q) ∧ rcap q' ≤ size q.
Proof.
  intros Hne. unfold Range. destruct (write q) as [|x0 l0] eqn:E; [done|].
  destruct (fold_left _ (read (swap q)) (swap q, s)) as [q2 s2] eqn:F.
  cbn [read swap] in F. rewrite E in F.
  pose proof (fold_reacting_state growcap g out (x0 :: l0) (swap q) s) as Hs.
  pose proof (fold_reacting_queue growcap g out (x0 :: l0) (swap q) s) as Hq.
  rewrite F in Hs, Hq. cbn [fst snd] in Hs, Hq. subst s2.
  destruct Hq as (Hw & Hm & Hz & _ & l' & Hl & Hsub); [unfold wf; cbn; lens|].
  exists (finish zero q2). split; [done|]. cbn in *. rewrite Hl in *.
  split; [done|]. unfold wf in Hw. split; [rewrite Hl in Hw; lia|].
  case_bool_decide; lia.
Qed.

Lemma range_reentrant_witness :
  ∃ q', Range 0 (reacting (λ c n, 2 * n) Z.add (λ x _, if decide (x < 10) then [x + 10] else []))
      ((pushAll (λ c n, 2 * n) [1; 12; 3] (NewSwapQueue 1 5)), 0) = (q', 16) ∧
    write q' = [11; 13] ∧ rcap q' ≤ 1.
Proof.
  destruct (range_reentrant 0 (λ c n, 2 * n) (pushAll (λ c n, 2 * n) [1; 12; 3] (NewSwapQueue 1 5)) 0
              Z.add (λ x _, if decide (x < 10) then [x + 10] else [])) as (q' & H & _ & _ & Hr).
  { vm_compute. congruence. }
  exists q'. split; [exact H|]. split; [|exact Hr].
  apply (f_equal fst) in H. vm_compute in H. by rewrite <- H.
Defined.

(** No wake-up is lost: in every reachable interleaving of producers, closers
    and the consumer, buffered work implies that the token is in the channel, or
    some producer is about to put it there, or the consumer is already on its way
    to the swap; in particular once every producer has returned, the waiting
    consumer can always proceed. *)
Theorem no_lost_wakeup {T} (zero : T) growcap (sz mx : Z) w :
  rtc (wstep zero growcap) (winit sz mx) w → write (wq w) ≠ [] → wakes w = 0%nat →
  ∃ w', wstep zero growcap w w' ∧ wakes w' = 0%nat ∧
        (cons w = Waiting → cons w' = Woken) ∧ (cons w = Woken → write (wq w') = []).
Proof.
  intros Hr Hne Hw.
  assert (Hi : winv w).
  { eapply rtc_preserved; [apply winv_preserved|exact Hr|]. by intros []. }
  destruct w as [q n c]. cbn in *. subst n. destruct c.
  - destruct (Hi Hne) as [Hs|[?|?]]; cbn in *; [|lia|done].
    destruct (recvSig q) as [q'|] eqn:E; [|unfold recvSig in E; by rewrite Hs in E].
    eexists. split; [by apply w_recv|]. done.
  - eexists. split; [apply w_range|]. cbn. by destruct (write q) eqn:E.
Qed.

Lemma no_lost_wakeup_witness :
  let w := mkW (Push (λ c n, 2 * n) 7 (NewSwapQueue 1 5)).1 0 Waiting in
  ∃ w', wstep 0 (λ c n, 2 * n) w w' ∧ wakes w' = 0%nat ∧
        (cons w = Waiting → cons w' = Woken) ∧ (cons w = Woken → write (wq w') = []).
Proof.
  cbv zeta. apply (no_lost_wakeup 0 (λ c n, 2 * n) 1 5).
  - eapply rtc_l; [apply (w_push _ _ _ _ _ 7)|]. eapply rtc_l; [apply w_wake|]. apply rtc_refl.
  - vm_compute. congruence.
  - reflexivity.
Defined.

(** Shutdown loses nothing: although [Close] does not take the mutex, once a
    [Range] has run after [Close], the consumer has received every accepted
    element, the buffer is empty, and this stays so whatever producers still
    do. *)
Theorem close_then_drain_complete {T} (mx : Z) (c c' : @csys T) :
  rtc cstep (mkC [] false mx None false [] []) c → cdrained c = true → rtc cstep c c' →
  cdelivered c' = caccepted c ∧ caccepted c' = caccepted c ∧ cwrite c' = [].
Proof.
  intros Hr Hd Hr'.
  assert (Hi : cinv c).
  { eapply rtc_preserved; [apply cinv_preserved|exact Hr|]. by split. }
  assert (HA : caccepted c' = caccepted c ∧ cdrained c' = true ∧ cinv c').
  { clear Hr. induction Hr' as [|a b e Hs _ IH]; [done|].
    assert (cinv b) by (eapply cinv_preserved; eauto).
    assert (cdrained b = true ∧ caccepted b = caccepted a) as [Hb Hab].
    { destruct Hi as [_ Hi]. destruct (Hi Hd) as (? & ? & Hcr).
      destruct Hs; cbn in *; try done. by rewrite Hd. }
    destruct (IH Hb) as (? & ? & ?); [done|]. split; [congruence|]. by split. }
  destruct HA as (HA & Hd' & Hx & Hc). destruct (Hc Hd') as (_ & Hw & _).
  rewrite Hw, app_nil_r in Hx. repeat split; congruence.
Qed.

Lemma close_then_drain_complete_witness :
  let c := mkC (@nil Z) true 5 None true [4] [4] in
  cdelivered c = caccepted c ∧ caccepted c = caccepted c ∧ cwrite c = [].
Proof.
  cbv zeta. apply (close_then_drain_complete 5).
  - eapply rtc_l; [apply (c_lock _ _ _ _ _ _ 4)|]. eapply rtc_l; [apply c_check; unfold len; cbn; lia|].
    eapply rtc_l; [apply c_close|]. eapply rtc_l; [apply c_append|]. eapply rtc_l; [apply c_range|].
    apply rtc_refl.
  - reflexivity.
  - apply rtc_refl.
Defined.
