(* ===== verification/Batcher.v ===== *)
(** * pkg/gnet/pool and pkg/gnet/pub: buffer pools and the publishing batcher

    A [Batcher] collects encoded frames for one destination and hands full
    buffers to a flush function, outside its mutex. [BytesPool] recycles the
    buffers. *)

From S2P Require Import Prelude Gmsg.

(** ** BytesPool *)

(** [sync.Pool] may return any pooled object or call [New]; a pooled slice has
    length zero, so only its capacity matters. *)
Record BytesPool := mkPool { pool_free : list Z; pool_size : Z }.

Definition NewBytesPoll (buffSize : Z) : BytesPool := mkPool [] buffSize.

(** [pick] is the run-time's choice: a pooled buffer, or a fresh one. *)
Definition BytesPool_Get (pick : option nat) (p : BytesPool) : Z * BytesPool :=
  match pick ≫= λ i, (λ c, (c, i)) <$> pool_free p !! i with
  | Some (c, i) => (c, mkPool (take i (pool_free p) ++ drop (S i) (pool_free p)) (pool_size p))
  | None => (pool_size p, p)
  end.

Definition BytesPool_Put (c : Z) (p : BytesPool) : BytesPool :=
  if decide (c > 10 * pool_size p) then p
  else mkPool (c :: pool_free p) (pool_size p).

Definition batchCount : Z := 500.
Definition buffSize : Z := 1024 * batchCount.

Definition bufPool : BytesPool := NewBytesPoll buffSize.
Definition GetBuffer := BytesPool_Get.
Definition FreeBuffer := BytesPool_Put.

(** Every pooled buffer is usable for a batch and bounded. *)
Definition pool_ok (p : BytesPool) : Prop :=
  Forall (λ c, pool_size p ≤ c ≤ 10 * pool_size p) (pool_free p).

Lemma BytesPool_Get_ok pick p :
  0 ≤ pool_size p → pool_ok p →
  pool_ok (BytesPool_Get pick p).2 ∧ pool_size (BytesPool_Get pick p).2 = pool_size p ∧
  pool_size p ≤ (BytesPool_Get pick p).1 ≤ 10 * pool_size p.
Proof.
  intros H0 Hok. unfold BytesPool_Get. destruct pick as [i|]; cbn [mbind option_bind fst snd]; [|splits; done || lia].
  destruct (pool_free p !! i) as [c|] eqn:E; cbn [fmap option_fmap option_map fst snd]; [|splits; done || lia].
  pose proof (Forall_lookup_1 _ _ _ _ Hok E) as Hc. cbn beta in Hc. splits; [|done|lia..].
  unfold pool_ok in *. cbn [pool_free pool_size]. apply Forall_app. split; [by apply Forall_take|by apply Forall_drop].
Qed.

Lemma BytesPool_Put_ok c p :
  pool_ok p → pool_size p ≤ c → pool_ok (BytesPool_Put c p) ∧ pool_size (BytesPool_Put c p) = pool_size p.
Proof.
  intros. unfold BytesPool_Put. case_decide; [done|]. split; [|done]. constructor; [cbn [pool_size]; lia|done].
Qed.

(** ** Batcher *)

Inductive batcherState := stateRunning | stateClosing | stateStopped.

#[export] Instance batcherState_eq_dec : EqDecision batcherState.
Proof. solve_decision. Defined.

(** [buf] is the shared buffer, its written bytes and its capacity. *)
Record Batcher := mkB { b_buf : option (bytes * Z); b_count : Z; b_state : batcherState }.

(** [ft_cap] is the capacity of the pooled buffer to free, [None] for a
    temporary one. *)
Record flushTask := mkTask { ft_buf : bytes; ft_cap : option Z; ft_count : Z }.

Definition NewBatcher : Batcher := mkB None 0 stateRunning.

(** The critical section of [Add], in its two parts. [cap1] and [cap2] are the
    capacities of the buffers [GetBuffer] yields. First the buffer is fetched, and
    flushed when the frame does not fit behind what it holds. *)
Definition Add_reserve (frameSize cap1 cap2 : Z) (tb : Batcher)
    : list flushTask * (bytes * Z) * Z :=
  let '(buf, cap) := default ([], cap1) (b_buf tb) in
  if decide (len buf + frameSize > cap ∧ len buf > 0)
  then ([mkTask buf (Some cap) (b_count tb)], ([], cap2), 0)
  else ([], (buf, cap), b_count tb).

(** Then the frame goes to a buffer of its own when it is larger than a whole
    batch buffer, else behind the others. [stale n] are the old contents of the
    next [n] bytes of the buffer, which [EncodeTo] overwrites. [None] is a
    panic. *)
Definition Add_place (p : Message) (stale : Z → bytes) (buf : bytes) (cap count : Z)
    : option (Batcher * list flushTask) :=
  let bodySize := FrameBodyHeadSize + len (msg_data p) in
  let frameSize := FrameLenSize + bodySize in
  if decide (frameSize > cap) then
    monsterBuf ← Message_EncodeTo p (replicate (Z.to_nat frameSize) 0) bodySize;
    Some (mkB (Some (buf, cap)) count stateRunning, [mkTask monsterBuf None 1])
  else
    enc ← Message_EncodeTo p (stale frameSize) bodySize;
    let buf := buf ++ enc in
    let count := count + 1 in
    if decide (count >= batchCount ∨ len buf >= buffSize)
    then Some (mkB None 0 stateRunning, [mkTask buf (Some cap) count])
    else Some (mkB (Some (buf, cap)) count stateRunning, []).

(** The tasks are flushed after the mutex is released. *)
Definition Add (p : Message) (cap1 cap2 : Z) (stale : Z → bytes) (tb : Batcher)
    : option (Batcher * list flushTask * go_error) :=
  let frameSize := FrameLenSize + (FrameBodyHeadSize + len (msg_data p)) in
  if decide (b_state tb ≠ stateRunning) then Some (tb, [], Some ErrClosed)
  else
    let '(tasks, (buf, cap), count) := Add_reserve frameSize cap1 cap2 tb in
    r ← Add_place p stale buf cap count;
    Some (r.1, tasks ++ r.2, None).

(** The critical section of [flush]. *)
Definition flush (tb : Batcher) : Batcher * list flushTask :=
  match b_buf tb with
  | Some (buf, cap) =>
      if decide (b_count tb > 0) then (mkB None 0 (b_state tb), [mkTask buf (Some cap) (b_count tb)])
      else (tb, [])
  | None => (tb, [])
  end.

(** ** What the buffer holds *)

Definition frames_of (ms : list Message) : bytes := mjoin (frame <$> ms).

Definition holds (tb : Batcher) (ms : list Message) : Prop :=
  match b_buf tb with
  | None => ms = [] ∧ b_count tb = 0
  | Some (buf, cap) => buf = frames_of ms ∧ b_count tb = len ms ∧
      len buf ≤ cap ∧ len buf < buffSize ∧ len ms < batchCount ∧ buffSize ≤ cap
  end.

Definition task_for (t : flushTask) (ms : list Message) : Prop :=
  ft_buf t = frames_of ms ∧ ft_count t = len ms ∧ ms ≠ [] ∧ len ms ≤ batchCount.

Lemma frames_of_app a b : frames_of (a ++ b) = frames_of a ++ frames_of b.
Proof. unfold frames_of. by rewrite fmap_app, join_app. Qed.

Lemma frames_of_one m : frames_of [m] = frame m.
Proof. unfold frames_of. cbn. apply app_nil_r. Qed.

Lemma len_frames_of_pos ms : 0 < len (frames_of ms) → ms ≠ [].
Proof. by intros H ->. Qed.

Lemma len_frames_of_0 ms : ¬ len (frames_of ms) > 0 → ms = [].
Proof.
  destruct ms as [|m ms]; [done|]. change (m :: ms) with ([m] ++ ms).
  rewrite frames_of_app, frames_of_one. frames.
Qed.

Lemma encode_any m dst :
  len dst = FrameLenSize + (FrameBodyHeadSize + len (msg_data m)) →
  Message_EncodeTo m dst (FrameBodyHeadSize + len (msg_data m)) = Some (frame m).
Proof. intros. apply Message_EncodeTo_spec. lia. Qed.

(** The buffer [ms0] with capacity [cap0] can take a frame of [fs] bytes, or is
    empty when the frame is larger than the buffer. *)
Definition room (fs cap0 : Z) (ms0 : list Message) : Prop :=
  buffSize ≤ cap0 ∧ len (frames_of ms0) < buffSize ∧ len ms0 < batchCount ∧
  (fs > cap0 → ms0 = []) ∧ (fs ≤ cap0 → len (frames_of ms0) + fs ≤ cap0).

Lemma Add_reserve_spec fs cap1 cap2 tb ms :
  holds tb ms → buffSize ≤ cap1 → buffSize ≤ cap2 → 0 ≤ fs →
  ∃ tasks mss ms0 cap0, Add_reserve fs cap1 cap2 tb = (tasks, (frames_of ms0, cap0), len ms0) ∧
    Forall2 task_for tasks mss ∧ mjoin mss ++ ms0 = ms ∧ (length tasks ≤ 1)%nat ∧ room fs cap0 ms0.
Proof.
  intros Hh H1 H2 Hfs. unfold Add_reserve.
  assert (∃ cap, default ([], cap1) (b_buf tb) = (frames_of ms, cap) ∧ b_count tb = len ms ∧
            len (frames_of ms) < buffSize ∧ len ms < batchCount ∧ buffSize ≤ cap)
    as (cap & -> & -> & Hb & Hn & Hc).
  { unfold holds in Hh. destruct (b_buf tb) as [[buf cap]|]; cbn.
    - destruct Hh as (-> & ? & ? & ? & ? & ?). eauto 10.
    - destruct Hh as [-> ?]. exists cap1. splits; done. }
  unfold room. case_decide as Hd.
  - eexists _, [ms], [], cap2. change (len (frames_of [])) with 0.
    splits; [done| |by cbn; rewrite !app_nil_r|cbn; lia|done..|lia].
    constructor; [|done]. unfold task_for. splits; [done..| |lia]. apply len_frames_of_pos. lia.
  - exists [], [], ms, cap. splits; [done..|cbn; lia|done|done|done| |].
    + intros. apply len_frames_of_0. lia.
    + intros. destruct (decide (len (frames_of ms) > 0)); [lia|].
      rewrite (len_frames_of_0 ms) by done. change (len (frames_of [])) with 0. lia.
Qed.

Lemma Add_place_spec m stale ms0 cap0 :
  room (FrameLenSize + (FrameBodyHeadSize + len (msg_data m))) cap0 ms0 →
  (∀ n, 0 ≤ n → len (stale n) = n) →
  ∃ tb' tasks mss ms', Add_place m stale (frames_of ms0) cap0 (len ms0) = Some (tb', tasks) ∧
    holds tb' ms' ∧ b_state tb' = stateRunning ∧ Forall2 task_for tasks mss ∧
    mjoin mss ++ ms' = ms0 ++ [m] ∧ (length tasks ≤ 1)%nat.
Proof.
  intros (Hc & Hb & Hn & Hbig & Hfit) Hst. unfold Add_place.
  set (fs := FrameLenSize + _) in *. assert (0 ≤ fs) by (unfold fs; frames).
  assert (Hz : len (frames_of []) = 0) by done. case_decide as Hm.
  - specialize (Hbig Hm). subst ms0. rewrite encode_any by (rewrite len_replicate; lia).
    cbn [mbind option_bind]. eexists _, _, [[m]], []. splits; [done| |done| |done|cbn; lia].
    + unfold holds. cbn [b_buf b_count]. splits; done || lia.
    + constructor; [|done]. unfold task_for. splits; [by rewrite frames_of_one|done..].
  - rewrite encode_any by (apply Hst; lia). cbn [mbind option_bind].
    replace (len ms0 + 1) with (len (ms0 ++ [m])) by lens.
    rewrite <- (frames_of_one m), <- frames_of_app.
    assert (len (frames_of (ms0 ++ [m])) = len (frames_of ms0) + fs).
    { rewrite frames_of_app, frames_of_one. unfold fs. lens. }
    case_decide as Hf.
    + eexists _, _, [ms0 ++ [m]], []. splits; [done..| |by cbn; rewrite !app_nil_r|cbn; lia].
      constructor; [|done]. unfold task_for. splits; [done..|by destruct ms0|lens].
    + eexists _, _, [], (ms0 ++ [m]). splits; [done| |done|done|done|cbn; lia].
      unfold holds. cbn [b_buf b_count]. splits; done || lia.
Qed.

(** [Add] on a running batcher: what it flushes followed by what it keeps is what
    it held followed by the new message. *)
Lemma Add_spec m cap1 cap2 stale tb ms :
  b_state tb = stateRunning → holds tb ms →
  buffSize ≤ cap1 → buffSize ≤ cap2 → (∀ n, 0 ≤ n → len (stale n) = n) →
  ∃ tb' tasks mss ms', Add m cap1 cap2 stale tb = Some (tb', tasks, None) ∧
    holds tb' ms' ∧ b_state tb' = stateRunning ∧ Forall2 task_for tasks mss ∧
    mjoin mss ++ ms' = ms ++ [m] ∧ (length tasks ≤ 2)%nat.
Proof.
  intros Hs Hh H1 H2 Hst. unfold Add. rewrite decide_False by congruence.
  destruct (Add_reserve_spec (FrameLenSize + (FrameBodyHeadSize + len (msg_data m))) cap1 cap2 tb ms)
    as (t1 & mss1 & ms0 & cap0 & -> & Ht1 & <- & Hl1 & Hr); [done..|frames|].
  destruct (Add_place_spec m stale ms0 cap0) as (tb' & t2 & mss2 & ms' & -> & Hh' & Hs' & Ht2 & E & Hl2);
    [done..|].
  cbn [mbind option_bind fst snd]. exists tb', (t1 ++ t2), (mss1 ++ mss2), ms'.
  splits; [done..|by apply Forall2_app| |rewrite length_app; lia].
  by rewrite join_app, <- !app_assoc, E.
Qed.

Lemma Add_closed m cap1 cap2 stale tb :
  b_state tb ≠ stateRunning → Add m cap1 cap2 stale tb = Some (tb, [], Some ErrClosed).
Proof. intros. unfold Add. by rewrite decide_True. Qed.

Lemma flush_spec tb ms :
  holds tb ms →
  ∃ mss, Forall2 task_for (flush tb).2 mss ∧ mjoin mss = ms ∧ holds (flush tb).1 [] ∧
         b_state (flush tb).1 = b_state tb.
Proof.
  intros Hh. pose proof Hh as Hh0. unfold holds in Hh. unfold flush.
  destruct (b_buf tb) as [[buf cap]|] eqn:E.
  - destruct Hh as (-> & Hn & ? & ? & ? & ?). rewrite Hn. case_decide as Hc.
    + exists [ms]. cbn. splits; [|by rewrite app_nil_r|done..]. constructor; [|done].
      unfold task_for. splits; [done..| |lia]. intros ->. by vm_compute in Hc.
    + assert (ms = []) as -> by (apply len_0_nil; lens). by exists [].
  - destruct Hh as [-> ?]. by exists [].
Qed.

(** ** The batcher under concurrency

    [Add]s, the ticker's flushes, the publications of tasks taken out under the
    mutex and the phases of [Close] interleave freely. *)

(** [loop_done] is [wgLoop] reaching zero, [inflight] the tasks [wgTask]
    counts. [sent] records the messages whose [Add] returned nil. *)
Record bsys := mkS {
  s_b : Batcher; inflight : list flushTask; published : list flushTask;
  close_called : bool; loop_done : bool; sent : list Message }.

Inductive bstep : bsys → bsys → Prop :=
| s_add b b' ts err fl pu cc ld se m cap1 cap2 stale :
    buffSize ≤ cap1 → buffSize ≤ cap2 → (∀ n, 0 ≤ n → len (stale n) = n) →
    Add m cap1 cap2 stale b = Some (b', ts, err) →
    bstep (mkS b fl pu cc ld se)
          (mkS b' (fl ++ ts) pu cc ld (if err is None then se ++ [m] else se))
| s_tick b fl pu cc se :
    bstep (mkS b fl pu cc false se) (mkS (flush b).1 (fl ++ (flush b).2) pu cc false se)
| s_publish b f1 t f2 pu cc ld se :
    bstep (mkS b (f1 ++ t :: f2) pu cc ld se) (mkS b (f1 ++ f2) (pu ++ [t]) cc ld se)
| s_close b fl pu ld se :
    bstep (mkS b fl pu false ld se)
          (mkS (mkB (b_buf b) (b_count b) stateClosing) fl pu true ld se)
| s_loop_exit b fl pu se :
    bstep (mkS b fl pu true false se) (mkS (flush b).1 (fl ++ (flush b).2) pu true true se)
| s_stopped b pu se :
    bstep (mkS b [] pu true true se)
          (mkS (mkB (b_buf b) (b_count b) stateStopped) [] pu true true se).

Definition binit : bsys := mkS NewBatcher [] [] false false [].

Definition binv (s : bsys) : Prop :=
  ∃ pm fm hm, Forall2 task_for (published s) pm ∧ Forall2 task_for (inflight s) fm ∧
    holds (s_b s) hm ∧ mjoin pm ++ mjoin fm ++ hm ≡ₚ sent s ∧
    (close_called s = true ↔ b_state (s_b s) ≠ stateRunning) ∧
    (loop_done s = true → close_called s = true ∧ hm = []) ∧
    (b_state (s_b s) = stateStopped → loop_done s = true ∧ inflight s = []).

Lemma holds_state tb st ms : holds tb ms → holds (mkB (b_buf tb) (b_count tb) st) ms.
Proof. done. Qed.

(** A step of [flush] under [binv], from the ticker or from the exiting loop. *)
Lemma flush_binv b fl pm fm hm se :
  Forall2 task_for fl fm → holds b hm → mjoin pm ++ mjoin fm ++ hm ≡ₚ se →
  ∃ fm', Forall2 task_for (fl ++ (flush b).2) fm' ∧ holds (flush b).1 [] ∧
         mjoin pm ++ mjoin fm' ++ [] ≡ₚ se ∧ b_state (flush b).1 = b_state b.
Proof.
  intros Hf Hh Hp. destruct (flush_spec b hm Hh) as (mss & Ht & <- & Hh' & Hs).
  exists (fm ++ mss). splits; [by apply Forall2_app|done| |done].
  rewrite <- Hp, join_app, app_nil_r. done.
Qed.

Lemma binv_preserved : preserved bstep binv.
Proof.
  intros s s' Hs (pm & fm & hm & Hp & Hf & Hh & Hperm & Hcc & Hld & Hst).
  destruct Hs as [b b' ts err fl pu cc ld se m cap1 cap2 stale H1 H2 H3 HA| | | | |]; cbn in *.
  - destruct (decide (b_state b = stateRunning)) as [Hr|Hr].
    + destruct (Add_spec m cap1 cap2 stale b hm) as (b2 & ts2 & mss & ms' & E & Hh' & Hr' & Ht & Hj & _);
        [done..|]. rewrite HA in E. simplify_eq.
      assert (cc = false) as -> by (destruct cc; [by apply Hcc in Hr|done]).
      exists pm, (fm ++ mss), ms'. splits; cbn; [done|by apply Forall2_app|done| | | |congruence].
      * rewrite join_app, <- (app_assoc (mjoin fm)), Hj, <- Hperm, !app_assoc. done.
      * split; congruence.
      * intros Hx. destruct (Hld Hx). done.
    + rewrite (Add_closed m cap1 cap2 stale b Hr) in HA. simplify_eq. rewrite app_nil_r.
      exists pm, fm, hm. splits; done.
  - destruct (flush_binv b fl pm fm hm se) as (fm' & ? & ? & ? & E); [done..|].
    exists pm, fm', []. cbn. rewrite E. splits; try done. intros Hx. by destruct (Hst Hx).
  - apply Forall2_app_inv_l in Hf as (g1 & g2 & Hg1 & Hg2 & ->).
    inversion Hg2 as [|? x ? g2' Hx Hg2']; subst.
    exists (pm ++ [x]), (g1 ++ g2'), hm. splits; cbn; try done.
    + apply Forall2_app; [done|]. by constructor.
    + by apply Forall2_app.
    + rewrite <- Hperm, !join_app. cbn. rewrite app_nil_r. solve_Permutation.
    + intros Hx'. destruct (Hst Hx') as [_ Hnil]. by destruct f1.
  - exists pm, fm, hm. splits; cbn; try done. intros Hx. by destruct (Hld Hx).
  - destruct (flush_binv b fl pm fm hm se) as (fm' & ? & ? & ? & E); [done..|].
    exists pm, fm', []. cbn. rewrite E. splits; try done. intros Hx. by destruct (Hst Hx).
  - exists pm, fm, hm. splits; cbn; try done.
Qed.

(** ** Properties *)

(** The messages a published buffer decodes to, by the receiver's own decoder. *)
Definition received (reply : string) (t : flushTask) : option (list Message) :=
  match DecodeManyAndHandle reply (λ m l, l ++ [m]) (ft_buf t) (mkSub 0 ∅) [] with
  | Some (None, _, l) => Some l
  | _ => None
  end.

Lemma fold_snoc {A B} (f : A → B) (l : list A) acc :
  fold_left (λ s m, s ++ [f m]) l acc = acc ++ (f <$> l).
Proof.
  revert acc. induction l as [|x l IH]; intros; cbn; [by rewrite app_nil_r|].
  rewrite IH, <- app_assoc. done.
Qed.

(** A task holding well-formed messages decodes to exactly these. *)
Lemma task_received reply t ms :
  task_for t ms → Forall msg_wf ms → received reply t = Some ((λ m, SetReply m reply) <$> ms).
Proof.
  intros (E & _ & _ & _) Hw. unfold received. rewrite E. unfold frames_of.
  replace (frame <$> ms) with (item_bytes <$> (IMsg <$> ms)) by (by rewrite <- list_fmap_compose).
  assert (Hi : Forall item_wf (IMsg <$> ms)) by (by apply Forall_fmap).
  pose proof (decode_loop_items reply (λ m l, l ++ [m]) [] (IMsg <$> ms) TNone (mkSub 0 ∅) []
                (S (length (mjoin (item_bytes <$> (IMsg <$> ms)))))) as D.
  unfold DecodeManyAndHandle. cbn [tail_bytes app] in D. rewrite app_nil_r in D.
  change (len []) with 0 in D.
  rewrite D; [|done|done|pose proof (length_join_items _ Hi); lia]. clear.
  assert (H : ∀ sm acc, (fold_left (item_effect reply (λ m l, l ++ [m])) (IMsg <$> ms) (sm, acc)).2 =
             acc ++ ((λ m, SetReply m reply) <$> ms)).
  { induction ms as [|m ms IH]; intros sm acc; cbn; [by rewrite app_nil_r|].
    rewrite IH, <- app_assoc. done. }
  specialize (H (mkSub 0 ∅) []). destruct (fold_left _ _ _) as [sm' l]. cbn in *. by subst.
Qed.

(** C3. Exactly-once hand-over across [Close]: in every interleaving of senders,
    ticker, publications and [Close], once the batcher is stopped the published
    buffers, decoded by the receiver, contain exactly the messages whose [Add]
    returned nil, none lost and none duplicated, and every buffer's count is the
    number of its messages. *)
Theorem batcher_delivers_exactly_once (reply : string) s :
  rtc bstep binit s → b_state (s_b s) = stateStopped → Forall msg_wf (sent s) →
  ∃ batches, mapM (received reply) (published s) = Some batches ∧
    mjoin batches ≡ₚ (λ m, SetReply m reply) <$> sent s ∧
    Forall2 (λ t b, ft_count t = len b ∧ b ≠ []) (published s) batches.
Proof.
  intros Hr Hst Hw. assert (Hi : binv s).
  { eapply rtc_preserved; [apply binv_preserved|exact Hr|]. exists [], [], []. by splits. }
  destruct Hi as (pm & fm & hm & Hp & Hf & _ & Hperm & _ & Hld & Hs).
  destruct (Hs Hst) as [Hl Hfl]. destruct (Hld Hl) as [_ ->]. rewrite Hfl in Hf.
  inversion Hf; subst fm. cbn in Hperm. rewrite app_nil_r in Hperm. rewrite <- Hperm in Hw.
  exists ((λ ms : list Message, (λ m, SetReply m reply) <$> ms) <$> pm). rewrite <- Hperm. clear Hperm Hs Hst Hr Hld Hfl Hf Hl.
  generalize dependent (published s). intros pu Hp.
  induction Hp as [|t ms ts pm Ht Hp IH]; [splits; [reflexivity..|constructor]|]. cbn in Hw |- *.
  apply Forall_app in Hw as [Hw1 Hw2]. destruct (IH Hw2) as (-> & Hj & H2).
  rewrite (task_received reply t ms) by done. cbn. splits; [done| |].
  - rewrite fmap_app. by f_equiv.
  - constructor; [|done]. destruct Ht as (_ & -> & Hne & _). unfold len. rewrite length_fmap.
    split; [done|]. by destruct ms.
Qed.

(** A fixed choice of the run-time's freedom, for the examples. *)
Definition zeros (n : Z) : bytes := replicate (Z.to_nat n) 0.

Lemma len_zeros n : 0 ≤ n → len (zeros n) = n.
Proof. intros. unfold zeros. rewrite len_replicate. lia. Qed.

Lemma batcher_delivers_exactly_once_witness :
  ∃ s batches, rtc bstep binit s ∧ sent s = [demo_msg [1; 2]; demo_msg [3]] ∧
    mapM (received "r") (published s) = Some batches ∧
    mjoin batches ≡ₚ (λ m, SetReply m "r") <$> [demo_msg [1; 2]; demo_msg [3]].
Proof.
  assert (Hrun : ∃ s, rtc bstep binit s ∧ b_state (s_b s) = stateStopped ∧
                      sent s = [demo_msg [1; 2]; demo_msg [3]]).
  { eexists. split; [|split].
    - eapply rtc_l; [eapply (s_add _ _ _ _ _ _ _ _ _ (demo_msg [1; 2]) buffSize buffSize zeros);
        [done..|exact len_zeros|vm_compute; reflexivity]|].
      eapply rtc_l; [eapply s_tick|].
      eapply rtc_l; [eapply (s_add _ _ _ _ _ _ _ _ _ (demo_msg [3]) buffSize buffSize zeros);
        [done..|exact len_zeros|vm_compute; reflexivity]|].
      eapply rtc_l; [eapply s_close|]. eapply rtc_l; [eapply s_loop_exit|].
      eapply rtc_l; [eapply (s_publish _ [_] _ [])|]. eapply rtc_l; [eapply (s_publish _ [] _ [])|].
      eapply rtc_l; [eapply s_stopped|]. apply rtc_refl.
    - reflexivity.
    - reflexivity. }
  destruct Hrun as (s & Hr & Hst & Hse).
  destruct (batcher_delivers_exactly_once "r" s Hr Hst) as (bs & Hb & Hp & _).
  { rewrite Hse. repeat constructor; vm_compute; congruence. }
  exists s, bs. rewrite Hse in Hp. repeat split; done.
Defined.

(** One sender's calls in sequence, collecting the published tasks. *)
Definition send_all (cap : Z) (stale : Z → bytes) (ms : list Message)
    (st : option (Batcher * list flushTask)) : option (Batcher * list flushTask) :=
  fold_left (λ st m, '(tb, ts) ← st; '(tb', ts', _) ← Add m cap cap stale tb; Some (tb', ts ++ ts'))
    ms st.

Lemma send_all_spec cap stale ms tb ts mss hm :
  buffSize ≤ cap → (∀ n, 0 ≤ n → len (stale n) = n) →
  b_state tb = stateRunning → holds tb hm → Forall2 task_for ts mss →
  ∃ tb' ts' mss' rest, send_all cap stale ms (Some (tb, ts)) = Some (tb', ts') ∧
    Forall2 task_for ts' mss' ∧ holds tb' rest ∧ mjoin mss' ++ rest = (mjoin mss ++ hm) ++ ms.
Proof.
  intros Hc Hst. revert tb ts mss hm. induction ms as [|m ms IH]; intros tb ts mss hm Hr Hh Ht.
  { exists tb, ts, mss, hm. by rewrite app_nil_r. }
  destruct (Add_spec m cap cap stale tb hm) as (tb1 & ts1 & mss1 & ms1 & E & Hh1 & Hr1 & Ht1 & Ej & _);
    [done..|].
  unfold send_all. cbn [fold_left mbind option_bind]. rewrite E. cbn [mbind option_bind].
  destruct (IH tb1 (ts ++ ts1) (mss ++ mss1) ms1) as (tb' & ts' & mss' & rest & E' & H1 & H2 & H3);
    [done|done|by apply Forall2_app|].
  exists tb', ts', mss', rest. splits; [exact E'|done|done|].
  rewrite H3, join_app, <- (app_assoc (mjoin mss)), Ej, <- !app_assoc. done.
Qed.

(** A single sender's order is kept and batches are bounded: when each [Add]'s
    tasks are published before the next one, the published buffers hold the
    messages in the order they were added, followed by what is still buffered;
    every published buffer has between 1 and 500 messages, and the bytes kept
    back stay below the 512000-byte limit. *)
Theorem batcher_sequential_order cap stale (ms : list Message) :
  buffSize ≤ cap → (∀ n, 0 ≤ n → len (stale n) = n) →
  ∃ tb ts mss rest,
    send_all cap stale ms (Some (NewBatcher, [])) = Some (tb, ts) ∧
    (λ t, ft_buf t) <$> ts = frames_of <$> mss ∧ mjoin mss ++ rest = ms ∧
    Forall (λ t, 1 ≤ ft_count t ≤ batchCount) ts ∧
    from_option fst [] (b_buf tb) = frames_of rest ∧ len (frames_of rest) < buffSize.
Proof.
  intros Hc Hst. destruct (send_all_spec cap stale ms NewBatcher [] [] [])
    as (tb & ts & mss & rest & E & Ht & Hh & Hj); [done..|].
  exists tb, ts, mss, rest. splits; [done| |done| | |].
  - clear -Ht. induction Ht as [|t m ts mss (Hb & _) _ IH]; [done|]. cbn. by rewrite Hb, IH.
  - clear -Ht. induction Ht as [|t m ts mss (_ & Hn & Hne & Hl) _ IH]; [done|].
    constructor; [|done]. destruct m; [done|]. rewrite Hn in *. lens.
  - unfold holds in Hh. destruct (b_buf tb) as [[]|]; cbn; [by destruct Hh|by destruct Hh as [-> _]].
  - unfold holds in Hh. destruct (b_buf tb) as [[]|].
    + destruct Hh as (-> & _ & _ & ? & _). done.
    + destruct Hh as [-> _]. done.
Qed.

Lemma batcher_sequential_order_witness :
  ∃ tb ts mss rest,
    send_all buffSize zeros [demo_msg [1]; demo_msg [2; 2]] (Some (NewBatcher, [])) = Some (tb, ts) ∧
    (λ t, ft_buf t) <$> ts = frames_of <$> mss ∧ mjoin mss ++ rest = [demo_msg [1]; demo_msg [2; 2]] ∧
    Forall (λ t, 1 ≤ ft_count t ≤ batchCount) ts ∧
    from_option fst [] (b_buf tb) = frames_of rest ∧ len (frames_of rest) < buffSize.
Proof. apply batcher_sequential_order; [done|exact len_zeros]. Defined.

(** Buffers recycled through a [BytesPool] always satisfy what the batcher
    relies on: if only buffers of at least the pool's size are ever returned, then
    after any interleaving of gets and puts every buffer handed out is at least
    the pool's size and at most ten times it, so an exceptional burst is never
    kept. *)
Theorem bytes_pool_bounded (sz : Z) (ops : list (option (option nat) * Z)) :
  0 ≤ sz → Forall (λ o, sz ≤ o.2) ops →
  let run := fold_left (λ p o, match o.1 with
                               | Some pick => (BytesPool_Get pick p).2
                               | None => BytesPool_Put o.2 p end) ops (NewBytesPoll sz) in
  ∀ pick, sz ≤ (BytesPool_Get pick run).1 ≤ 10 * sz.
Proof.
  intros H0 Hops run pick.
  assert (Hr : pool_ok run ∧ pool_size run = sz).
  { unfold run. clear run pick. generalize (NewBytesPoll sz), (conj (Forall_nil_2 _) eq_refl :
      pool_ok (NewBytesPoll sz) ∧ pool_size (NewBytesPoll sz) = sz).
    induction Hops as [|[[pick|] c] ops Hc _ IH]; intros p [Hp Hs]; cbn in *; [done| |].
    - apply IH. rewrite <- Hs in *. destruct (BytesPool_Get_ok pick p) as (? & ? & _); done.
    - apply IH. rewrite <- Hs in *. by apply BytesPool_Put_ok. }
  destruct Hr as [Hok Hs]. destruct (BytesPool_Get_ok pick run) as (_ & _ & Hb); [lia|done|].
  by rewrite Hs in Hb.
Qed.

Lemma bytes_pool_bounded_witness :
  let run := fold_left (λ p o, match o.1 with
                               | Some pick => (BytesPool_Get pick p).2
                               | None => BytesPool_Put o.2 p end)
               [(None, 600); (None, 6000); (Some (Some 0%nat), 512)] (NewBytesPoll 512) in
  ∀ pick, 512 ≤ (BytesPool_Get pick run).1 ≤ 10 * 512.
Proof. apply bytes_pool_bounded; [lia|]. repeat constructor; cbn; lia. Defined.
