(* ===== verification/QueueBatcher.v ===== *)
(** * pkg/gnet/pub/_queue_batcher.go: the batcher over a queue

    The batcher the repository keeps aside (the underscore keeps Go from compiling the file):
    [Add] only pushes to a [SwapQueue], and a goroutine of its own encodes the messages into
    one buffer. It is compared with the batcher in use, of [Batcher.v]. *)

From S2P Require Import Prelude Gmsg SwapQueue Batcher.

(** ** The loop's variables *)

(** [buf] with its capacity, [count], and the calls of [flushFn] so far. *)
Record qloop := mkQL { ql_buf : bytes; ql_cap : Z; ql_count : Z; ql_out : list (bytes * Z) }.

Definition qloop0 : qloop := mkQL [] buffSize 0 [].

Definition qflush (st : qloop) : qloop :=
  if decide (ql_count st > 0)
  then mkQL [] (if decide (ql_cap st > buffSize) then buffSize else ql_cap st) 0 (ql_out st ++ [(ql_buf st, ql_count st)])
  else st.

(** [stale n]: what the next [n] bytes of the buffer held before. [None] is a panic. *)
Definition processFunc (stale : Z → bytes) (m : Message) (st : qloop) : option qloop :=
  let msgSize := FrameBodyHeadSize + len (msg_data m) in
  let frameSize := FrameLenSize + msgSize in
  let st := if decide (len (ql_buf st) + frameSize > ql_cap st ∧ len (ql_buf st) > 0) then qflush st else st in
  if decide (frameSize > ql_cap st) then
    monsterBuf ← Message_EncodeTo m (replicate (Z.to_nat frameSize) 0) msgSize;
    Some (mkQL (ql_buf st) (ql_cap st) (ql_count st) (ql_out st ++ [(monsterBuf, 1)]))
  else
    enc ← Message_EncodeTo m (stale frameSize) msgSize;
    let st := mkQL (ql_buf st ++ enc) (ql_cap st) (ql_count st + 1) (ql_out st) in
    Some (if decide (ql_count st >= batchCount ∨ len (ql_buf st) > buffSize) then qflush st else st).

Definition processAll (stale : Z → bytes) (ms : list Message) (st : option qloop) : option qloop :=
  fold_left (λ st m, st ≫= processFunc stale m) ms st.

(** ** Against the batcher in use *)

Definition view (t : flushTask) : bytes * Z := (ft_buf t, ft_count t).

(** Both hold the same bytes, or the queue's loop still holds a buffer that is exactly full
    and that the other has handed over. *)
Definition agree (st : qloop) (tb : Batcher) (ts : list flushTask) : Prop :=
  ql_cap st = buffSize ∧ b_state tb = stateRunning ∧ 0 ≤ ql_count st ∧
  (len (ql_buf st) < buffSize ∧ default ([], buffSize) (b_buf tb) = (ql_buf st, buffSize) ∧
   b_count tb = ql_count st ∧ (0 < len (ql_buf st) ↔ 0 < ql_count st) ∧ view <$> ts = ql_out st ∨
   len (ql_buf st) = buffSize ∧ 0 < ql_count st ∧ default ([], buffSize) (b_buf tb) = ([], buffSize) ∧
   b_count tb = 0 ∧ view <$> ts = ql_out st ++ [(ql_buf st, ql_count st)]).

Lemma frameSize_pos m : 0 < FrameLenSize + (FrameBodyHeadSize + len (msg_data m)).
Proof. frames. Qed.

(** The second half of both: room for the frame has been made, and both hold the same. *)
Lemma place_agree stale m buf count out ts :
  (∀ n, 0 ≤ n → len (stale n) = n) → len buf < buffSize → 0 ≤ count → (0 < len buf ↔ 0 < count) → view <$> ts = out →
  let fs := FrameLenSize + (FrameBodyHeadSize + len (msg_data m)) in
  (fs ≤ buffSize → len buf + fs ≤ buffSize) →
  ∃ tb' ts' st', Add_place m stale buf buffSize count = Some (tb', ts') ∧
    (if decide (fs > buffSize)
     then monsterBuf ← Message_EncodeTo m (replicate (Z.to_nat fs) 0) (FrameBodyHeadSize + len (msg_data m));
          Some (mkQL buf buffSize count (out ++ [(monsterBuf, 1)]))
     else enc ← Message_EncodeTo m (stale fs) (FrameBodyHeadSize + len (msg_data m));
          let st := mkQL (buf ++ enc) buffSize (count + 1) out in
          Some (if decide (ql_count st >= batchCount ∨ len (ql_buf st) > buffSize) then qflush st else st)) = Some st' ∧
    agree st' tb' (ts ++ ts').
Proof.
  intros Hst Hb Hc Hpos Hv fs Hfit. pose proof (len_nonneg buf). pose proof (frameSize_pos m : 0 < fs). unfold Add_place. fold fs.
  destruct (decide (fs > buffSize)) as [Hm|Hm].
  - rewrite encode_any by (rewrite len_replicate; unfold fs in *; lia). cbn [mbind option_bind].
    eexists _, _, _. split; [done|]. split; [done|]. unfold agree. cbn. splits; try done.
    left. splits; try done. by rewrite fmap_app, Hv.
  - rewrite encode_any by (apply Hst; lia). cbn [mbind option_bind ql_count ql_buf].
    assert (Hl : len (buf ++ frame m) = len buf + fs) by (rewrite len_app; f_equal; rewrite len_frame; unfold fs; lia).
    destruct (decide (count + 1 >= batchCount)) as [Hn|Hn]; [|destruct (decide (len (buf ++ frame m) >= buffSize)) as [Hf|Hf]].
    + rewrite (decide_True (P := count + 1 >= batchCount ∨ _ >= _)), (decide_True (P := count + 1 >= batchCount ∨ _ > _)) by auto.
      unfold qflush. cbn [ql_count ql_cap ql_buf ql_out]. rewrite decide_True by lia.
      eexists _, _, _. split; [done|]. split; [done|]. unfold agree. cbn. splits; try done. left. splits; try done. by rewrite fmap_app, Hv.
    + rewrite (decide_True (P := count + 1 >= batchCount ∨ _ >= _)), (decide_False (P := count + 1 >= batchCount ∨ _ > _)) by lia.
      eexists _, _, _. split; [done|]. split; [done|]. unfold agree. cbn [ql_count ql_cap ql_buf ql_out b_state b_buf b_count].
      splits; try done; [lia|]. right. splits; try done; [lia|lia|]. by rewrite fmap_app, Hv.
    + rewrite !decide_False by lia.
      eexists _, _, _. split; [done|]. split; [done|]. unfold agree. cbn [ql_count ql_cap ql_buf ql_out b_state b_buf b_count].
      splits; try done; [lia|]. left. rewrite app_nil_r. splits; try done; lia.
Qed.

(** One message, from states that agree. *)
Lemma process_agree stale m st tb ts :
  (∀ n, 0 ≤ n → len (stale n) = n) → agree st tb ts →
  ∃ tb' ts' st', Add m buffSize buffSize stale tb = Some (tb', ts', None) ∧ processFunc stale m st = Some st' ∧
    agree st' tb' (ts ++ ts').
Proof.
  intros Hst (Hcap & Hr & Hc & Ha). assert (0 < buffSize) by done. pose proof (frameSize_pos m) as Hfs. unfold Add, processFunc, Add_reserve.
  rewrite decide_False by congruence. rewrite Hcap. destruct Ha as [(Hl & Ed & En & Hp & Hv)|(Hl & Hpos & Ed & En & Hv)]; rewrite Ed, En.
  - destruct (decide (len (ql_buf st) + _ > buffSize ∧ len (ql_buf st) > 0)) as [Hd|Hd].
    + assert (ql_count st > 0) by (apply Z.lt_gt, Hp; lia).
      unfold qflush. rewrite (decide_True (P := ql_count st > 0)), Hcap, (decide_False (P := buffSize > buffSize)) by lia. cbn [ql_buf ql_cap ql_count ql_out].
      destruct (place_agree stale m [] 0 (ql_out st ++ [(ql_buf st, ql_count st)]) (ts ++ [mkTask (ql_buf st) (Some buffSize) (ql_count st)]))
        as (tb' & ts' & st' & -> & E2 & Hag); [done..|by rewrite fmap_app, Hv|rewrite len_nil; lia|].
      eexists _, _, _. cbn [mbind option_bind fst snd]. split; [done|]. split; [exact E2|]. by rewrite app_assoc.
    + rewrite Hcap. destruct (place_agree stale m (ql_buf st) (ql_count st) (ql_out st) ts) as (tb' & ts' & st' & -> & E2 & Hag); [done..|lens|].
      eexists _, _, _. cbn [mbind option_bind fst snd]. split; [done|]. split; [exact E2|]. exact Hag.
  - rewrite (decide_False (P := len [] + _ > _ ∧ _)), (decide_True (P := len (ql_buf st) + _ > _ ∧ _)) by (rewrite ?len_nil; lia).
    unfold qflush. rewrite (decide_True (P := ql_count st > 0)), Hcap, (decide_False (P := buffSize > buffSize)) by lia. cbn [ql_buf ql_cap ql_count ql_out].
    destruct (place_agree stale m [] 0 (ql_out st ++ [(ql_buf st, ql_count st)]) ts) as (tb' & ts' & st' & -> & E2 & Hag);
      [done..|rewrite len_nil; lia|].
    eexists _, _, _. cbn [mbind option_bind fst snd]. split; [done|]. split; [exact E2|]. exact Hag.
Qed.

Lemma flush_agree st tb ts : agree st tb ts → view <$> (ts ++ (flush tb).2) = ql_out (qflush st).
Proof.
  intros (Hcap & Hr & Hc & [(Hl & Ed & En & Hp & Hv)|(Hl & Hpos & Ed & En & Hv)]); rewrite fmap_app; unfold flush, qflush.
  - destruct (b_buf tb) as [[buf cap]|]; cbn in Ed; simplify_eq Ed; [intros Eb _|intros Eb].
    + rewrite En, <- Eb. case_decide; cbn; [by rewrite Hv|by rewrite app_nil_r, Hv].
    + rewrite decide_False; [by rewrite app_nil_r|]. assert (len (ql_buf st) = 0) by (by rewrite <- Eb). lia.
  - rewrite (decide_True (P := ql_count st > 0)) by lia. cbn [ql_out]. rewrite <- Hv.
    destruct (b_buf tb) as [[buf cap]|]; [rewrite decide_False by lia|]; by rewrite app_nil_r.
Qed.

Lemma run_agree stale ms st tb ts :
  (∀ n, 0 ≤ n → len (stale n) = n) → agree st tb ts →
  ∃ tb' ts' st', send_all buffSize stale ms (Some (tb, ts)) = Some (tb', ts') ∧
    processAll stale ms (Some st) = Some st' ∧ agree st' tb' ts'.
Proof.
  intros Hst. revert st tb ts. induction ms as [|m ms IH]; intros st tb ts Ha; [by eexists _, _, _|].
  destruct (process_agree stale m st tb ts Hst Ha) as (tb1 & ts1 & st1 & E1 & E2 & Ha1).
  unfold send_all, processAll. cbn [fold_left mbind option_bind]. rewrite E1, E2. cbn [mbind option_bind]. by apply IH.
Qed.

(** ** Senders, the loop and [StopAndFlush] together *)

(** [q_adds]: [Add]s between their check of the state and their push; [q_exited]: the loop has
    ended; [q_accepted]: the messages whose [Add] returned nil, in the order of the pushes. *)
Record qsys := mkQS {
  q_queue : SwapQueue Message; q_state : batcherState; q_adds : list Message;
  q_loop : option qloop; q_exited : bool; q_accepted : list Message }.

Section System.
Context (zero : Message) (growcap : Z → Z → Z) (stale : Z → bytes).

Definition rangeQ (q : SwapQueue Message) (st : option qloop) : SwapQueue Message * option qloop :=
  Range zero (λ m qs, (qs.1, qs.2 ≫= processFunc stale m)) (q, st).

(** The end of a turn: a closed queue is drained once more and the loop ends. *)
Definition endTurn (q : SwapQueue Message) (st : option qloop) : SwapQueue Message * option qloop * bool :=
  if closed q then let '(q, st) := rangeQ q st in (q, qflush <$> st, true) else (q, st, false).

Inductive qstep : qsys → qsys → Prop :=
| q_check q adds l x acc m : qstep (mkQS q stateRunning adds l x acc) (mkQS q stateRunning (m :: adds) l x acc)
| q_push q s a1 m a2 l x acc q' err :
    Push growcap m q = (q', err) →
    qstep (mkQS q s (a1 ++ m :: a2) l x acc) (mkQS q' s (a1 ++ a2) l x (if err is None then acc ++ [m] else acc))
| q_sig q q' q1 q2 s adds l l1 l2 x acc :
    recvSig q = Some q' → rangeQ q' l = (q1, l1) → endTurn q1 l1 = (q2, l2, x) →
    qstep (mkQS q s adds l false acc) (mkQS q2 s adds l2 x acc)
| q_tick q q1 q2 s adds l l1 l2 x acc :
    rangeQ q l = (q1, l1) → endTurn q1 (qflush <$> l1) = (q2, l2, x) →
    qstep (mkQS q s adds l false acc) (mkQS q2 s adds l2 x acc)
| q_stop q adds l x acc : qstep (mkQS q stateRunning adds l x acc) (mkQS q stateClosing adds l x acc)
| q_stopped q adds l acc : qstep (mkQS q stateClosing adds l true acc) (mkQS q stateStopped adds l true acc).

(** [NewQueueBatcher]. *)
Definition NewQueueBatcher : qsys := mkQS (NewSwapQueue 4096 40960) stateRunning [] (Some qloop0) false [].

(** The loop has handed over [mss] and holds [hm]. *)
Definition loopHas (st : qloop) (mss : list (list Message)) (hm : list Message) : Prop :=
  Forall2 (λ o ms, o.1 = frames_of ms ∧ o.2 = len ms ∧ ms ≠ []) (ql_out st) mss ∧
  ql_buf st = frames_of hm ∧ ql_count st = len hm ∧ ql_cap st = buffSize ∧ len (frames_of hm) ≤ buffSize.

Lemma qflush_has st mss hm : loopHas st mss hm → ∃ mss', loopHas (qflush st) mss' [] ∧ mjoin mss' = mjoin mss ++ hm.
Proof.
  intros (Ho & Eb & Ec & Ecap & Hl). unfold qflush. rewrite Ec. case_decide as Hd.
  - exists (mss ++ [hm]). split; [|rewrite join_app; cbn; by rewrite app_nil_r].
    rewrite Ecap, decide_False by lia. unfold loopHas. cbn [ql_out ql_buf ql_count ql_cap]. splits; try done.
    apply Forall2_app; [done|]. constructor; [|done]. cbn. splits; try done. by intros ->.
  - assert (hm = []) as -> by (apply len_0_nil; lens). exists mss. rewrite app_nil_r. done.
Qed.

Lemma processFunc_has m st mss hm :
  (∀ n, 0 ≤ n → len (stale n) = n) → loopHas st mss hm →
  ∃ st' mss' hm', processFunc stale m st = Some st' ∧ loopHas st' mss' hm' ∧ mjoin mss' ++ hm' = (mjoin mss ++ hm) ++ [m].
Proof.
  intros Hst Hh. unfold processFunc. set (fs := FrameLenSize + _). assert (Hfs : 0 < fs) by apply frameSize_pos.
  set (st0 := if decide _ then qflush st else st).
  assert (∃ mss0 hm0, loopHas st0 mss0 hm0 ∧ mjoin mss0 ++ hm0 = mjoin mss ++ hm ∧
            (fs ≤ buffSize → len (frames_of hm0) + fs ≤ buffSize) ∧ (fs > buffSize → hm0 = []))
    as (mss0 & hm0 & (Ho & Eb & Ec & Ecap & Hl) & <- & Hfit & Hbig).
  { pose proof Hh as (_ & Eb & Ec & Ecap & Hl). unfold st0. rewrite Eb, Ecap. case_decide as Hd.
    - destruct (qflush_has st mss hm Hh) as (mss' & Hh' & E). exists mss', []. rewrite app_nil_r.
      splits; [done|done| |done]. change (len (frames_of [])) with 0. lia.
    - exists mss, hm. splits; [done..|lens|]. intros. apply len_frames_of_0. lia. }
  clearbody st0. rewrite Ecap. case_decide as Hm.
  - rewrite encode_any by (rewrite len_replicate; unfold fs in *; lia). cbn [mbind option_bind].
    rewrite (Hbig Hm) in *. eexists _, (mss0 ++ [[m]]), []. split; [done|]. split.
    + unfold loopHas. cbn [ql_out ql_buf ql_count ql_cap]. splits; try done. apply Forall2_app; [done|].
      constructor; [|done]. cbn [fst snd]. splits; [by rewrite frames_of_one|done..].
    + rewrite join_app. cbn. by rewrite !app_nil_r.
  - rewrite encode_any by (apply Hst; lia). cbn [mbind option_bind].
    assert (Hl' : len (frames_of (hm0 ++ [m])) ≤ buffSize).
    { rewrite frames_of_app, frames_of_one, len_app, len_frame. unfold fs in *. lia. }
    set (st1 := mkQL _ _ _ _). assert (Hh1 : loopHas st1 mss0 (hm0 ++ [m])).
    { unfold loopHas, st1. cbn [ql_out ql_buf ql_count ql_cap]. splits; try done; [|lens].
      by rewrite frames_of_app, frames_of_one, Eb. }
    case_decide.
    + destruct (qflush_has _ _ _ Hh1) as (mss' & Hh' & E). exists (qflush st1), mss', []. splits; [done..|].
      by rewrite app_nil_r, E, app_assoc.
    + exists st1, mss0, (hm0 ++ [m]). splits; [done..|]. by rewrite app_assoc.
Qed.

Lemma process_list_has ms st mss hm :
  (∀ n, 0 ≤ n → len (stale n) = n) → loopHas st mss hm →
  ∃ st' mss' hm', processAll stale ms (Some st) = Some st' ∧ loopHas st' mss' hm' ∧ mjoin mss' ++ hm' = (mjoin mss ++ hm) ++ ms.
Proof.
  intros Hst. revert st mss hm. induction ms as [|m ms IH]; intros st mss hm Hh.
  { exists st, mss, hm. by rewrite app_nil_r. }
  destruct (processFunc_has m st mss hm Hst Hh) as (st1 & mss1 & hm1 & E1 & Hh1 & Ej).
  destruct (IH st1 mss1 hm1 Hh1) as (st2 & mss2 & hm2 & E2 & Hh2 & Ej2).
  exists st2, mss2, hm2. unfold processAll. cbn [fold_left mbind option_bind]. rewrite E1. splits; [exact E2|done|].
  by rewrite Ej2, Ej, <- app_assoc.
Qed.

Lemma rangeQ_has q st mss hm q1 st1 :
  (∀ n, 0 ≤ n → len (stale n) = n) → loopHas st mss hm → rangeQ q (Some st) = (q1, st1) →
  ∃ st' mss' hm', st1 = Some st' ∧ loopHas st' mss' hm' ∧ mjoin mss' ++ hm' = (mjoin mss ++ hm) ++ write q ∧
    write q1 = [] ∧ closed q1 = closed q.
Proof.
  intros Hst Hh E. unfold rangeQ, Range in E. destruct (write q) as [|m ms] eqn:Ew.
  { injection E as <- <-. exists st, mss, hm. by rewrite app_nil_r. }
  cbn [read swap] in E. rewrite Ew in E.
  assert (Ef : ∀ l q0 st0, fold_left (λ (qs : SwapQueue Message * option qloop) x, (qs.1, qs.2 ≫= processFunc stale x)) l (q0, st0) = (q0, processAll stale l st0)).
  { clear. induction l as [|x l IH]; intros q0 st0; [done|]. cbn [fold_left fst snd]. by rewrite IH. }
  rewrite Ef in E. injection E as <- <-. destruct (process_list_has (m :: ms) st mss hm Hst Hh) as (st' & mss' & hm' & E1 & Hh' & Ej).
  exists st', mss', hm'. done.
Qed.

(** Nothing closes the queue, so the loop never ends. *)
Definition qinv (s : qsys) : Prop :=
  closed (q_queue s) = false ∧ q_exited s = false ∧ q_state s ≠ stateStopped ∧
  ∃ st mss hm, q_loop s = Some st ∧ loopHas st mss hm ∧ (mjoin mss ++ hm) ++ write (q_queue s) = q_accepted s.

Lemma qinv_preserved : (∀ n, 0 ≤ n → len (stale n) = n) → preserved qstep qinv.
Proof.
  intros Hst s s' Hs (Hc & Hx & Hns & st & mss & hm & El & Hh & Ea).
  destruct Hs as [| | q q' q1 q2 s adds l l1 l2 x acc Er Eg Ee | q q1 q2 s adds l l1 l2 x acc Eg Ee | |]; cbn in *; subst.
  - unfold qinv. cbn. eauto 10.
  - unfold qinv. cbn. rename H into E. unfold Push in E.
    destruct (pushData_cases growcap m q) as [[Hcl _]|[(_ & _ & Ep)|(_ & _ & Ep)]]; [congruence|..]; rewrite Ep in E; injection E as <- <-; cbn.
    + eauto 10.
    + splits; try done. exists st, mss, hm. splits; try done. by rewrite app_assoc.
  - unfold recvSig in Er. destruct (sig q); [|done]. injection Er as <-.
    destruct (rangeQ_has _ st mss hm q1 l1 Hst Hh Eg) as (st1 & mss1 & hm1 & -> & Hh1 & Ej & Ew & Ecl).
    unfold endTurn in Ee. rewrite Ecl in Ee. cbn in Ee. rewrite Hc in Ee. injection Ee as <- <- <-.
    unfold qinv. cbn. rewrite Ecl. cbn. splits; try done. exists st1, mss1, hm1. rewrite Ej, Ew, app_nil_r. done.
  - destruct (rangeQ_has _ st mss hm q1 l1 Hst Hh Eg) as (st1 & mss1 & hm1 & -> & Hh1 & Ej & Ew & Ecl).
    destruct (qflush_has st1 mss1 hm1 Hh1) as (mss2 & Hh2 & Ej2).
    unfold endTurn in Ee. rewrite Ecl, Hc in Ee. cbn in Ee. injection Ee as <- <- <-.
    unfold qinv. cbn. rewrite Ecl. splits; try done. exists (qflush st1), mss2, []. rewrite app_nil_r, Ej2, Ej, Ew, app_nil_r. done.
  - unfold qinv. cbn. splits; try done. by exists st, mss, hm.
  - done.
Qed.
End System.

(** ** The two batchers compared *)

(** One sender's calls in sequence, each with the capacities of the buffers the pool hands
    out during it. *)
Definition send_caps (stale : Z → bytes) (ms : list (Message * (Z * Z))) (st : option (Batcher * list flushTask))
    : option (Batcher * list flushTask) :=
  fold_left (λ st x, '(tb, ts) ← st; '(tb', ts', _) ← Add x.1 x.2.1 x.2.2 stale tb; Some (tb', ts ++ ts')) ms st.

Lemma send_caps_const stale c (ms : list (Message * (Z * Z))) st :
  Forall (λ x, x.2 = (c, c)) ms → send_caps stale ms st = send_all c stale ms.*1 st.
Proof.
  intros Hf. revert st. induction Hf as [|[m [c1 c2]] ms E _ IH]; intros st; [done|]. cbn in E. injection E as -> ->.
  unfold send_caps, send_all. cbn [fold_left fmap list_fmap fst snd]. apply IH.
Qed.

Lemma send_caps_spec stale (ms : list (Message * (Z * Z))) tb ts mss hm :
  (∀ n, 0 ≤ n → len (stale n) = n) → Forall (λ x, buffSize ≤ x.2.1 ∧ buffSize ≤ x.2.2) ms →
  b_state tb = stateRunning → holds tb hm → Forall2 task_for ts mss →
  ∃ tb' ts' mss' rest, send_caps stale ms (Some (tb, ts)) = Some (tb', ts') ∧
    Forall2 task_for ts' mss' ∧ holds tb' rest ∧ mjoin mss' ++ rest = (mjoin mss ++ hm) ++ ms.*1.
Proof.
  intros Hst Hf. revert tb ts mss hm. induction Hf as [|[m [c1 c2]] ms [Hc1 Hc2] _ IH]; intros tb ts mss hm Hr Hh Ht.
  { exists tb, ts, mss, hm. by rewrite app_nil_r. }
  cbn in Hc1, Hc2. destruct (Add_spec m c1 c2 stale tb hm) as (tb1 & ts1 & mss1 & ms1 & E & Hh1 & Hr1 & Ht1 & Ej & _); [done..|].
  unfold send_caps. cbn [fold_left mbind option_bind fst snd]. rewrite E. cbn [mbind option_bind].
  destruct (IH tb1 (ts ++ ts1) (mss ++ mss1) ms1) as (tb' & ts' & mss' & rest & E' & H1 & H2 & H3);
    [done|done|by apply Forall2_app|].
  exists tb', ts', mss', rest. splits; [exact E'|done|done|].
  rewrite H3, join_app, <- (app_assoc (mjoin mss)), Ej, <- !app_assoc. done.
Qed.

(** The bytes handed over and the number of messages reported, in all. *)
Definition stream (out : list (bytes * Z)) : bytes * Z := (mjoin out.*1, fold_right Z.add 0 out.*2).

Lemma stream_of (out : list (bytes * Z)) (mss : list (list Message)) :
  Forall2 (λ o ms, o.1 = frames_of ms ∧ o.2 = len ms) out mss → stream out = (frames_of (mjoin mss), len (mjoin mss)).
Proof.
  unfold stream. induction 1 as [|o ms out mss [E1 E2] _ IH]; [done|]. injection IH as H1 H2.
  change (mjoin ((o :: out).*1)) with (o.1 ++ mjoin out.*1). change (mjoin (ms :: mss)) with (ms ++ mjoin mss).
  change (fold_right Z.add 0 (o :: out).*2) with (o.2 + fold_right Z.add 0 out.*2).
  by rewrite H1, H2, E1, E2, frames_of_app, len_app.
Qed.

(** C36. The two batchers publish the same: given the same messages in the same order and then a
    flush, neither panics, and the batcher over a queue and the batcher in use hand the same
    bytes, those of the messages in order, and the same number of messages to their flush
    functions, whatever the buffers held before and whatever capacity of at least [buffSize]
    the buffers of the pool have. If every buffer of the pool has exactly [buffSize], they
    also cut them into the same batches: the same buffers with the same counts. (Remote
    calls return larger buffers to the pool; the batcher in use then fills these further
    before it flushes, the batcher over a queue has a buffer of its own.) *)
Theorem queue_batcher_equiv stale (ms : list (Message * (Z * Z))) :
  (∀ n, 0 ≤ n → len (stale n) = n) → Forall (λ x, buffSize ≤ x.2.1 ∧ buffSize ≤ x.2.2) ms →
  ∃ tb ts st, send_caps stale ms (Some (NewBatcher, [])) = Some (tb, ts) ∧
    processAll stale ms.*1 (Some qloop0) = Some st ∧
    let used := view <$> (ts ++ (flush tb).2) in
    let queued := ql_out (qflush st) in
    stream used = (frames_of ms.*1, len ms) ∧ stream queued = (frames_of ms.*1, len ms) ∧
    (Forall (λ x, x.2 = (buffSize, buffSize)) ms → queued = used).
Proof.
  intros Hst Hf.
  destruct (send_caps_spec stale ms NewBatcher [] [] [] Hst Hf) as (tb & ts & mss & rest & E1 & Ht & Hh & Ej); [done..|].
  destruct (process_list_has stale ms.*1 qloop0 [] [] Hst) as (st & mss2 & hm2 & E2 & Hq & Ej2); [by unfold loopHas|].
  assert (Hlen : len ms.*1 = len ms) by (unfold len; by rewrite length_fmap).
  exists tb, ts, st. split; [done|]. split; [done|]. intros used queued. splits.
  - unfold used. destruct (flush_spec tb rest Hh) as (mss' & Ht' & Ej' & _).
    rewrite (stream_of _ (mss ++ mss')); [by rewrite join_app, Ej', Ej, <- Hlen|].
    apply Forall2_fmap_l. eapply Forall2_impl; [by apply Forall2_app|]. intros t l (H1 & H2 & _). by split.
  - unfold queued. destruct (qflush_has st mss2 hm2 Hq) as (mss3 & (Ho & _) & Ej3).
    rewrite (stream_of _ mss3); [by rewrite Ej3, Ej2, <- Hlen|].
    eapply Forall2_impl; [exact Ho|]. intros o l (H1 & H2 & _). by split.
  - intros Hc. destruct (run_agree stale ms.*1 qloop0 NewBatcher [] Hst) as (tb' & ts' & st' & F1 & F2 & Ha).
    { unfold agree. cbn. splits; try done. left. splits; done. }
    rewrite <- (send_caps_const stale buffSize ms _ Hc), E1 in F1. rewrite E2 in F2. injection F1 as <- <-. injection F2 as <-.
    symmetry. by apply flush_agree.
Qed.

Lemma queue_batcher_equiv_witness :
  ∃ tb ts st, send_caps zeros [(demo_msg [1; 2], (buffSize, buffSize)); (demo_msg [3], (2 * buffSize, buffSize))] (Some (NewBatcher, [])) = Some (tb, ts) ∧
    processAll zeros [demo_msg [1; 2]; demo_msg [3]] (Some qloop0) = Some st ∧
    (stream (ql_out (qflush st))).2 = 2 ∧ stream (view <$> (ts ++ (flush tb).2)) = stream (ql_out (qflush st)).
Proof.
  destruct (queue_batcher_equiv zeros [(demo_msg [1; 2], (buffSize, buffSize)); (demo_msg [3], (2 * buffSize, buffSize))] len_zeros)
    as (tb & ts & st & E1 & E2 & E3 & E4 & _); [repeat (constructor; [cbn; unfold buffSize, batchCount; lia|]); constructor|].
  exists tb, ts, st. splits; [exact E1|exact E2|by rewrite E4|by rewrite E3, E4].
Defined.

(** In every interleaving the batcher over a queue loses and reorders nothing: the buffers handed over, what
    the loop holds and what is queued are the accepted messages in order, and the next tick
    hands all of them over. But [StopAndFlush] never returns: it waits for the loop, the loop
    waits for the queue to be closed, and nothing closes it. *)
Theorem queue_batcher_in_order zero growcap stale s :
  (∀ n, 0 ≤ n → len (stale n) = n) → rtc (qstep zero growcap stale) NewQueueBatcher s →
  q_state s ≠ stateStopped ∧
  (∃ st mss hm, q_loop s = Some st ∧ fst <$> ql_out st = frames_of <$> mss ∧
     mjoin mss ++ hm ++ write (q_queue s) = q_accepted s) ∧
  ∃ s' st mss, qstep zero growcap stale s s' ∧ q_accepted s' = q_accepted s ∧ write (q_queue s') = [] ∧
    q_loop s' = Some st ∧ ql_buf st = [] ∧ fst <$> ql_out st = frames_of <$> mss ∧ mjoin mss = q_accepted s.
Proof.
  intros Hst Hr. assert (Hi : qinv s).
  { eapply rtc_preserved; [by apply qinv_preserved|exact Hr|]. unfold qinv. cbn. splits; try done. by exists qloop0, [], []. }
  assert (Hf : ∀ st mss hm, loopHas st mss hm → fst <$> ql_out st = frames_of <$> mss).
  { intros st mss hm (H & _). clear -H. induction H as [|o ms os mss (E & _) _ IH]; [done|]. cbn. by rewrite E, IH. }
  destruct Hi as (Hc & Hx & Hns & st & mss & hm & El & Hh & Ea). splits; [done| |].
  - exists st, mss, hm. splits; [done|by eapply Hf|by rewrite app_assoc].
  - destruct (rangeQ zero stale (q_queue s) (Some st)) as [q1 l1] eqn:Eg.
    destruct (rangeQ_has zero stale _ st mss hm q1 l1 Hst Hh Eg) as (st1 & mss1 & hm1 & -> & Hh1 & Ej & Ew & Ecl).
    destruct (qflush_has st1 mss1 hm1 Hh1) as (mss2 & Hh2 & Ej2).
    exists (mkQS q1 (q_state s) (q_adds s) (Some (qflush st1)) false (q_accepted s)), (qflush st1), mss2. splits.
    + destruct s as [q sta adds l x acc]. cbn in *. subst. eapply q_tick; [exact Eg|]. unfold endTurn. by rewrite Ecl, Hc.
    + done.
    + done.
    + done.
    + by destruct Hh2 as (_ & -> & _).
    + by eapply Hf.
    + by rewrite Ej2, Ej.
Qed.

Lemma queue_batcher_in_order_witness :
  ∃ s, rtc (qstep (demo_msg []) (λ _ n, n) zeros) NewQueueBatcher s ∧ q_accepted s = [demo_msg [7]] ∧
    q_state s = stateClosing ∧ q_state s ≠ stateStopped.
Proof.
  assert (Hr : ∃ s, rtc (qstep (demo_msg []) (λ _ n, n) zeros) NewQueueBatcher s ∧ q_accepted s = [demo_msg [7]] ∧ q_state s = stateClosing).
  { eexists. split; [|split].
    - eapply rtc_l; [apply (q_check _ _ _ _ _ _ _ _ (demo_msg [7]))|].
      eapply rtc_l; [apply (q_push _ _ _ _ _ [] (demo_msg [7]) []); reflexivity|].
      eapply rtc_l; [apply q_stop|]. apply rtc_refl.
    - reflexivity.
    - reflexivity. }
  destruct Hr as (s & Hr & Ha & Hs). exists s. splits; [exact Hr|exact Ha|exact Hs|].
  exact (proj1 (queue_batcher_in_order (demo_msg []) (λ _ n, n) zeros s len_zeros Hr)).
Defined.
