(* ===== verification/DataBus.v ===== *)
(** * pkg/gnet/pub/manage.go and pkg/gnet/msgq: the message bus

    A [DataBus] keeps one lazily created batcher per destination (a node, any node
    of a service, or every node of it) and publishes full batches on the
    destination's NATS subject. [bus_wire] lists the calls of [Publish] in
    order, [published] what those that succeed put on the wire. *)

From S2P Require Import Prelude Gmsg Batcher.

(** ** Servers and subjects *)

(** [pb.Server]. *)
Definition Server_Gateway : Z := 0.
Definition Server_Account : Z := 1.
Definition Server_Game : Z := 2.
Definition Server_Center : Z := 3.

Definition Server_name : gmap Z string :=
  list_to_map [(0, "Gateway"); (1, "Account"); (2, "Game"); (3, "Center"); (4, "Log");
               (20, "GM"); (21, "Robot"); (22, "Max")].

(** A missing key of a Go map reads as the empty string. *)
Definition SrvName (serType : Z) : string := default EmptyString (Server_name !! i32 serType).

(** [strconv.Itoa]. *)
Definition Itoa (z : Z) : string := pretty z.

Definition nodeSubjectName (serType serID : Z) : string :=
  "msg." +:+ SrvName serType +:+ ".node." +:+ Itoa serID.
Definition anySubjectName (serType : Z) : string := "msg." +:+ SrvName serType +:+ ".any".
Definition broadcastSubjectName (serType : Z) : string :=
  "msg." +:+ SrvName serType +:+ ".broadcast".

(** The rpc subject is cached under [(uint64(serType) << 32) | uint64(serID)]. *)
Definition rpcKey (serType serID : Z) : Z := Z.lor (u64 (Z.shiftl (u64 serType) 32)) (u64 serID).

Definition rpcNodeSubjectName (serType serID : Z) (cache : gmap Z string) : string * gmap Z string :=
  let key := rpcKey serType serID in
  match cache !! key with
  | Some v => (v, cache)
  | None =>
      let str := "rpc." +:+ SrvName serType +:+ ".node." +:+ Itoa serID in
      (str, <[key := str]> cache)
  end.

(** [getSubjects]: subject to queue group. *)
Definition getSubjects (serType serID : Z) (cache : gmap Z string)
    : gmap string string * gmap Z string :=
  let '(rpc, cache) := rpcNodeSubjectName serType serID cache in
  (<[rpc := EmptyString]>
   (<[anySubjectName serType := "msg.group"]>
    (<[nodeSubjectName serType serID := EmptyString]>
     (<[broadcastSubjectName serType := EmptyString]> ∅))), cache).

(** ** The batcher table *)

Definition SvcTypeMax : Z := 64.
Definition SvcIDMax : Z := 64.

(** An index into one of the three tables [node], [any] and [broadcast]. *)
Inductive bkey := KNode (serType serID : Z) | KAny (serType : Z) | KBroadcast (serType : Z).

#[export] Instance bkey_eq_dec : EqDecision bkey.
Proof. solve_decision. Defined.
#[export] Instance bkey_countable : Countable bkey.
Proof.
  apply (inj_countable'
    (λ k, match k with KNode t i => inl (t, i) | KAny t => inr (inl t) | KBroadcast t => inr (inr t) end)
    (λ s, match s with inl (t, i) => KNode t i | inr (inl t) => KAny t | inr (inr t) => KBroadcast t end)).
  by intros [].
Defined.

Record DataBus := mkBus {
  bus_serType : Z; bus_serID : Z; bus_closed : bool;
  bus_pub : gmap bkey Batcher;
  bus_wire : list (bkey * flushTask) }.   (* the batches handed to [Publish], in order *)

Definition subject_of (k : bkey) : string :=
  match k with
  | KNode t i => nodeSubjectName t i
  | KAny t => anySubjectName t
  | KBroadcast t => broadcastSubjectName t
  end.

(** Is the key inside the arrays? A negative service type would index out of
    range: the panic [None]. *)
Definition key_check (k : bkey) : option (result unit) :=
  match k with
  | KNode t i => if decide (t >= SvcTypeMax ∨ i >= SvcIDMax) then Some (Err ErrArg)
                 else if decide (t < 0 ∨ i < 0) then None else Some (Ok ())
  | KAny t | KBroadcast t => if decide (t >= SvcTypeMax) then Some (Err ErrArg)
                 else if decide (t < 0) then None else Some (Ok ())
  end.

(** [Batchers.Node], [Any] and [Broadcast]: load, or create and store. *)
Definition get_batcher (k : bkey) (bs : DataBus) : option (DataBus * result Batcher) :=
  r ← key_check k;
  match r with
  | Err e => Some (bs, Err e)
  | Ok _ =>
      match bus_pub bs !! k with
      | Some tb => Some (bs, Ok tb)
      | None => let tb := NewBatcher in
          Some (mkBus (bus_serType bs) (bus_serID bs) (bus_closed bs)
                  (<[k := tb]> (bus_pub bs)) (bus_wire bs), Ok tb)
      end
  end.

(** [pbt.Add(m)] and the publication of the tasks it took out. *)
Definition add_and_publish (k : bkey) (m : Message) (cap : Z) (stale : Z → bytes) (tb : Batcher)
    (bs : DataBus) : option (DataBus * go_error) :=
  '(tb, ts, err) ← Add m cap cap stale tb;
  Some (mkBus (bus_serType bs) (bus_serID bs) (bus_closed bs) (<[k := tb]> (bus_pub bs))
          (bus_wire bs ++ (pair k <$> ts)), err).

Definition send (k : bkey) (m : Message) (cap : Z) (stale : Z → bytes) (bs : DataBus)
    : option (DataBus * go_error) :=
  if bus_closed bs then Some (bs, Some ErrClosed)
  else
    '(bs, r) ← get_batcher k bs;
    match r with
    | Err e => Some (bs, Some e)
    | Ok tb => add_and_publish k m cap stale tb bs
    end.

(** ** The five sending operations *)

Section Sends.
Context (cap : Z) (stale : Z → bytes).

Definition SendToNode (serType serID msgID : Z) (data : bytes) (actorID sesID : Z) (bs : DataBus) :=
  send (KNode serType serID)
    (mkMessage {| MsgID := msgID; FromSerID := bus_serID bs; FromSer := bus_serType bs;
                  ToSer := u8 serType; ToSerID := serID; ActorID := actorID; SesID := sesID;
                  Flag := 0 |} data EmptyString) cap stale bs.

Definition ForwardToClient (serID msgID : Z) (data : bytes) (actorID sesID : Z) (bs : DataBus) :=
  send (KNode Server_Gateway serID)
    (mkMessage {| MsgID := msgID; FromSerID := bus_serID bs; FromSer := bus_serType bs;
                  ToSer := u8 Server_Gateway; ToSerID := serID; ActorID := actorID; SesID := sesID;
                  Flag := Forward |} data EmptyString) cap stale bs.

Definition SendToAny (serType msgID : Z) (data : bytes) (actorID sesID : Z) (bs : DataBus) :=
  send (KAny serType)
    (mkMessage {| MsgID := msgID; FromSer := bus_serType bs; FromSerID := bus_serID bs;
                  ToSer := u8 serType; ToSerID := 0; ActorID := actorID; SesID := sesID;
                  Flag := 0 |} data EmptyString) cap stale bs.

Definition BroadcastTo (serType msgID : Z) (data : bytes) (actorID sesID : Z) (bs : DataBus) :=
  send (KBroadcast serType)
    (mkMessage {| MsgID := msgID; FromSer := bus_serType bs; FromSerID := bus_serID bs;
                  ToSer := u8 serType; ToSerID := 0; ActorID := actorID; SesID := sesID;
                  Flag := 0 |} data EmptyString) cap stale bs.

Definition RelayTo (serType serID msgID : Z) (data : bytes) (actorID sesID : Z) (bs : DataBus) :=
  send (KAny Server_Center)
    (mkMessage {| MsgID := msgID; FromSer := bus_serType bs; FromSerID := bus_serID bs;
                  ToSer := u8 serType; ToSerID := serID; ActorID := actorID; SesID := sesID;
                  Flag := Forward |} data EmptyString) cap stale bs.

End Sends.

(** ** Closing *)

(** [Batcher.Close] of the batcher at [k], when there is one: the final flush and
    the terminal state. *)
Definition close_batcher (bs : DataBus) (k : bkey) : DataBus :=
  match bus_pub bs !! k with
  | None => bs
  | Some tb =>
      let '(tb, ts) := flush tb in
      mkBus (bus_serType bs) (bus_serID bs) (bus_closed bs)
        (<[k := mkB (b_buf tb) (b_count tb) stateStopped]> (bus_pub bs))
        (bus_wire bs ++ (pair k <$> ts))
  end.

(** The slots of the three arrays in the order [FlushAll] visits them. *)
Definition all_keys : list bkey :=
  (t ← seqZ 0 SvcTypeMax; KNode t <$> seqZ 0 SvcIDMax) ++
  (KAny <$> seqZ 0 SvcTypeMax) ++ (KBroadcast <$> seqZ 0 SvcTypeMax).

Definition FlushAll (bs : DataBus) : DataBus := fold_left close_batcher all_keys bs.

Definition Close (bs : DataBus) : DataBus :=
  if bus_closed bs then bs
  else FlushAll (mkBus (bus_serType bs) (bus_serID bs) true (bus_pub bs) (bus_wire bs)).

(** ** Facts *)

Definition in_table (k : bkey) : Prop := key_check k = Some (Ok ()).

#[export] Instance in_table_dec k : Decision (in_table k).
Proof.
  unfold in_table. destruct (key_check k) as [[[]|e]|]; [left; done|right; congruence|right; congruence].
Defined.

Lemma all_keys_complete k : in_table k → k ∈ all_keys.
Proof.
  unfold in_table, key_check, all_keys, SvcTypeMax, SvcIDMax. rewrite !elem_of_app.
  destruct k as [t i|t|t]; repeat case_decide; try done; intros _.
  - left. apply list_elem_of_bind. exists t. split; [|apply elem_of_seqZ; lia].
    apply list_elem_of_fmap. exists i. split; [done|]. apply elem_of_seqZ. lia.
  - right. left. apply list_elem_of_fmap. exists t. split; [done|]. apply elem_of_seqZ. lia.
  - right. right. apply list_elem_of_fmap. exists t. split; [done|]. apply elem_of_seqZ. lia.
Qed.

(** ** Histories of the bus *)

Inductive busOp :=
| OSendToNode (serType serID msgID : Z) (data : bytes) (actorID sesID : Z)
| OForwardToClient (serID msgID : Z) (data : bytes) (actorID sesID : Z)
| OSendToAny (serType msgID : Z) (data : bytes) (actorID sesID : Z)
| OBroadcastTo (serType msgID : Z) (data : bytes) (actorID sesID : Z)
| ORelayTo (serType serID msgID : Z) (data : bytes) (actorID sesID : Z)
| OTick (k : bkey).              (* the ticker of the batcher at [k] fires *)

(** A ticker flush at [k]. *)
Definition tick_batcher (bs : DataBus) (k : bkey) : DataBus :=
  match bus_pub bs !! k with
  | None => bs
  | Some tb =>
      let '(tb, ts) := flush tb in
      mkBus (bus_serType bs) (bus_serID bs) (bus_closed bs) (<[k := tb]> (bus_pub bs))
        (bus_wire bs ++ (pair k <$> ts))
  end.

Definition busDo (cap : Z) (stale : Z → bytes) (bs : DataBus) (o : busOp)
    : option (DataBus * go_error) :=
  match o with
  | OSendToNode t i m d a s => SendToNode cap stale t i m d a s bs
  | OForwardToClient i m d a s => ForwardToClient cap stale i m d a s bs
  | OSendToAny t m d a s => SendToAny cap stale t m d a s bs
  | OBroadcastTo t m d a s => BroadcastTo cap stale t m d a s bs
  | ORelayTo t i m d a s => RelayTo cap stale t i m d a s bs
  | OTick k => Some (tick_batcher bs k, None)
  end.

(** The table slot an operation addresses and the message it must deliver there,
    sent by node [si] of service [st]: the head carries the sender, the addressee,
    the actor and the session; only forwards carry the [Forward] flag. *)
Definition opTarget (st si : Z) (o : busOp) : option (bkey * Message) :=
  let msg m to toID fl d a s :=
    mkMessage {| MsgID := m; FromSerID := si; FromSer := st; ToSer := u8 to; ToSerID := toID;
                 ActorID := a; SesID := s; Flag := fl |} d EmptyString in
  match o with
  | OSendToNode t i m d a s => Some (KNode t i, msg m t i 0 d a s)
  | OForwardToClient i m d a s => Some (KNode Server_Gateway i, msg m Server_Gateway i Forward d a s)
  | OSendToAny t m d a s => Some (KAny t, msg m t 0 0 d a s)
  | OBroadcastTo t m d a s => Some (KBroadcast t, msg m t 0 0 d a s)
  | ORelayTo t i m d a s => Some (KAny Server_Center, msg m t i Forward d a s)
  | OTick _ => None
  end.

Definition busRun (cap : Z) (stale : Z → bytes) (ops : list busOp) (bs : option DataBus)
    : option DataBus :=
  fold_left (λ bs o, bs ← bs; '(bs, _) ← busDo cap stale bs o; Some bs) ops bs.

(** The messages the operations addressed to slot [k], in order. *)
Definition sentTo (st si : Z) (k : bkey) (ops : list busOp) : list Message :=
  omap (λ o, '(k', m) ← opTarget st si o; if decide (k' = k) then Some m else None) ops.

Definition freshBus (st si : Z) : DataBus := mkBus st si false ∅ [].

(** What a subscriber of [subj] decodes from the published batches. *)
Definition on_key (k : bkey) (w : list (bkey * flushTask)) : list flushTask :=
  snd <$> filter (λ p, p.1 = k) w.
Definition on_subject (subj : string) (w : list (bkey * flushTask)) : list flushTask :=
  snd <$> filter (λ p, subject_of p.1 = subj) w.

(** The callback of [NewPubBatcher]: the error of [Publish] is logged and its batch is
    lost. [ok n]: whether the [n]-th call of [Publish] succeeds. *)
Definition published (ok : nat → bool) (w : list (bkey * flushTask)) : list (bkey * flushTask) :=
  omap id (imap (λ n e, if ok n then Some e else None) w).

(** Which calls of [Publish] are for a slot. *)
Fixpoint calls_of (k : bkey) (n : nat) (w : list (bkey * flushTask)) : list nat :=
  match w with
  | [] => []
  | e :: w => if decide (e.1 = k) then n :: calls_of k (S n) w else calls_of k (S n) w
  end.

(** ** The bus invariant *)

(** The batcher of a slot holds [ms] and is in state [st]. *)
Definition slot_holds (o : option Batcher) (st : batcherState) (ms : list Message) : Prop :=
  match o with None => ms = [] | Some tb => holds tb ms ∧ b_state tb = st end.

Definition slot_ok (k : bkey) (bs : DataBus) (st : batcherState) (sent : list Message) : Prop :=
  ∃ mss rest, Forall2 task_for (on_key k (bus_wire bs)) mss ∧
    slot_holds (bus_pub bs !! k) st rest ∧ mjoin mss ++ rest = sent.

Definition bus_inv (st si : Z) (bs : DataBus) (sent : bkey → list Message) : Prop :=
  bus_serType bs = st ∧ bus_serID bs = si ∧ bus_closed bs = false ∧
  (∀ k, is_Some (bus_pub bs !! k) → in_table k) ∧ (∀ e, e ∈ bus_wire bs → in_table e.1) ∧
  ∀ k, in_table k → slot_ok k bs stateRunning (sent k).

Lemma on_key_app k w w' : on_key k (w ++ w') = on_key k w ++ on_key k w'.
Proof. unfold on_key. by rewrite filter_app, fmap_app. Qed.
Lemma on_key_same k (ts : list flushTask) : on_key k (pair k <$> ts) = ts.
Proof. 
  unfold on_key. induction ts as [|t ts IH]; [done|].
  rewrite fmap_cons, filter_cons_True, fmap_cons by done. by rewrite IH.
Qed.
Lemma on_key_other k k' (ts : list flushTask) : k ≠ k' → on_key k (pair k' <$> ts) = [].
Proof. 
  intros. unfold on_key. induction ts as [|t ts IH]; [done|].
  rewrite fmap_cons, filter_cons_False by done. done.
Qed.

(** An update of slot [k] that publishes [ts] keeps the other slots. *)
Lemma slot_frame k k' bs tb ts cl st sent :
  k ≠ k' → slot_ok k bs st sent →
  slot_ok k (mkBus (bus_serType bs) (bus_serID bs) cl (<[k' := tb]> (bus_pub bs))
               (bus_wire bs ++ (pair k' <$> ts))) st sent.
Proof.
  intros Hk (mss & rest & H1 & H2 & H3). exists mss, rest. cbn [bus_wire bus_pub].
  rewrite on_key_app, on_key_other, app_nil_r, lookup_insert_ne by done. done.
Qed.

Lemma slot_update k bs tb ts cl st mss0 mss rest sent :
  Forall2 task_for (on_key k (bus_wire bs)) mss0 → Forall2 task_for ts mss →
  holds tb rest → b_state tb = st → mjoin mss0 ++ mjoin mss ++ rest = sent →
  slot_ok k (mkBus (bus_serType bs) (bus_serID bs) cl (<[k := tb]> (bus_pub bs))
               (bus_wire bs ++ (pair k <$> ts))) st sent.
Proof.
  intros H0 Ht Hh Hs E. exists (mss0 ++ mss), rest. cbn [bus_wire bus_pub].
  rewrite on_key_app, on_key_same, lookup_insert_eq, join_app, <- app_assoc.
  splits; [by apply Forall2_app|done..].
Qed.

Section Run.
Context (cap : Z) (stale : Z → bytes).
Context (Hcap : buffSize ≤ cap) (Hstale : ∀ n, 0 ≤ n → len (stale n) = n).

(** Publishing through a slot of the table appends the message to the slot. *)
Lemma add_publish_inv st si bs sent k m tb :
  in_table k → bus_inv st si bs sent → default NewBatcher (bus_pub bs !! k) = tb →
  ∃ bs', add_and_publish k m cap stale tb bs = Some (bs', None) ∧
    bus_inv st si bs' (λ k', if decide (k = k') then sent k' ++ [m] else sent k').
Proof.
  intros Hk (Ht & Hi & Hc & Hp & Hw & Hs) Etb. destruct (Hs k Hk) as (mss & rest & H1 & H2 & H3).
  assert (holds tb rest ∧ b_state tb = stateRunning) as [Hh Hr].
  { subst tb. unfold slot_holds in H2. destruct (bus_pub bs !! k); cbn; [done|by subst]. }
  destruct (Add_spec m cap cap stale tb rest) as (tb' & ts & mss' & ms' & E & Hh' & Hr' & Ht' & Ej & _);
    [done..|].
  unfold add_and_publish. rewrite E. cbn [mbind option_bind]. eexists. split; [done|].
  unfold bus_inv. cbn [bus_serType bus_serID bus_closed]. splits; [done|done|done|..].
  - cbn. intros k' Hk'. destruct (decide (k = k')) as [->|Hn]; [done|].
    rewrite lookup_insert_ne in Hk' by done. auto.
  - cbn. intros e [He|He]%elem_of_app; [auto|]. apply list_elem_of_fmap in He as (t & -> & _). done.
  - intros k' Hk'. case_decide as Hd; [subst k'|by apply slot_frame; auto].
    eapply slot_update; [done..|]. rewrite Ej, app_assoc, H3. done.
Qed.

Lemma send_inv st si bs sent k m :
  bus_inv st si bs sent →
  (in_table k → ∃ bs', send k m cap stale bs = Some (bs', None) ∧
     bus_inv st si bs' (λ k', if decide (k = k') then sent k' ++ [m] else sent k')) ∧
  (key_check k = Some (Err ErrArg) → send k m cap stale bs = Some (bs, Some ErrArg)).
Proof.
  intros Hinv. pose proof Hinv as (Ht & Hi & Hc & Hp & Hw & Hs). unfold send. rewrite Hc.
  split; intros Hk.
  - unfold get_batcher. unfold in_table in Hk. rewrite Hk. cbn [mbind option_bind].
    destruct (bus_pub bs !! k) as [tb|] eqn:E; cbn [mbind option_bind].
    + apply add_publish_inv; [done..|by rewrite E].
    + apply add_publish_inv; [done| |by cbn; rewrite lookup_insert_eq].
      unfold bus_inv. cbn [bus_serType bus_serID bus_closed]. splits; [done|done|done|..].
      * cbn. intros k' Hk'. destruct (decide (k = k')) as [->|Hn]; [done|].
        rewrite lookup_insert_ne in Hk' by done. auto.
      * done.
      * intros k' Hk'. destruct (Hs k' Hk') as (mss & rest & H1 & H2 & H3). exists mss, rest.
        cbn [bus_wire bus_pub]. destruct (decide (k = k')) as [->|Hn].
        -- rewrite lookup_insert_eq. rewrite E in H2. cbn in H2. subst rest. done.
        -- by rewrite lookup_insert_ne.
  - unfold get_batcher. rewrite Hk. done.
Qed.

Lemma tick_inv st si bs sent k : bus_inv st si bs sent → bus_inv st si (tick_batcher bs k) sent.
Proof.
  intros (Ht & Hi & Hc & Hp & Hw & Hs). unfold tick_batcher.
  destruct (bus_pub bs !! k) as [tb|] eqn:E; [|done].
  assert (Hk : in_table k) by (apply Hp; by rewrite E).
  destruct (Hs k Hk) as (mss & rest & H1 & H2 & H3). rewrite E in H2. destruct H2 as [Hh Hr].
  destruct (flush_spec tb rest Hh) as (mss' & Ht' & Ej & Hh' & Hr').
  destruct (flush tb) as [tb' ts]. cbn [fst snd] in *.
  unfold bus_inv. cbn [bus_serType bus_serID bus_closed]. splits; [done|done|done|..].
  - cbn. intros k' Hk'. destruct (decide (k = k')) as [->|Hn]; [done|].
    rewrite lookup_insert_ne in Hk' by done. auto.
  - cbn. intros e [He|He]%elem_of_app; [auto|]. apply list_elem_of_fmap in He as (t & -> & _). done.
  - intros k' Hk'. destruct (decide (k = k')) as [<-|Hn]; [|by apply slot_frame; auto].
    eapply slot_update; [done|done|done|congruence|]. by rewrite app_nil_r, Ej.
Qed.

End Run.

(** The table index of an operation is not negative. A [uint8] id never is; a
    negative service type would panic. *)
Definition opOk (o : busOp) : Prop :=
  match o with
  | OSendToNode t i _ _ _ _ => 0 ≤ t ∧ 0 ≤ i
  | OForwardToClient i _ _ _ _ => 0 ≤ i
  | OSendToAny t _ _ _ _ | OBroadcastTo t _ _ _ _ => 0 ≤ t
  | _ => True
  end.

Lemma opOk_key st si o k m :
  opOk o → opTarget st si o = Some (k, m) → in_table k ∨ key_check k = Some (Err ErrArg).
Proof.
  unfold opTarget, in_table, key_check, SvcTypeMax, SvcIDMax.
  intros Ho E. destruct o; cbn in Ho, E; simplify_eq; repeat case_decide; auto;
    unfold Server_Gateway, Server_Center in *; lia.
Qed.

Lemma busDo_send cap stale bs o k m :
  opTarget (bus_serType bs) (bus_serID bs) o = Some (k, m) →
  busDo cap stale bs o = send k m cap stale bs.
Proof. intros E. by destruct o; cbn in E; simplify_eq. Qed.

Lemma sentTo_snoc st si k ops o :
  sentTo st si k (ops ++ [o]) =
  sentTo st si k ops ++ match opTarget st si o with
                        | Some (k', m) => if decide (k' = k) then [m] else []
                        | None => [] end.
Proof.
  unfold sentTo. rewrite omap_app. f_equal. cbn. destruct (opTarget st si o) as [[k' m]|]; cbn; [|done].
  by case_decide.
Qed.

Lemma bus_inv_ext st si bs f g :
  (∀ k, in_table k → f k = g k) → bus_inv st si bs f → bus_inv st si bs g.
Proof.
  intros Hfg (? & ? & ? & ? & ? & Hs). unfold bus_inv. splits; [done..|].
  intros k Hk. rewrite <- Hfg by done. auto.
Qed.

Lemma busRun_inv cap stale st si ops :
  buffSize ≤ cap → (∀ n, 0 ≤ n → len (stale n) = n) → Forall opOk ops →
  ∃ bs, busRun cap stale ops (Some (freshBus st si)) = Some bs ∧
        bus_inv st si bs (λ k, sentTo st si k ops).
Proof.
  intros Hc Hst. induction ops as [|o ops IH] using rev_ind; intros Hok.
  { eexists. split; [done|]. unfold bus_inv, freshBus. cbn. splits; try done.
    - intros k [? H]. by rewrite lookup_empty in H.
    - intros e He. by apply elem_of_nil in He.
    - intros k _. exists [], []. by splits. }
  apply Forall_app in Hok as [Hok Ho]. inversion Ho as [|? ? Ho' _]; subst. clear Ho.
  destruct (IH Hok) as (bs & E & Hinv). unfold busRun in *. rewrite fold_left_app, E. cbn [fold_left mbind option_bind].
  pose proof Hinv as (Ht & Hi & _).
  destruct (opTarget st si o) as [[k m]|] eqn:Eo.
  - rewrite (busDo_send cap stale bs o k m) by (by rewrite Ht, Hi).
    destruct (send_inv cap stale Hc Hst st si bs _ k m Hinv) as [Hin Herr].
    destruct (opOk_key st si o k m Ho' Eo) as [Hk|Hk].
    + destruct (Hin Hk) as (bs' & -> & Hinv'). eexists. split; [done|].
      eapply bus_inv_ext; [|exact Hinv']. intros k' _. cbn beta. rewrite sentTo_snoc, Eo.
      case_decide; [done|by rewrite app_nil_r].
    + rewrite (Herr Hk). eexists. split; [done|]. eapply bus_inv_ext; [|exact Hinv].
      intros k' Hk'. cbn beta. rewrite sentTo_snoc, Eo, decide_False by (intros ->; unfold in_table in *; congruence).
      by rewrite app_nil_r.
  - destruct o; try done. cbn [busDo mbind option_bind]. eexists. split; [done|].
    eapply bus_inv_ext; [|by apply tick_inv]. intros k' _. cbn beta. by rewrite sentTo_snoc, Eo, app_nil_r.
Qed.

(** ** Closing the bus *)

(** Slot [k] is flushed and its batcher, if any, stopped. *)
Definition slot_closed (k : bkey) (bs : DataBus) (sent : list Message) : Prop :=
  (∃ mss, Forall2 task_for (on_key k (bus_wire bs)) mss ∧ mjoin mss = sent) ∧
  slot_holds (bus_pub bs !! k) stateStopped [].

Lemma slot_closed_ok k bs sent : slot_closed k bs sent → slot_ok k bs stateStopped sent.
Proof. intros [(mss & H1 & H2) H3]. exists mss, []. by rewrite app_nil_r. Qed.

Lemma close_batcher_closes k bs st sent : slot_ok k bs st sent → slot_closed k (close_batcher bs k) sent.
Proof.
  intros (mss & rest & H1 & H2 & H3). unfold close_batcher. destruct (bus_pub bs !! k) as [tb|] eqn:E.
  - destruct H2 as [Hh Hr]. destruct (flush_spec tb rest Hh) as (mss' & Ht & Ej & Hh' & _).
    destruct (flush tb) as [tb' ts]. cbn [fst snd] in *. unfold slot_closed.
    cbn [bus_wire bus_pub]. rewrite on_key_app, on_key_same, lookup_insert_eq. split; [|done].
    exists (mss ++ mss'). split; [by apply Forall2_app|]. by rewrite join_app, Ej.
  - cbn in H2. subst rest. unfold slot_closed. rewrite E, app_nil_r in *. split; [|done]. by exists mss.
Qed.

Lemma close_batcher_frame k k' bs st sent :
  k ≠ k' → slot_ok k bs st sent → slot_ok k (close_batcher bs k') st sent.
Proof.
  intros Hk Hs. unfold close_batcher. destruct (bus_pub bs !! k'); [|done].
  destruct (flush _) as [tb' ts]. by apply slot_frame.
Qed.

Lemma close_batcher_keeps k k' bs sent :
  slot_closed k bs sent → slot_closed k (close_batcher bs k') sent.
Proof.
  intros Hs. destruct (decide (k = k')) as [<-|Hk].
  - eapply close_batcher_closes, slot_closed_ok, Hs.
  - destruct Hs as [(mss & H1 & H2) H3]. unfold close_batcher.
    destruct (bus_pub bs !! k') as [tb|]; [destruct (flush tb) as [tb' ts]|]; [|split; [by exists mss|done]].
    unfold slot_closed. cbn [bus_wire bus_pub].
    rewrite on_key_app, on_key_other, app_nil_r, lookup_insert_ne by done.
    split; [by exists mss|done].
Qed.

Lemma FlushAll_closes keys k bs st sent :
  k ∈ keys → slot_ok k bs st sent → slot_closed k (fold_left close_batcher keys bs) sent.
Proof.
  intros Hk. revert bs. induction Hk as [k keys|k k' keys Hk IH]; intros bs Hs; cbn.
  - apply fold_left_inv; [by eapply close_batcher_closes|]. intros. by apply close_batcher_keeps.
  - destruct (decide (k = k')) as [<-|Hn]; [|apply IH; by apply close_batcher_frame].
    apply fold_left_inv; [by eapply close_batcher_closes|]. intros. by apply close_batcher_keeps.
Qed.

Lemma close_batcher_other bs k :
  bus_closed (close_batcher bs k) = bus_closed bs ∧
  ((∀ e, e ∈ bus_wire bs → in_table e.1) → (∀ k, is_Some (bus_pub bs !! k) → in_table k) →
   (∀ e, e ∈ bus_wire (close_batcher bs k) → in_table e.1) ∧
   (∀ k', is_Some (bus_pub (close_batcher bs k) !! k') → in_table k')).
Proof.
  unfold close_batcher. destruct (bus_pub bs !! k) as [tb|] eqn:E; [|done].
  destruct (flush tb) as [tb' ts]. cbn. split; [done|]. intros Hw Hp. split.
  - intros e [He|He]%elem_of_app; [auto|]. apply list_elem_of_fmap in He as (t & -> & _). cbn. apply Hp. by rewrite E.
  - intros k' Hk'. destruct (decide (k = k')) as [->|Hn]; [apply Hp; by rewrite E|].
    rewrite lookup_insert_ne in Hk' by done. auto.
Qed.

Lemma Close_closed bs : bus_closed (Close bs) = true.
Proof.
  unfold Close, FlushAll. destruct (bus_closed bs) eqn:E; [done|].
  apply (fold_left_inv (λ bs, bus_closed bs = true)); [done|]. intros a b <-. apply close_batcher_other.
Qed.

Lemma Close_spec st si bs sent :
  bus_inv st si bs sent →
  bus_closed (Close bs) = true ∧ (∀ e, e ∈ bus_wire (Close bs) → in_table e.1) ∧
  ∀ k, in_table k → slot_closed k (Close bs) (sent k).
Proof.
  intros (Ht & Hi & Hc & Hp & Hw & Hs). split; [apply Close_closed|]. unfold Close, FlushAll. rewrite Hc. splits.
  - apply (fold_left_inv (λ bs, (∀ e, e ∈ bus_wire bs → in_table e.1) ∧
      (∀ k, is_Some (bus_pub bs !! k) → in_table k))); [done|].
    intros a b [H1 H2]. by apply close_batcher_other.
  - intros k Hk. eapply FlushAll_closes; [by apply all_keys_complete|]. apply Hs, Hk.
Qed.

(** ** Subjects *)

(** A service type [pb.Server] names. *)
Definition known (t : Z) : Prop := is_Some (Server_name !! t).
Definition known_key (k : bkey) : Prop :=
  match k with KNode t _ | KAny t | KBroadcast t => known t end.

Lemma known_cases t : known t → t ∈ [0; 1; 2; 3; 4; 20; 21; 22].
Proof.
  intros [n H]. unfold Server_name in H. apply elem_of_list_to_map_2 in H.
  rewrite !elem_of_cons, elem_of_nil in H. rewrite !elem_of_cons.
  repeat destruct H as [H|H]; simplify_eq; lia.
Qed.

Lemma SrvName_cases t :
  0 ≤ t < SvcTypeMax → t ∈ [0; 1; 2; 3; 4; 20; 21; 22] ∨ SrvName t = EmptyString.
Proof.
  unfold SvcTypeMax. intros Ht. destruct (decide (known t)) as [Hk|Hk]; [left; by apply known_cases|right].
  unfold SrvName. rewrite i32_id by width. unfold known in Hk.
  destruct (Server_name !! t); [by destruct Hk|done].
Qed.

Definition key_type (k : bkey) : Z := match k with KNode t _ | KAny t | KBroadcast t => t end.

Lemma in_table_type k : in_table k → 0 ≤ key_type k < SvcTypeMax.
Proof. unfold in_table, key_check. destruct k; cbn; repeat case_decide; try done; lia. Qed.

Lemma Itoa_inj i j : Itoa i = Itoa j → i = j.
Proof. apply pretty_Z_inj. Qed.

(** The subject of a slot, by the service's name. *)
Definition subject_with (name : string) (k : bkey) : string :=
  match k with
  | KNode _ i => "msg." +:+ name +:+ ".node." +:+ Itoa i
  | KAny _ => "msg." +:+ name +:+ ".any"
  | KBroadcast _ => "msg." +:+ name +:+ ".broadcast"
  end.

Lemma subject_of_with k : subject_of k = subject_with (SrvName (key_type k)) k.
Proof. by destruct k. Qed.

Definition same_shape (k k' : bkey) : Prop :=
  match k, k' with
  | KNode _ i, KNode _ j => i = j | KAny _, KAny _ | KBroadcast _, KBroadcast _ => True | _, _ => False
  end.

Lemma subject_with_inj n n' k k' :
  n ∈ ["Gateway"; "Account"; "Game"; "Center"; "Log"; "GM"; "Robot"; "Max"] →
  n' ∈ ["Gateway"; "Account"; "Game"; "Center"; "Log"; "GM"; "Robot"; "Max"; EmptyString] →
  subject_with n k = subject_with n' k' → n = n' ∧ same_shape k k'.
Proof.
  rewrite !elem_of_cons, !elem_of_nil. intros Hn Hn'.
  destruct_or! Hn; destruct_or! Hn'; try done; subst; destruct k, k'; cbn; intros E;
    try discriminate E; (split; [done|]); try done; injection E as E; by apply Itoa_inj.
Qed.

Lemma SrvName_known t :
  t ∈ [0; 1; 2; 3; 4; 20; 21; 22] →
  SrvName t ∈ ["Gateway"; "Account"; "Game"; "Center"; "Log"; "GM"; "Robot"; "Max"].
Proof.
  rewrite !elem_of_cons, elem_of_nil. intros H. repeat destruct H as [H|H]; try done; subst;
    dec.
Qed.

(** [pb.Server_value], as a left inverse of the names. *)
Definition Server_value (n : string) : Z :=
  default (-1) (head (omap (λ t, if String.eqb (SrvName t) n then Some t else None)
                           [0; 1; 2; 3; 4; 20; 21; 22])).

Lemma Server_value_name t : t ∈ [0; 1; 2; 3; 4; 20; 21; 22] → Server_value (SrvName t) = t.
Proof.
  rewrite !elem_of_cons, elem_of_nil. intros H.
  repeat destruct H as [H|H]; try contradiction; subst; vm_compute; reflexivity.
Qed.

Lemma SrvName_inj t t' :
  t ∈ [0; 1; 2; 3; 4; 20; 21; 22] → t' ∈ [0; 1; 2; 3; 4; 20; 21; 22] → SrvName t = SrvName t' → t = t'.
Proof. intros Ht Ht' E. by rewrite <- (Server_value_name t), E, Server_value_name. Qed.

(** A subject of a named service belongs to one slot only. *)
Lemma subject_of_inj k k' :
  in_table k → in_table k' → known_key k → subject_of k = subject_of k' → k = k'.
Proof.
  intros Hk Hk' Hn. rewrite !subject_of_with.
  assert (Ht : key_type k ∈ [0; 1; 2; 3; 4; 20; 21; 22]) by (apply known_cases; by destruct k).
  intros E. apply subject_with_inj in E as [E Hs]; [|by apply SrvName_known|].
  - destruct (SrvName_cases (key_type k')) as [Ht'|Ht']; [by apply in_table_type| |].
    + pose proof (SrvName_inj _ _ Ht Ht' E). destruct k, k'; cbn in *; naive_solver.
    + rewrite Ht' in E. apply SrvName_known in Ht. rewrite E in Ht. rewrite !elem_of_cons, elem_of_nil in Ht. intuition congruence.
  - destruct (SrvName_cases (key_type k')) as [Ht'| ->]; [by apply in_table_type| |rewrite !elem_of_cons; tauto].
    apply SrvName_known in Ht'. rewrite !elem_of_cons, elem_of_nil in *. tauto.
Qed.

Lemma on_subject_key k w :
  in_table k → known_key k → (∀ e, e ∈ w → in_table e.1) → on_subject (subject_of k) w = on_key k w.
Proof.
  intros Hk Hn Hw. unfold on_subject, on_key. f_equal. apply filter_ext_in.
  intros e He. split; [|by intros <-].
  intros E. symmetry. apply subject_of_inj; [done|by apply Hw|done|done].
Qed.

Lemma tasks_received reply ts mss :
  Forall2 task_for ts mss → Forall msg_wf (mjoin mss) →
  ∃ l, mapM (received reply) ts = Some l ∧ mjoin l = (λ m, SetReply m reply) <$> mjoin mss.
Proof.
  induction 1 as [|t ms ts mss Ht Hts IH]; intros Hw; [by exists []|].
  change (mjoin (ms :: mss)) with (ms ++ mjoin mss) in *.
  apply Forall_app in Hw as [Hw1 Hw2]. destruct (IH Hw2) as (l & E1 & E2).
  exists (((λ m, SetReply m reply) <$> ms) :: l). rewrite fmap_app, <- E2. split; [|done].
  cbn. by rewrite (task_received reply t ms), E1.
Qed.

Lemma published_sub ok w e : e ∈ published ok w → e ∈ w.
Proof.
  unfold published. rewrite list_elem_of_omap. intros (o & Ho & E). apply elem_of_lookup_imap in Ho as (i & x & -> & Hx).
  destruct (ok i); cbn in E; simplify_eq. by eapply list_elem_of_lookup_2.
Qed.

Lemma published_all w : published (λ _, true) w = w.
Proof.
  unfold published. assert (H : ∀ w : list (bkey * flushTask), imap (λ _ e, Some e) w = Some <$> w).
  { induction w0 as [|e w0 IH]; [done|]. cbn. by f_equal. }
  rewrite H. clear H. induction w as [|e w IH]; [done|]. cbn. by rewrite IH.
Qed.

(** Of a slot's batches a subscriber sees those whose call succeeded. *)
Lemma on_key_published k ok w (mss : list (list Message)) :
  Forall2 task_for (on_key k w) mss →
  length (calls_of k 0 w) = length mss ∧
  ∃ ts, on_key k (published ok w) = ts ∧ Forall2 task_for ts (filter (λ c, ok c.1 = true) (zip (calls_of k 0 w) mss)).*2.
Proof.
  unfold published. rewrite (imap_ext _ (λ n e, if ok (0 + n)%nat then Some e else None)) by done.
  generalize 0%nat as n. intros n. revert n mss. induction w as [|[k' t] w IH]; intros n mss Hm.
  { inversion Hm; subst. split; [done|]. eexists. split; [done|constructor]. }
  assert (Hi : imap (λ i e, if ok (n + i)%nat then Some e else None) ((k', t) :: w) =
    (if ok n then Some (k', t) else None) :: imap (λ i e, if ok (S n + i)%nat then Some e else None) w).
  { cbn [imap]. rewrite Nat.add_0_r. f_equal. apply imap_ext. intros. cbn. by rewrite Nat.add_succ_r. }
  rewrite Hi. cbn [calls_of fst]. change ((k', t) :: w) with ([(k', t)] ++ w) in Hm. rewrite on_key_app in Hm.
  destruct (decide (k' = k)) as [->|Hne].
  - change [(k, t)] with (pair k <$> [t]) in Hm. rewrite on_key_same in Hm. cbn [app] in Hm.
    apply Forall2_cons_inv_l in Hm as (ms & mss' & Ht & Hm & ->). destruct (IH (S n) mss' Hm) as (Hl & ts & E & Hts).
    split; [cbn; by rewrite Hl|]. cbn [zip zip_with]. destruct (ok n) eqn:Eo; cbn [omap list_omap id].
    + rewrite filter_cons_True by done. change ((k, t) :: ?x) with ([(k, t)] ++ x). rewrite on_key_app.
      change [(k, t)] with (pair k <$> [t]). rewrite on_key_same. rewrite E. eexists. split; [done|]. by constructor.
    + rewrite filter_cons_False by (cbn; congruence). eauto.
  - change [(k', t)] with (pair k' <$> [t]) in Hm. rewrite on_key_other in Hm by done. cbn [app] in Hm.
    destruct (IH (S n) mss Hm) as (Hl & ts & E & Hts). split; [done|]. exists ts. split; [|done].
    rewrite <- E. destruct (ok n); cbn [omap list_omap id]; [|done].
    change ((k', t) :: ?x) with ((pair k' <$> [t]) ++ x). rewrite on_key_app, on_key_other by done. done.
Qed.

(** What a subscriber of a slot's subject has received when the batches [mss] were handed to
    [Publish], whichever of the calls succeed. *)
Definition delivered (k : bkey) (reply : string) (w : list (bkey * flushTask)) (mss : list (list Message)) : Prop :=
  length (calls_of k 0 w) = length mss ∧
  ∀ ok, mjoin <$> mapM (received reply) (on_subject (subject_of k) (published ok w)) =
    Some ((λ m, SetReply m reply) <$> mjoin (filter (λ c, ok c.1 = true) (zip (calls_of k 0 w) mss)).*2).

Lemma zip_filter_sub {A B} (P : A * B → Prop) `{!∀ x, Decision (P x)} (l : list A) (k : list B) y :
  y ∈ (filter P (zip l k)).*2 → y ∈ k.
Proof.
  intros (x & -> & [_ Hx]%list_elem_of_filter)%list_elem_of_fmap. destruct x as [a b]. by apply elem_of_zip_r in Hx.
Qed.

Lemma delivered_intro k reply w mss :
  in_table k → known_key k → (∀ e, e ∈ w → in_table e.1) → Forall2 task_for (on_key k w) mss →
  Forall msg_wf (mjoin mss) → delivered k reply w mss.
Proof.
  intros Hk Hn Hw Hm Hwf. split; [by apply (on_key_published k (λ _, true) w mss Hm)|]. intros ok.
  rewrite on_subject_key by (try done; intros e He%published_sub; auto).
  destruct (on_key_published k ok w mss Hm) as (_ & ts & -> & Hts).
  destruct (tasks_received reply ts _ Hts) as (l & -> & El).
  - apply Forall_forall. intros m (ms & Hm1 & Hm2)%list_elem_of_join. apply zip_filter_sub in Hm2.
    apply (proj1 (Forall_forall _ _) Hwf). apply list_elem_of_join. eauto.
  - cbn. by rewrite El.
Qed.

Lemma delivered_all k reply w mss : delivered k reply w mss →
  mjoin <$> mapM (received reply) (on_subject (subject_of k) w) = Some ((λ m, SetReply m reply) <$> mjoin mss).
Proof.
  intros [Hl H]. specialize (H (λ _, true)). rewrite published_all in H. rewrite H. do 3 f_equal.
  assert (Hf : ∀ l : list (nat * list Message), filter (λ c, true = true) l = l).
  { induction l as [|x l IH]; [done|]. rewrite filter_cons_True by done. by rewrite IH. }
  rewrite Hf. apply snd_zip. lia.
Qed.

(** ** Properties *)

(** C8. The bus delivers what was sent: run any sequence of the five sending operations and
    of ticker flushes on a fresh bus, with service types and node ids that are not negative
    (a negative one panics in the code), and close it; no operation panics. The messages
    sent to a slot of a named service (one node, any node, or all nodes; fields within their
    widths) have then been handed to [Publish] in batches, each message once and in order.
    Whichever of these calls fail (a failure is logged and its batch is lost), a subscriber
    of the slot's subject has decoded exactly the messages of the batches that were
    published, in order, each with the sender's identity, the addressee, the actor, the
    session and the flag the operation prescribes: all of them if no call failed. After
    [Close] every send is refused with [ErrClosed] and changes nothing. *)
Theorem bus_delivers cap stale st si ops k reply :
  buffSize ≤ cap → (∀ n, 0 ≤ n → len (stale n) = n) → Forall opOk ops →
  in_table k → known_key k → Forall msg_wf (sentTo st si k ops) →
  ∃ bs mss, busRun cap stale ops (Some (freshBus st si)) = Some bs ∧
    mjoin mss = sentTo st si k ops ∧
    (∀ ok, mjoin <$> mapM (received reply) (on_subject (subject_of k) (published ok (bus_wire (Close bs)))) =
       Some ((λ m, SetReply m reply) <$>
               mjoin (filter (λ c, ok c.1 = true) (zip (calls_of k 0 (bus_wire (Close bs))) mss)).*2)) ∧
    mjoin <$> mapM (received reply) (on_subject (subject_of k) (published (λ _, true) (bus_wire (Close bs)))) =
      Some ((λ m, SetReply m reply) <$> sentTo st si k ops) ∧
    ∀ o km, opTarget st si o = Some km → busDo cap stale (Close bs) o = Some (Close bs, Some ErrClosed).
Proof.
  intros Hc Hst Hok Hk Hn Hw. destruct (busRun_inv cap stale st si ops) as (bs & E & Hinv); [done..|].
  destruct (Close_spec st si bs _ Hinv) as (Hcl & Ht & Hs). destruct (Hs k Hk) as [(mss & H1 & H2) _].
  assert (Hd : delivered k reply (bus_wire (Close bs)) mss) by (apply delivered_intro; [done..|by rewrite H2]).
  exists bs, mss. splits; [done|done|apply Hd| |].
  - by rewrite published_all, (delivered_all _ _ _ _ Hd), H2.
  - intros o km Eo. destruct o; try done; cbn;
      unfold SendToNode, ForwardToClient, SendToAny, BroadcastTo, RelayTo, send; by rewrite Hcl.
Qed.

Lemma bus_delivers_witness :
  ∃ bs, busRun buffSize zeros [OSendToNode 2 1 7 [1] 9 8; ORelayTo 2 3 5 [4] 0 0; OTick (KNode 2 1);
            OForwardToClient 6 5 [2] 0 0; OSendToNode 2 1 8 [] 9 8] (Some (freshBus 3 2)) = Some bs ∧
    mjoin <$> mapM (received "r") (on_subject "msg.Game.node.1" (published (λ _, true) (bus_wire (Close bs)))) =
      Some ((λ m, SetReply m "r") <$> sentTo 3 2 (KNode 2 1)
              [OSendToNode 2 1 7 [1] 9 8; OSendToNode 2 1 8 [] 9 8]).
Proof.
  destruct (bus_delivers buffSize zeros 3 2 [OSendToNode 2 1 7 [1] 9 8; ORelayTo 2 3 5 [4] 0 0; OTick (KNode 2 1);
            OForwardToClient 6 5 [2] 0 0; OSendToNode 2 1 8 [] 9 8] (KNode 2 1) "r") as (bs & mss & E & _ & _ & H & _).
  - done.
  - exact len_zeros.
  - repeat constructor; cbn; lia.
  - done.
  - by eexists.
  - repeat constructor; vm_compute; congruence.
  - exists bs. split; [exact E|exact H].
Defined.

(** A slot outside the 64x64, 64 and 64 tables is refused with [ErrArg] by every
    sending operation, on any open bus, without touching the bus. *)
Theorem bus_out_of_range cap stale bs o k m :
  bus_closed bs = false → opOk o → opTarget (bus_serType bs) (bus_serID bs) o = Some (k, m) →
  ¬ in_table k → busDo cap stale bs o = Some (bs, Some ErrArg).
Proof.
  intros Hc Ho E Hk. rewrite (busDo_send _ _ _ _ _ _ E). unfold send, get_batcher. rewrite Hc.
  destruct (opOk_key _ _ _ _ _ Ho E) as [?| ->]; done.
Qed.

Lemma bus_out_of_range_witness :
  busDo buffSize zeros (freshBus 3 2) (OSendToNode 2 64 7 [1] 9 8) = Some (freshBus 3 2, Some ErrArg).
Proof.
  refine (bus_out_of_range buffSize zeros (freshBus 3 2) (OSendToNode 2 64 7 [1] 9 8) _ _ eq_refl _ eq_refl _).
  - cbn; lia.
  - by intros H; vm_compute in H.
Defined.

(** *** The rpc subject cache *)

Lemma rpcKey_inj t i t' i' :
  is_i32 t → is_u8 i → is_i32 t' → is_u8 i' → rpcKey t i = rpcKey t' i' → t = t' ∧ i = i'.
Proof.
  intros Ht Hi Ht' Hi'. assert (Hk : ∀ t i, is_u8 i → rpcKey t i = u32 t * 2 ^ 32 + i).
  { clear. intros t i Hi. unfold rpcKey. rewrite (u64_id i) by (unfold is_u8, is_u64 in *; lia).
    assert (E : u64 (Z.shiftl (u64 t) 32) = Z.shiftl (u32 t) 32).
    { rewrite !Z.shiftl_mul_pow2 by lia. unfold u64, u32. change (2 ^ 64) with (2 ^ 32 * 2 ^ 32).
      rewrite Zmult_mod_distr_r, Z.mod_mod_divide; [done|by exists (2 ^ 32)]. }
    rewrite E. apply lor_shiftl; unfold is_u8 in *; lia. }
  rewrite !Hk by done. intros E.
  pose proof (u32_range t). pose proof (u32_range t').
  assert (u32 t = u32 t' ∧ i = i') as [Em ->] by (unfold is_u8, is_u32 in *; lia).
  split; [|done]. clear -Ht Ht' Em. width. Z.div_mod_to_equations. lia.
Qed.

Definition rpcSubject (p : Z * Z) : string := "rpc." +:+ SrvName p.1 +:+ ".node." +:+ Itoa p.2.

(** The cache after a history of calls. *)
Definition rpcHistory (l : list (Z * Z)) : gmap Z string :=
  fold_left (λ c p, (rpcNodeSubjectName p.1 p.2 c).2) l ∅.

Definition cache_ok (c : gmap Z string) : Prop :=
  ∀ p, is_i32 p.1 → is_u8 p.2 → c !! rpcKey p.1 p.2 = None ∨ c !! rpcKey p.1 p.2 = Some (rpcSubject p).

Lemma rpcNodeSubjectName_ok c p :
  is_i32 p.1 → is_u8 p.2 → cache_ok c →
  (rpcNodeSubjectName p.1 p.2 c).1 = rpcSubject p ∧ cache_ok (rpcNodeSubjectName p.1 p.2 c).2.
Proof.
  intros H1 H2 Hc. unfold rpcNodeSubjectName. destruct (Hc p H1 H2) as [E|E]; rewrite E; [|done].
  cbn. split; [done|]. intros q H3 H4. destruct (decide (rpcKey p.1 p.2 = rpcKey q.1 q.2)) as [Eq|Hn].
  - right. rewrite Eq, lookup_insert_eq. apply rpcKey_inj in Eq as [Ea Eb]; [|done..].
    unfold rpcSubject. by rewrite Ea, Eb.
  - rewrite lookup_insert_ne by done. by apply Hc.
Qed.

Lemma rpcHistory_ok l : Forall (λ p, is_i32 p.1 ∧ is_u8 p.2) l → cache_ok (rpcHistory l).
Proof.
  intros Hl. unfold rpcHistory. assert (H0 : cache_ok ∅) by (intros p _ _; left; apply lookup_empty).
  revert H0. generalize (∅ : gmap Z string). induction Hl as [|p l [H1 H2] _ IH]; intros c H0; [done|].
  cbn. by apply IH, rpcNodeSubjectName_ok.
Qed.

(** The process-wide subject cache is transparent: after any history of calls for
    32-bit service types and byte node ids, [rpcNodeSubjectName] returns the
    subject it would have built itself, never one cached for another node; and a
    node subscribes to its broadcast, node and rpc subjects as a plain subscriber
    and to its service's shared subject in the queue group. *)
Theorem rpc_subject_cache_transparent l t i :
  Forall (λ p, is_i32 p.1 ∧ is_u8 p.2) l → is_i32 t → is_u8 i →
  (rpcNodeSubjectName t i (rpcHistory l)).1 = rpcSubject (t, i) ∧
  (getSubjects t i (rpcHistory l)).1 =
    list_to_map [(rpcSubject (t, i), EmptyString); (anySubjectName t, "msg.group");
                 (nodeSubjectName t i, EmptyString); (broadcastSubjectName t, EmptyString)].
Proof.
  intros Hl Ht Hi. pose proof (rpcHistory_ok l Hl) as Hc.
  destruct (rpcNodeSubjectName_ok _ (t, i) Ht Hi Hc) as [E _]. split; [exact E|].
  unfold getSubjects. cbn [fst snd] in E. destruct (rpcNodeSubjectName t i (rpcHistory l)) as [s c].
  cbn in E. by subst s.
Qed.

Lemma rpc_subject_cache_transparent_witness :
  (rpcNodeSubjectName 2 1 (rpcHistory [(2, 1); (1, 2)])).1 = rpcSubject (2, 1) ∧
  (getSubjects 2 1 (rpcHistory [(2, 1); (1, 2)])).1 =
    list_to_map [(rpcSubject (2, 1), EmptyString); (anySubjectName 2, "msg.group");
                 (nodeSubjectName 2 1, EmptyString); (broadcastSubjectName 2, EmptyString)].
Proof. apply rpc_subject_cache_transparent; dec. Defined.
