(* ===== verification/Serve.v ===== *)
(** * pkg/gnet/msgq/sub.go, nats.go: who receives what

    [Serve] subscribes a server to its subjects (a map, ranged over in any order);
    [subscribe] stops at the first error. NATS hands a message to every plain subscription of
    its subject and to one member of every queue group of it, which is its documented
    behaviour; which member is open. With the senders of [DataBus.v] this settles which
    servers a message reaches. *)

From S2P Require Import Prelude Gmsg Batcher DataBus.

Abbreviation srv := (Z * Z)%type.

(** A subscription; the empty queue is none. *)
Record sub := mkSub { s_subject : string; s_queue : string; s_who : srv }.

(** [subscribe]: [fails] are the subjects NATS refuses. *)
Fixpoint subscribe (fails : string → bool) (who : srv) (subs : list (string * string)) (acc : list sub) : list sub * go_error :=
  match subs with
  | [] => (acc, None)
  | (subject, queue) :: subs =>
      if fails subject then (acc, Some (ErrMsg "nats"))
      else subscribe fails who subs (acc ++ [mkSub subject queue who])
  end.

(** [Serve]: [order] is how Go ranges over the map. *)
Definition Serve (fails : string → bool) (order : gmap string string → list (string * string)) (cache : gmap Z string) (who : srv) (acc : list sub)
    : list sub * go_error :=
  subscribe fails who (order (getSubjects who.1 who.2 cache).1) acc.

(** [Init]: two connections, or an error of either. *)
Definition Init (connect : nat → result unit) (serType serID : Z) : result DataBus :=
  match connect 0%nat with
  | Err e => Err e
  | Ok _ => match connect 1%nat with Err e => Err e | Ok _ => Ok (freshBus (u8 serType) serID) end
  end.

(** ** Routing *)

Definition matching (subject queue : string) (l : list sub) : list sub := filter (λ s, s_subject s = subject ∧ s_queue s = queue) l.

(** The receivers of a message: every plain subscription, and one member of each group. *)
Definition routes (l : list sub) (subject : string) (rs : list srv) : Prop :=
  ∃ picks, rs = (s_who <$> matching subject EmptyString l) ++ picks ∧
    Forall2 (λ q w, ∃ s, s ∈ matching subject q l ∧ s_who s = w)
      (filter (λ q, q ≠ EmptyString) (remove_dups (s_queue <$> filter (λ s, s_subject s = subject) l))) picks.

(** What a server of the cluster subscribes to. *)
Definition subjectsOf (p : srv) : list (string * string) :=
  [(rpcSubject p, EmptyString); (anySubjectName p.1, "msg.group"); (nodeSubjectName p.1 p.2, EmptyString); (broadcastSubjectName p.1, EmptyString)].
Definition subsOf (p : srv) : list sub := (λ x, mkSub x.1 x.2 p) <$> subjectsOf p.

(** A server that can be addressed. *)
Definition srvOk (p : srv) : Prop := in_table (KNode p.1 p.2) ∧ known_key (KNode p.1 p.2).

Lemma subscribe_ok who subs acc : subscribe (λ _, false) who subs acc = (acc ++ ((λ x, mkSub x.1 x.2 who) <$> subs), None).
Proof.
  revert acc. induction subs as [|[s q] subs IH]; intros acc; cbn [subscribe]; [by rewrite app_nil_r|]. rewrite IH. by rewrite <- app_assoc.
Qed.

Definition queueOf (k : bkey) : string := match k with KAny _ => "msg.group" | _ => EmptyString end.
(** Does a slot belong to this server? *)
Definition hit (k : bkey) (p : srv) : Prop :=
  match k with KNode t i => (t, i) = p | KAny t | KBroadcast t => t = p.1 end.
#[export] Instance hit_dec k p : Decision (hit k p).
Proof. destruct k; cbn; apply _. Defined.

Lemma srvOk_keys p k : srvOk p → k ∈ [KAny p.1; KNode p.1 p.2; KBroadcast p.1] → in_table k ∧ known_key k.
Proof.
  unfold srvOk, in_table, key_check. cbn. intros [H1 H2] Hk. rewrite !elem_of_cons, elem_of_nil in Hk.
  destruct (decide (p.1 >= SvcTypeMax ∨ p.2 >= SvcIDMax)); [done|]. destruct (decide (p.1 < 0 ∨ p.2 < 0)); [done|].
  destruct Hk as [->|[->|[->|[]]]]; (split; [|done]); cbn; rewrite ?decide_False by (try tauto; lia); rewrite ?decide_False by tauto; done.
Qed.

Lemma subject_eq p k k' :
  srvOk p → in_table k → known_key k → k' ∈ [KAny p.1; KNode p.1 p.2; KBroadcast p.1] → subject_of k' = subject_of k ↔ k' = k.
Proof.
  intros Hp Hk Hn Hk'. split; [|by intros ->]. destruct (srvOk_keys p k' Hp Hk') as [H1 H2]. by apply subject_of_inj.
Qed.

(** The subscriptions of a server to the subject of a slot. *)
Lemma subsOf_subject p k :
  srvOk p → in_table k → known_key k →
  filter (λ s, s_subject s = subject_of k) (subsOf p) = (if decide (hit k p) then [mkSub (subject_of k) (queueOf k) p] else []).
Proof.
  intros Hp Hk Hn. unfold subsOf, subjectsOf. cbn [fmap list_fmap fst snd].
  change (anySubjectName p.1) with (subject_of (KAny p.1)). change (nodeSubjectName p.1 p.2) with (subject_of (KNode p.1 p.2)).
  change (broadcastSubjectName p.1) with (subject_of (KBroadcast p.1)).
  rewrite filter_cons_False by (cbn; by destruct k).
  assert (Hf : ∀ k' q l, k' ∈ [KAny p.1; KNode p.1 p.2; KBroadcast p.1] →
    filter (λ s, s_subject s = subject_of k) (mkSub (subject_of k') q p :: l) =
    (if decide (k' = k) then [mkSub (subject_of k) q p] else []) ++ filter (λ s, s_subject s = subject_of k) l).
  { intros k' q l Hk'. case_decide as E; [rewrite filter_cons_True by (cbn; by rewrite E); by rewrite E|].
    rewrite filter_cons_False; [done|]. cbn. by rewrite (subject_eq p). }
  rewrite !Hf, filter_nil, app_nil_r by set_solver. destruct p as [t i]. cbn [fst snd].
  destruct k as [t' i'|t'|t']; cbn [hit queueOf].
  - rewrite (decide_False (P := KAny t = _)), (decide_False (P := KBroadcast t = _)) by done. cbn. rewrite app_nil_r.
    destruct (decide (KNode t i = KNode t' i')) as [E|E], (decide ((t', i') = (t, i))) as [E'|E']; try done; exfalso; congruence.
  - rewrite (decide_False (P := KNode t i = _)), (decide_False (P := KBroadcast t = _)) by done. cbn.
    destruct (decide (KAny t = KAny t')), (decide (t' = t)); try done; exfalso; congruence.
  - rewrite (decide_False (P := KNode t i = _)), (decide_False (P := KAny t = _)) by done. cbn.
    destruct (decide (KBroadcast t = KBroadcast t')), (decide (t' = t)); try done; exfalso; congruence.
Qed.

Lemma cluster_subject servers k :
  Forall srvOk servers → in_table k → known_key k →
  filter (λ s, s_subject s = subject_of k) (servers ≫= subsOf) = mkSub (subject_of k) (queueOf k) <$> filter (hit k) servers.
Proof.
  intros Hs Hk Hn. induction Hs as [|p ps Hp _ IH]; [done|]. rewrite bind_cons, filter_app, IH, subsOf_subject by done.
  rewrite filter_cons. by destruct (decide (hit k p)).
Qed.

(** [Serve] without an error: the four subjects, in some order. *)
Lemma Serve_ok order l who acc :
  (∀ m, order m ≡ₚ map_to_list m) → Forall (λ p, is_i32 p.1 ∧ is_u8 p.2) l → is_i32 who.1 → is_u8 who.2 →
  ∃ subs, Serve (λ _, false) order (rpcHistory l) who acc = (acc ++ subs, None) ∧ subs ≡ₚ subsOf who.
Proof.
  intros Ho Hl H1 H2. unfold Serve. rewrite subscribe_ok. eexists. split; [reflexivity|]. unfold subsOf. apply fmap_Permutation.
  rewrite Ho. destruct (rpc_subject_cache_transparent l who.1 who.2 Hl H1 H2) as [_ ->]. rewrite map_to_list_to_map.
  - unfold subjectsOf. by destruct who.
  - cbn. assert (D : ∀ a b, a ≠ b → "msg." +:+ SrvName who.1 +:+ a ≠ "msg." +:+ SrvName who.1 +:+ b).
    { intros a b Hab E. apply Hab. apply (inj (String.append "msg.")) in E. by apply (inj (String.append (SrvName who.1))) in E. }
    rewrite !NoDup_cons, !not_elem_of_cons. unfold nodeSubjectName, anySubjectName, broadcastSubjectName.
    splits; try apply not_elem_of_nil; try apply NoDup_nil_2; try done; by apply D.
Qed.

(** All servers of a list serve, one after the other. *)
Fixpoint serveAll (order : gmap string string → list (string * string)) (l : list srv) (servers : list srv) (acc : list sub) : list sub * go_error :=
  match servers with
  | [] => (acc, None)
  | p :: ps => let '(acc, err) := Serve (λ _, false) order (rpcHistory l) p acc in
               match err with Some e => (acc, Some e) | None => serveAll order (l ++ [p]) ps acc end
  end.

Lemma srvOk_widths p : srvOk p → is_i32 p.1 ∧ is_u8 p.2.
Proof.
  intros [H _]. unfold in_table, key_check in H. destruct (decide (p.1 >= SvcTypeMax ∨ p.2 >= SvcIDMax)); [done|].
  destruct (decide (p.1 < 0 ∨ p.2 < 0)); [done|]. unfold SvcTypeMax, SvcIDMax, is_i32, is_u8 in *. lia.
Qed.

Lemma serveAll_ok order l servers acc :
  (∀ m, order m ≡ₚ map_to_list m) → Forall (λ p, is_i32 p.1 ∧ is_u8 p.2) l → Forall srvOk servers →
  ∃ subs, serveAll order l servers acc = (acc ++ subs, None) ∧ subs ≡ₚ servers ≫= subsOf.
Proof.
  intros Ho Hl Hs. revert l acc Hl. induction Hs as [|p ps Hp _ IH]; intros l acc Hl; cbn [serveAll]; [exists []; by rewrite app_nil_r|].
  destruct (srvOk_widths p Hp) as [H1 H2]. destruct (Serve_ok order l p acc Ho Hl H1 H2) as (s1 & -> & P1).
  destruct (IH (l ++ [p]) (acc ++ s1)) as (s2 & -> & P2); [apply Forall_app; by rewrite Forall_singleton|].
  exists (s1 ++ s2). split; [by rewrite app_assoc|]. by rewrite P1, P2.
Qed.

Lemma matching_filter subject queue l : matching subject queue l = filter (λ s, s_queue s = queue) (filter (λ s, s_subject s = subject) l).
Proof. unfold matching. rewrite list_filter_filter. apply list_filter_iff. intros x. cbn. tauto. Qed.

Lemma nodup_all {A} (l : list A) q : NoDup l → (∀ x, x ∈ l → x = q) → l = [] ∨ l = [q].
Proof.
  intros Hn Hq. destruct l as [|x l]; [by left|right]. assert (x = q) as -> by (apply Hq; by left). f_equal.
  destruct l as [|y l]; [done|]. assert (y = q) as -> by (apply Hq; by right; left). apply NoDup_cons in Hn as [Hx _]. exfalso. apply Hx. by left.
Qed.

Lemma who_sub subject queue (l : list srv) : s_who <$> (mkSub subject queue <$> l) = l.
Proof. rewrite <- list_fmap_compose. by apply list_fmap_id. Qed.

Lemma filter_queue subject queue q (l : list srv) :
  filter (λ s, s_queue s = q) (mkSub subject queue <$> l) = if decide (queue = q) then mkSub subject queue <$> l else [].
Proof.
  induction l as [|x l IH]; cbn [fmap list_fmap]; [by case_decide|]. rewrite filter_cons. cbn [s_queue]. rewrite IH. by case_decide.
Qed.

(** The receivers in a list of subscriptions that is known up to its order. *)
Lemma routes_known l subject queue (ps : list srv) rs :
  filter (λ s, s_subject s = subject) l ≡ₚ mkSub subject queue <$> ps → routes l subject rs →
  if decide (queue = EmptyString) then rs ≡ₚ ps else ps = [] ∧ rs = [] ∨ ∃ p, rs = [p] ∧ p ∈ ps.
Proof.
  intros Pf (picks & -> & Hp).
  assert (Hm : ∀ q, matching subject q l ≡ₚ if decide (queue = q) then mkSub subject queue <$> ps else [])
    by (intros q; rewrite matching_filter, Pf; by rewrite filter_queue).
  set (qs := filter (λ q, q ≠ EmptyString) (remove_dups _)) in Hp.
  assert (Hqs : ∀ q, q ∈ qs ↔ q ≠ EmptyString ∧ q = queue ∧ ps ≠ []).
  { intros q. unfold qs. rewrite list_elem_of_filter, elem_of_remove_dups, list_elem_of_fmap. setoid_rewrite Pf.
    setoid_rewrite list_elem_of_fmap. split.
    - intros (Hq & s & -> & p & -> & Hin). split; [done|]. split; [done|]. intros Eps. rewrite Eps in Hin. by apply elem_of_nil in Hin.
    - intros (Hq & -> & Hne). split; [done|]. destruct ps as [|p ps]; [done|]. exists (mkSub subject queue p). split; [done|]. exists p. split; [done|by left]. }
  assert (Hnd : NoDup qs) by (apply NoDup_filter, NoDup_remove_dups).
  case_decide as Eq.
  - assert (qs = []) as Eqs.
    { apply elem_of_nil_inv. intros q (Hne & -> & _)%Hqs. done. }
    rewrite Eqs in Hp. apply Forall2_nil_inv_l in Hp as ->. rewrite app_nil_r, Hm, decide_True by done. by rewrite who_sub.
  - assert (Ep : s_who <$> matching subject EmptyString l = []).
    { pose proof (Hm EmptyString) as Hx. rewrite decide_False in Hx by done. apply Permutation_nil_r in Hx. by rewrite Hx. }
    rewrite Ep. cbn [app]. destruct (nodup_all qs queue Hnd ltac:(intros q Hq; by apply Hqs)) as [E|E]; rewrite E in Hp.
    + apply Forall2_nil_inv_l in Hp as ->. left. split; [|done]. destruct ps as [|p ps]; [done|]. exfalso.
      assert (Hin : queue ∈ qs) by (apply Hqs; done). rewrite E in Hin. by apply elem_of_nil in Hin.
    + apply Forall2_cons_inv_l in Hp as (w & ws & (x & Hx & <-) & Hnil & ->). apply Forall2_nil_inv_l in Hnil as ->. right.
      exists (s_who x). split; [done|]. rewrite Hm, decide_True in Hx by done. apply list_elem_of_fmap in Hx as (p & -> & Hin). done.
Qed.

(** C22. Who receives a message. Servers with different ids have all subscribed, each in whatever
    order Go ranges over its map. Whatever member NATS picks of a group: a message for a node
    reaches exactly that node if it is there and nobody otherwise; one for any server of a kind
    reaches exactly one server of the kind, if there is one; a broadcast reaches every server
    of the kind, once each. *)
Theorem message_reaches_its_servers order servers k subs err rs :
  (∀ m, order m ≡ₚ map_to_list m) → NoDup servers → Forall srvOk servers → in_table k → known_key k →
  serveAll order [] servers [] = (subs, err) → routes subs (subject_of k) rs →
  err = None ∧
  match k with
  | KNode t i => rs = if decide ((t, i) ∈ servers) then [(t, i)] else []
  | KBroadcast t => rs ≡ₚ filter (λ p, t = p.1) servers
  | KAny t => filter (λ p, t = p.1) servers = [] ∧ rs = [] ∨ ∃ p, rs = [p] ∧ p ∈ servers ∧ t = p.1
  end.
Proof.
  intros Ho Hnd Hs Hk Hn E Hr. destruct (serveAll_ok order [] servers [] Ho ltac:(constructor) Hs) as (subs' & E' & P).
  rewrite E' in E. injection E as <- <-. split; [done|]. cbn [app] in *.
  assert (Pf : filter (λ s, s_subject s = subject_of k) subs' ≡ₚ mkSub (subject_of k) (queueOf k) <$> filter (hit k) servers)
    by (rewrite P; by rewrite cluster_subject).
  apply (routes_known _ _ _ _ _ Pf) in Hr. destruct k as [t i|t|t]; cbn [queueOf] in Hr.
  - rewrite decide_True in Hr by done. set (ps := filter (hit (KNode t i)) servers) in Hr.
    assert (Hps : ∀ p, p ∈ ps ↔ p = (t, i) ∧ (t, i) ∈ servers).
    { intros p. unfold ps. rewrite list_elem_of_filter. cbn. split; [by intros [<- ?]|by intros [-> ?]]. }
    destruct (nodup_all ps (t, i) ltac:(by apply NoDup_filter) ltac:(intros p Hp; by apply Hps)) as [Eps|Eps]; rewrite Eps in Hr.
    + rewrite decide_False; [by apply Permutation_nil_r|]. intros Hin. assert (Hx : (t, i) ∈ ps) by by apply Hps. rewrite Eps in Hx. by apply elem_of_nil in Hx.
    + rewrite decide_True; [by apply Permutation_singleton_r|]. apply (Hps (t, i)). rewrite Eps. by left.
  - rewrite decide_False in Hr by done. destruct Hr as [[E1 ->]|(p & -> & Hin)]; [left; split; [exact E1|done]|right].
    apply list_elem_of_filter in Hin as [Ht Hin]. by exists p.
  - by rewrite decide_True in Hr.
Qed.

Lemma srvOk_intro t i n : key_check (KNode t i) = Some (Ok ()) → Server_name !! t = Some n → srvOk (t, i).
Proof. intros H1 H2. split; [exact H1|]. by exists n. Qed.

Definition demoServers : list srv := [(2, 1); (2, 7); (0, 1)].

Lemma message_reaches_its_servers_witness :
  ∃ subs, serveAll map_to_list [] demoServers [] = (subs, None) ∧
    (∀ rs, routes subs (subject_of (KNode 2 7)) rs → rs = [(2, 7)]) ∧
    (∀ rs, routes subs (subject_of (KBroadcast 2)) rs → rs ≡ₚ [(2, 1); (2, 7)]) ∧
    ∀ rs, routes subs (subject_of (KAny 2)) rs → ∃ i, rs = [(2, i)].
Proof.
  destruct (serveAll map_to_list [] demoServers []) as [subs err] eqn:E.
  assert (Hd : NoDup demoServers) by dec. assert (Hok : Forall srvOk demoServers).
  { unfold demoServers. rewrite !Forall_cons. split; [by apply (srvOk_intro 2 1 "Game")|]. split; [by apply (srvOk_intro 2 7 "Game")|].
    split; [by apply (srvOk_intro 0 1 "Gateway")|done]. }
  assert (Hm : ∀ m : gmap string string, map_to_list m ≡ₚ map_to_list m) by done.
  pose proof (λ k rs (Hk : in_table k) (Hn : known_key k), message_reaches_its_servers map_to_list demoServers k subs err rs Hm Hd Hok Hk Hn E) as H.
  assert (Hgame : known 2) by (exists "Game"; reflexivity).
  exists subs. assert (err = None) as ->; [|split; [done|]; splits].
  - destruct (serveAll_ok map_to_list [] demoServers [] Hm ltac:(constructor) Hok) as (s & E' & _). congruence.
  - intros rs Hr. destruct (H (KNode 2 7) rs ltac:(reflexivity) Hgame Hr) as [_ Hx]. exact Hx.
  - intros rs Hr. destruct (H (KBroadcast 2) rs ltac:(reflexivity) Hgame Hr) as [_ Hx]. exact Hx.
  - intros rs Hr. destruct (H (KAny 2) rs ltac:(reflexivity) Hgame Hr) as [_ [[Hx _]|([t i] & -> & _ & Ht)]]; [by vm_compute in Hx|].
    cbn in Ht. subst t. by exists i.
Defined.
