(* ===== verification/Proto.v ===== *)
(** * api/pb: the message interface, the type registry and id generation

    [pb.VTMessage] is a Go interface: here a class of operations and a class of the
    laws the codec generator documents. [TypeMeta] maps message types to ids and
    back. [idgen] packs the machine id into session ids with sonyflake. *)

From S2P Require Import Prelude.

(** ** The message interface *)

(** A message of any Go message type. [msg_type] is the type's name, what
    [reflect.TypeOf(msg).Elem()] identifies; [new_msg] is the empty literal of the type. *)
Class VTMessage (M : Type) := {
  msg_type : M → string;
  new_msg : string → M;
  SizeVT : M → Z;
  MarshalToSizedBufferVT : M → bytes → result (bytes * Z);   (* the buffer after, and n *)
  UnmarshalVT : M → bytes → M * go_error;                    (* merges into the message *)
  proto_Reset : M → M }.

(** What the protobuf documentation promises: [Reset] clears every field, parsing
    merges and keeps the type, an empty input changes nothing, marshalling into a
    buffer of [SizeVT] bytes fills it, and parsing into an empty message inverts it. *)
Class VTLaws (M : Type) `{VTMessage M} := {
  new_msg_type t : msg_type (new_msg t) = t;
  unmarshal_type m b : msg_type (UnmarshalVT m b).1 = msg_type m;
  reset_new m : proto_Reset m = new_msg (msg_type m);
  size_nonneg m : 0 ≤ SizeVT m;
  unmarshal_nil m : UnmarshalVT m [] = (m, None);
  marshal_fills m buf enc n :
    len buf = SizeVT m → MarshalToSizedBufferVT m buf = Ok (enc, n) →
    n = SizeVT m ∧ len enc = SizeVT m ∧ is_bytes enc;
  unmarshal_marshal m buf enc n :
    len buf = SizeVT m → MarshalToSizedBufferVT m buf = Ok (enc, n) →
    UnmarshalVT (new_msg (msg_type m)) enc = (m, None) }.

(** ** TypeMeta *)

Section TypeMeta.
Context {M : Type} `{VTMessage M}.

Record messageMeta := mkMeta { MessageType : string; NewMessage : M }.

Record TypeMeta := mkTypeMeta { idByType : gmap Z messageMeta; typeByID : gmap string Z }.

Definition TypeMeta_init : TypeMeta := mkTypeMeta ∅ ∅.

Definition TypeMeta_Register (t : TypeMeta) (id : Z) (meta : messageMeta) : TypeMeta :=
  mkTypeMeta (<[id := meta]> (idByType t)) (<[MessageType meta := id]> (typeByID t)).

Definition TypeMeta_New (t : TypeMeta) (msgID : Z) : option M := NewMessage <$> idByType t !! msgID.
Definition TypeMeta_NewFunc (t : TypeMeta) (msgID : Z) : option M := NewMessage <$> idByType t !! msgID.
Definition TypeMeta_MsgID (t : TypeMeta) (type : string) : option Z := typeByID t !! type.

(** Registering a table of ids and type names, each with the type's own constructor. *)
Definition registerAll (l : list (Z * string)) : TypeMeta :=
  fold_left (λ t e, TypeMeta_Register t e.1 (mkMeta e.2 (new_msg e.2))) l TypeMeta_init.

(** The generated tables [registerAllC2SMsg], [registerAllS2CMsg], [registerAllS2SMsg]. *)
Definition tableC2S : list (Z * string) :=
  [(0, "C2SNone"); (100000, "C2SAccountHandle"); (100001, "C2SLogin"); (200000, "C2SGameHandle");
   (200001, "C2SClientReady"); (200004, "C2SHeartBeat"); (200006, "C2SWithoutRole"); (200007, "C2SEcho")].
Definition tableS2C : list (Z * string) :=
  [(0, "S2CNone"); (2, "S2CHeartBeat"); (100, "S2CGateHandle"); (101, "S2CLogin"); (103, "S2CKickRole");
   (104, "S2CDayChange"); (105, "S2CDataReset"); (106, "S2CEcho")].
Definition tableS2S : list (Z * string) :=
  [(0, "S2SNone"); (1, "S2SReqLogin"); (8, "S2SReqLoginOrLogout"); (9, "S2SResLoginOrLogout");
   (10, "S2SReqConfig"); (11, "S2SResConfig"); (12, "S2SKickAcc"); (13, "S2SKickRole");
   (14, "S2SRelayToRole"); (15, "S2SOfflineEvt"); (18, "S2SResLogin"); (19, "S2SGt2SDisconnect");
   (20, "S2SS2GtDisconnect"); (21, "S2SRoleClear"); (22, "S2SEcho"); (23, "S2SRpcEchoReq");
   (24, "S2SRpcEchoRes"); (25, "S2SRpcEchoRoleReq"); (26, "S2SRpcEchoRoleRes")].

Definition c2s : TypeMeta := registerAll tableC2S.
Definition s2c : TypeMeta := registerAll tableS2C.
Definition s2s : TypeMeta := registerAll tableS2S.

Definition NewFuncC2S := TypeMeta_NewFunc c2s.
Definition NewFuncS2C := TypeMeta_NewFunc s2c.
Definition NewFuncS2S := TypeMeta_NewFunc s2s.
Definition GetMsgIDC2S (msg : M) := TypeMeta_MsgID c2s (msg_type msg).
Definition GetMsgIDS2C (msg : M) := TypeMeta_MsgID s2c (msg_type msg).
Definition GetMsgIDS2S (msg : M) := TypeMeta_MsgID s2s (msg_type msg).

(** The id and the constructor of the message type a handler is written for: the
    server table first, then the client table. *)
Definition FindMsgIDAndCreateFunc (req : M) : result (Z * M) :=
  let '(found, isCli) :=
    match GetMsgIDS2S req with
    | Some id => (Some id, false)
    | None => (GetMsgIDC2S req, true)
    end in
  match found with
  | None => Err (ErrMsg "message not found in TypeMeta")
  | Some msgID =>
      match (if isCli then NewFuncC2S msgID else NewFuncS2S msgID) with
      | None => Err (ErrMsg "message not found create func in TypeMeta")
      | Some create => Ok (msgID, create)
      end
  end.

(** *** Registration is a bijection *)

Lemma registerAll_snoc l e :
  registerAll (l ++ [e]) = TypeMeta_Register (registerAll l) e.1 (mkMeta e.2 (new_msg e.2)).
Proof. unfold registerAll. by rewrite fold_left_app. Qed.

Lemma registerAll_spec l :
  NoDup l.*1 → NoDup l.*2 →
  (∀ id, idByType (registerAll l) !! id = (λ t, mkMeta t (new_msg t)) <$> (list_to_map l : gmap Z string) !! id) ∧
  (∀ id t, typeByID (registerAll l) !! t = Some id ↔ (id, t) ∈ l).
Proof.
  induction l as [|[i t] l IH] using rev_ind; intros Hi Ht.
  { split; [done|]. intros id t. change (typeByID (registerAll [])) with (∅ : gmap string Z).
    rewrite lookup_empty. split; [done|]. by intros ?%elem_of_nil. }
  rewrite fmap_app in Hi. rewrite fmap_app in Ht. apply NoDup_app in Hi as (Hi & Hi2 & _). apply NoDup_app in Ht as (Ht & Ht2 & _).
  destruct (IH Hi Ht) as [IH1 IH2]. rewrite registerAll_snoc. split.
  - intros id. cbn. destruct (decide (i = id)) as [->|Hn].
    + rewrite lookup_insert_eq. rewrite list_to_map_app, lookup_union_r; [cbn; by rewrite lookup_insert_eq|].
      apply not_elem_of_list_to_map. intros Hin. destruct (Hi2 _ Hin). by left.
    + rewrite lookup_insert_ne, IH1 by done. f_equal.
      rewrite list_to_map_app. symmetry. apply lookup_union_l. cbn. by rewrite lookup_insert_ne.
  - intros id t'. cbn. rewrite elem_of_app, list_elem_of_singleton, <- IH2.
    destruct (decide (t = t')) as [->|Hn].
    + rewrite lookup_insert_eq. split; [intros [= ->]; by right|].
      intros [Hin|[= ->]]; [|done]. apply IH2 in Hin. destruct (Ht2 t'); [|by left].
      apply list_elem_of_fmap. by exists (id, t').
    + rewrite lookup_insert_ne by done. split; [by left|]. intros [?|[= _ ?]]; done.
Qed.

Lemma registerAll_lookup l id t :
  NoDup l.*1 → NoDup l.*2 → (id, t) ∈ l →
  TypeMeta_MsgID (registerAll l) t = Some id ∧ TypeMeta_NewFunc (registerAll l) id = Some (new_msg t).
Proof.
  intros Hi Ht Hin. destruct (registerAll_spec l Hi Ht) as [H1 H2]. split; [by apply H2|].
  unfold TypeMeta_NewFunc. rewrite H1. by erewrite elem_of_list_to_map_1 by done.
Qed.

Lemma registerAll_none l t :
  NoDup l.*1 → NoDup l.*2 → t ∉ l.*2 → TypeMeta_MsgID (registerAll l) t = None.
Proof.
  intros Hi Ht Hin. destruct (registerAll_spec l Hi Ht) as [_ H2]. unfold TypeMeta_MsgID.
  destruct (typeByID _ !! t) as [id|] eqn:E; [|done]. apply H2 in E. destruct Hin.
  apply list_elem_of_fmap. by exists (id, t).
Qed.

Lemma tables_nodup :
  (NoDup tableS2S.*1 ∧ NoDup tableS2S.*2) ∧ (NoDup tableC2S.*1 ∧ NoDup tableC2S.*2) ∧
  (NoDup tableS2C.*1 ∧ NoDup tableS2C.*2) ∧ (∀ t, t ∈ tableC2S.*2 → t ∉ tableS2S.*2).
Proof.
  splits; try dec. intros t Ht.
  assert (Hf : Forall (λ t, t ∉ tableS2S.*2) (tableC2S.*2)) by dec.
  by apply (proj1 (Forall_forall _ _) Hf).
Qed.

(** The id a sender puts on a message and the id under which a handler for its
    type is registered agree, and the handler's constructor makes messages of
    that type. *)
Lemma find_s2s (req : M) id :
  (id, msg_type req) ∈ tableS2S →
  GetMsgIDS2S req = Some id ∧ FindMsgIDAndCreateFunc req = Ok (id, new_msg (msg_type req)).
Proof.
  intros Hin. destruct tables_nodup as ((N1 & N2) & _).
  destruct (registerAll_lookup _ _ _ N1 N2 Hin) as [E1 E2].
  unfold FindMsgIDAndCreateFunc, GetMsgIDS2S, NewFuncS2S, s2s in *. rewrite E1, E2. done.
Qed.

Lemma find_c2s (req : M) id :
  (id, msg_type req) ∈ tableC2S →
  GetMsgIDC2S req = Some id ∧ FindMsgIDAndCreateFunc req = Ok (id, new_msg (msg_type req)).
Proof.
  intros Hin. destruct tables_nodup as ((N1 & N2) & (N3 & N4) & _ & Hd).
  assert (Hm : msg_type req ∈ tableC2S.*2) by (apply list_elem_of_fmap; by exists (id, msg_type req)).
  destruct (registerAll_lookup _ _ _ N3 N4 Hin) as [E1 E2]. specialize (Hd _ Hm).
  unfold FindMsgIDAndCreateFunc, GetMsgIDS2S, GetMsgIDC2S, NewFuncC2S, s2s, c2s in *.
  by rewrite (registerAll_none tableS2S), E1, E2 by done.
Qed.

Lemma find_none (req : M) :
  msg_type req ∉ tableS2S.*2 → msg_type req ∉ tableC2S.*2 →
  is_ok (FindMsgIDAndCreateFunc req) = false.
Proof.
  intros H1 H2. destruct tables_nodup as ((N1 & N2) & (N3 & N4) & _).
  unfold FindMsgIDAndCreateFunc, GetMsgIDS2S, GetMsgIDC2S, s2s, c2s.
  by rewrite (registerAll_none tableS2S), (registerAll_none tableC2S) by done.
Qed.

(** What a successful search gives. *)
Lemma find_ok (req : M) id create :
  FindMsgIDAndCreateFunc req = Ok (id, create) → create = new_msg (msg_type req) ∧ 0 ≤ id.
Proof.
  intros E. destruct (decide (msg_type req ∈ (tableS2S ++ tableC2S).*2)) as [Hm|Hm].
  - apply list_elem_of_fmap in Hm as ([id' t'] & Et & Hin). cbn in Et. rewrite <- Et in Hin.
    assert (E' : FindMsgIDAndCreateFunc req = Ok (id', new_msg (msg_type req))).
    { apply elem_of_app in Hin as [Hi|Hi]; [by apply find_s2s|by apply find_c2s]. }
    rewrite E in E'. injection E' as -> ->. split; [done|].
    assert (Hn : Forall (λ p, 0 ≤ p.1) (tableS2S ++ tableC2S)) by dec.
    by apply (proj1 (Forall_forall _ _) Hn) in Hin.
  - rewrite fmap_app, not_elem_of_app in Hm. destruct Hm as [Hm1 Hm2].
    pose proof (find_none req Hm1 Hm2) as Hn. by rewrite E in Hn.
Qed.

End TypeMeta.
Arguments messageMeta : clear implicits.
Arguments TypeMeta : clear implicits.

(** The message registry agrees with itself for every message type of the
    protocol: the id a sender puts on a message, the id its handler is registered
    under and the constructor the receiver uses all belong to the message's own
    type, types without an id are refused, and no two server or client types share
    an id except the two unused zero ids. *)
Theorem message_ids_agree {M} `{VTMessage M} (req : M) :
  (∀ id, (id, msg_type req) ∈ tableS2S ++ tableC2S →
     FindMsgIDAndCreateFunc req = Ok (id, new_msg (msg_type req)) ∧
     ((id, msg_type req) ∈ tableS2S → GetMsgIDS2S req = Some id) ∧
     ∀ req' : M, FindMsgIDAndCreateFunc req' = Ok (id, new_msg (msg_type req')) →
       msg_type req' = msg_type req ∨ id = 0) ∧
  (msg_type req ∉ (tableS2S ++ tableC2S).*2 → is_ok (FindMsgIDAndCreateFunc req) = false).
Proof.
  assert (Hfind : ∀ (r : M) id, (id, msg_type r) ∈ tableS2S ++ tableC2S →
            FindMsgIDAndCreateFunc r = Ok (id, new_msg (msg_type r))).
  { intros r id [Hi|Hi]%elem_of_app; [by apply find_s2s|by apply find_c2s]. }
  split.
  - intros id Hin. splits; [by apply Hfind|intros; by apply find_s2s|]. intros req' E.
    destruct (decide (msg_type req' ∈ (tableS2S ++ tableC2S).*2)) as [Hm|Hm].
    + apply list_elem_of_fmap in Hm as ([id' t'] & Et & Hin'). cbn in Et. rewrite <- Et in Hin'.
      rewrite (Hfind _ _ Hin') in E. injection E as ->.
      assert (Hd : Forall (λ p, Forall (λ q, q.1 = p.1 → q.2 = p.2 ∨ p.1 = 0) (tableS2S ++ tableC2S))
                     (tableS2S ++ tableC2S)) by dec.
      rewrite Forall_forall in Hd. specialize (Hd _ Hin). rewrite Forall_forall in Hd.
      by apply (Hd _ Hin').
    + rewrite fmap_app, not_elem_of_app in Hm. destruct Hm as [Hm1 Hm2].
      pose proof (find_none req' Hm1 Hm2) as Hn. by rewrite E in Hn.
  - rewrite fmap_app, not_elem_of_app. intros [H1 H2]. by apply find_none.
Qed.

(** ** A concrete codec

    A message with one repeated bool field, one byte per element: parsing appends,
    as it does for repeated fields, and rejects bytes above one. It shows that the
    laws are consistent and serves as the message type of the examples. *)

Definition demoMsg : Type := string * list bool.

Definition demo_byte (b : bool) : Z := if b then 1 else 0.

Definition demo_parse (m : demoMsg) (b : bytes) : demoMsg * go_error :=
  if forallb (λ z, (z =? 0) || (z =? 1)) b then ((m.1, m.2 ++ (Z.eqb 1 <$> b)), None)
  else ((m.1, m.2 ++ [true]), Some (ErrMsg "proto: illegal bool")).

#[export] Instance demoVT : VTMessage demoMsg := {|
  msg_type := fst;
  new_msg t := (t, []);
  SizeVT m := len m.2;
  MarshalToSizedBufferVT m buf :=
    if decide (len buf < len m.2) then Err (ErrMsg "short buffer")
    else Ok (take (length buf - length m.2) buf ++ (demo_byte <$> m.2), len m.2);
  UnmarshalVT := demo_parse;
  proto_Reset m := (m.1, []) |}.

Lemma demo_byte_parse l :
  forallb (λ z, (z =? 0) || (z =? 1)) (demo_byte <$> l) = true ∧ Z.eqb 1 <$> (demo_byte <$> l) = l.
Proof. induction l as [|[] l [IH1 IH2]]; [done|..]; cbn; (split; [done|]); by rewrite IH2. Qed.

#[export] Instance demoLaws : VTLaws demoMsg.
Proof.
  split; cbn.
  - done.
  - intros m b. unfold demo_parse. by case_match.
  - done.
  - intros m. apply len_nonneg.
  - intros [t l]. unfold demo_parse. cbn. by rewrite app_nil_r.
  - intros [t l] buf enc n Hl E. cbn in *. rewrite decide_False in E by lia. simplify_eq.
    replace (length buf - length l)%nat with 0%nat by (unfold len in *; lia).
    rewrite take_0, app_nil_l. unfold len. rewrite length_fmap. splits; [done..|].
    apply Forall_fmap, Forall_true. by intros [].
  - intros [t l] buf enc n Hl E. cbn in *. rewrite decide_False in E by lia. simplify_eq.
    replace (length buf - length l)%nat with 0%nat by (unfold len in *; lia).
    rewrite take_0, app_nil_l. unfold demo_parse. destruct (demo_byte_parse l) as [-> E2].
    cbn [fst snd app]. by rewrite E2.
Qed.
