(* ===== verification/Rpc.v ===== *)
(** * pkg/gnet/msgq/rpc.go: remote calls

    [RpcCall] frames a request for one node, waits for the answer on a private
    reply subject and parses it; [RpcRespond] publishes the answer. The NATS
    connection is a parameter. *)

From S2P Require Import Prelude Gmsg Batcher DataBus Proto.

Section Rpc.
Context {M : Type} `{VTMessage M}.

(** [stale n] are the first [n] bytes of the pooled buffer. *)
Context (stale : Z → bytes).

(** ** The answering side *)

(** [conn.Publish(reply, data)] of the rpc connection: its error, if any. The
    publications that succeeded are collected. *)
Definition RpcRespond (publish : string → bytes → go_error) (reply : string) (ack : M)
    (out : list (string * bytes)) : option (list (string * bytes) * go_error) :=
  if decide (reply = EmptyString) then Some (out, Some (ErrMsg "reply is empty"))
  else
    let buf := stale (SizeVT ack) in
    match MarshalToSizedBufferVT ack buf with
    | Err e => Some (out, Some e)
    | Ok (buf, n) =>
        data ← slice buf 0 n;
        match publish reply data with
        | Some e => Some (out, Some e)
        | None => Some (out ++ [(reply, data)], None)
        end
    end.

(** ** The calling side *)

(** [time.Second * 3], in nanoseconds. *)
Definition rpcDefaultTimeout : Z := 3000000000.

(** The request frame: the head is encoded at the front of the buffer, the body
    is marshalled behind it. *)
Definition rpcFrame (bs : DataBus) (req : M) (msgID toSer toSerID actorID : Z)
    : option (result bytes) :=
  let bodySize := FrameBodyHeadSize + SizeVT req in
  let totalSize := bodySize + FrameLenSize in
  let buf := stale totalSize in
  let head := {| ActorID := actorID; MsgID := msgID; Flag := 0; FromSer := bus_serType bs;
                 FromSerID := bus_serID bs; ToSer := u8 toSer; ToSerID := toSerID; SesID := 0 |} in
  buf ← Head_EncodeTo head buf bodySize;
  let bodyStart := FrameLenSize + FrameBodyHeadSize in
  hd ← slice buf 0 bodyStart;
  room ← slice buf bodyStart (len buf);
  match MarshalToSizedBufferVT req room with
  | Err e => Some (Err e)
  | Ok (body, n) =>
      buf ← slice (hd ++ body) 0 (bodyStart + n);
      Some (Ok buf)
  end.

(** [request subj data timeout] is the answer of [rpcConn.Request]; [connected]
    is [rpcConn != nil]. The result is the parsed answer (the caller's [res] object
    after the call), the subject cache, and the error. *)
Definition RpcCall (connected : bool) (request : string → bytes → Z → result bytes)
    (bs : DataBus) (req res : M) (toSer toSerID actorID timeOut : Z) (cache : gmap Z string)
    : option (M * gmap Z string * go_error) :=
  if bus_closed bs then Some (res, cache, Some ErrClosed)
  else if negb connected then Some (res, cache, Some (ErrMsg "rpc call: rpc conn nil"))
  else match GetMsgIDS2S req with
  | None => Some (res, cache, Some (ErrMsg "rpc call: msg id not found for type"))
  | Some msgID =>
      r ← rpcFrame bs req msgID toSer toSerID actorID;
      match r with
      | Err e => Some (res, cache, Some e)
      | Ok buf =>
          let '(subStr, cache) := rpcNodeSubjectName toSer toSerID cache in
          let timeOut := if decide (timeOut ≤ 0) then rpcDefaultTimeout else timeOut in
          match request subStr buf timeOut with
          | Err e => Some (res, cache, Some e)
          | Ok data => let '(res, err) := UnmarshalVT res data in Some (res, cache, err)
          end
      end
  end.

(** ** What is on the wire *)

Context `{!VTLaws M} (Hstale : ∀ n, 0 ≤ n → len (stale n) = n).

(** An answer never panics: it is published, or reported as an error. *)
Lemma RpcRespond_cases publish reply ack out :
  ∃ out' err, RpcRespond publish reply ack out = Some (out', err) ∧
    (out' = out ∧ is_Some err ∨
     ∃ enc n, MarshalToSizedBufferVT ack (stale (SizeVT ack)) = Ok (enc, n) ∧ publish reply enc = None ∧
       reply ≠ EmptyString ∧ out' = out ++ [(reply, enc)] ∧ err = None ∧
       UnmarshalVT (new_msg (msg_type ack)) enc = (ack, None)).
Proof.
  assert (Hl : len (stale (SizeVT ack)) = SizeVT ack) by apply Hstale, size_nonneg.
  unfold RpcRespond. case_decide; [eexists _, _; split; [done|]; by left; split|].
  destruct (MarshalToSizedBufferVT ack _) as [[enc n]|e] eqn:E; [|eexists _, _; split; [done|]; by left; split].
  destruct (marshal_fills _ _ _ _ Hl E) as (-> & He & _).
  assert (slice enc 0 (SizeVT ack) = Some enc) as ->.
  { rewrite <- (app_nil_r enc) at 1. by rewrite slice_prefix. }
  cbn [mbind option_bind]. destruct (publish reply enc) eqn:Ep; [eexists _, _; split; [done|]; by left; split|].
  eexists _, _. split; [done|]. right. exists enc, (SizeVT ack). splits; try done.
  exact (unmarshal_marshal _ _ _ _ Hl E).
Qed.

(** The frame of a request that marshals; one that does not gives the codec's error. *)
Lemma rpcFrame_cases bs req msgID toSer toSerID actorID :
  (∃ e, rpcFrame bs req msgID toSer toSerID actorID = Some (Err e) ∧
     ∃ buf, len buf = SizeVT req ∧ MarshalToSizedBufferVT req buf = Err e) ∨
  ∃ enc, rpcFrame bs req msgID toSer toSerID actorID = Some (Ok (frame (mkMessage
      {| ActorID := actorID; MsgID := msgID; Flag := 0; FromSer := bus_serType bs;
         FromSerID := bus_serID bs; ToSer := u8 toSer; ToSerID := toSerID; SesID := 0 |} enc EmptyString))) ∧
    UnmarshalVT (new_msg (msg_type req)) enc = (req, None) ∧ len enc = SizeVT req ∧ is_bytes enc.
Proof.
  pose proof (size_nonneg req) as Hs. unfold rpcFrame.
  set (h := {| ActorID := actorID |}). set (st := stale _).
  assert (Hst : len st = FrameBodyHeadSize + SizeVT req + FrameLenSize)
    by (apply Hstale; unfold FrameBodyHeadSize, FrameLenSize; lia).
  rewrite Head_EncodeTo_spec by lia. cbn [mbind option_bind].
  set (pre := le_split 4 _ ++ head_bytes _).
  assert (Hp : len pre = FrameLenSize + FrameBodyHeadSize) by (unfold pre; frames).
  assert (Hd : len (drop 29 st) = SizeVT req) by (unfold FrameBodyHeadSize, FrameLenSize in *; lens).
  rewrite slice_prefix by done. cbn [mbind option_bind].
  rewrite slice_suffix by (done || lens). cbn [mbind option_bind].
  destruct (MarshalToSizedBufferVT req (drop 29 st)) as [[enc n]|e] eqn:E; [right|left; by eauto].
  destruct (marshal_fills _ _ _ _ Hd E) as (-> & He & Hb).
  rewrite <- (app_nil_r (pre ++ enc)), slice_prefix by lens. cbn [mbind option_bind].
  exists enc. splits; [|exact (unmarshal_marshal _ _ _ _ Hd E)|done|done].
  unfold frame. cbn [msg_data msg_head]. rewrite He. unfold pre. by rewrite <- app_assoc.
Qed.

End Rpc.
