(* ===== verification/Router.v ===== *)
(** * pkg/gnet/router: message handlers and dispatch

    A [Router] is an array of handlers indexed by message id. A handler creates a
    message through its factory, fresh or from a pool, parses the payload into it
    and calls the registered function, which may change the message and the
    application's state [A]. *)

From S2P Require Import Prelude Gmsg Batcher DataBus Proto Rpc.

Section Router.
Context {M : Type} `{VTMessage M} {A : Type}.
Context (stale : Z → bytes) (publish : string → bytes → go_error).

(** Application state together with the rpc answers published. *)
Abbreviation world := (A * list (string * bytes))%type.

Definition handleFunc := Message → M → A → M * A.
Definition rpcFunc := Message → M → M → A → M * M * A.

(** ** Factories *)

Inductive MsgFactory :=
| poolFactory (create : M) (pool : list M)
| newFactory (create : M).

(** [pick] is [sync.Pool]'s choice of a pooled object, or none. *)
Definition factory_Get (pick : option nat) (f : MsgFactory) : M * MsgFactory :=
  match f with
  | newFactory c => (c, f)
  | poolFactory c pool =>
      match pick ≫= λ i, pair i <$> pool !! i with
      | Some (i, m) => (proto_Reset m, poolFactory c (take i pool ++ drop (S i) pool))
      | None => (proto_Reset c, f)
      end
  end.

Definition factory_Put (m : M) (f : MsgFactory) : MsgFactory :=
  match f with
  | poolFactory c pool => poolFactory c (m :: pool)
  | newFactory _ => f
  end.

(** ** Handlers *)

Inductive IHandler :=
| MsgHandler (factory : MsgFactory) (HandleFunc : handleFunc)
| RpcHandler (reqCreate resCreate : MsgFactory) (HandleFunc : rpcFunc).

(** [p.Data = nil] before the handler sees the message. *)
Definition clearData (p : Message) : Message := mkMessage (msg_head p) [] (msg_reply p).

(** The payload is parsed only when there is one. *)
Definition parse (m : M) (data : bytes) : M * go_error :=
  if decide (len data > 0) then UnmarshalVT m data else (m, None).

Definition MsgHandler_Handle (pick : option nat) (p : Message) (f : MsgFactory) (h : handleFunc) (w : world)
    : MsgFactory * world * go_error :=
  let '(m, f) := factory_Get pick f in
  let '(m, err) := parse m (msg_data p) in
  match err with
  | Some e => (factory_Put m f, w, Some e)
  | None =>
      let '(m, a) := h (clearData p) m w.1 in
      (factory_Put m f, (a, w.2), None)
  end.

(** [None] is a panic of [RpcRespond]. *)
Definition RpcHandler_Handle (pick pick2 : option nat) (p : Message) (fq fr : MsgFactory) (h : rpcFunc)
    (w : world) : option (MsgFactory * MsgFactory * world * go_error) :=
  let '(req, fq) := factory_Get pick fq in
  let '(req, err) := parse req (msg_data p) in
  match err with
  | Some e => Some (factory_Put req fq, fr, w, Some e)
  | None =>
      let '(res, fr) := factory_Get pick2 fr in
      let '(req, res, a) := h (clearData p) req res w.1 in
      '(out, err) ← RpcRespond stale publish (Reply p) res w.2;
      Some (factory_Put req fq, factory_Put res fr, (a, out), err)
  end.

(** ** The router *)

Record Router := mkRouter { handlers : list (option IHandler) }.

Definition NewMsgRouter (max : Z) : Router := mkRouter (replicate (Z.to_nat max) None).

(** The guards of [Register] and [RegisterRpc]. *)
Definition register_guard (ready : bool) (msgID : Z) (rt : Router) : go_error :=
  if ready then Some (ErrMsg "must register before action")
  else if decide (msgID >= len (handlers rt)) then Some (ErrMsg "msg id out of range")
  else match handlers rt !! Z.to_nat msgID with
       | Some (Some _) => Some (ErrMsg "msg id already register")
       | _ => None
       end.

Definition mkFactory (usePool : bool) (create : M) : MsgFactory :=
  if usePool then poolFactory create [] else newFactory create.

Definition set_handler (msgID : Z) (h : IHandler) (rt : Router) : Router :=
  mkRouter (<[Z.to_nat msgID := Some h]> (handlers rt)).

Definition Router_Register (ready : bool) (msgID : Z) (cf : M) (usePool : bool) (df : handleFunc) (rt : Router)
    : Router * go_error :=
  match register_guard ready msgID rt with
  | Some e => (rt, Some e)
  | None => (set_handler msgID (MsgHandler (mkFactory usePool cf) df) rt, None)
  end.

Definition Router_RegisterRpc (ready : bool) (msgID : Z) (createReq createRes : M) (usePool : bool)
    (df : rpcFunc) (rt : Router) : Router * go_error :=
  match register_guard ready msgID rt with
  | Some e => (rt, Some e)
  | None => (set_handler msgID (RpcHandler (mkFactory usePool createReq) (mkFactory usePool createRes) df) rt,
             None)
  end.

Definition getHandler (id : Z) (rt : Router) : result IHandler :=
  if decide (id >= len (handlers rt)) then Err (ErrMsg "msg id out of range")
  else match handlers rt !! Z.to_nat id with
       | Some (Some n) => Ok n
       | _ => Err (ErrMsg "msg handler not found")
       end.

Definition Router_Handle (pick pick2 : option nat) (p : Message) (rt : Router) (w : world)
    : option (Router * world * go_error) :=
  let id := MsgID (msg_head p) in
  match getHandler id rt with
  | Err e => Some (rt, w, Some e)
  | Ok (MsgHandler f h) =>
      let '(f, w, err) := MsgHandler_Handle pick p f h w in
      Some (set_handler id (MsgHandler f h) rt, w, err)
  | Ok (RpcHandler fq fr h) =>
      '(fq, fr, w, err) ← RpcHandler_Handle pick pick2 p fq fr h w;
      Some (set_handler id (RpcHandler fq fr h) rt, w, err)
  end.

(** ** Registration by message type *)

(** [register], [registerWithHead]: [req] is the zero value of the handler's
    message type; the handler function is given the message, and the head when it
    asks for it. [None] is the panic of a failed registration. *)
Definition register (ready usePool : bool) (req : M) (df : M → A → M * A) (rt : Router) : option Router :=
  match FindMsgIDAndCreateFunc req with
  | Err _ => None
  | Ok (msgID, createFunc) =>
      match Router_Register ready msgID createFunc usePool (λ _ m a, df m a) rt with
      | (_, Some _) => None
      | (rt, None) => Some rt
      end
  end.

Definition registerWithHead (ready usePool : bool) (req : M) (df : Head → M → A → M * A) (rt : Router)
    : option Router :=
  match FindMsgIDAndCreateFunc req with
  | Err _ => None
  | Ok (msgID, createFunc) =>
      match Router_Register ready msgID createFunc usePool (λ p m a, df (msg_head p) m a) rt with
      | (_, Some _) => None
      | (rt, None) => Some rt
      end
  end.

Definition registerRpc (ready usePool : bool) (req res : M) (df : M → M → A → M * M * A) (rt : Router)
    : option Router :=
  match FindMsgIDAndCreateFunc req with
  | Err _ => None
  | Ok (msgID, reqCreate) =>
      match Router_RegisterRpc ready msgID reqCreate (new_msg (msg_type res)) usePool
              (λ _ q r a, df q r a) rt with
      | (_, Some _) => None
      | (rt, None) => Some rt
      end
  end.

Definition On ready req df rt := register ready false req df rt.
Definition OnWithHead ready req df rt := registerWithHead ready false req df rt.
Definition OnP ready req df rt := register ready true req df rt.
Definition OnRpc ready req res df rt := registerRpc ready false req res df rt.
Definition OnRpcP ready req res df rt := registerRpc ready true req res df rt.

(** ** Pooling does not change what handlers compute *)

Section Pooling.
Context `{!VTLaws M}.

(** A factory for type [t]: every pooled object, whatever its contents, is of the
    type the factory creates. *)
Definition factory_ok (t : string) (f : MsgFactory) : Prop :=
  match f with
  | newFactory c => c = new_msg t
  | poolFactory c pool => c = new_msg t ∧ Forall (λ m, msg_type m = t) pool
  end.

Lemma factory_Get_ok t pick f :
  factory_ok t f → (factory_Get pick f).1 = new_msg t ∧ factory_ok t (factory_Get pick f).2.
Proof.
  destruct f as [c pool|c]; cbn; [|done]. intros [-> Hp].
  destruct (pick ≫= _) as [[i m]|] eqn:E; cbn; [|by rewrite reset_new, new_msg_type].
  destruct pick as [j|]; [|done]. cbn in E. destruct (pool !! j) as [m'|] eqn:Ei; [|done].
  cbn in E. simplify_eq. split.
  - rewrite reset_new. by rewrite (Forall_lookup_1 _ _ _ _ Hp Ei).
  - split; [done|]. apply Forall_app. split; [by apply Forall_take|by apply Forall_drop].
Qed.

Lemma factory_Put_ok t m f : msg_type m = t → factory_ok t f → factory_ok t (factory_Put m f).
Proof. destruct f; cbn; [|done]. intros Hm [-> Hp]. split; [done|by constructor]. Qed.

Lemma parse_type m data : msg_type (parse m data).1 = msg_type m.
Proof. unfold parse. case_decide; [apply unmarshal_type|done]. Qed.

(** Parsing without the length test is the same: an empty payload changes nothing. *)
Lemma parse_eq m data : parse m data = UnmarshalVT m data.
Proof.
  unfold parse. case_decide; [done|]. assert (data = []) as -> by (apply len_0_nil; lens).
  by rewrite unmarshal_nil.
Qed.

(** A Go handler cannot change the type of the object it is given. *)
Definition typed (h : handleFunc) : Prop := ∀ p m a, msg_type (h p m a).1 = msg_type m.
Definition typed_rpc (h : rpcFunc) : Prop :=
  ∀ p q r a, msg_type (h p q r a).1.1 = msg_type q ∧ msg_type (h p q r a).1.2 = msg_type r.

(** What a handler for message type [t] (and answer type [u]) means: parse into an
    empty message, call the function. *)
Inductive hspec := SMsg (t : string) (h : handleFunc) | SRpc (t u : string) (h : rpcFunc).

Definition spec_Handle (s : hspec) (p : Message) (w : world) : option (world * go_error) :=
  match s with
  | SMsg t h =>
      let '(m, err) := UnmarshalVT (new_msg t) (msg_data p) in
      Some (match err with
            | Some e => (w, Some e)
            | None => (((h (clearData p) m w.1).2, w.2), None)
            end)
  | SRpc t u h =>
      let '(q, err) := UnmarshalVT (new_msg t) (msg_data p) in
      match err with
      | Some e => Some (w, Some e)
      | None =>
          let '(_, r, a) := h (clearData p) q (new_msg u) w.1 in
          '(out, err) ← RpcRespond stale publish (Reply p) r w.2;
          Some ((a, out), err)
      end
  end.

Definition handler_ok (s : hspec) (h : IHandler) : Prop :=
  match s, h with
  | SMsg t g, MsgHandler f g' => g' = g ∧ typed g ∧ factory_ok t f
  | SRpc t u g, RpcHandler fq fr g' => g' = g ∧ typed_rpc g ∧ factory_ok t fq ∧ factory_ok u fr
  | _, _ => False
  end.

Lemma MsgHandler_Handle_ok t h pick p f w :
  typed h → factory_ok t f →
  let '(f', w', err) := MsgHandler_Handle pick p f h w in
  factory_ok t f' ∧ spec_Handle (SMsg t h) p w = Some (w', err).
Proof.
  intros Ht Hf. unfold MsgHandler_Handle. cbn [spec_Handle].
  pose proof (factory_Get_ok t pick f Hf) as [Hm Hf']. destruct (factory_Get pick f) as [m f1].
  cbn [fst snd] in *. subst m. rewrite parse_eq. pose proof (unmarshal_type (new_msg t) (msg_data p)) as Hu.
  destruct (UnmarshalVT (new_msg t) (msg_data p)) as [m [e|]]; cbn [fst] in Hu; rewrite new_msg_type in Hu.
  - split; [by apply factory_Put_ok|done].
  - pose proof (Ht (clearData p) m w.1) as Hh. destruct (h (clearData p) m w.1) as [m' a]. cbn [fst] in Hh.
    split; [apply factory_Put_ok; [congruence|done]|done].
Qed.

Lemma RpcHandler_Handle_ok t u h pick pick2 p fq fr w :
  typed_rpc h → factory_ok t fq → factory_ok u fr →
  match RpcHandler_Handle pick pick2 p fq fr h w with
  | Some (fq', fr', w', err) =>
      factory_ok t fq' ∧ factory_ok u fr' ∧ spec_Handle (SRpc t u h) p w = Some (w', err)
  | None => spec_Handle (SRpc t u h) p w = None
  end.
Proof.
  intros Ht Hq Hr. unfold RpcHandler_Handle. cbn [spec_Handle].
  pose proof (factory_Get_ok t pick fq Hq) as [Hm Hq']. destruct (factory_Get pick fq) as [m q1].
  cbn [fst snd] in *. subst m. rewrite parse_eq. pose proof (unmarshal_type (new_msg t) (msg_data p)) as Hu.
  destruct (UnmarshalVT (new_msg t) (msg_data p)) as [q [e|]]; cbn [fst] in Hu; rewrite new_msg_type in Hu.
  { splits; [by apply factory_Put_ok|done|done]. }
  pose proof (factory_Get_ok u pick2 fr Hr) as [Hm Hr']. destruct (factory_Get pick2 fr) as [r r1].
  cbn [fst snd] in *. subst r. pose proof (Ht (clearData p) q (new_msg u) w.1) as [H1 H2].
  destruct (h (clearData p) q (new_msg u) w.1) as [[q' r'] a]. cbn [fst snd] in *. rewrite new_msg_type in H2.
  destruct (RpcRespond stale publish (Reply p) r' w.2) as [[out err]|]; cbn [mbind option_bind]; [|done].
  splits; [apply factory_Put_ok; [congruence|done]..|done].
Qed.

(** The router refines a finite map from ids to handler meanings. *)
Definition router_ok (max : Z) (specs : gmap Z hspec) (rt : Router) : Prop :=
  len (handlers rt) = max ∧
  ∀ id, 0 ≤ id < max →
    match specs !! id, mjoin (handlers rt !! Z.to_nat id) with
    | Some s, Some h => handler_ok s h
    | None, None => True
    | _, _ => False
    end.

Definition spec_route (max : Z) (specs : gmap Z hspec) (p : Message) (w : world) : option (world * go_error) :=
  let id := MsgID (msg_head p) in
  if decide (id >= max) then Some (w, Some (ErrMsg "msg id out of range"))
  else match specs !! id with
       | None => Some (w, Some (ErrMsg "msg handler not found"))
       | Some s => spec_Handle s p w
       end.

Lemma set_handler_ok max specs rt id s h :
  router_ok max specs rt → 0 ≤ id < max → handler_ok s h →
  router_ok max (<[id := s]> specs) (set_handler id h rt).
Proof.
  intros [Hl Hr] Hid Hh. split; [unfold len in *; cbn; by rewrite length_insert|]. intros id' Hid'. cbn.
  destruct (decide (id = id')) as [->|Hn].
  - rewrite lookup_insert_eq, list_lookup_insert_eq by (unfold len in *; lia). done.
  - rewrite lookup_insert_ne, list_lookup_insert_ne by (done || lia). by apply Hr.
Qed.

Lemma Router_Handle_ok max specs rt pick pick2 p w :
  router_ok max specs rt → 0 ≤ MsgID (msg_head p) →
  match Router_Handle pick pick2 p rt w with
  | Some (rt', w', err) => router_ok max specs rt' ∧ spec_route max specs p w = Some (w', err)
  | None => spec_route max specs p w = None
  end.
Proof.
  intros Hok Hid. pose proof Hok as [Hl Hr]. unfold Router_Handle, getHandler, spec_route. rewrite Hl.
  set (id := MsgID (msg_head p)) in *. case_decide as Hd; [done|]. specialize (Hr id ltac:(lia)).
  destruct (specs !! id) as [s|] eqn:Es.
  - destruct (handlers rt !! Z.to_nat id) as [[h|]|]; cbn in Hr; [|done|done].
    destruct s as [t g|t u g], h as [f g'|fq fr g']; cbn in Hr; try done.
    + destruct Hr as (-> & Ht & Hf). pose proof (MsgHandler_Handle_ok t g pick p f w Ht Hf) as Hh.
      destruct (MsgHandler_Handle pick p f g w) as [[f' w'] err]. destruct Hh as [Hf' Hs]. split; [|done].
      rewrite <- (insert_id specs id (SMsg t g)) by done. apply set_handler_ok; [done|lia|done].
    + destruct Hr as (-> & Ht & Hq & Hf).
      pose proof (RpcHandler_Handle_ok t u g pick pick2 p fq fr w Ht Hq Hf) as Hh.
      destruct (RpcHandler_Handle pick pick2 p fq fr g w) as [[[[fq' fr'] w'] err]|]; cbn [mbind option_bind]; [|done].
      destruct Hh as (Hq' & Hf' & Hs). split; [|done].
      rewrite <- (insert_id specs id (SRpc t u g)) by done. apply set_handler_ok; [done|lia|done].
  - destruct (handlers rt !! Z.to_nat id) as [[h|]|]; cbn in Hr; [done|done|done].
Qed.

(** ** Histories: registrations, then messages *)

Record regReq := mkReg { rr_id : Z; rr_pool : bool; rr_spec : hspec }.

(** One registration call, with constructors of the handler's own types. *)
Definition regDo (ready : bool) (rt : Router) (r : regReq) : Router * go_error :=
  match rr_spec r with
  | SMsg t h => Router_Register ready (rr_id r) (new_msg t) (rr_pool r) h rt
  | SRpc t u h => Router_RegisterRpc ready (rr_id r) (new_msg t) (new_msg u) (rr_pool r) h rt
  end.

Definition regAll (ready : bool) (regs : list regReq) (st : Router * list go_error) : Router * list go_error :=
  fold_left (λ st r, let '(rt, e) := regDo ready st.1 r in (rt, st.2 ++ [e])) regs st.

(** The abstract table: the first registration of an id wins. *)
Definition specReg (max : Z) (st : gmap Z hspec * list go_error) (r : regReq) : gmap Z hspec * list go_error :=
  if decide (rr_id r >= max) then (st.1, st.2 ++ [Some (ErrMsg "msg id out of range")])
  else match st.1 !! rr_id r with
       | Some _ => (st.1, st.2 ++ [Some (ErrMsg "msg id already register")])
       | None => (<[rr_id r := rr_spec r]> st.1, st.2 ++ [None])
       end.
Definition specRegAll (max : Z) (regs : list regReq) st := fold_left (specReg max) regs st.

Definition typed_spec (s : hspec) : Prop :=
  match s with SMsg _ h => typed h | SRpc _ _ h => typed_rpc h end.

Lemma mkFactory_ok t b : factory_ok t (mkFactory b (new_msg t)).
Proof. by destruct b. Qed.

Lemma regDo_ok max specs errs rt r :
  router_ok max specs rt → 0 ≤ rr_id r → typed_spec (rr_spec r) →
  let '(rt', e) := regDo false rt r in
  let '(specs', errs') := specReg max (specs, errs) r in
  router_ok max specs' rt' ∧ errs' = errs ++ [e].
Proof.
  intros Hok Hid Ht. pose proof Hok as [Hl Hr]. unfold specReg. cbn [fst snd].
  assert (Hg : register_guard false (rr_id r) rt =
    if decide (rr_id r >= max) then Some (ErrMsg "msg id out of range")
    else match specs !! rr_id r with Some _ => Some (ErrMsg "msg id already register") | None => None end).
  { unfold register_guard. rewrite Hl. case_decide; [done|]. specialize (Hr (rr_id r) ltac:(lia)).
    destruct (specs !! rr_id r), (handlers rt !! Z.to_nat (rr_id r)) as [[]|]; cbn in Hr; done. }
  assert (Hs : ∀ h, handler_ok (rr_spec r) h → ¬ rr_id r >= max →
                router_ok max (<[rr_id r := rr_spec r]> specs) (set_handler (rr_id r) h rt)).
  { intros. apply set_handler_ok; [done|lia|done]. }
  unfold regDo. destruct (rr_spec r) as [t h|t u h]; cbn in Ht;
    unfold Router_Register, Router_RegisterRpc; rewrite Hg; case_decide; try done;
    destruct (specs !! rr_id r); try done; (split; [|done]); apply Hs; try done;
    cbn; eauto using mkFactory_ok.
Qed.

Lemma regAll_ok max regs specs errs rt :
  router_ok max specs rt → Forall (λ r, 0 ≤ rr_id r ∧ typed_spec (rr_spec r)) regs →
  router_ok max (specRegAll max regs (specs, errs)).1 (regAll false regs (rt, errs)).1 ∧
  (specRegAll max regs (specs, errs)).2 = (regAll false regs (rt, errs)).2.
Proof.
  intros Hok Hf. revert rt specs errs Hok. induction Hf as [|r regs [Hid Ht] _ IH]; intros; [done|]. cbn.
  pose proof (regDo_ok max specs errs rt r Hok Hid Ht) as Hd. destruct (regDo false rt r) as [rt' e].
  destruct (specReg max (specs, errs) r) as [specs' errs']. destruct Hd as [Hok' ->]. by apply IH.
Qed.

Lemma NewMsgRouter_ok max : 0 ≤ max → router_ok max ∅ (NewMsgRouter max).
Proof.
  intros. split; [unfold NewMsgRouter; cbn; lens|]. intros id Hid. rewrite lookup_empty. cbn.
  rewrite lookup_replicate_2 by lia. done.
Qed.

(** Messages handled one after the other; the choices of the pools accompany them. *)
Definition handleAll (ps : list (Message * option nat * option nat)) (st : option (Router * world * list go_error)) :=
  fold_left (λ st p, '(rt, w, es) ← st;
               '(rt, w, e) ← Router_Handle p.1.2 p.2 p.1.1 rt w; Some (rt, w, es ++ [e])) ps st.

Definition specHandleAll (max : Z) (specs : gmap Z hspec) (ms : list Message) (st : option (world * list go_error)) :=
  fold_left (λ st m, '(w, es) ← st; '(w, e) ← spec_route max specs m w; Some (w, es ++ [e])) ms st.

Lemma handleAll_none ps : handleAll ps None = None.
Proof. by induction ps. Qed.
Lemma specHandleAll_none max specs ms : specHandleAll max specs ms None = None.
Proof. by induction ms. Qed.

Lemma handleAll_ok max specs ps rt w es :
  router_ok max specs rt → Forall (λ p, 0 ≤ MsgID (msg_head p.1.1)) ps →
  (λ r, (r.1.2, r.2)) <$> handleAll ps (Some (rt, w, es)) =
  specHandleAll max specs (fst <$> (fst <$> ps)) (Some (w, es)).
Proof.
  intros Hok Hf. revert rt w es Hok. induction Hf as [|[[p pk] pk2] ps Hid _ IH]; intros; [done|]. cbn in Hid.
  pose proof (Router_Handle_ok max specs rt pk pk2 p w Hok Hid) as Hh.
  unfold handleAll, specHandleAll. cbn [fold_left mbind option_bind fmap list_fmap fst snd].
  destruct (Router_Handle pk pk2 p rt w) as [[[rt' w'] e]|]; cbn [mbind option_bind].
  - destruct Hh as [Hok' ->]. cbn [mbind option_bind]. by apply IH.
  - rewrite Hh. cbn [mbind option_bind]. fold (handleAll ps None).
    rewrite handleAll_none. cbn. symmetry. apply specHandleAll_none.
Qed.

End Pooling.
End Router.

(** ** Properties *)

(** C9. The router refines a table of handlers: for any registrations before the
    service is ready and any messages afterwards, whatever objects the pools hand
    out, the registration errors, the application state, the published answers and
    the handling errors are those of the table in which the first registration of
    an id wins and every message is parsed into an empty message of the handler's
    type. So object pooling is unobservable and no state leaks from one message to
    the next. Once ready, every registration is refused and changes nothing. *)
Theorem router_refines_table {M} `{VTLaws M} {A} stale publish max (regs : list (regReq (A:=A)))
    (ps : list (Message * option nat * option nat)) w :
  0 ≤ max → Forall (λ r, 0 ≤ rr_id r ∧ typed_spec (rr_spec r)) regs →
  Forall (λ p, 0 ≤ MsgID (msg_head p.1.1)) ps →
  let '(rt, errs) := regAll false regs (NewMsgRouter max, []) in
  let '(specs, errs') := specRegAll max regs (∅, []) in
  errs = errs' ∧
  (λ r, (r.1.2, r.2)) <$> handleAll stale publish ps (Some (rt, w, [])) =
    specHandleAll stale publish max specs (fst <$> (fst <$> ps)) (Some (w, [])) ∧
  ∀ r, regDo true rt r = (rt, Some (ErrMsg "must register before action")).
Proof.
  intros Hm Hr Hp. pose proof (regAll_ok max regs ∅ [] (NewMsgRouter max) (NewMsgRouter_ok max Hm) Hr) as [Hok He].
  destruct (regAll false regs _) as [rt errs]. destruct (specRegAll max regs _) as [specs errs']. cbn in *.
  splits; [done|by apply handleAll_ok|]. intros [id b [t h|t u h]]; done.
Qed.

(** Two registrations of one id and a pool that hands out a used object. *)
Definition demoCount : handleFunc (M:=demoMsg) (A:=list (Z * list bool)) :=
  λ p m a, ((m.1, true :: m.2), a ++ [(ActorID (msg_head p), m.2)]).

Definition demoAnswer : rpcFunc (M:=demoMsg) (A:=list (Z * list bool)) :=
  λ p q r a, (q, (r.1, negb <$> q.2), a).

Definition demoRegs : list (regReq (M:=demoMsg) (A:=list (Z * list bool))) :=
  [mkReg 3 true (SMsg "S2SEcho" demoCount); mkReg 3 false (SMsg "S2SEcho" demoCount);
   mkReg 5 true (SRpc "S2SRpcEchoReq" "S2SRpcEchoRes" demoAnswer); mkReg 9 true (SMsg "S2SNone" demoCount)].

Definition demoTo (id : Z) (data : bytes) : Message :=
  SetReply (mkMessage {| ActorID := 4; SesID := 0; MsgID := id; Flag := 0; FromSer := 0; FromSerID := 0;
                         ToSer := 0; ToSerID := 0 |} data EmptyString) "inbox".

Definition demoPs : list (Message * option nat * option nat) :=
  [(demoTo 3 [1; 0], None, None); (demoTo 3 [], Some 0%nat, None); (demoTo 5 [1], None, None);
   (demoTo 3 [7], Some 0%nat, None); (demoTo 8 [], None, None)].

Lemma router_refines_table_witness :
  let '(rt, errs) := regAll false demoRegs (NewMsgRouter 9, []) in
  let '(specs, errs') := specRegAll 9 demoRegs (∅, []) in
  errs = errs' ∧
  (λ r, (r.1.2, r.2)) <$> handleAll zeros (λ _ _, None) demoPs (Some (rt, ([], []), [])) =
    specHandleAll zeros (λ _ _, None) 9 specs (fst <$> (fst <$> demoPs)) (Some (([], []), [])) ∧
  ∀ r, regDo true rt r = (rt, Some (ErrMsg "must register before action")).
Proof.
  apply (router_refines_table zeros (λ _ _, None) 9 demoRegs demoPs ([], [])).
  - lia.
  - repeat constructor; cbn; try lia; unfold typed, typed_rpc; done.
  - repeat constructor; cbn; lia.
Defined.

(** The run of the example, evaluated: the pooled object of the first message does
    not show in the second. *)
Example demo_run :
  (λ r, (r.1.2, r.2)) <$> handleAll zeros (λ _ _, None) demoPs
    (Some ((regAll false demoRegs (NewMsgRouter 9, [])).1, ([], []), [])) =
  Some (([(4, [true; false]); (4, [])], [("inbox", [0])]),
        [None; None; None; Some (ErrMsg "proto: illegal bool"); Some (ErrMsg "msg handler not found")]).
Proof. vm_compute. reflexivity. Qed.
