(* ===== verification/Sender.v ===== *)
(** * pkg/gnet/sender.go and pkg/idgen: typed sending

    The generic senders marshal a message into a pooled buffer, hand it to the bus
    and free the buffer; errors are logged and dropped. Session ids carry the id of
    the gateway that made them, so an answer finds its gateway. *)

From S2P Require Import Prelude Gmsg Batcher DataBus Proto.

(** ** Session ids *)

(** The sonyflake library: [sf_NextID machine tick] is the id generated for a
    machine at some moment; [Decompose] gives the machine back. *)
Class Sonyflake := {
  sf_NextID : Z → Z → Z;
  sf_machine : Z → Z;
  sf_range m tick : is_i64 (sf_NextID m tick) ∧ 0 < sf_NextID m tick;
  sf_decompose m tick : 0 ≤ m < 2 ^ 16 → sf_machine (sf_NextID m tick) = m }.

(** [Init] of idgen: [created] is what the library's constructor gives. Its error is not
    returned: [sf] stays nil, and the first [Gen] panics ([None]). *)
Definition idgen_Init (created : result Z) : option Z * go_error :=
  (match created with Ok machine => Some machine | Err _ => None end, None).
Definition idgen_Gen `{Sonyflake} (sf : option Z) (tick : Z) : option Z := machine ← sf; Some (sf_NextID machine tick).

Lemma idgen_error_hidden `{Sonyflake} created tick :
  (idgen_Init created).2 = None ∧
  idgen_Gen (idgen_Init created).1 tick = match created with Ok m => Some (sf_NextID m tick) | Err _ => None end.
Proof. by destruct created. Qed.

Section Sender.
Context `{Sonyflake} {M : Type} `{VTMessage M}.

Definition MachineID (id : Z) : Z := sf_machine id.
Definition Gen (serverIdx tick : Z) : Z := sf_NextID serverIdx tick.
Definition GateIDFromSesID (gateID : Z) : Z := u8 (MachineID (i64 gateID)).

(** ** The senders *)

(** [cap], [stale] are the batch buffers' as in [DataBus]; [bstale] the old
    contents of the pooled 512-byte buffer and [pick] the pool's choice. *)
Context (cap : Z) (stale bstale : Z → bytes) (debug : bool).

Definition sendState : Type := BytesPool * DataBus.

Definition BufPool512 : BytesPool := NewBytesPoll 512.

(** The buffer's capacity, its first [size] bytes, and the pool. *)
Definition ensureBuf (pick : option nat) (size : Z) (p : BytesPool) : Z * bytes * BytesPool :=
  let '(c, p) := BytesPool_Get pick p in
  let c := if decide (c < size) then size else c in
  (c, bstale size, p).

(** The common body: marshal, send, free the buffer. *)
Definition sendWith (send : bytes → DataBus → option (DataBus * go_error)) (pick : option nat) (msg : M)
    (st : sendState) : option sendState :=
  let '(pBuf, buf, p) := ensureBuf pick (SizeVT msg) st.1 in
  match MarshalToSizedBufferVT msg buf with
  | Err _ => Some (BytesPool_Put pBuf p, st.2)
  | Ok (buf, n) =>
      buf ← slice buf 0 n;
      '(bus, _) ← send buf st.2;
      Some (BytesPool_Put pBuf p, bus)
  end.

Definition sendToClient (pick : option nat) (msgID : Z) (msg : M) (sesID roleID : Z) :=
  sendWith (λ d, ForwardToClient cap stale (GateIDFromSesID sesID) msgID d roleID sesID) pick msg.

Definition sendToNode (pick : option nat) (serType serID msgID : Z) (msg : M) (actorID sesID : Z) :=
  sendWith (λ d, SendToNode cap stale serType serID msgID d actorID sesID) pick msg.

Definition sendToAny (pick : option nat) (serType msgID : Z) (msg : M) (actorID sesID : Z) :=
  sendWith (λ d, SendToAny cap stale serType msgID d actorID sesID) pick msg.

Definition broadcastTo (pick : option nat) (serType msgID : Z) (msg : M) (actorID sesID : Z) :=
  sendWith (λ d, BroadcastTo cap stale serType msgID d actorID sesID) pick msg.

(** In debug builds the id must be the one registered for the message's type. *)
Definition idCheck (msgID : Z) (msg : M) (k : sendState → option sendState) (st : sendState) : option sendState :=
  if debug then
    match GetMsgIDS2S msg with
    | None => Some st
    | Some realMsgID => if decide (realMsgID ≠ msgID) then Some st else k st
    end
  else k st.

Definition SendToGate pick (msgID : Z) (msg : M) (sesID : Z) :=
  idCheck msgID msg (sendToNode pick Server_Gateway (GateIDFromSesID sesID) msgID msg 0 sesID).
Definition SendToGame pick (serID msgID : Z) (msg : M) (sesID actorID : Z) :=
  idCheck msgID msg (sendToNode pick Server_Game serID msgID msg actorID sesID).
Definition SendToAccount pick (msgID : Z) (msg : M) :=
  idCheck msgID msg (sendToAny pick Server_Account msgID msg 0 0).
Definition SendToCenter pick (msgID : Z) (msg : M) (actorID : Z) :=
  idCheck msgID msg (sendToAny pick Server_Center msgID msg actorID 0).

(** The variants that look the id up; a message without one is not sent. *)
Definition withMsgID (msg : M) (k : Z → sendState → option sendState) (st : sendState) : option sendState :=
  match GetMsgIDS2S msg with
  | None => Some st
  | Some msgID => k msgID st
  end.

Definition SendToGateS pick (msg : M) (sesID : Z) :=
  withMsgID msg (λ id, sendToNode pick Server_Gateway (GateIDFromSesID sesID) id msg 0 sesID).
Definition SendToGameS pick (serID : Z) (msg : M) (sesID actorID : Z) :=
  withMsgID msg (λ id, sendToNode pick Server_Game serID id msg actorID sesID).
Definition SendToAccountS pick (msg : M) :=
  withMsgID msg (λ id, sendToAny pick Server_Account id msg 0 0).
Definition SendToCenterS pick (msg : M) (actorID : Z) :=
  withMsgID msg (λ id, sendToAny pick Server_Center id msg actorID 0).

(** ** Sequences of sends *)

Inductive sendOp :=
| OpClient (msgID : Z) (msg : M) (sesID roleID : Z)
| OpBroadcast (serType msgID : Z) (msg : M) (actorID sesID : Z)
| OpGate (msgID : Z) (msg : M) (sesID : Z)
| OpGame (serID msgID : Z) (msg : M) (sesID actorID : Z)
| OpAccount (msgID : Z) (msg : M)
| OpCenter (msgID : Z) (msg : M) (actorID : Z)
| OpGateS (msg : M) (sesID : Z)
| OpGameS (serID : Z) (msg : M) (sesID actorID : Z)
| OpAccountS (msg : M)
| OpCenterS (msg : M) (actorID : Z).

Definition sendDo (st : sendState) (o : option nat * sendOp) : option sendState :=
  match o.2 with
  | OpClient id m s r => sendToClient o.1 id m s r st
  | OpBroadcast t id m a s => broadcastTo o.1 t id m a s st
  | OpGate id m s => SendToGate o.1 id m s st
  | OpGame i id m s a => SendToGame o.1 i id m s a st
  | OpAccount id m => SendToAccount o.1 id m st
  | OpCenter id m a => SendToCenter o.1 id m a st
  | OpGateS m s => SendToGateS o.1 m s st
  | OpGameS i m s a => SendToGameS o.1 i m s a st
  | OpAccountS m => SendToAccountS o.1 m st
  | OpCenterS m a => SendToCenterS o.1 m a st
  end.

Definition sendRun (ops : list (option nat * sendOp)) (st : option sendState) : option sendState :=
  fold_left (λ st o, st ← st; sendDo st o) ops st.

(** The message an operation carries, and the bus operation it comes to for a
    payload: none when the message id does not check. *)
Definition opMsg (o : sendOp) : M :=
  match o with
  | OpClient _ m _ _ | OpBroadcast _ _ m _ _ | OpGate _ m _ | OpGame _ _ m _ _ | OpAccount _ m
  | OpCenter _ m _ | OpGateS m _ | OpGameS _ m _ _ | OpAccountS m | OpCenterS m _ => m
  end.

Definition opBus (o : sendOp) (d : bytes) : option busOp :=
  let checked id m x := if debug then match GetMsgIDS2S m with
                                      | Some r => if decide (r = id) then Some x else None
                                      | None => None end else Some x in
  match o with
  | OpClient id m s r => Some (OForwardToClient (GateIDFromSesID s) id d r s)
  | OpBroadcast t id m a s => Some (OBroadcastTo t id d a s)
  | OpGate id m s => checked id m (OSendToNode Server_Gateway (GateIDFromSesID s) id d 0 s)
  | OpGame i id m s a => checked id m (OSendToNode Server_Game i id d a s)
  | OpAccount id m => checked id m (OSendToAny Server_Account id d 0 0)
  | OpCenter id m a => checked id m (OSendToAny Server_Center id d a 0)
  | OpGateS m s => (λ id, OSendToNode Server_Gateway (GateIDFromSesID s) id d 0 s) <$> GetMsgIDS2S m
  | OpGameS i m s a => (λ id, OSendToNode Server_Game i id d a s) <$> GetMsgIDS2S m
  | OpAccountS m => (λ id, OSendToAny Server_Account id d 0 0) <$> GetMsgIDS2S m
  | OpCenterS m a => (λ id, OSendToAny Server_Center id d a 0) <$> GetMsgIDS2S m
  end.

(** ** Every sender is one bus operation on the message's encoding *)

Context `{!VTLaws M} (Hb : ∀ n, 0 ≤ n → len (bstale n) = n).
Context (Hm : ∀ buf (m : M), len buf = SizeVT m → is_ok (MarshalToSizedBufferVT m buf) = true).

(** The encoding of [m], in a buffer with the given old contents. *)
Definition encoding (m : M) : bytes :=
  match MarshalToSizedBufferVT m (bstale (SizeVT m)) with Ok (b, _) => b | Err _ => [] end.

Lemma encoding_spec m :
  MarshalToSizedBufferVT m (bstale (SizeVT m)) = Ok (encoding m, SizeVT m) ∧
  len (encoding m) = SizeVT m ∧ UnmarshalVT (new_msg (msg_type m)) (encoding m) = (m, None).
Proof.
  pose proof (Hb _ (size_nonneg m)) as Hl. pose proof (Hm _ m Hl) as Hok. unfold encoding.
  destruct (MarshalToSizedBufferVT m _) as [[e n]|] eqn:E; [|done].
  destruct (marshal_fills _ _ _ _ Hl E) as (-> & He & _). splits; [done..|].
  exact (unmarshal_marshal _ _ _ _ Hl E).
Qed.

Lemma sendWith_spec send pick m st bus err :
  send (encoding m) st.2 = Some (bus, err) →
  ∃ p, sendWith send pick m st = Some (p, bus).
Proof.
  intros E. unfold sendWith, ensureBuf. destruct (BytesPool_Get pick st.1) as [c p].
  destruct (encoding_spec m) as (-> & He & _).
  rewrite <- (app_nil_r (encoding m)), slice_prefix by done. cbn [mbind option_bind].
  rewrite E. cbn [mbind option_bind]. eauto.
Qed.

(** The two guards, against the bus operation [x] they let through. *)
Lemma idCheck_spec id (m : M) k st bus err x :
  (busDo cap stale st.2 x = Some (bus, err) → ∃ p, k st = Some (p, bus)) →
  match (if debug then match GetMsgIDS2S m with
                       | Some r => if decide (r = id) then Some x else None
                       | None => None end else Some x) with
  | Some b => busDo cap stale st.2 b = Some (bus, err)
  | None => bus = st.2
  end → ∃ p, idCheck id m k st = Some (p, bus).
Proof.
  intros Hk. unfold idCheck. destruct debug; [|done].
  destruct (GetMsgIDS2S m) as [r|]; [|intros ->; destruct st; eauto].
  destruct (decide (r = id)) as [->|Hn].
  - by rewrite decide_False by (intros []; done).
  - rewrite decide_True by done. intros ->. destruct st; eauto.
Qed.

Lemma withMsgID_spec (m : M) k st bus err (x : Z → busOp) :
  (∀ id, busDo cap stale st.2 (x id) = Some (bus, err) → ∃ p, k id st = Some (p, bus)) →
  match x <$> GetMsgIDS2S m with
  | Some b => busDo cap stale st.2 b = Some (bus, err)
  | None => bus = st.2
  end → ∃ p, withMsgID m k st = Some (p, bus).
Proof.
  intros Hk. unfold withMsgID. destruct (GetMsgIDS2S m) as [id|]; cbn; [apply Hk|].
  intros ->. destruct st; eauto.
Qed.

Lemma sendDo_spec st o bus err :
  match opBus o.2 (encoding (opMsg o.2)) with
  | Some b => busDo cap stale st.2 b = Some (bus, err)
  | None => bus = st.2
  end → ∃ p, sendDo st o = Some (p, bus).
Proof.
  destruct o as [pick o].
  destruct o; cbn [opBus opMsg sendDo fst snd busDo];
    unfold SendToGate, SendToGame, SendToAccount, SendToCenter, SendToGateS, SendToGameS, SendToAccountS,
      SendToCenterS, sendToClient, sendToNode, sendToAny, broadcastTo.
  1, 2: intros E; exact (sendWith_spec _ pick _ st bus err E).
  1-4: apply idCheck_spec; intros E; exact (sendWith_spec _ pick _ st bus err E).
  all: apply withMsgID_spec; intros id E; exact (sendWith_spec _ pick _ st bus err E).
Qed.

Lemma sendRun_spec ops p bus bus' :
  busRun cap stale (omap (λ o, opBus o.2 (encoding (opMsg o.2))) ops) (Some bus) = Some bus' →
  ∃ p', sendRun ops (Some (p, bus)) = Some (p', bus').
Proof.
  revert p bus. induction ops as [|o ops IH]; intros p bus.
  { cbn. intros [= <-]. eauto. }
  cbn [omap list_omap]. pose proof (sendDo_spec (p, bus) o) as Hd. cbn [snd] in Hd.
  unfold sendRun. cbn [fold_left mbind option_bind]. destruct (opBus o.2 _) as [b|] eqn:Eb.
  - unfold busRun. cbn [fold_left mbind option_bind].
    destruct (busDo cap stale bus b) as [[bus1 e1]|] eqn:E1; cbn [mbind option_bind].
    + destruct (Hd bus1 e1 eq_refl) as [p1 ->]. apply IH.
    + intros Hr. exfalso. clear -Hr. induction (omap _ ops) as [|x l IH]; cbn in Hr; [done|auto].
  - destruct (Hd bus None eq_refl) as [p1 ->]. apply IH.
Qed.

(** The heads and messages the operations address to slot [k], in order. *)
Definition targets (st si : Z) (k : bkey) (ops : list (option nat * sendOp)) : list (Head * M) :=
  omap (λ o, b ← opBus o.2 (encoding (opMsg o.2)); '(k', m) ← opTarget st si b;
             if decide (k' = k) then Some (msg_head m, opMsg o.2) else None) ops.

(** A received message is the sent one: same head, and the payload parses to it. *)
Definition arrives (reply : string) (x : Head * M) (m : Message) : Prop :=
  msg_head m = x.1 ∧ msg_reply m = reply ∧
  UnmarshalVT (new_msg (msg_type x.2)) (msg_data m) = (x.2, None).

Lemma opBus_data st si o d b k m :
  opBus o d = Some b → opTarget st si b = Some (k, m) → msg_data m = d.
Proof.
  unfold opBus. destruct o; generalize (GetMsgIDS2S msg) as id; generalize GateIDFromSesID as gate; intros gate id;
    destruct debug, id as [r|]; try case_decide; cbn [fmap option_fmap option_map];
    intros E; try discriminate E; injection E as <-; cbn [opTarget]; intros E; injection E as <- <-; reflexivity.
Qed.

Lemma targets_arrive st si k ops reply :
  Forall2 (arrives reply) (targets st si k ops)
    ((λ m, SetReply m reply) <$> sentTo st si k (omap (λ o, opBus o.2 (encoding (opMsg o.2))) ops)).
Proof.
  induction ops as [|o ops IH]; [constructor|]. unfold targets, sentTo in *. cbn [omap list_omap].
  destruct (opBus o.2 (encoding (opMsg o.2))) as [b|] eqn:Eb; cbn [mbind option_bind]; [|done].
  cbn [omap list_omap]. destruct (opTarget st si b) as [[k' m]|] eqn:Et; cbn [mbind option_bind]; [|done].
  case_decide; [|done]. cbn [fmap list_fmap]. constructor; [|done].
  unfold arrives. cbn [fst snd SetReply msg_head msg_reply msg_data]. splits; [done..|].
  rewrite (opBus_data _ _ _ _ _ _ _ Eb Et). apply encoding_spec.
Qed.

Context (Hcap : buffSize ≤ cap) (Hstale : ∀ n, 0 ≤ n → len (stale n) = n).

Lemma sendRun_delivers st si ops k reply :
  let bops := omap (λ o, opBus o.2 (encoding (opMsg o.2))) ops in
  Forall opOk bops → in_table k → known_key k → Forall msg_wf (sentTo st si k bops) →
  ∃ p bs ms, sendRun ops (Some (BufPool512, freshBus st si)) = Some (p, bs) ∧
    mjoin <$> mapM (received reply) (on_subject (subject_of k) (published (λ _, true) (bus_wire (Close bs)))) = Some ms ∧
    Forall2 (arrives reply) (targets st si k ops) ms.
Proof.
  intros bops Hok Hk Hn Hw. destruct (busRun_inv cap stale st si bops) as (bs & E & Hinv); [done..|].
  destruct (sendRun_spec ops BufPool512 _ _ E) as [p Ep].
  destruct (Close_spec st si bs _ Hinv) as (_ & Ht & Hs). destruct (Hs k Hk) as [(mss & H1 & H2) _].
  destruct (tasks_received reply _ mss H1) as (l & El & Ej); [by rewrite H2|].
  exists p, bs, (mjoin l). splits; [done| |].
  - rewrite published_all, on_subject_key by done. rewrite El. done.
  - rewrite Ej, H2. apply targets_arrive.
Qed.

Lemma gate_of_session g tick : 0 ≤ g < 256 → GateIDFromSesID (Gen g tick) = g.
Proof.
  intros Hg. unfold GateIDFromSesID, MachineID, Gen. rewrite i64_id by apply sf_range.
  rewrite sf_decompose by lia. apply u8_id. width.
Qed.

End Sender.

(** ** Properties *)

(** Typed messages arrive as themselves: after any sequence of the generic
    senders, whatever buffers the pool hands out and whatever they held before, when every
    publication succeeds, a
    subscriber of a slot's subject receives exactly the messages addressed to it,
    in order, each with the head its sender prescribes and a payload that parses
    back to the message sent; a message whose id does not check is not sent, and
    nothing panics. *)
Theorem typed_senders_deliver `{Sonyflake} {M} `{VTLaws M} cap stale bstale debug st si
    (ops : list (option nat * sendOp (M:=M))) k reply :
  buffSize ≤ cap → (∀ n, 0 ≤ n → len (stale n) = n) → (∀ n, 0 ≤ n → len (bstale n) = n) →
  (∀ buf (m : M), len buf = SizeVT m → is_ok (MarshalToSizedBufferVT m buf) = true) →
  let bops := omap (λ o, opBus debug o.2 (encoding bstale (opMsg o.2))) ops in
  Forall opOk bops → in_table k → known_key k → Forall msg_wf (sentTo st si k bops) →
  ∃ p bs ms, sendRun cap stale bstale debug ops (Some (BufPool512, freshBus st si)) = Some (p, bs) ∧
    mjoin <$> mapM (received reply) (on_subject (subject_of k) (published (λ _, true) (bus_wire (Close bs)))) = Some ms ∧
    Forall2 (arrives reply) (targets bstale debug st si k ops) ms.
Proof. intros. by apply sendRun_delivers. Qed.

(** A sonyflake for the examples: 63-bit ids with the machine in the low 16 bits. *)
#[export] Program Instance demoFlake : Sonyflake := {|
  sf_NextID m tick := Z.abs (tick mod 2 ^ 30) * 2 ^ 16 + (m mod 2 ^ 16) + 2 ^ 50;
  sf_machine id := id mod 2 ^ 16 |}.
Next Obligation.
  intros m tick. pose proof (Z.mod_pos_bound tick (2 ^ 30)). pose proof (Z.mod_pos_bound m (2 ^ 16)).
  unfold is_i64. lia.
Qed.
Next Obligation.
  intros m tick Hm. cbn. rewrite (Z.mod_small m) by done.
  replace (_ + _ + _) with (m + (Z.abs (tick mod 2 ^ 30) + 2 ^ 34) * 2 ^ 16) by lia.
  rewrite Z.mod_add by lia. by rewrite Z.mod_small.
Qed.

Definition demoOps : list (option nat * sendOp (M:=demoMsg)) :=
  [(None, OpGameS 1 ("S2SEcho", [true]) 5 6); (Some 0%nat, OpGame 1 9 ("S2SEcho", [true]) 5 6);
   (None, OpGame 1 22 ("S2SEcho", [false; true]) 5 7); (None, OpClient 101 ("S2CLogin", []) (Gen 3 9) 6)].

Lemma typed_senders_deliver_witness :
  ∃ p bs ms,
    sendRun buffSize zeros zeros true demoOps (Some (BufPool512, freshBus 3 2)) = Some (p, bs) ∧
    mjoin <$> mapM (received "r") (on_subject "msg.Game.node.1" (published (λ _, true) (bus_wire (Close bs)))) = Some ms ∧
    Forall2 (arrives (M:=demoMsg) "r") (targets zeros true 3 2 (KNode 2 1) demoOps) ms ∧
    (snd <$> targets zeros true 3 2 (KNode 2 1) demoOps) = [("S2SEcho", [true]); ("S2SEcho", [false; true])].
Proof.
  destruct (typed_senders_deliver buffSize zeros zeros true 3 2 demoOps (KNode 2 1) "r")
    as (p & bs & ms & H1 & H2 & H3).
  - done.
  - exact len_zeros.
  - exact len_zeros.
  - intros buf m Hl. cbn in *. by rewrite decide_False by lia.
  - repeat constructor; vm_compute; intuition congruence.
  - done.
  - by eexists.
  - dec.
  - exists p, bs, ms. splits; [exact H1|exact H2|exact H3|vm_compute; reflexivity].
Defined.

(** An answer finds its client: for a session id generated by gateway [g] (an id
    below 64, the bus's table size), every [SendToClient] and [SendToGate] for the
    session is addressed to node [g] of the gateway service and carries the session
    id, and the client messages alone carry the forward flag. *)
Theorem session_reaches_its_gateway `{Sonyflake} {M} `{VTMessage M} debug st si g tick msgID (msg : M) roleID d :
  0 ≤ g < 64 →
  let ses := Gen g tick in
  let h fl actor := {| ActorID := actor; SesID := ses; MsgID := msgID; Flag := fl; FromSer := st;
                       FromSerID := si; ToSer := Server_Gateway; ToSerID := g |} in
  in_table (KNode Server_Gateway g) ∧
  (opBus debug (OpClient msgID msg ses roleID) d ≫= opTarget st si) =
    Some (KNode Server_Gateway g, mkMessage (h Forward roleID) d EmptyString) ∧
  (GetMsgIDS2S msg = Some msgID →
   (opBus debug (OpGate msgID msg ses) d ≫= opTarget st si) =
     Some (KNode Server_Gateway g, mkMessage (h 0 0) d EmptyString)).
Proof.
  intros Hg ses h. splits.
  - unfold in_table, key_check, Server_Gateway, SvcTypeMax, SvcIDMax. by repeat rewrite decide_False by lia.
  - unfold h, ses. cbn [opBus mbind option_bind opTarget]. by rewrite gate_of_session by lia.
  - intros E. unfold h, ses. cbn [opBus]. rewrite E, decide_True, gate_of_session by (done || lia).
    by destruct debug.
Qed.

Lemma session_reaches_its_gateway_witness :
  (opBus true (OpClient 101 (("S2CLogin", []) : demoMsg) (Gen 3 9) 6) [7] ≫= opTarget 2 1) =
    Some (KNode Server_Gateway 3, mkMessage {| ActorID := 6; SesID := Gen 3 9; MsgID := 101; Flag := Forward;
      FromSer := 2; FromSerID := 1; ToSer := Server_Gateway; ToSerID := 3 |} [7] EmptyString).
Proof.
  refine (proj1 (proj2 (session_reaches_its_gateway true 2 1 3 9 101 (("S2CLogin", []) : demoMsg) 6 [7] _))). lia.
Defined.
