(* ===== verification/Sharded.v ===== *)
(** * Sharded maps

    The gateway's session table, the game's role registry and the center's table of
    online roles each split a map over an array of locked maps, indexed by the low
    bits of the key. Each access locks one shard, so each is atomic. The shared
    structure is modelled once and refined by a single map. *)

From S2P Require Import Prelude.

Abbreviation shards V := (list (gmap Z V)).

Section Sharded.
Context {V : Type}.

Definition mkShards (shardCount : Z) : shards V := replicate (Z.to_nat shardCount) ∅.

(** [shards[id & (shardCount-1)]]. *)
Definition shardIdx (shardCount id : Z) : nat := Z.to_nat (Z.land id (shardCount - 1)).

(** [None] is an index out of range. *)
Definition getShard (n id : Z) (s : shards V) : option (gmap Z V) := s !! shardIdx n id.

Definition sAdd (n id : Z) (data : V) (s : shards V) : option (shards V) :=
  sh ← getShard n id s; Some (<[shardIdx n id := <[id := data]> sh]> s).

Definition sRemove (n id : Z) (s : shards V) : option (shards V) :=
  sh ← getShard n id s; Some (<[shardIdx n id := delete id sh]> s).

Definition sGet (n id : Z) (s : shards V) : option (option V) :=
  sh ← getShard n id s; Some (sh !! id).

Definition sCount (s : shards V) : Z := fold_left (λ c sh, c + Z.of_nat (size sh)) s 0.

(** ** Refinement by one map *)

(** Every key sits in its own shard, and the shards together are [m]. *)
Definition refines (n : Z) (s : shards V) (m : gmap Z V) : Prop :=
  len s = n ∧ (∀ id sh, 0 ≤ id → s !! shardIdx n id = Some sh → sh !! id = m !! id) ∧
  sCount s = Z.of_nat (size m).

Lemma shardIdx_lt n id : 0 < n → (shardIdx n id < Z.to_nat n)%nat.
Proof.
  intros Hn. unfold shardIdx. pose proof (land_le_r id (n - 1)). lia.
Qed.

Lemma getShard_total n id s : 0 < n → len s = n → is_Some (getShard n id s).
Proof. intros Hn Hl. apply lookup_lt_is_Some. pose proof (shardIdx_lt n id Hn). unfold len in Hl. lia. Qed.

Lemma sCount_acc (s : shards V) c : fold_left (λ c sh, c + Z.of_nat (size sh)) s c = c + sCount s.
Proof.
  unfold sCount. revert c. induction s as [|sh s IH]; intros c; cbn [fold_left]; [lia|].
  rewrite IH, (IH (0 + _)). lia.
Qed.

Lemma sCount_cons (sh : gmap Z V) s : sCount (sh :: s) = Z.of_nat (size sh) + sCount s.
Proof. unfold sCount at 1. cbn [fold_left]. rewrite sCount_acc. lia. Qed.

Lemma sCount_insert s i (sh sh' : gmap Z V) :
  s !! i = Some sh → sCount (<[i := sh']> s) = sCount s - Z.of_nat (size sh) + Z.of_nat (size sh').
Proof.
  revert i. induction s as [|x s IH]; intros [|i] E; cbn in E; [done|done| |].
  - simplify_eq. change (<[0%nat := sh']> (sh :: s)) with (sh' :: s). rewrite !sCount_cons. lia.
  - change (<[S i := sh']> (x :: s)) with (x :: <[i := sh']> s). rewrite !sCount_cons, (IH i) by done. lia.
Qed.

Lemma mkShards_refines n : 0 < n → refines n (mkShards n) ∅.
Proof.
  intros Hn. unfold refines, mkShards. splits; [lens| |].
  - intros id sh _ E. apply lookup_replicate in E as [-> _]. done.
  - rewrite map_size_empty. generalize (Z.to_nat n). induction n0 as [|k IH]; [done|].
    cbn [replicate]. rewrite sCount_cons, IH, map_size_empty. done.
Qed.

(** An update of one key in its shard. *)
Lemma refines_update n s m id sh sh' m' :
  0 ≤ id → 0 < n → refines n s m → getShard n id s = Some sh →
  (∀ k, k ≠ id → sh' !! k = sh !! k) → (∀ k, k ≠ id → m' !! k = m !! k) → sh' !! id = m' !! id →
  Z.of_nat (size sh') - Z.of_nat (size sh) = Z.of_nat (size m') - Z.of_nat (size m) →
  refines n (<[shardIdx n id := sh']> s) m'.
Proof.
  intros Hid Hn (Hl & Hr & Hc) E H1 H2 H3 H4. unfold getShard in E. unfold refines. splits.
  - unfold len in *. by rewrite length_insert.
  - intros k shk Hk Ek. destruct (decide (shardIdx n k = shardIdx n id)) as [Ei|Ei].
    + rewrite Ei, list_lookup_insert_eq in Ek by (by eapply lookup_lt_Some). simplify_eq.
      destruct (decide (k = id)) as [->|Hne]; [done|].
      rewrite H1, H2 by done. apply Hr; [done|]. by rewrite Ei.
    + rewrite list_lookup_insert_ne in Ek by done. rewrite H2; [by apply Hr|]. by intros ->.
  - rewrite (sCount_insert _ _ sh) by done. lia.
Qed.

Lemma sAdd_refines n s m id v :
  0 < n → 0 ≤ id → refines n s m → ∃ s', sAdd n id v s = Some s' ∧ refines n s' (<[id := v]> m).
Proof.
  intros Hn Hid Hr. destruct (getShard_total n id s Hn (proj1 Hr)) as [sh E]. unfold sAdd. rewrite E.
  eexists. split; [done|]. destruct Hr as (Hl & Hk & Hc).
  pose proof (Hk id sh Hid E) as Hv.
  eapply refines_update; [done|done|done|done|intros; by rewrite lookup_insert_ne
    |intros; by rewrite lookup_insert_ne|by rewrite !lookup_insert_eq|].
  rewrite !map_size_insert, Hv. destruct (m !! id); cbn; lia.
Qed.

Lemma sRemove_refines n s m id :
  0 < n → 0 ≤ id → refines n s m → ∃ s', sRemove n id s = Some s' ∧ refines n s' (delete id m).
Proof.
  intros Hn Hid Hr. destruct (getShard_total n id s Hn (proj1 Hr)) as [sh E]. unfold sRemove. rewrite E.
  eexists. split; [done|]. destruct Hr as (Hl & Hk & Hc).
  pose proof (Hk id sh Hid E) as Hv.
  eapply refines_update; [done|done|done|done|intros; by rewrite lookup_delete_ne
    |intros; by rewrite lookup_delete_ne|by rewrite !lookup_delete_eq|].
  rewrite !map_size_delete, Hv. destruct (m !! id) eqn:Em; cbn; [|lia].
  assert (size sh ≠ 0%nat) by (intros Z0%map_size_empty_iff; subst; by rewrite lookup_empty in Hv).
  assert (size m ≠ 0%nat) by (intros Z0%map_size_empty_iff; subst; by rewrite lookup_empty in Em).
  lia.
Qed.

Lemma sGet_refines n s m id : 0 < n → 0 ≤ id → refines n s m → sGet n id s = Some (m !! id).
Proof.
  intros Hn Hid Hr. destruct (getShard_total n id s Hn (proj1 Hr)) as [sh E]. unfold sGet. rewrite E.
  cbn. f_equal. destruct Hr as (_ & Hk & _). by apply Hk.
Qed.

(** ** Where the keys are *)

(** Every key lies in the shard of its own index. *)
Definition placed (n : Z) (s : shards V) : Prop :=
  ∀ i sh k v, s !! i = Some sh → sh !! k = Some v → i = shardIdx n k ∧ 0 ≤ k.

Lemma mkShards_placed n : placed n (mkShards n).
Proof. intros i sh k v E Ek. apply lookup_replicate in E as [-> _]. by rewrite lookup_empty in Ek. Qed.

Lemma insert_placed n i (sh sh' : gmap Z V) s :
  placed n s → s !! i = Some sh →
  (∀ k v, sh' !! k = Some v → sh !! k = Some v ∨ (i = shardIdx n k ∧ 0 ≤ k)) → placed n (<[i := sh']> s).
Proof.
  intros Hp Ei Hs j x k v Ej Ek. destruct (decide (i = j)) as [->|].
  - rewrite list_lookup_insert_eq in Ej by (by eapply lookup_lt_Some). simplify_eq.
    destruct (Hs k v Ek) as [E|]; [by eapply Hp|done].
  - rewrite list_lookup_insert_ne in Ej by done. by eapply Hp.
Qed.

Lemma sAdd_placed n id v s s' : 0 ≤ id → placed n s → sAdd n id v s = Some s' → placed n s'.
Proof.
  intros Hid Hp. unfold sAdd, getShard. destruct (s !! shardIdx n id) as [sh|] eqn:E; [|done]. cbn. intros [= <-].
  eapply insert_placed; [done|done|]. intros k w Ek. destruct (decide (k = id)) as [->|]; [by right|].
  left. by rewrite lookup_insert_ne in Ek.
Qed.

Lemma sRemove_placed n id s s' : placed n s → sRemove n id s = Some s' → placed n s'.
Proof.
  intros Hp. unfold sRemove, getShard. destruct (s !! shardIdx n id) as [sh|] eqn:E; [|done]. cbn. intros [= <-].
  eapply insert_placed; [done|done|]. intros k w Ek. left. by apply lookup_delete_Some in Ek as [_ ?].
Qed.

Lemma placed_NoDup n (s : shards V) : placed n s → NoDup (mjoin (map_to_list <$> s)).
Proof.
  unfold placed. intros Hp. assert (Hd : ∀ i j si sj k v w, s !! i = Some si → s !! j = Some sj →
    si !! k = Some v → sj !! k = Some w → i = j).
  { intros i j si sj k v w Hi Hj Hk Hk'. destruct (Hp _ _ _ _ Hi Hk), (Hp _ _ _ _ Hj Hk'). congruence. }
  clear Hp. induction s as [|sh s IH]; [constructor|]. cbn. apply NoDup_app. splits.
  - apply NoDup_map_to_list.
  - intros [k v] Hk%elem_of_map_to_list (l & Hl & Hl')%list_elem_of_join. apply list_elem_of_fmap in Hl' as (x & -> & Hx).
    apply elem_of_map_to_list in Hl. apply list_elem_of_lookup in Hx as [j Hj].
    by specialize (Hd 0%nat (S j) _ _ _ _ _ eq_refl Hj Hk Hl).
  - apply IH. intros i j si sj k v w Hi Hj H1 H2. by specialize (Hd (S i) (S j) _ _ _ _ _ Hi Hj H1 H2) as [= ->].
Qed.

(** The entries of all shards are the entries of the map. *)
Lemma refines_entries n s m :
  0 < n → refines n s m → placed n s → (∀ k v, m !! k = Some v → 0 ≤ k) →
  mjoin (map_to_list <$> s) ≡ₚ map_to_list m.
Proof.
  intros Hn (Hl & Hr & _) Hp Hm. apply NoDup_Permutation; [by eapply placed_NoDup|apply NoDup_map_to_list|].
  intros [k v]. rewrite list_elem_of_join, elem_of_map_to_list. split.
  - intros (l & Hk & Hx). apply list_elem_of_fmap in Hx as (sh & -> & Hsh). apply elem_of_map_to_list in Hk.
    apply list_elem_of_lookup in Hsh as [i Hi]. destruct (Hp _ _ _ _ Hi Hk) as [-> H0]. by rewrite <- (Hr k sh).
  - intros Hk. destruct (getShard_total n k s Hn Hl) as [sh E]. exists (map_to_list sh). split.
    + apply elem_of_map_to_list. rewrite (Hr k sh); eauto.
    + apply list_elem_of_fmap. exists sh. split; [done|]. by eapply list_elem_of_lookup_2.
Qed.

(** Histories of accesses. *)
Inductive shOp := ShAdd (id : Z) (v : V) | ShRemove (id : Z) | ShGet (id : Z) | ShCount.
Inductive shRes := RUnit | RGet (v : option V) | RCount (c : Z).

Definition shDo (n : Z) (s : shards V) (o : shOp) : option (shards V * shRes) :=
  match o with
  | ShAdd id v => s' ← sAdd n id v s; Some (s', RUnit)
  | ShRemove id => s' ← sRemove n id s; Some (s', RUnit)
  | ShGet id => r ← sGet n id s; Some (s, RGet r)
  | ShCount => Some (s, RCount (sCount s))
  end.

Definition mapDo (m : gmap Z V) (o : shOp) : gmap Z V * shRes :=
  match o with
  | ShAdd id v => (<[id := v]> m, RUnit)
  | ShRemove id => (delete id m, RUnit)
  | ShGet id => (m, RGet (m !! id))
  | ShCount => (m, RCount (Z.of_nat (size m)))
  end.

Definition shRun (n : Z) (ops : list shOp) (st : option (shards V * list shRes)) :=
  fold_left (λ st o, '(s, rs) ← st; '(s, r) ← shDo n s o; Some (s, rs ++ [r])) ops st.
Definition mapRun (ops : list shOp) (st : gmap Z V * list shRes) :=
  fold_left (λ st o, let '(m, r) := mapDo st.1 o in (m, st.2 ++ [r])) ops st.

Definition shOk (o : shOp) : Prop :=
  match o with ShAdd id _ | ShRemove id | ShGet id => 0 ≤ id | ShCount => True end.

Lemma shDo_refines n s m o :
  0 < n → shOk o → refines n s m →
  ∃ s', shDo n s o = Some (s', (mapDo m o).2) ∧ refines n s' (mapDo m o).1.
Proof.
  intros Hn Ho Hr. destruct o as [id v|id|id|]; cbn in *.
  - destruct (sAdd_refines n s m id v) as (s' & -> & H); [done..|]. eauto.
  - destruct (sRemove_refines n s m id) as (s' & -> & H); [done..|]. eauto.
  - rewrite (sGet_refines n s m id) by done. eauto.
  - destruct Hr as (? & ? & Hc). rewrite Hc. eexists. split; [done|]. by split.
Qed.

Lemma shRun_refines n ops s m rs :
  0 < n → Forall shOk ops → refines n s m →
  ∃ s', shRun n ops (Some (s, rs)) = Some (s', (mapRun ops (m, rs)).2) ∧
        refines n s' (mapRun ops (m, rs)).1.
Proof.
  intros Hn Hok. revert s m rs. induction Hok as [|o ops Ho _ IH]; intros s m rs Hr; [by exists s|].
  destruct (shDo_refines n s m o) as (s' & E & Hr'); [done..|].
  unfold shRun, mapRun. cbn [fold_left mbind option_bind]. rewrite E. cbn [mbind option_bind fst snd].
  destruct (mapDo m o) as [m' r]. by apply IH.
Qed.

End Sharded.
Arguments shOp : clear implicits.
Arguments shRes : clear implicits.

(** ** The two free-standing tables *)

(** internal/gateway/session/network.go. *)
Module SessionTable.
Section Table.
Context {Session : Type}.

Definition shardCount : Z := 64.

Definition init : shards Session := mkShards shardCount.
Definition Add (sesID : Z) (data : Session) (s : shards Session) := sAdd shardCount sesID data s.
Definition Remove (sesID : Z) (s : shards Session) := sRemove shardCount sesID s.
Definition Count (s : shards Session) : Z := sCount s.
Definition Get (sesID : Z) (s : shards Session) : option (option Session) := sGet shardCount sesID s.

End Table.
End SessionTable.

(** internal/center/onlines/mgr.go. *)
Module Onlines.
Definition shardCount : Z := 640.

Record Data := mkData { SesID : Z; GameID : Z }.

Definition init : shards Data := mkShards shardCount.
Definition Add (roleID : Z) (d : Data) := sAdd shardCount roleID d.
Definition Remove (roleID : Z) (s : shards Data) := sRemove shardCount roleID s.
Definition Count (s : shards Data) := sCount s.

Definition GetGameID (roleID : Z) (s : shards Data) : option (Z * bool) :=
  r ← sGet shardCount roleID s;
  Some (match r with Some d => (GameID d, true) | None => (0, false) end).

(** The request of a game node. *)
Record S2SReqLoginOrLogout := mkReq { rq_RoleID : Z; rq_SesID : Z; rq_GameID : Z; rq_Login : bool }.

Definition onLoginOrLogout (req : S2SReqLoginOrLogout) (s : shards Data) : option (shards Data) :=
  if rq_Login req then Add (rq_RoleID req) (mkData (rq_SesID req) (u8 (rq_GameID req))) s
  else Remove (rq_RoleID req) s.

(** The abstract table: the game node of every online role. *)
Definition specReq (m : gmap Z Data) (req : S2SReqLoginOrLogout) : gmap Z Data :=
  if rq_Login req then <[rq_RoleID req := mkData (rq_SesID req) (u8 (rq_GameID req))]> m
  else delete (rq_RoleID req) m.

Lemma onLoginOrLogout_refines req s m :
  0 ≤ rq_RoleID req → refines shardCount s m →
  ∃ s', onLoginOrLogout req s = Some s' ∧ refines shardCount s' (specReq m req).
Proof.
  intros Hid Hr. unfold onLoginOrLogout, specReq, Add, Remove. destruct (rq_Login req).
  - by apply sAdd_refines.
  - by apply sRemove_refines.
Qed.

Lemma GetGameID_refines roleID s m :
  0 ≤ roleID → refines shardCount s m →
  GetGameID roleID s = Some (match m !! roleID with Some d => (GameID d, true) | None => (0, false) end).
Proof. intros. unfold GetGameID. by rewrite (sGet_refines _ _ m). Qed.

End Onlines.

(** ** Properties *)

(** The sharded tables behave as one map: for the gateway's 64-way session table
    and the center's 640-way table alike, any sequence of additions, removals,
    lookups and counts never indexes out of range and answers as a single map
    would, the total count included. *)
Theorem sharded_tables_refine_map {V} (n : Z) (ops : list (shOp V)) :
  n = SessionTable.shardCount ∨ n = Onlines.shardCount → Forall shOk ops →
  ∃ s, shRun n ops (Some (mkShards n, [])) = Some (s, (mapRun ops (∅, [])).2) ∧
       refines n s (mapRun ops (∅, [])).1.
Proof.
  intros Hn Hok. assert (0 < n) by (destruct Hn as [-> | ->]; done).
  apply shRun_refines; [done..|by apply mkShards_refines].
Qed.

Lemma sharded_tables_refine_map_witness :
  ∃ s, shRun 640 [ShAdd 5 "a"; ShAdd 645 "b"; ShGet 5; ShRemove 5; ShCount; ShGet 645] (Some (mkShards 640, [])) =
         Some (s, [RUnit; RUnit; RGet (Some "a"); RUnit; RCount 1; RGet (Some "b")]).
Proof.
  destruct (sharded_tables_refine_map 640
    [ShAdd 5 "a"; ShAdd 645 "b"; ShGet 5; ShRemove 5; ShCount; ShGet 645]) as (s & E & _).
  - by right.
  - repeat constructor; cbn; lia.
  - by exists s.
Defined.

(** The center's mask reaches only 256 of its 640 shards: 640 is not a power of
    two, so the bits 128 and 256 of the index are never set, and a role id always
    lands in one of the first 128 or of the shards 512 to 639. *)
Theorem onlines_mask_unused_shards (roleID : Z) :
  let i := shardIdx Onlines.shardCount roleID in
  (i < 128 ∨ 512 ≤ i < 640)%nat ∧ shardIdx Onlines.shardCount (roleID + 1024) = i.
Proof.
  unfold shardIdx, Onlines.shardCount. change (640 - 1) with 639. split.
  - assert (E : Z.land roleID 639 = Z.land (Z.land roleID 1023) 639) by (by rewrite <- Z.land_assoc).
    rewrite E. change 1023 with (Z.ones 10). rewrite Z.land_ones by lia.
    pose proof (Z.mod_pos_bound roleID (2 ^ 10) eq_refl) as Hb.
    assert (Hall : Forall (λ z, (Z.to_nat (Z.land z 639) < 128)%nat ∨
                     (512 ≤ Z.to_nat (Z.land z 639) < 640)%nat) (seqZ 0 1024)) by dec.
    rewrite Forall_forall in Hall. apply Hall, elem_of_seqZ. lia.
  - f_equal. assert (E : ∀ z, Z.land z 639 = Z.land (z mod 2 ^ 10) 639).
    { intros z. rewrite <- Z.land_ones by lia. by rewrite <- Z.land_assoc. }
    rewrite E, (E roleID). f_equal. change 1024 with (1 * 2 ^ 10). by rewrite Z.mod_add by lia.
Qed.
