(* ===== verification/Session.v ===== *)
(** * internal/gateway: client sessions

    A session connects one web-socket client to the game: its read loop forwards
    client packets to the server a message id names, its send loop writes what the
    servers push, and whoever finishes last takes the session out of the table and
    tells the game. The web-socket is a parameter: what it reads is a script, and
    which writes fail is a predicate. *)

From S2P Require Import Prelude Gmsg SwapQueue Batcher DataBus Proto Rpc Router Sharded.

(** [pb.DisconnectReason]. *)
Definition Reason_Normal : Z := 0.
Definition Reason_Heartbeat : Z := 1.
Definition Reason_ShutDown : Z := 2.
Definition Reason_Limit : Z := 3.
Definition Reason_DecodeErr : Z := 4.
Definition Reason_NetErr : Z := 9.
Definition Reason_Unknown : Z := 10.

Definition maxRecvMsgSize : Z := 10240.

Record MsgSend := mkSend { ms_ID : Z; ms_Data : bytes }.

(** The atomic fields and the queue. [s_once] is [closeOnce]: entered or not;
    [s_cancelled] is the context. *)
Record Session := mkSes {
  s_Id : Z; s_GameID : Z; s_out : SwapQueue MsgSend;
  s_disConnReason : Z; s_once : bool; s_cancelled : bool; s_loopCount : Z }.

(** ** Closing *)

(** [Close] runs its body once: the reason is stored, then the context cancelled;
    a second caller waits for the first. *)
Definition Close_store (why : Z) (s : Session) : Session :=
  if s_once s then s
  else mkSes (s_Id s) (s_GameID s) (s_out s) why true (s_cancelled s) (s_loopCount s).
Definition Close_cancel (s : Session) : Session :=
  mkSes (s_Id s) (s_GameID s) (s_out s) (s_disConnReason s) (s_once s) true (s_loopCount s).
Definition Close (why : Z) (s : Session) : Session :=
  if s_once s then s else Close_cancel (Close_store why s).

Definition UpdateSerId (gameID : Z) (s : Session) : Session :=
  mkSes (s_Id s) gameID (s_out s) (s_disConnReason s) (s_once s) (s_cancelled s) (s_loopCount s).

Definition getSerID (s : Session) : Z := u8 (s_GameID s).

(** What the last loop to exit does: leave the table, tell the session's game
    node, close the connection. *)
Inductive exitAct :=
| ARemove (sesID : Z)
| ASendToGame (serID sesID why : Z)
| AConnClose.

Definition onLoopExit (s : Session) : Session * list exitAct :=
  let n := i32 (s_loopCount s - 1) in
  (mkSes (s_Id s) (s_GameID s) (s_out s) (s_disConnReason s) (s_once s) (s_cancelled s) n,
   if decide (n = 0)
   then [ARemove (s_Id s); ASendToGame (getSerID s) (s_Id s) (s_disConnReason s); AConnClose]
   else []).

(** The session [start] makes: its queue holds up to [100 * OutChanSize] messages. *)
Definition start (OutChanSize id : Z) : Session :=
  mkSes (u64 id) 0 (NewSwapQueue OutChanSize (OutChanSize * 100)) 0 false false 2.

(** ** Reading *)

(** How a read failed: a close frame's code, a timeout, the text of a system call
    error, and the error's own text. *)
Record readErr := mkErr {
  re_close : option Z; re_timeout : bool; re_sys : option string; re_text : string }.

Fixpoint hasPrefix (p s : list Ascii.ascii) : bool :=
  match p, s with
  | [], _ => true
  | a :: p, b :: s => Ascii.eqb a b && hasPrefix p s
  | _ :: _, [] => false
  end.
Fixpoint containsL (sub s : list Ascii.ascii) : bool :=
  hasPrefix sub s || match s with [] => false | _ :: s => containsL sub s end.
(** [strings.Contains] and, for ASCII, [strings.ToLower]. *)
Definition Contains (s sub : string) : bool :=
  containsL (String.list_ascii_of_string sub) (String.list_ascii_of_string s).
Definition lowerA (a : Ascii.ascii) : Ascii.ascii :=
  let n := Ascii.nat_of_ascii a in
  if (65 <=? n)%nat && (n <=? 90)%nat then Ascii.ascii_of_nat (n + 32) else a.
Definition ToLower (s : string) : string :=
  String.string_of_list_ascii (lowerA <$> String.list_ascii_of_string s).

Definition classifyReadErr (err : option readErr) : Z :=
  match err with
  | None => Reason_Normal
  | Some e =>
      match re_close e with
      | Some code => if decide (code ∈ [1000; 1001; 1005; 1006]) then Reason_Normal else Reason_NetErr
      | None =>
          if re_timeout e then Reason_Heartbeat
          else
            let reset := match re_sys e with
              | Some t => let m := ToLower t in
                  Contains m "connection reset" || Contains m "broken pipe" || Contains m "wsarecv"
              | None => false end in
            if reset then Reason_Normal
            else if Contains (re_text e) "message too large" then Reason_Limit
            else Reason_Unknown
      end
  end.

(** One [Read] returns some bytes and perhaps an error; [EOF] ends the message. *)
Inductive rerr := RNil | REOF | RFail (e : readErr).

Definition errTooLarge : readErr := mkErr None false None "message too large".

(** The reader is the script of its reads; a chunk that does not fit in the rest
    of the buffer is cut there. The result is [buf[:total]]. *)
Fixpoint readFull (script : list (bytes * rerr)) (bufLen : Z) (got : bytes) : bytes + readErr :=
  match script with
  | [] => inl got
  | (chunk, err) :: script =>
      let room := Z.to_nat (bufLen - len got) in
      let cut := bool_decide (room < length chunk)%nat in
      let got := got ++ take room chunk in
      match (if cut then RNil else err) with
      | REOF => inl got
      | RFail e => inr e
      | RNil => if decide (len got >= bufLen) then inr errTooLarge else readFull script bufLen got
      end
  end.

Definition decode (src : bytes) : option (result (Z * bytes)) :=
  if decide (len src < 4) then Some (Err (ErrMsg "packet head < 4"))
  else
    h ← slice src 0 4;
    d ← slice src 4 (len src);
    Some (Ok (be_combine h, d)).

Definition MsgIDMax_S2SMax : Z := 100000.

Section Forward.
Context (cap : Z) (stale : Z → bytes).

(** A client packet: the session, the bus, and no panic. *)
Definition forwardToSrv (src : bytes) (s : Session) (bs : DataBus) : option (Session * DataBus) :=
  r ← decode src;
  match r with
  | Err _ => Some (Close Reason_DecodeErr s, bs)
  | Ok (msgID, data) =>
      if decide (msgID ≤ MsgIDMax_S2SMax) then Some (s, bs)
      else
        let serType := msgID / 100000 in
        '(bs, _) ← SendToNode cap stale serType (getSerID s) msgID data 0 (s_Id s) bs;
        Some (s, bs)
  end.

(** What [NextReader] yields: an error, a frame that is not binary, or a binary
    frame with the reads of its payload. *)
Inductive wsEvent := WErr (e : readErr) | WOther | WBinary (script : list (bytes * rerr)).

(** One turn of the read loop; the flag says whether the loop goes on. *)
Definition readTurn (ev : wsEvent) (s : Session) (bs : DataBus) : option (Session * DataBus * bool) :=
  match ev with
  | WErr e => Some (Close (classifyReadErr (Some e)) s, bs, false)
  | WOther => Some (s, bs, true)
  | WBinary script =>
      match readFull script maxRecvMsgSize [] with
      | inr e => Some (Close (classifyReadErr (Some e)) s, bs, false)
      | inl buf =>
          '(s, bs) ← forwardToSrv buf s bs;
          if s_cancelled s then Some (Close Reason_Normal s, bs, false) else Some (s, bs, true)
      end
  end.

Definition readLoop (evs : list wsEvent) (st : option (Session * DataBus * bool)) :=
  fold_left (λ st ev, '(s, bs, go) ← st; if go : bool then readTurn ev s bs else Some (s, bs, go)) evs st.

End Forward.

(** ** Writing *)

Section Send.
Context (growcap : Z → Z → Z).

Definition SendBytes (msgID : Z) (data : bytes) (s : Session) : Session * go_error :=
  let '(q, err) := Push growcap (mkSend msgID data) (s_out s) in
  (mkSes (s_Id s) (s_GameID s) q (s_disConnReason s) (s_once s) (s_cancelled s) (s_loopCount s), err).

(** [marshal] is [MarshalVT] of the message; [id] its registered id. *)
Definition SendPB (msgID : Z) (marshal : result bytes) (s : Session) : Session * bool :=
  match marshal with
  | Err _ => (s, false)
  | Ok b => ((SendBytes msgID b s).1, true)
  end.
Definition Send (id : option Z) (marshal : result bytes) (s : Session) : Session * bool :=
  match id with
  | None => (s, false)
  | Some msgID => SendPB msgID marshal s
  end.

(** The connection: the packets written so far, and the packet whose write
    fails next, if any. *)
Record wsConn := mkConn { written : list bytes; failAt : option nat }.

(** [NextWriter], the header and payload writes and [Close] of one packet: any of
    them may fail, and then the packet is not delivered. *)
Definition writePacket (v : MsgSend) (c : wsConn) : wsConn * go_error :=
  if bool_decide (failAt c = Some (length (written c)))
  then (c, Some (ErrMsg "write"))
  else (mkConn (written c ++ [be_split 4 (ms_ID v) ++ ms_Data v]) (failAt c), None).

Definition zeroSend : MsgSend := mkSend 0 [].

(** Every queued message is taken out; after the first error nothing is written. *)
Definition drainAndWrite (s : Session) (c : wsConn) : Session * wsConn * go_error :=
  let '(q, (c, firstErr)) :=
    Range zeroSend (λ v st,
      let '(q, (c, firstErr)) := st in
      match firstErr with
      | Some _ => st
      | None => let '(c, err) := writePacket v c in (q, (c, err))
      end) (s_out s, (c, None)) in
  (mkSes (s_Id s) (s_GameID s) q (s_disConnReason s) (s_once s) (s_cancelled s) (s_loopCount s), c, firstErr).

(** ** Messages from the servers *)

(** Sessions are shared objects: an update through the pointer the table holds is
    written back at the session's id. *)
Definition updSession (sesID : Z) (f : Session → Session) (t : shards Session) : option (shards Session) :=
  o ← SessionTable.Get sesID t;
  match o with
  | None => Some t
  | Some s => SessionTable.Add sesID (f s) t
  end.

(** The two handlers: a login sets the game node and passes the answer on. *)
Definition onLoginSuccess (h : Head) (gameID : Z) (resID : option Z) (res : result bytes) :=
  updSession (SesID h) (λ s, (Send resID res (UpdateSerId gameID s)).1).
Definition onDisconnect (h : Head) (why : Z) := updSession (SesID h) (Close why).

(** [OnServerMsg]: [route] is the message router. *)
Definition OnServerMsg (route : Message → shards Session → option (shards Session)) (c : Message)
    (t : shards Session) : option (shards Session) :=
  if decide (Flag (msg_head c) = Forward)
  then updSession (SesID (msg_head c)) (λ s, (SendBytes (MsgID (msg_head c)) (msg_data c) s).1) t
  else route c t.

End Send.

(** [GracefulStop] closes every session of every shard. *)
Definition closeAll (t : shards Session) : shards Session := (λ sh : gmap Z Session, Close Reason_ShutDown <$> sh) <$> t.

(** ** Reading a message whole *)

(** The reads of a message: chunks without error, and a last one with [EOF]. *)
Definition readsOf (chunks : list bytes) (last : bytes) : list (bytes * rerr) :=
  ((λ c, (c, RNil)) <$> chunks) ++ [(last, REOF)].

Lemma readFull_fits chunks last n got :
  len got + len (mjoin chunks) + len last < n →
  readFull (readsOf chunks last) n got = inl (got ++ mjoin chunks ++ last).
Proof.
  revert got. induction chunks as [|c chunks IH]; intros got Hl.
  - change (mjoin (@nil bytes)) with (@nil Z) in *. rewrite len_nil in Hl.
    change (readsOf [] last) with [(last, REOF)]. cbn [readFull app]. rewrite bool_decide_false by (unfold len in *; lia).
    rewrite take_ge by (unfold len in *; lia). done.
  - change (mjoin (c :: chunks)) with (c ++ mjoin chunks) in *. rewrite len_app in Hl.
    pose proof (len_nonneg (mjoin chunks)). pose proof (len_nonneg last).
    change (readsOf (c :: chunks) last) with ((c, RNil) :: readsOf chunks last). cbn [readFull]. rewrite bool_decide_false by (unfold len in *; lia).
    rewrite take_ge by (unfold len in *; lia). rewrite decide_False by lens.
    rewrite IH by lens. by rewrite <- !app_assoc.
Qed.

Lemma readFull_too_large chunks last n got :
  len got < n → n < len got + len (mjoin chunks) + len last →
  readFull (readsOf chunks last) n got = inr errTooLarge.
Proof.
  revert got. induction chunks as [|c chunks IH]; intros got Hg Hl.
  - change (mjoin (@nil bytes)) with (@nil Z) in *. rewrite len_nil in Hl.
    change (readsOf [] last) with [(last, REOF)]. cbn [readFull app]. rewrite bool_decide_true by (unfold len in *; lia).
    rewrite decide_True; [done|]. rewrite len_app, len_take. unfold len in *. lia.
  - change (mjoin (c :: chunks)) with (c ++ mjoin chunks) in *. rewrite len_app in Hl.
    change (readsOf (c :: chunks) last) with ((c, RNil) :: readsOf chunks last). cbn [readFull]. case_bool_decide as Hc.
    + rewrite decide_True; [done|]. rewrite len_app, len_take. unfold len in *. lia.
    + rewrite take_ge by (unfold len in *; lia). case_decide; [done|].
      apply IH; lens.
Qed.

Lemma readFull_bounded script n got : len got ≤ n → ∀ b, readFull script n got = inl b → len b ≤ n.
Proof.
  revert got. induction script as [|[c e] script IH]; intros got Hg b; cbn [readFull]; [by intros [= <-]|].
  assert (len (got ++ take (Z.to_nat (n - len got)) c) ≤ n).
  { rewrite len_app, len_take. unfold len in *. lia. }
  case_bool_decide; [|destruct e]; try case_decide; try done; eauto; by intros [= <-].
Qed.

Lemma decode_frame id data : is_u32 id → decode (be_split 4 id ++ data) = Some (Ok (id, data)).
Proof.
  intros Hid. assert (H4 : len (be_split 4 id) = 4) by (unfold len; by rewrite length_be_split).
  unfold decode. rewrite decide_False by lens. rewrite slice_prefix by done. cbn [mbind option_bind].
  rewrite slice_suffix by done. cbn [mbind option_bind]. rewrite be_combine_be_split.
  rewrite Z.mod_small by width. done.
Qed.

(** ** Properties: packets from the client *)

(** A client message reaches the server its id names: however the web-socket
    delivers the bytes of a message shorter than the 10240-byte buffer, the read
    loop hands on exactly these bytes; a packet of id [n] above 100000 for a service
    below 64 is sent to node [GameID] of service [n / 100000] with the session's id
    and the payload unchanged, ids that are reserved for servers or name no service
    are dropped without effect, and a packet without a full id closes the session as
    undecodable. A message longer than the buffer ends the loop with [Limit]. *)
Theorem client_packet_forwarded cap stale chunks last (s : Session) (bs : DataBus) :
  let data := mjoin chunks ++ last in
  let turn := readTurn cap stale (WBinary (readsOf chunks last)) s bs in
  s_cancelled s = false → s_once s = false →
  bus_closed bs = false → len data ≠ maxRecvMsgSize →
  (len data > maxRecvMsgSize → turn = Some (Close Reason_Limit s, bs, false)) ∧
  (len data < 4 → turn = Some (Close Reason_DecodeErr s, bs, false)) ∧
  (∀ id payload, data = be_split 4 id ++ payload → is_u32 id → len data < maxRecvMsgSize →
     (id ≤ MsgIDMax_S2SMax ∨ id >= 6400000 → turn = Some (s, bs, true)) ∧
     (MsgIDMax_S2SMax < id < 6400000 →
      turn = '(bs', _) ← SendToNode cap stale (id / 100000) (getSerID s) id payload 0 (s_Id s) bs;
             Some (s, bs', true))).
Proof.
  intros data turn Hcan Honce Hcl Hne. pose proof (len_nonneg data) as H0.
  assert (Hd : len data = len (@nil Z) + len (mjoin chunks) + len last) by (unfold data; lens).
  splits.
  - intros Hl. unfold turn, readTurn. rewrite readFull_too_large by (unfold maxRecvMsgSize in *; lens). done.
  - intros Hl. unfold turn, readTurn. rewrite readFull_fits by (unfold maxRecvMsgSize in *; lia).
    cbn [app]. fold data. unfold forwardToSrv, decode. rewrite decide_True by done. cbn [mbind option_bind].
    by destruct s as [? ? ? ? [] ? ?].
  - intros id payload Ed Hid Hl. unfold turn, readTurn. rewrite readFull_fits by lia. cbn [app]. fold data.
    rewrite Ed. unfold forwardToSrv. rewrite decode_frame by done. cbn [mbind option_bind].
    split; intros Hr.
    + case_decide as Hd'; [cbn [mbind option_bind]; by rewrite Hcan|]. destruct Hr as [?|Hr]; [done|].
      unfold SendToNode, send, get_batcher, key_check. rewrite Hcl. rewrite decide_True; [cbn; by rewrite Hcan|].
      left. unfold SvcTypeMax. assert (6400000 / 100000 ≤ id / 100000) by (apply Z.div_le_mono; lia).
      change (6400000 / 100000) with 64 in *. lia.
    + rewrite decide_False by lia. destruct (SendToNode _ _ _ _ _ _ _ _ _) as [[bs' e]|]; cbn; [by rewrite Hcan|done].
Qed.

Definition demoSes : Session := UpdateSerId 3 (start 16 77).

Lemma client_packet_forwarded_witness :
  readTurn buffSize zeros (WBinary (readsOf [[0; 3]; [13; 71; 9]] [8])) demoSes (freshBus 0 1) =
    ('(bs, _) ← SendToNode buffSize zeros 2 3 200007 [9; 8] 0 77 (freshBus 0 1); Some (demoSes, bs, true)).
Proof.
  destruct (client_packet_forwarded buffSize zeros [[0; 3]; [13; 71; 9]] [8] demoSes (freshBus 0 1))
    as (_ & _ & H); [done|done|done|done|].
  destruct (H 200007 [9; 8]) as [_ H2]; [reflexivity|dec|done|].
  rewrite H2 by (unfold MsgIDMax_S2SMax; lia). reflexivity.
Defined.

(** ** The life of a session

    The two loops, callers of [Close] on other goroutines, game updates and pushes
    interleave freely. A loop is running, has called [Close] and is about to exit,
    or has exited. *)

Inductive loopPc := LRun | LClosing | LExited.

Record lsys := mkL {
  l_s : Session; l_read : loopPc; l_send : loopPc;
  l_acts : list exitAct;           (* what the exits did, in order *)
  l_first : option Z }.            (* the reason of the first [Close] *)

Definition noteClose (why : Z) (s : Session) (f : option Z) : option Z := if s_once s then f else Some why.

Inductive lstep : lsys → lsys → Prop :=
| l_ext_close s r d a f why :
    lstep (mkL s r d a f) (mkL (Close_store why s) r d a (noteClose why s f))
| l_cancel s r d a f :
    s_once s = true → lstep (mkL s r d a f) (mkL (Close_cancel s) r d a f)
| l_read_fail s d a f why :         (* a read error, or an undecodable packet *)
    lstep (mkL s LRun d a f) (mkL (Close_store why s) LClosing d a (noteClose why s f))
| l_read_ctx s d a f :              (* ctx.Done() after a packet: Close(Normal) *)
    s_cancelled s = true → lstep (mkL s LRun d a f) (mkL (Close_store Reason_Normal s) LClosing d a (noteClose Reason_Normal s f))
| l_read_exit s d a f :             (* Close has returned *)
    s_cancelled s = true →
    lstep (mkL s LClosing d a f) (mkL (onLoopExit s).1 LExited d (a ++ (onLoopExit s).2) f)
| l_send_fail s r a f :
    lstep (mkL s r LRun a f) (mkL (Close_store Reason_NetErr s) r LClosing a (noteClose Reason_NetErr s f))
| l_send_ctx s r a f :              (* ctx.Done(): drain, close frame, return *)
    s_cancelled s = true → lstep (mkL s r LRun a f) (mkL s r LClosing a f)
| l_send_exit s r a f :
    s_cancelled s = true →
    lstep (mkL s r LClosing a f) (mkL (onLoopExit s).1 r LExited (a ++ (onLoopExit s).2) f)
| l_update s r d a f gameID :
    lstep (mkL s r d a f) (mkL (UpdateSerId gameID s) r d a f)
| l_push s r d a f growcap id data :
    lstep (mkL s r d a f) (mkL (SendBytes growcap id data s).1 r d a f).

Definition live (p : loopPc) : Z := match p with LExited => 0 | _ => 1 end.

Definition exitActs (id : Z) (why : Z) (acts : list exitAct) : Prop :=
  ∃ game, is_u8 game ∧ acts = [ARemove id; ASendToGame game id why; AConnClose].

Definition linv (id : Z) (st : lsys) : Prop :=
  s_Id (l_s st) = id ∧ s_loopCount (l_s st) = live (l_read st) + live (l_send st) ∧
  (s_cancelled (l_s st) = true → s_once (l_s st) = true) ∧
  (s_once (l_s st) = true ↔ is_Some (l_first st)) ∧
  (∀ why, l_first st = Some why → s_disConnReason (l_s st) = why) ∧
  (if decide (s_loopCount (l_s st) = 0)
   then ∃ why, l_first st = Some why ∧ exitActs id why (l_acts st) else l_acts st = []).

Lemma Close_store_fields why s :
  s_Id (Close_store why s) = s_Id s ∧ s_loopCount (Close_store why s) = s_loopCount s ∧
  s_cancelled (Close_store why s) = s_cancelled s ∧ s_once (Close_store why s) = true ∧
  s_disConnReason (Close_store why s) = if s_once s then s_disConnReason s else why.
Proof. unfold Close_store. destruct (s_once s) eqn:E; cbn; rewrite ?E; done. Qed.

Lemma linv_close id s r d a f why r' d' :
  live r = live r' → live d = live d' → linv id (mkL s r d a f) →
  linv id (mkL (Close_store why s) r' d' a (noteClose why s f)).
Proof.
  intros Hr Hd (H1 & H2 & H3 & H4 & H5 & H6). unfold linv in *. cbn [l_s l_read l_send l_acts l_first] in *.
  destruct (Close_store_fields why s) as (-> & -> & -> & -> & ->). unfold noteClose.
  splits; [done|congruence|done| | |].
  - split; [|done]. intros _. destruct (s_once s); [by apply H4|eauto].
  - intros w Hw. destruct (s_once s); [by apply H5|by simplify_eq].
  - case_decide; [|done]. destruct H6 as (w & Hw & Ha). destruct (s_once s) eqn:E; [eauto|].
    assert (is_Some f) as Hs%H4 by eauto. done.
Qed.

Lemma linv_exit id s r d r' d' a f :
  s_cancelled s = true → live r + live d = live r' + live d' + 1 →
  linv id (mkL s r d a f) → linv id (mkL (onLoopExit s).1 r' d' (a ++ (onLoopExit s).2) f).
Proof.
  intros Hc Hl (H1 & H2 & H3 & H4 & H5 & H6). unfold linv, onLoopExit in *.
  cbn [l_s l_read l_send l_acts l_first fst snd s_Id s_loopCount s_cancelled s_once s_disConnReason] in *.
  assert (Hn : 0 ≤ live r' ≤ 1 ∧ 0 ≤ live d' ≤ 1) by (destruct r', d'; cbn; lia).
  assert (E : i32 (s_loopCount s - 1) = live r' + live d') by (rewrite i32_id; width).
  rewrite E. splits; [done|done|done|done|done|]. rewrite decide_False in H6 by lia. subst a. cbn [app].
  case_decide; [|done]. destruct (proj1 H4 (H3 Hc)) as [why Hw]. exists why. split; [done|].
  exists (getSerID s). split; [apply u8_range|]. by rewrite H1, (H5 why Hw).
Qed.

Lemma linv_preserved id : preserved lstep (linv id).
Proof.
  intros st st' Hs Hi. destruct Hs.
  - by eapply linv_close.
  - destruct Hi as (H1 & H2 & H3 & H4 & H5 & H6). unfold linv. cbn in *. by splits.
  - by eapply linv_close.
  - by eapply linv_close.
  - apply (linv_exit id s LClosing d LExited d); [done|cbn; lia|done].
  - by eapply linv_close.
  - destruct Hi as (H1 & H2 & H3 & H4 & H5 & H6). unfold linv. cbn in *. by splits.
  - apply (linv_exit id s r LClosing r LExited); [done|cbn; lia|done].
  - destruct Hi as (H1 & H2 & H3 & H4 & H5 & H6). unfold linv. cbn in *. by splits.
  - destruct Hi as (H1 & H2 & H3 & H4 & H5 & H6). unfold linv, SendBytes in *.
    destruct (Push _ _ _) as [q e]. cbn in *. by splits.
Qed.

(** A run with the game ids the logins set on the session, in order. *)
Inductive lruns : list Z → lsys → lsys → Prop :=
| lruns_nil st : lruns [] st st
| lruns_login ups st s r d a f gameID :
    lruns ups st (mkL s r d a f) → lruns (ups ++ [gameID]) st (mkL (UpdateSerId gameID s) r d a f)
| lruns_other ups st st1 st2 :
    lruns ups st st1 → lstep st1 st2 → s_GameID (l_s st2) = s_GameID (l_s st1) → lruns ups st st2.

Lemma lstep_login st st' : lstep st st' →
  s_GameID (l_s st') = s_GameID (l_s st) ∨
  ∃ s r d a f g, st = mkL s r d a f ∧ st' = mkL (UpdateSerId g s) r d a f.
Proof.
  intros Hs. destruct Hs; cbn [l_s];
    try (left; first [done | by unfold Close_store; destruct (s_once s)]); [eauto 10|].
  left. unfold SendBytes. by destruct (Push _ _ _).
Qed.

(** Every run is one with the list of its logins. *)
Lemma rtc_lruns st st' : rtc lstep st st' → ∃ ups, lruns ups st st'.
Proof.
  revert st'. apply (rtc_ind_r (λ x, ∃ ups, lruns ups st x)); [exists []; constructor|].
  intros x y _ Hs [ups IH].
  destruct (lstep_login _ _ Hs) as [E|(s & r & d & a & f & g & -> & ->)].
  - exists ups. by eapply lruns_other.
  - exists (ups ++ [g]). by constructor.
Qed.

Lemma lruns_rtc ups st st' : lruns ups st st' → rtc lstep st st'.
Proof.
  intros Hr. induction Hr; [done| |]; (eapply rtc_r; [eassumption|]); [apply l_update|done].
Qed.

(** The step that tears down is an exit, and tells the node the session has then. *)
Lemma lstep_tears st st' : lstep st st' →
  l_acts st' = l_acts st ∨
  (l_acts st' = l_acts st ++ (onLoopExit (l_s st)).2 ∧ (live (l_read st) + live (l_send st) > 0)).
Proof.
  intros Hs. destruct Hs; cbn; auto; right; (split; [done|]); [destruct d|destruct r]; cbn; lia.
Qed.

Lemma linv_acts id st : linv id st → l_acts st ≠ [] ↔ l_read st = LExited ∧ l_send st = LExited.
Proof.
  intros (_ & Hc & _ & _ & _ & Ha). rewrite Hc in Ha. case_decide as E.
  - destruct Ha as (why & _ & game & _ & ->). split; [|done]. intros _.
    destruct (l_read st), (l_send st); cbn in E; done || lia.
  - rewrite Ha. split; [done|]. intros [E1 E2]. by rewrite E1, E2 in E.
Qed.

(** The teardown of a run: the step it happened in, with the logins before it. *)
Definition tornDown (ups : list Z) (st0 st : lsys) : Prop :=
  ∃ before after s1 s2, ups = before ++ after ∧ lruns before st0 s1 ∧ l_acts s1 = [] ∧
    lstep s1 s2 ∧ lruns after s2 st ∧ l_acts st = (onLoopExit (l_s s1)).2.

Lemma lruns_GameID ups st st' : lruns ups st st' →
  s_GameID (l_s st') = default (s_GameID (l_s st)) (last ups).
Proof. intros Hr. induction Hr; cbn; [done|by rewrite last_snoc|congruence]. Qed.

Lemma lruns_torn id ups st0 st :
  linv id st0 → l_acts st0 = [] → lruns ups st0 st → linv id st ∧ (l_acts st ≠ [] → tornDown ups st0 st).
Proof.
  intros Hi H0 Hr.
  assert (∀ u x, lruns u st0 x → linv id x) as Hinv.
  { intros u x Hx%lruns_rtc. eapply rtc_preserved; [apply linv_preserved|exact Hx|done]. }
  split; [by eapply Hinv|]. induction Hr as [st|ups st s r d a f g Hr IH|ups st s1 s2 Hr IH Hs Hg].
  - done.
  - intros Ha. destruct (IH Hi H0 Hinv Ha) as (b & c & s1 & s2 & -> & Hb & E1 & Hs & Hc & E2).
    exists b, (c ++ [g]), s1, s2. splits; [by rewrite <- app_assoc|done..|by constructor|done].
  - intros Ha. destruct (decide (l_acts s1 = [])) as [E|E].
    + exists ups, [], s1, s2. splits; [by rewrite app_nil_r|done..|constructor|].
      destruct (lstep_tears _ _ Hs) as [E'|[E' _]]; [congruence|by rewrite E', E].
    + destruct (IH Hi H0 Hinv E) as (b & c & s3 & s4 & -> & Hb & E1 & Hs' & Hc & E2).
      exists b, c, s3, s4. splits; [done..|by eapply lruns_other|].
      destruct (lstep_tears _ _ Hs) as [E'|[_ E']]; [congruence|].
      destruct (proj1 (linv_acts id s1 (Hinv _ _ Hr)) E) as [E3 E4]. by rewrite E3, E4 in E'.
Qed.



(** ** Messages to the client *)

Lemma updSession_refines id f t m :
  0 ≤ id → refines SessionTable.shardCount t m →
  ∃ t', updSession id f t = Some t' ∧ refines SessionTable.shardCount t' (alter f id m).
Proof.
  intros Hid Hr. unfold updSession, SessionTable.Get. rewrite (sGet_refines _ _ m) by done. cbn [mbind option_bind].
  destruct (m !! id) as [s|] eqn:E.
  - destruct (sAdd_refines SessionTable.shardCount t m id (f s)) as (t' & E' & Hr'); [done..|].
    exists t'. split; [exact E'|]. by rewrite (alter_Some f m id s E).
  - exists t. split; [done|]. by rewrite (alter_None f m id E).
Qed.

(** The packet a client receives for a message. *)
Definition packet (v : MsgSend) : bytes := be_split 4 (ms_ID v) ++ ms_Data v.

Definition drainF (v : MsgSend) (st : SwapQueue MsgSend * (wsConn * go_error)) :=
  let '(q, (c, firstErr)) := st in
  match firstErr with
  | Some _ => st
  | None => let '(c, err) := writePacket v c in (q, (c, err))
  end.

(** How many of [n] packets a connection takes before a write fails. *)
Definition taken (c : wsConn) (n : nat) : nat :=
  match failAt c with
  | Some k => if decide (length (written c) ≤ k)%nat then min n (k - length (written c)) else n
  | None => n
  end.

Lemma taken_0 c : taken c 0 = 0%nat.
Proof. unfold taken. destruct (failAt c); [case_decide|]; done. Qed.

Lemma drain_stuck l q c e : fold_left (λ st v, drainF v st) l (q, (c, Some e)) = (q, (c, Some e)).
Proof. by induction l. Qed.

Lemma drain_fold l q c :
  ∃ c' err, fold_left (λ st v, drainF v st) l (q, (c, None)) = (q, (c', err)) ∧
    written c' = written c ++ take (taken c (length l)) (packet <$> l) ∧ failAt c' = failAt c ∧
    (err = None ↔ taken c (length l) = length l).
Proof.
  revert c. induction l as [|v l IH]; intros c.
  { exists c, None. rewrite fmap_nil, take_nil, app_nil_r. splits; [done|done|done|]. by rewrite taken_0. }
  cbn [fold_left drainF]. unfold writePacket. case_bool_decide as Hf.
  - rewrite drain_stuck. exists c, (Some (ErrMsg "write")). unfold taken. rewrite Hf.
    rewrite decide_True by lia. rewrite Nat.sub_diag, Nat.min_0_r, take_0, app_nil_r. splits; [done..|]. cbn. done.
  - destruct (IH (mkConn (written c ++ [packet v]) (failAt c))) as (c' & err & E & Hw & Hfa & He).
    exists c', err. cbn in Hw, Hfa. unfold packet in E at 1. rewrite E.
    assert (Ht : taken c (length (v :: l)) = S (taken (mkConn (written c ++ [packet v]) (failAt c)) (length l))).
    { unfold taken. cbn [written failAt length]. destruct (failAt c) as [k|] eqn:Ek; [|done].
      rewrite length_app. cbn [length].
      assert (k ≠ length (written c)) by congruence. repeat case_decide; lia. }
    rewrite Ht. splits; [done| |done|rewrite He; cbn; lia].
    rewrite Hw, <- app_assoc. done.
Qed.

(** Draining takes everything out of the queue and writes, in order, the packets up
    to the first failing one. *)
Lemma drainAndWrite_spec s c :
  ∃ s' c' err, drainAndWrite s c = (s', c', err) ∧
    write (s_out s') = [] ∧ s_Id s' = s_Id s ∧
    written c' = written c ++ take (taken c (length (write (s_out s)))) (packet <$> write (s_out s)) ∧
    (err = None ↔ taken c (length (write (s_out s))) = length (write (s_out s))).
Proof.
  unfold drainAndWrite. change (λ v st, _) with drainF. unfold Range.
  destruct (write (s_out s)) as [|v l] eqn:E.
  - eexists _, c, None. rewrite fmap_nil, take_nil, app_nil_r. splits; [done|exact E|done|done|].
    by rewrite taken_0.
  - cbn [read swap]. rewrite E. destruct (drain_fold (v :: l) (swap (s_out s)) c) as (c' & err & Ef & Hw & _ & He).
    rewrite Ef. eexists _, c', err. splits; cbn; [done..|by rewrite Hw|done].
Qed.

(** The messages of [cs] for session [id]. *)
Definition forSession (id : Z) (cs : list Message) : list MsgSend :=
  omap (λ c, if decide (SesID (msg_head c) = id) then Some (mkSend (MsgID (msg_head c)) (msg_data c)) else None) cs.

Definition serverMsgs (growcap : Z → Z → Z) route (cs : list Message) (t : option (shards Session)) :=
  fold_left (λ t c, t ← t; OnServerMsg growcap route c t) cs t.

Lemma SendBytes_room growcap id data s :
  closed (s_out s) = false → len (write (s_out s)) < maxSize (s_out s) →
  let s' := (SendBytes growcap id data s).1 in
  write (s_out s') = write (s_out s) ++ [mkSend id data] ∧ closed (s_out s') = false ∧
  maxSize (s_out s') = maxSize (s_out s).
Proof.
  intros Hc Hl. unfold SendBytes, Push, pushData. rewrite Hc, decide_False by lia. done.
Qed.

(** A full queue refuses what comes in; the refusal is logged. *)
Lemma SendBytes_any growcap id data s :
  closed (s_out s) = false →
  let s' := (SendBytes growcap id data s).1 in
  write (s_out s') = write (s_out s) ++ (if decide (len (write (s_out s)) < maxSize (s_out s)) then [mkSend id data] else []) ∧
  closed (s_out s') = false ∧ maxSize (s_out s') = maxSize (s_out s).
Proof.
  intros Hc. case_decide as Hl; [by apply SendBytes_room|]. unfold SendBytes, Push, pushData. rewrite Hc, decide_True by lia.
  cbn. by rewrite app_nil_r.
Qed.

Definition room (s : Session) : nat := Z.to_nat (maxSize (s_out s) - len (write (s_out s))).

Lemma serverMsgs_full growcap route id cs t m s :
  Forall (λ c, Flag (msg_head c) = Forward ∧ 0 ≤ SesID (msg_head c)) cs →
  refines SessionTable.shardCount t m → m !! id = Some s → closed (s_out s) = false →
  ∃ t' m' s', serverMsgs growcap route cs (Some t) = Some t' ∧ refines SessionTable.shardCount t' m' ∧
    m' !! id = Some s' ∧ write (s_out s') = write (s_out s) ++ take (room s) (forSession id cs).
Proof.
  intros Hf. revert t m s. induction Hf as [|c cs [Hfl Hid] _ IH]; intros t m s Hr Hm Hc.
  { exists t, m, s. change (forSession id []) with (@nil MsgSend). by rewrite take_nil, app_nil_r. }
  unfold serverMsgs. cbn [fold_left mbind option_bind]. unfold OnServerMsg at 2. rewrite decide_True by done.
  destruct (updSession_refines (SesID (msg_head c)) (λ s, (SendBytes growcap (MsgID (msg_head c)) (msg_data c) s).1) t m)
    as (t1 & -> & Hr1); [done..|].
  unfold forSession in *. cbn [omap list_omap] in *. destruct (decide (SesID (msg_head c) = id)) as [Eid|Hn].
  - rewrite Eid in Hr1. destruct (SendBytes_any growcap (MsgID (msg_head c)) (msg_data c) s) as (Hw & Hc' & Hmx); [done|].
    edestruct IH as (t' & m' & s' & E & Hr' & Hm' & Hw'); [exact Hr1|by rewrite lookup_alter_eq, Hm|done|].
    exists t', m', s'. splits; [done..|]. rewrite Hw'. unfold room. rewrite Hmx, Hw. case_decide.
    + rewrite <- app_assoc. f_equal. replace (Z.to_nat (maxSize (s_out s) - len (write (s_out s))))
        with (S (Z.to_nat (maxSize (s_out s) - len (write (s_out s) ++ [mkSend (MsgID (msg_head c)) (msg_data c)])))) by lens. done.
    + rewrite app_nil_r. by replace (Z.to_nat (maxSize (s_out s) - len (write (s_out s)))) with 0%nat by lia.
  - edestruct IH as (t' & m' & s' & E & Hr' & Hm' & Hw'); [exact Hr1|by rewrite lookup_alter_ne|done|].
    by exists t', m', s'.
Qed.

Lemma serverMsgs_spec growcap route id cs t m s :
  Forall (λ c, Flag (msg_head c) = Forward ∧ 0 ≤ SesID (msg_head c)) cs →
  refines SessionTable.shardCount t m → m !! id = Some s → closed (s_out s) = false →
  len (write (s_out s)) + len (forSession id cs) ≤ maxSize (s_out s) →
  ∃ t' m' s', serverMsgs growcap route cs (Some t) = Some t' ∧ refines SessionTable.shardCount t' m' ∧
    m' !! id = Some s' ∧ write (s_out s') = write (s_out s) ++ forSession id cs.
Proof.
  intros Hf Hr Hm Hc Hl. destruct (serverMsgs_full growcap route id cs t m s Hf Hr Hm Hc) as (t' & m' & s' & E & Hr' & Hm' & Hw).
  exists t', m', s'. splits; [done..|]. rewrite Hw, take_ge; [done|]. unfold room, len in *. lia.
Qed.

(** What the servers send a client arrives in order: when forwarded messages for
    any sessions come in, a session whose queue has room for its share holds
    exactly its own messages behind what was queued; draining it writes one packet
    per message in that order until a write fails, after which nothing more is
    written, and reports an error exactly when some packet was not written; every
    packet decodes to the id and payload the server sent. *)
Theorem client_receives_in_order growcap route id cs t m s c :
  Forall (λ c, Flag (msg_head c) = Forward ∧ 0 ≤ SesID (msg_head c) ∧ is_u32 (MsgID (msg_head c))) cs →
  refines SessionTable.shardCount t m → m !! id = Some s → closed (s_out s) = false →
  len (write (s_out s)) + len (forSession id cs) ≤ maxSize (s_out s) →
  let queued := write (s_out s) ++ forSession id cs in
  ∃ t' m' s' s'' c' err,
    serverMsgs growcap route cs (Some t) = Some t' ∧ refines SessionTable.shardCount t' m' ∧ m' !! id = Some s' ∧
    drainAndWrite s' c = (s'', c', err) ∧ write (s_out s'') = [] ∧
    written c' = written c ++ take (taken c (length queued)) (packet <$> queued) ∧
    (err = None ↔ taken c (length queued) = length queued) ∧
    Forall (λ v, decode (packet v) = Some (Ok (ms_ID v, ms_Data v))) (forSession id cs).
Proof.
  intros Hf Hr Hm Hc Hl queued.
  destruct (serverMsgs_spec growcap route id cs t m s) as (t' & m' & s' & E & Hr' & Hm' & Hw); [|done..|].
  { eapply Forall_impl; [exact Hf|]. by intros ? (? & ? & _). }
  destruct (drainAndWrite_spec s' c) as (s'' & c' & err & Ed & Hq & _ & Hwr & He). rewrite Hw in Hwr, He.
  exists t', m', s', s'', c', err. splits; [done..|]. clear -Hf. unfold forSession.
  induction Hf as [|c cs (_ & _ & Hid) _ IH]; cbn; [constructor|]. case_decide; [|done].
  constructor; [|done]. by apply decode_frame.
Qed.

Definition demoFwd (ses id : Z) (d : bytes) : Message :=
  mkMessage {| ActorID := 0; SesID := ses; MsgID := id; Flag := Forward; FromSer := 2; FromSerID := 1;
               ToSer := 0; ToSerID := 1 |} d EmptyString.

Lemma client_receives_in_order_witness :
  ∃ t' s' s'' c' err,
    serverMsgs (λ _ n, n) (λ _ t, Some t) [demoFwd 77 101 [1; 2]; demoFwd 78 5 []; demoFwd 77 106 []]
      (SessionTable.Add 77 demoSes SessionTable.init) = Some t' ∧
    drainAndWrite s' (mkConn [] (Some 1%nat)) = (s'', c', err) ∧
    written c' = [[0; 0; 0; 101; 1; 2]] ∧ err ≠ None.
Proof.
  destruct (client_receives_in_order (λ _ n, n) (λ _ t, Some t) 77
    [demoFwd 77 101 [1; 2]; demoFwd 78 5 []; demoFwd 77 106 []]
    (default [] (SessionTable.Add 77 demoSes SessionTable.init)) (<[77 := demoSes]> ∅) demoSes
    (mkConn [] (Some 1%nat))) as (t' & m' & s' & s'' & c' & err & E & _ & _ & Ed & _ & Hw & He & _).
  - repeat constructor; vm_compute; intuition congruence.
  - destruct (sAdd_refines SessionTable.shardCount SessionTable.init (∅ : gmap Z Session) 77 demoSes)
      as (t1 & E1 & Hr); [done|done|by apply mkShards_refines|].
    unfold SessionTable.Add. rewrite E1. exact Hr.
  - apply lookup_insert_eq.
  - reflexivity.
  - vm_compute. congruence.
  - exists t', s', s'', c', err. splits; [exact E|exact Ed|exact Hw|]. rewrite He. vm_compute. congruence.
Defined.
