(* ===== verification/GateStop.v ===== *)
(** * internal/gateway/session/network.go: accepting clients and stopping

    [StartWSServer] and [handleClient] turn connections into sessions, [GracefulStop] refuses
    new ones, closes the sessions shard by shard and waits for their goroutines. A session is
    the system of [Session.v]; here many of them run next to [GracefulStop], and [start] and
    [onLoopExit] are split where they touch the wait group. *)

From S2P Require Import Prelude SwapQueue Sharded Session.

(** ** Where a client comes from *)

Section SplitHostPort.
Abbreviation chars := (list Ascii.ascii).
Definition cColon : Ascii.ascii := Ascii.ascii_of_nat 58.
Definition cOpen : Ascii.ascii := Ascii.ascii_of_nat 91.
Definition cClose : Ascii.ascii := Ascii.ascii_of_nat 93.

(** [net.SplitHostPort]: what is before the last colon and behind it, with the brackets of an
    IPv6 address taken off. *)
Fixpoint indexByte (c : Ascii.ascii) (s : chars) : option nat :=
  match s with [] => None | a :: s => if Ascii.eqb a c then Some 0%nat else S <$> indexByte c s end.
Definition lastIndex (c : Ascii.ascii) (s : chars) : option nat :=
  (λ i, (length s - S i)%nat) <$> indexByte c (reverse s).

Definition SplitHostPort (hostport : chars) : option (chars * chars) :=
  i ← lastIndex cColon hostport;
  '(host, j, k) ← (if decide (hostport !! 0%nat = Some cOpen)
    then ec ← indexByte cClose hostport;
         if decide (S ec = i) then Some (take (ec - 1) (drop 1 hostport), 1%nat, S ec) else None
    else let host := take i hostport in
         if indexByte cColon host is Some _ then None else Some (host, 0%nat, 0%nat));
  if indexByte cOpen (drop j hostport) is Some _ then None
  else if indexByte cClose (drop k hostport) is Some _ then None
  else Some (host, drop (S i) hostport).

(** How the addresses of TCP connections are written. *)
Definition JoinHostPort (host port : chars) : chars :=
  if indexByte cColon host is Some _ then cOpen :: host ++ cClose :: cColon :: port else host ++ cColon :: port.

Lemma marks_differ : (cOpen ≠ cClose ∧ cOpen ≠ cColon) ∧ cClose ≠ cColon.
Proof. vm_compute. repeat split; congruence. Qed.

Lemma indexByte_None c s : indexByte c s = None ↔ c ∉ s.
Proof.
  induction s as [|a s IH]; cbn; [split; [intros _ ?%elem_of_nil; done|done]|].
  destruct (Ascii.eqb_spec a c) as [->|Hn]; [split; [done|intros H; destruct H; by left]|].
  rewrite fmap_None, IH, not_elem_of_cons. intuition congruence.
Qed.

Lemma indexByte_app c s t : c ∉ s → indexByte c (s ++ t) = (λ i, (length s + i)%nat) <$> indexByte c t.
Proof.
  induction s as [|a s IH]; intros Hs; cbn; [by destruct (indexByte c t)|].
  apply not_elem_of_cons in Hs as [Ha Hs]. destruct (Ascii.eqb_spec a c) as [->|_]; [done|].
  rewrite IH by done. by destruct (indexByte c t).
Qed.

Lemma lastIndex_app c s t : c ∉ t → lastIndex c (s ++ c :: t) = Some (length s).
Proof.
  intros Ht. unfold lastIndex. rewrite reverse_app, reverse_cons, <- app_assoc, indexByte_app by by rewrite elem_of_reverse.
  cbn. rewrite Ascii.eqb_refl. cbn. f_equal. rewrite length_reverse, length_app. cbn. lia.
Qed.

(** The address of a connection is always split: neither part of it has brackets, and the
    port no colon. *)
Lemma SplitHostPort_join host port :
  cOpen ∉ host → cClose ∉ host → cOpen ∉ port → cClose ∉ port → cColon ∉ port →
  SplitHostPort (JoinHostPort host port) = Some (host, port).
Proof.
  intros Ho Hc Po Pc Pp. pose proof marks_differ. unfold JoinHostPort, SplitHostPort. destruct (indexByte cColon host) as [n|] eqn:Ei.
  - replace (cOpen :: host ++ cClose :: cColon :: port) with ((cOpen :: host ++ [cClose]) ++ cColon :: port)
      by (by cbn; rewrite <- app_assoc).
    rewrite lastIndex_app by done. cbn [mbind option_bind]. rewrite decide_True by done.
    assert (El : length (cOpen :: host ++ [cClose]) = S (S (length host))) by (cbn; rewrite length_app; cbn; lia).
    replace ((cOpen :: host ++ [cClose]) ++ cColon :: port) with ((cOpen :: host) ++ cClose :: cColon :: port)
      by (by cbn; rewrite <- app_assoc).
    rewrite indexByte_app by (apply not_elem_of_cons; split; [done|exact Hc]). cbn [indexByte]. rewrite Ascii.eqb_refl.
    cbn [fmap option_fmap option_map mbind option_bind]. rewrite decide_True by (rewrite El; cbn; lia).
    cbn [length Nat.sub app drop]. rewrite !Nat.add_0_r.
    assert (Ed : ∀ k, drop (k + length host) (host ++ cClose :: cColon :: port) = drop k (cClose :: cColon :: port)).
    { intros k. rewrite drop_app_ge by lia. f_equal. lia. }
    rewrite length_app. cbn [length]. rewrite (Nat.add_comm (length host) 1).
    change (S (1 + length host)) with (2 + length host)%nat. rewrite Ed. cbn [mbind option_bind drop].
    change (S (length host)) with (1 + length host)%nat. rewrite Ed. cbn [drop].
    rewrite !(proj2 (indexByte_None _ _)) by (rewrite ?drop_0, ?not_elem_of_app, ?not_elem_of_cons; tauto).
    rewrite ?drop_0, take_app_length' by lia. done.
  - apply indexByte_None in Ei. rewrite lastIndex_app by done. cbn [mbind option_bind].
    assert (Eh : (host ++ cColon :: port) !! 0%nat ≠ Some cOpen).
    { destruct host as [|a host]; cbn; [done|]. intros [= ->]. destruct Ho. by left. }
    rewrite decide_False by done. rewrite take_app_length. rewrite (proj2 (indexByte_None _ _)) by done.
    cbn [mbind option_bind drop]. rewrite !(proj2 (indexByte_None _ _)) by (rewrite ?drop_0, ?not_elem_of_app, ?not_elem_of_cons; tauto).
    rewrite drop_app_ge by lia. replace (S (length host) - length host)%nat with 1%nat by lia. done.
Qed.
End SplitHostPort.

(** [handleClient]: a request that cannot be upgraded is answered and gone; a connection whose
    address cannot be split is left as it is, open; otherwise the session starts, under the
    client's host. *)
Inductive handled := HRefused | HLeaked | HStarted (host : list Ascii.ascii).

Definition handleClient (upgraded : bool) (remoteAddr : list Ascii.ascii) : handled :=
  if upgraded then match SplitHostPort remoteAddr with Some (host, _) => HStarted host | None => HLeaked end else HRefused.

Lemma handleClient_starts host port :
  cOpen ∉ host → cClose ∉ host → cOpen ∉ port → cClose ∉ port → cColon ∉ port →
  handleClient true (JoinHostPort host port) = HStarted host.
Proof. intros. unfold handleClient. by rewrite SplitHostPort_join. Qed.

(** [loadNetCfg]: the limits of the sessions; [ReadDeadline] in nanoseconds. *)
Record Config := mkCfg {
  ReadDeadline : Z; OutChanSize : Z; ReadSocketBuffSize : Z; WriteSocketBuffSize : Z; RecvPkgLenLimit : Z }.
Definition loadNetCfg : Config := mkCfg (60 * 1000000000) 16 1024 1024 10240.

(** ** The gateway as a whole *)

(** Where [GracefulStop] is: not called; in [httpSrv.Shutdown]; before the snapshot of a shard;
    closing the sessions of a snapshot; in [waitGroup.Wait]; returned. *)
Inductive stopPc := SRun | SShut | SSnap (i : nat) | SKick (i : nat) (todo : list Z) | SWait | SDone.

(** A session: its system, whether [start] has counted it and started its loops, whether
    each loop has called [waitGroup.Done], and whether it came too late for [GracefulStop]:
    after the snapshot of its shard, or counted after [Wait] had returned. *)
Record gsess := mkGS { gs_l : lsys; gs_counted : bool; gs_rdone : bool; gs_sdone : bool; gs_late : bool }.

(** [g_hs]: requests in [handleClient] before [Upgrade]; [g_up]: after it, before [start];
    [g_leak]: connections whose handler returned without closing them. *)
Record gate := mkG { g_hs : nat; g_up : nat; g_leak : nat; g_ses : gmap Z gsess; g_wg : Z; g_stop : stopPc }.

Definition gate0 : gate := mkG 0 0 0 ∅ 0 SRun.

Definition shardOf (id : Z) : nat := shardIdx SessionTable.shardCount id.

Definition visited (p : stopPc) (id : Z) : bool :=
  match p with
  | SRun | SShut => false
  | SSnap i => bool_decide (shardOf id < i)%nat
  | SKick i _ => bool_decide (shardOf id ≤ i)%nat
  | SWait | SDone => true
  end.

Definition inTable (x : gsess) : Prop := l_acts (gs_l x) = [].

Definition setL (l : lsys) (x : gsess) : gsess := mkGS l (gs_counted x) (gs_rdone x) (gs_sdone x) (gs_late x).

(** A step of a session that leaves a loop only behind its [waitGroup.Done], and runs the loops
    only when [start] has started them. *)
Definition sesStep (x : gsess) (l : lsys) : Prop :=
  lstep (gs_l x) l ∧
  (l_read l = LExited → l_read (gs_l x) = LExited ∨ gs_rdone x = true) ∧
  (l_send l = LExited → l_send (gs_l x) = LExited ∨ gs_sdone x = true) ∧
  (gs_counted x = true ∨ l_read l = l_read (gs_l x) ∧ l_send l = l_send (gs_l x)).

Definition shutClose (l : lsys) : lsys :=
  mkL (Close Reason_ShutDown (l_s l)) (l_read l) (l_send l) (l_acts l) (Some Reason_ShutDown).

Section Gate.
Context (OutChan : Z).

Inductive gtstep : gate → gate → Prop :=
(* the HTTP server and [handleClient] *)
| gt_connect h u k m w : gtstep (mkG h u k m w SRun) (mkG (S h) u k m w SRun)
| gt_upgrade h u k m w p : gtstep (mkG (S h) u k m w p) (mkG h (S u) k m w p)
| gt_upgradeFailed h u k m w p : gtstep (mkG (S h) u k m w p) (mkG h u k m w p)
| gt_noAddress h u k m w p : gtstep (mkG h (S u) k m w p) (mkG h u (S k) m w p)
(* [start]: into the table, then counted *)
| gt_add h u k m w p id :
    m !! id = None → 0 ≤ id →
    gtstep (mkG h (S u) k m w p) (mkG h u k (<[id := mkGS (mkL (start OutChan id) LRun LRun [] None) false false false (visited p id)]> m) w p)
| gt_count h u k m w p id x :
    m !! id = Some x → gs_counted x = false →
    gtstep (mkG h u k m w p)
      (mkG h u k (<[id := mkGS (gs_l x) true (gs_rdone x) (gs_sdone x) (gs_late x || match p with SDone => true | _ => false end)]> m) (w + 2) p)
(* a session runs *)
| gt_session h u k m w p id x l :
    m !! id = Some x → sesStep x l → gtstep (mkG h u k m w p) (mkG h u k (<[id := setL l x]> m) w p)
| gt_readDone h u k m w p id x :
    m !! id = Some x → l_read (gs_l x) = LClosing → s_cancelled (l_s (gs_l x)) = true → gs_rdone x = false →
    gtstep (mkG h u k m w p) (mkG h u k (<[id := mkGS (gs_l x) (gs_counted x) true (gs_sdone x) (gs_late x)]> m) (w - 1) p)
| gt_sendDone h u k m w p id x :
    m !! id = Some x → l_send (gs_l x) = LClosing → s_cancelled (l_s (gs_l x)) = true → gs_sdone x = false →
    gtstep (mkG h u k m w p) (mkG h u k (<[id := mkGS (gs_l x) (gs_counted x) (gs_rdone x) true (gs_late x)]> m) (w - 1) p)
(* [GracefulStop] *)
| gt_shutdown h u k m w : gtstep (mkG h u k m w SRun) (mkG h u k m w SShut)
| gt_shut h u k m w : gtstep (mkG h u k m w SShut) (mkG h u k m w (SSnap 0))   (* all idle, or after 5 s *)
| gt_snap h u k m w i todo :
    (i < 64)%nat → (∀ id, id ∈ todo ↔ ∃ x, m !! id = Some x ∧ inTable x ∧ shardOf id = i) →
    gtstep (mkG h u k m w (SSnap i)) (mkG h u k m w (SKick i todo))
| gt_kick h u k m w i id todo x :
    m !! id = Some x → s_once (l_s (gs_l x)) = false →
    gtstep (mkG h u k m w (SKick i (id :: todo))) (mkG h u k (<[id := setL (shutClose (gs_l x)) x]> m) w (SKick i todo))
| gt_kicked h u k m w i id todo x :          (* [Close] was called before and has returned *)
    m !! id = Some x → s_once (l_s (gs_l x)) = true → s_cancelled (l_s (gs_l x)) = true →
    gtstep (mkG h u k m w (SKick i (id :: todo))) (mkG h u k m w (SKick i todo))
| gt_next h u k m w i : gtstep (mkG h u k m w (SKick i [])) (mkG h u k m w (SSnap (S i)))
| gt_all h u k m w : gtstep (mkG h u k m w (SSnap 64)) (mkG h u k m w SWait)
| gt_wait h u k m : gtstep (mkG h u k m 0 SWait) (mkG h u k m 0 SDone).

End Gate.

(** ** The wait group counts the loops that have not called [Done] *)

Definition pend (x : gsess) : Z :=
  if gs_counted x then (if gs_rdone x then 0 else 1) + (if gs_sdone x then 0 else 1) else 0.
Definition pendAll (m : gmap Z gsess) : Z := map_fold (λ _ x a, pend x + a) 0 m.

Lemma pendAll_new m id y : m !! id = None → pendAll (<[id := y]> m) = pendAll m + pend y.
Proof. intros E. unfold pendAll. rewrite map_fold_insert_L by (done || (intros; lia)). lia. Qed.

Lemma pendAll_insert m id x y : m !! id = Some x → pendAll (<[id := y]> m) = pendAll m - pend x + pend y.
Proof.
  intros E. rewrite <- (insert_delete_eq m id y), pendAll_new by apply lookup_delete_eq.
  rewrite <- (insert_delete_id m id x E) at 2. rewrite pendAll_new by apply lookup_delete_eq. lia.
Qed.

Lemma pend_nonneg x : 0 ≤ pend x.
Proof. unfold pend. destruct (gs_counted x), (gs_rdone x), (gs_sdone x); lia. Qed.

Lemma pendAll_nonneg m : 0 ≤ pendAll m.
Proof.
  induction m as [|id x m E IH] using map_ind; [done|]. rewrite pendAll_new by done. pose proof (pend_nonneg x). lia.
Qed.

Lemma pendAll_zero m id x : pendAll m = 0 → m !! id = Some x → gs_counted x = true → gs_rdone x = true ∧ gs_sdone x = true.
Proof.
  intros E0 E Hc. rewrite <- (insert_delete_id m id x E), pendAll_new in E0 by apply lookup_delete_eq.
  pose proof (pendAll_nonneg (delete id m)). unfold pend in E0. rewrite Hc in E0. destruct (gs_rdone x), (gs_sdone x); try done; lia.
Qed.

(** ** The invariant *)

Definition cancelled (x : gsess) : bool := s_cancelled (l_s (gs_l x)).

(** A session and its loops. *)
Definition sesOk (x : gsess) : Prop :=
  (gs_counted x = false → l_read (gs_l x) = LRun ∧ l_send (gs_l x) = LRun) ∧
  ((l_read (gs_l x) = LExited → gs_rdone x = true) ∧ (gs_rdone x = true → l_read (gs_l x) ≠ LRun)) ∧
  ((l_send (gs_l x) = LExited → gs_sdone x = true) ∧ (gs_sdone x = true → l_send (gs_l x) ≠ LRun)) ∧
  (l_acts (gs_l x) ≠ [] → cancelled x = true).

(** What [GracefulStop] has achieved for a session that was in time. *)
Definition covered (p : stopPc) (id : Z) (x : gsess) : Prop :=
  gs_late x = false →
  match p with
  | SRun | SShut => True
  | SSnap i => (shardOf id < i)%nat → cancelled x = true
  | SKick i todo => ((shardOf id < i)%nat → cancelled x = true) ∧ (shardOf id = i → cancelled x = true ∨ id ∈ todo)
  | SWait => cancelled x = true
  | SDone => cancelled x = true ∧ (gs_counted x = true → gs_rdone x = true ∧ gs_sdone x = true)
  end.

Definition gtinv (g : gate) : Prop :=
  g_wg g = pendAll (g_ses g) ∧ ∀ id x, g_ses g !! id = Some x → sesOk x ∧ covered (g_stop g) id x.

Lemma lstep_cancelled l l' : lstep l l' → s_cancelled (l_s l) = true → s_cancelled (l_s l') = true.
Proof.
  intros Hs Hc. destruct Hs; cbn in *; rewrite ?(proj1 (proj2 (proj2 (Close_store_fields _ _)))); try done.
  unfold SendBytes. by destruct (Push _ _ _).
Qed.

Lemma lstep_acts l l' : lstep l l' → l_acts l' ≠ [] → l_acts l ≠ [] ∨ s_cancelled (l_s l') = true.
Proof. intros Hs. destruct Hs; cbn; auto. Qed.

(** A loop that has left its body does not come back. *)
Lemma lstep_pcs l l' : lstep l l' →
  (l_read l ≠ LRun → l_read l' ≠ LRun) ∧ (l_send l ≠ LRun → l_send l' ≠ LRun).
Proof. intros Hs. destruct Hs; cbn; auto. Qed.

Lemma sesStep_ok x l : sesOk x → sesStep x l → sesOk (setL l x) ∧ (cancelled x = true → cancelled (setL l x) = true).
Proof.
  intros (H1 & (H2 & H3) & (H4 & H5) & H6) (Hs & Hr & Hd & Hc). unfold cancelled, sesOk in *. cbn.
  pose proof (lstep_cancelled _ _ Hs) as Hca. destruct (lstep_pcs _ _ Hs) as [Hp1 Hp2]. split; [|done]. splits.
  - intros En. destruct Hc as [Hc|[-> ->]]; [congruence|auto].
  - intros E. destruct (Hr E); auto.
  - auto.
  - intros E. destruct (Hd E); auto.
  - auto.
  - intros Ha. destruct (lstep_acts _ _ Hs Ha); auto.
Qed.

(** One session changes, for the better, and with it the count. *)
Lemma gtinv_update h u k m w p w' id x y :
  gtinv (mkG h u k m w p) → m !! id = Some x → sesOk y → covered p id y → w' = w - pend x + pend y →
  gtinv (mkG h u k (<[id := y]> m) w' p).
Proof.
  intros [Hw Hi] E Hy Hc ->. split; cbn in *; [rewrite (pendAll_insert m id x y E); lia|].
  intros j z [[<- <-]|[_ Ez]]%lookup_insert_Some; [done|by apply Hi].
Qed.

(** Only [GracefulStop] moves. *)
Lemma gtinv_move h u k m w p q :
  gtinv (mkG h u k m w p) → (∀ id x, m !! id = Some x → sesOk x → covered p id x → covered q id x) → gtinv (mkG h u k m w q).
Proof. intros [Hw Hi] Hq. split; [done|]. intros id x E. destruct (Hi id x E). split; [done|by apply Hq]. Qed.

(** What a session gains, it keeps. *)
Lemma covered_mono p id x y :
  covered p id x → (gs_late y = false → gs_late x = false) → (cancelled x = true → cancelled y = true) →
  (gs_counted y = gs_counted x) → (gs_rdone x = true → gs_rdone y = true) → (gs_sdone x = true → gs_sdone y = true) → covered p id y.
Proof.
  intros Hc Hl Hca En Hr Hs Ey. specialize (Hc (Hl Ey)). destruct p; cbn in *; try done; [auto| |auto|].
  - destruct Hc as [H1 H2]. split; [auto|]. intros E. destruct (H2 E); auto.
  - destruct Hc as [H1 H2]. split; [auto|]. rewrite En. intros E. destruct (H2 E). auto.
Qed.

Lemma shardOf_lt id : (shardOf id < 64)%nat.
Proof. apply (shardIdx_lt SessionTable.shardCount id). unfold SessionTable.shardCount. lia. Qed.

Lemma gtinv_frame h u k h' u' k' m w p : gtinv (mkG h u k m w p) → gtinv (mkG h' u' k' m w p).
Proof. done. Qed.

Lemma gtinv_add OutChan h u k m w p id :
  gtinv (mkG h u k m w p) → m !! id = None →
  gtinv (mkG h u k (<[id := mkGS (mkL (start OutChan id) LRun LRun [] None) false false false (visited p id)]> m) w p).
Proof.
  intros [Hw Hi] E. split; cbn in *; [rewrite pendAll_new by done; cbn; lia|].
  intros j z [[<- <-]|[_ Ez]]%lookup_insert_Some; [|by apply Hi]. split; [by unfold sesOk|].
  intros Hv. cbn in Hv. destruct p; cbn in *; try done.
  - apply bool_decide_eq_false in Hv. lia.
  - apply bool_decide_eq_false in Hv. split; lia.
Qed.

Lemma shutClose_ok x : sesOk x → s_once (l_s (gs_l x)) = false → sesOk (setL (shutClose (gs_l x)) x) ∧ cancelled (setL (shutClose (gs_l x)) x) = true.
Proof.
  intros (H1 & H2 & H3 & H4) Ho. assert (Ec : cancelled (setL (shutClose (gs_l x)) x) = true).
  { unfold cancelled. cbn. unfold Close. rewrite Ho. done. }
  split; [|done]. unfold sesOk. cbn. done.
Qed.

Lemma gtinv_preserved OutChan : preserved (gtstep OutChan) gtinv.
Proof.
  intros g g' Hs Hi. destruct Hs; try exact Hi.
  - by apply (gtinv_add OutChan).
  - destruct (proj2 Hi id x H) as [Hok Hc]. pose proof Hok as (H1 & (H2 & H3) & (H4 & H5) & H6). destruct (H1 H0) as [E1 E2].
    assert (gs_rdone x = false ∧ gs_sdone x = false) as [Er Es].
    { split; apply not_true_is_false; intros E; [by apply H3|by apply H5]. }
    eapply gtinv_update; [done|done| | |unfold pend; cbn; rewrite H0, Er, Es; lia].
    + unfold sesOk, cancelled in *. cbn. rewrite Er, Es in *. splits; auto; congruence.
    + intros Hl. apply orb_false_iff in Hl as [Hl Hd]. specialize (Hc Hl). destruct p; cbn in *; done.
  - destruct (proj2 Hi id x H) as [Hok Hc]. destruct (sesStep_ok x l Hok H0) as [Hok' Hca].
    eapply gtinv_update; [done|done|done| |unfold pend; cbn; lia]. by eapply covered_mono.
  - destruct (proj2 Hi id x H) as [Hok Hc]. pose proof Hok as (P1 & (P2 & P3) & (P4 & P5) & P6).
    assert (gs_counted x = true) as En by (destruct (gs_counted x); [done|destruct (P1 eq_refl); congruence]).
    eapply gtinv_update; [done|done| | |unfold pend; cbn; rewrite En, H2; destruct (gs_sdone x); lia].
    + unfold sesOk, cancelled in *. cbn. splits; auto; congruence.
    + by eapply covered_mono.
  - destruct (proj2 Hi id x H) as [Hok Hc]. pose proof Hok as (P1 & (P2 & P3) & (P4 & P5) & P6).
    assert (gs_counted x = true) as En by (destruct (gs_counted x); [done|destruct (P1 eq_refl); congruence]).
    eapply gtinv_update; [done|done| | |unfold pend; cbn; rewrite En, H2; destruct (gs_rdone x); lia].
    + unfold sesOk, cancelled in *. cbn. splits; auto; congruence.
    + by eapply covered_mono.
  - eapply gtinv_move; [done|]. intros id x _ _ _ _. cbn. lia.
  - eapply gtinv_move; [done|]. intros id x E Hok Hc Hl. specialize (Hc Hl). cbn in *. split; [done|]. intros Ei.
    destruct (decide (l_acts (gs_l x) = [])) as [Ha|Ha]; [right|left; by apply Hok].
    apply H0. by exists x.
  - destruct (proj2 Hi id x H) as [Hok Hc]. destruct (shutClose_ok x Hok H0) as [Hok' Hca].
    destruct Hi as [Hw Hi]. split; cbn in *; [rewrite (pendAll_insert m id x _ H); unfold pend; cbn; lia|].
    intros j z [[<- <-]|[Hj Ez]]%lookup_insert_Some; [split; [done|intros _; cbn; auto]|].
    destruct (Hi j z Ez) as [Hokz Hcz]. split; [done|]. intros Hl. destruct (Hcz Hl) as [Q1 Q2]. split; [done|].
    intros Ej. destruct (Q2 Ej) as [?|Hin]; [by left|]. apply elem_of_cons in Hin as [->|?]; [done|by right].
  - eapply gtinv_move; [done|]. intros j z Ez _ Hc Hl. destruct (Hc Hl) as [Q1 Q2]. split; [done|]. intros Ej.
    destruct (Q2 Ej) as [?|Hin]; [by left|]. apply elem_of_cons in Hin as [->|?]; [|by right].
    left. assert (z = x) as -> by congruence. done.
  - eapply gtinv_move; [done|]. intros j z Ez _ Hc Hl. destruct (Hc Hl) as [Q1 Q2]. cbn. intros Ej.
    destruct (decide (shardOf j = i)) as [E|E]; [|apply Q1; lia]. destruct (Q2 E) as [?|Hin]; [done|by apply elem_of_nil in Hin].
  - eapply gtinv_move; [done|]. intros j z Ez _ Hc Hl. apply (Hc Hl), shardOf_lt.
  - eapply gtinv_move; [done|]. intros j z Ez _ Hc Hl. split; [exact (Hc Hl)|]. intros En.
    apply (pendAll_zero m j z); [by destruct Hi|done|done].
Qed.

(** ** Stopping *)

Definition inTime (m : gmap Z gsess) : Prop := ∀ id x, m !! id = Some x → gs_late x = false.

Lemma inTime_insert m id x y : inTime m → m !! id = Some x → gs_late y = gs_late x → inTime (<[id := y]> m).
Proof. intros Hm E Hl j z [[<- <-]|[_ Ez]]%lookup_insert_Some; [rewrite Hl; by eapply Hm|by eapply Hm]. Qed.

(** A loop of a closed session that has not called [Done] can do so: its read fails at the
    latest when the deadline passes, its writer sees the context. *)
Lemma read_ends OutChan h u k m w p id x :
  m !! id = Some x → cancelled x = true → gs_counted x = true → sesOk x → gs_rdone x = false → inTime m →
  ∃ m', rtc (gtstep OutChan) (mkG h u k m w p) (mkG h u k m' (w - 1) p) ∧ inTime m'.
Proof.
  intros E Hca Hc (_ & (R1 & _) & _) Hd Hm. unfold cancelled in Hca. destruct (l_read (gs_l x)) eqn:Er; [|eexists|by rewrite R1 in Hd].
  - destruct (gs_l x) as [s r d a f] eqn:El. cbn in *. subst r.
    set (y := setL (mkL (Close_store Reason_Heartbeat s) LClosing d a (noteClose Reason_Heartbeat s f)) x). eexists. split.
    + eapply rtc_l; [apply (gt_session _ _ _ _ _ _ _ id x (gs_l y) E)|].
      { unfold sesStep. rewrite El. splits; [apply l_read_fail|done|by left|by left]. }
      eapply rtc_once, (gt_readDone _ _ _ _ _ _ _ id y); [apply lookup_insert_eq|done| |done].
      cbn. by rewrite (proj1 (proj2 (proj2 (Close_store_fields _ _)))).
    + eapply inTime_insert; [|apply lookup_insert_eq|done]. by eapply inTime_insert.
  - split; [by eapply rtc_once, gt_readDone|]. by eapply inTime_insert.
Qed.

Lemma send_ends OutChan h u k m w p id x :
  m !! id = Some x → cancelled x = true → gs_counted x = true → sesOk x → gs_sdone x = false → inTime m →
  ∃ m', rtc (gtstep OutChan) (mkG h u k m w p) (mkG h u k m' (w - 1) p) ∧ inTime m'.
Proof.
  intros E Hca Hc (_ & _ & (S1 & _) & _) Hd Hm. unfold cancelled in Hca. destruct (l_send (gs_l x)) eqn:Er; [|eexists|by rewrite S1 in Hd].
  - destruct (gs_l x) as [s r d a f] eqn:El. cbn in *. subst d. set (y := setL (mkL s r LClosing a f) x). eexists. split.
    + eapply rtc_l; [apply (gt_session _ _ _ _ _ _ _ id x (gs_l y) E)|].
      { unfold sesStep. rewrite El. splits; [by apply l_send_ctx|by left|done|by left]. }
      eapply rtc_once, (gt_sendDone _ _ _ _ _ _ _ id y); [apply lookup_insert_eq|done|done|done].
    + eapply inTime_insert; [|apply lookup_insert_eq|done]. by eapply inTime_insert.
  - split; [by eapply rtc_once, gt_sendDone|]. by eapply inTime_insert.
Qed.

(** Someone is counted as long as the count is not zero. *)
Lemma pendAll_pos m : pendAll m ≠ 0 → ∃ id x, m !! id = Some x ∧ gs_counted x = true ∧ (gs_rdone x = false ∨ gs_sdone x = false).
Proof.
  induction m as [|id x m E IH] using map_ind; [done|]. rewrite pendAll_new by done. intros Hp.
  destruct (decide (pend x = 0)) as [E0|E0].
  - destruct IH as (j & z & Ej & ?); [lia|]. exists j, z. rewrite lookup_insert_ne by congruence. done.
  - exists id, x. rewrite lookup_insert_eq. split; [done|]. unfold pend in E0. destruct (gs_counted x), (gs_rdone x), (gs_sdone x); auto; lia.
Qed.

Lemma wait_ends OutChan n h u k m w :
  gtinv (mkG h u k m w SWait) → inTime m → w = Z.of_nat n →
  ∃ m', rtc (gtstep OutChan) (mkG h u k m w SWait) (mkG h u k m' 0 SDone).
Proof.
  revert m w. induction n as [|n IH]; intros m w Hi Hm Ew.
  { exists m. subst w. apply rtc_once, gt_wait. }
  destruct (pendAll_pos m) as (id & x & E & Hc & Hd); [destruct Hi as [Hw _]; cbn in Hw; lia|].
  destruct (proj2 Hi id x E) as [Hok Hcov]. specialize (Hcov (Hm id x E)). cbn in Hcov.
  assert (∃ m', rtc (gtstep OutChan) (mkG h u k m w SWait) (mkG h u k m' (w - 1) SWait) ∧ inTime m') as (m1 & Hr & Hm1).
  { destruct Hd; [by eapply read_ends|by eapply send_ends]. }
  destruct (IH m1 (w - 1)) as [m' Hr']; [|done|lia|].
  - eapply rtc_preserved; [apply gtinv_preserved|exact Hr|exact Hi].
  - exists m'. by etrans.
Qed.

(** C20. The gateway stops gracefully for every session that is in time: when [GracefulStop] has
    returned, the context of every session that was in the table when its shard's turn came is
    cancelled, and neither of its loops is in its body any more; and as long as no session came
    too late, [GracefulStop] can return from wherever it waits. *)
Theorem graceful_stop_covers OutChan g :
  rtc (gtstep OutChan) gate0 g →
  (g_stop g = SDone → ∀ id x, g_ses g !! id = Some x → gs_late x = false →
     s_cancelled (l_s (gs_l x)) = true ∧ (gs_counted x = true → l_read (gs_l x) ≠ LRun ∧ l_send (gs_l x) ≠ LRun)) ∧
  (g_stop g = SWait → inTime (g_ses g) → ∃ g', rtc (gtstep OutChan) g g' ∧ g_stop g' = SDone).
Proof.
  intros Hr. assert (Hi : gtinv g).
  { eapply rtc_preserved; [apply gtinv_preserved|exact Hr|]. split; [done|]. by intros id x ?. }
  split.
  - intros Es id x E Hl. destruct (proj2 Hi id x E) as ((_ & (_ & R2) & (_ & S2) & _) & Hc).
    rewrite Es in Hc. destruct (Hc Hl) as [Hca Hd]. split; [done|]. intros En. destruct (Hd En). auto.
  - intros Es Hm. destruct g as [h u k m w p]. cbn in *. subst p. pose proof (pendAll_nonneg m).
    destruct (wait_ends OutChan (Z.to_nat w) h u k m w Hi Hm) as [m' Hr']; [destruct Hi as [Hw _]; cbn in Hw; lia|].
    eexists. split; [exact Hr'|done].
Qed.

(** *** Where it falls short *)

Definition ses0 (OutChan : Z) : lsys := mkL (start OutChan 0) LRun LRun [] None.

(** The shards behind the first are empty. *)
Lemma skip_shards OutChan h u k m w n :
  (∀ id x, m !! id = Some x → shardOf id = 0%nat) → (n ≤ 63)%nat →
  rtc (gtstep OutChan) (mkG h u k m w (SSnap (64 - n))) (mkG h u k m w SWait).
Proof.
  intros Hm. induction n as [|n IH]; intros Hn; [apply rtc_once, gt_all|].
  eapply rtc_l; [apply (gt_snap _ _ _ _ _ _ _ []); [lia|]|].
  { intros id. rewrite elem_of_nil. split; [done|]. intros (x & E & _ & Hs). rewrite (Hm id x E) in Hs. lia. }
  eapply rtc_l; [apply gt_next|]. replace (S (64 - S n)) with (64 - n)%nat by lia. apply IH. lia.
Qed.

(** A gateway with one session, of id 0. *)
Definition one (h u : nat) (x : gsess) (w : Z) (p : stopPc) : gate := mkG h u 0 {[0 := x]} w p.

Lemma one_insert (x y : gsess) : <[0 := y]> ({[0 := x]} : gmap Z gsess) = {[0 := y]}.
Proof. apply insert_singleton_eq. Qed.

Lemma one_add OutChan h p : gtstep OutChan (mkG h 1 0 ∅ 0 p) (one h 0 (mkGS (ses0 OutChan) false false false (visited p 0)) 0 p).
Proof. exact (gt_add OutChan h 0 0 ∅ 0 p 0 eq_refl ltac:(lia)). Qed.
Lemma one_count OutChan h u l b w p : p ≠ SDone →
  gtstep OutChan (one h u (mkGS l false false false b) w p) (one h u (mkGS l true false false b) (w + 2) p).
Proof.
  intros Hp. pose proof (gt_count OutChan h u 0 _ w p 0 _ (lookup_singleton_eq 0 (mkGS l false false false b)) eq_refl) as H.
  rewrite one_insert in H. cbn in H. replace (b || _) with b in H; [exact H|]. destruct p; by rewrite ?orb_false_r.
Qed.
Lemma one_session OutChan h u x l w p : sesStep x l → gtstep OutChan (one h u x w p) (one h u (setL l x) w p).
Proof.
  intros Hs. pose proof (gt_session OutChan h u 0 _ w p 0 x l (lookup_singleton_eq 0 x) Hs) as H. by rewrite one_insert in H.
Qed.
Lemma one_rest OutChan h u x w : rtc (gtstep OutChan) (one h u x w (SSnap 1)) (one h u x w SWait).
Proof. apply (skip_shards OutChan h u 0 {[0 := x]} w 63); [|lia]. by intros id y [<- _]%lookup_singleton_Some. Qed.
Lemma one_snap OutChan h u x w : inTable x → gtstep OutChan (one h u x w (SSnap 0)) (one h u x w (SKick 0 [0])).
Proof.
  intros Hx. apply gt_snap; [lia|]. intros id. rewrite list_elem_of_singleton. split.
  - intros ->. exists x. split; [apply lookup_singleton_eq|done].
  - by intros (y & [<- _]%lookup_singleton_Some & _).
Qed.
Lemma one_kick OutChan h u x w :
  s_once (l_s (gs_l x)) = false → gtstep OutChan (one h u x w (SKick 0 [0])) (one h u (setL (shutClose (gs_l x)) x) w (SKick 0 [])).
Proof.
  intros Ho. pose proof (gt_kick OutChan h u 0 _ w 0 0 [] x (lookup_singleton_eq 0 x) Ho) as H. by rewrite one_insert in H.
Qed.
Lemma one_done OutChan h u l b w p :
  l_read l = LClosing → l_send l = LClosing → s_cancelled (l_s l) = true →
  rtc (gtstep OutChan) (one h u (mkGS l true false false b) w p) (one h u (mkGS l true true true b) (w - 2) p).
Proof.
  intros Hr Hs Hc. eapply rtc_l; [|apply rtc_once].
  - pose proof (gt_readDone OutChan h u 0 _ w p 0 _ (lookup_singleton_eq 0 (mkGS l true false false b)) Hr Hc eq_refl) as H.
    rewrite one_insert in H. exact H.
  - pose proof (gt_sendDone OutChan h u 0 _ (w - 1) p 0 _ (lookup_singleton_eq 0 (mkGS l true true false b)) Hs Hc eq_refl) as H.
    rewrite one_insert in H. replace (w - 1 - 1) with (w - 2) in H by lia. exact H.
Qed.

(** A session that was in time: kicked, its loops about to leave, and [GracefulStop] returns. *)
Lemma early_return OutChan : ∃ l, rtc (gtstep OutChan) gate0 (one 0 0 (mkGS l true true true false) 0 SDone) ∧ l_acts l = [].
Proof.
  set (l1 := shutClose (ses0 OutChan)). set (l2 := mkL (l_s l1) LRun LClosing [] (Some Reason_ShutDown)).
  set (l3 := mkL (Close_store Reason_Normal (l_s l1)) LClosing LClosing [] (noteClose Reason_Normal (l_s l1) (Some Reason_ShutDown))).
  exists l3. split; [|done].
  eapply rtc_l; [apply gt_connect|]. eapply rtc_l; [apply gt_upgrade|]. eapply rtc_l; [apply one_add|].
  eapply rtc_l; [by apply one_count|]. eapply rtc_l; [apply gt_shutdown|]. eapply rtc_l; [apply gt_shut|].
  eapply rtc_l; [by apply one_snap|]. eapply rtc_l; [by apply one_kick|]. eapply rtc_l; [apply gt_next|].
  etrans; [apply one_rest|].
  eapply rtc_l; [apply (one_session _ _ _ _ l2); unfold sesStep; splits; [by apply l_send_ctx|by left|done|by left]|].
  eapply rtc_l; [apply (one_session _ _ _ _ l3); unfold sesStep; splits; [by apply l_read_ctx|done|by left|by left]|].
  etrans; [by apply one_done|]. apply rtc_once, gt_wait.
Qed.

(** A session that starts behind the snapshot of its shard. *)
Lemma late_session OutChan : ∃ g, rtc (gtstep OutChan) gate0 g ∧ g_stop g = SWait ∧
  g_ses g !! 0 = Some (mkGS (ses0 OutChan) true false false true) ∧ gtinv g.
Proof.
  exists (one 0 0 (mkGS (ses0 OutChan) true false false true) 2 SWait).
  assert (Hr : rtc (gtstep OutChan) gate0 (one 0 0 (mkGS (ses0 OutChan) true false false true) 2 SWait)).
  { eapply rtc_l; [apply gt_connect|]. eapply rtc_l; [apply gt_upgrade|]. eapply rtc_l; [apply gt_shutdown|].
    eapply rtc_l; [apply gt_shut|]. eapply rtc_l; [apply (gt_snap _ _ _ _ _ _ _ []); [lia|]|].
    { intros id. rewrite elem_of_nil. split; [done|]. by intros (x & E & _). }
    eapply rtc_l; [apply one_add|]. eapply rtc_l; [by apply one_count|]. eapply rtc_l; [apply gt_next|]. apply one_rest. }
  split; [done|]. split; [done|]. split; [apply lookup_singleton_eq|].
  eapply rtc_preserved; [apply gtinv_preserved|exact Hr|]. split; [done|]. by intros id x ?.
Qed.

(** **** A session behind the sweep *)

(** [GracefulStop] is past its shards: it waits, or has returned. *)
Definition swept (p : stopPc) : Prop := p = SWait ∨ p = SDone.

(** What a session does by itself: nothing, a step of its own, or [Done] of one of its loops. *)
Inductive ownStep (x : gsess) : gsess → Prop :=
| own_none : ownStep x x
| own_step l : sesStep x l → ownStep x (setL l x)
| own_read : l_read (gs_l x) = LClosing → cancelled x = true →
    ownStep x (mkGS (gs_l x) (gs_counted x) true (gs_sdone x) (gs_late x))
| own_send : l_send (gs_l x) = LClosing → cancelled x = true →
    ownStep x (mkGS (gs_l x) (gs_counted x) (gs_rdone x) true (gs_late x)).

(** Behind the sweep nothing touches a session that has started but the session itself. *)
Lemma swept_own OutChan g g' id x :
  gtstep OutChan g g' → swept (g_stop g) → g_ses g !! id = Some x → gs_counted x = true →
  swept (g_stop g') ∧ ∃ x', g_ses g' !! id = Some x' ∧ ownStep x x'.
Proof.
  intros Hs Hp E Hc.
  assert (Hsame : ∀ m : gmap Z gsess, m !! id = Some x → ∃ x', m !! id = Some x' ∧ ownStep x x').
  { intros m Em. exists x. split; [done|constructor]. }
  assert (Hins : ∀ (m : gmap Z gsess) j y, m !! id = Some x → (j = id → ownStep x y) → ∃ x', <[j := y]> m !! id = Some x' ∧ ownStep x x').
  { intros m j y Em Hj. destruct (decide (j = id)) as [->|Hn]; [exists y; rewrite lookup_insert_eq; auto|].
    rewrite lookup_insert_ne by done. by apply Hsame. }
  destruct Hs; cbn in *; try (destruct Hp; done); (split; [by (done || right)|]); try (by apply Hsame); apply Hins; try done;
    intros ->; assert (Hx : m !! id = Some x) by exact E; simplify_eq; first [congruence | by constructor].
Qed.

(** A session that came too late: its loops have called [Done] only when its context was
    cancelled, and [GracefulStop] returns only when both have. *)
Definition heldUp (id : Z) (g : gate) : Prop :=
  gtinv g ∧ swept (g_stop g) ∧ ∃ x, g_ses g !! id = Some x ∧ gs_counted x = true ∧
    (cancelled x = true → s_once (l_s (gs_l x)) = true) ∧ (gs_rdone x = true → cancelled x = true) ∧
    (g_stop g = SDone → gs_rdone x = true ∧ gs_sdone x = true).

Lemma lstep_once l l' : lstep l l' →
  (s_cancelled (l_s l) = true → s_once (l_s l) = true) → s_cancelled (l_s l') = true → s_once (l_s l') = true.
Proof.
  intros Hs H. destruct Hs; cbn in *; rewrite ?(proj1 (proj2 (proj2 (proj2 (Close_store_fields _ _))))); try done.
  unfold SendBytes. by destruct (Push _ _ _).
Qed.

Lemma heldUp_step OutChan id g g' : gtstep OutChan g g' → heldUp id g → heldUp id g'.
Proof.
  intros Hs (Hi & Hp & x & E & Hc & Ho & Hr & Hd). destruct (swept_own _ _ _ _ _ Hs Hp E Hc) as (Hp' & x' & E' & Hown).
  assert (Hi' : gtinv g') by (by eapply gtinv_preserved).
  split; [done|]. split; [done|]. exists x'. split; [done|].
  assert (Hfin : gs_counted x' = true ∧ (cancelled x' = true → s_once (l_s (gs_l x')) = true) ∧ (gs_rdone x' = true → cancelled x' = true) ∧
    (gs_rdone x = true ∧ gs_sdone x = true → gs_rdone x' = true ∧ gs_sdone x' = true)).
  { destruct Hown as [|l (Hl & _)| |]; cbn; splits; auto; try tauto.
    - by apply (lstep_once (gs_l x)).
    - intros Hrd. by apply (lstep_cancelled (gs_l x)), Hr. }
  destruct Hfin as (F1 & F2 & F3 & F4). splits; auto. intros Es.
  destruct Hp as [Ew|Ew]; [|auto]. clear -Hs Ew Es E E' F1 Hi'.
  destruct Hs; cbn in *; try congruence. apply (pendAll_zero m id x'); [|done|done]. by destruct Hi'.
Qed.

(** C39. Two gaps. [onLoopExit] calls [Done] before it tears the session down: [GracefulStop] can
    return while a session that was in time is still in the table, its connection open and its
    game server not told. And a connection that was upgraded before the server was shut, but
    whose session starts behind the snapshot of its shard, escapes the sweep: whatever happens
    from there on, every step either leaves that session as it is or is a step of its own (its
    loops, a [Close] called on it from elsewhere, never [GracefulStop]), and [GracefulStop] waits as
    long as the session is not closed and both its loops have not called [Done]. *)
Theorem graceful_stop_gaps OutChan :
  (∃ g x, rtc (gtstep OutChan) gate0 g ∧ g_stop g = SDone ∧ g_ses g !! 0 = Some x ∧ gs_late x = false ∧
     gs_counted x = true ∧ l_acts (gs_l x) = []) ∧
  (∃ g x, rtc (gtstep OutChan) gate0 g ∧ g_stop g = SWait ∧ g_ses g !! 0 = Some x ∧ gs_late x = true ∧
     s_once (l_s (gs_l x)) = false ∧
     ∀ g1, rtc (gtstep OutChan) g g1 → ∃ x1, g_ses g1 !! 0 = Some x1 ∧
       (s_once (l_s (gs_l x1)) = false ∨ gs_rdone x1 = false ∨ gs_sdone x1 = false → g_stop g1 = SWait) ∧
       ∀ g2, gtstep OutChan g1 g2 → ∃ x2, g_ses g2 !! 0 = Some x2 ∧ ownStep x1 x2).
Proof.
  split.
  - destruct (early_return OutChan) as (l & Hr & Ha). eexists _, _. split; [exact Hr|].
    split; [done|]. split; [apply lookup_singleton_eq|]. done.
  - destruct (late_session OutChan) as (g & Hr & Es & E & Hi).
    exists g, (mkGS (ses0 OutChan) true false false true). split; [done|]. split; [done|]. split; [done|]. split; [done|]. split; [done|].
    intros g1 Hr1. assert (Hu : heldUp 0 g1).
    { eapply rtc_preserved; [intros ? ? Hs; by apply (heldUp_step OutChan)|exact Hr1|].
      split; [done|]. split; [by left|]. eexists. split; [exact E|]. splits; try done. by rewrite Es. }
    destruct Hu as (_ & Hp & x1 & E1 & Hc & Ho & Hrd & Hd). exists x1. split; [done|]. split.
    + intros Hw. destruct Hp as [?|Ed]; [done|exfalso]. destruct (Hd Ed) as [D1 D2]. specialize (Ho (Hrd D1)).
      destruct Hw as [?|[?|?]]; congruence.
    + intros g2 Hs. by destruct (swept_own _ _ _ _ _ Hs Hp E1 Hc) as (_ & ?).
Qed.

Lemma graceful_stop_covers_witness :
  ∃ g x, rtc (gtstep (OutChanSize loadNetCfg)) gate0 g ∧ g_stop g = SDone ∧ g_ses g !! 0 = Some x ∧
    s_cancelled (l_s (gs_l x)) = true ∧ l_read (gs_l x) ≠ LRun.
Proof.
  destruct (early_return (OutChanSize loadNetCfg)) as (l & Hr & _).
  exists (one 0 0 (mkGS l true true true false) 0 SDone), (mkGS l true true true false).
  destruct (proj1 (graceful_stop_covers _ _ Hr) eq_refl 0 _ (lookup_singleton_eq 0 _) eq_refl) as [H1 H2].
  split; [exact Hr|]. split; [reflexivity|]. split; [apply lookup_singleton_eq|]. split; [exact H1|exact (proj1 (H2 eq_refl))].
Defined.
