(* ===== verification/Role.v ===== *)
(** * internal/game/role: a player's role

    A role owns its data and a fixed array of components, receives events through a
    queue on its own goroutine, ticks every three seconds, saves what changed and
    loads from what was saved. JSON is a parameter with the encoding law; hooks of
    components are arbitrary functions on the role. Times are nanoseconds, Unix
    times are seconds. *)

From S2P Require Import Prelude.

(** ** Keys of the stored map *)

(** [pb.TypeComp] and [model.GetCompName]. *)
Definition TC_Base : Z := 0.
Definition TC_Max : Z := 5.
Definition TypeComp_name : gmap Z string :=
  list_to_map [(0, "TCBase"); (1, "TCExample"); (2, "TCEmptyExample"); (3, "TCDebug"); (5, "TCMax")].
Definition GetCompName (comID : Z) : string := default EmptyString (TypeComp_name !! i32 comID).

Record DataToSave := mkSave { ds_RoleID : Z; ds_Data : gmap string string }.

Definition ds_Get (comID : Z) (d : DataToSave) : string := default EmptyString (ds_Data d !! GetCompName comID).
Definition ds_Set (comID : Z) (s : string) (d : DataToSave) : DataToSave :=
  mkSave (ds_RoleID d) (<[GetCompName comID := s]> (ds_Data d)).
Definition ds_IsEmpty (d : DataToSave) : bool := bool_decide (ds_Data d = ∅).

(** ** Time *)

Definition Second : Z := 1000000000.
Definition Minute : Z := 60 * Second.

(** [t.Unix()], and [t.Sub(u)], which saturates at the ends of [int64]. *)
Definition Unix (t : Z) : Z := t / Second.
Definition Sub (t u : Z) : Z := Z.max (- 2 ^ 63) (Z.min (2 ^ 63 - 1) (t - u)).
(** [time.Time{}]: January 1, year 1. *)
Definition zeroTime : Z := - 62135596800 * Second.

(** The local calendar: the start of the day and of the next month, in Unix
    seconds. *)
Class Calendar := {
  dayBegin : Z → Z;
  nextMonthBegin : Z → Z;          (* first day of the next month, 00:00 *)
  dayBegin_spec t : dayBegin t ≤ t < dayBegin t + 86400;
  nextMonth_spec t : dayBegin t + 86400 ≤ nextMonthBegin t }.

Definition Hour `{Calendar} (t : Z) : Z := (t - dayBegin t) / 3600.

(** ** pkg/cfg/default.go *)

Record TimeConf := mkConf { AutoSave : Z }.
Definition SetDefaultValue (c : TimeConf) : TimeConf :=
  if decide (AutoSave c = 0) then mkConf (Minute * 5) else c.

(** ** The role *)

Record RoleData := mkRD {
  rd_ID : Z; CreateTime : Z; OnlineTime : Z; OfflineTime : Z;
  ResetTime : Z; DayChange : Z; DataResetMonth : Z; rd_Name : string }.

Inductive hook := HTick | HMinute | HNewDay | HDataReset | HNewMonth | HOnline | HOffline.

#[export] Instance hook_eq_dec : EqDecision hook.
Proof. solve_decision. Defined.

(** [IComp], and which of the optional interfaces a component implements. *)
Class IComp (C : Type) := {
  IsDirty : C → bool;
  ClearDirty : C → C;
  implements : C → hook → bool }.

Section Role.
Context {C : Type} `{IComp C} `{Calendar}.

Record Role := mkRole {
  r_ID : Z; r_SesID : Z; r_Comps : list (option C); r_Data : RoleData;
  nowSec : Z; lastSaveRedis : Z; lastSaveDB : Z; lastMinute : Z;
  LastHeartbeat : Z; HeartbeatTimeOut : Z; r_dirty : bool; r_cancelled : bool }.

(** Record updates. *)
Definition set_Data (d : RoleData) (r : Role) : Role :=
  mkRole (r_ID r) (r_SesID r) (r_Comps r) d (nowSec r) (lastSaveRedis r) (lastSaveDB r) (lastMinute r)
    (LastHeartbeat r) (HeartbeatTimeOut r) (r_dirty r) (r_cancelled r).
Definition set_Comps (cs : list (option C)) (r : Role) : Role :=
  mkRole (r_ID r) (r_SesID r) cs (r_Data r) (nowSec r) (lastSaveRedis r) (lastSaveDB r) (lastMinute r)
    (LastHeartbeat r) (HeartbeatTimeOut r) (r_dirty r) (r_cancelled r).
Definition set_times (ns sr sd lm : Z) (r : Role) : Role :=
  mkRole (r_ID r) (r_SesID r) (r_Comps r) (r_Data r) ns sr sd lm
    (LastHeartbeat r) (HeartbeatTimeOut r) (r_dirty r) (r_cancelled r).
Definition set_heartbeat (hb n : Z) (c : bool) (r : Role) : Role :=
  mkRole (r_ID r) (r_SesID r) (r_Comps r) (r_Data r) (nowSec r) (lastSaveRedis r) (lastSaveDB r) (lastMinute r)
    hb n (r_dirty r) c.
Definition set_dirty (b : bool) (r : Role) : Role :=
  mkRole (r_ID r) (r_SesID r) (r_Comps r) (r_Data r) (nowSec r) (lastSaveRedis r) (lastSaveDB r) (lastMinute r)
    (LastHeartbeat r) (HeartbeatTimeOut r) b (r_cancelled r).
Definition SetDirty := set_dirty true.

(** *** Saving *)

Context (marshalData : RoleData → result string) (marshalComp : C → result string).

(** The loop over the components: an error is logged and the component skipped. *)
Definition marshal_comps (force : bool) (cs : list (option C)) (i : Z) (rd : DataToSave) : DataToSave :=
  snd (fold_left (λ '(i, rd) v,
    (i + 1, match v with
            | None => rd
            | Some c => if negb force && negb (IsDirty c) then rd
                        else match marshalComp c with Ok s => ds_Set i s rd | Err _ => rd end
            end)) cs (i, rd)).

Definition marshal (force : bool) (r : Role) : result DataToSave :=
  let rd := mkSave (r_ID r) ∅ in
  let base := if force || r_dirty r
              then match marshalData (r_Data r) with Ok s => Ok (ds_Set TC_Base s rd) | Err e => Err e end
              else Ok rd in
  match base with
  | Err e => Err e
  | Ok rd => Ok (marshal_comps force (r_Comps r) 0 rd)
  end.

Definition clearDirty (c : C) : C := if IsDirty c then ClearDirty c else c.

(** [saveRole data both] is [LoginMgr().SaveRole]: whether the event was queued. The
    data handed over is returned with the role. *)
Definition save (saveRole : DataToSave → bool → bool) (both : bool) (r : Role) : Role * option (DataToSave * bool) :=
  match marshal false r with
  | Err _ => (r, None)
  | Ok data =>
      if ds_IsEmpty data then (r, None)
      else if saveRole data both
      then (set_dirty false (set_Comps (option_map clearDirty <$> r_Comps r) r), Some (data, both))
      else (r, Some (data, both))
  end.

(** *** Hooks *)

(** [call i h now r]: hook [h] of the component in slot [i], on the role. *)
Context (call : nat → hook → Z → Role → Role).

Definition implementsAt (r : Role) (i : nat) (h : hook) : bool :=
  match r_Comps r !! i with Some (Some c) => implements c h | _ => false end.

Definition callIf (b : bool) (i : nat) (h : hook) (now : Z) (r : Role) : Role :=
  if b && implementsAt r i h then call i h now r else r.

Definition MinuteLoop (now : Z) (r : Role) : Role :=
  fold_left (λ r i, callIf true i HMinute now r) (seq 0 (length (r_Comps r))) r.

(** The component loop of [OnTick]. *)
Definition tickComps (dayChange reset monthChange : bool) (now : Z) (r : Role) : Role :=
  fold_left (λ r i,
    let r := callIf true i HTick now r in
    let r := callIf dayChange i HNewDay now r in
    let r := callIf reset i HDataReset now r in
    callIf (reset && monthChange) i HNewMonth now r) (seq 0 (length (r_Comps r))) r.

Definition ResetHour : Z := 8.

(** The times of the next reset, month and day; [cur] is [time.Now()] when
    [CurDayBegin] reads it. *)
Definition nextTimes (reset monthChange dayChange : bool) (now cur : Z) (d : RoleData) : RoleData :=
  let begin := dayBegin (Unix cur) in
  mkRD (rd_ID d) (CreateTime d) (OnlineTime d) (OfflineTime d)
    (if reset then (if decide (Hour (Unix now) >= ResetHour) then begin + (ResetHour + 24) * 3600
                    else begin + ResetHour * 3600) else ResetTime d)
    (if dayChange then begin + 24 * 3600 else DayChange d)
    (if reset && monthChange then nextMonthBegin (Unix now) + ResetHour * 3600 else DataResetMonth d)
    (rd_Name d).

Definition HeartbeatTime : Z := 15 * 2.

Definition autoSave (conf : TimeConf) (saveRole : DataToSave → bool → bool) (now : Z) (r : Role)
    : Role * option (DataToSave * bool) :=
  if decide (Sub now (lastSaveRedis r) > AutoSave conf * Second) then
    if decide (Sub now (lastSaveDB r) > i64 (AutoSave conf * 10) * Second) then
      let '(r, out) := save saveRole true r in
      (set_times (nowSec r) now now (lastMinute r) r, out)
    else
      let '(r, out) := save saveRole false r in
      (set_times (nowSec r) now (lastSaveDB r) (lastMinute r) r, out)
  else (r, None).

Definition heartbeat (now : Z) (r : Role) : Role :=
  if decide (Sub now (LastHeartbeat r) > HeartbeatTime * Second) then
    let n := HeartbeatTimeOut r + 1 in
    set_heartbeat (LastHeartbeat r) n (r_cancelled r || bool_decide (n > 2)) r
  else r.

Definition OnTick (conf : TimeConf) (saveRole : DataToSave → bool → bool) (now cur : Z) (r : Role)
    : Role * option (DataToSave * bool) :=
  let sec := Unix now in
  let r := set_times sec (lastSaveRedis r) (lastSaveDB r) (lastMinute r) r in
  let reset := bool_decide (sec > ResetTime (r_Data r)) in
  let monthChange := reset && bool_decide (sec >= DataResetMonth (r_Data r)) in
  let dayChange := bool_decide (sec > DayChange (r_Data r)) in
  let r := if decide (Sub now (lastMinute r) > Minute)
           then MinuteLoop now (set_times (nowSec r) (lastSaveRedis r) (lastSaveDB r) now r) else r in
  let r := tickComps dayChange reset monthChange now r in
  let r := set_Data (nextTimes reset monthChange dayChange now cur (r_Data r)) r in
  let '(r, out) := autoSave conf saveRole now r in
  (heartbeat now r, out).

(** [onHeartBeat] of the logon service: a client's sign of life. *)
Definition onHeartBeat (now : Z) (r : Role) : Role := set_heartbeat now 0 (r_cancelled r) r.

(** *** Loading *)

Context (unmarshalData : string → result RoleData) (unmarshalComp : C → string → result C).
(** [CompFactory().Create]: the fresh components, one slot per [TypeComp]. *)
Context (create : list (option C)).

Fixpoint load_comps (d : DataToSave) (cs : list (option C)) (i : Z) : result (list (option C)) :=
  match cs with
  | [] => Ok []
  | v :: cs =>
      let r := match v with
        | None => Ok None
        | Some c => let s := ds_Get i d in
            if decide (s = EmptyString) then Ok (Some c)
            else match unmarshalComp c s with Ok c => Ok (Some c) | Err e => Err e end
        end in
      match r with
      | Err e => Err e
      | Ok v => match load_comps d cs (i + 1) with Ok cs => Ok (v :: cs) | Err e => Err e end
      end
  end.

Definition NewRole (data : DataToSave) (sesID now : Z) : result Role :=
  match unmarshalData (ds_Get TC_Base data) with
  | Err e => Err e
  | Ok base =>
      match load_comps data create 0 with
      | Err e => Err e
      | Ok comps =>
          let r := mkRole (ds_RoleID data) sesID comps base 0 zeroTime zeroTime zeroTime zeroTime 0 false false in
          if decide (CreateTime base = 0)
          then Ok (SetDirty (set_Data (mkRD (rd_ID base) (Unix now) (OnlineTime base) (OfflineTime base)
                     (ResetTime base) (DayChange base) (DataResetMonth base) (rd_Name base)) r))
          else Ok r
      end
  end.

(** *** Going online and offline *)

(** What a role tells the other servers, in order. *)
Inductive notice :=
| NCenter (roleID sesID : Z) (login : bool)
| NGateLogin (sesID : Z) (d : RoleData)
| NGateDisconnect (sesID why : Z)
| NLogout (data : DataToSave)
| NUnregister (roleID sesID : Z).

Definition Reason_Kick : Z := 7.

Definition eachComp (h : hook) (now : Z) (r : Role) : Role :=
  fold_left (λ r i, callIf true i h now r) (seq 0 (length (r_Comps r))) r.

Definition Online (conf : TimeConf) (saveRole : DataToSave → bool → bool) (now cur : Z) (r : Role)
    : Role * list notice :=
  let d := r_Data r in
  let r := set_Data (mkRD (rd_ID d) (CreateTime d) (Unix now) (OfflineTime d) (ResetTime d) (DayChange d)
                       (DataResetMonth d) (rd_Name d)) r in
  let r := set_times (nowSec r) now (lastSaveDB r) (lastMinute r) r in
  let r := set_heartbeat now 0 (r_cancelled r) r in
  let '(r, _) := OnTick conf saveRole now cur r in
  let n1 := NCenter (r_ID r) (r_SesID r) true in
  let r := eachComp HOnline now r in
  (r, [n1; NGateLogin (r_SesID r) (r_Data r)]).

Definition Offline (now : Z) (r : Role) : Role * list notice :=
  let d := r_Data r in
  let r := set_Data (mkRD (rd_ID d) (CreateTime d) (OnlineTime d) (Unix now) (ResetTime d) (DayChange d)
                       (DataResetMonth d) (rd_Name d)) r in
  let r := eachComp HOffline now r in
  (r, [NUnregister (r_ID r) (r_SesID r)] ++
      (match marshal true r with Ok data => [NLogout data] | Err _ => [] end) ++
      [NGateDisconnect (r_SesID r) Reason_Kick; NCenter (r_ID r) 0 false]).

(** ** Ticks *)

(** The fields the tick's own logic depends on. *)
Definition timing (r : Role) : Z * Z * Z * Z * Z * Z * Z * Z * bool :=
  (ResetTime (r_Data r), DayChange (r_Data r), DataResetMonth (r_Data r),
   lastSaveRedis r, lastSaveDB r, lastMinute r, LastHeartbeat r, HeartbeatTimeOut r, r_cancelled r).

(** Components leave the tick's own fields alone. *)
Definition hooks_frame : Prop := ∀ i h now r, timing (call i h now r) = timing r.

Context (Hframe : hooks_frame).

Lemma callIf_timing b i h now r : timing (callIf b i h now r) = timing r.
Proof. unfold callIf. destruct (_ && _); [apply Hframe|done]. Qed.

Lemma fold_timing {X} (f : Role → X → Role) l r : (∀ r x, timing (f r x) = timing r) → timing (fold_left f l r) = timing r.
Proof. intros Hf. revert r. induction l; intros; cbn; [done|]. by rewrite IHl, Hf. Qed.

Lemma MinuteLoop_timing now r : timing (MinuteLoop now r) = timing r.
Proof. apply fold_timing. intros. apply callIf_timing. Qed.

Lemma tickComps_timing a b c now r : timing (tickComps a b c now r) = timing r.
Proof. apply fold_timing. intros. by rewrite !callIf_timing. Qed.

Lemma save_timing sv both r : timing (save sv both r).1 = timing r.
Proof. unfold save. repeat case_match; simplify_eq/=; done. Qed.

Lemma autoSave_times conf sv now r :
  ResetTime (r_Data (autoSave conf sv now r).1) = ResetTime (r_Data r) ∧
  DayChange (r_Data (autoSave conf sv now r).1) = DayChange (r_Data r) ∧
  DataResetMonth (r_Data (autoSave conf sv now r).1) = DataResetMonth (r_Data r) ∧
  LastHeartbeat (autoSave conf sv now r).1 = LastHeartbeat r ∧
  HeartbeatTimeOut (autoSave conf sv now r).1 = HeartbeatTimeOut r ∧
  r_cancelled (autoSave conf sv now r).1 = r_cancelled r.
Proof.
  unfold autoSave. assert (H1 := save_timing sv true r). assert (H2 := save_timing sv false r).
  unfold timing in *. repeat case_match; simplify_eq/=; done.
Qed.

(** The role the component loop of a tick ends with, before saving. *)
Definition tickBody (now cur : Z) (r : Role) : Role :=
  let sec := Unix now in
  let r := set_times sec (lastSaveRedis r) (lastSaveDB r) (lastMinute r) r in
  let reset := bool_decide (sec > ResetTime (r_Data r)) in
  let monthChange := reset && bool_decide (sec >= DataResetMonth (r_Data r)) in
  let dayChange := bool_decide (sec > DayChange (r_Data r)) in
  let r := if decide (Sub now (lastMinute r) > Minute)
           then MinuteLoop now (set_times (nowSec r) (lastSaveRedis r) (lastSaveDB r) now r) else r in
  let r := tickComps dayChange reset monthChange now r in
  set_Data (nextTimes reset monthChange dayChange now cur (r_Data r)) r.

Lemma OnTick_body conf sv now cur r :
  OnTick conf sv now cur r =
  let '(r, out) := autoSave conf sv now (tickBody now cur r) in (heartbeat now r, out).
Proof. done. Qed.

Lemma tickBody_times now cur r :
  let r' := tickBody now cur r in
  let reset := bool_decide (Unix now > ResetTime (r_Data r)) in
  let month := reset && bool_decide (Unix now >= DataResetMonth (r_Data r)) in
  let d' := nextTimes reset month (bool_decide (Unix now > DayChange (r_Data r))) now cur (r_Data r) in
  ResetTime (r_Data r') = ResetTime d' ∧ DayChange (r_Data r') = DayChange d' ∧
  DataResetMonth (r_Data r') = DataResetMonth d' ∧
  lastSaveRedis r' = lastSaveRedis r ∧ lastSaveDB r' = lastSaveDB r ∧
  LastHeartbeat r' = LastHeartbeat r ∧ HeartbeatTimeOut r' = HeartbeatTimeOut r ∧ r_cancelled r' = r_cancelled r.
Proof.
  unfold tickBody. set (r1 := set_times _ _ _ _ r).
  set (r2 := if decide _ then _ else r1). set (r3 := tickComps _ _ _ now r2).
  assert (E : timing r3 = timing r2) by apply tickComps_timing.
  assert (E2 : ResetTime (r_Data r2) = ResetTime (r_Data r) ∧ DayChange (r_Data r2) = DayChange (r_Data r) ∧
    DataResetMonth (r_Data r2) = DataResetMonth (r_Data r) ∧ lastSaveRedis r2 = lastSaveRedis r ∧
    lastSaveDB r2 = lastSaveDB r ∧ LastHeartbeat r2 = LastHeartbeat r ∧
    HeartbeatTimeOut r2 = HeartbeatTimeOut r ∧ r_cancelled r2 = r_cancelled r).
  { unfold r2. case_decide; [|done]. pose proof (MinuteLoop_timing now
      (set_times (nowSec r1) (lastSaveRedis r1) (lastSaveDB r1) now r1)) as Em. unfold timing in Em.
    cbn in Em. by injection Em. }
  clearbody r3 r2. unfold timing in E. injection E as F1 F2 F3 F4 F5 _ F6 F7 F8.
  destruct E2 as (G1 & G2 & G3 & G4 & G5 & G6 & G7 & G8).
  unfold nextTimes. cbn [set_Data r_Data ResetTime DayChange DataResetMonth lastSaveRedis lastSaveDB LastHeartbeat
    HeartbeatTimeOut r_cancelled r1 set_times].
  rewrite F1, F2, F3, F4, F5, F6, F7, F8, G1, G2, G3. splits; done.
Qed.

End Role.
Arguments Role : clear implicits.

(** ** Which hooks a tick may call *)

Section Hooks.
Context {C : Type} `{IComp C} `{Calendar}.
Context (marshalData : RoleData → result string) (marshalComp : C → result string).

(** [call] and [call'] agree on all hooks but those of [bad]. *)
Definition agree_but (bad : list hook) (call call' : nat → hook → Z → Role C → Role C) : Prop :=
  ∀ i h now r, h ∉ bad → call i h now r = call' i h now r.

(** A tick that is not due for [bad] calls none of these hooks: changing what they
    do does not change the tick. *)
Lemma tick_calls_only conf sv now cur (r : Role C) call call' bad :
  agree_but bad call call' → HTick ∉ bad → HMinute ∉ bad →
  (HDataReset ∈ bad ∨ HNewMonth ∈ bad → Unix now ≤ ResetTime (r_Data r)) →
  (HNewDay ∈ bad → Unix now ≤ DayChange (r_Data r)) →
  OnTick marshalData marshalComp call conf sv now cur r = OnTick marshalData marshalComp call' conf sv now cur r.
Proof.
  intros Ha Ht Hm Hr Hd. unfold OnTick. cbn [set_times r_Data].
  assert (Hc : ∀ b i h r, (h ∈ bad → b = false) → callIf call b i h now r = callIf call' b i h now r).
  { intros b i h r0 Hb. unfold callIf. destruct (decide (h ∈ bad)) as [Hin|Hin].
    - by rewrite (Hb Hin). - by rewrite (Ha i h now r0 Hin). }
  assert (Hmin : ∀ r, MinuteLoop call now r = MinuteLoop call' now r).
  { intros r0. unfold MinuteLoop. generalize (seq 0 (length (r_Comps r0))). intros l. revert r0.
    induction l as [|i l IH]; intros; cbn; [done|]. rewrite Hc by done. apply IH. }
  rewrite Hmin. clear Hmin. set (r1 := if decide _ then _ else _). clearbody r1.
  set (reset := bool_decide (Unix now > _)). set (day := bool_decide (Unix now > _)).
  set (month := bool_decide (Unix now >= _)).
  assert (Hreset : HDataReset ∈ bad ∨ HNewMonth ∈ bad → reset = false).
  { intros Hb. apply bool_decide_eq_false. specialize (Hr Hb). lia. }
  assert (Hday : HNewDay ∈ bad → day = false).
  { intros Hb. apply bool_decide_eq_false. specialize (Hd Hb). lia. }
  assert (E : tickComps call day reset (reset && month) now r1 = tickComps call' day reset (reset && month) now r1).
  { unfold tickComps. generalize (seq 0 (length (r_Comps r1))). intros l. revert r1.
    induction l as [|i l IH]; intros; cbn; [done|].
    rewrite (Hc true i HTick) by done. rewrite (Hc day i HNewDay) by done.
    rewrite (Hc reset i HDataReset) by auto.
    rewrite (Hc (reset && (reset && month)) i HNewMonth) by (intros; rewrite Hreset by auto; done). apply IH. }
  by rewrite E.
Qed.

End Hooks.

(** ** Properties: ticks *)

(** The daily reset happens once per day: a tick that is due for the reset sets
    the next reset to 08:00 local time within the next 24 hours, strictly in the
    future (and the month's reset, when due, to the first of the next month at
    08:00, the day change to the next midnight), so that no later tick up to that
    moment calls the reset hooks of any component, whatever they are; a tick that is
    not due leaves the reset time alone. The clock read during the tick must be on
    the tick's own local day. *)
Theorem reset_once_per_day {C} `{IComp C} `{Calendar} mD mC call conf sv now cur (r : Role C) :
  hooks_frame call → dayBegin (Unix cur) = dayBegin (Unix now) →
  let d := r_Data r in
  let r' := (OnTick mD mC call conf sv now cur r).1 in
  let d' := r_Data r' in
  (Unix now > ResetTime d →
     Unix now < ResetTime d' ≤ Unix now + 86400 ∧
     (ResetTime d' - dayBegin (Unix now) = 8 * 3600 ∨ ResetTime d' - dayBegin (Unix now) = 32 * 3600) ∧
     (Unix now >= DataResetMonth d → DataResetMonth d' = nextMonthBegin (Unix now) + 8 * 3600 ∧
        Unix now < DataResetMonth d')) ∧
  (Unix now ≤ ResetTime d → ResetTime d' = ResetTime d ∧ DataResetMonth d' = DataResetMonth d) ∧
  (Unix now > DayChange d → DayChange d' = dayBegin (Unix now) + 86400 ∧ Unix now < DayChange d') ∧
  ∀ call' now2 cur2, agree_but [HDataReset; HNewMonth] call call' → Unix now2 ≤ ResetTime d' →
    OnTick mD mC call conf sv now2 cur2 r' = OnTick mD mC call' conf sv now2 cur2 r'.
Proof.
  intros Hf Hcur d r' d'.
  assert (Ed : ResetTime d' = ResetTime (r_Data (tickBody call now cur r)) ∧
    DayChange d' = DayChange (r_Data (tickBody call now cur r)) ∧
    DataResetMonth d' = DataResetMonth (r_Data (tickBody call now cur r))).
  { unfold d', r'. rewrite OnTick_body.
    destruct (autoSave_times mD mC conf sv now (tickBody call now cur r)) as (E1 & E2 & E3 & _).
    destruct (autoSave _ _ _ _ _ _) as [r1 out]. cbn [fst] in *. unfold heartbeat. by case_decide. }
  destruct Ed as (E1 & E2 & E3).
  destruct (tickBody_times call Hf now cur r) as (T1 & T2 & T3 & _).
  rewrite T1 in E1. rewrite T2 in E2. rewrite T3 in E3. clear T1 T2 T3. fold d in E1, E2, E3.
  pose proof (dayBegin_spec (Unix now)) as Hday. pose proof (nextMonth_spec (Unix now)) as Hmon.
  unfold nextTimes in E1, E2, E3. cbn [ResetTime DayChange DataResetMonth] in E1, E2, E3. rewrite Hcur in *.
  unfold ResetHour, Hour in *. splits.
  - intros Hdue. rewrite bool_decide_true in E1, E3 by done. cbn [andb] in E3.
    assert (Hh : (Unix now - dayBegin (Unix now)) / 3600 >= 8 ↔ Unix now - dayBegin (Unix now) >= 8 * 3600).
    { split; intros Hx.
      - pose proof (Z.mul_div_le (Unix now - dayBegin (Unix now)) 3600). lia.
      - assert (8 ≤ (Unix now - dayBegin (Unix now)) / 3600); [apply Z.div_le_lower_bound; lia|lia]. }
    splits; [case_decide; lia|case_decide; lia|case_decide; lia|].
    intros Hmd. rewrite bool_decide_true in E3 by done. lia.
  - intros Hnd. rewrite bool_decide_false in E1, E3 by lia. done.
  - intros Hdd. rewrite bool_decide_true in E2 by done. lia.
  - intros call' now2 cur2 Ha Hn2. apply (tick_calls_only _ _ _ _ _ _ _ _ _ [HDataReset; HNewMonth]); [done|dec|dec|done|].
    intros Hx. exfalso. revert Hx. dec.
Qed.

(** A component with one saved number, for the examples. *)
Record demoComp := mkDC { dc_val : Z; dc_dirty : bool }.
#[export] Instance demoIComp : IComp demoComp := {|
  IsDirty := dc_dirty; ClearDirty c := mkDC (dc_val c) false; implements _ h := bool_decide (h ≠ HOffline) |}.
(** A calendar in UTC with months of thirty days. *)
#[export] Program Instance demoCalendar : Calendar := {|
  dayBegin t := t - t mod 86400; nextMonthBegin t := t - t mod 2592000 + 2592000 |}.
Next Obligation. intros t. cbn. pose proof (Z.mod_pos_bound t 86400). lia. Qed.
Next Obligation.
  intros t. cbn. pose proof (Z.mod_pos_bound t 86400 eq_refl). pose proof (Z.mod_pos_bound t 2592000 eq_refl).
  assert (t mod 86400 = (t mod 2592000) mod 86400) as E.
  { symmetry. apply Z.mod_mod_divide. by exists 30. }
  pose proof (Z.div_mod (t mod 2592000) 86400 ltac:(lia)).
  pose proof (Z.div_lt_upper_bound (t mod 2592000) 86400 30). lia.
Qed.


Definition demoRD : RoleData := mkRD 5 1 0 0 100 100 100 "n".
Definition demoRole : Role demoComp :=
  mkRole 5 6 [None; Some (mkDC 1 true); None; Some (mkDC 2 false); None] demoRD 0 0 0 0 0 0 false false.
(** A hook that counts into its component. *)
Definition demoCall (i : nat) (h : hook) (now : Z) (r : Role demoComp) : Role demoComp :=
  set_Comps (alter (option_map (λ c, mkDC (dc_val c + (if decide (h = HDataReset) then 100 else 1)) true)) i (r_Comps r)) r.

Lemma reset_once_per_day_witness :
  let r' := (OnTick (λ _, Ok "d") (λ _, Ok "c") demoCall (mkConf 300) (λ _ _, true)
               (200000 * Second) (200001 * Second) demoRole).1 in
  ResetTime (r_Data r') = 2 * 86400 + 8 * 3600 ∧
  OnTick (λ _, Ok "d") (λ _, Ok "c") demoCall (mkConf 300) (λ _ _, true) (201600 * Second) 0 r' =
  OnTick (λ _, Ok "d") (λ _, Ok "c") (λ i h now r, if decide (h = HDataReset) then r else demoCall i h now r)
    (mkConf 300) (λ _ _, true) (201600 * Second) 0 r'.
Proof.
  intros r'. destruct (reset_once_per_day (λ _, Ok "d") (λ _, Ok "c") demoCall (mkConf 300) (λ _ _, true)
    (200000 * Second) (200001 * Second) demoRole) as (_ & _ & _ & Hn).
  - by intros i h now r.
  - reflexivity.
  - assert (E : ResetTime (r_Data r') = 2 * 86400 + 8 * 3600) by (vm_compute; reflexivity).
    split; [done|]. apply Hn.
    + intros i h now r Hh. rewrite decide_False; [done|]. intros ->. apply Hh. dec.
    + change (ResetTime (r_Data _)) with (ResetTime (r_Data r')). rewrite E. vm_compute. congruence.
Defined.

(** A silent client is dropped after three late ticks: ticks more than thirty
    seconds after the last heartbeat count it, the third such tick cancels the
    role and no earlier one does; a heartbeat in between starts the count anew. *)
Theorem heartbeat_three_strikes {C} `{IComp C} `{Calendar} mD mC call conf sv (r : Role C) (ticks : list (Z * Z)) :
  hooks_frame call → r_cancelled r = false → HeartbeatTimeOut r = 0 →
  Forall (λ t, Sub t.1 (LastHeartbeat r) > 30 * Second) ticks →
  let r' := fold_left (λ r t, (OnTick mD mC call conf sv t.1 t.2 r).1) ticks r in
  r_cancelled r' = bool_decide (3 ≤ length ticks)%nat ∧ HeartbeatTimeOut r' = len ticks ∧
  HeartbeatTimeOut (onHeartBeat (LastHeartbeat r) r') = 0.
Proof.
  intros Hf Hc0 Hh0 Ht. cbv zeta.
  assert (Hstep : ∀ now cur r1, let r2 := (OnTick mD mC call conf sv now cur r1).1 in
    LastHeartbeat r2 = LastHeartbeat r1 ∧
    (Sub now (LastHeartbeat r1) > 30 * Second → HeartbeatTimeOut r2 = HeartbeatTimeOut r1 + 1 ∧
       r_cancelled r2 = r_cancelled r1 || bool_decide (HeartbeatTimeOut r1 + 1 > 2))).
  { intros now cur r1. cbv zeta. rewrite OnTick_body.
    destruct (autoSave_times mD mC conf sv now (tickBody call now cur r1)) as (_ & _ & _ & E1 & E2 & E3).
    destruct (tickBody_times call Hf now cur r1) as (_ & _ & _ & _ & _ & F1 & F2 & F3).
    destruct (autoSave _ _ _ _ _ _) as [r3 out]. cbn [fst] in *. rewrite F1 in E1. rewrite F2 in E2. rewrite F3 in E3.
    unfold heartbeat, HeartbeatTime. change (15 * 2) with 30. rewrite E1, E2, E3.
    case_decide as Hd; cbn [set_heartbeat LastHeartbeat HeartbeatTimeOut r_cancelled].
    - split; [done|]. intros _. done.
    - split; [done|]. intros Hx. destruct (Hd Hx). }
  assert (Hi : ∀ ts, Forall (λ t : Z * Z, Sub t.1 (LastHeartbeat r) > 30 * Second) ts →
    ∀ r1 n, LastHeartbeat r1 = LastHeartbeat r → HeartbeatTimeOut r1 = Z.of_nat n →
      r_cancelled r1 = bool_decide (3 ≤ n)%nat →
      let r2 := fold_left (λ r t, (OnTick mD mC call conf sv t.1 t.2 r).1) ts r1 in
      r_cancelled r2 = bool_decide (3 ≤ n + length ts)%nat ∧ HeartbeatTimeOut r2 = Z.of_nat (n + length ts)).
  { induction 1 as [|[now cur] ts Ht1 _ IH]; intros r1 n El Eh Ec; cbn [fold_left length].
    { rewrite Nat.add_0_r. done. }
    destruct (Hstep now cur r1) as [H1 H2]. rewrite El in *. destruct (H2 Ht1) as [H3 H4].
    replace (n + S (length ts))%nat with (S n + length ts)%nat by lia. cbn [fst snd].
    apply IH; [done|rewrite H3, Eh; lia|]. rewrite H4, Ec, Eh. repeat case_bool_decide; done || lia. }
  destruct (Hi ticks Ht r 0%nat) as [E1 E2]; [done..|]. splits; [exact E1|exact E2|done].
Qed.

Lemma heartbeat_three_strikes_witness :
  r_cancelled (fold_left (λ r t, (OnTick (λ _, Ok "d") (λ _, Ok "c") demoCall (mkConf 300) (λ _ _, true) t.1 t.2 r).1)
                 [(31 * Second, 0); (34 * Second, 0); (37 * Second, 0)] demoRole) = true.
Proof.
  destruct (heartbeat_three_strikes (λ _, Ok "d") (λ _, Ok "c") demoCall (mkConf 300) (λ _ _, true) demoRole
    [(31 * Second, 0); (34 * Second, 0); (37 * Second, 0)]) as [E _].
  - by intros i h now r.
  - reflexivity.
  - reflexivity.
  - repeat constructor; vm_compute; congruence.
  - exact E.
Defined.

(** With the default configuration a role is never auto-saved: the default
    interval is five minutes in nanoseconds, but it is compared with elapsed
    seconds, which a duration cannot reach, so no tick at any time hands data over. *)
Theorem autosave_default_never {C} `{IComp C} `{Calendar} mD mC call sv now cur (r : Role C) :
  (OnTick mD mC call (SetDefaultValue (mkConf 0)) sv now cur r).2 = None.
Proof.
  rewrite OnTick_body. unfold autoSave. rewrite decide_False; [done|].
  change (AutoSave (SetDefaultValue (mkConf 0))) with 300000000000.
  unfold Sub, Second. intros Hx. width.
Qed.

(** ** Saving and loading *)

(** Evaluate the comparisons of literal keys. *)
Ltac keys := repeat match goal with
  | |- context [decide (?x = ?y)] => destruct (decide (x = y)); [discriminate || idtac|congruence || idtac]
  | H : context [decide (?x = ?y)] |- _ => destruct (decide (x = y)); [discriminate || idtac|congruence || idtac]
  end.

Section Persist.
Context {C : Type} `{IComp C}.
Context (marshalData : RoleData → result string) (marshalComp : C → result string).
Context (unmarshalData : string → result RoleData) (unmarshalComp : C → string → result C).

(** [component.Create]: the components of every role by slot. *)
Definition Create (example empty debug : C) : list (option C) :=
  [None; Some example; Some empty; Some debug; None].

(** The keys a role of this shape stores. *)
Definition roleKeys : list string := ["TCBase"; "TCExample"; "TCEmptyExample"; "TCDebug"].

Definition jsonOf (r : result string) : option string := match r with Ok s => Some s | Err _ => None end.

(** The complete state of a role, as stored. *)
Definition snapshot (r : Role C) (k : string) : option string :=
  if decide (k = "TCBase") then jsonOf (marshalData (r_Data r))
  else match r_Comps r with
       | [_; Some a; Some b; Some c; _] =>
           if decide (k = "TCExample") then jsonOf (marshalComp a)
           else if decide (k = "TCEmptyExample") then jsonOf (marshalComp b)
           else if decide (k = "TCDebug") then jsonOf (marshalComp c) else None
       | _ => None
       end.

(** What [marshal] puts into the map, key by key. *)
Definition setIf (b : bool) (k : string) (j : result string) (m : gmap string string) : gmap string string :=
  if b then match j with Ok s => <[k := s]> m | Err _ => m end else m.

Lemma marshal_shape force (r : Role C) a b c s :
  r_Comps r = Create a b c → marshalData (r_Data r) = Ok s →
  marshal marshalData marshalComp force r =
    Ok (mkSave (r_ID r)
          (setIf (force || IsDirty c) "TCDebug" (marshalComp c)
          (setIf (force || IsDirty b) "TCEmptyExample" (marshalComp b)
          (setIf (force || IsDirty a) "TCExample" (marshalComp a)
          (setIf (force || r_dirty r) "TCBase" (Ok s) ∅))))).
Proof.
  intros Ec Es. unfold marshal, marshal_comps. rewrite Ec, Es. unfold Create, setIf. cbn [fold_left snd].
  destruct force, (r_dirty r), (IsDirty a), (IsDirty b), (IsDirty c); cbn [orb andb negb];
    destruct (marshalComp a), (marshalComp b), (marshalComp c); reflexivity.
Qed.

Lemma setIf_lookup b k j m k' :
  setIf b k j m !! k' = if decide (k = k') then (if b then jsonOf j else None) ∪ m !! k' else m !! k'.
Proof.
  unfold setIf, jsonOf. destruct b, j; case_decide; subst; try done.
  - rewrite lookup_insert_eq. by destruct (m !! k').
  - by rewrite lookup_insert_ne.
  - by destruct (m !! k').
  - by destruct (m !! k').
  - by destruct (m !! k').
Qed.

(** The store agrees with the role wherever the role is not marked dirty. *)
Definition covers (store : gmap string string) (r : Role C) : Prop :=
  (r_dirty r = false → store !! "TCBase" = snapshot r "TCBase") ∧
  ∀ a b c, r_Comps r = Create a b c →
    (IsDirty a = false → store !! "TCExample" = snapshot r "TCExample") ∧
    (IsDirty b = false → store !! "TCEmptyExample" = snapshot r "TCEmptyExample") ∧
    (IsDirty c = false → store !! "TCDebug" = snapshot r "TCDebug").

(** [marshal] without [force]: the dirty parts that encode, unless the base data is dirty
    and does not. *)
Lemma marshal_dirty (r : Role C) a b c :
  r_Comps r = Create a b c →
  marshal marshalData marshalComp false r =
    match (if r_dirty r then marshalData (r_Data r) else Ok EmptyString) with
    | Err e => Err e
    | Ok _ => Ok (mkSave (r_ID r)
        (setIf (IsDirty c) "TCDebug" (marshalComp c)
        (setIf (IsDirty b) "TCEmptyExample" (marshalComp b)
        (setIf (IsDirty a) "TCExample" (marshalComp a)
        (setIf (r_dirty r) "TCBase" (marshalData (r_Data r)) ∅)))))
    end.
Proof.
  intros Ec. unfold marshal, marshal_comps. rewrite Ec. unfold Create, setIf. cbn [fold_left snd orb].
  destruct (r_dirty r); [destruct (marshalData (r_Data r)); [|done]|];
    destruct (IsDirty a), (IsDirty b), (IsDirty c); cbn [orb andb negb];
    destruct (marshalComp a), (marshalComp b), (marshalComp c); reflexivity.
Qed.

(** A delta of the dirty parts laid over a store that covers the rest has every part that
    encodes, and leaves the others as they were stored. *)
Lemma delta_complete store (r : Role C) a b c data :
  r_Comps r = Create a b c → covers store r → marshal marshalData marshalComp false r = Ok data →
  ∀ k, k ∈ roleKeys →
    (ds_Data data ∪ store) !! k = match snapshot r k with Some s => Some s | None => store !! k end.
Proof.
  intros Ec [H0 H1] E. destruct (H1 a b c Ec) as (Ha & Hb & Hc). rewrite (marshal_dirty r a b c Ec) in E.
  destruct (if r_dirty r then _ else _) as [s|e]; [|done]. injection E as <-. cbn [ds_Data]. intros k Hk.
  rewrite lookup_union, !setIf_lookup, lookup_empty. unfold snapshot in *. rewrite Ec in *.
  unfold Create in *. unfold roleKeys in Hk. rewrite !elem_of_cons, elem_of_nil in Hk.
  destruct Hk as [-> |[-> |[-> |[-> |[]]]]]; keys.
  - destruct (r_dirty r); [|rewrite H0 by done]; destruct (jsonOf (marshalData _)); by destruct (store !! "TCBase").
  - destruct (IsDirty a); [|rewrite Ha by done]; destruct (jsonOf (marshalComp a)); by destruct (store !! "TCExample").
  - destruct (IsDirty b); [|rewrite Hb by done]; destruct (jsonOf (marshalComp b)); by destruct (store !! "TCEmptyExample").
  - destruct (IsDirty c); [|rewrite Hc by done]; destruct (jsonOf (marshalComp c)); by destruct (store !! "TCDebug").
Qed.

End Persist.

(** C30. Incremental saves lose nothing that encodes: let the store agree with the role
    wherever the role is not dirty. Unless the base data is dirty and does not encode, in
    which case the save hands over nothing, the store with the saved map laid over it has
    the current value of every part of the role (base data and components) that encodes; a
    part that does not encode keeps its stored value. If the data is accepted nothing is
    dirty any more, which includes a component that did not encode and whose change is so
    forgotten until it is marked again; if nothing is handed over, or it is refused, the
    role is unchanged and keeps its dirty flags. *)
Theorem incremental_save_complete {C} `{IComp C} mD mC sv both (store : gmap string string) (r : Role C) a b c :
  (∀ x : C, IsDirty (ClearDirty x) = false) → r_Comps r = Create a b c → covers mD mC store r →
  let '(r', out) := save mD mC sv both r in
  let delta := match out with Some (d, _) => ds_Data d | None => ∅ end in
  (r_dirty r = true → jsonOf (mD (r_Data r)) = None → out = None) ∧
  (r_dirty r = false ∨ is_Some (jsonOf (mD (r_Data r))) →
     ∀ k, k ∈ roleKeys → (delta ∪ store) !! k = match snapshot mD mC r k with Some s => Some s | None => store !! k end) ∧
  (∀ d, out = Some (d, both) → sv d both = true → r_dirty r' = false ∧ ∀ x, Some x ∈ r_Comps r' → IsDirty x = false) ∧
  (out = None ∨ (∃ d, out = Some (d, both) ∧ sv d both = false) → r' = r) ∧
  (out = None ∨ ∃ d, out = Some (d, both)).
Proof.
  intros Hcl Ec Hcov. unfold save. pose proof (marshal_dirty mD mC r a b c Ec) as Em.
  destruct (marshal mD mC false r) as [data|e] eqn:E.
  - pose proof (delta_complete mD mC store r a b c data Ec Hcov E) as Hd.
    assert (Hdirty : r_dirty r = true → jsonOf (mD (r_Data r)) ≠ None).
    { intros Hr. rewrite Hr in Em. by destruct (mD (r_Data r)). }
    unfold ds_IsEmpty. case_bool_decide as Hemp; [|destruct (sv data both) eqn:Hsv]; splits; try done; try (by right; eexists); try (by left).
    + intros _ k Hk. rewrite <- Hd by done. by rewrite Hemp.
    + intros Hr Hn. by destruct (Hdirty Hr).
    + intros d _ _. split; [done|]. cbn. rewrite Ec. unfold Create. cbn. intros x. rewrite !elem_of_cons, elem_of_nil.
      unfold clearDirty. intros [?|[Hx|[Hx|[Hx|[?|[]]]]]]; try done; injection Hx as ->; match goal with |- context [if IsDirty ?y then _ else _] => destruct (IsDirty y) eqn:? end; auto.
    + intros [?|(d & [= <-] & Hs)]; [done|congruence].
    + intros Hr Hn. by destruct (Hdirty Hr).
    + intros d [= <-]. congruence.
  - splits; try done; [|by left]. intros Hor. destruct (r_dirty r); [|done]. destruct Hor as [?|[s Hs]]; [done|].
    by destruct (mD (r_Data r)).
Qed.

(** JSON for the examples: the number in decimal. *)
Definition demoMC (c : demoComp) : result string := Ok (pretty (dc_val c)).
Definition demoMD (d : RoleData) : result string := Ok (rd_Name d).
Definition demoFull : Role demoComp :=
  set_Comps (Create (mkDC 1 true) (mkDC 2 false) (mkDC 7 true)) demoRole.

Lemma incremental_save_complete_witness :
  let '(r', out) := save demoMD demoMC (λ _ _, true) true demoFull in
  let delta := match out with Some (d, _) => ds_Data d | None => ∅ end in
  let store : gmap string string :=
    list_to_map [("TCBase", "n"); ("TCExample", "0"); ("TCEmptyExample", "2")] in
  ∀ k, k ∈ roleKeys →
    (delta ∪ store) !! k = match snapshot demoMD demoMC demoFull k with Some s => Some s | None => store !! k end.
Proof.
  pose proof (incremental_save_complete demoMD demoMC (λ _ _, true) true
    (list_to_map [("TCBase", "n"); ("TCExample", "0"); ("TCEmptyExample", "2")]) demoFull
    (mkDC 1 true) (mkDC 2 false) (mkDC 7 true)) as T.
  destruct (save _ _ _ _ _) as [r' out]. cbv zeta in T |- *. destruct T as (_ & T & _).
  - done.
  - reflexivity.
  - split; [reflexivity|]. intros a b c E. injection E as <- <- <-. splits; try discriminate. reflexivity.
  - apply T. left. reflexivity.
Defined.

(** A component that cannot be encoded is forgotten: when some part of the role
    is saved while a dirty component fails to encode, the accepted save carries
    nothing for that component and yet clears its dirty flag. *)
Theorem failed_component_forgotten {C} `{IComp C} mD mC sv both (r : Role C) a b c s e :
  (∀ x : C, IsDirty (ClearDirty x) = false) → (∀ d b, sv d b = true) →
  r_Comps r = Create a b c → r_dirty r = true → mD (r_Data r) = Ok s →
  IsDirty a = true → mC a = Err e →
  let '(r', out) := save mD mC sv both r in
  (∃ d, out = Some (d, both) ∧ ds_Data d !! "TCExample" = None) ∧
  ∃ a', r_Comps r' !! 1%nat = Some (Some a') ∧ IsDirty a' = false.
Proof.
  intros Hcl Hsv Ec Hd Es Ha Ea. unfold save. rewrite (marshal_shape mD mC false r a b c s) by done.
  unfold ds_IsEmpty. rewrite bool_decide_false.
  - rewrite Hsv. split.
    + eexists. split; [done|]. cbn [ds_Data]. rewrite !setIf_lookup, lookup_empty, Ea. keys. by destruct (IsDirty a).
    + exists (clearDirty a). cbn. rewrite Ec. split; [done|]. unfold clearDirty. by rewrite Ha.
  - cbn [ds_Data]. intros E. assert (E2 : (∅ : gmap string string) !! "TCBase" = Some s).
    { rewrite <- E, !setIf_lookup, lookup_empty, Hd. keys. done. }
    by rewrite lookup_empty in E2.
Qed.

Lemma failed_component_forgotten_witness :
  let '(r', out) := save demoMD (λ c : demoComp, if decide (dc_val c = 1) then Err (ErrMsg "json") else demoMC c)
                      (λ _ _, true) true (set_dirty true demoFull) in
  (∃ d, out = Some (d, true) ∧ ds_Data d !! "TCExample" = None) ∧
  ∃ a', r_Comps r' !! 1%nat = Some (Some a') ∧ IsDirty a' = false.
Proof.
  apply (failed_component_forgotten demoMD
    (λ c : demoComp, if decide (dc_val c = 1) then Err (ErrMsg "json") else demoMC c) (λ _ _, true) true
    (set_dirty true demoFull) (mkDC 1 true) (mkDC 2 false) (mkDC 7 true) "n" (ErrMsg "json")); reflexivity.
Defined.

(** A role that is saved and loaded again is the same role: loading the full
    snapshot of a role with encodable components gives its id, its data and
    components that agree with the saved ones on everything that is stored, with
    nothing marked dirty. *)
Theorem save_load_roundtrip {C} `{IComp C} `{Calendar} mD mC uD uC (same : C → C → Prop)
    (r : Role C) a b c a0 b0 c0 s ses now :
  r_Comps r = Create a b c → mD (r_Data r) = Ok s → uD s = Ok (r_Data r) → CreateTime (r_Data r) ≠ 0 →
  (∀ x0 x, (x0, x) ∈ [(a0, a); (b0, b); (c0, c)] →
     ∃ j x', mC x = Ok j ∧ j ≠ EmptyString ∧ uC x0 j = Ok x' ∧ same x x') →
  ∃ data r', marshal mD mC true r = Ok data ∧ NewRole uD uC (Create a0 b0 c0) data ses now = Ok r' ∧
    r_ID r' = r_ID r ∧ r_Data r' = r_Data r ∧ r_SesID r' = ses ∧ r_dirty r' = false ∧
    Forall2 (option_Forall2 same) (r_Comps r) (r_Comps r').
Proof.
  intros Ec Es Eu Hct Hx.
  destruct (Hx a0 a) as (ja & a' & Ea & Na & Ua & Sa); [by left|].
  destruct (Hx b0 b) as (jb & b' & Eb & Nb & Ub & Sb); [by right; left|].
  destruct (Hx c0 c) as (jc & c' & Ecc & Nc & Uc & Sc); [by right; right; left|].
  eexists _, _. split; [by eapply marshal_shape|]. rewrite Ea, Eb, Ecc. unfold setIf. cbn [orb].
  unfold NewRole, ds_Get. cbn [ds_Data].
  assert (G : GetCompName TC_Base = "TCBase" ∧ GetCompName (0 + 1) = "TCExample" ∧
              GetCompName (0 + 1 + 1) = "TCEmptyExample" ∧ GetCompName (0 + 1 + 1 + 1) = "TCDebug")
    by (vm_compute; done).
  destruct G as (G0 & G1 & G2 & G3).
  rewrite G0, !lookup_insert_ne, lookup_insert_eq by done. cbv beta iota delta [from_option id]. rewrite Eu.
  unfold Create. cbn [load_comps]. unfold ds_Get. cbn [ds_Data]. rewrite G1, G2, G3.
  rewrite !(lookup_insert_ne _ _ "TCExample"), lookup_insert_eq by done.
  rewrite (lookup_insert_ne _ _ "TCEmptyExample"), lookup_insert_eq by done.
  rewrite lookup_insert_eq. cbv beta iota delta [from_option id]. rewrite !decide_False, Ua, Ub, Uc by done.
  destruct (decide (CreateTime (r_Data r) = 0)); [done|].
  split; [reflexivity|]. cbn. rewrite Ec. splits; try done. by repeat constructor.
Qed.

Lemma save_load_roundtrip_witness :
  ∃ data r', marshal demoMD demoMC true demoFull = Ok data ∧
    NewRole (λ _, Ok demoRD) (λ c0 s, Ok (mkDC (if decide (s = "1") then 1 else if decide (s = "2") then 2 else 7) false))
      (Create (mkDC 0 false) (mkDC 0 false) (mkDC 0 false)) data 9 1000 = Ok r' ∧
    r_ID r' = 5 ∧ r_Data r' = demoRD ∧
    Forall2 (option_Forall2 (λ x y, dc_val x = dc_val y)) (r_Comps demoFull) (r_Comps r').
Proof.
  destruct (save_load_roundtrip demoMD demoMC (λ _, Ok demoRD)
    (λ c0 s, Ok (mkDC (if decide (s = "1") then 1 else if decide (s = "2") then 2 else 7) false))
    (λ x y, dc_val x = dc_val y) demoFull (mkDC 1 true) (mkDC 2 false) (mkDC 7 true)
    (mkDC 0 false) (mkDC 0 false) (mkDC 0 false) "n" 9 1000) as (data & r' & H1 & H2 & H3 & H4 & _ & _ & H5).
  - reflexivity.
  - reflexivity.
  - reflexivity.
  - discriminate.
  - intros x0 x. rewrite !elem_of_cons, elem_of_nil.
    intros [E|[E|[E|[]]]]; injection E as -> ->; eexists _, _; (split; [reflexivity|]); (split; [discriminate|]);
      (split; [reflexivity|]); reflexivity.
  - exists data, r'. splits; assumption.
Defined.
