(* ===== verification/RoleSend.v ===== *)
(** * internal/game/role/role.go: what a role sends, and how its client gets it

    [SendS], [Send] and [Disconnect] of a role, over the senders of [Sender.v]; and the way
    of a message from the role over the bus and the gateway's session to the client's
    connection. *)

From S2P Require Import Prelude Gmsg SwapQueue Batcher DataBus Proto Sender Sharded Session Role.

Section RoleSend.
Context `{Sonyflake} {M : Type} `{VTMessage M} {C : Type}.
Context (cap : Z) (stale bstale : Z → bytes) (debug : bool).


(** A message whose type has no client id is logged and dropped. *)
Definition SendS (pick : option nat) (msg : M) (r : Role C) (st : sendState) : option sendState :=
  match GetMsgIDS2C msg with
  | None => Some st
  | Some msgID => sendToClient cap stale bstale pick msgID msg (r_SesID r) (r_ID r) st
  end.

(** In debug builds the id must be the one registered for the message's type. *)
Definition Send (pick : option nat) (msgID : Z) (msg : M) (r : Role C) (st : sendState) : option sendState :=
  if debug then
    match GetMsgIDS2C msg with
    | None => Some st
    | Some realMsgID =>
        if decide (realMsgID ≠ msgID) then Some st
        else sendToClient cap stale bstale pick msgID msg (r_SesID r) (r_ID r) st
    end
  else sendToClient cap stale bstale pick msgID msg (r_SesID r) (r_ID r) st.

(** [gtDisconnect] builds the message [S2SS2GtDisconnect] of a session and a reason. *)
Definition Disconnect (gtDisconnect : Z → Z → M) (pick : option nat) (why : Z) (r : Role C) (st : sendState) : option sendState :=
  SendToGate cap stale bstale debug pick 20 (gtDisconnect (r_SesID r) why) (r_SesID r) st.

(** ** Any sends of any roles *)

Inductive roleOp := RSendS (r : Role C) (msg : M) | RSend (r : Role C) (msgID : Z) (msg : M).

Definition roleDo (st : sendState) (o : option nat * roleOp) : option sendState :=
  match o.2 with
  | RSendS r m => SendS o.1 m r st
  | RSend r id m => Send o.1 id m r st
  end.

Definition roleRun (ops : list (option nat * roleOp)) (st : option sendState) : option sendState :=
  fold_left (λ st o, st ← st; roleDo st o) ops st.

(** The session, the role, the id and the message of a send that goes out. *)
Definition goesOut (o : roleOp) : option (Z * Z * (Z * M)) :=
  match o with
  | RSendS r m => (λ id, (r_SesID r, r_ID r, (id, m))) <$> GetMsgIDS2C m
  | RSend r id m => if debug then match GetMsgIDS2C m with
                                  | Some real => if decide (real = id) then Some (r_SesID r, r_ID r, (id, m)) else None
                                  | None => None
                                  end else Some (r_SesID r, r_ID r, (id, m))
  end.

Definition toSendOp (o : option nat * roleOp) : option (option nat * sendOp (M := M)) :=
  '(ses, rid, (id, m)) ← goesOut o.2; Some (o.1, OpClient id m ses rid).

Lemma roleDo_send st o :
  roleDo st o = match toSendOp o with Some so => sendDo cap stale bstale debug st so | None => Some st end.
Proof.
  destruct o as [pick [r m|r id m]]; unfold toSendOp, roleDo; cbn [fst snd goesOut].
  - unfold SendS. by destruct (GetMsgIDS2C m).
  - unfold Send. destruct debug; [|done]. destruct (GetMsgIDS2C m) as [real|]; [|done].
    destruct (decide (real = id)) as [->|Hn]; [by rewrite decide_False by auto|by rewrite decide_True].
Qed.

Lemma roleRun_send ops st : roleRun ops (Some st) = sendRun cap stale bstale debug (omap toSendOp ops) (Some st).
Proof.
  revert st. induction ops as [|o ops IH]; intros st; [done|]. unfold roleRun. cbn [fold_left mbind option_bind omap list_omap].
  rewrite roleDo_send. destruct (toSendOp o) as [so|]; [|apply IH].
  unfold sendRun. cbn [fold_left mbind option_bind]. destruct (sendDo cap stale bstale debug st so) as [st'|]; [apply IH|].
  transitivity (@None sendState); [|symmetry].
  - clear. induction ops as [|o ops IH]; [done|apply IH].
  - clear. induction (omap toSendOp ops) as [|o l IH]; [done|apply IH].
Qed.

(** What the roles send session [id], as ids and messages. *)
Definition sentToSession (id : Z) (ops : list (option nat * roleOp)) : list (Z * M) :=
  omap (λ o, '(ses, _, x) ← goesOut o.2; if decide (ses = id) then Some x else None) ops.

(** ** What is on the gateway's subject *)

Let bops (ops : list (option nat * roleOp)) : list busOp :=
  omap (λ o, opBus debug o.2 (encoding bstale (opMsg o.2))) (omap toSendOp ops).

Lemma bops_ok ops : Forall opOk (bops ops).
Proof.
  induction ops as [|o ops IH]; [constructor|]. unfold bops in *. cbn [omap list_omap]. unfold toSendOp at 1.
  destruct (goesOut o.2) as [[[ses rid] [id m]]|]; cbn [mbind option_bind]; [|exact IH].
  cbn [omap list_omap opBus fst snd]. constructor; [|exact IH]. cbn. apply Z.mod_pos_bound. lia.
Qed.

(** Of the messages for the gateway of session [id], those for [id] are what the roles sent it. *)
Lemma role_targets si id ops :
  let k := KNode Server_Gateway (GateIDFromSesID id) in
  Forall msg_wf (sentTo Server_Game si k (bops ops)) →
  Forall (λ x, Flag x.1 = Forward ∧ 0 ≤ SesID x.1 ∧ is_u32 (MsgID x.1))
    (targets bstale debug Server_Game si k (omap toSendOp ops)) ∧
  omap (λ x, if decide (SesID x.1 = id) then Some (MsgID x.1, x.2) else None)
    (targets bstale debug Server_Game si k (omap toSendOp ops)) = sentToSession id ops.
Proof.
  intros k. induction ops as [|o ops IH]; [split; [constructor|done]|]. unfold bops, sentToSession, targets, sentTo in *.
  cbn [omap list_omap]. assert (Et : toSendOp o = '(ses, rid, (i, m)) ← goesOut o.2; Some (o.1, OpClient i m ses rid)) by done.
  destruct (goesOut o.2) as [[[ses rid] [i m]]|]; cbn [mbind option_bind] in *; rewrite Et; [|exact IH].
  cbn [omap list_omap opBus opMsg opTarget fst snd mbind option_bind].
  destruct (decide (KNode Server_Gateway (GateIDFromSesID ses) = k)) as [Ek|Hk].
  - intros Hw. apply Forall_cons_1 in Hw as [[Hh _] Hw]. destruct (IH Hw) as [H1 H2]. split.
    + constructor; [|exact H1]. cbn. cbn in Hh. unfold head_wf in Hh. cbn in Hh. width.
    + cbn [omap list_omap msg_head SesID MsgID fst snd]. rewrite H2. by case_decide.
  - intros Hw. destruct (IH Hw) as [H1 H2]. split; [exact H1|]. rewrite H2.
    rewrite decide_False; [done|]. by intros ->.
Qed.

End RoleSend.

(** The payloads a gateway gets for a session, given what arrives. *)
Lemma arrived_for_session {M} `{VTMessage M} reply id (xs : list (Head * M)) ms :
  Forall2 (arrives reply) xs ms →
  Forall (λ x, Flag x.1 = Forward ∧ 0 ≤ SesID x.1 ∧ is_u32 (MsgID x.1)) xs →
  Forall (λ c, Flag (msg_head c) = Forward ∧ 0 ≤ SesID (msg_head c)) ms ∧
  Forall2 (λ y p, ∃ d, decode p = Some (Ok (y.1, d)) ∧ UnmarshalVT (new_msg (msg_type y.2)) d = (y.2, None))
    (omap (λ x, if decide (SesID x.1 = id) then Some (MsgID x.1, x.2) else None) xs) (packet <$> forSession id ms).
Proof.
  induction 1 as [|x m xs ms (Eh & _ & Hu) _ IH]; intros Hf; [split; constructor|].
  apply Forall_cons_1 in Hf as [(Hfl & Hs & Hid) Hf]. destruct (IH Hf) as [H1 H2]. rewrite <- Eh in Hfl, Hs, Hid.
  split; [by constructor|]. unfold forSession in *. cbn [omap list_omap]. rewrite <- Eh. case_decide; [|exact H2].
  cbn [fmap list_fmap]. constructor; [|exact H2]. exists (msg_data m). split; [|exact Hu]. by apply decode_frame.
Qed.

(** C12. What a role sends, its client reads: after any sends of the roles of a game server,
    with every publication of the bus accepted and the session open, the gateway of session
    [id] receives over the bus and puts into the session's queue the messages the roles sent
    to [id], in order, as far as the queue has room (beyond its bound they are refused and
    logged); the session then writes to the connection what was queued before and these
    messages, in order, up to a failing write. Every packet carries the id registered for
    (or, in a release build, given with) the message and parses back to it. A message whose
    id does not check is not sent. Messages are assumed to be encodable and their heads to
    fit their widths. *)
Theorem role_messages_reach_client `{Sonyflake} {M} `{VTLaws M} {C} cap stale bstale debug si
    (ops : list (option nat * roleOp (M := M) (C := C))) reply growcap route id t m s c :
  buffSize ≤ cap → (∀ n, 0 ≤ n → len (stale n) = n) → (∀ n, 0 ≤ n → len (bstale n) = n) →
  (∀ buf (m : M), len buf = SizeVT m → is_ok (MarshalToSizedBufferVT m buf) = true) →
  let k := KNode Server_Gateway (GateIDFromSesID id) in
  let queued := packet <$> write (s_out s) in
  let sent := take (room s) (sentToSession debug id ops) in
  in_table k →
  Forall msg_wf (sentTo Server_Game si k (omap (λ o, opBus debug o.2 (encoding bstale (opMsg o.2))) (omap (toSendOp debug) ops))) →
  refines SessionTable.shardCount t m → m !! id = Some s → closed (s_out s) = false →
  ∃ p bs ms t' m' s' s'' c' err pk,
    roleRun cap stale bstale debug ops (Some (BufPool512, freshBus Server_Game si)) = Some (p, bs) ∧
    mjoin <$> mapM (received reply) (on_subject (subject_of k) (published (λ _, true) (bus_wire (DataBus.Close bs)))) = Some ms ∧
    serverMsgs growcap route ms (Some t) = Some t' ∧ refines SessionTable.shardCount t' m' ∧ m' !! id = Some s' ∧
    drainAndWrite s' c = (s'', c', err) ∧
    written c' = written c ++ take (taken c (length (queued ++ pk))) (queued ++ pk) ∧
    (err = None ↔ taken c (length (queued ++ pk)) = length (queued ++ pk)) ∧
    Forall2 (λ x p, ∃ d, decode p = Some (Ok (x.1, d)) ∧ UnmarshalVT (new_msg (msg_type x.2)) d = (x.2, None)) sent pk.
Proof.
  intros Hcap Hst Hbs Hm k queued sent Hk Hw Hr Hs Hc.
  destruct (role_targets bstale debug si id ops Hw) as [Hf Hsent].
  destruct (sendRun_delivers cap stale bstale debug Hbs Hm Hcap Hst Server_Game si (omap (toSendOp debug) ops) k reply)
    as (p & bs & ms & E1 & E2 & Har); [apply bops_ok|done|by eexists|done|].
  destruct (arrived_for_session reply id _ ms Har Hf) as [Hfw Hpk]. fold k in Hsent. rewrite Hsent in Hpk.
  destruct (serverMsgs_full growcap route id ms t m s) as (t' & m' & s' & E3 & Hr' & Hs' & Hw'); [done..|].
  destruct (drainAndWrite_spec s' c) as (s'' & c' & err & E4 & _ & _ & Hwr & He).
  assert (Hq : packet <$> write (s_out s') = queued ++ take (room s) (packet <$> forSession id ms)) by (by rewrite Hw', fmap_app, fmap_take).
  assert (Hl : length (write (s_out s')) = length (queued ++ take (room s) (packet <$> forSession id ms))) by (by rewrite <- Hq, length_fmap).
  rewrite Hq, Hl in Hwr. rewrite Hl in He.
  exists p, bs, ms, t', m', s', s'', c', err, (take (room s) (packet <$> forSession id ms)).
  rewrite roleRun_send. splits; try done. by apply Forall2_take.
Qed.

Definition demoSender (id ses : Z) : Role unit :=
  mkRole id ses [] (mkRD id 0 0 0 0 0 0 EmptyString) 0 0 0 0 0 0 false false.
Definition demoRoleOps : list (option nat * roleOp (M := demoMsg) (C := unit)) :=
  let r := demoSender 6 (Gen 3 9) in
  [(None, RSendS r ("S2CEcho", [true; false])); (Some 0%nat, RSend r 101 ("S2CEcho", [true]));
   (None, RSend (demoSender 7 (Gen 3 10)) 101 ("S2CLogin", [])); (Some 0%nat, RSend r 101 ("S2CLogin", [true]))].

Lemma role_messages_reach_client_witness :
  sentToSession true (Gen 3 9) demoRoleOps = [(106, ("S2CEcho", [true; false])); (101, ("S2CLogin", [true]))] ∧
  ∃ p bs s' s'' c' err,
    roleRun buffSize zeros zeros true demoRoleOps (Some (BufPool512, freshBus Server_Game 1)) = Some (p, bs) ∧
    drainAndWrite s' (mkConn [] None) = (s'', c', err) ∧ err = None ∧ length (written c') = 2%nat ∧
    Forall2 (λ x p, ∃ d, decode p = Some (Ok (x.1, d)) ∧ UnmarshalVT (new_msg (msg_type x.2)) d = (x.2, None))
      (sentToSession true (Gen 3 9) demoRoleOps) (written c').
Proof.
  split; [vm_compute; reflexivity|].
  destruct (role_messages_reach_client buffSize zeros zeros true 1 demoRoleOps "r" (λ _ n, n) (λ _ t, Some t) (Gen 3 9)
    (default [] (SessionTable.Add (Gen 3 9) (start 16 (Gen 3 9)) SessionTable.init)) (<[Gen 3 9 := start 16 (Gen 3 9)]> ∅)
    (start 16 (Gen 3 9)) (mkConn [] None))
    as (p & bs & ms & t' & m' & s' & s'' & c' & err & pk & E1 & _ & _ & _ & _ & E4 & Hw & He & Hpk).
  - done.
  - exact len_zeros.
  - exact len_zeros.
  - intros buf m Hl. cbn in *. by rewrite decide_False by lia.
  - vm_compute. reflexivity.
  - dec.
  - destruct (sAdd_refines SessionTable.shardCount SessionTable.init (∅ : gmap Z Session) (Gen 3 9) (start 16 (Gen 3 9)))
      as (t1 & E1 & Hr); [done|done|by apply mkShards_refines|].
    unfold SessionTable.Add. rewrite E1. exact Hr.
  - apply lookup_insert_eq.
  - done.
  - cbn zeta in Hw, He, Hpk. change (write (s_out (start 16 (Gen 3 9)))) with (@nil MsgSend) in Hw, He.
    rewrite fmap_nil, app_nil_l in Hw, He. pose proof (Forall2_length _ _ _ Hpk) as Hl. cbn [written app] in Hw.
    rewrite take_ge in Hpk, Hl by (vm_compute; lia).
    rewrite take_ge in Hw by (rewrite <- Hl; vm_compute; lia). exists p, bs, s', s'', c', err. rewrite Hw.
    splits; [exact E1|exact E4|apply He; rewrite <- Hl; vm_compute; reflexivity|rewrite <- Hl; vm_compute; reflexivity|exact Hpk].
Defined.
