(* ===== verification/Components.v ===== *)
(** * internal/game/component: the components of a role

    [example/data.go], [example/empty.go], [debug/data.go], [example/handle.go]: the
    components every role has, with the counters that must agree when the role logs out, and
    the echo handlers. [role.Run] is the frame around them: [Online], the events, and the
    deferred [Offline], whose panic skips everything after it. *)

From S2P Require Import Prelude DataBus Role.

(** ** Data *)

Record exData := mkEx {
  ex_OnlineCnt : Z; ex_OfflineCnt : Z; ex_Today : bool; ex_Name : string; ex_Award : gset Z; ex_Info : list Z; ex_Cnt : Z;
  ex_cur : Z; ex_tmp : gset Z; ex_dirty : bool }.
Record dbgData := mkDbg { db_OnlineCnt : Z; db_OfflineCnt : Z; db_dirty : bool }.

Inductive comp := CExample (d : exData) | CEmpty | CDebug (d : dbgData).

(** [example.New], [debug.New]. *)
Definition example_New : exData := mkEx 0 0 false EmptyString ∅ [] 0 0 ∅ false.
Definition debug_New : dbgData := mkDbg 0 0 false.

Definition comp_IsDirty (c : comp) : bool :=
  match c with CExample d => ex_dirty d | CEmpty => false | CDebug d => db_dirty d end.
Definition comp_ClearDirty (c : comp) : comp :=
  match c with
  | CExample d => CExample (mkEx (ex_OnlineCnt d) (ex_OfflineCnt d) (ex_Today d) (ex_Name d) (ex_Award d) (ex_Info d) (ex_Cnt d) (ex_cur d) (ex_tmp d) false)
  | CEmpty => CEmpty
  | CDebug d => CDebug (mkDbg (db_OnlineCnt d) (db_OfflineCnt d) false)
  end.

#[export] Instance compIComp : IComp comp := {|
  IsDirty := comp_IsDirty; ClearDirty := comp_ClearDirty;
  implements c h :=
    match c, h with
    | CExample _, (HOnline | HOffline | HTick) | CDebug _, (HOnline | HOffline) => true
    | _, _ => false
    end |}.

(** ** Hooks *)

Definition example_Online (d : exData) : exData :=
  let on := i32 (ex_OnlineCnt d + 1) in
  mkEx on (ex_OfflineCnt d) true "testName" ({[on]} ∪ ex_Award d) (ex_Info d ++ [on]) (ex_Cnt d) on ({[on]} ∪ ex_tmp d) (ex_dirty d).
(** The counter first; a mismatch panics. *)
Definition example_Offline (d : exData) : option exData :=
  let off := i32 (ex_OfflineCnt d + 1) in
  if decide (ex_OnlineCnt d ≠ off) then None
  else Some (mkEx (ex_OnlineCnt d) off (ex_Today d) (ex_Name d) (ex_Award d) (ex_Info d) (ex_Cnt d) (ex_cur d) (ex_tmp d) (ex_dirty d)).
Definition example_OnTick (d : exData) : exData :=
  mkEx (ex_OnlineCnt d) (ex_OfflineCnt d) (ex_Today d) (ex_Name d) (ex_Award d) (ex_Info d) (i64 (ex_Cnt d + 1)) (ex_cur d) (ex_tmp d) (ex_dirty d).

(** [debug.Online] also reads the stored role back and logs a wrong id, which changes nothing. *)
Definition debug_Online (d : dbgData) : dbgData := mkDbg (i32 (db_OnlineCnt d + 1)) (db_OfflineCnt d) true.
Inductive hget := HGErr | HGNil | HGVal (s : string).
Definition debug_logs (unmarshal : string → option Z) (stored : hget) (roleID : Z) : option string :=
  match stored with
  | HGErr => Some "redis hget"
  | HGNil => None
  | HGVal s => match unmarshal s with
               | None => Some "json unmarshal"
               | Some id => if decide (roleID ≠ id) then Some "role id err" else None
               end
  end.
Definition debug_Offline (d : dbgData) : option dbgData :=
  let off := i32 (db_OfflineCnt d + 1) in
  if decide (db_OnlineCnt d ≠ off) then None else Some (mkDbg (db_OnlineCnt d) off (db_dirty d)).

Definition comp_hook (h : hook) (c : comp) : option comp :=
  match c, h with
  | CExample d, HOnline => Some (CExample (example_Online d))
  | CExample d, HOffline => CExample <$> example_Offline d
  | CExample d, HTick => Some (CExample (example_OnTick d))
  | CDebug d, HOnline => Some (CDebug (debug_Online d))
  | CDebug d, HOffline => CDebug <$> debug_Offline d
  | _, _ => Some c
  end.

(** The hook of the component in a slot, where it does not panic. *)
Definition callC (i : nat) (h : hook) (now : Z) (r : Role comp) : Role comp :=
  match r_Comps r !! i with
  | Some (Some c) => set_Comps (<[i := Some (default c (comp_hook h c))]> (r_Comps r)) r
  | _ => r
  end.
Definition panics (h : hook) (v : option comp) : bool :=
  match v with Some c => bool_decide (comp_hook h c = None) | None => false end.

(** ** The life of a role *)

(** [component.Create]. *)
Definition create_Create : list (option comp) := Role.Create (CExample example_New) CEmpty (CDebug debug_New).

Section Life.
Context `{Calendar} (mD : RoleData → result string) (mC : comp → result string).
Context (conf : TimeConf) (sv : DataToSave → bool → bool).

(** What happens while a role is online. *)
Inductive rturn := TTick (now cur : Z) | THeartBeat (now : Z) | TEcho.
Definition turnR (r : Role comp) (t : rturn) : Role comp :=
  match t with
  | TTick now cur => (OnTick mD mC callC conf sv now cur r).1
  | THeartBeat now => onHeartBeat now r
  | TEcho => r
  end.

Definition session (now cur : Z) (ts : list rturn) (r : Role comp) : Role comp :=
  fold_left turnR ts (Role.Online mD mC callC conf sv now cur r).1.

(** The deferred function of [Run]: [None] when a component panics in [Offline]; then the role is not unregistered, its data
    not handed to the logon service, nobody is told, and [Wait] is never done. *)
Definition run_Offline (now : Z) (r : Role comp) : option (Role comp * list notice) :=
  if existsb (panics HOffline) (r_Comps r) then None else Some (Role.Offline mD mC callC now r).

(** ** The counters *)

(** A role with the components of the factory and these counters. *)
Definition counted (r : Role comp) (eon eoff don doff : Z) : Prop :=
  ∃ a d, r_Comps r = Role.Create (CExample a) CEmpty (CDebug d) ∧
    ex_OnlineCnt a = eon ∧ ex_OfflineCnt a = eoff ∧ db_OnlineCnt d = don ∧ db_OfflineCnt d = doff.

Lemma tickComps_counted d1 d2 d3 now r eon eoff don doff :
  counted r eon eoff don doff → counted (tickComps callC d1 d2 d3 now r) eon eoff don doff.
Proof.
  intros (a & d & E & <- & <- & <- & <-). destruct r; cbn in E; subst. exists (example_OnTick a), d.
  split; [|done]. unfold tickComps. cbn. destruct d1, d2, d3; reflexivity.
Qed.

Lemma MinuteLoop_counted now r eon eoff don doff :
  counted r eon eoff don doff → counted (MinuteLoop callC now r) eon eoff don doff.
Proof. intros (a & d & E & Hc). destruct r; cbn in E; subst. exists a, d. done. Qed.

Lemma save_counted both r eon eoff don doff :
  counted r eon eoff don doff → counted (save mD mC sv both r).1 eon eoff don doff.
Proof.
  intros (a & d & E & <- & <- & <- & <-). unfold save. destruct (marshal mD mC false r) as [data|]; [|by exists a, d].
  destruct (ds_IsEmpty data); [by exists a, d|]. destruct (sv data both); [|by exists a, d]. unfold counted. cbn. rewrite E. cbn.
  unfold clearDirty. cbn. destruct (ex_dirty a), (db_dirty d); eexists _, _; split; done.
Qed.

Lemma OnTick_counted now cur r eon eoff don doff :
  counted r eon eoff don doff → counted (OnTick mD mC callC conf sv now cur r).1 eon eoff don doff.
Proof.
  intros Hc. unfold OnTick. set (r1 := set_times _ _ _ _ r). set (r2 := if decide _ then _ else r1).
  assert (H2 : counted r2 eon eoff don doff).
  { unfold r2. case_decide; [|done]. by apply MinuteLoop_counted. }
  set (r3 := tickComps _ _ _ _ _ _). assert (H3 : counted r3 eon eoff don doff) by (by apply tickComps_counted).
  set (r4 := set_Data _ r3). assert (H4 : counted r4 eon eoff don doff) by done.
  unfold autoSave. destruct (decide (Sub now (lastSaveRedis r4) > _)).
  - destruct (decide (Sub now (lastSaveDB r4) > _)).
    + pose proof (save_counted true r4 _ _ _ _ H4). destruct (save mD mC sv true r4) as [r5 out]. cbn in *. unfold Role.heartbeat. by case_decide.
    + pose proof (save_counted false r4 _ _ _ _ H4). destruct (save mD mC sv false r4) as [r5 out]. cbn in *. unfold Role.heartbeat. by case_decide.
  - cbn. unfold Role.heartbeat. by case_decide.
Qed.

Lemma Online_counted now cur r eon eoff don doff :
  counted r eon eoff don doff → counted (Role.Online mD mC callC conf sv now cur r).1 (i32 (eon + 1)) eoff (i32 (don + 1)) doff.
Proof.
  intros Hc. unfold Role.Online. match goal with |- context [OnTick mD mC callC conf sv now cur ?x] => set (r1 := x) end.
  assert (H1 : counted r1 eon eoff don doff) by done.
  pose proof (OnTick_counted now cur r1 _ _ _ _ H1) as H2. destruct (OnTick mD mC callC conf sv now cur r1) as [r2 out]. cbn in *.
  destruct H2 as (a & d & E & <- & <- & <- & <-). destruct r2; cbn in E; subst. exists (example_Online a), (debug_Online d). done.
Qed.

Lemma session_counted now cur ts r eon eoff don doff :
  counted r eon eoff don doff → counted (session now cur ts r) (i32 (eon + 1)) eoff (i32 (don + 1)) doff.
Proof.
  intros Hc. unfold session. pose proof (Online_counted now cur r _ _ _ _ Hc) as H1. revert H1.
  generalize (Role.Online mD mC callC conf sv now cur r).1 as r1. clear Hc.
  induction ts as [|t ts IH]; intros r1 H1; [done|]. apply IH. destruct t; [by apply OnTick_counted|done|done].
Qed.

Lemma i32_succ_inj x y : is_i32 x → is_i32 y → i32 (x + 1) = i32 (y + 1) ↔ x = y.
Proof.
  unfold is_i32, i32. intros Hx Hy. split; [|by intros ->]. intros E.
  assert (E2 : (x + 1 + 2 ^ 31) mod 2 ^ 32 = (y + 1 + 2 ^ 31) mod 2 ^ 32) by lia.
  destruct (decide (x = 2 ^ 31 - 1)) as [->|], (decide (y = 2 ^ 31 - 1)) as [->|]; [done|..].
  - rewrite (Z.mod_small (y + 1 + 2 ^ 31)) in E2 by lia. change ((2 ^ 31 - 1 + 1 + 2 ^ 31) mod 2 ^ 32) with 0 in E2. lia.
  - rewrite (Z.mod_small (x + 1 + 2 ^ 31)) in E2 by lia. change ((2 ^ 31 - 1 + 1 + 2 ^ 31) mod 2 ^ 32) with 0 in E2. lia.
  - rewrite !Z.mod_small in E2 by lia. lia.
Qed.

(** [Offline] panics exactly when a counter is off by something. *)
Lemma Offline_counted now r eon eoff don doff :
  counted r eon eoff don doff →
  if decide (eon = i32 (eoff + 1) ∧ don = i32 (doff + 1))
  then ∃ r', run_Offline now r = Some (r', [NUnregister (r_ID r') (r_SesID r')] ++
           (match marshal mD mC true r' with Ok data => [NLogout data] | Err _ => [] end) ++
           [NGateDisconnect (r_SesID r') Reason_Kick; NCenter (r_ID r') 0 false]) ∧
         counted r' eon eon don don ∧ r_ID r' = r_ID r ∧ r_SesID r' = r_SesID r
  else run_Offline now r = None.
Proof.
  intros (a & d & E & <- & <- & <- & <-). unfold run_Offline. destruct r as [id ses comps data ns sr sd lm hb n di ca]. cbn in E. subst comps.
  cbn [r_Comps Role.Create existsb panics comp_hook orb]. unfold example_Offline, debug_Offline.
  destruct (decide (ex_OnlineCnt a = i32 (ex_OfflineCnt a + 1) ∧ db_OnlineCnt d = i32 (db_OfflineCnt d + 1))) as [[Ea Ed]|Hn].
  - rewrite !decide_False by (intros Hx; by apply Hx). eexists. split; [reflexivity|]. split; [|done].
    unfold eachComp. cbn. unfold callIf, implementsAt, callC. cbn. unfold example_Offline, debug_Offline.
    rewrite !decide_False by (intros Hx; by apply Hx). cbn. eexists _, _. split; [reflexivity|]. cbn. auto.
  - destruct (decide (ex_OnlineCnt a ≠ i32 (ex_OfflineCnt a + 1))); [done|]. cbn.
    destruct (decide (db_OnlineCnt d ≠ i32 (db_OfflineCnt d + 1))); [done|]. exfalso. apply Hn.
    split; by apply dec_stable.
Qed.

End Life.

(** A role logs out cleanly exactly when its counters agreed when it was loaded, whatever
    happened while it was online: then it is unregistered, its complete data goes to the
    logon service, gateway and center are told, and the counters agree again. Otherwise the
    deferred [Offline] panics and none of this happens. *)
Theorem logout_iff_balanced `{Calendar} mD mC conf sv now cur ts now' (r : Role comp) eon eoff don doff :
  counted r eon eoff don doff → is_i32 eon → is_i32 eoff → is_i32 don → is_i32 doff →
  let r1 := session mD mC conf sv now cur ts r in
  if decide (eon = eoff ∧ don = doff)
  then ∃ r' notices, run_Offline mD mC now' r1 = Some (r', notices) ∧ counted r' (i32 (eon + 1)) (i32 (eon + 1)) (i32 (don + 1)) (i32 (don + 1)) ∧
         (∀ data, marshal mD mC true r' = Ok data →
            notices = [NUnregister (r_ID r1) (r_SesID r1); NLogout data; NGateDisconnect (r_SesID r1) Reason_Kick; NCenter (r_ID r1) 0 false])
  else run_Offline mD mC now' r1 = None.
Proof.
  intros Hc H1 H2 H3 H4 r1. pose proof (session_counted mD mC conf sv now cur ts r _ _ _ _ Hc) as Hs. fold r1 in Hs.
  pose proof (Offline_counted mD mC now' r1 _ _ _ _ Hs) as Ho.
  destruct (decide (eon = eoff ∧ don = doff)) as [[<- <-]|Hn].
  - rewrite decide_True in Ho by done. destruct Ho as (r' & E & Hc' & Ei & Es). exists r'. eexists. split; [exact E|]. split; [done|].
    intros data Ed. rewrite Ed, Ei, Es. done.
  - rewrite decide_False in Ho; [done|]. rewrite !i32_succ_inj by done. done.
Qed.

(** A calendar for the examples is [Role]'s; the JSON of the examples is the counters. *)
Definition demoJson (c : comp) : result string :=
  Ok (match c with CExample d => Itoa (ex_OnlineCnt d) | CEmpty => "{}" | CDebug d => Itoa (db_OnlineCnt d - db_OfflineCnt d) end).
Definition demoPlain (d : RoleData) : result string := Ok (rd_Name d).
Definition newRole5 : Role comp := mkRole 5 6 create_Create demoRD 0 zeroTime zeroTime zeroTime zeroTime 0 false false.

Lemma logout_iff_balanced_witness :
  let r1 := session demoPlain demoJson (mkConf 300) (λ _ _, true) 0 0 [TTick 1000000000 1000000000; TEcho] newRole5 in
  ∃ r' notices, run_Offline demoPlain demoJson 2000000000 r1 = Some (r', notices) ∧ counted r' 1 1 1 1.
Proof.
  pose proof (logout_iff_balanced demoPlain demoJson (mkConf 300) (λ _ _, true) 0 0 [TTick 1000000000 1000000000; TEcho] 2000000000 newRole5 0 0 0 0) as H.
  cbv zeta in H. rewrite decide_True in H by done.
  destruct H as (r' & ns & E & Hc & _); [by exists example_New, debug_New|vm_compute; intuition discriminate..|]. exists r', ns. split; [exact E|exact Hc].
Defined.

(** ** After a crash *)

(** What the code relies on in its JSON library: a component is decoded into one of its
    kind, and the debug component's counters come back. *)
Definition sameKind (c0 c : comp) : Prop :=
  match c0, c with CExample _, CExample _ | CEmpty, CEmpty | CDebug _, CDebug _ => True | _, _ => False end.
Definition jsonLaw (mC : comp → result string) (uC : comp → string → result comp) : Prop :=
  (∀ c0 s c, uC c0 s = Ok c → sameKind c0 c) ∧
  ∀ d, ∃ s, mC (CDebug d) = Ok s ∧ s ≠ EmptyString ∧
    ∀ d', uC (CDebug debug_New) s = Ok (CDebug d') → db_OnlineCnt d' = db_OnlineCnt d ∧ db_OfflineCnt d' = db_OfflineCnt d.

Lemma load_none (uC : comp → string → result comp) data cs i out :
  load_comps uC data (None :: cs) i = Ok out → ∃ out', out = None :: out' ∧ load_comps uC data cs (i + 1) = Ok out'.
Proof. cbn [load_comps]. destruct (load_comps uC data cs (i + 1)) as [l|]; [|done]. intros [= <-]. by exists l. Qed.

Lemma load_some (uC : comp → string → result comp) data (c : comp) cs i out :
  load_comps uC data (Some c :: cs) i = Ok out →
  ∃ c' out', out = Some c' :: out' ∧ (ds_Get i data = EmptyString ∧ c' = c ∨ ds_Get i data ≠ EmptyString ∧ uC c (ds_Get i data) = Ok c') ∧
    load_comps uC data cs (i + 1) = Ok out'.
Proof.
  cbn [load_comps]. destruct (decide (ds_Get i data = EmptyString)) as [E|E]; [|destruct (uC c (ds_Get i data)) as [c'|] eqn:Eu; [|done]];
    (destruct (load_comps uC data cs (i + 1)) as [l|]; [|done]); intros [= <-]; eexists _, l; auto.
Qed.

(** A role loaded from a store with this entry has its counters. *)
Lemma load_debug `{Calendar} mC uD uC store id ses now r d s :
  jsonLaw mC uC → mC (CDebug d) = Ok s → store !! "TCDebug" = Some s →
  NewRole uD uC create_Create (mkSave id store) ses now = Ok r →
  ∃ eon eoff, counted r eon eoff (db_OnlineCnt d) (db_OfflineCnt d).
Proof.
  intros [Hk Hd] Es Est E. destruct (Hd d) as (s' & Es' & Hne & Hback). assert (s' = s) as -> by congruence.
  unfold NewRole in E. destruct (uD _) as [base|]; [|done].
  destruct (load_comps uC (mkSave id store) create_Create 0) as [cs|] eqn:El; [|done].
  assert (Hcs : r_Comps r = cs) by (case_decide; by injection E as <-). clear E. unfold counted. rewrite Hcs.
  apply load_none in El as (o1 & -> & El). apply load_some in El as (c1 & o2 & -> & H1 & El).
  apply load_some in El as (c2 & o3 & -> & H2 & El). apply load_some in El as (c3 & o4 & -> & H3 & El).
  apply load_none in El as (o5 & -> & El). injection El as <-.
  assert (G3 : ds_Get (0 + 1 + 1 + 1) (mkSave id store) = s).
  { unfold ds_Get. change (GetCompName (0 + 1 + 1 + 1)) with "TCDebug". cbn [ds_Data]. by rewrite Est. }
  rewrite G3 in H3. destruct H3 as [[? _]|[_ H3]]; [done|].
  assert (K1 : sameKind (CExample example_New) c1) by (destruct H1 as [[_ ->]|[_ ?]]; [done|by eapply Hk]).
  assert (K2 : sameKind CEmpty c2) by (destruct H2 as [[_ ->]|[_ ?]]; [done|by eapply Hk]).
  pose proof (Hk _ _ _ H3) as K3. destruct c1 as [a| |], c2, c3 as [| |d3]; try done. destruct (Hback d3 H3) as [<- <-].
  exists (ex_OnlineCnt a), (ex_OfflineCnt a), a, d3. done.
Qed.

(** A save after [Online] takes the debug component with it: it is dirty. *)
Lemma online_saves_debug `{Calendar} mD mC conf sv now cur both (r r1 : Role comp) eon eoff don doff s :
  counted r eon eoff don doff → r1 = (Role.Online mD mC callC conf sv now cur r).1 → mD (r_Data r1) = Ok s →
  (∀ d, ∃ j, mC (CDebug d) = Ok j) →
  ∃ data d j, (save mD mC sv both r1).2 = Some (data, both) ∧ mC (CDebug d) = Ok j ∧ ds_Data data !! "TCDebug" = Some j ∧
    ds_RoleID data = r_ID r1 ∧ db_OnlineCnt d = i32 (don + 1) ∧ db_OfflineCnt d = doff.
Proof.
  intros Hc -> Es Hj.
  assert (H1 : ∃ a d, r_Comps (Role.Online mD mC callC conf sv now cur r).1 = Role.Create (CExample a) CEmpty (CDebug d) ∧
    db_dirty d = true ∧ db_OnlineCnt d = i32 (don + 1) ∧ db_OfflineCnt d = doff).
  { clear Es. unfold Role.Online. match goal with |- context [OnTick mD mC callC conf sv now cur ?x] => set (r0 := x) end.
    assert (H0 : counted r0 eon eoff don doff) by done.
    pose proof (OnTick_counted mD mC conf sv now cur r0 _ _ _ _ H0) as H2. destruct (OnTick mD mC callC conf sv now cur r0) as [r2 out]. cbn in *.
    destruct H2 as (a & d & E & <- & <- & <- & <-). destruct r2; cbn in E; subst. by exists (example_Online a), (debug_Online d). }
  destruct H1 as (a & d & Ec & Hdirty & Hon & Hoff). destruct (Hj d) as (j & Ej).
  unfold save. rewrite (marshal_shape mD mC false _ _ _ _ s Ec Es). cbn [orb IsDirty compIComp comp_IsDirty].
  rewrite Hdirty, Ej. cbn [setIf]. match goal with |- context [<["TCDebug" := j]> ?m] => set (m0 := m) end.
  assert (He : ds_IsEmpty (mkSave (r_ID (Role.Online mD mC callC conf sv now cur r).1) (<["TCDebug" := j]> m0)) = false)
    by (unfold ds_IsEmpty; cbn; apply bool_decide_eq_false_2, insert_non_empty).
  rewrite He.
  destruct (sv _ both); eexists _, d, j; (split; [reflexivity|]); cbn; by rewrite lookup_insert_eq.
Qed.

(** A crash while a role is online poisons it. The role logged in with counters that agree
    and was saved once; the process died. Loaded from what was stored (whatever else is in
    the store), it logs in, but no logout of it ever completes: it is not unregistered, its
    data is not handed over, and whoever waits for the role waits forever. *)
Theorem crash_blocks_logout `{Calendar} mD mC uD uC conf sv now cur both (r r1 : Role comp) eon eoff don s data store ses now1 r2 :
  jsonLaw mC uC → counted r eon eoff don don → is_i32 don →
  r1 = (Role.Online mD mC callC conf sv now cur r).1 → mD (r_Data r1) = Ok s →
  (save mD mC sv both r1).2 = Some (data, both) →
  NewRole uD uC create_Create (mkSave (ds_RoleID data) (ds_Data data ∪ store)) ses now1 = Ok r2 →
  ∀ sv' now2 cur2 ts now3, run_Offline mD mC now3 (session mD mC conf sv' now2 cur2 ts r2) = None.
Proof.
  intros Hj Hc Hi E1 Es Esave Eload sv' now2 cur2 ts now3.
  destruct (online_saves_debug mD mC conf sv now cur both r r1 _ _ _ _ s Hc E1 Es) as (data' & d & j & E2 & Ej & El & _ & Hon & Hoff).
  { intros d. destruct Hj as [_ Hj]. destruct (Hj d) as (j & ? & _). by exists j. }
  assert (data' = data) as -> by congruence.
  destruct (load_debug mC uD uC _ _ _ _ r2 d j Hj Ej (lookup_union_Some_l _ _ _ _ El) Eload) as (eon2 & eoff2 & Hc2).
  pose proof (session_counted mD mC conf sv' now2 cur2 ts r2 _ _ _ _ Hc2) as Hs.
  pose proof (Offline_counted mD mC now3 _ _ _ _ _ Hs) as Ho. rewrite decide_False in Ho; [done|].
  rewrite Hon, Hoff. intros [_ E]. apply (proj1 (i32_succ_inj _ _ (i32_range _) Hi)) in E.
  unfold i32 in E. unfold is_i32 in Hi. destruct (decide (don = 2 ^ 31 - 1)) as [->|]; [vm_compute in E; discriminate|]. rewrite Z.mod_small in E by lia. lia.
Qed.

(** A codec for the example: the two counters as binary digits. *)
Definition dig0 : Ascii.ascii := Ascii.ascii_of_nat 48.
Definition dig1 : Ascii.ascii := Ascii.ascii_of_nat 49.
Definition digE : Ascii.ascii := Ascii.ascii_of_nat 101.
Fixpoint bits (p : positive) : string :=
  match p with xH => String digE EmptyString | xO p => String dig0 (bits p) | xI p => String dig1 (bits p) end.
Fixpoint unbits (s : string) : positive :=
  match s with
  | String c s => if decide (c = digE) then xH else if decide (c = dig0) then xO (unbits s) else xI (unbits s)
  | EmptyString => xH
  end.
Lemma unbits_bits p : unbits (bits p) = p.
Proof. induction p as [p IH|p IH|]; cbn; by rewrite ?IH. Qed.

Definition demoEnc (c : comp) : result string :=
  Ok (match c with CDebug d => bits (encode (db_OnlineCnt d, db_OfflineCnt d)) | _ => EmptyString end).
Definition demoDec (c0 : comp) (s : string) : result comp :=
  match c0 with
  | CDebug _ => match decode (A := Z * Z) (unbits s) with
                | Some (on, off) => Ok (CDebug (mkDbg on off false))
                | None => Err (ErrMsg "json")
                end
  | _ => Ok c0
  end.

Lemma demo_law : jsonLaw demoEnc demoDec.
Proof.
  split.
  - intros [d| |d] s c; cbn; [by intros [= <-]..|]. destruct (decode _) as [[on off]|]; [|done]. by intros [= <-].
  - intros d. eexists. split; [reflexivity|]. split.
    + by destruct (encode (db_OnlineCnt d, db_OfflineCnt d)).
    + intros d'. cbn. rewrite unbits_bits, decode_encode. by intros [= <-].
Qed.

Lemma crash_blocks_logout_witness :
  ∃ data r2, (save demoPlain demoEnc (λ _ _, true) false (Role.Online demoPlain demoEnc callC (mkConf 300) (λ _ _, true) 0 0 newRole5).1).2 = Some (data, false) ∧
    NewRole (λ _, Ok demoRD) demoDec create_Create (mkSave (ds_RoleID data) (ds_Data data ∪ ∅)) 9 0 = Ok r2 ∧
    run_Offline demoPlain demoEnc 0 (session demoPlain demoEnc (mkConf 300) (λ _ _, true) 0 0 [TEcho] r2) = None.
Proof.
  eexists _, _. split; [vm_compute; reflexivity|]. split; [vm_compute; reflexivity|].
  eapply (crash_blocks_logout demoPlain demoEnc (λ _, Ok demoRD) demoDec (mkConf 300) (λ _ _, true) 0 0 false newRole5 _ 0 0 0 "n"
    (mkSave 5 (<["TCDebug" := bits (encode (1, 0))]> ∅)) ∅ 9 0 _ demo_law).
  - by exists example_New, debug_New.
  - vm_compute. intuition discriminate.
  - reflexivity.
  - reflexivity.
  - vm_compute. reflexivity.
  - vm_compute. reflexivity.
Defined.

(** ** Echo *)

Record Echo := mkEcho { ec_ID : Z; ec_Name : string; ec_Level : Z; ec_Exp : Z; ec_Data : string; ec_Time : Z }.

(** [onEchoCli]: a message of the pool, every field of which is set, and what is sent. *)
Definition onEchoCli (pooled req : Echo) : Echo :=
  mkEcho (ec_ID req) (ec_Name req) (ec_Level req) (ec_Exp req) (ec_Data req) (ec_Time req).
(** [onEchoRpc] and [onEchoWithRoleRpc]: the answer has no time. *)
Definition onEchoRpc (req res : Echo) : Echo :=
  mkEcho (ec_ID req) (ec_Name req) (ec_Level req) (ec_Exp req) (ec_Data req) (ec_Time res).
Definition onEchoWithRoleRpc (req res : Echo) : Echo :=
  mkEcho (ec_ID req) (ec_Name req) (ec_Level req) (ec_Exp req) (ec_Data req) (ec_Time res).

(** The answer to an echo is the request, whatever the pooled message held. *)
Lemma echo_answer pooled req : onEchoCli pooled req = req.
Proof. by destruct req. Qed.
