(* ===== verification/Config.v ===== *)
(** * pkg/cfg: the configuration of a process

    [cfg.go], [get.go], [put.go], [default.go], and the trace rules of [pkg/gnet/trace] that
    consult it. The configuration is read from etcd at start-up and again on every change of
    its key; a process and the key are a step system. Viper's decoding of a text is an
    argument. *)

From S2P Require Import Prelude DataBus Role.

(** ** cfg.go *)

Record MsgQueue := mkMQ { mq_SAddr : string; mq_Timeout : Z; mq_MaxTryConn : Z; mq_User : string; mq_Pwd : string }.
Record RedisConf := mkRC { rc_Address : list string; rc_DB : Z; rc_Password : string }.
Record ClickHouse := mkCH { ch_Addr : list string; ch_DBName : string; ch_Account : string; ch_Pwd : string; ch_Count : Z }.
Record FlagConf := mkFC { fc_TestPay : bool; fc_TraceMsg : bool; fc_CheckClientVersion : bool; fc_GmEnable : bool }.
Record AesConf := mkAC { ac_Key : string; ac_IV : string }.
Record LogConf := mkLC {
  lc_Level : Z; lc_Console : bool; lc_ConsoleColor : bool; lc_MaxSize : Z; lc_MaxBackups : Z; lc_MaxAge : Z; lc_Compress : bool;
  lc_NoticeUrl : string; lc_CfgNoticeUrl : string; lc_PayWanUrl : string; lc_ExtraWhiteListMsgIds : gmap Z (list Z); lc_IId : string }.

Record Config := mkConfig {
  c_IID : string; c_MsgQueue : MsgQueue; c_LogQueue : MsgQueue; c_Mongo : string; c_Redis : RedisConf;
  c_ClickHouse : ClickHouse; c_LogInfo : LogConf; c_Flag : FlagConf; c_Proxy : string; c_Time : TimeConf; c_Aes : AesConf }.

Definition set_time (t : TimeConf) (c : Config) : Config :=
  mkConfig (c_IID c) (c_MsgQueue c) (c_LogQueue c) (c_Mongo c) (c_Redis c) (c_ClickHouse c) (c_LogInfo c) (c_Flag c) (c_Proxy c) t (c_Aes c).

(** [SetDefaultValue] of the whole configuration. *)
Definition withDefaults (c : Config) : Config := set_time (SetDefaultValue (c_Time c)) c.

Definition configPath (iid version : string) : string := "/" +:+ iid +:+ "/" +:+ version +:+ "/config/config".
Definition versionPath (iid : string) : string := "/" +:+ iid +:+ "/version".

(** ** get.go *)

(** What etcd answers a read: a failed connection or request, or the value. *)
Inductive answer := AFailed | AValue (v : option string).

Definition getVersion (a : answer) : string :=
  match a with
  | AFailed => EmptyString
  | AValue None => "0.0"
  | AValue (Some v) => v
  end.

(** A key's changes, oldest first: [None] is a deletion. *)
Definition current (hist : list (option string)) : option string := default None (last hist).

Section Config.
Context (decode : string → option Config).

(** [ReadRemoteConfig] and [Unmarshal]; a missing key is an error of the first. *)
Definition readRemote (ok : bool) (hist : list (option string)) : option Config :=
  if ok then v ← current hist; decode v else None.

(** [cfg.Get]: [None] is the panic of the type assertion on an empty value. *)
Definition Get (cfg : option Config) : option Config := cfg.

(** One event of the watch: only puts are looked at, and then the latest value is read. *)
Definition onWatchEvent (ok : bool) (hist : list (option string)) (ev : option string) (cfg : option Config) : option Config :=
  match ev with
  | None => cfg
  | Some _ => match readRemote ok hist with Some c => Some (withDefaults c) | None => cfg end
  end.

(** Where [Load] and its goroutine are: [KWatching from n]: the watch began after [from]
    changes and has delivered the first [n]. *)
Inductive kphase := KStart | KPanicked | KLoaded | KWatching (from n : nat) | KStopped.

Record ksys := mkK { k_hist : list (option string); k_cfg : option Config; k_phase : kphase }.

(** [ok]: no read fails and no watch ends. *)
Inductive kstep (ok : bool) : ksys → ksys → Prop :=
| ks_put h c p v : kstep ok (mkK h c p) (mkK (h ++ [v]) c p)                     (* Put, or a deletion *)
| ks_load h c : readRemote true h = Some c → kstep ok (mkK h None KStart) (mkK h (Some (withDefaults c)) KLoaded)
| ks_panic h r : readRemote r h = None → (ok = true → r = true) → kstep ok (mkK h None KStart) (mkK h None KPanicked)
| ks_watch h c : kstep ok (mkK h c KLoaded) (mkK h c (KWatching (length h) (length h)))
| ks_event h c from n ev r : h !! n = Some ev → (ok = true → r = true) →
    kstep ok (mkK h c (KWatching from n)) (mkK h (onWatchEvent r h ev c) (KWatching from (S n)))
| ks_noClient h c : ok = false → kstep ok (mkK h c KLoaded) (mkK h c KStopped)
| ks_ended h c from n : ok = false → kstep ok (mkK h c (KWatching from n)) (mkK h c KStopped).

(** ** put.go *)

(** [err]: the connection or the request fails. *)
Definition Put (iid version v : string) (err : bool) (kv : gmap string string) : gmap string string :=
  if err then kv else <[configPath iid version := v]> kv.

(** ** What a process sees *)

Definition loaded (p : kphase) : Prop := match p with KStart | KPanicked => False | _ => True end.

Definition kinv (s : ksys) : Prop :=
  (loaded (k_phase s) ∨ k_cfg s = None) ∧
  (loaded (k_phase s) → ∃ v c, Some v ∈ k_hist s ∧ decode v = Some c ∧ k_cfg s = Some (withDefaults c)) ∧
  match k_phase s with KWatching from n => (from ≤ n ≤ length (k_hist s))%nat | _ => True end.

Lemma readRemote_Some ok h c : readRemote ok h = Some c → ∃ v, Some v ∈ h ∧ decode v = Some c ∧ last h = Some (Some v).
Proof.
  unfold readRemote, current. destruct ok; [|done]. destruct (last h) as [[v|]|] eqn:E; cbn; [|done..].
  intros Hd. exists v. splits; [|done|done]. by apply last_Some_elem_of.
Qed.

Lemma kinv_preserved ok : preserved (kstep ok) kinv.
Proof.
  intros s s' Hs (H1 & H2 & H3). unfold kinv. destruct Hs as [h c p v|h c Hr|h r Hr _|h c|h c from n ev r Hn _|h c _|h c from n _]; cbn in *.
  - splits; [done| |].
    + intros Hl. destruct (H2 Hl) as (w & x & Hw & Hd & Hc). exists w, x. splits; [|done..]. apply elem_of_app. by left.
    + destruct p; try done. rewrite length_app. lia.
  - apply (readRemote_Some true) in Hr as (v & Hv & Hd & _). splits; [by left| |done]. intros _. by exists v, c.
  - splits; [by right|done|done].
  - unfold loaded in *. splits; [by left|by intros; apply H2|lia..].
  - splits; [by left| |apply lookup_lt_Some in Hn; lia..]. intros _. unfold onWatchEvent. destruct ev as [ev|]; [|by apply H2].
    destruct (readRemote r h) as [x|] eqn:E; [|by apply H2]. apply readRemote_Some in E as (v & Hv & Hd & _). by exists v, x.
  - splits; [by left|by intros; apply H2|done].
  - splits; [by left|by intros; apply H2|done].
Qed.

(** Once the stream has delivered something, the configuration is the one etcd had when the
    last put was delivered, or later. *)
Definition kcaught (s : ksys) : Prop :=
  match k_phase s with
  | KWatching from n =>
      n = length (k_hist s) → (from < n)%nat → ∀ v c, last (k_hist s) = Some (Some v) → decode v = Some c →
      k_cfg s = Some (withDefaults c)
  | _ => True
  end.

Lemma kcaught_preserved : preserved (kstep true) (λ s, kinv s ∧ kcaught s).
Proof.
  intros s s' Hs [Hi Hc]. split; [by eapply kinv_preserved|].
  destruct Hi as (_ & _ & Hn3). destruct Hs as [h c p v|h c Hr|h r Hr _|h c|h c from n ev r Hn Hr|h c H|h c from n H]; try done.
  - unfold kcaught in *. cbn in *. destruct p; try done. rewrite length_app. cbn. lia.
  - unfold kcaught. cbn. lia.
  - unfold kcaught. cbn [k_phase k_hist k_cfg]. intros El _ v x Hl Hd. rewrite (Hr eq_refl).
    assert (Hv : ev = Some v).
    { rewrite last_lookup in Hl. replace (pred (length h)) with n in Hl by lia. congruence. }
    subst ev. cbn. unfold readRemote, current. rewrite Hl. cbn. by rewrite Hd.
Qed.

(** The configuration of a running process is valid and, without failures, current: from
    the moment [Load] returns, [Get] never panics and gives a text that was stored under the
    key and decodes, with the defaults filled in, also when a later text does not decode or
    a read fails; and if no read fails, then after all changes have been delivered it is the
    last text, provided that there was a change since the watch began. *)
Theorem config_is_last_valid hist0 ok s :
  rtc (kstep ok) (mkK hist0 None KStart) s →
  (loaded (k_phase s) →
   ∃ v c, Some v ∈ k_hist s ∧ decode v = Some c ∧ Get (k_cfg s) = Some (withDefaults c) ∧ AutoSave (c_Time (withDefaults c)) ≠ 0) ∧
  (∀ from v c, ok = true → k_phase s = KWatching from (length (k_hist s)) → (from < length (k_hist s))%nat →
   last (k_hist s) = Some (Some v) → decode v = Some c → Get (k_cfg s) = Some (withDefaults c)).
Proof.
  intros Hr. split.
  - intros Hl. assert (Hi : kinv s).
    { eapply rtc_preserved; [apply kinv_preserved|exact Hr|]. unfold kinv. cbn. splits; [by right|done|done]. }
    destruct Hi as (_ & Hi & _). destruct (Hi Hl) as (v & c & Hv & Hd & Hc). exists v, c. splits; [done..|].
    unfold withDefaults, SetDefaultValue. cbn. case_decide; [|done]. done.
  - intros from v c -> Hp Hf Hl Hd. assert (Hi : kinv s ∧ kcaught s).
    { apply (rtc_preserved _ (λ s, kinv s ∧ kcaught s) _ _ kcaught_preserved Hr). unfold kinv, kcaught. cbn. splits; [by right|done|done|done]. }
    destruct Hi as [_ Hi]. unfold kcaught in Hi. rewrite Hp in Hi. by apply (Hi eq_refl Hf v c).
Qed.

(** A change between the first read and the start of the watch is not seen: the watch begins
    at etcd's revision of that moment, so with no failure at all and everything delivered
    the process keeps the old text. *)
Theorem config_change_missed v1 v2 c1 c2 :
  decode v1 = Some c1 → decode v2 = Some c2 → withDefaults c1 ≠ withDefaults c2 →
  ∃ s, rtc (kstep true) (mkK [Some v1] None KStart) s ∧ last (k_hist s) = Some (Some v2) ∧
    k_phase s = KWatching (length (k_hist s)) (length (k_hist s)) ∧ Get (k_cfg s) = Some (withDefaults c1) ∧
    Get (k_cfg s) ≠ Some (withDefaults c2).
Proof.
  intros H1 H2 Hne. exists (mkK [Some v1; Some v2] (Some (withDefaults c1)) (KWatching 2 2)). splits; [|done|done|done|intros E; by apply Hne, (inj Some)].
  eapply rtc_l; [apply (ks_load _ _ c1); exact H1|]. eapply rtc_l; [apply (ks_put _ _ _ _ (Some v2))|]. cbn [app].
  eapply rtc_l; [apply ks_watch|]. apply rtc_refl.
Qed.

End Config.

(** ** pkg/gnet/trace *)

Record TraceRule := mkTrace { whiteList : gset Z; blackList : gset Z }.

Definition NewTraceRule : TraceRule := mkTrace ∅ ∅.

(** A nil list leaves the rule as it is. *)
Definition SetWhiteList (l : option (gset Z)) (t : TraceRule) : TraceRule :=
  match l with None => t | Some l => mkTrace l (blackList t) end.
Definition SetBlackList (l : option (gset Z)) (t : TraceRule) : TraceRule :=
  match l with None => t | Some l => mkTrace (whiteList t) l end.

(** [None] is the panic of [Get] before [Load]. *)
Definition ShouldLog (cfg : option Config) (msgID : Z) (t : TraceRule) : option bool :=
  conf ← Get cfg;
  Some (if fc_TraceMsg (c_Flag conf) then bool_decide (msgID ∉ blackList t) else bool_decide (msgID ∈ whiteList t)).

(** ** Examples *)

Definition demoConf (iid : string) (save : Z) : Config :=
  mkConfig iid (mkMQ "nats" 3 5 "u" "p") (mkMQ "nats" 3 5 "u" "p") "mongodb" (mkRC ["r"] 0 "p") (mkCH [] "d" "a" "p" 1)
    (mkLC 0 true false 10 3 7 false "http" "http" "http" ∅ "i") (mkFC false true false false) "x" (mkConf save) (mkAC "k" "i").
Definition demoDecode (v : string) : option Config :=
  if decide (v = "one") then Some (demoConf "one" 0) else if decide (v = "two") then Some (demoConf "two" 60) else None.

Lemma config_is_last_valid_witness :
  Get (Some (withDefaults (demoConf "two" 60))) = Some (withDefaults (demoConf "two" 60)) ∧
  AutoSave (c_Time (withDefaults (demoConf "one" 0))) ≠ 0.
Proof.
  assert (Hr : rtc (kstep demoDecode true) (mkK [Some "one"] None KStart)
    (mkK [Some "one"; Some "bad"; Some "two"] (Some (withDefaults (demoConf "two" 60))) (KWatching 1 3))).
  { eapply rtc_l; [by apply (ks_load _ _ _ (demoConf "one" 0))|]. eapply rtc_l; [apply ks_watch|].
    eapply rtc_l; [apply (ks_put _ _ _ _ _ (Some "bad"))|]. cbn [app].
    eapply rtc_l; [by apply (ks_event _ _ _ _ _ _ (Some "bad") true)|]. cbn [onWatchEvent].
    eapply rtc_l; [apply (ks_put _ _ _ _ _ (Some "two"))|]. cbn [app].
    eapply rtc_l; [by apply (ks_event _ _ _ _ _ _ (Some "two") true)|]. cbn. apply rtc_refl. }
  split.
  - apply (proj2 (config_is_last_valid demoDecode _ _ _ Hr) 1%nat "two"); [done|done|cbn; lia|done|done].
  - assert (Hl : rtc (kstep demoDecode true) (mkK [Some "one"] None KStart)
      (mkK [Some "one"] (Some (withDefaults (demoConf "one" 0))) KLoaded)).
    { eapply rtc_l; [by apply (ks_load _ _ _ (demoConf "one" 0))|]. apply rtc_refl. }
    destruct (proj1 (config_is_last_valid demoDecode _ _ _ Hl) I) as (v & c & _ & _ & Hg & Ha). cbn in Hg. by injection Hg as ->.
Defined.

Lemma config_change_missed_witness :
  ∃ s, rtc (kstep demoDecode true) (mkK [Some "one"] None KStart) s ∧ last (k_hist s) = Some (Some "two") ∧
    Get (k_cfg s) = Some (withDefaults (demoConf "one" 0)).
Proof.
  destruct (config_change_missed demoDecode "one" "two" (demoConf "one" 0) (demoConf "two" 60)) as (s & H1 & H2 & _ & H3 & _);
    [done|done|done|]. by exists s.
Defined.
