(* ===== verification/Saver.v ===== *)
(** * internal/game/logon_service/save.go and load.go: storing and loading roles

    Three savers collect what roles hand over, merge it per role and write it to
    Redis and, for the final saves, to MongoDB; loaders read it back. The databases
    are maps; a write may fail after applying any part of itself, which the
    arguments of the operations choose. *)

From S2P Require Import Prelude DataBus Role.

(** ** Keys *)

(** [model.KeyRole]: the Redis hash of a role. *)
Definition KeyRole (roleID : Z) : string := "role:{" +:+ Itoa roleID +:+ "}".

Lemma KeyRole_inj i j : KeyRole i = KeyRole j → i = j.
Proof. unfold KeyRole. cbn. intros E. injection E as E. by apply append_char_inj, Itoa_inj in E. Qed.

(** ** The saver *)

Abbreviation fields := (gmap string string).

Record opSaveData := mkOp { op_ID : Z; op_Data : fields; op_Both : bool }.

(** [Values]: field, value, field, value, ... *)
Definition Values (d : opSaveData) : list string := '(k, v) ← map_to_list (op_Data d); [k; v].

(** Merging into the batch: new fields over old ones. *)
Definition merge (batch : gmap Z opSaveData) (d : opSaveData) : gmap Z opSaveData :=
  match batch !! op_ID d with
  | Some old => <[op_ID d := mkOp (op_ID old) (op_Data d ∪ op_Data old) (op_Both old || op_Both d)]> batch
  | None => <[op_ID d := d]> batch
  end.

(** The databases. A MongoDB document of the collection has its fields under
    ["id"] and ["data"]. *)
Record doc := mkDoc { doc_id : Z; doc_data : fields }.
Record stores := mkStores { redis : gmap string fields; mongo : gmap Z doc }.

(** [HSET key field value ...] of one pipeline entry. *)
Definition hset (r : gmap string fields) (v : opSaveData) : gmap string fields :=
  <[KeyRole (op_ID v) := op_Data v ∪ default ∅ (r !! KeyRole (op_ID v))]> r.

(** The upsert of one document. *)
Definition upsert (m : gmap Z doc) (v : opSaveData) : gmap Z doc :=
  if decide (op_Data v = ∅) then m
  else <[op_ID v := mkDoc (op_ID v) (op_Data v ∪ from_option doc_data ∅ (m !! op_ID v))]> m.

(** How an execution fails: the sublist of its writes that were applied anyway. *)
Definition outcome : Type := option (list Z).
Definition applied (o : outcome) (batch : list opSaveData) : list opSaveData :=
  match o with None => batch | Some ids => filter (λ v, op_ID v ∈ ids) batch end.

(** [saveToDB]: the bulk write, and the ids of [EvtSaveSuccess] when it is posted. *)
Definition saveToDB (o : outcome) (toDB : list opSaveData) (m : gmap Z doc) : gmap Z doc * option (list Z) * go_error :=
  if forallb (λ v, bool_decide (op_Data v = ∅)) toDB then (m, None, None)
  else
    let m := fold_left upsert (applied o toDB) m in
    match o with
    | Some _ => (m, None, Some (ErrMsg "bulk write"))
    | None => (m, Some (op_ID <$> toDB), None)
    end.

(** [saveChunk]: an [HSET] without a field is an error of the whole pipeline. *)
Definition saveChunk (oR oM : outcome) (batch : list opSaveData) (st : stores)
    : stores * list Z * go_error :=
  let oR := if forallb (λ v, negb (bool_decide (Values v = []))) batch then oR
            else Some (default (op_ID <$> filter (λ v, op_Data v ≠ ∅) batch) oR) in
  let ok := filter (λ v, op_Data v ≠ ∅) (applied oR batch) in
  let r := fold_left hset ok (redis st) in
  match oR with
  | Some _ => (mkStores r (mongo st), [], Some (ErrMsg "pipeline"))
  | None =>
      let '(m, ids, err) := saveToDB oM (filter (λ v, op_Both v = true) batch) (mongo st) in
      (mkStores r m, default [] ids, err)
  end.

Definition chunkSize : nat := 1000.

(** The slices [allData[i:end]], [i] advancing by [chunkSize]; fuel is the length. *)
Fixpoint chunks {A} (fuel : nat) (n : nat) (l : list A) : list (list A) :=
  match fuel, l with
  | S fuel, _ :: _ => take n l :: chunks fuel n (drop n l)
  | _, _ => []
  end.

(** The chunks in order until one fails; [env] gives the outcomes per chunk. *)
Fixpoint saveChunks (env : list (outcome * outcome)) (cs : list (list opSaveData)) (st : stores)
    : stores * list Z * go_error :=
  match cs with
  | [] => (st, [], None)
  | c :: cs =>
      let '(oR, oM) := hd (None, None) env in
      let '(st, ids, err) := saveChunk oR oM c st in
      match err with
      | Some e => (st, ids, Some e)
      | None => let '(st, ids', err) := saveChunks (tl env) cs st in (st, ids ++ ids', err)
      end
  end.

(** [allData] lists the batch in the map's iteration order. *)
Definition saveBatch (env : list (outcome * outcome)) (allData : list opSaveData) (st : stores) :=
  saveChunks env (chunks (length allData) chunkSize allData) st.

(** The loop's variables, and the ids reported saved. *)
Record saver := mkSaver { batch : gmap Z opSaveData; backoff : Z; nextFlush : Z }.

Definition newSaver : saver := mkSaver ∅ 0 0.

Definition Millisecond : Z := 1000000.
Definition nextBackoff (b : Z) : Z := Z.min (b * 2 + 100 * Millisecond) (5 * Second).

Definition flushBatch (env : list (outcome * outcome)) (allData : list opSaveData) (now : Z) (sv : saver) (st : stores)
    : saver * stores * list Z :=
  if decide (batch sv = ∅) then (sv, st, [])
  else if decide (now < nextFlush sv) then (sv, st, [])
  else
    let '(st, ids, err) := saveBatch env allData st in
    match err with
    | None => (mkSaver ∅ 0 (nextFlush sv), st, ids)
    | Some _ => let b := nextBackoff (backoff sv) in (mkSaver (batch sv) b (now + b), st, ids)
    end.

(** ** Chunks *)

Lemma chunks_join {A} n (l : list A) fuel :
  (0 < n)%nat → (length l ≤ fuel)%nat → mjoin (chunks fuel n l) = l.
Proof.
  intros Hn. revert l. induction fuel as [|fuel IH]; intros [|x l] Hl; cbn in Hl; [done|lia|done|].
  cbn [chunks]. change (mjoin (?a :: ?b)) with (a ++ mjoin b).
  rewrite IH; [apply take_drop|]. rewrite length_drop. cbn. lia.
Qed.

Lemma chunks_bound {A} n (l : list A) fuel : Forall (λ c, (length c ≤ n)%nat) (chunks fuel n l).
Proof.
  revert l. induction fuel as [|fuel IH]; intros [|x l]; cbn [chunks]; constructor; [|apply IH].
  rewrite length_take. lia.
Qed.

(** ** What is stored and what is still to be stored *)

(** The fields of role [id] as a reader would see them once the batch is written. *)
Definition pending (b : gmap Z opSaveData) (id : Z) : fields := from_option op_Data ∅ (b !! id).
Definition stored (st : stores) (id : Z) : fields := default ∅ (redis st !! KeyRole id).
Definition view (b : gmap Z opSaveData) (st : stores) (id : Z) : fields := pending b id ∪ stored st id.

Definition batch_wf (b : gmap Z opSaveData) : Prop := ∀ id d, b !! id = Some d → op_ID d = id.

Lemma merge_view b st d id :
  view (merge b d) st id = if decide (op_ID d = id) then op_Data d ∪ view b st id else view b st id.
Proof.
  unfold view, pending, merge. case_decide as Hd; [subst id|].
  - destruct (b !! op_ID d) as [old|] eqn:E; rewrite lookup_insert_eq; cbn.
    + by rewrite map_union_assoc.
    + by rewrite map_empty_union.
  - destruct (b !! op_ID d); by rewrite lookup_insert_ne.
Qed.

Lemma merge_wf b d : batch_wf b → batch_wf (merge b d).
Proof.
  intros Hb id x. unfold merge. destruct (b !! op_ID d) as [old|] eqn:E.
  - rewrite lookup_insert_Some. intros [[<- <-]|[_ Hx]]; [by apply Hb in E|by apply Hb].
  - rewrite lookup_insert_Some. intros [[<- <-]|[_ Hx]]; [done|by apply Hb].
Qed.

Lemma hset_stored r m v id :
  stored (mkStores (hset r v) m) id =
    if decide (op_ID v = id) then op_Data v ∪ stored (mkStores r m) id else stored (mkStores r m) id.
Proof.
  unfold stored, hset. cbn. case_decide as Hd; [subst id; by rewrite lookup_insert_eq|].
  rewrite lookup_insert_ne; [done|]. by intros ?%KeyRole_inj.
Qed.

Lemma union_idem (a b : fields) : a ∪ (a ∪ b) = a ∪ b.
Proof. by rewrite map_union_assoc, map_union_idemp. Qed.

(** Writing entries of the batch to Redis, in any order and any number of times,
    does not change the view. *)
Lemma writes_keep_view b r m l id :
  batch_wf b → Forall (λ v, b !! op_ID v = Some v) l →
  view b (mkStores (fold_left hset l r) m) id = view b (mkStores r m) id.
Proof.
  intros Hb. revert r. induction l as [|v l IH]; intros r Hf; [done|]. inversion Hf as [|? ? Hv Hl]; subst.
  cbn [fold_left]. rewrite IH by done. unfold view. rewrite hset_stored. case_decide as Hd; [|done].
  subst id. unfold pending. rewrite Hv. cbn. apply union_idem.
Qed.

(** After all its entries were written, the batch is in the store. *)
Lemma writes_complete r m l id v :
  NoDup (op_ID <$> l) → v ∈ l → op_ID v = id →
  stored (mkStores (fold_left hset l r) m) id = op_Data v ∪ stored (mkStores r m) id.
Proof.
  revert r. induction l as [|w l IH]; intros r Hn Hin Hid; [by apply elem_of_nil in Hin|].
  cbn in Hn. apply NoDup_cons in Hn as [Hw Hn]. cbn [fold_left].
  apply elem_of_cons in Hin as [->|Hin].
  - assert (Hstay : ∀ r', stored (mkStores (fold_left hset l r') m) id = stored (mkStores r' m) id).
    { clear IH Hn r. induction l as [|x l IHl]; intros r'; [done|]. cbn in Hw.
      apply not_elem_of_cons in Hw as [Hx Hw]. cbn [fold_left]. rewrite IHl by done. rewrite hset_stored.
      rewrite decide_False; [done|congruence]. }
    rewrite Hstay, hset_stored. by rewrite decide_True.
  - rewrite IH by done. rewrite hset_stored, decide_False; [done|].
    intros E. apply Hw. rewrite E, <- Hid. by apply list_elem_of_fmap_2.
Qed.

Lemma Values_nil v : Values v = [] ↔ op_Data v = ∅.
Proof.
  unfold Values. split.
  - intros E. apply map_to_list_empty_iff. destruct (map_to_list (op_Data v)) as [|[k x] l]; [done|].
    by cbn in E.
  - intros ->. by rewrite map_to_list_empty.
Qed.

(** [SaveSuccess] is only reported for documents that hold the batch's fields. *)
Definition inMongo (m : gmap Z doc) (v : opSaveData) : Prop :=
  ∃ d, m !! op_ID v = Some d ∧ op_Data v ⊆ doc_data d.

Lemma upsert_keeps m v w : op_ID v ≠ op_ID w → inMongo m v → inMongo (upsert m w) v.
Proof.
  intros Hn (d & E & Hs). unfold upsert. case_decide; [by exists d|]. exists d. by rewrite lookup_insert_ne.
Qed.

Lemma upserts_complete m l v :
  NoDup (op_ID <$> l) → v ∈ l → op_Data v ≠ ∅ → inMongo (fold_left upsert l m) v.
Proof.
  revert m. induction l as [|w l IH]; intros m Hn Hin Hv; [by apply elem_of_nil in Hin|].
  cbn in Hn. apply NoDup_cons in Hn as [Hw Hn]. cbn [fold_left]. apply elem_of_cons in Hin as [->|Hin]; [|by apply IH].
  assert (H0 : inMongo (upsert m w) w).
  { unfold upsert. rewrite decide_False by done. eexists. rewrite lookup_insert_eq. split; [done|].
    cbn. apply map_union_subseteq_l. }
  clear IH Hn Hv. revert H0. generalize (upsert m w). induction l as [|x l IHl]; intros m' H0; [done|]. cbn in Hw.
  apply not_elem_of_cons in Hw as [Hx Hw]. cbn [fold_left]. apply IHl; [done|]. by apply upsert_keeps.
Qed.

(** What one chunk does to the databases. *)
Lemma saveChunk_spec oR oM c st :
  let '(st', ids, err) := saveChunk oR oM c st in
  ∃ l, redis st' = fold_left hset l (redis st) ∧ l ⊆ c ∧ (err = None → l = c) ∧
    (err = None → NoDup (op_ID <$> c) →
       (∃ lm, mongo st' = fold_left upsert lm (mongo st) ∧ lm ⊆ c) ∧
       ∀ id, id ∈ ids → ∃ v, v ∈ c ∧ op_ID v = id ∧ op_Both v = true ∧ inMongo (mongo st') v).
Proof.
  unfold saveChunk. destruct (forallb _ c) eqn:Hne.
  - assert (Hall : Forall (λ v, op_Data v ≠ ∅) c).
    { apply Forall_forall. intros v Hv. rewrite forallb_forall in Hne. specialize (Hne v).
      rewrite <- Values_nil. specialize (Hne (proj1 (list_elem_of_In _ _) Hv)). by case_bool_decide. }
    destruct oR as [ids|].
    + eexists. splits; [done| |done|done]. intros v Hv. apply list_elem_of_filter in Hv as [_ Hv].
      by apply list_elem_of_filter in Hv as [_ Hv].
    + assert (Ef : filter (λ v, op_Data v ≠ ∅) (applied None c) = c).
      { cbn. clear Hne. induction Hall as [|v c Hv _ IH]; [done|]. rewrite filter_cons_True by done. by rewrite IH. }
      rewrite Ef. unfold saveToDB. destruct (forallb _ (filter _ c)) eqn:Hd.
      * exists c. splits; [done..|]. intros _ _. split; [exists []; split; [done|]; intros x Hx; by apply elem_of_nil in Hx|].
        intros id Hid. by apply elem_of_nil in Hid.
      * destruct oM as [ids|]; exists c; splits; try done. intros _ Hn. split.
        -- eexists. split; [done|]. intros v Hv. by apply list_elem_of_filter in Hv as [_ Hv].
        -- intros id Hid. cbn in Hid. apply list_elem_of_fmap in Hid as (v & -> & Hv).
           pose proof Hv as Hv'. apply list_elem_of_filter in Hv' as [Hb Hin]. exists v. splits; [done..|].
           apply upserts_complete; [|done|by apply (proj1 (Forall_forall _ _) Hall)].
           cbn [applied]. clear -Hn. induction c as [|x c IH]; [done|]. cbn in Hn. apply NoDup_cons in Hn as [Hx Hn].
           rewrite filter_cons. case_decide; [|auto]. cbn. apply NoDup_cons. split; [|auto].
           intros Hi. apply Hx. apply list_elem_of_fmap in Hi as (y & -> & Hy).
           apply list_elem_of_filter in Hy as [_ Hy]. by apply list_elem_of_fmap_2.
  - eexists. splits; [done| |done|done]. intros v Hv. apply list_elem_of_filter in Hv as [_ Hv].
    by apply list_elem_of_filter in Hv as [_ Hv].
Qed.

Lemma saveChunks_spec env cs st :
  let '(st', ids, err) := saveChunks env cs st in
  ∃ l, redis st' = fold_left hset l (redis st) ∧ l ⊆ mjoin cs ∧ (err = None → l = mjoin cs).
Proof.
  revert env st. induction cs as [|c cs IH]; intros env st; [by exists []|]. cbn [saveChunks].
  destruct (hd (None, None) env) as [oR oM]. pose proof (saveChunk_spec oR oM c st) as Hc.
  destruct (saveChunk oR oM c st) as [[st1 ids1] [e|]]; destruct Hc as (l & Hr & Hs & He & _).
  - exists l. splits; [done| |done]. intros v Hv. apply elem_of_app. left. by apply Hs.
  - specialize (IH (tl env) st1). destruct (saveChunks (tl env) cs st1) as [[st2 ids2] err].
    destruct IH as (l2 & Hr2 & Hs2 & He2). exists (l ++ l2). rewrite fold_left_app, <- Hr. splits; [done| |].
    + intros v [Hv|Hv]%elem_of_app; apply elem_of_app; [left; by apply Hs|right; by apply Hs2].
    + intros E. rewrite (He eq_refl), (He2 E). done.
Qed.

(** ** Histories *)

(** Posts arrive and flushes happen, with any outcome of the database calls, at any
    time, in any iteration order of the batch. *)
Record svsys := mkSV { sv_saver : saver; sv_st : stores; sv_posts : list opSaveData }.

Inductive svstep : svsys → svsys → Prop :=
| sv_post s st ps d : svstep (mkSV s st ps) (mkSV (mkSaver (merge (batch s) d) (backoff s) (nextFlush s)) st (ps ++ [d]))
| sv_flush s st ps env all now s' st' ids :
    all ≡ₚ (map_to_list (batch s)).*2 → flushBatch env all now s st = (s', st', ids) →
    svstep (mkSV s st ps) (mkSV s' st' ps).

(** Role [id]'s fields after laying the posts over what was stored, in order. *)
Definition overlay (ps : list opSaveData) (id : Z) (f : fields) : fields :=
  fold_left (λ f d, if decide (op_ID d = id) then op_Data d ∪ f else f) ps f.

Definition svinv (st0 : stores) (x : svsys) : Prop :=
  batch_wf (batch (sv_saver x)) ∧ 0 ≤ backoff (sv_saver x) ≤ 5 * Second ∧
  ∀ id, view (batch (sv_saver x)) (sv_st x) id = overlay (sv_posts x) id (stored st0 id).

Lemma batch_values b all :
  batch_wf b → all ≡ₚ (map_to_list b).*2 →
  Forall (λ v, b !! op_ID v = Some v) all ∧ NoDup (op_ID <$> all) ∧ ∀ id v, b !! id = Some v → v ∈ all.
Proof.
  intros Hb Hp. splits.
  - apply Forall_forall. intros v Hv. rewrite Hp in Hv. apply list_elem_of_fmap in Hv as ([id w] & -> & Hv).
    apply elem_of_map_to_list in Hv. cbn. by rewrite (Hb _ _ Hv).
  - rewrite Hp. replace (op_ID <$> (map_to_list b).*2) with ((map_to_list b).*1); [apply NoDup_fst_map_to_list|].
    rewrite <- list_fmap_compose. apply list_fmap_ext. intros i [id v] E. cbn.
    apply list_elem_of_lookup_2, elem_of_map_to_list in E. by rewrite (Hb _ _ E).
  - intros id v E. rewrite Hp. apply list_elem_of_fmap. exists (id, v). split; [done|]. by apply elem_of_map_to_list.
Qed.

Lemma flush_view b all env st st' ids err id :
  batch_wf b → all ≡ₚ (map_to_list b).*2 → saveBatch env all st = (st', ids, err) →
  view b st' id = view b st id ∧ (err = None → stored st' id = view b st id).
Proof.
  intros Hb Hp E. destruct (batch_values b all Hb Hp) as (Hf & Hn & Hin). unfold saveBatch in E.
  pose proof (saveChunks_spec env (chunks (length all) chunkSize all) st) as Hs. rewrite E in Hs.
  destruct Hs as (l & Hr & Hl & He). rewrite chunks_join in Hl, He by (unfold chunkSize; lia).
  destruct st' as [r' m'], st as [r m]. cbn in Hr. subst r'. split.
  - transitivity (view b (mkStores r m') id); [|done]. apply writes_keep_view; [done|].
    apply Forall_forall. intros v Hv. by apply (proj1 (Forall_forall _ _) Hf), Hl.
  - intros Hnone. rewrite (He Hnone) in *. unfold view, pending. destruct (b !! id) as [v|] eqn:Eb; cbn.
    + rewrite (writes_complete _ _ all id v); [done|done|by eapply Hin|by apply Hb].
    + rewrite map_empty_union. clear -Eb Hf. revert r. induction all as [|v all IH]; intros r; [done|].
      inversion Hf as [|? ? Hv Hf']; subst. cbn [fold_left].
      transitivity (stored (mkStores (hset r v) m') id); [by apply IH|]. rewrite hset_stored.
      rewrite decide_False; [done|]. intros E. rewrite E in Hv. congruence.
Qed.

Lemma svinv_preserved st0 : preserved svstep (svinv st0).
Proof.
  intros x x' Hs (Hb & Hk & Hv). destruct Hs as [s st ps d|s st ps env all now s' st' ids Hp E]; cbn in *.
  - unfold svinv. cbn. splits; [by apply merge_wf|lia..|]. intros id. rewrite merge_view.
    unfold overlay in *. rewrite fold_left_app. cbn. by rewrite Hv.
  - unfold flushBatch in E. case_decide; [by simplify_eq|]. case_decide; [by simplify_eq|].
    destruct (saveBatch env all st) as [[st1 ids1] err] eqn:Eb.
    assert (Hview := λ id, flush_view (batch s) all env st st1 ids1 err id Hb Hp Eb).
    destruct err as [e|]; simplify_eq; unfold svinv; cbn.
    + splits; [done|unfold nextBackoff, Second, Millisecond in *; lia..|]. intros id. destruct (Hview id) as [-> _]. apply Hv.
    + splits; [by intros ? ? ?%lookup_empty_Some|unfold Second in *; lia..|].
      intros id. unfold view, pending. rewrite lookup_empty. cbn. rewrite map_empty_union.
      destruct (Hview id) as [_ ->]; [apply Hv|done].
Qed.

Lemma svinv_init st0 : svinv st0 (mkSV newSaver st0 []).
Proof.
  unfold svinv. cbn. splits; [by intros ? ? ?%lookup_empty_Some|unfold Second; lia..|].
  intros id'. unfold view, pending. rewrite lookup_empty. cbn. by rewrite map_empty_union.
Qed.

(** ** Properties *)

(** C4. Saving loses and invents nothing: over any history of posts and flushes, with
    any failures and partial writes of the databases in between, what is stored with
    the batch laid over it is always what was stored at first with every post laid
    over it in order; so whenever the batch is empty, Redis holds exactly that. The
    retry delay never exceeds five seconds. *)
Theorem saver_stores_everything st0 x id :
  rtc svstep (mkSV newSaver st0 []) x →
  view (batch (sv_saver x)) (sv_st x) id = overlay (sv_posts x) id (stored st0 id) ∧
  (batch (sv_saver x) = ∅ → stored (sv_st x) id = overlay (sv_posts x) id (stored st0 id)) ∧
  0 ≤ backoff (sv_saver x) ≤ 5 * Second.
Proof.
  intros Hr. assert (Hi : svinv st0 x).
  { eapply rtc_preserved; [apply svinv_preserved|exact Hr|apply svinv_init]. }
  destruct Hi as (_ & Hk & Hv). splits; [apply Hv| |lia..]. intros E. rewrite <- Hv. unfold view, pending.
  rewrite E, lookup_empty. cbn. by rewrite map_empty_union.
Qed.

Definition demoPost1 : opSaveData := mkOp 5 (list_to_map [("TCBase", "b1"); ("TCDebug", "d1")]) false.
Definition demoPost2 : opSaveData := mkOp 5 (list_to_map [("TCDebug", "d2")]) true.
Definition demoOld : stores := mkStores {[ KeyRole 5 := list_to_map [("TCExample", "e0")] ]} ∅.

Lemma saver_stores_everything_witness :
  ∃ x, rtc svstep (mkSV newSaver demoOld []) x ∧ batch (sv_saver x) = ∅ ∧
    stored (sv_st x) 5 = list_to_map [("TCBase", "b1"); ("TCDebug", "d2"); ("TCExample", "e0")].
Proof.
  assert (∃ x, rtc svstep (mkSV newSaver demoOld []) x ∧ batch (sv_saver x) = ∅ ∧
            sv_posts x = [demoPost1; demoPost2]) as (x & Hr & Hb & Hp).
  { eexists. split.
    - eapply rtc_l; [apply (sv_post _ _ _ demoPost1)|].
      eapply rtc_l; [eapply (sv_flush _ _ _ [(Some [5], None)] _ 0); [reflexivity|reflexivity]|].
      eapply rtc_l; [apply (sv_post _ _ _ demoPost2)|].
      eapply rtc_l; [eapply (sv_flush _ _ _ [] _ (7 * Second)); [reflexivity|reflexivity]|]. apply rtc_refl.
    - vm_compute. split; reflexivity. }
  exists x. splits; [done..|].
  destruct (saver_stores_everything demoOld x 5 Hr) as (_ & H & _). rewrite (H Hb), Hp.
  vm_compute. reflexivity.
Defined.

(** A save is reported as stored in MongoDB only when it is: after a chunk is
    saved without error, every role id reported belongs to a final save of the chunk
    and its document holds all the fields that were to be saved. *)
Theorem save_reports_are_stored oR oM c st st' ids :
  NoDup (op_ID <$> c) → saveChunk oR oM c st = (st', ids, None) →
  ∀ id, id ∈ ids → ∃ v, v ∈ c ∧ op_ID v = id ∧ op_Both v = true ∧ inMongo (mongo st') v.
Proof.
  intros Hn E. pose proof (saveChunk_spec oR oM c st) as Hs. rewrite E in Hs.
  destruct Hs as (l & _ & _ & _ & Hm). by apply Hm.
Qed.

Lemma save_reports_are_stored_witness :
  ∃ st' ids, saveChunk None None [demoPost2; mkOp 6 (list_to_map [("TCBase", "x")]) false] demoOld = (st', ids, None) ∧
    5 ∈ ids ∧ ∃ v, v ∈ [demoPost2; mkOp 6 (list_to_map [("TCBase", "x")]) false] ∧ op_ID v = 5 ∧ op_Both v = true ∧
      inMongo (mongo st') v.
Proof.
  set (c := [demoPost2; _]).
  assert (E : saveChunk None None c demoOld =
    ((saveChunk None None c demoOld).1.1, (saveChunk None None c demoOld).1.2, None)) by (vm_compute; reflexivity).
  assert (Hin : 5 ∈ (saveChunk None None c demoOld).1.2) by dec.
  eexists _, _. split; [exact E|]. split; [exact Hin|].
  refine (save_reports_are_stored None None c demoOld _ _ _ E 5 Hin). dec.
Defined.

Lemma saveChunk_nonempty oR oM c st st' ids :
  saveChunk oR oM c st = (st', ids, None) → Forall (λ v, op_Data v ≠ ∅) c.
Proof.
  unfold saveChunk. destruct (forallb _ c) eqn:Hne; [|done]. intros _. apply Forall_forall. intros v Hv.
  rewrite forallb_forall in Hne. specialize (Hne v (proj1 (list_elem_of_In _ _) Hv)). rewrite <- Values_nil.
  by case_bool_decide.
Qed.

Lemma saveChunks_nonempty env cs st st' ids :
  saveChunks env cs st = (st', ids, None) → Forall (λ v, op_Data v ≠ ∅) (mjoin cs).
Proof.
  revert env st st' ids. induction cs as [|c cs IH]; intros env st st' ids E; [constructor|].
  cbn [saveChunks] in E. destruct (hd (None, None) env) as [oR oM].
  destruct (saveChunk oR oM c st) as [[st1 ids1] [e|]] eqn:Ec; [done|].
  destruct (saveChunks (tl env) cs st1) as [[st2 ids2] err] eqn:Es. simplify_eq.
  change (mjoin (c :: cs)) with (c ++ mjoin cs). apply Forall_app. split; [by eapply saveChunk_nonempty|by eapply IH].
Qed.

(** One empty save blocks a saver for good: while the batch holds an entry
    without fields, no flush, whatever the databases answer and whenever it happens,
    clears the batch, because an [HSET] without fields fails the pipeline. *)
Theorem empty_save_blocks_batch env all now s st id d :
  batch_wf (batch s) → all ≡ₚ (map_to_list (batch s)).*2 → batch s !! id = Some d → op_Data d = ∅ →
  let '(s', _, _) := flushBatch env all now s st in batch s' = batch s.
Proof.
  intros Hb Hp Hd He. unfold flushBatch. case_decide; [done|]. case_decide; [done|].
  destruct (saveBatch env all st) as [[st1 ids1] [e|]] eqn:E; [done|]. exfalso.
  unfold saveBatch in E. apply saveChunks_nonempty in E. rewrite chunks_join in E by (unfold chunkSize; lia).
  destruct (batch_values _ _ Hb Hp) as (_ & _ & Hin).
  by apply (proj1 (Forall_forall _ _) E d); [eapply Hin|].
Qed.

Lemma empty_save_blocks_batch_witness :
  let s := mkSaver {[ 5 := mkOp 5 ∅ true; 6 := mkOp 6 (list_to_map [("TCBase", "x")]) false ]} 0 0 in
  batch (flushBatch [] ((map_to_list (batch s)).*2) 9 s demoOld).1.1 = batch s.
Proof.
  intros s. pose proof (empty_save_blocks_batch [] ((map_to_list (batch s)).*2) 9 s demoOld 5 (mkOp 5 ∅ true)) as H.
  destruct (flushBatch _ _ _ _ _) as [[s' st'] ids]. apply H.
  - intros id d. cbn [batch s]. rewrite lookup_insert_Some, lookup_singleton_Some.
    intros [[<- <-]|[_ [<- <-]]]; done.
  - reflexivity.
  - reflexivity.
  - reflexivity.
Defined.

(** ** load.go *)

Record loginReq := mkLogin { lg_RoleID : Z; lg_SesID : Z; lg_Seq : Z; lg_Passwd : Z }.

(** [EvtDBLoaded]; [None] is the nil data of a new role that could not be encoded. *)
Record loaded := mkLoaded { ld_Login : loginReq; ld_Data : option DataToSave }.

(** The driver fills a struct field without a tag from the key that is its
    lower-cased name: [RoleID] from ["roleid"], [Data] from ["data"]. A document
    written by [saveToDB] has the keys ["id"] and ["data"] only. *)
Definition docKeys (d : doc) : gmap string (Z + fields) :=
  list_to_map [("id", inl (doc_id d)); ("data", inr (doc_data d))].
Definition bsonDecode (m : gmap string (Z + fields)) : DataToSave :=
  mkSave (match m !! "roleid" with Some (inl z) => z | _ => 0 end)
         (match m !! "data" with Some (inr f) => f | _ => ∅ end).

Section Load.
Context (newBase : Z → result string).        (* the JSON of a new role's [RoleData] *)

Definition newRoleDBData (roleID : Z) : result DataToSave :=
  match newBase roleID with
  | Err e => Err e
  | Ok str => Ok (ds_Set TC_Base str (mkSave roleID ∅))
  end.

(** [db.Find] on the ids and the decoding of what it returns. *)
Definition findRoles (m : gmap Z doc) (ids : list Z) : list DataToSave :=
  omap (λ id, (bsonDecode ∘ docKeys) <$> m !! id) (remove_dups ids).

(** [rData, _ = newRoleDBData(...)] keeps nil when the encoding failed. *)
Definition roleOrNew (result : gmap Z DataToSave) (id : Z) : option DataToSave :=
  match result !! id with
  | Some r => Some r
  | None => match newRoleDBData id with Ok d => Some d | Err _ => None end
  end.

(** The two flags: [Find] fails, reading its cursor fails. The requests of a failed
    load are dropped: nothing is posted for them. *)
Definition loadFromDBBatch (findErr allErr : bool) (m : gmap Z doc) (batch : list loginReq) : list loaded :=
  if findErr then [] else
  if allErr then [] else
  let roles := findRoles m (lg_RoleID <$> batch) in
  let result := fold_left (λ (res : gmap Z DataToSave) r, <[ds_RoleID r := r]> res) roles ∅ in
  (λ op, mkLoaded op (roleOrNew result (lg_RoleID op))) <$> batch.

(** [loadBatch]: what Redis has first, then the rest from MongoDB; [redisErr] is a
    failed pipeline, after which the whole batch is dropped. *)
Definition loadBatch (redisErr findErr allErr : bool) (st : stores) (batch : list loginReq) : list loaded :=
  if redisErr then [] else
  let hit op := negb (bool_decide (stored st (lg_RoleID op) = ∅)) in
  let fromRedis := (λ op, mkLoaded op (Some (mkSave (lg_RoleID op) (stored st (lg_RoleID op))))) <$> filter (λ op, hit op = true) batch in
  let batchFromDB := filter (λ op, hit op = false) batch in
  fromRedis ++ (if decide (batchFromDB = []) then [] else loadFromDBBatch findErr allErr (mongo st) batchFromDB).

End Load.

(** A role saved only in MongoDB is loaded as a new role: once the Redis copy of
    a role is gone, loading it ignores its stored document and starts it from the
    data of a new player, because the decoded document has no role id. *)
Theorem mongo_copy_never_loaded (newBase : Z → result string) st (op : loginReq) d :
  lg_RoleID op ≠ 0 → stored st (lg_RoleID op) = ∅ → mongo st !! lg_RoleID op = Some d → doc_id d = lg_RoleID op →
  loadBatch newBase false false false st [op] =
    [mkLoaded op (match newRoleDBData newBase (lg_RoleID op) with Ok n => Some n | Err _ => None end)].
Proof.
  intros H0 Hs Hm Hd. unfold loadBatch. rewrite (filter_cons_False (λ op0 : loginReq, _ = true)).
  2: { rewrite Hs. rewrite bool_decide_true by done. done. }
  rewrite (filter_cons_True (λ op0 : loginReq, _ = false)) by (rewrite Hs, bool_decide_true by done; done).
  cbn [filter list_filter fmap list_fmap app]. rewrite decide_False by done. unfold loadFromDBBatch, findRoles, roleOrNew.
  cbn [fmap list_fmap]. assert (E : remove_dups [lg_RoleID op] = [lg_RoleID op]).
  { cbn [remove_dups]. destruct (decide_rel _ _ _) as [Hx|]; [by apply elem_of_nil in Hx|done]. }
  rewrite E. cbn [omap list_omap]. rewrite Hm. cbn [fmap option_fmap option_map fold_left].
  unfold bsonDecode, docKeys. cbn. rewrite lookup_insert_ne by done. by rewrite lookup_empty.
Qed.

Lemma mongo_copy_never_loaded_witness :
  loadBatch (λ _, Ok "new") false false false (mkStores ∅ {[ 7 := mkDoc 7 (list_to_map [("TCBase", "old")]) ]}) [mkLogin 7 1 1 0] =
    [mkLoaded (mkLogin 7 1 1 0) (Some (mkSave 7 {[ "TCBase" := "new" ]}))].
Proof.
  rewrite (mongo_copy_never_loaded (λ _, Ok "new") (mkStores ∅ {[ 7 := mkDoc 7 (list_to_map [("TCBase", "old")]) ]})
    (mkLogin 7 1 1 0) (mkDoc 7 (list_to_map [("TCBase", "old")]))); [|done..]. vm_compute. reflexivity.
Defined.

(** What a saver wrote is what a loader reads: once the saver's batch is written,
    and Redis answers, a login for a role with any saved field is answered, in the order of the
    requests, with exactly the fields posted for the role laid over what was
    stored before, under the role's own id. *)
Theorem saved_role_is_loaded newBase findErr allErr st0 x (ops : list loginReq) :
  rtc svstep (mkSV newSaver st0 []) x → batch (sv_saver x) = ∅ →
  Forall (λ op, overlay (sv_posts x) (lg_RoleID op) (stored st0 (lg_RoleID op)) ≠ ∅) ops →
  loadBatch newBase false findErr allErr (sv_st x) ops =
    (λ op, mkLoaded op (Some (mkSave (lg_RoleID op) (overlay (sv_posts x) (lg_RoleID op) (stored st0 (lg_RoleID op)))))) <$> ops.
Proof.
  intros Hr Hb Hf. assert (Hi : svinv st0 x).
  { eapply rtc_preserved; [apply svinv_preserved|exact Hr|apply svinv_init]. }
  destruct Hi as (_ & _ & Hv). assert (Hs : ∀ id, stored (sv_st x) id = overlay (sv_posts x) id (stored st0 id)).
  { intros id. rewrite <- Hv. unfold view, pending. rewrite Hb, lookup_empty. cbn. by rewrite map_empty_union. }
  unfold loadBatch. rewrite filter_true_in, filter_false_in.
  - rewrite decide_True, app_nil_r by done. apply list_fmap_ext. intros i op _. by rewrite Hs.
  - intros op Hin. rewrite Hs, bool_decide_false by (by apply (proj1 (Forall_forall _ _) Hf)). done.
  - intros op Hin. rewrite Hs, bool_decide_false by (by apply (proj1 (Forall_forall _ _) Hf)). done.
Qed.

Lemma saved_role_is_loaded_witness :
  ∃ x, rtc svstep (mkSV newSaver demoOld []) x ∧
    loadBatch (λ _, Ok "new") false true true (sv_st x) [mkLogin 5 1 1 0] =
      [mkLoaded (mkLogin 5 1 1 0) (Some (mkSave 5 (list_to_map [("TCBase", "b1"); ("TCDebug", "d1"); ("TCExample", "e0")])))].
Proof.
  assert (∃ x, rtc svstep (mkSV newSaver demoOld []) x ∧ batch (sv_saver x) = ∅ ∧
            sv_posts x = [demoPost1]) as (x & Hr & Hb & Hp).
  { eexists. split.
    - eapply rtc_l; [apply (sv_post _ _ _ demoPost1)|].
      eapply rtc_l; [eapply (sv_flush _ _ _ [] _ 0); [reflexivity|reflexivity]|]. apply rtc_refl.
    - vm_compute. split; reflexivity. }
  exists x. split; [done|]. rewrite (saved_role_is_loaded (λ _, Ok "new") true true demoOld x [mkLogin 5 1 1 0] Hr Hb); rewrite Hp.
  - vm_compute. reflexivity.
  - repeat constructor. vm_compute. discriminate.
Defined.
