(* ===== verification/Logon.v ===== *)
(** * internal/game/logon_service/login.go: who is online

    One goroutine processes events about roles: logins, loaded data, logouts, saves
    and their success, and a cleanup every minute. What it asks of the loaders, the
    savers, the role goroutines and the account service are actions. *)

From S2P Require Import Prelude Role Saver.

Inductive loginState := stateInit | stateOnline | statePending | stateKicking | stateOffline | stateCanDel.

#[export] Instance loginState_eq_dec : EqDecision loginState.
Proof. solve_decision. Defined.

Record loginData := mkLD { State : loginState; StateTime : Z; Cache : fields; LoginSeq : Z }.

(** [m.data]; times are Unix seconds. *)
Abbreviation logonMap := (gmap Z loginData).

Definition loadingGoCnt : Z := 3.
Definition saveGoCnt : Z := 3.

Inductive action :=
| ALoad (loader : Z) (login : loginReq)                   (* postToLoad *)
| ASave (saver : Z) (op : opSaveData) (must : bool)       (* saveOne, saveMust *)
| AKick (login : loginReq)                                (* kick, wait, post EvtReentry *)
| ARun (roleID sesID : Z) (data : DataToSave)             (* Register and Run *)
| AClear (roleID seq : Z).                                (* S2SRoleClear to the account service *)

Inductive ILogonEvent :=
| EvtLogin (l : loginReq)
| EvtDBLoaded (l : loginReq) (d : DataToSave)
| EvtReentry (l : loginReq)
| EvtLogout (d : DataToSave)
| EvtSaveRole (d : DataToSave) (both : bool)
| EvtSaveSuccess (ids : list Z).

Definition setState (s : loginState) (now : Z) (ld : loginData) : loginData :=
  mkLD s now (Cache ld) (LoginSeq ld).
Definition setCache (c : fields) (ld : loginData) : loginData := mkLD (State ld) (StateTime ld) c (LoginSeq ld).

Section Logon.
(** [NewRole] succeeds on these data. *)
Context (loads : DataToSave → bool).

Definition postToLoad (l : loginReq) : action := ALoad (lg_RoleID l mod loadingGoCnt) l.

Definition saveOne (p : opSaveData) (m : logonMap) : logonMap * list action :=
  (alter (setCache (op_Data p)) (op_ID p) m, [ASave (op_ID p mod saveGoCnt) p false]).
Definition saveMust (p : opSaveData) (m : logonMap) : logonMap * list action :=
  (alter (setCache (op_Data p)) (op_ID p) m, [ASave (op_ID p mod saveGoCnt) p true]).

Definition roleOffline (now : Z) (d : DataToSave) (m : logonMap) : logonMap * list action :=
  saveMust (mkOp (ds_RoleID d) (ds_Data d) false) (alter (setState stateOffline now) (ds_RoleID d) m).

Definition saveSuccess (now : Z) (ids : list Z) (m : logonMap) : logonMap :=
  fold_left (λ m id, alter (λ v, if decide (State v = stateOffline) then setState stateCanDel now v else v) id m) ids m.

Definition cleanupInterval : Z := 60 * 1.

(** The loop over the entries: what each is asked to do. *)
Definition cleanupEntry (now k : Z) (v : loginData) : list action :=
  (if decide (State v = stateOffline ∧ now - StateTime v > cleanupInterval)
   then [ASave (k mod saveGoCnt) (mkOp k (Cache v) true) false] else []) ++
  (if decide (State v = stateCanDel ∧ now - StateTime v > cleanupInterval) then [AClear k (LoginSeq v)] else []).
Definition cleanup (now : Z) (m : logonMap) : logonMap * list action :=
  (filter (λ kv, ¬ (State kv.2 = stateCanDel ∧ now - StateTime kv.2 > cleanupInterval)) m,
   '(k, v) ← map_to_list m; cleanupEntry now k v).

(** [None] in the last branch of the source is a nil pointer: the panic is caught
    by [RunSafe] and the map stays as it is. *)
Definition initRole (now : Z) (d : DataToSave) (l : loginReq) (m : logonMap) : logonMap * list action :=
  if negb (loads d) then (alter (setState stateOffline now) (ds_RoleID d) m, [])
  else if decide (ds_RoleID d ≠ lg_RoleID l) then (alter (setState stateOffline now) (ds_RoleID d) m, [])
  else match m !! ds_RoleID d with
       | None => (m, [])
       | Some v => (<[ds_RoleID d := mkLD stateOnline now (ds_Data d) (lg_Seq l)]> m,
                    [ARun (ds_RoleID d) (lg_SesID l) d])
       end.

Definition handleReentry (now : Z) (l : loginReq) (m : logonMap) : logonMap * list action :=
  (alter (setState stateKicking now) (lg_RoleID l) m, [AKick l]).

Definition opReentry (now : Z) (l : loginReq) (m : logonMap) : logonMap * list action :=
  match m !! lg_RoleID l with
  | None => (m, [])
  | Some v => initRole now (mkSave (lg_RoleID l) (Cache v)) l m
  end.

Definition StateTimeOut : Z := 10.

Definition opSignIn (now : Z) (l : loginReq) (m : logonMap) : logonMap * list action :=
  let id := lg_RoleID l in
  let '(v, m) := match m !! id with
                 | Some v => (v, m)
                 | None => let v := mkLD stateInit 0 ∅ 0 in (v, <[id := v]> m) end in
  match State v with
  | stateOnline => handleReentry now l m
  | stateOffline | stateCanDel => initRole now (mkSave id (Cache v)) l m
  | statePending =>
      if decide (now - StateTime v < StateTimeOut) then (m, [])
      else (alter (setState statePending now) id m, [postToLoad l])
  | stateKicking => (m, [])
  | stateInit => (alter (setState statePending now) id m, [postToLoad l])
  end.

Definition onOps (now : Z) (m : logonMap) (e : ILogonEvent) : logonMap * list action :=
  match e with
  | EvtLogin l => opSignIn now l m
  | EvtDBLoaded l d => initRole now d l m
  | EvtReentry l => opReentry now l m
  | EvtLogout d => roleOffline now d m
  | EvtSaveRole d both => saveOne (mkOp (ds_RoleID d) (ds_Data d) both) m
  | EvtSaveSuccess ids => (saveSuccess now ids m, [])
  end.

(** The loop of [run]: an event, or the minute ticker. *)
Inductive turn := TEvent (e : ILogonEvent) | TCleanup.
Definition runTurn (now : Z) (m : logonMap) (t : turn) : logonMap * list action :=
  match t with TEvent e => onOps now m e | TCleanup => cleanup now m end.
Definition runTurns (ts : list (Z * turn)) (st : logonMap * list action) : logonMap * list action :=
  fold_left (λ st t, let '(m, a) := runTurn t.1 st.1 t.2 in (m, st.2 ++ a)) ts st.

(** ** The state graph *)

Definition stateOf (m : logonMap) (id : Z) : option loginState := State <$> m !! id.

(** The moves of one role's entry, besides staying put. *)
Definition edges : list (option loginState * option loginState) :=
  [(None, Some statePending); (Some stateInit, Some statePending);
   (Some statePending, Some stateOnline); (Some statePending, Some stateOffline);
   (Some stateOnline, Some stateKicking); (Some stateOnline, Some stateOffline);
   (Some stateKicking, Some stateOnline); (Some stateKicking, Some stateOffline);
   (Some stateInit, Some stateOnline); (Some stateInit, Some stateOffline);
   (Some stateOffline, Some stateOnline); (Some stateOffline, Some stateCanDel);
   (Some stateCanDel, Some stateOnline); (Some stateCanDel, Some stateOffline);
   (Some stateCanDel, None)].

Definition moves (x y : option loginState) : Prop := x = y ∨ (x, y) ∈ edges.
#[export] Instance moves_dec x y : Decision (moves x y).
Proof. unfold moves. apply _. Defined.

Lemma stateOf_alter f id m id' :
  stateOf (alter f id m) id' = if decide (id = id') then State <$> (f <$> m !! id') else stateOf m id'.
Proof.
  unfold stateOf. case_decide as Hd; [subst; by rewrite lookup_alter_eq|by rewrite lookup_alter_ne].
Qed.
Lemma stateOf_insert id v m id' :
  stateOf (<[id := v]> m) id' = if decide (id = id') then Some (State v) else stateOf m id'.
Proof. unfold stateOf. case_decide; [subst; by rewrite lookup_insert_eq|by rewrite lookup_insert_ne]. Qed.

Lemma moves_online s : (s : option loginState) ≠ None → moves s (Some stateOnline).
Proof. intros. destruct s as [[]|]; [dec..|done]. Qed.

Lemma setState_fmap s now (o : option loginData) :
  State <$> (setState s now <$> o) = (λ _, s) <$> o.
Proof. by destruct o. Qed.

(** An entry whose state is set to offline moves along an edge, if there is one. *)
Lemma moves_to_offline o : moves (State <$> (o : option loginData)) ((λ _, stateOffline) <$> o).
Proof. destruct o as [[[] ? ? ?]|]; cbn; dec. Qed.

Lemma offline_moves now i m id : moves (stateOf m id) (stateOf (alter (setState stateOffline now) i m) id).
Proof.
  rewrite stateOf_alter. destruct (decide (i = id)) as [->|]; [|by left]. rewrite setState_fmap.
  apply moves_to_offline.
Qed.

Lemma initRole_moves now d l m id : moves (stateOf m id) (stateOf (initRole now d l m).1 id).
Proof.
  unfold initRole. destruct (negb (loads d)); [apply offline_moves|].
  destruct (decide (ds_RoleID d ≠ lg_RoleID l)); [apply offline_moves|].
  destruct (m !! ds_RoleID d) as [v|] eqn:E; [|by left]. cbn [fst]. rewrite stateOf_insert.
  destruct (decide (ds_RoleID d = id)) as [<-|]; [|by left]. apply moves_online. unfold stateOf. by rewrite E.
Qed.

Lemma saveSuccess_state now ids m id :
  stateOf (saveSuccess now ids m) id = stateOf m id ∨
  (stateOf m id = Some stateOffline ∧ stateOf (saveSuccess now ids m) id = Some stateCanDel ∧ id ∈ ids).
Proof.
  unfold saveSuccess. revert m. induction ids as [|i ids IH]; intros m; [by left|]. cbn [fold_left].
  set (m' := alter _ i m).
  assert (Hs : stateOf m' id = stateOf m id ∨
               (stateOf m id = Some stateOffline ∧ stateOf m' id = Some stateCanDel ∧ id = i)).
  { unfold m'. rewrite stateOf_alter. destruct (decide (i = id)) as [<-|]; [|by left]. unfold stateOf.
    destruct (m !! i) as [v|]; [|by left]. cbn. case_decide as Hv; [right; cbn; by rewrite Hv|by left]. }
  rewrite elem_of_cons. destruct (IH m') as [E|(E1 & E2 & Hin)], Hs as [F|(F1 & F2 & ->)].
  - left. congruence.
  - right. splits; [done|congruence|by left].
  - right. splits; [congruence|done|by right].
  - rewrite F2 in E1. done.
Qed.

(** A cleanup keeps an entry as it is or drops it when deletable. *)
Lemma logon_cleanup_entry now m id :
  (cleanup now m).1 !! id = m !! id ∨
  ∃ v, m !! id = Some v ∧ State v = stateCanDel ∧ (cleanup now m).1 !! id = None ∧
       AClear id (LoginSeq v) ∈ (cleanup now m).2.
Proof.
  unfold cleanup. cbn [fst snd]. destruct (m !! id) as [v|] eqn:E.
  - destruct (decide (State v = stateCanDel ∧ now - StateTime v > cleanupInterval)) as [Hd|Hd].
    + right. exists v. splits; [done|tauto| |].
      * apply map_lookup_filter_None_2. right. intros v' E'. simplify_eq. cbn. tauto.
      * apply list_elem_of_bind. exists (id, v). split; [|by apply elem_of_map_to_list].
        unfold cleanupEntry. apply elem_of_app. right. rewrite decide_True by done. by apply list_elem_of_singleton.
    + left. by apply map_lookup_filter_Some_2.
  - left. apply map_lookup_filter_None_2. by left.
Qed.

Lemma cleanup_state now m id :
  stateOf (cleanup now m).1 id = stateOf m id ∨
  (stateOf m id = Some stateCanDel ∧ stateOf (cleanup now m).1 id = None).
Proof.
  unfold stateOf. destruct (logon_cleanup_entry now m id) as [-> |(v & -> & <- & -> & _)]; [by left|by right].
Qed.

Lemma opSignIn_moves now l m id : moves (stateOf m id) (stateOf (opSignIn now l m).1 id).
Proof.
  unfold opSignIn. destruct (m !! lg_RoleID l) as [v|] eqn:E.
  - assert (Hset : ∀ s, moves (Some (State v)) (Some s) →
              moves (stateOf m id) (stateOf (alter (setState s now) (lg_RoleID l) m) id)).
    { intros s Hs. rewrite stateOf_alter. destruct (decide (lg_RoleID l = id)) as [<-|]; [|by left].
      unfold stateOf. by rewrite E. }
    destruct (State v) eqn:Ev; try (by left); try apply initRole_moves; try (cbn; apply Hset; dec).
    case_decide; [by left|]. cbn. apply Hset. dec.
  - cbn [State]. cbn [fst]. rewrite stateOf_alter, stateOf_insert.
    destruct (decide (lg_RoleID l = id)) as [<-|]; [|by left]. rewrite lookup_insert_eq. unfold stateOf. rewrite E. dec.
Qed.

Lemma runTurn_moves now m t id : moves (stateOf m id) (stateOf (runTurn now m t).1 id).
Proof.
  destruct t as [[l|l d|l|d|d b|ids]|]; cbn [runTurn onOps].
  - apply opSignIn_moves.
  - apply initRole_moves.
  - unfold opReentry. destruct (m !! lg_RoleID l); [apply initRole_moves|by left].
  - unfold roleOffline, saveMust. cbn [fst op_ID op_Data]. rewrite stateOf_alter.
    destruct (decide (ds_RoleID d = id)) as [<-|]; [|rewrite stateOf_alter, decide_False by done; by left].
    rewrite lookup_alter_eq. pose proof (moves_to_offline (m !! ds_RoleID d)) as Hm. unfold stateOf.
    by destruct (m !! ds_RoleID d).
  - unfold saveOne. cbn [fst op_ID op_Data]. rewrite stateOf_alter.
    destruct (decide (ds_RoleID d = id)) as [<-|]; [|by left]. left. unfold stateOf. by destruct (m !! ds_RoleID d).
  - cbn [fst]. destruct (saveSuccess_state now ids m id) as [-> |(-> & -> & _)]; [by left|dec].
  - destruct (cleanup_state now m id) as [-> |[-> ->]]; [by left|dec].
Qed.

End Logon.

(** ** Properties *)

(** A role's entry moves only along the service's state graph, whatever happens:
    in particular an entry is marked deletable only when its role is offline, is
    dropped only when deletable, and the account service is told with the entry's
    login sequence when it is dropped. *)
Theorem logon_state_graph loads now m t id :
  let '(m', acts) := runTurn loads now m t in
  moves (stateOf m id) (stateOf m' id) ∧
  (is_Some (m !! id) → m' !! id = None →
   ∃ v, m !! id = Some v ∧ State v = stateCanDel ∧ AClear id (LoginSeq v) ∈ acts).
Proof.
  pose proof (runTurn_moves loads now m t id) as Hm. destruct (runTurn loads now m t) as [m' acts] eqn:E.
  split; [done|]. intros [v Ev] En. exists v. split; [done|].
  cbn [fst] in Hm. unfold stateOf in Hm. rewrite Ev, En in Hm. cbn in Hm. destruct Hm as [?|Hm]; [done|].
  assert (Hs : State v = stateCanDel) by (destruct (State v); [by (revert Hm; dec)..|done]).
  split; [done|]. destruct t as [e|]; cbn in E.
  - exfalso. assert (Hk : ∀ f i, alter f i m !! id ≠ None).
    { intros f i. destruct (decide (i = id)) as [->|]; [by rewrite lookup_alter_eq, Ev|by rewrite lookup_alter_ne, Ev]. }
    assert (Hi : ∀ d l, (initRole loads now d l m).1 !! id ≠ None).
    { intros d l. unfold initRole. destruct (negb _); [apply Hk|]. destruct (decide _); [apply Hk|].
      destruct (m !! ds_RoleID d); cbn; [|by rewrite Ev]. rewrite lookup_insert_None. intros [? _]. congruence. }
    destruct e as [l|l d|l|d|d b|ids]; cbn in E.
    + unfold opSignIn in E. destruct (m !! lg_RoleID l) as [w|] eqn:Ew.
      * destruct (State w); try case_decide; try (injection E as <- _);
          try (by eapply Hk); try (by rewrite Ev in En); try (by apply (Hi (mkSave (lg_RoleID l) (Cache w)) l); rewrite E).
      * injection E as <- _. assert (lg_RoleID l ≠ id) by congruence.
        by rewrite lookup_alter_ne, lookup_insert_ne, Ev in En.
    + apply (Hi d l). by rewrite E.
    + unfold opReentry in E. destruct (m !! lg_RoleID l) as [w|]; [|by simplify_eq].
      apply (Hi (mkSave (lg_RoleID l) (Cache w)) l). by rewrite E.
    + unfold roleOffline, saveMust in E. injection E as <- _. cbn in En.
      destruct (decide (ds_RoleID d = id)) as [<-|]; [by rewrite !lookup_alter_eq, Ev in En|by rewrite !lookup_alter_ne, Ev in En].
    + injection E as <- _. by eapply Hk.
    + injection E as <- _. destruct (saveSuccess_state now ids m id) as [Hx|(Hx & Hy & _)];
        unfold stateOf in *; rewrite En, Ev in *; done.
  - destruct (logon_cleanup_entry now m id) as [Ex|(w & Ew & _ & _ & Ha)]; rewrite E in *; cbn in *; [congruence|].
    by simplify_eq.
Qed.

(** A turn that is about other roles, a save confirmation, or the cleanup. *)
Definition quiet (id : Z) (t : turn) : Prop :=
  match t with
  | TEvent (EvtLogin l) | TEvent (EvtReentry l) => lg_RoleID l ≠ id
  | TEvent (EvtDBLoaded _ d) | TEvent (EvtLogout d) | TEvent (EvtSaveRole d _) => ds_RoleID d ≠ id
  | TEvent (EvtSaveSuccess _) | TCleanup => True
  end.

Definition confirms (id : Z) (t : turn) : Prop :=
  match t with TEvent (EvtSaveSuccess ids) => id ∈ ids | _ => False end.

(** Offline with the data of the last logout, possibly confirmed; or dropped after a
    confirmation, the account service told. *)
Definition parked (id : Z) (data : fields) (conf : Prop) (st : logonMap * list action) : Prop :=
  (∃ v, st.1 !! id = Some v ∧ Cache v = data ∧
     (State v = stateOffline ∨ (State v = stateCanDel ∧ conf))) ∨
  (st.1 !! id = None ∧ conf ∧ ∃ seq, AClear id seq ∈ st.2).

Lemma initRole_other loads now d l m id : ds_RoleID d ≠ id → (initRole loads now d l m).1 !! id = m !! id.
Proof.
  intros Hn. unfold initRole. destruct (negb _); cbn [fst]; [by rewrite lookup_alter_ne|].
  destruct (decide _); cbn [fst]; [by rewrite lookup_alter_ne|].
  destruct (m !! ds_RoleID d); cbn [fst]; [by rewrite lookup_insert_ne|done].
Qed.

Lemma quiet_other loads now m e id :
  quiet id (TEvent e) → (∀ ids, e ≠ EvtSaveSuccess ids) → (onOps loads now m e).1 !! id = m !! id.
Proof.
  intros Hq Hs. destruct e as [l|l d|l|d|d b|ids]; cbn in Hq |- *.
  - unfold opSignIn. destruct (m !! lg_RoleID l) as [w|] eqn:Ew.
    + destruct (State w); try case_decide; try done; try (by apply initRole_other);
        try (by cbn; rewrite lookup_alter_ne).
    + cbn. by rewrite lookup_alter_ne, lookup_insert_ne.
  - by apply initRole_other.
  - unfold opReentry. destruct (m !! lg_RoleID l); [by apply initRole_other|done].
  - by rewrite !lookup_alter_ne.
  - by rewrite lookup_alter_ne.
  - by destruct (Hs ids).
Qed.

Lemma saveSuccess_lookup now ids m id v :
  m !! id = Some v → ∃ v', saveSuccess now ids m !! id = Some v' ∧ Cache v' = Cache v ∧ LoginSeq v' = LoginSeq v.
Proof.
  unfold saveSuccess. revert m v. induction ids as [|i ids IH]; intros m v E; [by exists v|]. cbn [fold_left].
  destruct (decide (i = id)) as [->|Hn].
  - edestruct (IH (alter (λ v, if decide (State v = stateOffline) then setState stateCanDel now v else v) id m))
      as (v' & E' & Hc & Hq); [by rewrite lookup_alter_eq, E|]. exists v'. split; [done|].
    rewrite Hc, Hq. by case_decide.
  - apply IH. by rewrite lookup_alter_ne.
Qed.

Lemma parked_turn loads now t st id data conf :
  quiet id t → parked id data conf st →
  parked id data (conf ∨ confirms id t) (let '(m, a) := runTurn loads now st.1 t in (m, st.2 ++ a)).
Proof.
  intros Hq Hp. destruct st as [m acts]. cbn [fst snd] in *.
  assert (Hsame : ∀ m' a, m' !! id = m !! id → parked id data (conf ∨ confirms id t) (m', acts ++ a)).
  { intros m' a E. destruct Hp as [(v & Ev & Hc & Hs)|(En & Hc & seq & Ha)]; cbn in *.
    - left. exists v. cbn. rewrite E. splits; [done..|]. tauto.
    - right. cbn. rewrite E. splits; [done|by left|]. exists seq. apply elem_of_app. by left. }
  destruct t as [e|]; cbn [runTurn].
  - destruct e as [l|l d|l|d|d b|ids]; try (
      match goal with |- context [onOps _ _ _ ?e] =>
        pose proof (quiet_other loads now m e id Hq ltac:(congruence)) as E;
        destruct (onOps loads now m e) as [m' a]; by apply Hsame end).
    cbn. destruct Hp as [(v & Ev & Hc & Hs)|(En & Hc & seq & Ha)]; cbn in *.
    + destruct (saveSuccess_lookup now ids m id v Ev) as (v' & E' & Hc' & _). left. exists v'. cbn.
      splits; [done|congruence|]. destruct (saveSuccess_state now ids m id) as [E|(E1 & E2 & Hin)];
        unfold stateOf in *; rewrite E', Ev in *; cbn in *; simplify_eq; [rewrite E; tauto|].
      right. split; [congruence|by right].
    + right. cbn. splits; [|by left|exists seq; apply elem_of_app; by left].
      destruct (saveSuccess_state now ids m id) as [E|(E1 & _)]; unfold stateOf in *; rewrite En in *; [|done].
      by destruct (saveSuccess now ids m !! id).
  - pose proof (logon_cleanup_entry now m id) as Hcl. destruct (cleanup now m) as [m' a]. cbn [fst snd] in Hcl.
    destruct Hcl as [E|(v & Ev & Hs & En & Ha)]; [by apply Hsame|].
    destruct Hp as [(w & Ew & _ & [Hw|[_ Hc]])|(Ew & _)]; cbn in *; [congruence| |congruence].
    right. cbn. splits; [done|by left|]. exists (LoginSeq v). apply elem_of_app. by right.
Qed.

Lemma parked_turns loads ts st id data conf :
  Forall (λ t, quiet id t.2) ts → parked id data conf st →
  parked id data (conf ∨ ∃ t, t ∈ ts ∧ confirms id t.2) (runTurns loads ts st).
Proof.
  intros Hq. revert st conf. induction Hq as [|[now t] ts Ht _ IH]; intros st conf Hp.
  { cbn. destruct Hp as [(v & ? & ? & ?)|(? & ? & ?)]; [left; exists v; tauto|right; tauto]. }
  pose proof (parked_turn loads now t st id data conf Ht Hp) as Hp'. unfold runTurns. cbn [fold_left fst snd].
  specialize (IH _ _ Hp'). unfold runTurns in IH.
  destruct IH as [(v & H1 & H2 & H3)|(H1 & H2 & H3)]; [left; exists v; splits; [done..|]; destruct H3 as [?|[? H3]]; [by left|right; split; [done|]]; revert H3
    |right; splits; [done|revert H2|done]];
    (intros [[?|?]|(x & Hx & ?)]; [by left|right; exists (now, t); split; [by left|done]|right; exists x; split; [by right|done]]).
Qed.

(** C29. A role's last data survive until they are known to be stored: after a logout
    hands over a role's data, and until something else concerns that role, the next
    login starts the role with exactly these data and no database access; only when
    a save of the role has been confirmed in between, and the account service has
    been told, may the entry be gone and the login load from the database. *)
Theorem logout_data_kept loads m id v d l now0 ts now :
  m !! id = Some v → ds_RoleID d = id → lg_RoleID l = id → loads (mkSave id (ds_Data d)) = true →
  Forall (λ t, quiet id t.2) ts →
  let '(m1, acts1) := runTurns loads ((now0, TEvent (EvtLogout d)) :: ts) (m, []) in
  let '(m2, acts2) := onOps loads now m1 (EvtLogin l) in
  (acts2 = [ARun id (lg_SesID l) (mkSave id (ds_Data d))] ∧ stateOf m2 id = Some stateOnline) ∨
  (acts2 = [ALoad (id mod 3) l] ∧ (∃ t, t ∈ ts ∧ confirms id t.2) ∧ ∃ seq, AClear id seq ∈ acts1).
Proof.
  intros Ev Ed El Hl Hq. unfold runTurns. cbn [fold_left fst snd runTurn onOps].
  destruct (roleOffline now0 d m) as [m0 a0] eqn:E0.
  assert (Hp : parked id (ds_Data d) False (m0, [] ++ a0)).
  { left. unfold roleOffline, saveMust in E0. injection E0 as <- _. cbn. rewrite Ed, !lookup_alter_eq, Ev.
    eexists. split; [done|]. cbn. split; [done|by left]. }
  apply (parked_turns loads ts _ _ _ _ Hq) in Hp. unfold runTurns in Hp.
  destruct (fold_left _ ts (m0, [] ++ a0)) as [m1 acts1]. unfold opSignIn. rewrite El.
  destruct Hp as [(w & Ew & Hc & Hs)|(En & Hc & Ha)]; cbn [fst snd] in *.
  - rewrite Ew. assert (Hi : initRole loads now (mkSave id (Cache w)) l m1 =
      (<[id := mkLD stateOnline now (ds_Data d) (lg_Seq l)]> m1, [ARun id (lg_SesID l) (mkSave id (ds_Data d))])).
    { unfold initRole. rewrite Hc, Hl. cbn. rewrite El, decide_False by (intros []; done). by rewrite Ew. }
    destruct Hs as [-> |[-> _]]; rewrite Hi; left; (split; [done|]); rewrite stateOf_insert; by rewrite decide_True.
  - rewrite En. cbn [State]. right. unfold postToLoad. rewrite El.
    splits; [done|by destruct Hc as [[]|Hc]|done].
Qed.

Definition demoLogin : loginReq := mkLogin 7 70 3 0.
Definition demoSave7 : DataToSave := mkSave 7 (list_to_map [("TCBase", "b")]).

Lemma logout_data_kept_witness :
  let '(m1, acts1) := runTurns (λ _, true) [(100, TEvent (EvtLogout demoSave7)); (200, TCleanup);
                        (201, TEvent (EvtSaveSuccess [7])); (210, TEvent (EvtLogin (mkLogin 8 80 1 0)))]
                        ({[ 7 := mkLD stateOnline 0 ∅ 3 ]}, []) in
  let '(m2, acts2) := onOps (λ _, true) 220 m1 (EvtLogin demoLogin) in
  (acts2 = [ARun 7 70 demoSave7] ∧ stateOf m2 7 = Some stateOnline) ∨
  (acts2 = [ALoad (7 mod 3) demoLogin] ∧ (∃ t, t ∈ [(200, TCleanup); (201, TEvent (EvtSaveSuccess [7]));
     (210, TEvent (EvtLogin (mkLogin 8 80 1 0)))] ∧ confirms 7 t.2) ∧ ∃ seq, AClear 7 seq ∈ acts1).
Proof.
  apply (logout_data_kept (λ _, true) {[ 7 := mkLD stateOnline 0 ∅ 3 ]} 7 (mkLD stateOnline 0 ∅ 3) demoSave7 demoLogin 100
    [(200, TCleanup); (201, TEvent (EvtSaveSuccess [7])); (210, TEvent (EvtLogin (mkLogin 8 80 1 0)))] 220).
  - by apply lookup_singleton_eq.
  - done.
  - done.
  - done.
  - repeat constructor; cbn; lia.
Defined.

Lemma initRole_runs loads now d l id m :
  ds_RoleID d = id → lg_RoleID l = id → loads d = true → is_Some (m !! id) →
  initRole loads now d l m = (<[id := mkLD stateOnline now (ds_Data d) (lg_Seq l)]> m, [ARun id (lg_SesID l) d]).
Proof.
  intros Ed El Hl [v Ev]. unfold initRole. rewrite Hl. cbn [negb].
  rewrite Ed, El, decide_False by (intros []; done). by rewrite Ev.
Qed.

(** C40. A slow load runs the role twice: when a second login arrives at least ten
    seconds into a pending load, both loads are started, and their two answers each
    register and run the role, with no logout in between. *)
Theorem slow_load_runs_role_twice loads m id d l1 l2 now now2 now3 now4 :
  m !! id = None → lg_RoleID l1 = id → lg_RoleID l2 = id → ds_RoleID d = id → loads d = true → now2 - now >= 10 →
  (runTurns loads [(now, TEvent (EvtLogin l1)); (now2, TEvent (EvtLogin l2));
                   (now3, TEvent (EvtDBLoaded l1 d)); (now4, TEvent (EvtDBLoaded l2 d))] (m, [])).2 =
  [ALoad (id mod 3) l1; ALoad (id mod 3) l2; ARun id (lg_SesID l1) d; ARun id (lg_SesID l2) d].
Proof.
  intros Em E1 E2 Ed Hl Ht. unfold runTurns. cbn [fold_left fst snd runTurn onOps].
  assert (S1 : opSignIn loads now l1 m = (alter (setState statePending now) id (<[id := mkLD stateInit 0 ∅ 0]> m),
                                   [ALoad (id mod 3) l1])).
  { unfold opSignIn, postToLoad. by rewrite E1, Em. }
  rewrite S1. cbn [fst snd]. set (m1 := alter _ id _).
  assert (L1 : m1 !! id = Some (mkLD statePending now ∅ 0)) by (unfold m1; by rewrite lookup_alter_eq, lookup_insert_eq).
  assert (S2 : opSignIn loads now2 l2 m1 = (alter (setState statePending now2) id m1, [ALoad (id mod 3) l2])).
  { unfold opSignIn, postToLoad. rewrite E2, L1. cbn [State StateTime].
    rewrite decide_False by (unfold StateTimeOut; lia). done. }
  rewrite S2. cbn [fst snd].
  rewrite (initRole_runs loads now3 d l1 id) by (done || (rewrite lookup_alter_eq, L1; by eexists)). cbn [fst snd].
  rewrite (initRole_runs loads now4 d l2 id) by (done || (rewrite lookup_insert_eq; by eexists)). done.
Qed.

Lemma slow_load_runs_role_twice_witness :
  (runTurns (λ _, true) [(0, TEvent (EvtLogin demoLogin)); (10, TEvent (EvtLogin (mkLogin 7 71 4 0)));
                   (11, TEvent (EvtDBLoaded demoLogin demoSave7)); (12, TEvent (EvtDBLoaded (mkLogin 7 71 4 0) demoSave7))] (∅, [])).2 =
  [ALoad 1 demoLogin; ALoad 1 (mkLogin 7 71 4 0); ARun 7 70 demoSave7; ARun 7 71 demoSave7].
Proof. apply (slow_load_runs_role_twice (λ _, true) ∅ 7 demoSave7 demoLogin (mkLogin 7 71 4 0) 0 10 11 12); done. Defined.

(** A re-entry that overtakes the logout runs the role twice: a role that has left the
    registry but not yet posted its logout is not waited for, so the re-entry starts it
    again from the cached data, which lack what the leaving role had changed; the late
    logout then marks the new instance as offline, and the next login starts another
    one beside it. *)
Theorem early_reentry_runs_role_twice loads m id v d l1 l2 now now2 now3 now4 :
  m !! id = Some v → State v = stateOnline → lg_RoleID l1 = id → lg_RoleID l2 = id → ds_RoleID d = id →
  (∀ x, loads x = true) →
  (runTurns loads [(now, TEvent (EvtLogin l1)); (now2, TEvent (EvtReentry l1));
                   (now3, TEvent (EvtLogout d)); (now4, TEvent (EvtLogin l2))] (m, [])).2 =
  [AKick l1; ARun id (lg_SesID l1) (mkSave id (Cache v)); ASave (id mod 3) (mkOp id (ds_Data d) false) true;
   ARun id (lg_SesID l2) (mkSave id (ds_Data d))].
Proof.
  intros Em Hs E1 E2 Ed Hl. unfold runTurns. cbn [fold_left fst snd runTurn onOps].
  assert (S1 : opSignIn loads now l1 m = (alter (setState stateKicking now) id m, [AKick l1])).
  { unfold opSignIn, handleReentry. by rewrite E1, Em, Hs. }
  rewrite S1. cbn [fst snd]. unfold opReentry. rewrite E1, lookup_alter_eq, Em. cbn [fmap option_fmap option_map Cache setState].
  rewrite (initRole_runs loads now2 _ l1 id) by (done || (rewrite lookup_alter_eq, Em; by eexists)). cbn [fst snd].
  unfold roleOffline, saveMust. cbn [fst snd op_ID op_Data]. rewrite Ed. unfold opSignIn.
  rewrite E2, lookup_alter_eq, lookup_alter_eq, lookup_insert_eq. cbn [fmap option_fmap option_map State Cache setState setCache].
  rewrite (initRole_runs loads now4 _ l2 id); [done|done|done|done|].
  rewrite lookup_alter_eq, lookup_alter_eq, lookup_insert_eq. by eexists.
Qed.

Lemma early_reentry_runs_role_twice_witness :
  (runTurns (λ _, true) [(1, TEvent (EvtLogin demoLogin)); (2, TEvent (EvtReentry demoLogin));
       (3, TEvent (EvtLogout demoSave7)); (4, TEvent (EvtLogin (mkLogin 7 71 4 0)))] ({[ 7 := mkLD stateOnline 0 ∅ 2 ]}, [])).2 =
  [AKick demoLogin; ARun 7 70 (mkSave 7 ∅); ASave 1 (mkOp 7 (ds_Data demoSave7) false) true; ARun 7 71 demoSave7].
Proof.
  apply (early_reentry_runs_role_twice (λ _, true) {[ 7 := mkLD stateOnline 0 ∅ 2 ]} 7 (mkLD stateOnline 0 ∅ 2) demoSave7
    demoLogin (mkLogin 7 71 4 0) 1 2 3 4); done.
Defined.

(** A role that failed to load is saved empty: when the data of a first login do
    not parse, the entry stays offline without data, and the next cleanup after a
    minute sends the savers a final save without any field for it. *)
Theorem failed_load_saved_empty loads m id d l now now2 now3 :
  m !! id = None → lg_RoleID l = id → ds_RoleID d = id → loads d = false → now3 - now2 > 60 →
  let '(_, acts) := runTurns loads [(now, TEvent (EvtLogin l)); (now2, TEvent (EvtDBLoaded l d)); (now3, TCleanup)] (m, []) in
  ASave (id mod 3) (mkOp id ∅ true) false ∈ acts.
Proof.
  intros Em El Ed Hl Ht. unfold runTurns. cbn [fold_left fst snd runTurn onOps].
  unfold opSignIn. rewrite El, Em. cbn [State]. unfold initRole. rewrite Hl. cbn [negb fst snd]. rewrite Ed.
  unfold cleanup. apply elem_of_app. right. apply list_elem_of_bind.
  exists (id, mkLD stateOffline now2 ∅ 0). split.
  - unfold cleanupEntry. apply elem_of_app. left. rewrite decide_True by (cbn [State StateTime]; unfold cleanupInterval; split; [done|lia]).
    by apply list_elem_of_singleton.
  - apply elem_of_map_to_list. cbn [fst]. by rewrite !lookup_alter_eq, lookup_insert_eq.
Qed.

Lemma failed_load_saved_empty_witness :
  let '(_, acts) := runTurns (λ _, false) [(0, TEvent (EvtLogin demoLogin)); (1, TEvent (EvtDBLoaded demoLogin demoSave7)); (62, TCleanup)] (∅, []) in
  ASave 1 (mkOp 7 ∅ true) false ∈ acts.
Proof. apply (failed_load_saved_empty (λ _, false) ∅ 7 demoSave7 demoLogin 0 1 62); done. Defined.

(** ** One running role, outside the three windows

    The service with its environment, as far as role [id] is concerned: loads and
    kicks under way, the role goroutines, those of them that have left the registry
    but not yet posted their logout, and the logouts posted. [KickAndWait] waits for a
    role it finds in the registry, so that the re-entry is posted behind the logout;
    for one that is leaving it returns at once, which is the third window. *)

Record esys := mkE {
  e_m : logonMap; e_loads : list loginReq; e_kicks : list loginReq;
  e_running : nat; e_leaving : nat; e_logouts : list DataToSave }.

Section Single.
Context (loads : DataToSave → bool) (id : Z).

(** Carrying out the actions of a turn. *)
Definition perform (s : esys) (r : logonMap * list action) : esys :=
  fold_left (λ s a, match a with
    | ALoad _ l => mkE (e_m s) (e_loads s ++ [l]) (e_kicks s) (e_running s) (e_leaving s) (e_logouts s)
    | AKick l => mkE (e_m s) (e_loads s) (e_kicks s ++ [l]) (e_running s) (e_leaving s) (e_logouts s)
    | ARun _ _ _ => mkE (e_m s) (e_loads s) (e_kicks s) (S (e_running s)) (e_leaving s) (e_logouts s)
    | _ => s end) r.2 (mkE r.1 (e_loads s) (e_kicks s) (e_running s) (e_leaving s) (e_logouts s)).

Inductive estep : esys → esys → Prop :=
| e_login s now l :                  (* outside the first two windows *)
    lg_RoleID l = id →
    (∀ v, e_m s !! id = Some v → State v = statePending → now - StateTime v < StateTimeOut) →
    e_kicks s = [] ∨ stateOf (e_m s) id = Some stateKicking →
    estep s (perform s (onOps loads now (e_m s) (EvtLogin l)))
| e_loaded m l ls ks n k os now d :    (* a loader answers *)
    ds_RoleID d = id → lg_RoleID l = id →
    estep (mkE m (l :: ls) ks n k os) (perform (mkE m ls ks n k os) (onOps loads now m (EvtDBLoaded l d)))
| e_unregister m ls ks n k os :        (* a role ends: [Offline] up to [Unregister] *)
    estep (mkE m ls ks (S n) k os) (mkE m ls ks n (S k) os)
| e_exit m ls ks n k os (d : option DataToSave) :   (* the rest of it; the data may fail to encode *)
    (∀ x, d = Some x → ds_RoleID x = id) →
    estep (mkE m ls ks n (S k) os) (mkE m ls ks n k (os ++ option_list d))
| e_logout m ls ks n k d os now :
    ds_RoleID d = id →
    estep (mkE m ls ks n k (d :: os)) (perform (mkE m ls ks n k os) (onOps loads now m (EvtLogout d)))
| e_reentry m ls l ks now :            (* outside the third window *)
    lg_RoleID l = id →
    estep (mkE m ls (l :: ks) 0 0 []) (perform (mkE m ls ks 0 0 []) (onOps loads now m (EvtReentry l)))
| e_save s now d both :
    estep s (perform s (onOps loads now (e_m s) (EvtSaveRole d both)))
| e_success s now ids :
    estep s (perform s (onOps loads now (e_m s) (EvtSaveSuccess ids)))
| e_cleanup s now :
    estep s (perform s ((cleanup now (e_m s)).1, [])).

Definition einv (s : esys) : Prop :=
  let r := (e_running s + e_leaving s + length (e_logouts s))%nat in
  match stateOf (e_m s) id with
  | Some statePending => (length (e_loads s) = 1 ∧ e_kicks s = [] ∧ r = 0)%nat
  | Some stateOnline => e_loads s = [] ∧ e_kicks s = [] ∧ (r ≤ 1)%nat
  | Some stateKicking => e_loads s = [] ∧ length (e_kicks s) = 1%nat ∧ (r ≤ 1)%nat
  | _ => e_loads s = [] ∧ (length (e_kicks s) ≤ 1)%nat ∧ r = 0%nat
  end.

Lemma einv_init v m s now d l :
  m !! id = Some v → ds_RoleID d = id → lg_RoleID l = id → e_loads s = [] → e_kicks s = [] →
  (e_running s + e_leaving s + length (e_logouts s) = 0)%nat →
  einv (perform s (initRole loads now d l m)).
Proof.
  intros Ev Ed El Hl Hk Hr. unfold initRole. destruct (loads d); cbn [negb].
  - rewrite Ed, El, decide_False by (intros []; done). rewrite Ev. unfold perform, einv. cbn.
    rewrite stateOf_insert, decide_True by done. cbn. splits; [done..|lia].
  - unfold perform, einv. cbn. rewrite stateOf_alter, Ed, decide_True, Ev by done. cbn.
    rewrite Hk. splits; [done|cbn; lia|done].
Qed.

Lemma einv_login s now l :
  lg_RoleID l = id →
  (∀ v, e_m s !! id = Some v → State v = statePending → now - StateTime v < StateTimeOut) →
  e_kicks s = [] ∨ stateOf (e_m s) id = Some stateKicking → einv s →
  einv (perform s (onOps loads now (e_m s) (EvtLogin l))).
Proof.
  intros El Hp Hk Hi. cbn [onOps]. unfold opSignIn. rewrite El. unfold einv in Hi.
  destruct (e_m s !! id) as [v|] eqn:Ev.
  - unfold stateOf in Hi, Hk. rewrite Ev in Hi, Hk. cbn [fmap option_fmap option_map] in Hi, Hk.
    destruct (State v) eqn:Es.
    + destruct Hi as (H1 & H2 & H3), Hk as [Hk|]; [|done]. unfold perform, einv, postToLoad. cbn.
      rewrite stateOf_alter, decide_True, Ev by done. cbn. rewrite H1. done.
    + destruct Hi as (H1 & H2 & H3). unfold handleReentry, perform, einv. cbn.
      rewrite stateOf_alter, El, decide_True, Ev by done. cbn. by rewrite H2.
    + destruct Hi as (H1 & H2 & H3). rewrite decide_True by auto. unfold perform, einv. cbn. unfold stateOf.
      rewrite Ev. cbn. by rewrite Es.
    + unfold perform, einv. cbn. unfold stateOf. rewrite Ev. cbn. by rewrite Es.
    + destruct Hi as (H1 & H2 & H3), Hk as [Hk|]; [|done]. by eapply einv_init.
    + destruct Hi as (H1 & H2 & H3), Hk as [Hk|]; [|done]. by eapply einv_init.
  - unfold stateOf in Hi, Hk. rewrite Ev in Hi, Hk. cbn [fmap option_fmap option_map] in Hi, Hk.
    destruct Hi as (H1 & H2 & H3), Hk as [Hk|]; [|done]. cbn [State]. unfold perform, einv, postToLoad. cbn.
    rewrite stateOf_alter, decide_True, lookup_insert_eq by done. cbn. rewrite H1. done.
Qed.

(** A state change of [id] between offline, deletable and gone, or none at all. *)
Lemma einv_same s m' :
  stateOf m' id = stateOf (e_m s) id ∨
  (stateOf (e_m s) id = Some stateOffline ∧ stateOf m' id = Some stateCanDel) ∨
  (stateOf (e_m s) id = Some stateCanDel ∧ stateOf m' id = None) →
  einv s → einv (mkE m' (e_loads s) (e_kicks s) (e_running s) (e_leaving s) (e_logouts s)).
Proof.
  unfold einv. cbn. intros [-> |[[E ->]|[E ->]]]; [done| |]; by rewrite E.
Qed.

Lemma einv_preserved : preserved estep einv.
Proof.
  intros s s' Hs Hi.
  destruct Hs as [s now l El Hp Hk|m l ls ks n k os now d Ed El|m ls ks n k os|m ls ks n k os d Hd|m ls ks n k d os now Ed|m ls l ks now El
                 |s now d both|s now ids|s now].
  - by apply einv_login.
  - assert (∃ v, m !! id = Some v ∧ ls = [] ∧ ks = [] ∧ (n + k + length os = 0)%nat) as (v & Ev & -> & -> & Hr).
    { unfold einv, stateOf in Hi. cbn in Hi. destruct (m !! id) as [v|]; [|by destruct Hi]. exists v. cbn in Hi.
      destruct (State v); destruct Hi as (H1 & H2 & H3); try done. by destruct ls. }
    by eapply einv_init.
  - unfold einv in *. cbn in *. repeat case_match; conjs.
  - unfold einv in *. cbn in *. rewrite length_app. assert (length (option_list d) ≤ 1)%nat by (destruct d; cbn; lia).
    repeat case_match; conjs.
  - unfold roleOffline, saveMust, perform, einv in *. cbn in *. rewrite stateOf_alter, Ed, decide_True by done.
    rewrite lookup_alter_eq. unfold stateOf in Hi. destruct (m !! id) as [v|]; cbn in *; [|conjs].
    destruct (State v); conjs.
  - cbn [onOps]. unfold opReentry. rewrite El. unfold einv, stateOf in Hi. cbn in Hi.
    assert (ls = [] ∧ ks = []) as [-> ->].
    { destruct (m !! id) as [v|]; cbn in Hi; [destruct (State v)|]; destruct Hi as (H1 & H2 & _); try done;
        destruct ks; cbn in H2; done || lia. }
    destruct (m !! id) as [v|] eqn:Ev; [by apply (einv_init v)|].
    unfold perform, einv, stateOf. cbn. rewrite Ev. cbn. splits; [done|lia|done].
  - unfold saveOne, perform. cbn. apply (einv_same s); [|done]. left. rewrite stateOf_alter.
    destruct (decide (ds_RoleID d = id)); [|done]. unfold stateOf. by destruct (e_m s !! id).
  - unfold perform. cbn. apply (einv_same s); [|done].
    destruct (saveSuccess_state now ids (e_m s) id) as [?|(? & ? & _)]; auto.
  - unfold perform. cbn. apply (einv_same s); [|done].
    destruct (cleanup_state now (e_m s) id) as [?|[? ?]]; auto.
Qed.

End Single.

(** C1. At most one instance of a role runs at any time, however logins, loads,
    kicks, logouts, saves and cleanups interleave, provided no login arrives ten or
    more seconds into a pending load or while a kicked role's re-entry is still to
    be processed after its logout, and no re-entry overtakes the logout of a role that
    had left the registry when it was to be kicked. *)
Theorem one_running_role loads id s :
  rtc (estep loads id) (mkE ∅ [] [] 0 0 []) s → (e_running s ≤ 1)%nat.
Proof.
  intros Hr. assert (Hi : einv id s).
  { eapply rtc_preserved; [apply einv_preserved|exact Hr|]. unfold einv, stateOf. cbn. rewrite lookup_empty. cbn. splits; [done|lia|done]. }
  unfold einv in Hi. repeat case_match; conjs.
Qed.

Lemma one_running_role_witness :
  ∃ s, rtc (estep (λ _, true) 7) (mkE ∅ [] [] 0 0 []) s ∧ e_running s = 1%nat ∧ (e_running s ≤ 1)%nat.
Proof.
  assert (∃ s, rtc (estep (λ _, true) 7) (mkE ∅ [] [] 0 0 []) s ∧ e_running s = 1%nat) as (s & Hr & E).
  { eexists. split.
    - eapply rtc_l; [apply (e_login _ _ _ 0 demoLogin); [done| |by left]|].
      { intros v E. vm_compute in E. discriminate E. }
      eapply rtc_l; [apply (e_loaded _ _ _ _ _ _ _ _ _ 1 demoSave7); done|].
      eapply rtc_l; [apply (e_login _ _ _ 5 (mkLogin 7 71 4 0)); [done| |by left]|].
      { intros v E. vm_compute in E. injection E as <-. done. }
      eapply rtc_l; [apply e_unregister|].
      eapply rtc_l; [apply (e_exit _ _ _ _ _ _ _ _ (Some demoSave7)); by intros x [= <-]|].
      eapply rtc_l; [apply (e_logout _ _ _ _ _ _ _ _ _ 6); done|].
      eapply rtc_l; [apply (e_reentry _ _ _ _ _ _ 7); done|]. apply rtc_refl.
    - reflexivity. }
  exists s. splits; [done|done|by eapply one_running_role].
Defined.
