(* ===== verification/LogonFlow.v ===== *)
(** * internal/game/logon_service: the flow of logins through bounded channels

    [Start], [Login], [postToLoad], [postDBLoaded] (login.go) and the loaders' [run]
    (load.go). The service's goroutine takes events from [ops] and hands logins to the channel of
    a loader; a loader collects logins into a batch, loads it and posts one event per login
    back into [ops]; a load that fails posts nothing for the logins it had not loaded by
    then. Every send waits for room, so the two channels of a loader and the service form
    a cycle. What is loaded is in [Logon.v]; here only where each login is. *)

From S2P Require Import Prelude.

(** The goroutine of the service: idle, or waiting to send a login to a loader. *)
Inductive fev := FLogin (i : nat) | FLoaded.

(** A loader: the logins in its channel, in its batch, and those loaded and still to be posted. *)
Record lst := mkL { l_ch : nat; l_batch : nat; l_post : nat }.
(** [f_done]: the logins handed back; [f_lost]: those a failed load dropped; [f_fails]: the
    loads that failed. The code counts none of them. *)
Record flow := mkFlow { f_ops : list fev; f_run : option nat; f_ld : list lst; f_done : nat; f_lost : nat; f_fails : nat }.

(** How [loadBatch] ends: every login is posted; the Redis pipeline failed and none is; the
    roles that were not in Redis could not be read from MongoDB, and only the others are. *)
Inductive loadOutcome := LoadOk | RedisFailed | MongoFailed (inRedis : nat).
Definition posted (o : loadOutcome) (n : nat) : nat :=
  match o with LoadOk => n | RedisFailed => 0 | MongoFailed k => Nat.min k n end.
Definition failures (o : loadOutcome) : nat := match o with LoadOk => 0 | _ => 1 end.

Definition batchSize : nat := 100.

Section Flow.
(** The capacity of each channel. *)
Context (cap : nat).

(** [Login]: waits while [ops] is full. *)
Inductive cstep : flow → flow → Prop :=
| c_login s i : (length (f_ops s) < cap)%nat → (i < length (f_ld s))%nat →
    cstep s (mkFlow (f_ops s ++ [FLogin i]) (f_run s) (f_ld s) (f_done s) (f_lost s) (f_fails s)).

Inductive istep : flow → flow → Prop :=
| i_take i ops ld n x f : istep (mkFlow (FLogin i :: ops) None ld n x f) (mkFlow ops (Some i) ld n x f)
| i_done ops ld n x f : istep (mkFlow (FLoaded :: ops) None ld n x f) (mkFlow ops None ld (S n) x f)
| i_push ops i ld n x f l :
    ld !! i = Some l → (l_ch l < cap)%nat →
    istep (mkFlow ops (Some i) ld n x f) (mkFlow ops None (<[i := mkL (S (l_ch l)) (l_batch l) (l_post l)]> ld) n x f)
| i_ltake ops r ld n x f i c b :
    ld !! i = Some (mkL (S c) b 0) → (b < batchSize)%nat →
    istep (mkFlow ops r ld n x f) (mkFlow ops r (<[i := mkL c (S b) 0]> ld) n x f)
| i_lflush ops r ld n x f i c b o :
    ld !! i = Some (mkL c (S b) 0) →
    istep (mkFlow ops r ld n x f)
      (mkFlow ops r (<[i := mkL c 0 (posted o (S b))]> ld) n (x + (S b - posted o (S b))) (f + failures o))
| i_lpost ops r ld n x f i c b p :
    ld !! i = Some (mkL c b (S p)) → (length ops < cap)%nat →
    istep (mkFlow ops r ld n x f) (mkFlow (ops ++ [FLoaded]) r (<[i := mkL c b p]> ld) n x f).

(** [Start]: three loaders. *)
Definition flow0 : flow := mkFlow [] None (replicate 3 (mkL 0 0 0)) 0 0 0.

(** ** Draining *)

Definition inLoader (l : lst) : nat := l_ch l + l_batch l + l_post l.
Definition outstanding (s : flow) : nat :=
  length (f_ops s) + (if f_run s then 1 else 0) + sum_list_with inLoader (f_ld s).
Definition idleFlow (s : flow) : Prop := outstanding s = 0%nat.
(** A login is routed to a loader that exists. *)
Definition routed (s : flow) : Prop :=
  Forall (λ e, match e with FLogin i => (i < length (f_ld s))%nat | FLoaded => True end) (f_ops s) ∧
  match f_run s with Some i => (i < length (f_ld s))%nat | None => True end.

Definition weight (e : fev) : nat := match e with FLogin _ => 6 | FLoaded => 1 end.
Definition lweight (l : lst) : nat := 4 * l_ch l + 3 * l_batch l + 2 * l_post l.
Definition measure (s : flow) : nat :=
  sum_list_with weight (f_ops s) + (if f_run s then 5 else 0) + sum_list_with lweight (f_ld s).

Lemma sum_insert {A} (f : A → nat) l i x y :
  l !! i = Some x → (sum_list_with f (<[i := y]> l) + f x = sum_list_with f l + f y)%nat.
Proof.
  revert i. induction l as [|z l IH]; intros [|i] E; try done; [injection E as ->; cbn; lia|]. specialize (IH i E).
  change (<[S i := y]> (z :: l)) with (z :: <[i := y]> l). cbn [sum_list_with]. lia.
Qed.

Lemma sum_list_app {A} (f : A → nat) l1 l2 : sum_list_with f (l1 ++ l2) = (sum_list_with f l1 + sum_list_with f l2)%nat.
Proof. induction l1 as [|x l1 IH]; cbn; lia. Qed.

Lemma posted_le o n : (posted o n ≤ n)%nat ∧ (failures o = 0 → posted o n = n)%nat.
Proof. destruct o; cbn; lia. Qed.

(** Where the logins are. *)
Definition accounted (s : flow) : nat := f_done s + f_lost s.

Lemma istep_outstanding s s' : istep s s' → (outstanding s' + accounted s' = outstanding s + accounted s)%nat.
Proof.
  intros Hs. unfold outstanding, accounted. destruct Hs;
    try match goal with o : loadOutcome |- context [posted _ ?m] => pose proof (posted_le o m) end;
    cbn [f_ops f_run f_ld f_done f_lost]; rewrite ?length_app; cbn [length];
    try match goal with H : _ !! ?i = Some ?x |- context [sum_list_with inLoader (<[?i := ?y]> ?l)] => pose proof (sum_insert inLoader l i x y H) end;
    unfold inLoader in *; cbn [l_ch l_batch l_post] in *; lia.
Qed.

Lemma istep_measure s s' : istep s s' → (measure s' < measure s)%nat.
Proof.
  intros Hs. unfold measure. destruct Hs;
    try match goal with o : loadOutcome |- context [posted _ ?m] => pose proof (posted_le o m) end;
    cbn [f_ops f_run f_ld]; rewrite ?sum_list_app; cbn [sum_list_with weight];
    try match goal with H : _ !! ?i = Some ?x |- context [sum_list_with lweight (<[?i := ?y]> ?l)] => pose proof (sum_insert lweight l i x y H) end;
    unfold lweight in *; cbn [l_ch l_batch l_post] in *; lia.
Qed.

Lemma istep_routed : preserved istep routed.
Proof.
  intros s s' Hs [Ho Hr]. unfold routed in *. destruct Hs; cbn [f_ops f_run f_ld] in *; rewrite ?length_insert.
  - apply Forall_cons in Ho as [??]. done.
  - apply Forall_cons in Ho as [??]. done.
  - done.
  - done.
  - done.
  - split; [|done]. apply Forall_app. split; [done|]. by repeat constructor.
Qed.

Lemma sum_member {A} (f : A → nat) l i x : l !! i = Some x → (f x ≤ sum_list_with f l)%nat.
Proof. revert i. induction l as [|z l IH]; intros [|i] E; cbn in *; simplify_eq; [lia|]. specialize (IH i E). lia. Qed.

Lemma sum_positive {A} (f : A → nat) l : (0 < sum_list_with f l)%nat → ∃ i x, l !! i = Some x ∧ (0 < f x)%nat.
Proof.
  induction l as [|z l IH]; cbn; [lia|]. intros H. destruct (decide (0 < f z)%nat); [by exists 0%nat, z|].
  destruct IH as (i & x & ? & ?); [lia|]. by exists (S i), x.
Qed.

(** With at most [cap] logins under way, some goroutine can go on. *)
Lemma flow_progress s : (outstanding s ≤ cap)%nat → routed s → idleFlow s ∨ ∃ s', istep s s'.
Proof.
  intros Hc [Ho Hr]. destruct s as [ops r ld n x f]. unfold outstanding, idleFlow in *. cbn [f_ops f_run f_ld] in *.
  destruct r as [i|].
  - right. destruct (lookup_lt_is_Some_2 ld i Hr) as [l El]. pose proof (sum_member inLoader ld i l El). eexists. eapply i_push; [done|].
    unfold inLoader in *. cbn in *. lia.
  - destruct ops as [|[i|] ops]; [|right; eexists; apply i_take|right; eexists; apply i_done].
    destruct (decide (sum_list_with inLoader ld = 0%nat)) as [E|E]; [left; unfold outstanding; cbn; lia|right].
    destruct (sum_positive inLoader ld) as (i & [c b p] & El & Hp); [lia|]. unfold inLoader in Hp. cbn in Hp, Hc.
    pose proof (sum_member inLoader ld i _ El) as Hm. unfold inLoader in Hm at 1. cbn in Hm.
    destruct p as [|p]; [|eexists; eapply i_lpost; [done|cbn; lia]]. destruct b as [|b]; [|eexists; by eapply (i_lflush _ _ _ _ _ _ _ _ _ LoadOk)].
    destruct c as [|c]; [lia|]. eexists. eapply i_ltake; [done|]. unfold batchSize. lia.
Qed.

(** Nothing is taken back, and only failed loads lose logins. *)
Lemma istep_counts s s' : istep s s' →
  (f_done s ≤ f_done s')%nat ∧ (f_lost s ≤ f_lost s')%nat ∧ (f_fails s ≤ f_fails s')%nat ∧
  (f_fails s' = f_fails s → f_lost s' = f_lost s).
Proof.
  intros Hs. destruct Hs; cbn; splits; try lia. pose proof (posted_le o (S b)) as [_ Hp]. intros E. rewrite Hp; lia.
Qed.

Lemma rtc_istep s s' : rtc istep s s' → routed s →
  routed s' ∧ (outstanding s' + accounted s' = outstanding s + accounted s)%nat ∧
  (f_done s ≤ f_done s')%nat ∧ (f_lost s ≤ f_lost s')%nat ∧ (f_fails s ≤ f_fails s')%nat ∧
  (f_fails s' = f_fails s → f_lost s' = f_lost s).
Proof.
  induction 1 as [s|s s1 s2 H1 _ IH]; intros Hr; [splits; done || lia|].
  destruct (IH (istep_routed _ _ H1 Hr)) as (? & E & ? & ? & ? & Hl). pose proof (istep_outstanding _ _ H1).
  destruct (istep_counts _ _ H1) as (? & ? & ? & Hl1). splits; [done|lia..|]. intros. rewrite Hl, Hl1; lia.
Qed.

End Flow.



(** ** The cycle closes *)

Definition fstep (cap : nat) (s s' : flow) : Prop := cstep cap s s' ∨ istep cap s s'.

Definition oneBusy (ops : list fev) (r : option nat) (ch post : nat) : flow := mkFlow ops r [mkL ch 0 post; mkL 0 0 0; mkL 0 0 0] 0 0 0.

Lemma one_login cap ch post :
  (0 < cap)%nat → (ch < cap)%nat → rtc (fstep cap) (oneBusy [] None ch post) (oneBusy [] None (S ch) post).
Proof.
  intros Hc Hch. eapply rtc_l; [left; apply (c_login cap _ 0%nat); cbn; lia|].
  eapply rtc_l; [right; apply i_take|]. eapply rtc_l; [right; eapply i_push; [reflexivity|done]|]. apply rtc_refl.
Qed.

Lemma fill_loader cap k : (0 < cap)%nat → (k ≤ cap)%nat → rtc (fstep cap) (oneBusy [] None 0 1) (oneBusy [] None k 1).
Proof.
  intros Hc. induction k as [|k IH]; intros Hk; [apply rtc_refl|]. etrans; [apply IH; lia|]. apply one_login; lia.
Qed.

Lemma fill_ops cap k ch : (k ≤ cap)%nat →
  rtc (fstep cap) (oneBusy [] (Some 0%nat) ch 1) (oneBusy (replicate k (FLogin 0)) (Some 0%nat) ch 1).
Proof.
  induction k as [|k IH]; intros Hk; [apply rtc_refl|]. etrans; [apply IH; lia|]. apply rtc_once. left.
  replace (replicate (S k) (FLogin 0)) with (replicate k (FLogin 0) ++ [FLogin 0]) by (symmetry; apply replicate_cons_app).
  apply (c_login cap (oneBusy (replicate k (FLogin 0)) (Some 0%nat) ch 1) 0%nat); cbn; [rewrite length_replicate|]; lia.
Qed.

Lemma take_and_load cap : (0 < cap)%nat → rtc (fstep cap) (oneBusy [] None 0 0) (oneBusy [] None 0 1).
Proof.
  intros Hc. etrans; [by apply one_login|].
  eapply rtc_l; [right; eapply (i_ltake cap _ _ _ _ _ _ 0%nat); [reflexivity|unfold batchSize; lia]|].
  eapply rtc_l; [right; eapply (i_lflush cap _ _ _ _ _ _ 0%nat _ _ LoadOk); reflexivity|]. apply rtc_refl.
Qed.

(** C38. Logins alone can stop the service for good: with twice as many under way as a channel
    holds, the service waits for room in a loader's full channel, that loader waits for room
    in the full [ops], and so does everyone who logs in or out. No goroutine can go on. *)
Theorem logins_deadlock cap :
  (0 < cap)%nat → ∃ s, rtc (fstep cap) flow0 s ∧ outstanding s = (2 * cap + 2)%nat ∧ f_done s = 0%nat ∧ ∀ s', ¬ fstep cap s s'.
Proof.
  intros Hc. exists (oneBusy (replicate cap (FLogin 0)) (Some 0%nat) cap 1). splits.
  - etrans; [by apply take_and_load|]. etrans; [by apply (fill_loader cap cap)|].
    eapply rtc_l; [left; apply (c_login cap _ 0%nat); cbn; lia|]. eapply rtc_l; [right; apply i_take|]. by apply fill_ops.
  - unfold outstanding. cbn. rewrite length_replicate. lia.
  - done.
  - intros s' [Hs|Hs]; inversion Hs; subst; cbn in *; rewrite ?length_replicate in *; try lia.
    all: try (destruct i as [|[|[|i]]]; discriminate). simplify_eq. cbn in *. lia.
Qed.

Lemma logins_deadlock_witness : ∃ s, rtc (fstep (Z.to_nat 40960)) flow0 s ∧ ∀ s', ¬ fstep (Z.to_nat 40960) s s'.
Proof.
  destruct (logins_deadlock (Z.to_nat 40960)) as (s & H1 & _ & _ & H2); [lia|]. exists s. split; [exact H1|exact H2].
Defined.
