(* ===== verification/Redis.v ===== *)
(** * What the account service relies on from Redis

    Redis is a service outside the repository: a class of the commands the sources
    call, and a class of the documented behaviour their correctness needs. A key holds
    a string or a hash; [HSET] on a key that holds a string is an error and changes
    nothing, which is why its laws ask that there is none. [EXPIRE] sets a key's time to
    live and changes no value; that the time runs out is a step of the systems that
    depend on it (the account hash in Account.v). The last section is a concrete store
    that has all the laws. *)

From S2P Require Import Prelude DataBus.

Class RedisOps (R : Type) := {
  HGET : string → string → R → option string;
  HSET : string → list (string * string) → R → R;
  GET : string → R → option string;
  SET : string → string → R → R;
  EXPIRE : string → R → R;
  INCR : string → R → R * Z
}.

Class RedisLaws (R : Type) `{RedisOps R} := {
  hget_hset r k kvs f v : GET k r = None → NoDup kvs.*1 → (f, v) ∈ kvs → HGET k f (HSET k kvs r) = Some v;
  hget_hset_field r k kvs f : GET k r = None → f ∉ kvs.*1 → HGET k f (HSET k kvs r) = HGET k f r;
  hget_hset_key r k k' kvs f : k ≠ k' → HGET k' f (HSET k kvs r) = HGET k' f r;
  hget_set r k k' v f : k ≠ k' → HGET k' f (SET k v r) = HGET k' f r;
  get_hset r k k' kvs : GET k' r = None → GET k' (HSET k kvs r) = None;
  get_hset_key r k k' kvs : k ≠ k' → GET k' (HSET k kvs r) = GET k' r;
  get_set r k v : GET k (SET k v r) = Some v;
  get_set_key r k k' v : k ≠ k' → GET k' (SET k v r) = GET k' r;
  hget_expire r k k' f : HGET k' f (EXPIRE k r) = HGET k' f r;
  get_expire r k k' : GET k' (EXPIRE k r) = GET k' r;
  incr_get r k n : GET k r = Some (Itoa n) → 0 ≤ n < 2 ^ 63 - 1 → INCR k r = (SET k (Itoa (n + 1)) r, n + 1)
}.

(** ** Numbers in Redis strings

    [strconv.ParseUint(s, 10, bits)], which [Scan] and [Uint64] call on a reply. *)

Definition digit (a : Ascii.ascii) : option Z :=
  let c := Z.of_nat (Ascii.nat_of_ascii a) in
  if decide (48 ≤ c ≤ 57) then Some (c - 48) else None.

Fixpoint parseDigits (s : string) (acc : Z) : option Z :=
  match s with
  | EmptyString => Some acc
  | String a s => match digit a with Some d => parseDigits s (acc * 10 + d) | None => None end
  end.

Definition parseUint (bits : Z) (s : string) : option Z :=
  match s with
  | EmptyString => None
  | _ => match parseDigits s 0 with
         | Some z => if decide (z < 2 ^ bits) then Some z else None
         | None => None
         end
  end.

(** [strconv.ParseBool]. *)
Definition parseBool (s : string) : option bool :=
  if decide (s ∈ ["1"; "t"; "T"; "TRUE"; "true"; "True"]) then Some true
  else if decide (s ∈ ["0"; "f"; "F"; "FALSE"; "false"; "False"]) then Some false else None.

Lemma digit_pretty (d : N) : (d < 10)%N → digit (pretty_N_char d) = Some (Z.of_N d).
Proof.
  intros Hd. assert (d ∈ [0; 1; 2; 3; 4; 5; 6; 7; 8; 9]%N) as Hi by (rewrite !elem_of_cons; lia).
  clear Hd. repeat (apply elem_of_cons in Hi as [->|Hi]; [reflexivity|]). by apply elem_of_nil in Hi.
Qed.

Lemma parse_pretty_go (n : N) s acc : acc = 0 → parseDigits (pretty_N_go n s) acc = parseDigits s (Z.of_N n).
Proof.
  intros ->. revert s. induction (N.lt_wf_0 n) as [n _ IH]. intros s.
  destruct (decide (n = 0)%N) as [->|Hn]; [by rewrite pretty_N_go_0|].
  rewrite pretty_N_go_step by lia. rewrite IH by (apply N.div_lt; lia). cbn [parseDigits].
  rewrite digit_pretty by (apply N.mod_lt; lia). f_equal.
  pose proof (N.div_mod n 10). lia.
Qed.

Lemma parse_pretty_N (n : N) : n ≠ 0%N → parseDigits (pretty n) 0 = Some (Z.of_N n) ∧ pretty n ≠ (EmptyString : string).
Proof.
  intros Hn. assert (E : pretty n = pretty_N_go n EmptyString).
  { unfold pretty, pretty_N. by rewrite decide_False. }
  assert (H : parseDigits (pretty n) 0 = Some (Z.of_N n)) by by rewrite E, parse_pretty_go.
  split; [done|]. intros E'. rewrite E' in H. cbn in H. injection H. lia.
Qed.

(** A number written in decimal reads back. *)
Lemma parseUint_Itoa bits n : 0 ≤ n < 2 ^ bits → parseUint bits (Itoa n) = Some n.
Proof.
  intros Hn. unfold Itoa. destruct n as [|p|p]; [|..|lia].
  - change (parseUint bits (pretty 0)) with (if decide (0 < 2 ^ bits) then Some 0 else None).
    by rewrite decide_True by lia.
  - assert (E : (pretty (Z.pos p) : string) = pretty (N.pos p)) by reflexivity. rewrite E.
    destruct (parse_pretty_N (N.pos p)) as [H Hne]; [done|].
    unfold parseUint. destruct (pretty (N.pos p)) eqn:Ep; [done|]. rewrite H.
    by rewrite decide_True by (cbn; lia).
Qed.

#[global] Arguments parseUint : simpl never.

(** A number ends at the first character that is no digit. *)
Lemma digits_end c x y s t a b :
  digit c = None → is_Some (parseDigits x a) → is_Some (parseDigits y b) →
  x +:+ String c s = y +:+ String c t → x = y ∧ s = t.
Proof.
  intros Hc. revert y a b. induction x as [|d x IH]; intros [|e y] a b Hx Hy E; cbn in E.
  - by injection E as ->.
  - injection E as -> E. cbn in Hy. rewrite Hc in Hy. by destruct Hy.
  - injection E as -> E. cbn in Hx. rewrite Hc in Hx. by destruct Hx.
  - injection E as -> E. cbn in Hx, Hy. destruct (digit e); [|by destruct Hx].
    destruct (IH y _ _ Hx Hy E) as [-> ->]. done.
Qed.

Lemma Itoa_end c i j s t :
  digit c = None → is_u64 i → is_u64 j → Itoa i +:+ String c s = Itoa j +:+ String c t → i = j ∧ s = t.
Proof.
  intros Hc Hi Hj E.
  assert (Hd : ∀ i, is_u64 i → is_Some (parseDigits (Itoa i) 0)).
  { intros k Hk. pose proof (parseUint_Itoa 64 k Hk) as Hp. unfold parseUint in Hp.
    destruct (Itoa k) eqn:Ek; [done|]. destruct (parseDigits _ 0); [by eexists|done]. }
  destruct (digits_end c _ _ _ _ _ _ Hc (Hd i Hi) (Hd j Hj) E) as [E1 ->]. by apply Itoa_inj in E1.
Qed.

(** ** A store with the laws *)

Record rdb := mkRdb { rdb_hash : gmap string (gmap string string); rdb_str : gmap string string }.

#[export] Instance rdb_ops : RedisOps rdb := {|
  HGET k f r := h ← rdb_hash r !! k; h !! f;
  HSET k kvs r := match rdb_str r !! k with
    | Some _ => r
    | None => mkRdb (<[k := list_to_map kvs ∪ default ∅ (rdb_hash r !! k)]> (rdb_hash r)) (rdb_str r)
    end;
  GET k r := rdb_str r !! k;
  SET k v r := mkRdb (delete k (rdb_hash r)) (<[k := v]> (rdb_str r));
  EXPIRE k r := r;
  INCR k r := let n := match rdb_str r !! k with Some s => default 0 (parseUint 63 s) | None => 0 end in
              (mkRdb (delete k (rdb_hash r)) (<[k := Itoa (n + 1)]> (rdb_str r)), n + 1)
|}.

#[export] Instance rdb_laws : RedisLaws rdb.
Proof.
  split; cbn.
  - intros r k kvs f v Hg Hn Hin. rewrite Hg. cbn. rewrite lookup_insert_eq. cbn.
    apply lookup_union_Some_l. by apply elem_of_list_to_map.
  - intros r k kvs f Hg Hf. rewrite Hg. cbn. rewrite lookup_insert_eq. cbn.
    rewrite lookup_union_r by by apply not_elem_of_list_to_map. by destruct (rdb_hash r !! k).
  - intros r k k' kvs f Hk. case_match; [done|]. cbn. by rewrite lookup_insert_ne.
  - intros r k k' v f Hk. by rewrite lookup_delete_ne.
  - intros r k k' kvs Hg. by case_match.
  - intros r k k' kvs Hk. by case_match.
  - intros r k v. apply lookup_insert_eq.
  - intros r k k' v Hk. by apply lookup_insert_ne.
  - done.
  - done.
  - intros r k n Hg Hn. rewrite Hg, parseUint_Itoa by lia. done.
Qed.
