(* ===== verification/Account.v ===== *)
(** * internal/account/auth: accounts and login sessions

    [acc.go], [service.go], the login part of [auth.go] and the keys of
    [share/model/redis_key.go]. An account's state is a Redis hash that every account
    server may change; logins and logouts change it through two Lua scripts that
    compare the login sequence number first. *)

From S2P Require Import Prelude DataBus Redis.

(** ** redis_key.go, func.go *)

Definition RedisKeyIDs : string := "server:acc_id".
Definition KeyAccount (accID : Z) : string := "acc:{" +:+ Itoa accID +:+ "}".
Definition KeyAccBind (bindKey : string) : string := "acc_bind:" +:+ bindKey.
Definition KeyAccLoginCD (typ : Z) (acc : string) : string := "acc_login_cd:" +:+ Itoa typ +:+ ":" +:+ acc.

Definition GetRoleID (accID : Z) : Z := accID.
Definition GetAccID (roleID : Z) : Z := roleID.

(** [pb.LoginCode], the codes the service uses. *)
Inductive LoginCode :=
| LCSuccess | LCSdkCheckFaild | LCNoGame | LCCanNotReConn | LCCD | LCServerBusy | LCServerErr
| LCAccountEmpty | LCSDKErr.

#[export] Instance LoginCode_eq_dec : EqDecision LoginCode.
Proof. solve_decision. Defined.

(** [pb.S2SReqLogin] with the fields of its [Req] the service reads. *)
Record loginMsg := mkLM {
  lm_SdkType : Z; lm_Account : string; lm_Reconnect : bool; lm_SesID : Z; lm_RoleID : Z;
  lm_ReConnToken : Z; lm_Seq : Z; lm_BindAcc : string; lm_ConnectedAcc : list string }.

#[export] Instance loginMsg_eq_dec : EqDecision loginMsg.
Proof. solve_decision. Defined.

(** ** acc.go: the account *)

Record Account := mkAcc {
  AccID : Z; Freeze : bool; acc_GameID : Z; acc_Seq : Z; Passwd : Z; Binds : list string; BindsJSON : string }.

#[export] Instance Account_eq_dec : EqDecision Account.
Proof. solve_decision. Defined.

Definition zeroAccount : Account := mkAcc 0 false 0 0 0 [] EmptyString.

Definition AccFields : list string := ["acc_id"; "binds"; "freeze"; "game_id"; "seq"; "passwd"].
Definition StateFields : list string := ["game_id"; "seq"; "passwd"].

Definition FormatBindKey (sdkType : Z) (account : string) : string := Itoa sdkType +:+ "@" +:+ account.

(** [Clone] copies the slice: values are copied here. *)
Definition Clone (acc : Account) : Account := acc.

(** [strings.Split] and [strings.Join] with a one-byte separator. *)
Fixpoint Split (c : Ascii.ascii) (s : string) : list string :=
  match s with
  | EmptyString => [EmptyString]
  | String a s =>
      if decide (a = c) then EmptyString :: Split c s
      else match Split c s with x :: xs => String a x :: xs | [] => [String a EmptyString] end
  end.
Fixpoint Join (c : Ascii.ascii) (l : list string) : string :=
  match l with
  | [] => EmptyString
  | [x] => x
  | x :: l => x +:+ String c (Join c l)
  end.

Definition comma : Ascii.ascii := Ascii.ascii_of_nat 44.

Definition UnmarshalBinds (acc : Account) : Account :=
  if decide (BindsJSON acc = EmptyString) then acc
  else mkAcc (AccID acc) (Freeze acc) (acc_GameID acc) (acc_Seq acc) (Passwd acc) (Split comma (BindsJSON acc)) (BindsJSON acc).
Definition MarshalBinds (acc : Account) : Account * string :=
  let acc := match Binds acc with
             | [] => acc
             | bs => mkAcc (AccID acc) (Freeze acc) (acc_GameID acc) (acc_Seq acc) (Passwd acc) bs (Join comma bs)
             end in
  (acc, BindsJSON acc).

(** The struct scan of an [HMGET] reply: fields in order, absent ones skipped, stopping
    at the first value that does not parse. *)
Definition scanField (f v : string) (acc : Account) : option Account :=
  if decide (f = "acc_id") then
    (λ z, mkAcc z (Freeze acc) (acc_GameID acc) (acc_Seq acc) (Passwd acc) (Binds acc) (BindsJSON acc)) <$> parseUint 64 v
  else if decide (f = "binds") then
    Some (mkAcc (AccID acc) (Freeze acc) (acc_GameID acc) (acc_Seq acc) (Passwd acc) (Binds acc) v)
  else if decide (f = "freeze") then
    (λ b, mkAcc (AccID acc) b (acc_GameID acc) (acc_Seq acc) (Passwd acc) (Binds acc) (BindsJSON acc)) <$> parseBool v
  else if decide (f = "game_id") then
    (λ z, mkAcc (AccID acc) (Freeze acc) z (acc_Seq acc) (Passwd acc) (Binds acc) (BindsJSON acc)) <$> parseUint 8 v
  else if decide (f = "seq") then
    (λ z, mkAcc (AccID acc) (Freeze acc) (acc_GameID acc) z (Passwd acc) (Binds acc) (BindsJSON acc)) <$> parseUint 32 v
  else if decide (f = "passwd") then
    (λ z, mkAcc (AccID acc) (Freeze acc) (acc_GameID acc) (acc_Seq acc) z (Binds acc) (BindsJSON acc)) <$> parseUint 64 v
  else Some acc.

Fixpoint Scan (fs : list string) (get : string → option string) (acc : Account) : Account * bool :=
  match fs with
  | [] => (acc, true)
  | f :: fs =>
      match get f with
      | None => Scan fs get acc
      | Some v => match scanField f v acc with Some acc => Scan fs get acc | None => (acc, false) end
      end
  end.

(** How a call of Redis ends: answered, or failed after or before it ran. *)
Inductive evalOutcome := EvOk | EvErrRun | EvErrLost.

#[export] Instance evalOutcome_eq_dec : EqDecision evalOutcome.
Proof. solve_decision. Defined.

Section Redis.
Context {R : Type} `{RedisOps R}.

(** ** The Lua scripts: each runs atomically in Redis *)

Definition current_seq (key : string) (r : R) : string := default "0" (HGET key "seq" r).

Definition saveLoginLua (key expected game seq passwd : string) (r : R) : R * Z :=
  if decide (current_seq key r = expected)
  then (HSET key [("game_id", game); ("seq", seq); ("passwd", passwd)] r, 1)
  else (r, 0).

Definition clearGameLua (key expected : string) (r : R) : R * Z :=
  if decide (current_seq key r = expected) then (HSET key [("game_id", "0")] r, 1) else (r, 0).

Definition Eval {T} (o : evalOutcome) (script : R → R * T) (r : R) : R * result T :=
  match o with
  | EvOk => let '(r, x) := script r in (r, Ok x)
  | EvErrRun => ((script r).1, Err (ErrMsg "redis"))
  | EvErrLost => (r, Err (ErrMsg "redis"))
  end.

Definition SaveLoginData (o : evalOutcome) (acc : Account) (oldSeq : Z) (r : R) : R * result bool :=
  let key := KeyAccount (AccID acc) in
  let '(r, res) := Eval o (saveLoginLua key (Itoa oldSeq) (Itoa (acc_GameID acc)) (Itoa (acc_Seq acc)) (Itoa (Passwd acc))) r in
  (r, match res with Ok n => Ok (bool_decide (n = 1)) | Err e => Err e end).

Definition ClearGameID (o : evalOutcome) (acc : Account) (expectedSeq : Z) (r : R) : R * result bool :=
  let key := KeyAccount (AccID acc) in
  let '(r, res) := Eval o (clearGameLua key (Itoa expectedSeq)) r in
  (r, match res with Ok n => Ok (bool_decide (n = 1)) | Err e => Err e end).

(** ** service.go *)

(** [discovery.Default.Exists] on the game servers, and [Select]'s answer. *)
Context (gameExists : Z → bool) (selected : option Z).

Definition selectGameServer (world : Z) : Z * LoginCode :=
  match selected with
  | None => (0, LCNoGame)
  | Some id => (u8 id, LCSuccess)
  end.

Definition allocateGameServer (lastGameID world : Z) : Z * LoginCode :=
  if decide (lastGameID ≠ 0) then
    if gameExists lastGameID then (lastGameID, LCSuccess) else selectGameServer world
  else selectGameServer world.

Definition HandleRoleLogout (o : evalOutcome) (accID sn : Z) (r : R) : R :=
  (ClearGameID o (mkAcc accID false 0 0 0 [] EmptyString) sn r).1.

(** ** auth.go: the login session *)

(** [generatePasswd] draws 8 bytes until they are not all zero; [None]: the draws given
    are all zero and the loop goes on. *)
Fixpoint generatePasswd (draws : list bytes) : option Z :=
  match draws with
  | [] => None
  | b :: draws => let pwd := le_combine b in if decide (pwd = 0) then generatePasswd draws else Some pwd
  end.

Definition setToken (roleID token seq : Z) (req : loginMsg) : loginMsg :=
  mkLM (lm_SdkType req) (lm_Account req) (lm_Reconnect req) (lm_SesID req) roleID token seq
       (lm_BindAcc req) (lm_ConnectedAcc req).

(** Every early return gives the state reached so far; the account and the request are
    the objects the source changes in place. *)
Definition finalizeLoginSession (draws : list bytes) (o : evalOutcome) (acc : Account) (req : loginMsg) (r : R)
    : option (R * Account * loginMsg * LoginCode) :=
  if lm_Reconnect req && bool_decide (Passwd acc ≠ 0) && bool_decide (lm_ReConnToken req ≠ Passwd acc)
  then Some (r, acc, req, LCCanNotReConn)
  else
    let '(gameID, code) := allocateGameServer (acc_GameID acc) 0 in
    if decide (code ≠ LCSuccess) then Some (r, acc, req, code)
    else
      match (if decide (Passwd acc = 0) then generatePasswd draws else Some (Passwd acc)) with
      | None => None
      | Some pwd =>
          let oldSeq := acc_Seq acc in
          let acc := mkAcc (AccID acc) (Freeze acc) gameID (u32 (oldSeq + 1)) pwd (Binds acc) (BindsJSON acc) in
          let '(r, res) := SaveLoginData o acc oldSeq r in
          match res with
          | Err _ => Some (r, acc, req, LCServerErr)
          | Ok false => Some (r, acc, req, LCServerBusy)
          | Ok true => Some (r, acc, setToken (GetRoleID (AccID acc)) (Passwd acc) (acc_Seq acc) req, LCSuccess)
          end
      end.

(** What a login request is answered with. *)
Inductive answer := ToGame (gameID : Z) (req : loginMsg) | ToClient (sesID : Z) (code : LoginCode).

Definition sendLoginFailure (req : loginMsg) (code : LoginCode) : answer := ToClient (lm_SesID req) code.

Definition OnSDKAuthSuccess (draws : list bytes) (o : evalOutcome) (acc : option Account) (req : loginMsg) (r : R)
    : option (R * answer) :=
  match acc with
  | None => Some (r, sendLoginFailure req LCServerErr)
  | Some acc =>
      '(r, acc, req, code) ← finalizeLoginSession draws o acc req r;
      Some (r, if decide (code ≠ LCSuccess) then sendLoginFailure req code
               else ToGame (acc_GameID acc)
                      (mkLM (lm_SdkType req) (lm_Account req) (lm_Reconnect req) (lm_SesID req) (lm_RoleID req)
                            (lm_ReConnToken req) (lm_Seq req) (lm_BindAcc req) (Binds acc)))
  end.

(** ** acc.go: account ids *)

(** The script that raises the counter; Lua numbers are doubles, so this is what
    it computes for numbers below [2 ^ 53]. [None] is [tonumber] returning nil, after
    which the comparison fails. *)
Definition initIdLua (proposed : Z) (r : R) : R * option Z :=
  match parseUint 53 (default "0" (GET RedisKeyIDs r)) with
  | None => (r, None)
  | Some current =>
      if decide (proposed > current) then (SET RedisKeyIDs (Itoa proposed) r, Some proposed) else (r, Some current)
  end.

Definition IDAccBegin : Z := 100000.

(** [maxDoc]: the account with the largest id, [Ok None] when there is none. *)
Definition InitDistributedAccID (maxDoc : result (option Account)) (o : evalOutcome) (r : R) : R * go_error :=
  match maxDoc with
  | Err e => (r, Some e)
  | Ok d =>
      let maxID := match d with Some a => AccID a | None => IDAccBegin end in
      let '(r, res) := Eval o (initIdLua maxID) r in
      (r, match res with Ok (Some _) => None | _ => Some (ErrMsg "init acc id failed") end)
  end.

Definition GenerateNextAccID (o : evalOutcome) (r : R) : R * result Z :=
  let '(r, res) := Eval o (INCR RedisKeyIDs) r in
  (r, match res with Ok id => Ok (u64 id) | Err e => Err e end).

End Redis.

(** ** Scans *)

Ltac scanfield := unfold scanField; repeat (case_decide; [cbn; intros; simplify_eq|]).

(** [proj] is the struct field tagged [f0]. *)
Definition tagged (proj : Account → Z) (f0 : string) (bits : Z) : Prop :=
  ∀ f v a a', scanField f v a = Some a' →
    (f = f0 → parseUint bits v = Some (proj a')) ∧ (f ≠ f0 → proj a' = proj a).

Ltac tagged_tac := intros f v a a'; scanfield;
  repeat match goal with
         | H : _ <$> _ = Some _ |- _ => apply fmap_Some in H as (? & ? & ->)
         | H : Some _ = Some _ |- _ => injection H as <- end; cbn; split; intros; congruence.

Lemma tagged_GameID : tagged acc_GameID "game_id" 8.
Proof. tagged_tac. Qed.
Lemma tagged_Seq : tagged acc_Seq "seq" 32.
Proof. tagged_tac. Qed.
Lemma tagged_Passwd : tagged Passwd "passwd" 64.
Proof. tagged_tac. Qed.
Lemma tagged_AccID : tagged AccID "acc_id" 64.
Proof. tagged_tac. Qed.

Lemma Scan_skip proj f0 bits fs get a a' :
  tagged proj f0 bits → f0 ∉ fs → Scan fs get a = (a', true) → proj a' = proj a.
Proof.
  intros Ht. revert a. induction fs as [|f fs IH]; intros a Hf Hs; cbn in Hs; [by simplify_eq|].
  apply not_elem_of_cons in Hf as [Hne Hf]. destruct (get f) as [v|]; [|by apply IH in Hs].
  destruct (scanField f v a) as [b|] eqn:E; [|done]. apply Ht in E as [_ E].
  rewrite <- E by congruence. by apply IH.
Qed.

(** What a successful scan leaves in a tagged field. *)
Lemma Scan_proj proj f0 bits fs get a a' :
  tagged proj f0 bits → NoDup fs → f0 ∈ fs → Scan fs get a = (a', true) →
  match get f0 with None => proj a' = proj a | Some v => parseUint bits v = Some (proj a') end.
Proof.
  intros Ht. revert a. induction fs as [|f fs IH]; intros a Hn Hf Hs; [by apply elem_of_nil in Hf|].
  apply NoDup_cons in Hn as [Hnf Hn]. cbn in Hs.
  destruct (decide (f = f0)) as [->|Hne].
  - destruct (get f0) as [v|]; [|by apply (Scan_skip _ _ _ _ _ _ _ Ht) in Hs].
    destruct (scanField f0 v a) as [b|] eqn:E; [|done]. apply Ht in E as [E _].
    rewrite (Scan_skip _ _ _ _ _ _ _ Ht Hnf Hs). by apply E.
  - apply elem_of_cons in Hf as [->|Hf]; [done|].
    destruct (get f) as [v|]; [|by apply (IH a)].
    destruct (scanField f v a) as [b|] eqn:E; [|done]. apply Ht in E as [_ E].
    rewrite <- E by done. by apply (IH b).
Qed.

Definition fieldBits (f : string) : Z := if decide (f = "game_id") then 8 else if decide (f = "seq") then 32 else 64.

Lemma scanField_state f v b :
  f ∈ StateFields → is_Some (parseUint (fieldBits f) v) → is_Some (scanField f v b).
Proof.
  unfold StateFields. rewrite !elem_of_cons, elem_of_nil.
  intros [->|[->|[->|[]]]] [z Hz];
    [change (fieldBits _) with 8 in Hz|change (fieldBits _) with 32 in Hz|change (fieldBits _) with 64 in Hz];
    unfold scanField; repeat (case_decide; [done|]); (case_decide; [|done]); rewrite Hz; by eexists.
Qed.

Lemma Scan_ok fs get a :
  (∀ f v b, f ∈ fs → get f = Some v → is_Some (scanField f v b)) → (Scan fs get a).2 = true.
Proof.
  revert a. induction fs as [|f fs IH]; intros a Hi; [done|]. cbn.
  destruct (get f) as [v|] eqn:E.
  - destruct (Hi f v a) as [b ->]; [by left|done|]. apply IH. intros. eapply Hi; [by right|done].
  - apply IH. intros. eapply Hi; [by right|done].
Qed.

(** ** Login sessions

    One account of any number of account servers. A server loads a snapshot of the
    account (from the cache, from the database with the state fields filled in, or as
    a new account), finalizes a login with it later, and processes logouts; in between
    other commands may change other keys and the other fields of the hash. The hash has
    a time to live, which the loader sets when it caches the account and no login renews:
    when it runs out the whole hash is gone, while servers may still hold snapshots of it
    ([a_stale]). What is counted is counted per life of the hash: [a_logins] lists the
    logins Redis applied in the current one, the newest first, with their sequence number
    and game server; [a_granted] those that were answered with success; [a_out]: the
    newest one has been logged out; [a_past] has the two lists of the earlier lives. *)

Section Sessions.
Context {R : Type} `{RedisLaws R} (id : Z).

Record asys := mkA {
  a_r : R; a_snaps : list Account; a_stale : list Account;
  a_logins : list (Z * Z); a_out : bool; a_granted : list (Z * Z);
  a_past : list (list (Z * Z) * list (Z * Z)) }.

Definition freshAccount (r : R) : Prop :=
  GET (KeyAccount id) r = None ∧ Forall (λ f, HGET (KeyAccount id) f r = None) StateFields.

(** A store with a new account, and nothing logged in. *)
Definition newSystem (r : R) : asys := mkA r [] [] [] false [] [].

Definition curGame (logins : list (Z * Z)) (out : bool) : Z :=
  match logins with [] => 0 | (_, g) :: _ => if out then 0 else g end.

Definition addSnap (acc : Account) (s : asys) : asys :=
  mkA (a_r s) (acc :: a_snaps s) (a_stale s) (a_logins s) (a_out s) (a_granted s) (a_past s).

(** The script ran and its comparison held. *)
Definition saved (o : evalOutcome) (acc : Account) (code : LoginCode) (r : R) : bool :=
  bool_decide (code = LCSuccess ∨
    (code = LCServerErr ∧ o = EvErrRun ∧ current_seq (KeyAccount id) r = Itoa (acc_Seq acc))).

Inductive astep : asys → asys → Prop :=
| a_cache s acc :
    Scan AccFields (λ f, HGET (KeyAccount id) f (a_r s)) zeroAccount = (acc, true) → AccID acc = id →
    astep s (addSnap (UnmarshalBinds acc) s)
| a_db s base :
    AccID base = id → acc_GameID base = 0 → acc_Seq base = 0 → Passwd base = 0 →
    astep s (addSnap (Clone (Scan StateFields (λ f, HGET (KeyAccount id) f (a_r s)) base).1) s)
| a_new s bind :
    a_logins s = [] → astep s (addSnap (mkAcc id false 0 0 0 [bind] EmptyString) s)
| a_final s gameExists selected draws o acc req r' acc' req' code :
    acc ∈ a_snaps s ∨ acc ∈ a_stale s → Forall (λ b, is_bytes b ∧ length b = 8%nat) draws →
    finalizeLoginSession gameExists selected draws o acc req (a_r s) = Some (r', acc', req', code) →
    astep s (if saved o acc code (a_r s)
             then mkA r' (a_snaps s) (a_stale s) ((acc_Seq acc', acc_GameID acc') :: a_logins s) false
                    (if decide (code = LCSuccess) then (lm_Seq req', acc_GameID acc') :: a_granted s else a_granted s)
                    (a_past s)
             else mkA r' (a_snaps s) (a_stale s) (a_logins s) (a_out s) (a_granted s) (a_past s))
| a_logout s o sn :
    astep s (mkA (HandleRoleLogout o id sn (a_r s)) (a_snaps s) (a_stale s) (a_logins s)
               (a_out s || bool_decide (o ≠ EvErrLost ∧ current_seq (KeyAccount id) (a_r s) = Itoa sn))
               (a_granted s) (a_past s))
| a_env s r' :
    GET (KeyAccount id) r' = None →
    (∀ f, f ∈ StateFields → HGET (KeyAccount id) f r' = HGET (KeyAccount id) f (a_r s)) →
    astep s (mkA r' (a_snaps s) (a_stale s) (a_logins s) (a_out s) (a_granted s) (a_past s))
| a_expire s r' :                    (* the time to live of the hash has run out *)
    GET (KeyAccount id) r' = None → (∀ f, HGET (KeyAccount id) f r' = None) →
    astep s (mkA r' [] (a_snaps s ++ a_stale s) [] false [] ((a_logins s, a_granted s) :: a_past s)).

(** Logins are numbered from 1. *)
Fixpoint numbered (l : list (Z * Z)) : Prop :=
  match l with [] => True | (q, g) :: l => q = len l + 1 ∧ is_u8 g ∧ numbered l end.

(** The hash holds the session: sequence number, game server, password. *)
Definition holdsSession (r : R) (logins : list (Z * Z)) (out : bool) : Prop :=
  GET (KeyAccount id) r = None ∧
  HGET (KeyAccount id) "seq" r = match logins with [] => None | (q, _) :: _ => Some (Itoa q) end ∧
  (HGET (KeyAccount id) "game_id" r = Some (Itoa (curGame logins out)) ∨
   HGET (KeyAccount id) "game_id" r = None ∧ logins = []) ∧
  (HGET (KeyAccount id) "passwd" r = None ∨ ∃ p, is_u64 p ∧ HGET (KeyAccount id) "passwd" r = Some (Itoa p)).

(** A snapshot of this account; one of the current life of the hash that is still
    current has the game server of the session. *)
Definition snapTyped (acc : Account) : Prop :=
  AccID acc = id ∧ is_u8 (acc_GameID acc) ∧ is_u64 (Passwd acc).
Definition snapOk (logins : list (Z * Z)) (out : bool) (acc : Account) : Prop :=
  snapTyped acc ∧ 0 ≤ acc_Seq acc ≤ len logins ∧
  (acc_Seq acc = len logins → acc_GameID acc = curGame logins out ∨ curGame logins out = 0).

(** The logins of one life of the hash, and the answers given. *)
Definition lifeOk (p : list (Z * Z) * list (Z * Z)) : Prop := numbered p.1 ∧ sublist p.2 p.1.

Definition ainv (s : asys) : Prop :=
  holdsSession (a_r s) (a_logins s) (a_out s) ∧ Forall (snapOk (a_logins s) (a_out s)) (a_snaps s) ∧
  Forall snapTyped (a_stale s) ∧ Forall lifeOk ((a_logins s, a_granted s) :: a_past s).

(** The counter does not wrap: no life of the hash sees [2 ^ 32 - 1] logins. *)
Definition fewLogins (s : asys) : Prop :=
  Forall (λ p : list (Z * Z) * list (Z * Z), len p.1 < 2 ^ 32 - 1) ((a_logins s, a_granted s) :: a_past s).

Lemma numbered_hd q g l : numbered ((q, g) :: l) → q = len ((q, g) :: l).
Proof. cbn. intros (-> & _). lens. Qed.

Lemma current_seq_len r logins out :
  holdsSession r logins out → numbered logins → current_seq (KeyAccount id) r = Itoa (len logins).
Proof.
  intros (_ & Hs & _) Hn. unfold current_seq. rewrite Hs. destruct logins as [|[q g] l]; [reflexivity|].
  cbn [default]. by rewrite (numbered_hd _ _ _ Hn).
Qed.

Lemma curGame_range logins out : numbered logins → is_u8 (curGame logins out).
Proof. destruct logins as [|[q g] l]; cbn; [by width|]. intros (_ & Hg & _). destruct out; [by width|done]. Qed.

(** Whatever is loaded is the session as it is. *)
Lemma scan_session fs r logins out a a' :
  NoDup fs → (∀ f, f ∈ StateFields → f ∈ fs) → holdsSession r logins out → numbered logins → len logins < 2 ^ 32 →
  acc_GameID a = 0 → acc_Seq a = 0 → Passwd a = 0 → AccID a' = id →
  Scan fs (λ f, HGET (KeyAccount id) f r) a = (a', true) → snapOk logins out a'.
Proof.
  intros Hd Hf Hh Hn Hl Hg Hq Hp Hi Hs. pose proof (curGame_range logins out Hn) as Hcg.
  destruct Hh as (_ & Hseq & Hgame & Hpw).
  pose proof (Scan_proj _ _ _ _ _ _ _ tagged_GameID Hd (Hf "game_id" ltac:(dec)) Hs) as Eg.
  pose proof (Scan_proj _ _ _ _ _ _ _ tagged_Seq Hd (Hf "seq" ltac:(dec)) Hs) as Eq.
  pose proof (Scan_proj _ _ _ _ _ _ _ tagged_Passwd Hd (Hf "passwd" ltac:(dec)) Hs) as Ep.
  cbn beta in *. assert (acc_GameID a' = curGame logins out) as Hga.
  { destruct Hgame as [Hgame|[Hgame ->]]; rewrite Hgame in Eg; [|cbn; congruence].
    rewrite parseUint_Itoa in Eg by (by width). congruence. }
  assert (acc_Seq a' = len logins) as Hsa.
  { rewrite Hseq in Eq. destruct logins as [|[q g] l]; [rewrite len_nil; congruence|].
    rewrite (numbered_hd _ _ _ Hn) in Eq. rewrite parseUint_Itoa in Eq by (split; [lens|done]). congruence. }
  assert (is_u64 (Passwd a')) as Hpa.
  { destruct Hpw as [Hpw|(p & Hp64 & Hpw)]; rewrite Hpw in Ep; [rewrite Ep, Hp; by width|].
    rewrite parseUint_Itoa in Ep by (by width). congruence. }
  unfold snapOk, snapTyped. rewrite Hga, Hsa. splits; [done|done|done|lens|lia|by left].
Qed.

Lemma scan_state_ok r logins out a :
  holdsSession r logins out → numbered logins → len logins < 2 ^ 32 →
  (Scan StateFields (λ f, HGET (KeyAccount id) f r) a).2 = true.
Proof.
  intros (_ & Hseq & Hgame & Hpw) Hn Hl. apply Scan_ok. intros f v b Hf Hv.
  apply scanField_state; [done|]. unfold StateFields in Hf.
  rewrite !elem_of_cons, elem_of_nil in Hf. destruct Hf as [->|[->|[->|[]]]];
    [change (fieldBits _) with 8|change (fieldBits _) with 32|change (fieldBits _) with 64].
  - destruct Hgame as [Hg|[Hg ->]]; rewrite Hg in Hv; [|done]. injection Hv as <-.
    pose proof (curGame_range logins out Hn). rewrite parseUint_Itoa by (by width). by eexists.
  - rewrite Hseq in Hv. destruct logins as [|[q g] l]; [done|]. injection Hv as <-.
    rewrite (numbered_hd _ _ _ Hn). rewrite parseUint_Itoa by (split; [lens|done]). by eexists.
  - destruct Hpw as [Hp|(p & Hp64 & Hp)]; rewrite Hp in Hv; [done|]. injection Hv as <-.
    rewrite parseUint_Itoa by (by width). by eexists.
Qed.

Lemma snap_logout logins out b acc : snapOk logins out acc → snapOk logins (out || b) acc.
Proof.
  intros (? & ? & Hc). unfold snapOk. splits; [done|lia|lia|]. intros E.
  destruct b; [|by rewrite orb_false_r; auto]. right. rewrite orb_true_r. by destruct logins as [|[q g] l].
Qed.

Lemma snap_login logins out q g acc : snapOk logins out acc → snapOk ((q, g) :: logins) false acc.
Proof.
  intros (? & ? & Hc). unfold snapOk. splits; [done|lia|lens|]. intros E. exfalso. lens.
Qed.

Lemma generatePasswd_u64 draws p :
  Forall (λ b, is_bytes b ∧ length b = 8%nat) draws → generatePasswd draws = Some p → is_u64 p ∧ p ≠ 0.
Proof.
  induction 1 as [|b draws [Hb Hl] _ IH]; cbn; [done|]. case_decide; [done|]. intros [= <-].
  pose proof (le_combine_range b Hb) as Hr. unfold len in Hr. rewrite Hl in Hr. split; [by width|done].
Qed.

(** The hash after the two scripts. *)
Lemma hset_login r logins out g p :
  holdsSession r logins out → is_u64 p →
  holdsSession (HSET (KeyAccount id) [("game_id", Itoa g); ("seq", Itoa (len logins + 1)); ("passwd", Itoa p)] r)
    ((len logins + 1, g) :: logins) false.
Proof.
  intros (Hk & _) Hp. assert (NoDup ["game_id"; "seq"; "passwd"]) as Hn by dec.
  unfold holdsSession. splits.
  - by apply get_hset.
  - apply hget_hset; [done|done|]. right. left.
  - left. apply hget_hset; [done|done|]. left.
  - right. exists p. split; [done|]. apply hget_hset; [done|done|]. right. right. left.
Qed.

Lemma hset_logout r logins out :
  holdsSession r logins out → holdsSession (HSET (KeyAccount id) [("game_id", "0")] r) logins true.
Proof.
  intros (Hk & Hs & Hg & Hp). unfold holdsSession. splits.
  - by apply get_hset.
  - rewrite hget_hset_field; [done|done|dec].
  - left. replace (curGame logins true) with 0 by by destruct logins as [|[q g] l].
    apply hget_hset; [done|dec|left].
  - rewrite hget_hset_field; [done|done|dec].
Qed.

Lemma Itoa_eq x y : Itoa x = Itoa y ↔ x = y.
Proof. split; [apply Itoa_inj|congruence]. Qed.

Lemma alloc_cases ge sel last g c :
  is_u8 last → allocateGameServer ge sel last 0 = (g, c) → is_u8 g ∧ (c = LCSuccess ∨ c = LCNoGame).
Proof.
  intros Hl. unfold allocateGameServer, selectGameServer.
  destruct sel; repeat case_match; intros [= <- <-]; (split; [|auto]); done || (by apply u8_range) || by width.
Qed.

(** A finalization: either nothing changes in Redis, or a login is applied with the
    snapshot's sequence number still current. *)
Lemma finalize_cases ge sel draws o acc req r r' acc' req' code logins out :
  Forall (λ b, is_bytes b ∧ length b = 8%nat) draws →
  holdsSession r logins out → numbered logins → len logins < 2 ^ 32 - 1 → snapTyped acc →
  finalizeLoginSession ge sel draws o acc req r = Some (r', acc', req', code) →
  (saved o acc code r = false ∧ r' = r) ∨
  (saved o acc code r = true ∧ acc_Seq acc = len logins ∧ acc_Seq acc' = len logins + 1 ∧
   is_u8 (acc_GameID acc') ∧ (code = LCSuccess → lm_Seq req' = len logins + 1) ∧
   allocateGameServer ge sel (acc_GameID acc) 0 = (acc_GameID acc', LCSuccess) ∧
   holdsSession r' ((len logins + 1, acc_GameID acc') :: logins) false).
Proof.
  intros Hdr Hh Hn Hl (Hid & Hg & Hp) Hf. pose proof (current_seq_len _ _ _ Hh Hn) as Hcs.
  unfold finalizeLoginSession in Hf. destruct (lm_Reconnect req && _ && _); [injection Hf as <- <- <- <-; by left|].
  destruct (allocateGameServer _ _ _ _) as [g c] eqn:Ea. destruct (alloc_cases _ _ _ _ _ Hg Ea) as [Hgr Hcc].
  case_decide as Hcd. { injection Hf as <- <- <- <-. left. destruct Hcc as [->| ->]; done. }
  assert (c = LCSuccess) as -> by (by destruct (decide (c = LCSuccess))). clear Hcd Hcc.
  destruct (if decide (Passwd acc = 0) then _ else _) as [pwd|] eqn:Epw; [|done].
  assert (is_u64 pwd) as Hpw by (case_decide; [by apply generatePasswd_u64 in Epw as []|congruence]).
  unfold SaveLoginData, saveLoginLua in Hf. cbn [AccID acc_GameID acc_Seq Passwd] in Hf. rewrite Hid in Hf.
  assert (Hlog : Itoa (acc_Seq acc) = Itoa (len logins) →
    acc_Seq acc = len logins ∧ u32 (acc_Seq acc + 1) = len logins + 1 ∧
    holdsSession (HSET (KeyAccount id) [("game_id", Itoa g); ("seq", Itoa (u32 (acc_Seq acc + 1))); ("passwd", Itoa pwd)] r)
      ((len logins + 1, g) :: logins) false).
  { intros E%Itoa_inj. assert (u32 (acc_Seq acc + 1) = len logins + 1) as Hu.
    { rewrite E. unfold u32. pose proof (len_nonneg logins). rewrite Z.mod_small; lia. }
    splits; [done|done|]. rewrite Hu. by eapply hset_login. }
  destruct o; cbn [Eval] in Hf.
  - case_decide as Hd; cbn in Hf; injection Hf as <- <- <- <-; [|by left].
    rewrite Hcs in Hd. destruct Hlog as (? & ? & ?); [done|]. right. cbn. splits; done.
  - cbn in Hf. injection Hf as <- <- <- <-.
    destruct (decide (current_seq (KeyAccount id) r = Itoa (acc_Seq acc))) as [Hd|Hd]; cbn [fst].
    + pose proof Hd as Hd'. rewrite Hcs in Hd. destruct Hlog as (? & ? & ?); [done|]. right. cbn. splits; try done.
      apply bool_decide_eq_true_2. by right.
    + left. split; [|done]. apply bool_decide_eq_false_2. intros [|(_ & _ & ?)]; done.
  - cbn in Hf. injection Hf as <- <- <- <-. left. split; [|done].
    apply bool_decide_eq_false_2. intros [|(_ & ? & _)]; done.
Qed.

Lemma StateFields_sub f : f ∈ StateFields → f ∈ AccFields.
Proof. unfold StateFields, AccFields. rewrite !elem_of_cons. tauto. Qed.

Lemma snapOk_typed logins out snaps : Forall (snapOk logins out) snaps → Forall snapTyped snaps.
Proof. intros Hs. eapply Forall_impl; [exact Hs|]. by intros a []. Qed.

Lemma ainv_final s ge sel draws o acc req r' acc' req' code :
  ainv s → len (a_logins s) < 2 ^ 32 - 1 →
  acc ∈ a_snaps s ∨ acc ∈ a_stale s → Forall (λ b, is_bytes b ∧ length b = 8%nat) draws →
  finalizeLoginSession ge sel draws o acc req (a_r s) = Some (r', acc', req', code) →
  ainv (if saved o acc code (a_r s)
        then mkA r' (a_snaps s) (a_stale s) ((acc_Seq acc', acc_GameID acc') :: a_logins s) false
               (if decide (code = LCSuccess) then (lm_Seq req', acc_GameID acc') :: a_granted s else a_granted s)
               (a_past s)
        else mkA r' (a_snaps s) (a_stale s) (a_logins s) (a_out s) (a_granted s) (a_past s)).
Proof.
  intros (Hh & Hs & Hst & [[Hn Hg] Hp]%Forall_cons) Hl Hin Hdr Hf. cbn [fst snd] in *.
  assert (snapTyped acc) as Hty.
  { destruct Hin as [Hin|Hin]; [by apply (proj1 (Forall_forall _ _) (snapOk_typed _ _ _ Hs))|by apply (proj1 (Forall_forall _ _) Hst)]. }
  destruct (finalize_cases _ _ _ _ _ _ _ _ _ _ _ _ _ Hdr Hh Hn Hl Hty Hf)
    as [[-> ->]|(-> & Hq & Hq' & Hga & Hreq & _ & Hh')].
  - unfold ainv. splits; [done..|]. constructor; [done|done].
  - rewrite Hq' in *. unfold ainv; splits; [done| |done|constructor; [split|done]].
    + eapply Forall_impl; [exact Hs|]. intros a Ha. by eapply snap_login.
    + cbn. by splits.
    + cbn. case_decide as Hc; [rewrite (Hreq Hc); by apply sublist_skip|by apply sublist_cons].
Qed.

Lemma ainv_preserved : preserved astep (λ s, fewLogins s → ainv s).
Proof.
  intros s s' Hst IH Hfew. destruct Hst.
  - destruct IH as (Hh & Hs & Hst & Hp); [done|]. unfold ainv; splits; try done. constructor; [|done].
    apply Forall_cons in Hfew as [Hl _]. destruct (proj1 (Forall_cons _ _ _) Hp) as [[Hn _] _]. cbn in Hl, Hn.
    assert (Hok : snapOk (a_logins s) (a_out s) acc).
    { apply (scan_session AccFields (a_r s) _ _ zeroAccount); [dec|apply StateFields_sub|done|done|lia|done..]. }
    unfold UnmarshalBinds. by case_decide.
  - destruct IH as (Hh & Hs & Hst & Hp); [done|]. unfold ainv; splits; try done. constructor; [|done]. unfold Clone.
    apply Forall_cons in Hfew as [Hl _]. destruct (proj1 (Forall_cons _ _ _) Hp) as [[Hn _] _]. cbn in Hl, Hn.
    pose proof (scan_state_ok _ _ _ base Hh Hn ltac:(lia)) as Hok.
    destruct (Scan StateFields _ base) as [acc b] eqn:E. cbn in Hok. subst b. cbn [fst].
    cbn [a_logins a_out addSnap]. apply (scan_session StateFields (a_r s) _ _ base); [dec|done|done|done|lia|done..| |done].
    by rewrite (Scan_skip _ _ _ StateFields _ _ _ tagged_AccID ltac:(dec) E).
  - destruct IH as (Hh & Hs & Hst & Hp); [done|]. unfold ainv; splits; try done. constructor; [|done].
    unfold snapOk, snapTyped. cbn. rewrite H1. cbn. splits; try done; try (by width); by auto.
  - assert (Hl' : fewLogins s).
    { apply Forall_cons in Hfew as [Hl Hp]. destruct (saved _ _ _ _); cbn in Hl, Hp;
        (constructor; [cbn; lens|done]). }
    eapply ainv_final; [by apply IH|by apply Forall_cons in Hl' as [? _]|done|eassumption|eassumption].
  - destruct IH as (Hh & Hs & Hst & Hp); [done|]. unfold ainv; splits; try done.
    + unfold HandleRoleLogout, ClearGameID, clearGameLua. cbn.
      destruct o; cbn; repeat case_decide; cbn; try (rewrite bool_decide_false by tauto);
        try (rewrite bool_decide_true by done); rewrite ?orb_false_r, ?orb_true_r; try done; by eapply hset_logout.
    + eapply Forall_impl; [exact Hs|]. intros a Ha. by apply snap_logout.
  - destruct IH as (Hh & Hs & Hst & Hp); [done|]. unfold ainv; splits; try done. unfold holdsSession in *. cbn.
    rewrite !H2 by dec. by destruct Hh as (_ & ?).
  - destruct IH as (Hh & Hs & Hst & Hp); [by apply Forall_cons in Hfew as [_ ?]|].
    unfold ainv, holdsSession. cbn. rewrite !H2. splits; auto; [|by constructor].
    apply Forall_app. split; [by eapply snapOk_typed|done].
Qed.

Lemma reachable_ainv r0 s : freshAccount r0 → rtc astep (newSystem r0) s → fewLogins s → ainv s.
Proof.
  intros [Hg Hf] Hr. apply (rtc_preserved _ _ _ _ ainv_preserved Hr). intros _.
  unfold StateFields in Hf. rewrite !Forall_cons in Hf. destruct Hf as (Hgm & Hsq & Hpw & _).
  unfold ainv, holdsSession. cbn. splits; auto. by repeat constructor.
Qed.

Lemma numbered_seqs l : numbered l → NoDup l.*1 ∧ Forall (λ x, 0 < x.1 ≤ len l) l.
Proof.
  induction l as [|[q g] l IH]; [by repeat constructor|]. intros (-> & Hg & Hn).
  destruct (IH Hn) as [Hd Hf]. split.
  - cbn. constructor; [|done]. intros (x & Hx & Hin)%list_elem_of_fmap.
    apply (proj1 (Forall_forall _ _) Hf) in Hin. lia.
  - constructor; [cbn; lens|]. eapply Forall_impl; [exact Hf|]. intros x Hx. cbn in *. lens.
Qed.

(** C2. Logins are serialised within a life of the account's hash: however many account
    servers load and finalize logins of an account concurrently, with calls that time
    out before or after Redis ran them and with snapshots of any age, the hash holds
    exactly the last login applied since it was last empty (its sequence number, and its
    game server until that login is logged out); in each life of the hash the applied
    logins are numbered 1, 2, 3, ..., and no two successful answers carry the same
    sequence number. The hash begins a new life, and the numbers begin again at 1, when
    its seven days run out ([Expire] in the loader, which logins do not renew); fewer
    than 2^32 - 1 logins are applied in a life. *)
Theorem logins_serialised r0 s :
  freshAccount r0 → rtc astep (newSystem r0) s → fewLogins s →
  holdsSession (a_r s) (a_logins s) (a_out s) ∧
  ∀ logins granted, (logins, granted) ∈ (a_logins s, a_granted s) :: a_past s →
    numbered logins ∧ sublist granted logins ∧ NoDup granted.*1.
Proof.
  intros Hf Hr Hl. destruct (reachable_ainv _ _ Hf Hr Hl) as (Hh & _ & _ & Hp). split; [done|].
  intros logins granted Hin. apply (proj1 (Forall_forall _ _) Hp) in Hin as [Hn Hg]. cbn in Hn, Hg. splits; try done.
  destruct (numbered_seqs _ Hn) as [Hd _]. eapply sublist_NoDup; [exact Hd|]. by apply fmap_sublist.
Qed.

(** A player who is still on a game server is sent back to it: while the newest
    login of the account went to a game server that exists and has not been logged
    out, every later login that succeeds with a snapshot of the same life of the hash,
    whenever it was taken, goes to that same server. *)
Theorem relogin_same_game r0 s q g rest ge sel draws o acc req r' acc' req' :
  freshAccount r0 → rtc astep (newSystem r0) s → fewLogins s →
  a_logins s = (q, g) :: rest → a_out s = false → g ≠ 0 → ge g = true →
  acc ∈ a_snaps s → Forall (λ b, is_bytes b ∧ length b = 8%nat) draws →
  finalizeLoginSession ge sel draws o acc req (a_r s) = Some (r', acc', req', LCSuccess) →
  acc_GameID acc' = g ∧ lm_Seq req' = q + 1.
Proof.
  intros Hf Hr Hl Hlog Hout Hg0 Hge Hin Hdr Hfin.
  destruct (reachable_ainv _ _ Hf Hr Hl) as (Hh & Hs & _ & Hp). apply Forall_cons in Hp as [[Hn _] _]. cbn in Hn.
  apply Forall_cons in Hl as [Hl _]. pose proof (proj1 (Forall_forall _ _) Hs _ Hin) as (Hty & Hlen & Hc).
  destruct (finalize_cases _ _ _ _ _ _ _ _ _ _ _ _ _ Hdr Hh Hn Hl Hty Hfin)
    as [[Hsv _]|(_ & Hq & _ & _ & Hreq & Ha & _)]; [by unfold saved in Hsv; rewrite bool_decide_eq_false in Hsv; tauto|].
  specialize (Hc Hq). rewrite Hlog, Hout in Hc. cbn in Hc.
  assert (acc_GameID acc = g) as Eg by (destruct Hc; [done|lia]).
  rewrite Eg in Ha. unfold allocateGameServer in Ha. rewrite decide_True, Hge in Ha by done.
  split; [congruence|]. rewrite Hreq by done. rewrite Hlog in Hn |- *. by rewrite <- (numbered_hd _ _ _ Hn).
Qed.

(** Only the logout of the newest login of the hash's life counts: a logout that
    carries another sequence number (it arrives late, the player is back already)
    changes nothing, and that of the newest one clears the game server and keeps the
    sequence number. *)
Theorem stale_logout_ignored r0 s o sn :
  freshAccount r0 → rtc astep (newSystem r0) s → fewLogins s →
  (sn ≠ len (a_logins s) → HandleRoleLogout o id sn (a_r s) = a_r s) ∧
  (sn = len (a_logins s) → o ≠ EvErrLost →
     HGET (KeyAccount id) "game_id" (HandleRoleLogout o id sn (a_r s)) = Some (Itoa 0) ∧
     current_seq (KeyAccount id) (HandleRoleLogout o id sn (a_r s)) = Itoa sn).
Proof.
  intros Hf Hr Hl. destruct (reachable_ainv _ _ Hf Hr Hl) as (Hh & _ & _ & [[Hn _] _]%Forall_cons). cbn in Hn.
  pose proof (current_seq_len _ _ _ Hh Hn) as Hcs.
  unfold HandleRoleLogout, ClearGameID, clearGameLua. cbn [AccID]. split.
  - intros Hne. assert (current_seq (KeyAccount id) (a_r s) ≠ Itoa sn) as Hd.
    { rewrite Hcs. by intros <-%Itoa_inj. }
    by destruct o; cbn [Eval]; rewrite ?decide_False.
  - intros -> Ho. pose proof (hset_logout _ _ _ Hh) as Hh'.
    assert (E : ∀ A (x y : A), (if decide (current_seq (KeyAccount id) (a_r s) = Itoa (len (a_logins s))) then x else y) = x).
    { intros. by rewrite decide_True. }
    destruct o; [..|done]; cbn [Eval]; rewrite E; cbn [fst]; (split; [apply hget_hset; [by destruct Hh|dec|left]|]);
      by apply (current_seq_len _ _ _ Hh').
Qed.

End Sessions.

(** A login of a new account, granted on game server 3, and the next snapshot. *)
Definition demoReq : loginMsg := mkLM 0 "bob" false 70 0 0 0 (FormatBindKey 0 "bob") [].
Definition demoDraws : list bytes := [[1; 0; 0; 0; 0; 0; 0; 0]].
Definition demoNew : Account := mkAcc 7 false 0 0 0 ["0@bob"] EmptyString.
Definition demoBack : Account := mkAcc 7 false 3 1 1 ["0@bob"] EmptyString.
Definition demoStore : rdb :=
  mkRdb {[ "acc:{7}" := list_to_map [("game_id", "3"); ("seq", "1"); ("passwd", "1")] ]} ∅.

Lemma demo_fresh : freshAccount 7 (mkRdb ∅ ∅).
Proof. split; [reflexivity|]. repeat constructor. Qed.

Lemma demo_sessions :
  rtc (astep 7) (newSystem (mkRdb ∅ ∅)) (mkA demoStore [demoBack; demoNew] [] [(1, 3)] false [(1, 3)] []).
Proof.
  eapply rtc_l; [apply (a_new _ _ "0@bob"); reflexivity|].
  eapply rtc_l.
  { eapply (a_final 7 _ (λ _, false) (Some 3) demoDraws EvOk demoNew demoReq).
    - left. left.
    - repeat constructor; dec.
    - vm_compute. reflexivity. }
  eapply rtc_l; [apply (a_db _ _ (mkAcc 7 false 0 0 0 ["0@bob"] EmptyString)); reflexivity|].
  match goal with |- rtc _ ?x ?y => assert (x = y) as -> by (vm_compute; reflexivity) end. apply rtc_refl.
Qed.

Lemma demo_few r snaps stale logins out granted past :
  (len logins < 5) → Forall (λ p : list (Z * Z) * list (Z * Z), len p.1 < 5) past →
  fewLogins (@mkA rdb r snaps stale logins out granted past).
Proof. intros Hl Hp. constructor; [cbn; lia|]. eapply Forall_impl; [exact Hp|]. intros p Hx. cbn in *. lia. Qed.

(** The hash expires while the player is on server 3: the snapshot the account server
    loads next has no session, and the login it grants is number 1 again, on server 9. *)
Lemma demo_expired :
  ∃ r stale snap, rtc (astep 7) (newSystem (mkRdb ∅ ∅))
    (mkA r [snap] stale [(1, 9)] false [(1, 9)] [([(1, 3)], [(1, 3)])]).
Proof.
  eexists _, _, _. etrans; [apply demo_sessions|].
  eapply rtc_l; [apply (a_expire 7 _ (mkRdb ∅ ∅)); [reflexivity|intros; reflexivity]|].
  eapply rtc_l; [apply (a_db _ _ (mkAcc 7 false 0 0 0 ["0@bob"] EmptyString)); reflexivity|].
  eapply rtc_l.
  { eapply (a_final 7 _ (λ _, true) (Some 9) demoDraws EvOk demoNew demoReq).
    - left. left.
    - repeat constructor; dec.
    - vm_compute. reflexivity. }
  match goal with |- rtc _ (if ?b then _ else _) _ => replace b with true by (vm_compute; reflexivity) end.
  cbn [a_snaps a_stale a_logins a_granted a_past addSnap a_r].
  match goal with |- context [decide ?P] => rewrite (decide_True (P := P)) by reflexivity end. apply rtc_refl.
Qed.

Lemma logins_serialised_witness :
  (numbered [(1, 3)] ∧ current_seq (KeyAccount 7) demoStore = "1" ∧ NoDup ([(1, 3)] : list (Z * Z)).*1) ∧
  ∃ r stale snap, rtc (astep 7) (newSystem (mkRdb ∅ ∅))
    (mkA r [snap] stale [(1, 9)] false [(1, 9)] [([(1, 3)], [(1, 3)])]) ∧
    NoDup ([(1, 9)] : list (Z * Z)).*1 ∧ NoDup ([(1, 3)] : list (Z * Z)).*1.
Proof.
  split.
  - destruct (logins_serialised 7 (mkRdb ∅ ∅) _ demo_fresh demo_sessions ltac:(by apply demo_few)) as [_ H].
    destruct (H [(1, 3)] [(1, 3)]) as (Hn & _ & Hd); [left|]. split; [exact Hn|]. split; [reflexivity|exact Hd].
  - destruct demo_expired as (r & stale & snap & Hr). exists r, stale, snap. split; [exact Hr|].
    destruct (logins_serialised 7 (mkRdb ∅ ∅) _ demo_fresh Hr) as [_ H].
    { apply demo_few; [reflexivity|]. repeat constructor. }
    split; [apply (H [(1, 9)]); left|apply (H [(1, 3)]); right; left].
Defined.

Lemma relogin_same_game_witness :
  ∃ r' acc' req', finalizeLoginSession (λ _, true) (Some 9) [] EvOk demoBack demoReq demoStore
    = Some (r', acc', req', LCSuccess) ∧ acc_GameID acc' = 3 ∧ lm_Seq req' = 2.
Proof.
  eexists _, _, _. split; [vm_compute; reflexivity|].
  eapply (relogin_same_game 7 (mkRdb ∅ ∅) _ 1 3 [] (λ _, true) (Some 9) [] EvOk demoBack demoReq);
    [exact demo_fresh|exact demo_sessions|by apply demo_few|reflexivity..|discriminate|reflexivity|left|constructor|vm_compute; reflexivity].
Defined.

Lemma stale_logout_ignored_witness :
  HandleRoleLogout EvOk 7 0 demoStore = demoStore ∧
  HGET (KeyAccount 7) "game_id" (HandleRoleLogout EvOk 7 1 demoStore) = Some "0".
Proof.
  split.
  - apply (stale_logout_ignored 7 (mkRdb ∅ ∅) _ EvOk 0 demo_fresh demo_sessions); [by apply demo_few|discriminate].
  - apply (stale_logout_ignored 7 (mkRdb ∅ ∅) _ EvOk 1 demo_fresh demo_sessions); [by apply demo_few|reflexivity|discriminate].
Defined.

(** ** Account ids

    Servers start ([InitDistributedAccID]) and create accounts at any time. The history,
    newest first, has the ids generated ([true]) and the largest ids found in the
    database at the starts ([false]). Numbers stay below [2 ^ 53]. *)

Section Ids.
Context {R : Type} `{RedisLaws R}.

Definition maxID (maxDoc : option Account) : Z := match maxDoc with Some a => AccID a | None => IDAccBegin end.

Inductive idstep : R * list (bool * Z) → R * list (bool * Z) → Prop :=
| id_init r h maxDoc o :
    (∀ d, maxDoc = Ok d → 0 ≤ maxID d < 2 ^ 53) →
    idstep (r, h) ((InitDistributedAccID maxDoc o r).1,
                   match maxDoc, (InitDistributedAccID maxDoc o r).2 with
                   | Ok d, None => (false, maxID d) :: h
                   | _, _ => h end)
| id_next r h o :
    (∀ n, GET RedisKeyIDs r = Some (Itoa n) → n + 1 < 2 ^ 53) →
    idstep (r, h) ((GenerateNextAccID o r).1,
                   match (GenerateNextAccID o r).2 with Ok id => (true, id) :: h | Err _ => h end)
| id_env r h r' : GET RedisKeyIDs r' = GET RedisKeyIDs r → idstep (r, h) (r', h).

(** Every generated id is above everything older. *)
Fixpoint freshIds (h : list (bool * Z)) : Prop :=
  match h with
  | [] => True
  | (true, id) :: h => Forall (λ x, x.2 < id) h ∧ freshIds h
  | (false, _) :: h => freshIds h
  end.

Definition idinv (n0 : Z) (s : R * list (bool * Z)) : Prop :=
  ∃ n, GET RedisKeyIDs s.1 = Some (Itoa n) ∧ n0 ≤ n < 2 ^ 53 ∧
       Forall (λ x, x.2 ≤ n) s.2 ∧ Forall (λ x, x.1 = true → n0 < x.2) s.2 ∧ freshIds s.2.

Lemma initIdLua_spec r n m :
  GET RedisKeyIDs r = Some (Itoa n) → 0 ≤ n < 2 ^ 53 →
  GET RedisKeyIDs (initIdLua m r).1 = Some (Itoa (Z.max n m)) ∧ (initIdLua m r).2 = Some (Z.max n m).
Proof.
  intros Hg Hn. unfold initIdLua. rewrite Hg. change (default "0" (Some (Itoa n))) with (Itoa n).
  rewrite parseUint_Itoa by done. case_decide; cbn.
  - rewrite get_set. by rewrite Z.max_r by lia.
  - by rewrite Hg, Z.max_l by lia.
Qed.

Lemma idinv_init n0 r h maxDoc o :
  0 ≤ n0 → (∀ d, maxDoc = Ok d → 0 ≤ maxID d < 2 ^ 53) → idinv n0 (r, h) →
  idinv n0 ((InitDistributedAccID maxDoc o r).1,
            match maxDoc, (InitDistributedAccID maxDoc o r).2 with
            | Ok d, None => (false, maxID d) :: h | _, _ => h end).
Proof.
  intros Hn0 Hm (n & Hg & Hn & Hle & Hgt & Hf). cbn [fst snd] in *.
  destruct maxDoc as [d|]; [|by exists n]. specialize (Hm d eq_refl). cbn [InitDistributedAccID]. fold (maxID d).
  destruct (initIdLua_spec r n (maxID d) Hg ltac:(lia)) as [Eg Er].
  destruct (initIdLua (maxID d) r) as [r' x] eqn:El. cbn in Eg, Er. subst x.
  assert (Hmax : idinv n0 (r', h)).
  { exists (Z.max n (maxID d)). splits; cbn; try done; [lia|lia|]. eapply Forall_impl; [exact Hle|]. cbn. lia. }
  destruct o; unfold Eval; rewrite ?El; cbn; [|done|by exists n].
  exists (Z.max n (maxID d)). splits; cbn; try done; [lia|lia| |].
  - constructor; [cbn; lia|]. eapply Forall_impl; [exact Hle|]. cbn. lia.
  - by constructor.
Qed.

Lemma idinv_next n0 r h o :
  0 ≤ n0 → (∀ n, GET RedisKeyIDs r = Some (Itoa n) → n + 1 < 2 ^ 53) → idinv n0 (r, h) →
  idinv n0 ((GenerateNextAccID o r).1,
            match (GenerateNextAccID o r).2 with Ok id => (true, id) :: h | Err _ => h end).
Proof.
  intros Hn0 Hb (n & Hg & Hn & Hle & Hgt & Hf). cbn [fst snd] in *. specialize (Hb n Hg).
  unfold GenerateNextAccID. pose proof (incr_get r RedisKeyIDs n Hg ltac:(lia)) as Ei.
  assert (Hnext : idinv n0 (SET RedisKeyIDs (Itoa (n + 1)) r, h)).
  { exists (n + 1). cbn. rewrite get_set. splits; try done; [lia|]. eapply Forall_impl; [exact Hle|]. cbn. lia. }
  destruct o; unfold Eval; rewrite ?Ei; cbn; [|done|by exists n].
  assert (u64 (n + 1) = n + 1) as -> by (unfold u64; apply Z.mod_small; lia).
  exists (n + 1). cbn. rewrite get_set. splits; try done; try lia.
  - constructor; [cbn; lia|]. eapply Forall_impl; [exact Hle|]. cbn. lia.
  - constructor; [cbn; lia|done].
  - eapply Forall_impl; [exact Hle|]. cbn. lia.
Qed.

Lemma idinv_preserved n0 : 0 ≤ n0 → preserved idstep (idinv n0).
Proof.
  intros Hn0 s s' Hst. destruct Hst as [r h maxDoc o Hm|r h o Hb|r h r' Hg].
  - by apply idinv_init.
  - by apply idinv_next.
  - intros (n & ? & ?). exists n. cbn in *. by rewrite Hg.
Qed.

(** Account ids are unique across servers: once the counter is initialised to
    [n0], in any interleaving of server starts and account creations, with calls that
    fail before or after Redis ran them, every id generated is larger than [n0], than
    every id generated before and than every id the database held at an earlier start. *)
Theorem account_ids_unique n0 r0 r h :
  0 ≤ n0 < 2 ^ 53 → GET RedisKeyIDs r0 = Some (Itoa n0) → rtc idstep (r0, []) (r, h) →
  freshIds h ∧ NoDup (filter (λ x, x.1 = true) h) ∧ Forall (λ x, x.1 = true → n0 < x.2) h.
Proof.
  intros Hn Hg Hr. assert (idinv n0 (r, h)) as (n & _ & _ & _ & Hgt & Hf).
  { apply (rtc_preserved _ _ _ _ (idinv_preserved n0 ltac:(lia)) Hr). exists n0. cbn. splits; try done; lia || constructor. }
  splits; [done| |done]. clear Hgt Hr. cbn in Hf. induction h as [|[[] i] h IH]; [constructor|..].
  - destruct Hf as [Hlt Hf]. rewrite filter_cons_True by done. constructor; [|by apply IH].
    intros [_ Hin]%list_elem_of_filter. apply (proj1 (Forall_forall _ _) Hlt) in Hin. cbn in Hin. lia.
  - rewrite filter_cons_False by done. by apply IH.
Qed.

End Ids.

Lemma account_ids_unique_witness :
  ∃ r, rtc idstep (mkRdb ∅ {[ RedisKeyIDs := "100000" ]}, []) (r, [(true, 100002); (true, 100001)]) ∧
       NoDup (filter (λ x, x.1 = true) [(true, 100002); (true, 100001)]).
Proof.
  assert (∃ r, rtc idstep (mkRdb ∅ {[ RedisKeyIDs := "100000" ]}, []) (r, [(true, 100002); (true, 100001)])) as [r Hr].
  { eexists. eapply rtc_l; [apply (id_next _ _ EvOk)|].
    { intros n [= Hn]. apply (Itoa_inj 100000) in Hn. lia. }
    eapply rtc_l; [apply (id_next _ _ EvOk)|].
    { intros n Hn. cbn in Hn. injection Hn as Hn. apply (Itoa_inj 100001) in Hn. lia. }
    match goal with |- rtc _ (?a, ?x) (_, ?y) => assert (x = y) as -> by (vm_compute; reflexivity) end. apply rtc_refl. }
  exists r. split; [exact Hr|].
  eapply (account_ids_unique 100000 (mkRdb ∅ {[ RedisKeyIDs := "100000" ]}) r); [lia|reflexivity|exact Hr].
Defined.

(** ** The bindings of an account in the cache *)

Fixpoint count (c : Ascii.ascii) (s : string) : nat :=
  match s with EmptyString => 0 | String a s => (if decide (a = c) then 1 else 0) + count c s end.

Lemma count_app c s t : count c (s +:+ t) = (count c s + count c t)%nat.
Proof.
  induction s as [|a s IH]; [done|]. change (String a s +:+ t) with (String a (s +:+ t)). cbn [count].
  rewrite IH. lia.
Qed.

Lemma length_Split c s : length (Split c s) = S (count c s).
Proof.
  induction s as [|a s IH]; cbn; [done|]. case_decide; cbn; [by rewrite IH|].
  destruct (Split c s) as [|x xs]; cbn in *; lia.
Qed.

Lemma Split_app c s t :
  count c s = 0%nat → Split c (s +:+ String c t) = s :: Split c t.
Proof.
  induction s as [|a s IH]; cbn [count]; intros E.
  - change (EmptyString +:+ ?x) with x. cbn [Split]. by rewrite decide_True.
  - change (String a s +:+ ?x) with (String a (s +:+ x)). cbn [Split].
    case_decide; [done|]. by rewrite IH.
Qed.

Lemma Split_whole c s : count c s = 0%nat → Split c s = [s].
Proof. induction s as [|a s IH]; cbn; [done|]. case_decide; [done|]. cbn. intros E. by rewrite IH. Qed.

Lemma Split_Join c l : l ≠ [] → Forall (λ s, count c s = 0%nat) l → Split c (Join c l) = l.
Proof.
  induction l as [|x l IH]; [done|]. intros _ [Hx Hl]%Forall_cons. destruct l as [|y l]; [by apply Split_whole|].
  change (Join c (x :: y :: l)) with (x +:+ String c (Join c (y :: l))). rewrite Split_app by done.
  by rewrite IH.
Qed.

Lemma count_Join c l : l ≠ [] → S (count c (Join c l)) = (length l + sum_list (count c <$> l))%nat.
Proof.
  induction l as [|x l IH]; [done|]. intros _. destruct l as [|y l]; [cbn; lia|].
  change (Join c (x :: y :: l)) with (x +:+ String c (Join c (y :: l))). rewrite count_app. cbn [count].
  rewrite decide_True by done. specialize (IH ltac:(done)). cbn [fmap list_fmap length sum_list sum_list_with] in *.
  unfold sum_list in *. cbn in *. lia.
Qed.

Lemma Split_Join_iff c l : l ≠ [] → Split c (Join c l) = l ↔ Forall (λ s, count c s = 0%nat) l.
Proof.
  intros Hl. split; [|by apply Split_Join]. intros E. apply (f_equal length) in E.
  rewrite length_Split, count_Join in E by done. assert (sum_list (count c <$> l) = 0%nat) as Hz by lia.
  clear E Hl. induction l as [|x l IH]; [constructor|]. cbn in Hz. constructor; [lia|apply IH; lia].
Qed.

Lemma Join_bindKeys l : l ≠ [] → Join comma ((λ x : Z * string, FormatBindKey x.1 x.2) <$> l) ≠ EmptyString.
Proof.
  destruct l as [|[t a] l]; [done|]. intros _. cbn [fmap list_fmap].
  assert (Hne : ∀ s, FormatBindKey t a +:+ s ≠ EmptyString).
  { intros s. unfold FormatBindKey. destruct (Itoa t); cbn; done. }
  destruct ((λ x : Z * string, FormatBindKey x.1 x.2) <$> l); cbn; [|apply Hne].
  intros E. apply (Hne EmptyString). cbn. by rewrite E.
Qed.

(** The account as the next server reads it from the cache. *)
Definition cachedBinds (acc : Account) : list string :=
  Binds (UnmarshalBinds (mkAcc (AccID acc) (Freeze acc) (acc_GameID acc) (acc_Seq acc) (Passwd acc) [] (MarshalBinds acc).2)).

(** The cache keeps an account's bindings exactly when no bound account name holds
    a comma: the bindings, joined with commas for the Redis hash, read back as they
    were if and only if that is so. *)
Theorem binds_cache_roundtrip acc l :
  Binds acc = (λ x : Z * string, FormatBindKey x.1 x.2) <$> l → l ≠ [] →
  (cachedBinds acc = Binds acc ↔ Forall (λ b, count comma b = 0%nat) (Binds acc)).
Proof.
  intros Hb Hl. pose proof (Join_bindKeys l Hl) as Hj. unfold cachedBinds, MarshalBinds.
  assert (Binds acc ≠ []) as Hne by (rewrite Hb; by destruct l).
  rewrite <- Hb in Hj. destruct (Binds acc) as [|b bs] eqn:E; [done|]. cbn [BindsJSON snd].
  unfold UnmarshalBinds. cbn [BindsJSON]. rewrite decide_False by done. cbn [Binds].
  by apply Split_Join_iff.
Qed.

Lemma binds_cache_roundtrip_witness :
  cachedBinds (mkAcc 7 false 0 0 0 ["0@bob"; "3@eve"] EmptyString) = ["0@bob"; "3@eve"] ∧
  cachedBinds (mkAcc 7 false 0 0 0 ["0@bob,3@eve"] EmptyString) ≠ ["0@bob,3@eve"].
Proof.
  split.
  - apply (binds_cache_roundtrip (mkAcc 7 false 0 0 0 ["0@bob"; "3@eve"] EmptyString) [(0, "bob"); (3, "eve")]);
      [reflexivity|discriminate|repeat constructor].
  - intros Hc. apply (binds_cache_roundtrip (mkAcc 7 false 0 0 0 ["0@bob,3@eve"] EmptyString) [(0, "bob,3@eve")])
      in Hc; [|reflexivity|discriminate]. apply Forall_cons in Hc as [Hc _]. vm_compute in Hc. discriminate.
Defined.
