(* ===== verification/AccLoader.v ===== *)
(** * internal/account/auth: from a login request to its answer

    [auth.go] (events, rate limit, SDK check, dispatch to the loaders), [loader.go]
    (cache, database, registration), [handle.go] and [sdk/create.go]. A request passes from
    the event queue through an SDK check and one of the loaders back to the event queue,
    where it is finalized ([Account.v]); it is identified by its session id. *)

From S2P Require Import Prelude DataBus Redis Account.

Definition LoadThread : Z := 3.

(** [Event]: its [Op] and the fields that go with it. *)
Inductive Event :=
| OpLogin (req : loginMsg)
| OpAfterSDKCheck (acc : Account) (req : loginMsg)
| OpRoleClear (roleID seq : Z)
| OpLoginFail (req : loginMsg) (code : LoginCode).

Definition eventLogin (e : Event) : option loginMsg :=
  match e with OpLogin req | OpAfterSDKCheck _ req | OpLoginFail req _ => Some req | OpRoleClear _ _ => None end.

(** FNV-1a, 32 bits. *)
Fixpoint fnv32a (s : string) (h : Z) : Z :=
  match s with
  | EmptyString => h
  | String a s => fnv32a s (u32 (Z.lxor h (Z.of_nat (Ascii.nat_of_ascii a)) * 16777619))
  end.
Definition hashAccount (acc : string) : Z := fnv32a acc 2166136261.

(** The SDKs: each [Login] accepts every request. *)
Definition CreateSdk (no : Z) : option (loginMsg → go_error) :=
  if decide (no ∈ [0; 1; 2; 3]) then Some (λ _, None) else None.

Definition setBindAcc (req : loginMsg) : loginMsg :=
  mkLM (lm_SdkType req) (lm_Account req) (lm_Reconnect req) (lm_SesID req) (lm_RoleID req) (lm_ReConnToken req)
       (lm_Seq req) (FormatBindKey (lm_SdkType req) (lm_Account req)) (lm_ConnectedAcc req).

Definition checkLoginRateLimit (setnx : result bool) (req : loginMsg) : LoginCode :=
  if decide (lm_Account req = EmptyString) then LCAccountEmpty
  else match setnx with
       | Err _ => LCServerErr
       | Ok false => LCCD
       | Ok true => LCSuccess
       end.

(** ** A loader *)

(** One command of a pipeline: a reply, [redis.Nil], or an error; [Exec] returns the
    first error. *)
Inductive reply (T : Type) := RVal (v : T) | RNil | RErr.
Arguments RVal {_} _.
Arguments RNil {_}.
Arguments RErr {_}.

Fixpoint execFails {T} (rs : list (reply T)) : bool :=
  match rs with [] => false | RVal _ :: rs => execFails rs | RNil :: _ => false | RErr :: _ => true end.

(** A pipeline of writes runs those commands whose flag is not [false]. *)
Fixpoint runPipe {R} (flags : list bool) (cmds : list (R → R)) (r : R) : R :=
  match cmds with
  | [] => r
  | c :: cmds => runPipe (tl flags) cmds (if hd true flags then c r else r)
  end.

(** How an insert ends: answered (done, or refused as a duplicate), or failed with the
    document stored or not; a duplicate is never stored. *)
Inductive insOutcome := InsRun | InsErr (stored : bool).

(** The unique indexes on ["acc_id"] and ["binds"]. *)
Definition conflicts (acc d : Account) : bool :=
  bool_decide (AccID d = AccID acc) || existsb (λ b, bool_decide (b ∈ Binds d)) (Binds acc).
Definition InsertOne (o : insOutcome) (acc : Account) (db : list Account) : list Account * option bool :=
  let dup := existsb (conflicts acc) db in
  match o with
  | InsRun => if dup then (db, Some true) else (acc :: db, None)
  | InsErr stored => (if stored && negb dup then acc :: db else db, Some false)
  end.

(** What the calls of one flush meet. *)
Record loadEnv := mkEnv {
  bindFails : string → bool; accFails : Z → bool; mapOrder : list (loginMsg * Z) → list (loginMsg * Z);
  findFails : bool; stateFails : Z → bool; syncFlags : list bool;
  regCalls : list (evalOutcome * insOutcome); regFlags : list bool }.

(** What a loader hands out: an event to dispatch or an answer. *)
Abbreviation loadOut := (Event + answer)%type.

Section Loader.
Context {R : Type} `{RedisOps R} (env : loadEnv).

(** [HSet], [Expire] and [Set] of one account; the hash is gone when its time to live has
    run out, which is a step of the account's system in Account.v. *)
Definition syncCmds (bind : string) (acc : Account) : list (R → R) :=
  [ HSET (KeyAccount (AccID acc)) [("acc_id", Itoa (AccID acc)); ("freeze", if Freeze acc then "1" else "0"); ("binds", (MarshalBinds acc).2)];
    EXPIRE (KeyAccount (AccID acc)); SET (KeyAccBind bind) (Itoa (AccID acc)) ].
Definition syncAccountsToCache (batch : list (string * Account)) (r : R) : R :=
  runPipe (syncFlags env) (mjoin ((λ x, syncCmds x.1 x.2) <$> batch)) r.

Definition registerCmds (bind : string) (acc : Account) : list (R → R) :=
  [ HSET (KeyAccount (AccID acc)) [("acc_id", Itoa (AccID acc)); ("binds", (MarshalBinds acc).2)];
    EXPIRE (KeyAccount (AccID acc)); SET (KeyAccBind bind) (Itoa (AccID acc)) ].

(** The loop of [registerNewAccounts]: failures at once, successes collected. *)
Fixpoint registerLoop (calls : list (evalOutcome * insOutcome)) (batch : list loginMsg) (r : R) (db : list Account)
    : R * list Account * list loadOut * list (loginMsg * Account) :=
  match batch with
  | [] => (r, db, [], [])
  | req :: batch =>
      let '(o, i) := hd (EvOk, InsRun) calls in
      let '(r, res) := GenerateNextAccID o r in
      match res with
      | Err _ =>
          let '(r, db, outs, succ) := registerLoop (tl calls) batch r db in
          (r, db, inr (sendLoginFailure req LCServerErr) :: outs, succ)
      | Ok id =>
          let acc := mkAcc id false 0 0 0 [lm_BindAcc req] EmptyString in
          let '(db, err) := InsertOne i acc db in
          let '(r, db, outs, succ) := registerLoop (tl calls) batch r db in
          match err with
          | Some dup => (r, db, inr (sendLoginFailure req (if dup then LCServerBusy else LCServerErr)) :: outs, succ)
          | None => (r, db, outs, (req, acc) :: succ)
          end
      end
  end.

Definition registerNewAccounts (batch : list loginMsg) (r : R) (db : list Account) : R * list Account * list loadOut :=
  let '(r, db, outs, succ) := registerLoop (regCalls env) batch r db in
  let r := runPipe (regFlags env) (mjoin ((λ x, registerCmds (lm_BindAcc x.1) x.2) <$> succ)) r in
  (r, db, outs ++ ((λ x, inl (OpAfterSDKCheck (MarshalBinds x.2).1 x.1)) <$> succ)).

(** [Find] with [{"binds": {"$in": keys}}]; the state fields are not in the database. *)
Definition Find (keys : list string) (db : list Account) : list Account :=
  (λ d, mkAcc (AccID d) (Freeze d) 0 0 0 (Binds d) EmptyString) <$> filter (λ d, Exists (λ b, b ∈ keys) (Binds d)) db.

Definition bindMap (accs : list Account) : gmap string Account :=
  fold_left (λ m acc, fold_left (λ m b, <[b := acc]> m) (Binds acc) m) accs ∅.

Definition loadAccountsFromDB (batch : list loginMsg) (r : R) (db : list Account) : R * list Account * list loadOut :=
  let failAll := (r, db, (λ op, inr (sendLoginFailure op LCServerErr) : loadOut) <$> batch) in
  if findFails env then failAll else
  let accDatas := Find (lm_BindAcc <$> batch) db in
  let cmds := (λ acc, if stateFails env (AccID acc) then RErr else RVal (λ f, HGET (KeyAccount (AccID acc)) f r)) <$> accDatas in
  if execFails cmds then failAll else
  let accDatas := zip_with (λ acc c, match c with RVal get => (Scan StateFields get acc).1 | _ => acc end) accDatas cmds in
  let result := bindMap accDatas in
  let updateAccBatch := omap (λ op, (λ acc, (lm_BindAcc op, acc)) <$> result !! lm_BindAcc op) batch in
  let r := if decide (updateAccBatch = []) then r else syncAccountsToCache updateAccBatch r in
  let outs := omap (λ op, (λ acc, inl (OpAfterSDKCheck (Clone (MarshalBinds acc).1) op) : loadOut) <$> result !! lm_BindAcc op) batch in
  let newAccBatch := filter (λ op, result !! lm_BindAcc op = None) batch in
  if decide (newAccBatch = []) then (r, db, outs)
  else let '(r, db, outs') := registerNewAccounts newAccBatch r db in (r, db, outs ++ outs').

Definition bindReply (r : R) (op : loginMsg) : reply string :=
  if bindFails env (lm_BindAcc op) then RErr
  else match GET (KeyAccBind (lm_BindAcc op)) r with Some v => RVal v | None => RNil end.

(** The account id a reply of the first pipeline gives. *)
Definition replyID (c : reply string) : option Z := match c with RVal v => parseUint 64 v | _ => None end.

Definition accReply (r : R) (id : Z) : reply (string → option string) :=
  if accFails env id then RErr else RVal (λ f, HGET (KeyAccount id) f r).

(** The account a reply of the second pipeline gives. *)
Definition replyAcc (c : reply (string → option string)) : option Account :=
  match c with
  | RVal get => let '(acc, ok) := Scan AccFields get zeroAccount in
                if ok && bool_decide (AccID acc > 0) then Some (UnmarshalBinds acc) else None
  | _ => None
  end.

Definition loadAccountsFromCache (batch : list loginMsg) (r : R) (db : list Account) : R * list Account * list loadOut :=
  if execFails (bindReply r <$> batch) then loadAccountsFromDB batch r db else
  let cmdAcc := omap (λ op, (λ id, (op, id)) <$> replyID (bindReply r op)) batch in
  let batchFromDB := filter (λ op, replyID (bindReply r op) = None) batch in
  if negb (bool_decide (cmdAcc = [])) && execFails ((λ x, accReply r x.2) <$> cmdAcc)
  then loadAccountsFromDB batch r db
  else
    let cmdAcc := mapOrder env cmdAcc in
    let outs := omap (λ x, (λ acc, inl (OpAfterSDKCheck acc x.1) : loadOut) <$> replyAcc (accReply r x.2)) cmdAcc in
    let batchFromDB := batchFromDB ++ (filter (λ x, replyAcc (accReply r x.2) = None) cmdAcc).*1 in
    if decide (batchFromDB = []) then (r, db, outs)
    else let '(r, db, outs') := loadAccountsFromDB batchFromDB r db in (r, db, outs ++ outs').

(** Requests for the same account in one batch: the first is served, the others fail. *)
Fixpoint dedup (seen : list string) (batch : list loginMsg) : list loadOut * list loginMsg :=
  match batch with
  | [] => ([], [])
  | req :: batch =>
      if decide (lm_BindAcc req ∈ seen)
      then let '(outs, uniq) := dedup seen batch in (inr (sendLoginFailure req LCServerBusy) :: outs, uniq)
      else let '(outs, uniq) := dedup (lm_BindAcc req :: seen) batch in (outs, req :: uniq)
  end.

(** [flush] of [run]. *)
Definition loaderFlush (batch : list loginMsg) (r : R) (db : list Account) : R * list Account * list loadOut :=
  if decide (batch = []) then (r, db, []) else
  let '(outs, uniqueRequests) := dedup [] batch in
  let '(r, db, outs') := loadAccountsFromCache uniqueRequests r db in (r, db, outs ++ outs').

End Loader.

(** ** The service *)

Section Service.
Context {R : Type} `{RedisOps R}.

(** The event queue is full or closed: the login behind the event fails. *)
Definition dispatchEvent (full : bool) (e : Event) : list Event * list answer :=
  if full then ([], match eventLogin e with Some req => [sendLoginFailure req LCServerBusy] | None => [] end)
  else ([e], []).

(** What processing an event sets off: events to dispatch, SDK checks, answers. *)
Record effects := mkEff { ef_r : R; ef_evts : list Event; ef_sdk : list loginMsg; ef_ans : list answer }.

Definition authenticateWithSDK (req : loginMsg) (r : R) : effects :=
  match CreateSdk (lm_SdkType req) with
  | None => mkEff r [OpLoginFail req LCSDKErr] [] []
  | Some _ => mkEff r [] [req] []
  end.

Definition login (setnx : result bool) (req : loginMsg) (r : R) : effects :=
  let code := checkLoginRateLimit setnx req in
  if decide (code ≠ LCSuccess) then mkEff r [OpLoginFail req code] [] [] else authenticateWithSDK req r.

Definition processEvent (setnx : result bool) (gameExists : Z → bool) (selected : option Z) (draws : list bytes)
    (o : evalOutcome) (e : Event) (r : R) : option effects :=
  match e with
  | OpLogin req => Some (login setnx req r)
  | OpAfterSDKCheck acc req =>
      '(r, a) ← OnSDKAuthSuccess gameExists selected draws o (Some acc) req r; Some (mkEff r [] [] [a])
  | OpLoginFail req code => Some (mkEff r [] [] [sendLoginFailure req code])
  | OpRoleClear roleID seq => Some (mkEff (HandleRoleLogout o (GetAccID roleID) seq r) [] [] [])
  end.

(** The loader a request goes to. *)
Definition loaderOf (req : loginMsg) : nat := Z.to_nat (hashAccount (lm_Account req) mod LoadThread).

Record service := mkSvc {
  g_evt : list Event; g_sdk : list loginMsg; g_chan : list (list loginMsg); g_batch : list (list loginMsg);
  g_r : R; g_db : list Account; g_ans : list answer; g_sub : list Z }.

Definition dispatchInto (full : Event → bool) (s : service) (e : Event) : service :=
  let '(q, a) := dispatchEvent (full e) e in
  mkSvc (g_evt s ++ q) (g_sdk s) (g_chan s) (g_batch s) (g_r s) (g_db s) (g_ans s ++ a) (g_sub s).
Definition dispatchAll (full : Event → bool) (es : list Event) (s : service) : service :=
  fold_left (dispatchInto full) es s.

(** What a flush hands out, in order. *)
Definition deliver1 (full : Event → bool) (s : service) (o : loadOut) : service :=
  match o with
  | inl e => dispatchInto full s e
  | inr a => mkSvc (g_evt s) (g_sdk s) (g_chan s) (g_batch s) (g_r s) (g_db s) (g_ans s ++ [a]) (g_sub s)
  end.
Definition deliver (full : Event → bool) (outs : list loadOut) (s : service) : service :=
  fold_left (deliver1 full) outs s.

(** [PushToLoader] does not wait for room in the channel. *)
Definition PushToLoader (full : bool) (req : loginMsg) (s : service) : option service :=
  if full then Some (mkSvc (g_evt s) (g_sdk s) (g_chan s) (g_batch s) (g_r s) (g_db s)
                       (g_ans s ++ [sendLoginFailure req LCServerBusy]) (g_sub s))
  else c ← g_chan s !! loaderOf req;
       Some (mkSvc (g_evt s) (g_sdk s) (<[loaderOf req := c ++ [req]]> (g_chan s)) (g_batch s) (g_r s) (g_db s) (g_ans s) (g_sub s)).

(** [HandleLoginRequest] of a request with its [Req]. *)
Definition HandleLoginRequest (full : Event → bool) (req : loginMsg) (s : service) : service :=
  let req := setBindAcc req in
  dispatchAll full [OpLogin req]
    (mkSvc (g_evt s) (g_sdk s) (g_chan s) (g_batch s) (g_r s) (g_db s) (g_ans s) (g_sub s ++ [lm_SesID req])).

Definition onClearRole (full : Event → bool) (roleID seq : Z) (s : service) : service :=
  dispatchAll full [OpRoleClear roleID seq] s.

Inductive gstep : service → service → Prop :=
| g_request s full req : gstep s (HandleLoginRequest full req s)
| g_clear s full roleID seq : gstep s (onClearRole full roleID seq s)
| g_event e es sdk ch ba r db ans sub full setnx ge sel draws o ef :
    processEvent setnx ge sel draws o e r = Some ef →
    gstep (mkSvc (e :: es) sdk ch ba r db ans sub)
      (dispatchAll full (ef_evts ef) (mkSvc es (sdk ++ ef_sdk ef) ch ba (ef_r ef) db (ans ++ ef_ans ef) sub))
| g_sdkDone es l1 req l2 ch ba r db ans sub full chFull f s' :   (* an SDK answers, in any order *)
    CreateSdk (lm_SdkType req) = Some f →
    match f req with
    | Some _ => Some (dispatchAll full [OpLoginFail req LCSdkCheckFaild] (mkSvc es (l1 ++ l2) ch ba r db ans sub))
    | None => PushToLoader chFull req (mkSvc es (l1 ++ l2) ch ba r db ans sub)
    end = Some s' →
    gstep (mkSvc es (l1 ++ req :: l2) ch ba r db ans sub) s'
| g_take s i req c b :
    g_chan s !! i = Some (req :: c) → g_batch s !! i = Some b →
    gstep s (mkSvc (g_evt s) (g_sdk s) (<[i := c]> (g_chan s)) (<[i := b ++ [req]]> (g_batch s)) (g_r s) (g_db s) (g_ans s) (g_sub s))
| g_flush s full i b env r' db' outs :
    (∀ l, mapOrder env l ≡ₚ l) → g_batch s !! i = Some b →
    loaderFlush env b (g_r s) (g_db s) = (r', db', outs) →
    gstep s (deliver full outs (mkSvc (g_evt s) (g_sdk s) (g_chan s) (<[i := []]> (g_batch s)) r' db' (g_ans s) (g_sub s))).

Definition startService (r : R) (db : list Account) : service :=
  mkSvc [] [] (replicate (Z.to_nat LoadThread) []) (replicate (Z.to_nat LoadThread) []) r db [] [].

(** Session ids of what is under way and of what is answered. *)
Definition answerSes (a : answer) : Z := match a with ToGame _ req => lm_SesID req | ToClient ses _ => ses end.
Definition eventSes (e : Event) : list Z := match eventLogin e with Some req => [lm_SesID req] | None => [] end.
Definition outSes (o : loadOut) : list Z := match o with inl e => eventSes e | inr a => [answerSes a] end.

Definition inFlight (s : service) : list Z :=
  (g_evt s ≫= eventSes) ++ (lm_SesID <$> g_sdk s) ++ (lm_SesID <$> mjoin (g_chan s)) ++ (lm_SesID <$> mjoin (g_batch s)).
Definition conserved (s : service) : Prop := inFlight s ++ (answerSes <$> g_ans s) ≡ₚ g_sub s.

(** ** No request is lost or answered twice *)

Lemma partition_ses {A B} (P : A → Prop) `{!∀ x, Decision (P x)} (f : A → option B) (g : B → list Z) (key : A → Z) l :
  (∀ x, P x ↔ f x = None) → (∀ x y, f x = Some y → g y = [key x]) →
  (omap f l ≫= g) ++ (key <$> filter P l) ≡ₚ key <$> l.
Proof.
  intros HP Hg. induction l as [|x l IH]; [done|]. cbn [omap list_omap]. destruct (f x) as [y|] eqn:E.
  - rewrite filter_cons_False by (rewrite HP; congruence). rewrite bind_cons, (Hg _ _ E). cbn. by f_equiv.
  - rewrite filter_cons_True by by apply HP. cbn [fmap list_fmap]. rewrite <- Permutation_middle. by f_equiv.
Qed.

Lemma bind_singles {A B} (f : A → B) (g : B → list Z) (key : A → Z) l :
  (∀ x, g (f x) = [key x]) → (f <$> l) ≫= g = key <$> l.
Proof. intros Hg. induction l as [|x l IH]; [done|]. cbn [fmap list_fmap]. rewrite bind_cons, Hg, IH. done. Qed.

Lemma registerLoop_ses calls batch (r : R) db r' db' outs succ :
  registerLoop calls batch r db = (r', db', outs, succ) →
  (outs ≫= outSes) ++ (lm_SesID <$> succ.*1) ≡ₚ lm_SesID <$> batch.
Proof.
  revert calls r db r' db' outs succ. induction batch as [|req batch IH]; intros calls r db r' db' outs succ E; cbn in E.
  { by simplify_eq. }
  destruct (hd _ calls) as [o i]. destruct (GenerateNextAccID o r) as [r1 [id|e]].
  - destruct (InsertOne i _ db) as [db1 err]. destruct (registerLoop (tl calls) batch r1 db1) as [[[r2 db2] outs2] succ2] eqn:El.
    apply IH in El. destruct err as [dup|]; simplify_eq; rewrite ?bind_cons.
    + cbn. by f_equiv.
    + cbn [fmap list_fmap fst]. rewrite <- Permutation_middle. by f_equiv.
  - destruct (registerLoop (tl calls) batch r1 db) as [[[r2 db2] outs2] succ2] eqn:El. apply IH in El.
    simplify_eq. rewrite bind_cons. cbn. by f_equiv.
Qed.

Lemma register_ses env batch (r : R) db r' db' outs :
  registerNewAccounts env batch r db = (r', db', outs) → outs ≫= outSes ≡ₚ lm_SesID <$> batch.
Proof.
  unfold registerNewAccounts. destruct (registerLoop _ batch r db) as [[[r1 db1] o1] succ] eqn:E.
  intros [= <- <- <-]. apply registerLoop_ses in E. rewrite <- E, bind_app. f_equiv.
  rewrite (bind_singles _ outSes (λ x, lm_SesID x.1)) by done. by rewrite <- list_fmap_compose.
Qed.

Lemma failAll_ses batch code :
  ((λ op, inr (sendLoginFailure op code) : loadOut) <$> batch) ≫= outSes = lm_SesID <$> batch.
Proof. by apply bind_singles. Qed.

Lemma loadDB_ses env batch (r : R) db r' db' outs :
  loadAccountsFromDB env batch r db = (r', db', outs) → outs ≫= outSes ≡ₚ lm_SesID <$> batch.
Proof.
  unfold loadAccountsFromDB. destruct (findFails env); [intros [= <- <- <-]; by rewrite failAll_ses|].
  destruct (execFails _); [intros [= <- <- <-]; by rewrite failAll_ses|].
  set (res := bindMap _). set (f := λ op, (λ acc, inl _) <$> res !! lm_BindAcc op).
  assert (Hp : (omap f batch ≫= outSes) ++ (lm_SesID <$> filter (λ op, res !! lm_BindAcc op = None) batch) ≡ₚ lm_SesID <$> batch).
  { apply partition_ses.
    - intros op. unfold f. by rewrite fmap_None.
    - intros op y. unfold f. intros (acc & _ & ->)%fmap_Some. done. }
  case_decide as Hn.
  - intros [= <- <- <-]. rewrite <- Hp, Hn. by rewrite app_nil_r.
  - destruct (registerNewAccounts _ _ _ _) as [[r1 db1] o1] eqn:E. intros [= <- <- <-].
    apply register_ses in E. by rewrite bind_app, E.
Qed.

Lemma loadCache_ses env batch (r : R) db r' db' outs :
  (∀ l, mapOrder env l ≡ₚ l) →
  loadAccountsFromCache env batch r db = (r', db', outs) → outs ≫= outSes ≡ₚ lm_SesID <$> batch.
Proof.
  intros Ho. unfold loadAccountsFromCache. destruct (execFails _); [apply loadDB_ses|].
  set (f := λ op, (λ id, (op, id)) <$> replyID (bindReply env r op)).
  destruct (_ && _); [apply loadDB_ses|]. set (cmds := mapOrder env (omap f batch)).
  set (g := λ x : loginMsg * Z, (λ acc, inl (OpAfterSDKCheck acc x.1)) <$> replyAcc (accReply env r x.2)).
  set (rest := filter (λ op, replyID _ = None) batch). set (rest2 := filter (λ x, replyAcc _ = None) cmds).
  assert (Hp : (omap g cmds ≫= outSes) ++ (lm_SesID <$> (rest ++ rest2.*1)) ≡ₚ lm_SesID <$> batch).
  { rewrite fmap_app, Permutation_app_swap_app.
    assert (E2 : (omap g cmds ≫= outSes) ++ (lm_SesID <$> rest2.*1) ≡ₚ (λ x, lm_SesID x.1) <$> cmds).
    { rewrite <- list_fmap_compose. apply (partition_ses _ g outSes (λ x, lm_SesID x.1) cmds).
      - intros x. unfold g. by rewrite fmap_None.
      - intros x y. unfold g. intros (acc & _ & ->)%fmap_Some. done. }
    rewrite E2. unfold cmds. rewrite (fmap_Permutation _ _ _ (Ho _)).
    rewrite <- (bind_singles id (λ x, [lm_SesID x.1]) (λ x, lm_SesID x.1)), list_fmap_id by done.
    rewrite Permutation_app_comm. apply partition_ses.
    - intros op. unfold f. by rewrite fmap_None.
    - intros op y. unfold f. intros (z & _ & ->)%fmap_Some. done. }
  case_decide as Hn.
  - intros [= <- <- <-]. rewrite <- Hp, Hn. by rewrite app_nil_r.
  - destruct (loadAccountsFromDB _ _ _ _) as [[r1 db1] o1] eqn:E. intros [= <- <- <-].
    apply loadDB_ses in E. by rewrite bind_app, E.
Qed.

Lemma dedup_ses batch seen outs uniq :
  dedup seen batch = (outs, uniq) → (outs ≫= outSes) ++ (lm_SesID <$> uniq) ≡ₚ lm_SesID <$> batch.
Proof.
  revert seen outs uniq. induction batch as [|req batch IH]; intros seen outs uniq E; cbn in E; [by simplify_eq|].
  case_decide.
  - destruct (dedup seen batch) as [o u] eqn:Ed. simplify_eq. rewrite bind_cons. cbn. f_equiv. eauto.
  - destruct (dedup _ batch) as [o u] eqn:Ed. simplify_eq. cbn. rewrite <- Permutation_middle. f_equiv. eauto.
Qed.

Lemma flush_ses env batch (r : R) db r' db' outs :
  (∀ l, mapOrder env l ≡ₚ l) →
  loaderFlush env batch r db = (r', db', outs) → outs ≫= outSes ≡ₚ lm_SesID <$> batch.
Proof.
  intros Ho. unfold loaderFlush. case_decide as Hb; [intros [= <- <- <-]; by rewrite Hb|].
  destruct (dedup [] batch) as [o u] eqn:Ed. destruct (loadAccountsFromCache _ _ _ _) as [[r1 db1] o1] eqn:E.
  intros [= <- <- <-]. apply loadCache_ses in E; [|done]. apply dedup_ses in Ed. by rewrite bind_app, E.
Qed.

(** Everything a state accounts for, whatever changed it. *)
Definition total (s : service) : list Z := inFlight s ++ (answerSes <$> g_ans s).

Ltac totals := unfold total, inFlight; cbn [g_evt g_sdk g_chan g_batch g_ans];
  rewrite ?bind_app, ?bind_cons, ?app_nil_r, ?fmap_app; cbn; try solve_Permutation.

Lemma dispatchInto_total full s e :
  total (dispatchInto full s e) ≡ₚ eventSes e ++ total s ∧ g_sub (dispatchInto full s e) = g_sub s.
Proof.
  unfold dispatchInto, dispatchEvent. split; [|by destruct (full e)]. destruct (full e).
  - unfold eventSes. destruct (eventLogin e) as [req|]; totals.
  - totals.
Qed.

Lemma dispatchAll_total full es s :
  total (dispatchAll full es s) ≡ₚ (es ≫= eventSes) ++ total s ∧ g_sub (dispatchAll full es s) = g_sub s.
Proof.
  revert s. induction es as [|e es IH]; intros s; [done|].
  change (dispatchAll full (e :: es) s) with (dispatchAll full es (dispatchInto full s e)).
  destruct (IH (dispatchInto full s e)) as [E ->]. destruct (dispatchInto_total full s e) as [E1 ->].
  split; [|done]. rewrite E, E1, bind_cons. solve_Permutation.
Qed.

Lemma deliver_total full outs s :
  total (deliver full outs s) ≡ₚ (outs ≫= outSes) ++ total s ∧ g_sub (deliver full outs s) = g_sub s.
Proof.
  revert s. induction outs as [|o outs IH]; intros s; [done|].
  change (deliver full (o :: outs) s) with (deliver full outs (deliver1 full s o)).
  assert (total (deliver1 full s o) ≡ₚ outSes o ++ total s ∧ g_sub (deliver1 full s o) = g_sub s) as [E1 E2].
  { destruct o as [e|a]; [apply dispatchInto_total|]. split; [|done]. cbn. totals. }
  destruct (IH (deliver1 full s o)) as [E ->]. rewrite E2. split; [|done]. rewrite E, E1, bind_cons. solve_Permutation.
Qed.

Lemma join_insert {A} (ls : list (list A)) i c c' :
  ls !! i = Some c → c ++ mjoin (<[i := c']> ls) ≡ₚ c' ++ mjoin ls.
Proof.
  revert i. induction ls as [|l ls IH]; intros [|i] E; cbn in E |- *; try done.
  - simplify_eq. solve_Permutation.
  - specialize (IH i E). rewrite (Permutation_app_swap_app c l), IH. solve_Permutation.
Qed.

Lemma finalize_ses ge sel draws o acc req (r r' : R) acc' req' code :
  finalizeLoginSession ge sel draws o acc req r = Some (r', acc', req', code) → lm_SesID req' = lm_SesID req.
Proof.
  unfold finalizeLoginSession. destruct (_ && _ && _); [by intros [= <- <- <- <-]|].
  destruct (allocateGameServer _ _ _ _) as [g c]. case_decide; [by intros [= <- <- <- <-]|].
  destruct (if decide (Passwd acc = 0) then _ else _); [|done].
  destruct (SaveLoginData _ _ _ _) as [r1 [[]|]]; by intros [= <- <- <- <-].
Qed.

(** An event is turned into exactly one follow-up. *)
Lemma processEvent_ses setnx ge sel draws o e (r : R) ef :
  processEvent setnx ge sel draws o e r = Some ef →
  (ef_evts ef ≫= eventSes) ++ (lm_SesID <$> ef_sdk ef) ++ (answerSes <$> ef_ans ef) = eventSes e.
Proof.
  destruct e as [req|acc req|rid q|req code]; cbn [processEvent]; [|..|by intros [= <-]|by intros [= <-]].
  - intros [= <-]. unfold login, authenticateWithSDK. case_decide; [done|]. by destruct (CreateSdk _).
  - unfold OnSDKAuthSuccess. destruct (finalizeLoginSession _ _ _ _ _ _ _) as [[[[r1 a1] q1] c1]|] eqn:E; [|done].
    apply finalize_ses in E. cbn. intros [= <-]. cbn. unfold eventSes. cbn. case_decide; cbn; by rewrite E.
Qed.

Lemma push_total full req s s' :
  PushToLoader full req s = Some s' → total s' ≡ₚ lm_SesID req :: total s ∧ g_sub s' = g_sub s.
Proof.
  unfold PushToLoader. destruct full; [intros [= <-]; split; [|done]; totals|].
  destruct (g_chan s !! loaderOf req) as [c|] eqn:E; [|done]. intros [= <-]. split; [|done].
  pose proof (join_insert _ _ _ (c ++ [req]) E) as Hj.
  assert (mjoin (<[loaderOf req := c ++ [req]]> (g_chan s)) ≡ₚ req :: mjoin (g_chan s)) as Hj'.
  { apply (Permutation_app_inv_l c). rewrite Hj. solve_Permutation. }
  unfold total, inFlight. cbn [g_evt g_sdk g_chan g_batch g_ans]. rewrite Hj'. cbn. solve_Permutation.
Qed.

Ltac open_total := unfold total, inFlight in *; cbn [g_evt g_sdk g_chan g_batch g_ans g_sub] in *.

Lemma conserved_preserved : preserved gstep conserved.
Proof.
  intros s s' Hst Hc. change (total s ≡ₚ g_sub s) in Hc. change (total s' ≡ₚ g_sub s'). destruct Hst.
  - unfold HandleLoginRequest. destruct (dispatchAll_total full [OpLogin (setBindAcc req)]
      (mkSvc (g_evt s) (g_sdk s) (g_chan s) (g_batch s) (g_r s) (g_db s) (g_ans s) (g_sub s ++ [lm_SesID (setBindAcc req)]))) as [E ->].
    rewrite E. open_total. rewrite <- Hc. cbn. solve_Permutation.
  - unfold onClearRole. destruct (dispatchAll_total full [OpRoleClear roleID seq] s) as [E ->]. by rewrite E.
  - match goal with H : processEvent _ _ _ _ _ _ _ = _ |- _ => apply processEvent_ses in H as Hp end.
    match goal with |- total (dispatchAll ?f ?es ?t) ≡ₚ _ => destruct (dispatchAll_total f es t) as [E ->] end.
    rewrite E. open_total. rewrite <- Hc.
    rewrite bind_cons, <- Hp, !fmap_app. solve_Permutation.
  - destruct (f req).
    + destruct (dispatchAll_total full [OpLoginFail req LCSdkCheckFaild] (mkSvc es (l1 ++ l2) ch ba r db ans sub)) as [E Es].
      assert (dispatchAll full [OpLoginFail req LCSdkCheckFaild] (mkSvc es (l1 ++ l2) ch ba r db ans sub) = s') as <- by congruence.
      rewrite Es.
      rewrite E. open_total. rewrite <- Hc.
      rewrite !fmap_app. cbn. solve_Permutation.
    + apply push_total in H1 as [E ->]. rewrite E. open_total. rewrite <- Hc. rewrite !fmap_app. cbn. solve_Permutation.
  - pose proof (join_insert _ _ _ c H0) as Hj1. pose proof (join_insert _ _ _ (b ++ [req]) H1) as Hj2.
    open_total. rewrite <- Hc.
    assert (mjoin (g_chan s) ≡ₚ req :: mjoin (<[i := c]> (g_chan s))) as ->.
    { apply (Permutation_app_inv_l c). rewrite <- Hj1. solve_Permutation. }
    assert (mjoin (<[i := b ++ [req]]> (g_batch s)) ≡ₚ req :: mjoin (g_batch s)) as ->.
    { apply (Permutation_app_inv_l b). rewrite Hj2. solve_Permutation. }
    cbn. solve_Permutation.
  - apply flush_ses in H2; [|done]. pose proof (join_insert _ _ _ [] H1) as Hj.
    match goal with |- total (deliver ?f ?es ?t) ≡ₚ _ => destruct (deliver_total f es t) as [E ->] end.
    rewrite E, H2. open_total. rewrite <- Hc.
    rewrite <- Hj. rewrite !fmap_app. solve_Permutation.
Qed.

(** C10. Every login request is answered exactly once: whatever fails on its way (a full
    queue or loader, the rate limit, an unknown SDK, duplicates in a batch, Redis or
    database errors, a lost race to register), the requests submitted are at any time
    those under way together with those answered, so when nothing is under way each
    session has received exactly one answer: a failure code, or its login sent to a
    game server. *)
Theorem every_login_answered_once r0 db0 s :
  rtc gstep (startService r0 db0) s →
  inFlight s ++ (answerSes <$> g_ans s) ≡ₚ g_sub s ∧ (inFlight s = [] → answerSes <$> g_ans s ≡ₚ g_sub s).
Proof.
  intros Hr. assert (Hc : conserved s).
  { apply (rtc_preserved _ _ _ _ conserved_preserved Hr). exact (Permutation_refl []). }
  split; [done|]. unfold conserved in Hc. intros E. by rewrite E in Hc.
Qed.

End Service.

Definition demoEnv : loadEnv := mkEnv (λ _, false) (λ _, false) id false (λ _, false) [] [] [].

(** Evaluate the state reached. *)
Ltac norm_state := match goal with
  |- rtc _ ?x _ => let y := eval vm_compute in x in let E := fresh in
                   assert (x = y) as E by (vm_compute; reflexivity); rewrite E; clear E end.

(** A first login: SDK check, loader, registration, answer. *)
Lemma demo_login :
  ∃ r db, rtc gstep (startService (mkRdb ∅ {[ RedisKeyIDs := "100000" ]}) [])
    (mkSvc [] [] [[]; []; []] [[]; []; []] r db
       [ToGame 3 (mkLM 0 "bob" false 70 100001 1 1 "0@bob" ["0@bob"])] [70]).
Proof.
  eexists _, _.
  eapply rtc_l; [apply (g_request _ (λ _, false) demoReq)|norm_state].
  eapply rtc_l; [eapply (g_event _ _ _ _ _ _ _ _ _ (λ _, false) (Ok true) (λ _, false) (Some 3) demoDraws EvOk); reflexivity|norm_state].
  eapply rtc_l; [eapply (g_sdkDone _ [] demoReq [] _ _ _ _ _ _ (λ _, false) false); reflexivity|norm_state].
  eapply rtc_l; [eapply (g_take _ (loaderOf demoReq)); reflexivity|norm_state].
  eapply rtc_l; [eapply (g_flush _ (λ _, false) (loaderOf demoReq) _ demoEnv); [done|reflexivity|vm_compute; reflexivity]|norm_state].
  eapply rtc_l; [eapply (g_event _ _ _ _ _ _ _ _ _ (λ _, false) (Ok true) (λ _, false) (Some 3) demoDraws EvOk); vm_compute; reflexivity|norm_state].
  apply rtc_refl.
Qed.

Lemma every_login_answered_once_witness :
  answerSes <$> [ToGame 3 (mkLM 0 "bob" false 70 100001 1 1 "0@bob" ["0@bob"])] ≡ₚ [70].
Proof.
  destruct demo_login as (r & db & Hr). by apply (every_login_answered_once _ _ _ Hr).
Defined.

(** ** The account a login gets *)

Lemma KeyAccount_inj i j : KeyAccount i = KeyAccount j → i = j.
Proof.
  unfold KeyAccount. intros E. apply (inj (String.append "acc:{")) in E.
  by apply append_char_inj, Itoa_inj in E.
Qed.
Lemma KeyAccBind_inj b c : KeyAccBind b = KeyAccBind c → b = c.
Proof. apply (inj (String.append "acc_bind:")). Qed.
Lemma KeyAccount_Bind i b : KeyAccount i ≠ KeyAccBind b.
Proof. unfold KeyAccount, KeyAccBind. cbn. discriminate. Qed.
Lemma KeyAccount_IDs i : KeyAccount i ≠ RedisKeyIDs.
Proof. unfold KeyAccount. cbn. discriminate. Qed.
Lemma KeyAccBind_IDs b : KeyAccBind b ≠ RedisKeyIDs.
Proof. unfold KeyAccBind. cbn. discriminate. Qed.
#[local] Hint Resolve KeyAccount_Bind KeyAccount_IDs KeyAccBind_IDs not_eq_sym : core.

Section Coherence.
Context {R : Type} `{RedisLaws R}.

(** What the cache says agrees with the database: a cached binding names an account
    bound to the key, a cached account has its own id; the counter leaves room for [k]
    registrations. *)
Definition boundTo (db : list Account) (bind : string) (id : Z) : Prop :=
  ∃ d, d ∈ db ∧ AccID d = id ∧ bind ∈ Binds d.

Definition cacheOk (r : R) (db : list Account) : Prop :=
  (∀ id, GET (KeyAccount id) r = None) ∧
  (∀ b s, GET (KeyAccBind b) r = Some s → ∃ id, s = Itoa id ∧ boundTo db b id) ∧
  (∀ id s, HGET (KeyAccount id) "acc_id" r = Some s → s = Itoa id).

Definition dbOk (db : list Account) : Prop := Forall (λ d, is_u64 (AccID d)) db ∧ NoDup (db ≫= Binds).

Definition roomFor (k : Z) (r : R) : Prop :=
  ∃ n, GET RedisKeyIDs r = Some (Itoa n) ∧ 0 ≤ n ∧ n + k < 2 ^ 63 - 1.

Lemma boundTo_mono db acc b id : boundTo db b id → boundTo (acc :: db) b id.
Proof. intros (d & ? & ?). exists d. split; [by right|done]. Qed.

Lemma cacheOk_mono r db acc : cacheOk r db → cacheOk r (acc :: db).
Proof.
  intros (H1 & H2 & H3). unfold cacheOk; splits; try done. intros b s Hs. destruct (H2 b s Hs) as (id & ? & ?).
  exists id. split; [done|by apply boundTo_mono].
Qed.

(** The writes of the loader keep the cache in agreement. *)
Lemma cacheOk_hset r db id kvs :
  NoDup kvs.*1 → ("acc_id", Itoa id) ∈ kvs → cacheOk r db →
  cacheOk (HSET (KeyAccount id) kvs r) db ∧
  GET RedisKeyIDs (HSET (KeyAccount id) kvs r) = GET RedisKeyIDs r.
Proof.
  intros Hn Hin (H1 & H2 & H3). split; [|by apply get_hset_key]. unfold cacheOk; splits.
  - intros j. by apply get_hset.
  - intros b s Hs. rewrite get_hset_key in Hs by done. eauto.
  - intros j s Hs. destruct (decide (j = id)) as [->|Hne].
    + rewrite (hget_hset _ _ _ _ _ (H1 id) Hn Hin) in Hs. congruence.
    + rewrite hget_hset_key in Hs; [eauto|]. intros E. apply Hne. symmetry. by apply KeyAccount_inj.
Qed.

Lemma cacheOk_set r db b id :
  boundTo db b id → cacheOk r db →
  cacheOk (SET (KeyAccBind b) (Itoa id) r) db ∧
  GET RedisKeyIDs (SET (KeyAccBind b) (Itoa id) r) = GET RedisKeyIDs r.
Proof.
  intros Hb (H1 & H2 & H3). split; [|by apply get_set_key]. unfold cacheOk; splits.
  - intros j. rewrite get_set_key; [done|]. apply not_eq_sym. apply KeyAccount_Bind.
  - intros c s Hs. destruct (decide (c = b)) as [->|Hne].
    + rewrite get_set in Hs. injection Hs as <-. by exists id.
    + rewrite get_set_key in Hs; [eauto|]. intros E. apply Hne. symmetry. by apply KeyAccBind_inj.
  - intros j s Hs. rewrite hget_set in Hs; [eauto|]. apply not_eq_sym. apply KeyAccount_Bind.
Qed.

Lemma cacheOk_expire r db k :
  cacheOk r db → cacheOk (EXPIRE k r) db ∧ GET RedisKeyIDs (EXPIRE k r) = GET RedisKeyIDs r.
Proof.
  intros (H1 & H2 & H3). split; [|apply get_expire]. unfold cacheOk; splits.
  - intros j. by rewrite get_expire.
  - intros b s. rewrite get_expire. apply H2.
  - intros j s. rewrite hget_expire. apply H3.
Qed.

Lemma runPipe_inv (P : R → Prop) flags cmds r :
  Forall (λ c : R → R, ∀ r, P r → P (c r)) cmds → P r → P (runPipe flags cmds r).
Proof.
  intros Hc. revert flags r. induction Hc as [|c cmds Hc _ IH]; intros flags r Hr; [done|].
  cbn. apply IH. destruct (hd true flags); auto.
Qed.

(** The writes for accounts that are bound to their keys. *)
Lemma accCmds_ok flags (mk : string → Account → list (R → R)) (l : list (string * Account)) r db n :
  (∀ b acc, mk b acc = syncCmds b acc ∨ mk b acc = registerCmds b acc) →
  Forall (λ x, boundTo db x.1 (AccID x.2)) l →
  cacheOk r db ∧ GET RedisKeyIDs r = n →
  cacheOk (runPipe flags (mjoin ((λ x, mk x.1 x.2) <$> l)) r) db ∧
  GET RedisKeyIDs (runPipe flags (mjoin ((λ x, mk x.1 x.2) <$> l)) r) = n.
Proof.
  intros Hmk Hl Hr. apply (runPipe_inv (λ r, cacheOk r db ∧ GET RedisKeyIDs r = n)); [|done].
  apply Forall_join, Forall_fmap. eapply Forall_impl; [exact Hl|]. intros [b acc] Hb. cbn in *.
  destruct (Hmk b acc) as [->| ->];
    (repeat (apply Forall_cons; split); [..|by apply Forall_nil]); intros r' [Hc Hn]; cbn.
  all: try (destruct (cacheOk_expire r' db (KeyAccount (AccID acc)) Hc) as [? ->]; done).
  all: try (destruct (cacheOk_set r' db b (AccID acc) Hb Hc) as [? ->]; done).
  all: match goal with |- context [HSET _ ?kvs _] =>
         destruct (cacheOk_hset r' db (AccID acc) kvs) as [? ->]; [cbn [fmap list_fmap fst]; dec|left|done|done] end.
Qed.

(** What [outs] dispatches is the account bound to the request's key. *)
Definition rightAccount (db : list Account) (o : loadOut) : Prop :=
  match o with inl (OpAfterSDKCheck acc req) => boundTo db (lm_BindAcc req) (AccID acc) | _ => True end.

Lemma rightAccount_mono db acc o : rightAccount db o → rightAccount (acc :: db) o.
Proof. destruct o as [[]|]; cbn; try done. apply boundTo_mono. Qed.

Lemma roomFor_same k k' r r' : GET RedisKeyIDs r' = GET RedisKeyIDs r → k' ≤ k → roomFor k r → roomFor k' r'.
Proof. intros E Hk (n & Hg & ? & ?). exists n. rewrite E. splits; [done|lia|lia]. Qed.

Lemma generate_ok o k r db r' res :
  cacheOk r db → roomFor (k + 1) r → 0 ≤ k → GenerateNextAccID o r = (r', res) →
  cacheOk r' db ∧ roomFor k r' ∧ (∀ id, res = Ok id → is_u64 id).
Proof.
  intros (H1 & H2 & H3) (n & Hg & Hn & Hk) Hk0. unfold GenerateNextAccID.
  pose proof (incr_get r RedisKeyIDs n Hg ltac:(lia)) as Ei.
  assert (Hnew : cacheOk (SET RedisKeyIDs (Itoa (n + 1)) r) db ∧ roomFor k (SET RedisKeyIDs (Itoa (n + 1)) r)).
  { split; [unfold cacheOk; splits|].
    - intros id. rewrite get_set_key; auto.
    - intros b s Hs. rewrite get_set_key in Hs by auto. eauto.
    - intros id s Hs. rewrite hget_set in Hs by auto. eauto.
    - exists (n + 1). rewrite get_set. splits; [done|lia|lia]. }
  destruct Hnew as [Hc Hr].
  destruct o; unfold Eval; rewrite ?Ei; cbn; intros [= <- <-]; splits; try done; [intros id [= <-]; apply u64_range|].
  exists n. splits; [done|lia|lia].
Qed.

Lemma insert_ok i acc b db db' err :
  Binds acc = [b] → is_u64 (AccID acc) → dbOk db → InsertOne i acc db = (db', err) →
  dbOk db' ∧ (db' = db ∨ db' = acc :: db) ∧ (err = None → db' = acc :: db).
Proof.
  intros Hb Hid [Hu Hn]. unfold InsertOne. destruct (existsb _ db) eqn:Ee.
  { destruct i as [|[]]; intros [= <- <-]; splits; auto; done. }
  assert (Hacc : dbOk (acc :: db)).
  { split; [by constructor|]. rewrite bind_cons, Hb. cbn. constructor; [|done].
    intros (d & Hd & Hbd)%list_elem_of_bind. apply Bool.not_true_iff_false in Ee. apply Ee.
    apply existsb_exists. exists d. split; [by apply list_elem_of_In|]. unfold conflicts. rewrite Hb. cbn.
    rewrite (bool_decide_true (b ∈ Binds d)) by done. by rewrite orb_true_r. }
  destruct i as [|[]]; intros [= <- <-]; splits; auto; done.
Qed.

(** What loading establishes from the stores before to those after. *)
Definition loadOk (db : list Account) (x : R * list Account * list loadOut) : Prop :=
  let '(r', db', outs) := x in
  cacheOk r' db' ∧ dbOk db' ∧ (∀ b id, boundTo db b id → boundTo db' b id) ∧ Forall (rightAccount db') outs.

Lemma registerLoop_ok calls batch r db r' db' outs succ :
  cacheOk r db → dbOk db → roomFor (len batch) r → registerLoop calls batch r db = (r', db', outs, succ) →
  loadOk db (r', db', outs) ∧ Forall (λ x, boundTo db' (lm_BindAcc x.1) (AccID x.2)) succ.
Proof.
  revert calls r db r' db' outs succ. induction batch as [|req batch IH]; intros calls r db r' db' outs succ Hc Hd Hr E; cbn in E.
  { simplify_eq. split; [|by constructor]. by cbn; splits. }
  rewrite len_cons, Z.add_comm in Hr. destruct (hd _ calls) as [o i]. destruct (GenerateNextAccID o r) as [r1 res] eqn:Eg.
  destruct (generate_ok _ _ _ _ _ _ Hc Hr (len_nonneg _) Eg) as (Hc1 & Hr1 & Hid). destruct res as [id|e].
  - destruct (InsertOne i _ db) as [db1 err] eqn:Ei.
    destruct (insert_ok i (mkAcc id false 0 0 0 [lm_BindAcc req] EmptyString) (lm_BindAcc req) db db1 err eq_refl (Hid id eq_refl) Hd Ei) as (Hd1 & Hdb & Hnew).
    destruct (registerLoop (tl calls) batch r1 db1) as [[[r2 db2] outs2] succ2] eqn:El.
    assert (Hc' : cacheOk r1 db1) by (destruct Hdb as [->| ->]; [done|by apply cacheOk_mono]).
    assert (Hm : ∀ b j, boundTo db b j → boundTo db1 b j)
      by (destruct Hdb as [->| ->]; [done|intros; by apply boundTo_mono]).
    destruct (IH _ _ _ _ _ _ _ Hc' Hd1 Hr1 El) as [(HA & HB & HC & HD) HE].
    destruct err as [dup|]; simplify_eq; (split; [cbn; splits; [done|done|by auto|]|]); try done.
    + by constructor.
    + constructor; [|done]. cbn. apply HC. rewrite Hnew by done.
      eexists. split; [left|]. cbn. split; [done|left].
  - destruct (registerLoop (tl calls) batch r1 db) as [[[r2 db2] outs2] succ2] eqn:El.
    destruct (IH _ _ _ _ _ _ _ Hc1 Hd Hr1 El) as [(HA & HB & HC & HD) HE]. simplify_eq.
    split; [|done]. cbn. splits; try done. by constructor.
Qed.

Lemma MarshalBinds_id acc : AccID (MarshalBinds acc).1 = AccID acc.
Proof. unfold MarshalBinds. by destruct (Binds acc). Qed.

Lemma register_ok env batch r db :
  cacheOk r db → dbOk db → roomFor (len batch) r → loadOk db (registerNewAccounts env batch r db).
Proof.
  intros Hc Hd Hr. unfold registerNewAccounts.
  destruct (registerLoop (regCalls env) batch r db) as [[[r1 db1] o1] succ] eqn:El.
  destruct (registerLoop_ok _ _ _ _ _ _ _ _ Hc Hd Hr El) as [(HA & HB & HC & HD) HE].
  pose proof (accCmds_ok (regFlags env) registerCmds ((λ x, (lm_BindAcc x.1, x.2)) <$> succ) r1 db1 (GET RedisKeyIDs r1)) as Hp.
  rewrite <- list_fmap_compose in Hp. destruct Hp as [Hp _]; [by right| |done|].
  { apply Forall_fmap. by eapply Forall_impl; [exact HE|]. }
  cbn. splits; [done|done|done|]. apply Forall_app. split; [done|]. apply Forall_fmap.
  eapply Forall_impl; [exact HE|]. intros [req acc] Hb.
  change (boundTo db1 (lm_BindAcc req) (AccID (MarshalBinds acc).1)). by rewrite MarshalBinds_id.
Qed.

Lemma Scan_keeps fs get a : "acc_id" ∉ fs → AccID (Scan fs get a).1 = AccID a ∧ Binds (Scan fs get a).1 = Binds a.
Proof.
  revert a. induction fs as [|f fs IH]; intros a Hf; [done|]. apply not_elem_of_cons in Hf as [Hne Hf]. cbn.
  destruct (get f) as [v|]; [|by apply IH]. destruct (scanField f v a) as [a'|] eqn:E; [|done].
  destruct (IH a' Hf) as [-> ->]. pose proof (proj2 (tagged_AccID _ _ _ _ E) ltac:(congruence)) as ->. split; [done|].
  clear -E. revert E. scanfield; repeat match goal with
    | H : _ <$> _ = Some _ |- _ => apply fmap_Some in H as (? & ? & ->) end; intros; by simplify_eq.
Qed.

Lemma bindMap_Some accs b acc : bindMap accs !! b = Some acc → acc ∈ accs ∧ b ∈ Binds acc.
Proof.
  unfold bindMap. assert (Hin : ∀ bs (m : gmap string Account) a, fold_left (λ m b, <[b := a]> m) bs m !! b = Some acc →
    (acc = a ∧ b ∈ bs) ∨ m !! b = Some acc).
  { induction bs as [|c bs IH]; intros m a E; [by right|]. cbn in E. apply IH in E as [[-> ?]|E]; [left; split; [done|by right]|].
    apply lookup_insert_Some in E as [[-> ->]|[_ E]]; [left; split; [done|left]|by right]. }
  assert (Hall : ∀ accs (m : gmap string Account),
    fold_left (λ m a, fold_left (λ m b, <[b := a]> m) (Binds a) m) accs m !! b = Some acc →
    (acc ∈ accs ∧ b ∈ Binds acc) ∨ m !! b = Some acc).
  { induction accs0 as [|a accs0 IH]; intros m E; [by right|]. cbn in E. apply IH in E as [[? ?]|E].
    - left. split; [by right|done].
    - apply Hin in E as [[-> ?]|E]; [left; split; [left|done]|by right]. }
  intros E. apply Hall in E as [?|E]; [done|]. by rewrite lookup_empty in E.
Qed.

Lemma rightAccount_grow db db' o :
  (∀ b id, boundTo db b id → boundTo db' b id) → rightAccount db o → rightAccount db' o.
Proof. intros Hm. destruct o as [[]|]; cbn; auto. Qed.

Lemma loadOk_app db r db' outs outs' :
  Forall (rightAccount db) outs → loadOk db (r, db', outs') → loadOk db (r, db', outs ++ outs').
Proof.
  intros Ho (HA & HB & HC & HD). cbn. splits; try done. apply Forall_app. split; [|done].
  eapply Forall_impl; [exact Ho|]. intros o. by apply rightAccount_grow.
Qed.

Lemma failAll_ok db r (batch : list loginMsg) code :
  cacheOk r db → dbOk db → loadOk db (r, db, (λ op, inr (sendLoginFailure op code) : loadOut) <$> batch).
Proof. intros Hc Hd. cbn. splits; try done. apply Forall_fmap, Forall_true. done. Qed.

(** The accounts found, with the state filled in. *)
Lemma enriched_bound env r db keys b acc :
  bindMap (zip_with (λ acc c, match c with RVal get => (Scan StateFields get acc).1 | _ => acc end) (Find keys db)
    ((λ acc, if stateFails env (AccID acc) then RErr else RVal (λ f, HGET (KeyAccount (AccID acc)) f r)) <$> Find keys db))
    !! b = Some acc → boundTo db b (AccID acc).
Proof.
  rewrite zip_with_fmap_r, zip_with_diag. intros [Ha Hb]%bindMap_Some.
  apply list_elem_of_fmap in Ha as (f & -> & Hf). unfold Find in Hf.
  apply list_elem_of_fmap in Hf as (d & -> & [_ Hd]%list_elem_of_filter). exists d. split; [done|].
  destruct (stateFails env _); [done|]. destruct (Scan_keeps StateFields (λ f, HGET (KeyAccount (AccID d)) f r)
    (mkAcc (AccID d) (Freeze d) 0 0 0 (Binds d) EmptyString) ltac:(dec)) as [E1 E2]. cbn [AccID Binds] in *.
  rewrite E2 in Hb. by rewrite E1.
Qed.

Lemma loadDB_ok env batch r db :
  cacheOk r db → dbOk db → roomFor (len batch) r → loadOk db (loadAccountsFromDB env batch r db).
Proof.
  intros Hc Hd Hr. unfold loadAccountsFromDB. destruct (findFails env); [by apply failAll_ok|].
  destruct (execFails _); [by apply failAll_ok|]. pose proof (enriched_bound env r db (lm_BindAcc <$> batch)) as Hb.
  set (res := bindMap _) in *. set (upd := omap _ batch). set (r1 := if decide (upd = []) then r else _).
  assert (Hr1 : cacheOk r1 db ∧ GET RedisKeyIDs r1 = GET RedisKeyIDs r).
  { unfold r1. case_decide; [done|]. unfold syncAccountsToCache. apply (accCmds_ok _ syncCmds); [by left| |done].
    apply Forall_forall. intros [b acc] (op & Hop & E)%list_elem_of_omap.
    apply fmap_Some in E as (acc' & E & ?). simplify_eq. cbn. by apply Hb. }
  clearbody r1. destruct Hr1 as [Hc1 Hg1]. set (outs := omap _ batch).
  assert (Ho : Forall (rightAccount db) outs).
  { apply Forall_forall. intros o (op & Hop & E)%list_elem_of_omap.
    apply fmap_Some in E as (acc & E & ->). change (boundTo db (lm_BindAcc op) (AccID (MarshalBinds acc).1)).
    rewrite MarshalBinds_id. by apply Hb. }
  case_decide; [cbn; by splits|].
  assert (Hreg : loadOk db (registerNewAccounts env (filter (λ op, res !! lm_BindAcc op = None) batch) r1 db)).
  { apply register_ok; [done|done|]. eapply roomFor_same; [exact Hg1| |exact Hr].
    unfold len. pose proof (length_filter (λ op, res !! lm_BindAcc op = None) batch). lia. }
  destruct (registerNewAccounts _ _ _ _) as [[r2 db2] outs2]. by apply loadOk_app.
Qed.

Lemma replyID_bound env r db op id :
  cacheOk r db → dbOk db → replyID (bindReply env r op) = Some id → boundTo db (lm_BindAcc op) id.
Proof.
  intros (_ & H2 & _) [Hu _]. unfold bindReply. destruct (bindFails env _); [done|].
  destruct (GET _ r) as [v|] eqn:E; [|done]. cbn. intros Hv. destruct (H2 _ _ E) as (j & -> & Hb).
  destruct Hb as (d & Hd & <- & Hbd). pose proof (proj1 (Forall_forall _ _) Hu _ Hd) as Hj.
  rewrite parseUint_Itoa in Hv by (by width). simplify_eq. by exists d.
Qed.

Lemma replyAcc_id env r db id acc :
  cacheOk r db → is_u64 id → replyAcc (accReply env r id) = Some acc → AccID acc = id.
Proof.
  intros (_ & _ & H3) Hid. unfold accReply. destruct (accFails env id); [done|]. unfold replyAcc.
  destruct (Scan AccFields (λ f, HGET (KeyAccount id) f r) zeroAccount) as [a ok] eqn:E. destruct ok; [|done]. cbn.
  case_bool_decide as Hpos; [|done]. intros [= <-].
  assert (Hn : NoDup AccFields) by dec. assert (Hin : "acc_id" ∈ AccFields) by left.
  pose proof (Scan_proj _ _ _ _ _ _ _ tagged_AccID Hn Hin E) as Hs. cbn beta in Hs.
  destruct (HGET (KeyAccount id) "acc_id" r) as [v|] eqn:Ev; [|cbn in Hs; lia].
  apply H3 in Ev as ->. rewrite parseUint_Itoa in Hs by (by width). injection Hs as Hs.
  unfold UnmarshalBinds. case_decide; cbn; by rewrite <- Hs.
Qed.

Lemma length_omap_filter {A B} (P : A → Prop) `{!∀ x, Decision (P x)} (f : A → option B) l :
  (∀ x, P x ↔ f x = None) → (length (omap f l) + length (filter P l) = length l)%nat.
Proof.
  intros HP. induction l as [|x l IH]; [done|]. cbn [omap list_omap]. destruct (f x) as [y|] eqn:E.
  - rewrite filter_cons_False by (rewrite HP; congruence). cbn. lia.
  - rewrite filter_cons_True by by apply HP. cbn. lia.
Qed.

Lemma loadCache_ok env batch r db :
  (∀ l, mapOrder env l ≡ₚ l) →
  cacheOk r db → dbOk db → roomFor (len batch) r → loadOk db (loadAccountsFromCache env batch r db).
Proof.
  intros Hord Hc Hd Hr. unfold loadAccountsFromCache. destruct (execFails _); [by apply loadDB_ok|].
  set (f := λ op, (λ id, (op, id)) <$> replyID (bindReply env r op)).
  destruct (_ && _); [by apply loadDB_ok|]. set (cmds := mapOrder env (omap f batch)).
  assert (Hcmds : ∀ x, x ∈ cmds → boundTo db (lm_BindAcc x.1) x.2).
  { intros x Hx. unfold cmds in Hx. rewrite Hord in Hx. apply list_elem_of_omap in Hx as (op & _ & E).
    unfold f in E. apply fmap_Some in E as (id & E & ->). by eapply replyID_bound. }
  set (outs := omap _ cmds). assert (Ho : Forall (rightAccount db) outs).
  { apply Forall_forall. intros o (x & Hx & E)%list_elem_of_omap. apply fmap_Some in E as (acc & E & ->). cbn.
    apply Hcmds in Hx as Hb. destruct Hb as (d & Hin & Hid & Hbd). destruct Hd as [Hu Hn].
    assert (is_u64 x.2) as H64 by (rewrite <- Hid; by apply (proj1 (Forall_forall _ _) Hu)).
    rewrite (replyAcc_id _ _ _ _ _ Hc H64 E). by exists d. }
  set (rest := filter _ batch). set (rest2 := filter _ cmds). case_decide; [cbn; by splits|].
  assert (Hdb : loadOk db (loadAccountsFromDB env (rest ++ rest2.*1) r db)).
  { apply loadDB_ok; [done|done|]. eapply roomFor_same; [reflexivity| |exact Hr].
    pose proof (length_omap_filter (λ op, replyID (bindReply env r op) = None) f batch) as Hl. fold rest in Hl.
    assert (length rest2 ≤ length cmds)%nat by apply length_filter.
    unfold cmds in *. rewrite (Permutation_length (Hord _)) in *. unfold len. rewrite length_app, length_fmap.
    specialize (Hl ltac:(intros op; unfold f; by rewrite fmap_None)). lia. }
  destruct (loadAccountsFromDB _ _ _ _) as [[r2 db2] outs2]. by apply loadOk_app.
Qed.

Lemma dedup_ok db seen batch :
  Forall (rightAccount db) (dedup seen batch).1 ∧ (length (dedup seen batch).2 ≤ length batch)%nat.
Proof.
  revert seen. induction batch as [|req batch IH]; intros seen; cbn; [by split; [constructor|]|].
  case_decide.
  - specialize (IH seen). destruct (dedup seen batch) as [o u]. cbn in *. destruct IH. split; [by constructor|lia].
  - specialize (IH (lm_BindAcc req :: seen)). destruct (dedup _ batch) as [o u]. cbn in *. destruct IH. split; [done|lia].
Qed.

Lemma loaderFlush_ok env batch r db r' db' outs :
  (∀ l, mapOrder env l ≡ₚ l) → cacheOk r db → dbOk db → roomFor (len batch) r →
  loaderFlush env batch r db = (r', db', outs) → loadOk db (r', db', outs).
Proof.
  intros Hord Hc Hd Hr. unfold loaderFlush. case_decide; [intros [= <- <- <-]; cbn; by splits|].
  pose proof (dedup_ok db [] batch) as [Ho Hl]. destruct (dedup [] batch) as [o u]. cbn in Ho, Hl.
  assert (Hload : loadOk db (loadAccountsFromCache env u r db)).
  { apply loadCache_ok; [done..|]. eapply roomFor_same; [reflexivity| |exact Hr]. unfold len. lia. }
  destruct (loadAccountsFromCache _ _ _ _) as [[r1 db1] o1]. intros [= <- <- <-]. by apply loadOk_app.
Qed.

(** C16. A login is finalized on the account its name is bound to: when the cache agrees
    with the database, a flush of a loader, whichever of its Redis and database calls
    fail, hands every request it accepts over with the one account of the database that
    is bound to the request's key (newly registered if there was none), keeps every
    binding, never binds a key twice, and leaves the cache in agreement. *)
Theorem login_finds_its_account env batch r db r' db' outs :
  (∀ l, mapOrder env l ≡ₚ l) → cacheOk r db → dbOk db → roomFor (len batch) r →
  loaderFlush env batch r db = (r', db', outs) →
  cacheOk r' db' ∧ dbOk db' ∧ (∀ b id, boundTo db b id → boundTo db' b id) ∧
  ∀ acc req, inl (OpAfterSDKCheck acc req) ∈ outs → boundTo db' (lm_BindAcc req) (AccID acc).
Proof.
  intros Hord Hc Hd Hr E. destruct (loaderFlush_ok _ _ _ _ _ _ _ Hord Hc Hd Hr E) as (HA & HB & HC & HD). splits; try done.
  intros acc req Hin. by apply (proj1 (Forall_forall _ _) HD) in Hin.
Qed.

End Coherence.

Lemma login_finds_its_account_witness :
  ∃ r' db' outs acc,
    loaderFlush demoEnv [setBindAcc demoReq] (mkRdb ∅ {[ RedisKeyIDs := "100000" ]}) [] = (r', db', outs) ∧
    inl (OpAfterSDKCheck acc (setBindAcc demoReq)) ∈ outs ∧ boundTo db' "0@bob" (AccID acc).
Proof.
  eexists _, _, _, _. split; [vm_compute; reflexivity|]. split; [left|].
  edestruct (login_finds_its_account demoEnv [setBindAcc demoReq] (mkRdb ∅ {[ RedisKeyIDs := "100000" ]}) [])
    as (_ & _ & _ & Hx).
  - done.
  - unfold cacheOk. splits.
    + intros id. cbn. rewrite lookup_insert_ne; [done|]. apply not_eq_sym, KeyAccount_IDs.
    + intros b s. cbn. rewrite lookup_insert_ne; [done|]. apply not_eq_sym, KeyAccBind_IDs.
    + done.
  - split; constructor.
  - exists 100000. splits; [reflexivity|lia|reflexivity].
  - vm_compute. reflexivity.
  - apply (Hx _ (setBindAcc demoReq)). left.
Defined.
