(* ===== verification/AccDebug.v ===== *)
(** * internal/account/auth: the self check of debug builds, and binding another channel

    A build with [util.Debug] keeps a record per account that logs in and, after each
    login, compares what it finalized with the database and with the cache; a difference
    ends the process. [BindNewSDK] binds one more name to an account. *)

From S2P Require Import Prelude DataBus Redis Account AccLoader.

(** ** debug.go *)

Definition debugAccKey (typ : Z) (acc : string) : string := Itoa typ +:+ ":" +:+ acc.

Record debugCheck := mkDC { dc_Ok : bool; dc_SesID : Z }.
(** [debugAcc] and the count of [debugWait]. *)
Record debugState := mkDS { debugAcc : gmap string debugCheck; debugWait : Z }.

(** How a call ends: it returns, or it ends the process, by [Fatal] or by a panic. *)
Inductive checked := Returned (s : debugState) | Fatal (what : string) | Panicked.

Section Debug.
Context {R : Type} `{RedisOps R} (Debug : bool).

Definition DebugAddWait (s : debugState) : debugState := if Debug then mkDS (debugAcc s) (debugWait s + 1) else s.

Definition DebugAdd (req : loginMsg) (s : debugState) : debugState :=
  if Debug then mkDS (<[debugAccKey (lm_SdkType req) (lm_Account req) := mkDC false (lm_SesID req)]> (debugAcc s)) (debugWait s)
  else s.

(** [FindOne] with the binding; [findErr]: it failed. *)
Definition loadAccIDInDB (findErr : bool) (account : string) (sdk : Z) (db : list Account) : Z :=
  if findErr then 0
  else match filter (λ d, FormatBindKey sdk account ∈ Binds d) db with
       | d :: _ => AccID d
       | [] => AccID zeroAccount
       end.

(** [None]: [Fatal]. The error of the scan is not looked at. *)
Definition loadAccInCache (getErr hmgetErr : bool) (account : string) (sdk : Z) (r : R) : option (Z * bool) :=
  if getErr then None else
  accID ← GET (KeyAccBind (FormatBindKey sdk account)) r ≫= parseUint 64;
  if hmgetErr then None else
  let acc := (Scan AccFields (λ f, HGET (KeyAccount accID) f r) zeroAccount).1 in
  Some (accID, bool_decide (AccID acc = accID)).

(** [acc] is the nil pointer when the login failed. *)
Definition DebugCheck (findErr getErr hmgetErr : bool) (req : loginMsg) (success : bool) (acc : option Account)
    (r : R) (db : list Account) (s : debugState) : checked :=
  if negb Debug then Returned s
  else if decide (debugWait s - 1 < 0) then Panicked
  else match debugAcc s !! debugAccKey (lm_SdkType req) (lm_Account req) with
       | None => Fatal "not exist"
       | Some chk =>
           let s := mkDS (<[debugAccKey (lm_SdkType req) (lm_Account req) := mkDC success (dc_SesID chk)]> (debugAcc s)) (debugWait s - 1) in
           if negb success then Returned s
           else match acc with
                | None => Panicked
                | Some acc =>
                    let accIDInDB := loadAccIDInDB findErr (lm_Account req) (lm_SdkType req) db in
                    if decide (accIDInDB ≠ AccID acc) then Fatal "db not match"
                    else match loadAccInCache getErr hmgetErr (lm_Account req) (lm_SdkType req) r with
                         | None => Fatal "loadAccInCache"
                         | Some (accIDInCache, bindOk) =>
                             if negb bindOk then Fatal "bind not exist"
                             else if decide (accIDInCache ≠ accIDInDB) then Fatal "cache not match" else Returned s
                         end
                end
       end.

(** [HandleLoginRequest] in a debug build as far as the record goes: the login is counted,
    and if the event queue is full it is answered at once, which checks it. *)
Definition HandleLoginRequest_debug (full : bool) (req : loginMsg) (r : R) (db : list Account) (s : debugState) : checked :=
  let req := setBindAcc req in
  let s := DebugAddWait s in
  if full then DebugCheck false false false req false None r db s else Returned s.

(** ** acc.go: BindNewSDK *)

(** How [UpdateOne] ends: answered (done, or refused as a duplicate), or failed with the
    update applied or not; an update the unique index refuses is never applied. *)
Inductive updOutcome := UpdRun | UpdErr (applied : bool).

(** [$addToSet] on the account with this id, under the unique index on ["binds"]; [Some
    true] is a duplicate key. Without such an account nothing is updated, which is no error. *)
Definition addBind (key : string) (d : Account) : Account :=
  mkAcc (AccID d) (Freeze d) (acc_GameID d) (acc_Seq d) (Passwd d)
    (if decide (key ∈ Binds d) then Binds d else Binds d ++ [key]) (BindsJSON d).
Fixpoint updateFirst (accID : Z) (key : string) (db : list Account) : list Account :=
  match db with
  | [] => []
  | d :: db => if decide (AccID d = accID) then addBind key d :: db else d :: updateFirst accID key db
  end.
Definition UpdateOne (o : updOutcome) (accID : Z) (key : string) (db : list Account) : list Account * option bool :=
  let dup := existsb (λ d, bool_decide (AccID d ≠ accID ∧ key ∈ Binds d)) db &&
             existsb (λ d, bool_decide (AccID d = accID)) db in
  match o with
  | UpdRun => if dup then (db, Some true) else (updateFirst accID key db, None)
  | UpdErr applied => (if applied && negb dup then updateFirst accID key db else db, Some false)
  end.

(** [piped]: whether the pipeline ran; its error is dropped. *)
Definition BindNewSDK (o : updOutcome) (piped : bool) (accID newSdkType : Z) (newSdkID : string) (r : R) (db : list Account)
    : R * list Account * go_error :=
  let newBindKey := FormatBindKey newSdkType newSdkID in
  match UpdateOne o accID newBindKey db with
  | (db, Some true) => (r, db, Some (ErrMsg "bound to another role"))
  | (db, Some false) => (r, db, Some (ErrMsg "mongo"))
  | (db, None) => (if piped then SET (KeyAccBind newBindKey) (Itoa accID) r else r, db, None)
  end.

End Debug.

(** ** What is cached *)

#[local] Hint Resolve KeyAccount_Bind KeyAccount_IDs KeyAccBind_IDs not_eq_sym : core.

Section Check.
Context {R : Type} `{RedisLaws R}.

(** The binding and the id of an account are in the cache. *)
Definition cached (r : R) (b : string) (id : Z) : Prop :=
  is_Some (GET (KeyAccBind b) r) ∧ is_Some (HGET (KeyAccount id) "acc_id" r).
(** No account key holds a string. *)
Definition plainKeys (r : R) : Prop := ∀ id, GET (KeyAccount id) r = None.
(** From [r] to [r'] nothing cached is lost. *)
Definition keeps (r r' : R) : Prop := plainKeys r → plainKeys r' ∧ ∀ b id, cached r b id → cached r' b id.

Lemma cache_keeps_refl r : keeps r r.
Proof. by intros ?. Qed.
Lemma cache_keeps_trans r1 r2 r3 : keeps r1 r2 → keeps r2 r3 → keeps r1 r3.
Proof. intros H1 H2 H3. destruct (H1 H3) as [H4 H5]. destruct (H2 H4) as [H6 H7]. auto. Qed.

Lemma keeps_hset r id kvs : NoDup kvs.*1 → keeps r (HSET (KeyAccount id) kvs r).
Proof.
  intros Hn Hp. split; [intros j; by apply get_hset|]. intros b j [Hb Hh]. split.
  - by rewrite get_hset_key by done.
  - destruct (decide (id = j)) as [->|Hne]; [|rewrite hget_hset_key; [done|]; by intros ?%KeyAccount_inj].
    destruct (decide ("acc_id" ∈ kvs.*1)) as [Hin|Hin]; [|rewrite hget_hset_field; [done|apply Hp|done]].
    apply list_elem_of_fmap in Hin as ([f v] & -> & Hin). eexists. apply hget_hset; [apply Hp|done|exact Hin].
Qed.

Lemma keeps_set r k v : (∀ id, KeyAccount id ≠ k) → keeps r (SET k v r).
Proof.
  intros Hk Hp. split; [intros id; rewrite get_set_key; auto|]. intros b id [Hb Hh]. split.
  - destruct (decide (k = KeyAccBind b)) as [->|Hne]; [rewrite get_set; by eexists|by rewrite get_set_key].
  - by rewrite hget_set by auto.
Qed.

Lemma keeps_expire r k : keeps r (EXPIRE k r).
Proof.
  intros Hp. split; [intros id; by rewrite get_expire|]. intros b id Hb. unfold cached. by rewrite get_expire, hget_expire.
Qed.

(** The writes of a pipeline that is not cut short: nothing is lost and every account
    written is cached. *)
Lemma pipe_cached (mk : string → Account → list (R → R)) (l : list (string * Account)) r :
  (∀ b acc, mk b acc = syncCmds b acc ∨ mk b acc = registerCmds b acc) → plainKeys r →
  keeps r (runPipe [] (mjoin ((λ x, mk x.1 x.2) <$> l)) r) ∧
  ∀ x, x ∈ l → cached (runPipe [] (mjoin ((λ x, mk x.1 x.2) <$> l)) r) x.1 (AccID x.2).
Proof.
  intros Hmk. revert r. induction l as [|[b acc] l IH]; intros r Hp; [by split; [apply cache_keeps_refl|intros x ?%elem_of_nil]|].
  assert (Hhead : ∃ kvs, NoDup kvs.*1 ∧ ("acc_id", Itoa (AccID acc)) ∈ kvs ∧
    mk b acc = [HSET (KeyAccount (AccID acc)) kvs; EXPIRE (KeyAccount (AccID acc)); SET (KeyAccBind b) (Itoa (AccID acc))]).
  { destruct (Hmk b acc) as [->| ->]; eexists; (split; [|split; [|reflexivity]]); [cbn [fmap list_fmap fst]; dec|left|cbn [fmap list_fmap fst]; dec|left]. }
  destruct Hhead as (kvs & Hn & Hin & E). change ((b, acc) :: l) with ([(b, acc)] ++ l). rewrite fmap_app, join_app.
  cbn [fmap list_fmap mjoin list_join fst snd]. rewrite E. cbn [app runPipe hd tl].
  set (r0 := HSET (KeyAccount (AccID acc)) kvs r). set (r1 := EXPIRE _ r0). set (r2 := SET (KeyAccBind b) (Itoa (AccID acc)) r1).
  assert (K : keeps r r2).
  { eapply cache_keeps_trans; [by apply keeps_hset|]. eapply cache_keeps_trans; [apply keeps_expire|apply keeps_set]. auto. }
  assert (C : cached r2 b (AccID acc)).
  { split; [unfold r2; rewrite get_set; by eexists|]. unfold r2, r1. rewrite hget_set, hget_expire by auto. eexists. apply hget_hset; [apply Hp|done..]. }
  destruct (K Hp) as [Hp2 _]. destruct (IH r2 Hp2) as [K2 C2]. split; [by eapply cache_keeps_trans|].
  intros x [->|Hx]%elem_of_cons; [|by apply C2]. by apply (K2 Hp2).
Qed.

Definition outCached (r : R) (o : loadOut) : Prop :=
  match o with inl (OpAfterSDKCheck acc req) => cached r (lm_BindAcc req) (AccID acc) | _ => True end.

Lemma outCached_keeps r r' outs : plainKeys r → keeps r r' → Forall (outCached r) outs → Forall (outCached r') outs.
Proof.
  intros Hp Hk Ho. eapply Forall_impl; [exact Ho|]. intros [[]|]; cbn; try done. by apply Hk.
Qed.

Lemma generate_keeps o r k r' res : roomFor (k + 1) r → 0 ≤ k → GenerateNextAccID o r = (r', res) → keeps r r'.
Proof.
  intros (n & Hg & Hn & Hk) Hk0. unfold GenerateNextAccID. pose proof (incr_get r RedisKeyIDs n Hg ltac:(lia)) as Ei.
  assert (Hs : keeps r (SET RedisKeyIDs (Itoa (n + 1)) r)) by (apply keeps_set; auto).
  destruct o; unfold Eval; rewrite ?Ei; cbn; intros [= <- <-]; [done..|apply cache_keeps_refl].
Qed.

Lemma registerLoop_keeps calls batch r db r' db' outs succ :
  cacheOk r db → dbOk db → roomFor (len batch) r → registerLoop calls batch r db = (r', db', outs, succ) →
  keeps r r' ∧ ∀ r, Forall (outCached r) outs.
Proof.
  revert calls r db r' db' outs succ. induction batch as [|req batch IH]; intros calls r db r' db' outs succ Hc Hd Hr E; cbn in E.
  { simplify_eq. split; [apply cache_keeps_refl|]. intros. constructor. }
  rewrite len_cons, Z.add_comm in Hr. destruct (hd _ calls) as [o i]. destruct (GenerateNextAccID o r) as [r1 res] eqn:Eg.
  destruct (generate_ok _ _ _ _ _ _ Hc Hr (len_nonneg _) Eg) as (Hc1 & Hr1 & Hid).
  pose proof (generate_keeps _ _ _ _ _ Hr (len_nonneg _) Eg) as K. destruct res as [id|e].
  - destruct (InsertOne i _ db) as [db1 err] eqn:Ei.
    destruct (insert_ok i (mkAcc id false 0 0 0 [lm_BindAcc req] EmptyString) (lm_BindAcc req) db db1 err eq_refl (Hid id eq_refl) Hd Ei) as (Hd1 & Hdb & _).
    assert (Hc' : cacheOk r1 db1) by (destruct Hdb as [->| ->]; [done|by apply cacheOk_mono]).
    destruct (registerLoop (tl calls) batch r1 db1) as [[[r2 db2] outs2] succ2] eqn:El.
    destruct (IH _ _ _ _ _ _ _ Hc' Hd1 Hr1 El) as [K2 O2].
    destruct err as [dup|]; simplify_eq; (split; [by eapply cache_keeps_trans|intros; try constructor; done]).
  - destruct (registerLoop (tl calls) batch r1 db) as [[[r2 db2] outs2] succ2] eqn:El.
    destruct (IH _ _ _ _ _ _ _ Hc1 Hd Hr1 El) as [K2 O2]. simplify_eq.
    split; [by eapply cache_keeps_trans|intros; constructor; done].
Qed.

Lemma register_cached env batch r db r' db' outs :
  regFlags env = [] → cacheOk r db → dbOk db → roomFor (len batch) r →
  registerNewAccounts env batch r db = (r', db', outs) → keeps r r' ∧ Forall (outCached r') outs.
Proof.
  intros Hf Hc Hd Hr. unfold registerNewAccounts.
  destruct (registerLoop (regCalls env) batch r db) as [[[r1 db1] o1] succ] eqn:El.
  destruct (registerLoop_keeps _ _ _ _ _ _ _ _ Hc Hd Hr El) as [K O].
  destruct (registerLoop_ok _ _ _ _ _ _ _ _ Hc Hd Hr El) as [((Hp1 & _) & _) _].
  rewrite Hf. pose proof (pipe_cached registerCmds ((λ x, (lm_BindAcc x.1, x.2)) <$> succ) r1 ltac:(by right) Hp1) as [K1 C1].
  rewrite <- list_fmap_compose in K1, C1. intros [= <- <- <-]. split; [by eapply cache_keeps_trans|].
  apply Forall_app. split; [apply O|]. apply Forall_fmap, Forall_forall. intros [req acc] Hx.
  change (cached (runPipe [] (mjoin ((λ x, registerCmds (lm_BindAcc x.1) x.2) <$> succ)) r1) (lm_BindAcc req) (AccID (MarshalBinds acc).1)).
  rewrite MarshalBinds_id. apply (C1 (lm_BindAcc req, acc)). apply list_elem_of_fmap. by exists (req, acc).
Qed.

Lemma loadDB_cached env batch r db r' db' outs :
  syncFlags env = [] → regFlags env = [] → cacheOk r db → dbOk db → roomFor (len batch) r →
  loadAccountsFromDB env batch r db = (r', db', outs) → keeps r r' ∧ Forall (outCached r') outs.
Proof.
  intros Hsf Hrf Hc Hd Hr. unfold loadAccountsFromDB.
  assert (Hfail : ∀ (r : R) (batch : list loginMsg), Forall (outCached r) ((λ op, inr (sendLoginFailure op LCServerErr) : loadOut) <$> batch)).
  { intros. apply Forall_fmap, Forall_true. done. }
  destruct (findFails env); [intros [= <- <- <-]; split; [apply cache_keeps_refl|done]|].
  destruct (execFails _); [intros [= <- <- <-]; split; [apply cache_keeps_refl|done]|].
  pose proof (enriched_bound env r db (lm_BindAcc <$> batch)) as Hb.
  set (res := bindMap _) in *. set (upd := omap _ batch). set (r1 := if decide (upd = []) then r else _).
  assert (Hr1 : cacheOk r1 db ∧ GET RedisKeyIDs r1 = GET RedisKeyIDs r).
  { unfold r1. case_decide; [done|]. unfold syncAccountsToCache. apply (accCmds_ok _ syncCmds); [by left| |done].
    apply Forall_forall. intros [b acc] (op & Hop & E)%list_elem_of_omap.
    apply fmap_Some in E as (acc' & E & ?). simplify_eq. cbn. by apply Hb. }
  assert (HK : keeps r r1 ∧ ∀ x, x ∈ upd → cached r1 x.1 (AccID x.2)).
  { unfold r1. case_decide as Hu; [split; [apply cache_keeps_refl|]; rewrite Hu; by intros x ?%elem_of_nil|].
    unfold syncAccountsToCache. rewrite Hsf. apply (pipe_cached syncCmds); [by left|exact (proj1 Hc)]. }
  clearbody r1. destruct Hr1 as [Hc1 Hg1]. destruct HK as [K1 C1]. set (outs0 := omap _ batch).
  assert (Ho : Forall (outCached r1) outs0).
  { apply Forall_forall. intros o (op & Hop & E)%list_elem_of_omap. apply fmap_Some in E as (acc & E & ->).
    change (cached r1 (lm_BindAcc op) (AccID (MarshalBinds acc).1)). rewrite MarshalBinds_id.
    apply (C1 (lm_BindAcc op, acc)). apply list_elem_of_omap. exists op. split; [done|]. by rewrite E. }
  case_decide; [by intros [= <- <- <-]|].
  destruct (registerNewAccounts env _ r1 db) as [[r2 db2] outs2] eqn:Ereg.
  destruct (register_cached env (filter (λ op, res !! lm_BindAcc op = None) batch) r1 db r2 db2 outs2 Hrf Hc1 Hd) as [K2 O2]; [|done|].
  { eapply roomFor_same; [exact Hg1| |exact Hr]. unfold len.
    pose proof (length_filter (λ op, res !! lm_BindAcc op = None) batch). lia. }
  intros [= <- <- <-]. split; [by eapply cache_keeps_trans|]. apply Forall_app. split; [|done].
  eapply outCached_keeps; [exact (proj1 Hc1)|done..].
Qed.

Lemma replyAcc_cached env r db op id acc :
  cacheOk r db → replyID (bindReply env r op) = Some id → replyAcc (accReply env r id) = Some acc →
  is_u64 id → cached r (lm_BindAcc op) (AccID acc).
Proof.
  intros Hc Hi Ha Hid. rewrite (replyAcc_id _ _ _ _ _ Hc Hid Ha). split.
  - unfold bindReply in Hi. destruct (bindFails env _); [done|]. destruct (GET _ r); [by eexists|done].
  - unfold accReply in Ha. destruct (accFails env id); [done|]. unfold replyAcc in Ha.
    destruct (Scan AccFields _ zeroAccount) as [a ok] eqn:E. destruct ok; [|done]. cbn in Ha.
    destruct (HGET (KeyAccount id) "acc_id" r) as [v|] eqn:Ev; [by eexists|].
    assert (Hn : NoDup AccFields) by dec. assert (Hin : "acc_id" ∈ AccFields) by left.
    pose proof (Scan_proj _ _ _ _ _ _ _ tagged_AccID Hn Hin E) as Hs. cbn beta in Hs. rewrite Ev in Hs. cbn in Hs.
    case_bool_decide; [lia|done].
Qed.

Lemma loadCache_cached env batch r db r' db' outs :
  (∀ l, mapOrder env l ≡ₚ l) → syncFlags env = [] → regFlags env = [] → cacheOk r db → dbOk db → roomFor (len batch) r →
  loadAccountsFromCache env batch r db = (r', db', outs) → keeps r r' ∧ Forall (outCached r') outs.
Proof.
  intros Hord Hsf Hrf Hc Hd Hr. unfold loadAccountsFromCache. destruct (execFails _); [by apply loadDB_cached|].
  set (f := λ op, (λ id, (op, id)) <$> replyID (bindReply env r op)).
  destruct (_ && _); [by apply loadDB_cached|]. set (cmds := mapOrder env (omap f batch)).
  assert (Hcmds : ∀ x, x ∈ cmds → replyID (bindReply env r x.1) = Some x.2 ∧ is_u64 x.2).
  { intros x Hx. unfold cmds in Hx. rewrite Hord in Hx. apply list_elem_of_omap in Hx as (op & _ & E).
    unfold f in E. apply fmap_Some in E as (id & E & ->). split; [done|].
    destruct (replyID_bound _ _ _ _ _ Hc Hd E) as (d & Hin & <- & _). by apply (proj1 (Forall_forall _ _) (proj1 Hd)). }
  set (outs0 := omap _ cmds). assert (Ho : Forall (outCached r) outs0).
  { apply Forall_forall. intros o (x & Hx & E)%list_elem_of_omap. apply fmap_Some in E as (acc & E & ->).
    destruct (Hcmds x Hx) as [Ei Hu]. by eapply replyAcc_cached. }
  set (rest := filter _ batch). set (rest2 := filter _ cmds).
  case_decide; [intros [= <- <- <-]; split; [apply cache_keeps_refl|done]|].
  destruct (loadAccountsFromDB env (rest ++ rest2.*1) r db) as [[r2 db2] outs2] eqn:El.
  destruct (loadDB_cached env (rest ++ rest2.*1) r db r2 db2 outs2 Hsf Hrf Hc Hd) as [K O]; [|done|].
  { eapply roomFor_same; [reflexivity| |exact Hr].
    pose proof (length_omap_filter (λ op, replyID (bindReply env r op) = None) f batch) as Hl. fold rest in Hl.
    assert (length rest2 ≤ length cmds)%nat by apply length_filter.
    unfold cmds in *. rewrite (Permutation_length (Hord _)) in *. unfold len. rewrite length_app, length_fmap.
    specialize (Hl ltac:(intros op; unfold f; by rewrite fmap_None)). lia. }
  intros [= <- <- <-]. split; [done|]. apply Forall_app. split; [|done]. eapply outCached_keeps; [exact (proj1 Hc)|done..].
Qed.

Lemma dedup_cached (r : R) seen batch : Forall (outCached r) (dedup seen batch).1.
Proof.
  revert seen. induction batch as [|req batch IH]; intros seen; cbn; [constructor|]. case_decide.
  - specialize (IH seen). destruct (dedup seen batch) as [o u]. by constructor.
  - specialize (IH (lm_BindAcc req :: seen)). by destruct (dedup _ batch) as [o u].
Qed.

Lemma loaderFlush_cached env batch r db r' db' outs :
  (∀ l, mapOrder env l ≡ₚ l) → syncFlags env = [] → regFlags env = [] → cacheOk r db → dbOk db → roomFor (len batch) r →
  loaderFlush env batch r db = (r', db', outs) → Forall (outCached r') outs.
Proof.
  intros Hord Hsf Hrf Hc Hd Hr. unfold loaderFlush. case_decide; [intros [= <- <- <-]; constructor|].
  pose proof (dedup_ok db [] batch) as [_ Hl]. pose proof (λ r, dedup_cached r [] batch) as Ho. destruct (dedup [] batch) as [o u]. cbn in Ho, Hl.
  destruct (loadAccountsFromCache env u r db) as [[r1 db1] o1] eqn:E.
  destruct (loadCache_cached env u r db r1 db1 o1 Hord Hsf Hrf Hc Hd) as [_ C]; [|done|].
  { eapply roomFor_same; [reflexivity| |exact Hr]. unfold len. lia. }
  intros [= <- <- <-]. apply Forall_app. auto.
Qed.

(** ** The check *)

Lemma elem_of_db_unique (db : list Account) d d' b :
  NoDup (db ≫= Binds) → d ∈ db → d' ∈ db → b ∈ Binds d → b ∈ Binds d' → d = d'.
Proof.
  induction db as [|x db IH]; [by intros _ ?%elem_of_nil|]. rewrite bind_cons. intros (_ & Hdis & Hn)%NoDup_app.
  rewrite !elem_of_cons. intros [->|Hd] [->|Hd'] Hb Hb'; [done| | |by apply IH];
    exfalso; apply (Hdis b); [done| |done|]; apply list_elem_of_bind; eauto.
Qed.

Lemma boundTo_unique db b i j : dbOk db → boundTo db b i → boundTo db b j → i = j.
Proof. intros [_ Hn] (d & Hd & <- & Hb) (d' & Hd' & <- & Hb'). by rewrite (elem_of_db_unique db d d' b). Qed.

Lemma loadAccIDInDB_bound db sdk account id :
  dbOk db → boundTo db (FormatBindKey sdk account) id → loadAccIDInDB false account sdk db = id.
Proof.
  intros Hd Hb. unfold loadAccIDInDB. destruct (filter _ db) as [|d l] eqn:E.
  - destruct Hb as (d & Hin & _ & Hb). assert (Hf : d ∈ filter (λ d, FormatBindKey sdk account ∈ Binds d) db) by by apply list_elem_of_filter.
    rewrite E in Hf. by apply elem_of_nil in Hf.
  - assert (Hf : d ∈ filter (λ d, FormatBindKey sdk account ∈ Binds d) db) by (rewrite E; left).
    apply list_elem_of_filter in Hf as [Hk Hin]. eapply boundTo_unique; [done| |done]. by exists d.
Qed.

Lemma Scan_AccID get : AccID (Scan AccFields get zeroAccount).1 =
  match get "acc_id" with Some v => default 0 (parseUint 64 v) | None => 0 end.
Proof.
  set (fs := ["binds"; "freeze"; "game_id"; "seq"; "passwd"]).
  assert (Hk : ∀ a, AccID (Scan fs get a).1 = AccID a) by (intros a; apply Scan_keeps; dec).
  change (Scan AccFields get zeroAccount) with (Scan ("acc_id" :: fs) get zeroAccount). clearbody fs. cbn [Scan].
  destruct (get "acc_id") as [v|]; [|apply Hk]. unfold scanField. rewrite decide_True by done.
  destruct (parseUint 64 v) as [z|]; [|done]. apply Hk.
Qed.

Lemma loadAccInCache_cached r db sdk account id :
  cacheOk r db → dbOk db → boundTo db (FormatBindKey sdk account) id → is_u64 id →
  cached r (FormatBindKey sdk account) id → loadAccInCache false false account sdk r = Some (id, true).
Proof.
  intros (H1 & H2 & H3) Hd Hb Hid [[s Es] [v Ev]]. unfold loadAccInCache. rewrite Es.
  destruct (H2 _ _ Es) as (j & -> & Hj). rewrite (boundTo_unique db _ j id Hd Hj Hb) in *. cbn [mbind option_bind].
  rewrite parseUint_Itoa by by width. cbn [mbind option_bind]. rewrite Scan_AccID, Ev. apply H3 in Ev as ->.
  rewrite parseUint_Itoa by by width. cbn. by rewrite bool_decide_eq_true_2.
Qed.

(** A finalized login changes the state fields of the account only. *)
Lemma cacheOk_state r db id kvs :
  NoDup kvs.*1 → "acc_id" ∉ kvs.*1 → cacheOk r db → cacheOk (HSET (KeyAccount id) kvs r) db.
Proof.
  intros Hn Hnot (H1 & H2 & H3). unfold cacheOk; splits.
  - intros j. by apply get_hset.
  - intros b s Hs. rewrite get_hset_key in Hs by done. eauto.
  - intros j s Hs. destruct (decide (id = j)) as [->|Hne].
    + rewrite hget_hset_field in Hs by done. eauto.
    + rewrite hget_hset_key in Hs; [eauto|]. by intros ?%KeyAccount_inj.
Qed.

Lemma finalize_success ge sel draws o acc req r r' acc' req' :
  finalizeLoginSession ge sel draws o acc req r = Some (r', acc', req', LCSuccess) →
  AccID acc' = AccID acc ∧ lm_SdkType req' = lm_SdkType req ∧ lm_Account req' = lm_Account req ∧
  ∃ kvs, NoDup kvs.*1 ∧ ("acc_id" ∉ kvs.*1) ∧ r' = HSET (KeyAccount (AccID acc)) kvs r.
Proof.
  unfold finalizeLoginSession. destruct (_ && _); [by intros [= ]|]. destruct (allocateGameServer _ _ _ _) as [g code].
  case_decide; [intros [= <- <- <- ->]; done|]. destruct (if decide _ then _ else _) as [pwd|]; [|done].
  unfold SaveLoginData, Eval, saveLoginLua. cbn [AccID acc_GameID acc_Seq Passwd].
  destruct o; [|by intros [= ]..]. destruct (decide (current_seq _ _ = _)); [|by intros [= ]].
  cbn. intros [= <- <- <-]. splits; try done. eexists. split; [|split; [|reflexivity]]; cbn [fmap list_fmap fst]; dec.
Qed.

(** C17. A debug build stops on a correct login only if one of the check's own reads fails.
    Take a login that was counted and recorded, that the loader hands over and
    [finalizeLoginSession] accepts with nothing else happening in between, the cache
    agreeing with the database and no write of the loader's pipelines lost; the loader's
    reads, inserts and the map order may go any way. If the check's [FindOne], [GET] and
    [HMGET] succeed, it finds the same account in the database and in the cache, marks the
    record and returns. If one of them fails it ends the process: a failed [FindOne] reads
    as account 0 and is reported as a mismatch (for an account whose id is not 0), a failed
    [GET] or [HMGET] is fatal at once. *)
Theorem login_self_check env batch r db r1 db1 outs acc req ge sel draws o r2 acc2 req2 s findErr getErr hmgetErr :
  (∀ l, mapOrder env l ≡ₚ l) → syncFlags env = [] → regFlags env = [] →
  cacheOk r db → dbOk db → roomFor (len batch) r →
  loaderFlush env batch r db = (r1, db1, outs) → inl (OpAfterSDKCheck acc req) ∈ outs →
  lm_BindAcc req = FormatBindKey (lm_SdkType req) (lm_Account req) →
  finalizeLoginSession ge sel draws o acc req r1 = Some (r2, acc2, req2, LCSuccess) →
  0 < debugWait s → is_Some (debugAcc s !! debugAccKey (lm_SdkType req) (lm_Account req)) →
  let res := DebugCheck true findErr getErr hmgetErr req2 true (Some acc2) r2 db1 s in
  (findErr = false → getErr = false → hmgetErr = false →
   ∃ s', res = Returned s' ∧
     dc_Ok <$> debugAcc s' !! debugAccKey (lm_SdkType req) (lm_Account req) = Some true ∧ debugWait s' = debugWait s - 1) ∧
  (findErr = true → AccID acc ≠ 0 → res = Fatal "db not match") ∧
  (findErr = false → getErr = true ∨ hmgetErr = true → res = Fatal "loadAccInCache").
Proof.
  intros Hord Hsf Hrf Hc Hd Hr Hl Hin Hbind Hfin Hw [chk Hchk].
  pose proof (loaderFlush_cached _ _ _ _ _ _ _ Hord Hsf Hrf Hc Hd Hr Hl) as Hcached.
  pose proof (loaderFlush_ok _ _ _ _ _ _ _ Hord Hc Hd Hr Hl) as (Hc1 & Hd1 & _ & Hright).
  apply (proj1 (Forall_forall _ _) Hcached) in Hin as Hca. apply (proj1 (Forall_forall _ _) Hright) in Hin as Hb.
  cbn [outCached rightAccount] in Hca, Hb. rewrite Hbind in Hca, Hb.
  destruct (finalize_success _ _ _ _ _ _ _ _ _ _ Hfin) as (Eid & Esdk & Eacc & kvs & Hn & Hnot & ->).
  assert (Hu : is_u64 (AccID acc)). { destruct Hb as (d & Hdin & <- & _). by apply (proj1 (Forall_forall _ _) (proj1 Hd1)). }
  apply (keeps_hset r1 (AccID acc) kvs Hn (proj1 Hc1)) in Hca.
  intros res. unfold res, DebugCheck. cbn [negb]. rewrite decide_False by lia. rewrite Esdk, Eacc, Hchk.
  splits.
  - intros -> -> ->. rewrite (loadAccIDInDB_bound db1 _ _ (AccID acc)) by done. rewrite decide_False by (rewrite Eid; auto).
    rewrite (loadAccInCache_cached _ db1 _ _ (AccID acc)) by (try done; by apply cacheOk_state).
    cbn [negb]. rewrite decide_False by auto. eexists. split; [reflexivity|]. cbn [debugAcc debugWait]. by rewrite lookup_insert_eq.
  - intros -> Hne. cbn [loadAccIDInDB]. by rewrite decide_True by (rewrite Eid; auto).
  - intros -> Herr. rewrite (loadAccIDInDB_bound db1 _ _ (AccID acc)) by done. rewrite decide_False by (rewrite Eid; auto).
    unfold loadAccInCache. destruct getErr; [done|]. destruct Herr as [| ->]; [done|]. by destruct (_ ≫= parseUint 64).
Qed.

End Check.

(** The login of [demoReq] against empty stores, as a new account. *)
Definition demoFlush : rdb * list Account * list loadOut :=
  loaderFlush demoEnv [setBindAcc demoReq] (mkRdb ∅ {[ RedisKeyIDs := "100000" ]}) [].
Definition demoRegistered : Account := mkAcc 100001 false 0 0 0 ["0@bob"] "0@bob".
Definition demoFinal : option (rdb * Account * loginMsg * LoginCode) :=
  finalizeLoginSession (λ _, false) (Some 3) demoDraws EvOk demoRegistered (setBindAcc demoReq) demoFlush.1.1.

Definition demoStored : rdb := match demoFinal with Some (r, _, _, _) => r | None => demoFlush.1.1 end.
Definition demoLoggedIn : Account := mkAcc 100001 false 3 1 1 ["0@bob"] "0@bob".
Definition demoToken : loginMsg := mkLM 0 "bob" false 70 100001 1 1 "0@bob" [].

Lemma login_self_check_witness :
  ∃ s', DebugCheck true false false false demoToken true (Some demoLoggedIn) demoStored demoFlush.1.2
      (DebugAdd true (setBindAcc demoReq) (DebugAddWait true (mkDS ∅ 0))) = Returned s' ∧
    dc_Ok <$> (debugAcc s' !! "0:bob") = Some true ∧ debugWait s' = 1 - 1.
Proof.
  eapply (login_self_check demoEnv [setBindAcc demoReq] (mkRdb ∅ {[ RedisKeyIDs := "100000" ]}) []
    demoFlush.1.1 demoFlush.1.2 demoFlush.2 demoRegistered (setBindAcc demoReq) (λ _, false) (Some 3) demoDraws EvOk
    demoStored demoLoggedIn demoToken (DebugAdd true (setBindAcc demoReq) (DebugAddWait true (mkDS ∅ 0))) false false false);
    try reflexivity.
  - unfold cacheOk. splits.
    + intros id. cbn. rewrite lookup_insert_ne; [done|]. apply not_eq_sym, KeyAccount_IDs.
    + intros b s. cbn. rewrite lookup_insert_ne; [done|]. apply not_eq_sym, KeyAccBind_IDs.
    + done.
  - split; constructor.
  - exists 100000. splits; [reflexivity|lia|reflexivity].
  - vm_compute. left.
  - vm_compute. by eexists.
Defined.

(** The check's false alarms: a login request that finds the event queue full is answered
    before it is recorded, and ends a debug build's process. *)
Lemma full_queue_is_fatal {R} `{RedisOps R} req (r : R) db s :
  0 ≤ debugWait s → debugAcc s !! debugAccKey (lm_SdkType req) (lm_Account req) = None →
  HandleLoginRequest_debug true true req r db s = Fatal "not exist".
Proof.
  intros Hw Hn. unfold HandleLoginRequest_debug, DebugCheck, DebugAddWait. cbn [negb debugWait debugAcc].
  rewrite decide_False by lia. change (lm_SdkType (setBindAcc req)) with (lm_SdkType req).
  change (lm_Account (setBindAcc req)) with (lm_Account req). by rewrite Hn.
Qed.

(** ** Binding another channel *)

Section Bind.
Context {R : Type} `{RedisLaws R}.

Lemma addBind_keeps key d b : b ∈ Binds d → b ∈ Binds (addBind key d).
Proof. intros Hb. unfold addBind. cbn [Binds]. case_decide; [done|]. apply elem_of_app. by left. Qed.
Lemma addBind_has key d : key ∈ Binds (addBind key d).
Proof. unfold addBind. cbn [Binds]. case_decide; [done|]. apply elem_of_app. right. left. Qed.
Lemma addBind_only key d b : b ∈ Binds (addBind key d) → b = key ∨ b ∈ Binds d.
Proof. unfold addBind. cbn [Binds]. case_decide; [auto|]. rewrite elem_of_app, list_elem_of_singleton. tauto. Qed.

Lemma updateFirst_elem accID key db d :
  d ∈ updateFirst accID key db → d ∈ db ∨ ∃ d', d' ∈ db ∧ AccID d' = accID ∧ d = addBind key d'.
Proof.
  induction db as [|x db IH]; [by intros ?%elem_of_nil|]. cbn [updateFirst]. case_decide as Ha; rewrite !elem_of_cons.
  - intros [->|Hd]; [right; exists x; split; [left|done]|auto].
  - intros [->|Hd]; [auto|]. destruct (IH Hd) as [?|(d' & ? & ?)]; [auto|]. right. exists d'. by split; [right|].
Qed.

Lemma updateFirst_bound accID key db b id : boundTo db b id → boundTo (updateFirst accID key db) b id.
Proof.
  intros (d & Hd & <- & Hb). induction db as [|x db IH]; [by apply elem_of_nil in Hd|]. cbn [updateFirst].
  apply elem_of_cons in Hd as [->|Hd]; case_decide.
  - exists (addBind key x). splits; [left|done|by apply addBind_keeps].
  - exists x. by split; [left|].
  - exists d. by split; [right|].
  - by apply boundTo_mono, IH.
Qed.

Lemma updateFirst_binds accID key db : (∃ d, d ∈ db ∧ AccID d = accID) → boundTo (updateFirst accID key db) key accID.
Proof.
  intros (d & Hd & Ha). induction db as [|x db IH]; [by apply elem_of_nil in Hd|]. cbn [updateFirst].
  case_decide as Hx; [exists (addBind key x); splits; [left|done|apply addBind_has]|].
  apply elem_of_cons in Hd as [->|Hd]; [done|]. by apply boundTo_mono, IH.
Qed.

Lemma updateFirst_none accID key db : (∀ d, d ∈ db → AccID d ≠ accID) → updateFirst accID key db = db.
Proof.
  induction db as [|x db IH]; [done|]. intros Hn. cbn [updateFirst]. rewrite decide_False by (apply Hn; left).
  rewrite IH; [done|]. intros d Hd. apply Hn. by right.
Qed.

Lemma updateFirst_dbOk accID key db :
  NoDup (AccID <$> db) → (∀ d, d ∈ db → AccID d ≠ accID → key ∉ Binds d) → dbOk db → dbOk (updateFirst accID key db).
Proof.
  intros Hids Hkey [Hu Hn]. split.
  - apply Forall_forall. intros d Hd. rewrite Forall_forall in Hu.
    destruct (updateFirst_elem _ _ _ _ Hd) as [?|(d' & ? & _ & ->)]; [auto|]. cbn. auto.
  - clear Hu. induction db as [|x db IH]; [done|]. rewrite fmap_cons in Hids. apply NoDup_cons in Hids as [Hx Hids].
    rewrite bind_cons in Hn. apply NoDup_app in Hn as (Hn1 & Hn2 & Hn3).
    assert (Hkey' : ∀ d, d ∈ db → AccID d ≠ accID → key ∉ Binds d) by (intros d Hd; apply Hkey; by right).
    cbn [updateFirst]. case_decide as Ha; rewrite bind_cons; apply NoDup_app; splits.
    + unfold addBind. cbn [Binds]. case_decide; [done|]. apply NoDup_app. splits; [done| |apply NoDup_singleton].
      intros b Hb ->%list_elem_of_singleton. done.
    + intros b [->|Hb]%addBind_only; [|by apply Hn2]. intros (d & Hd & Hbd)%list_elem_of_bind.
      apply (Hkey' d); [done| |done]. intros Hd2. apply Hx. rewrite Ha, <- Hd2. by apply list_elem_of_fmap_2.
    + done.
    + done.
    + intros b Hb (d & Hd & Hbd)%list_elem_of_bind. destruct (updateFirst_elem _ _ _ _ Hbd) as [Hin|(d' & Hin & Ha' & ->)].
      * apply (Hn2 b Hb). apply list_elem_of_bind. eauto.
      * apply addBind_only in Hd as [->|Hd]; [by apply (Hkey x); [left|..]|]. apply (Hn2 b Hb). apply list_elem_of_bind. eauto.
    + by apply IH.
Qed.

Lemma taken_spec accID key db :
  existsb (λ d, bool_decide (AccID d ≠ accID ∧ key ∈ Binds d)) db = true ↔ ∃ id, id ≠ accID ∧ boundTo db key id.
Proof.
  rewrite existsb_exists. split.
  - intros (d & Hd%list_elem_of_In & [Hne Hk]%bool_decide_eq_true). exists (AccID d). split; [done|]. by exists d.
  - intros (id & Hne & d & Hd & <- & Hk). exists d. split; [by apply list_elem_of_In|]. by apply bool_decide_eq_true_2.
Qed.

Lemma present_spec accID (db : list Account) :
  existsb (λ d, bool_decide (AccID d = accID)) db = true ↔ ∃ d, d ∈ db ∧ AccID d = accID.
Proof.
  rewrite existsb_exists. split; intros (d & Hd & E); exists d; rewrite list_elem_of_In in *; (split; [done|]);
    [by apply bool_decide_eq_true in E|by apply bool_decide_eq_true_2].
Qed.

(** C18. Binding another channel to an account: every binding is kept and no name is ever
    bound twice, whether the update and the pipeline run or fail. For an account that
    exists, the cache stays in agreement with the database and success means that the name
    is bound to this account; the refusal is given exactly if the update was answered and
    the name belongs to another account, a failed or timed-out update gives the other
    error, with the name bound or not, but never when it belongs to another account. For an account that does not exist the call reports success as well, binds
    nothing, and leaves the name in the cache pointing to it. *)
Theorem bind_new_sdk o piped accID t name r db r' db' err :
  cacheOk r db → dbOk db → NoDup (AccID <$> db) →
  BindNewSDK o piped accID t name r db = (r', db', err) →
  dbOk db' ∧ (∀ b id, boundTo db b id → boundTo db' b id) ∧
  ((∃ d, d ∈ db ∧ AccID d = accID) →
     cacheOk r' db' ∧ (err = None → boundTo db' (FormatBindKey t name) accID) ∧
     (err = Some (ErrMsg "bound to another role") ↔ o = UpdRun ∧ ∃ id, id ≠ accID ∧ boundTo db (FormatBindKey t name) id) ∧
     (err = Some (ErrMsg "mongo") ↔ o ≠ UpdRun) ∧
     ((∃ id, id ≠ accID ∧ boundTo db (FormatBindKey t name) id) → db' = db)) ∧
  ((∀ d, d ∈ db → AccID d ≠ accID) →
     db' = db ∧ (o = UpdRun → err = None) ∧ (err = None → piped = true → GET (KeyAccBind (FormatBindKey t name)) r' = Some (Itoa accID))).
Proof.
  intros Hc Hd Hids. unfold BindNewSDK, UpdateOne. set (key := FormatBindKey t name).
  destruct (existsb (λ d, bool_decide (AccID d ≠ accID ∧ key ∈ Binds d)) db) eqn:Et, (existsb (λ d, bool_decide (AccID d = accID)) db) eqn:Ep;
    cbn [andb]; try (apply taken_spec in Et); try (apply present_spec in Ep as (x & Hx & Ex)).
  { destruct o as [|[]]; intros [= <- <- <-]; splits; try done; try (intros Hn; by destruct (Hn x Hx));
      intros _; splits; try done; by split; [|intros []]. }
  2: assert (Hkey : ∀ d, d ∈ db → AccID d ≠ accID → key ∉ Binds d).
  2: { intros d Hdin Hne Hk. apply Bool.not_true_iff_false in Et. apply Et, taken_spec. exists (AccID d). split; [done|]. by exists d. }
  1, 3: assert (Hno : ∀ d, d ∈ db → AccID d ≠ accID)
          by (intros d Hdin E; apply Bool.not_true_iff_false in Ep; apply Ep, present_spec; by exists d);
        rewrite (updateFirst_none accID key db Hno); destruct o as [|[]]; intros [= <- <- <-]; splits; try done;
        try (intros (d & Hdin & E); by destruct (Hno d Hdin)); intros _; splits; try done; intros _ ->; apply get_set.
  assert (Hup : dbOk (updateFirst accID key db)) by by apply updateFirst_dbOk.
  assert (Hmono : ∀ b id, boundTo db b id → boundTo (updateFirst accID key db) b id) by (intros; by apply updateFirst_bound).
  assert (Hnew : boundTo (updateFirst accID key db) key accID) by (apply updateFirst_binds; by exists x).
  assert (Hcu : cacheOk r (updateFirst accID key db)).
  { destruct Hc as (H1 & H2 & H3). unfold cacheOk; splits; try done. intros b s Hs. destruct (H2 b s Hs) as (id & ? & ?). eauto. }
  assert (Htk : ¬ ∃ id, id ≠ accID ∧ boundTo db key id).
  { intros Htk. apply taken_spec in Htk. congruence. }
  destruct o as [|[]]; intros [= <- <- <-]; splits; try done; try (intros Hn; by destruct (Hn x Hx));
    intros _; splits; try done; try (split; [done|by intros [? ?%Htk]]); try (by intros ?%Htk).
  destruct piped; [|done]. by apply cacheOk_set.
Qed.

End Bind.

Definition demoRole : Account := mkAcc 100001 false 0 0 0 ["0@bob"] EmptyString.

Lemma bind_new_sdk_witness :
  (BindNewSDK UpdRun true 100001 2 "bobby" (mkRdb ∅ ∅) [demoRole]).2 = None ∧
  boundTo (BindNewSDK UpdRun true 100001 2 "bobby" (mkRdb ∅ ∅) [demoRole]).1.2 "2@bobby" 100001.
Proof.
  edestruct (bind_new_sdk UpdRun true 100001 2 "bobby" (mkRdb ∅ ∅) [demoRole]) as (_ & _ & Hb & _).
  - by unfold cacheOk; splits; cbn.
  - split; [constructor; [split; vm_compute; congruence|constructor]|cbn; dec].
  - cbn. dec.
  - rewrite (surjective_pairing (BindNewSDK _ _ _ _ _ _ _)). by rewrite (surjective_pairing (BindNewSDK _ _ _ _ _ _ _).1).
  - split; [vm_compute; reflexivity|]. apply Hb; [|vm_compute; reflexivity]. exists demoRole. split; [left|reflexivity].
Defined.

(** ** internal/game/logon_service/debug.go *)

(** [debugCheck] of the game server: roles that began to log in, with their id once they
    are in, and the count of [debugWait]. *)
Record loginDebug := mkLD { ld_check : gmap Z Z; ld_wait : Z }.

Definition debugLoginBegin (Debug : bool) (roleID : Z) (s : loginDebug) : loginDebug :=
  if Debug then mkLD (<[roleID := 0]> (ld_check s)) (ld_wait s + 1) else s.

(** [None]: the process ends, by [Fatal] or because the count would be negative. *)
Definition debugLoginOk (Debug : bool) (id : Z) (s : loginDebug) : option loginDebug :=
  if negb Debug then Some s
  else match ld_check s !! id with
       | None => None
       | Some _ => if decide (ld_wait s - 1 < 0) then None else Some (mkLD (<[id := id]> (ld_check s)) (ld_wait s - 1))
       end.

(** [None]: it waits. *)
Definition debugCheckSuccess (s : loginDebug) : option bool :=
  if decide (ld_wait s = 0) then Some (forallb (λ x, negb (bool_decide (x.2 = 0))) (map_to_list (ld_check s))) else None.

Inductive loginOp := LBegin (id : Z) | LOk (id : Z).
Definition loginOps (ops : list loginOp) : option loginDebug :=
  fold_left (λ s o, s ← s; match o with LBegin id => Some (debugLoginBegin true id s) | LOk id => debugLoginOk true id s end)
    ops (Some (mkLD ∅ 0)).

Definition begun (ops : list loginOp) : list Z := omap (λ o, match o with LBegin id => Some id | _ => None end) ops.
Definition entered (ops : list loginOp) : list Z := omap (λ o, match o with LOk id => Some id | _ => None end) ops.

Lemma debug_check_spec ops s : loginOps ops = Some s →
  ld_wait s = len (begun ops) - len (entered ops) ∧
  (∀ id, is_Some (ld_check s !! id) ↔ id ∈ begun ops) ∧
  (∀ id v, ld_check s !! id = Some v → v ≠ 0 → v = id ∧ id ∈ entered ops).
Proof.
  revert s. induction ops as [|o ops IH] using rev_ind; intros s E.
  { injection E as <-. splits; [done| |].
    - intros id. cbn [ld_check]. rewrite lookup_empty. split; [by intros []|by intros ?%elem_of_nil].
    - intros id v. cbn [ld_check]. by rewrite lookup_empty. }
  unfold loginOps in *. rewrite fold_left_app in E. destruct (fold_left _ ops _) as [s1|] eqn:E1; [|done].
  destruct (IH s1 eq_refl) as (Hw & Hb & He). cbn [fold_left mbind option_bind] in E. unfold begun, entered in *. rewrite !omap_app.
  destruct o as [id|id]; cbn [omap list_omap].
  - injection E as <-. cbn [ld_check ld_wait]. rewrite !len_app. splits.
    + change (len [id]) with 1. change (len (@nil Z)) with 0. lia.
    + intros j. rewrite lookup_insert_is_Some, elem_of_app, list_elem_of_singleton, Hb. destruct (decide (id = j)); intuition congruence.
    + intros j v. rewrite lookup_insert_Some, app_nil_r. intros [[<- <-]|[_ Hj]] Hv; [done|by apply He].
  - unfold debugLoginOk in E. cbn [negb] in E. destruct (ld_check s1 !! id) as [v0|] eqn:Ei; [|done].
    destruct (decide _); [done|]. injection E as <-. cbn [ld_check ld_wait]. rewrite app_nil_r, !len_app. splits.
    + change (len [id]) with 1. change (len (@nil Z)) with 0. lia.
    + intros j. rewrite lookup_insert_is_Some, <- Hb. destruct (decide (id = j)) as [<-|]; [|intuition congruence].
      split; [intros _; by rewrite Ei|by left].
    + intros j v. rewrite lookup_insert_Some, elem_of_app, list_elem_of_singleton. intros [[<- <-]|[_ Hj]] Hv; [auto|].
      destruct (He j v Hj Hv). auto.
Qed.

(** The check of the tests: while not as many logins have ended well as began it waits, for
    ever if one has failed; and when it answers yes, every role that began to log in has
    entered. *)
Lemma debug_check_answers ops s : loginOps ops = Some s →
  (debugCheckSuccess s = None ↔ len (entered ops) ≠ len (begun ops)) ∧
  (debugCheckSuccess s = Some true → ∀ id, id ∈ begun ops → id ∈ entered ops).
Proof.
  intros E. destruct (debug_check_spec ops s E) as (Hw & Hb & He). unfold debugCheckSuccess. rewrite Hw.
  case_decide as Hz; split; try done; [split; [done|lia]| |split; [lia|done]].
  intros [= Ht] id Hid. apply Hb in Hid as [v Hv]. rewrite forallb_forall in Ht.
  assert (Hin : (id, v) ∈ map_to_list (ld_check s)) by by apply elem_of_map_to_list.
  apply list_elem_of_In in Hin. specialize (Ht _ Hin). cbn in Ht. apply negb_true_iff, bool_decide_eq_false in Ht.
  by destruct (He id v Hv Ht).
Qed.
