(* ===== verification/AccStop.v ===== *)
(** * internal/account/auth: the service stops

    [StartService] runs the event loop ([run], auth.go) and three loaders ([run], loader.go),
    which end when their context is cancelled. The event loop closes the queue and answers
    the logins left in it; a loader answers the requests left in its channel. Requests a
    loader has already taken into its batch are neither loaded nor answered. *)

From S2P Require Import Prelude DataBus Redis Account AccLoader.

Section Stop.
Context {R : Type} `{RedisOps R}.

(** The service, whether the context is cancelled, whether the event loop and the loaders
    have returned. *)
Record ssys := mkSS { ss_svc : @service R; ss_done : bool; ss_runOff : bool; ss_off : list bool }.

(** [run] on cancellation: [Close], then [Range] over what is left. *)
Definition runExit (s : @service R) : @service R :=
  mkSvc [] (g_sdk s) (g_chan s) (g_batch s) (g_r s) (g_db s)
    (g_ans s ++ (g_evt s ≫= λ e, match eventLogin e with Some req => [sendLoginFailure req LCServerBusy] | None => [] end)) (g_sub s).

(** A loader's [run] on cancellation: the channel is emptied, the batch is left. *)
Definition loaderExit (i : nat) (s : @service R) : option (@service R) :=
  c ← g_chan s !! i;
  Some (mkSvc (g_evt s) (g_sdk s) (<[i := []]> (g_chan s)) (g_batch s) (g_r s) (g_db s)
          (g_ans s ++ ((λ req, sendLoginFailure req LCServerBusy) <$> c)) (g_sub s)).

(** Steps of the service that the goroutines still running can take: a loader that has
    returned takes and loads nothing; a closed queue stays empty. *)
Definition allowed (off : list bool) (runOff : bool) (s s' : @service R) : Prop :=
  (runOff = true → g_evt s = [] ∧ g_evt s' = []) ∧
  ∀ i, off !! i = Some true → g_batch s' !! i = g_batch s !! i ∧
    ∀ c, g_chan s !! i = Some c → ∃ more, g_chan s' !! i = Some (c ++ more).

Inductive sstep : ssys → ssys → Prop :=
| ss_step s s' done runOff off : gstep s s' → allowed off runOff s s' → sstep (mkSS s done runOff off) (mkSS s' done runOff off)
| ss_cancel s runOff off : sstep (mkSS s false runOff off) (mkSS s true runOff off)
| ss_runExit s off : sstep (mkSS s true false off) (mkSS (runExit s) true true off)
| ss_loaderExit s runOff off i s' :
    off !! i = Some false → loaderExit i s = Some s' → sstep (mkSS s true runOff off) (mkSS s' true runOff (<[i := true]> off)).

Definition started (r : R) (db : list Account) : ssys :=
  mkSS (startService r db) false false (replicate (Z.to_nat LoadThread) false).

Lemma runExit_total s : total (runExit s) ≡ₚ total s.
Proof.
  unfold runExit, total, inFlight. cbn [g_evt g_sdk g_chan g_batch g_ans]. rewrite fmap_app. cbn.
  assert (E : answerSes <$> (g_evt s ≫= λ e, match eventLogin e with Some req => [sendLoginFailure req LCServerBusy] | None => [] end) = g_evt s ≫= eventSes).
  { induction (g_evt s) as [|e es IH]; [done|]. rewrite !bind_cons, fmap_app, IH. f_equal. unfold eventSes. by destruct (eventLogin e). }
  rewrite E. solve_Permutation.
Qed.

Lemma loaderExit_total i s s' : loaderExit i s = Some s' → total s' ≡ₚ total s ∧ g_sub s' = g_sub s.
Proof.
  unfold loaderExit. destruct (g_chan s !! i) as [c|] eqn:E; [|done]. cbn. intros [= <-]. split; [|done].
  pose proof (join_insert _ _ _ [] E) as Hj. cbn in Hj. unfold total, inFlight. cbn [g_evt g_sdk g_chan g_batch g_ans].
  assert (Ec : answerSes <$> ((λ req, sendLoginFailure req LCServerBusy) <$> c) = lm_SesID <$> c) by (rewrite <- list_fmap_compose; done).
  rewrite fmap_app, Ec, <- Hj, fmap_app. solve_Permutation.
Qed.

Definition accounted (x : ssys) : Prop := conserved (ss_svc x).

Lemma accounted_preserved : preserved sstep accounted.
Proof.
  intros x x' Hs Hc. destruct Hs as [s s' dn ro off Hg _| | |s ro off i s' _ E]; unfold accounted in *; cbn [ss_svc] in *; [|done| |].
  - by eapply conserved_preserved.
  - change (total (runExit s) ≡ₚ g_sub s). by rewrite runExit_total.
  - apply loaderExit_total in E as [E1 E2]. change (total s' ≡ₚ g_sub s'). by rewrite E1, E2.
Qed.

(** A loader that has returned keeps its batch. *)
Definition stranded (i : nat) (b : list loginMsg) (x : ssys) : Prop := ss_off x !! i = Some true ∧ g_batch (ss_svc x) !! i = Some b.

Lemma stranded_preserved i b : preserved sstep (stranded i b).
Proof.
  intros x x' Hs [Ho Hb]. destruct Hs as [s s' dn ro off _ [_ Ha]| | |s ro off j s' Hj E]; unfold stranded in *; cbn [ss_svc ss_off] in *.
  - split; [done|]. by rewrite (proj1 (Ha i Ho)).
  - done.
  - done.
  - unfold loaderExit in E. destruct (g_chan s !! j); [|done]. injection E as <-. cbn. split; [|done].
    destruct (decide (i = j)) as [->|]; [congruence|by rewrite list_lookup_insert_ne].
Qed.

Lemma stranded_inFlight i b x req : stranded i b x → req ∈ b → lm_SesID req ∈ inFlight (ss_svc x).
Proof.
  intros [_ Hb] Hr. unfold inFlight. rewrite !elem_of_app. do 3 right. apply list_elem_of_fmap. exists req. split; [done|].
  apply list_elem_of_join. exists b. split; [done|]. by eapply list_elem_of_lookup_2.
Qed.

Lemma started_accounted r db : accounted (started r db).
Proof. exact (Permutation_refl []). Qed.

(** The event loop leaves an empty queue behind. *)
Definition closedEmpty (x : ssys) : Prop := ss_runOff x = true → g_evt (ss_svc x) = [].
Lemma closedEmpty_preserved : preserved sstep closedEmpty.
Proof.
  intros x x' Hs Hc. destruct Hs as [s s' dn ro off _ [Ha _]| | |s ro off j s' Hj E]; unfold closedEmpty in *; cbn [ss_svc ss_runOff] in *.
  - intros Hr. by apply Ha.
  - done.
  - done.
  - unfold loaderExit in E. destruct (g_chan s !! j); [|done]. by injection E as <-.
Qed.

(** A stop answers every login except those the loaders hold. Once the event loop has
    returned and no SDK check is under way, the sessions submitted are those answered together
    with those in the loaders' channels and batches. The batch of a loader that has returned stays
    as it is: none of its logins is ever answered, whatever happens next. *)
Theorem stop_strands_batches r0 db0 x :
  rtc sstep (started r0 db0) x →
  (ss_runOff x = true → g_sdk (ss_svc x) = [] →
   (answerSes <$> g_ans (ss_svc x)) ++ (lm_SesID <$> mjoin (g_chan (ss_svc x)) ++ mjoin (g_batch (ss_svc x))) ≡ₚ g_sub (ss_svc x)) ∧
  ∀ i b req x', ss_off x !! i = Some true → g_batch (ss_svc x) !! i = Some b → req ∈ b → rtc sstep x x' →
    NoDup (g_sub (ss_svc x')) → lm_SesID req ∈ g_sub (ss_svc x') ∧ lm_SesID req ∉ answerSes <$> g_ans (ss_svc x').
Proof.
  intros Hr. pose proof (rtc_preserved _ _ _ _ accounted_preserved Hr (started_accounted r0 db0)) as Hc. split.
  - intros Hoff Hsdk. pose proof (rtc_preserved _ _ _ _ closedEmpty_preserved Hr ltac:(done) Hoff) as He.
    unfold accounted, conserved, inFlight in Hc. rewrite He, Hsdk in Hc. cbn in Hc. rewrite <- Hc, !fmap_app. solve_Permutation.
  - intros i b req x' Ho Hb Hin Hr' Hnd. pose proof (rtc_preserved _ _ _ _ accounted_preserved Hr' Hc) as Hc'.
    pose proof (rtc_preserved _ _ _ _ (stranded_preserved i b) Hr' (conj Ho Hb)) as Hst.
    pose proof (stranded_inFlight i b x' req Hst Hin) as Hf. unfold accounted, conserved in Hc'. rewrite <- Hc' in Hnd.
    split; [rewrite <- Hc'; apply elem_of_app; by left|]. apply NoDup_app in Hnd as (_ & Hnd & _). by apply Hnd.
Qed.

End Stop.

(** A login that a loader has taken when the service stops. *)
Definition stopDb : rdb := mkRdb ∅ {[ RedisKeyIDs := "100000" ]}.
Definition stopOff : list bool := <[loaderOf demoReq := true]> [false; false; false].

Lemma allowed_running (s s' : @service rdb) : allowed [false; false; false] false s s'.
Proof. split; [done|]. intros [|[|[|i]]]; done. Qed.

Lemma demo_stop : ∃ x, rtc sstep (started stopDb []) x ∧ ss_off x = stopOff ∧
  g_batch (ss_svc x) !! loaderOf demoReq = Some [demoReq] ∧ g_sub (ss_svc x) = [70].
Proof.
  eexists. split.
  - eapply rtc_l; [apply ss_step; [apply (g_request _ (λ _, false) demoReq)|apply allowed_running]|norm_state].
    eapply rtc_l; [apply ss_step; [eapply (g_event _ _ _ _ _ _ _ _ _ (λ _, false) (Ok true) (λ _, false) (Some 3) demoDraws EvOk); reflexivity|apply allowed_running]|norm_state].
    eapply rtc_l; [apply ss_step; [eapply (g_sdkDone _ [] demoReq [] _ _ _ _ _ _ (λ _, false) false); reflexivity|apply allowed_running]|norm_state].
    eapply rtc_l; [apply ss_step; [eapply (g_take _ (loaderOf demoReq)); reflexivity|apply allowed_running]|norm_state].
    eapply rtc_l; [apply ss_cancel|].
    eapply rtc_l; [apply (ss_loaderExit _ _ _ (loaderOf demoReq)); [reflexivity|vm_compute; reflexivity]|].
    apply rtc_refl.
  - vm_compute. done.
Qed.

Lemma stop_strands_batches_witness :
  ∃ x : @ssys rdb, g_sub (ss_svc x) = [70] ∧ 70 ∉ answerSes <$> g_ans (ss_svc x).
Proof.
  destruct demo_stop as (x & Hr & Ho & Hb & Hsub). exists x. split; [done|].
  destruct (stop_strands_batches stopDb [] x Hr) as [_ H].
  apply (H (loaderOf demoReq) [demoReq] demoReq x); [rewrite Ho; vm_compute; reflexivity|done|by left|apply rtc_refl|rewrite Hsub; apply NoDup_singleton].
Defined.
