(* ===== verification/Discovery.v ===== *)
(** * pkg/discovery: which servers there are

    [service.go], [node.go], [discover.go], [register.go]. A server registers its node in
    etcd under a lease and reports its load over Redis; every other server keeps a table
    of the nodes of the services it depends on, and picks the lighter of two random
    nodes. Etcd and Redis answers are arguments. *)

From S2P Require Import Prelude DataBus Redis Account.

(** ** service.go: paths *)

Record Node := mkNode { nd_SvcName : string; nd_NodeID : Z; nd_Load : Z }.

Definition slash : Ascii.ascii := Ascii.ascii_of_nat 47.

Definition redisKeyOfUpload (svcName : string) (serID : Z) : string :=
  "{server}:load:" +:+ svcName +:+ ":" +:+ Itoa serID.
Definition etcdPath (prefix svcName : string) (serID : Z) : string :=
  prefix +:+ String slash (svcName +:+ String slash (Itoa serID)).
Definition etcdSvcPrefix (prefix svcName : string) : string := prefix +:+ String slash (svcName +:+ String slash EmptyString).
Definition redisLoadChannel (svcName : string) : string := "service:load:channel:" +:+ svcName.

(** [strings.Trim] with one character. *)
Fixpoint TrimLeft (c : Ascii.ascii) (s : string) : string :=
  match s with
  | EmptyString => EmptyString
  | String a t => if decide (a = c) then TrimLeft c t else s
  end.
Fixpoint TrimRight (c : Ascii.ascii) (s : string) : string :=
  match s with
  | EmptyString => EmptyString
  | String a t => match TrimRight c t with
                  | EmptyString => if decide (a = c) then EmptyString else String a EmptyString
                  | t => String a t
                  end
  end.
Definition Trim (c : Ascii.ascii) (s : string) : string := TrimRight c (TrimLeft c s).

(** [strconv.Atoi]: the value it returns and whether it failed; the value is 0 on a
    syntax error and the nearest int64 when out of range. *)
Definition Atoi (s : string) : Z * bool :=
  let '(neg, t) := match s with
                   | String a t => if decide (a = Ascii.ascii_of_nat 45) then (true, t)
                                   else if decide (a = Ascii.ascii_of_nat 43) then (false, t) else (false, s)
                   | EmptyString => (false, s) end in
  match t, parseDigits t 0 with
  | EmptyString, _ | _, None => (0, false)
  | _, Some z =>
      let z := if neg : bool then - z else z in
      if decide (z < - 2 ^ 63) then (- 2 ^ 63, false)
      else if decide (2 ^ 63 - 1 < z) then (2 ^ 63 - 1, false) else (z, true)
  end.

Definition parseServicePath (key : string) : result (string * Z) :=
  let parts := Split slash (Trim slash key) in
  match reverse parts with
  | idStr :: srvName :: _ =>
      let '(idx, ok) := Atoi idStr in
      if ok then Ok (srvName, i32 idx) else Err (ErrMsg "strconv.Atoi")
  | _ => Err (ErrMsg "svc key is err")
  end.

(** ** node.go: the nodes of a service *)

(** [nodes]: the load of each node; [nodeIDs]: its keys in the order the map was
    iterated when it was built. *)
Record nodeGroup := mkGroup { ng_nodes : gmap Z Z; ng_nodeIDs : list Z }.

Definition newNodeGroup : nodeGroup := mkGroup ∅ [].

Section Group.
(** The iteration order of a map. *)
Context (iter : gmap Z Z → list Z).

Definition Add (id load : Z) (o : nodeGroup) : nodeGroup :=
  let newNodes := <[id := load]> (ng_nodes o) in mkGroup newNodes (iter newNodes).

(** The result: no node is left. *)
Definition Delete (id : Z) (o : nodeGroup) : nodeGroup * bool :=
  match ng_nodes o !! id with
  | None => (o, bool_decide (ng_nodes o = ∅))
  | Some _ => let newNodes := delete id (ng_nodes o) in (mkGroup newNodes (iter newNodes), bool_decide (newNodes = ∅))
  end.

Definition GetLoad (id : Z) (o : nodeGroup) : Z * bool :=
  match ng_nodes o !! id with Some l => (l, true) | None => (0, false) end.

Definition UpdateLoad (id load : Z) (o : nodeGroup) : nodeGroup :=
  match ng_nodes o !! id with
  | Some _ => mkGroup (<[id := load]> (ng_nodes o)) (ng_nodeIDs o)
  | None => o
  end.

(** [i] and [j] are the two random draws, below [n] and [n - 1]; [None] is the nil
    pointer of an id without a node. *)
Definition SelectNode (i j : nat) (o : nodeGroup) : option (Z * bool) :=
  match ng_nodeIDs o with
  | [] => Some (0, false)
  | [id] => Some (id, true)
  | ids =>
      let j := if decide (i ≤ j)%nat then S j else j in
      id1 ← ids !! i; id2 ← ids !! j;
      l1 ← ng_nodes o !! id1; l2 ← ng_nodes o !! id2;
      Some (if decide (l1 ≤ l2) then (id1, true) else (id2, true))
  end.

Definition group_Exists (id : Z) (o : nodeGroup) : bool := bool_decide (is_Some (ng_nodes o !! id)).
Definition AllNodeIDs (o : nodeGroup) : list Z := ng_nodeIDs o.

(** ** discover.go *)

(** JSON of a node, as [json.Unmarshal] reads it. *)
Context (unmarshal : string → option Node).

Record Discoverer := mkDisc { services : gmap string nodeGroup; watching : list string }.

(** The keys of a full load: those that decode become nodes, with the id of the path. *)
Definition loadNode (g : nodeGroup * list Z) (kv : string * string) : nodeGroup * list Z :=
  match unmarshal kv.2 with
  | None => g
  | Some meta =>
      match parseServicePath kv.1 with
      | Err _ => g
      | Ok (_, serID) => (Add serID (nd_Load meta) g.1, g.2 ++ [serID])
      end
  end.

(** The loads of [MGet], in the order of the nodes; an entry that is not a number is 0. *)
Fixpoint setLoads (ids : list Z) (vals : list (option string)) (g : nodeGroup) : nodeGroup :=
  match ids, vals with
  | id :: ids, Some v :: vals => setLoads ids vals (UpdateLoad id (i32 (Atoi v).1) g)
  | _ :: ids, None :: vals => setLoads ids vals g
  | _, _ => g
  end.

(** [resp]: the keys under the service's prefix, or a failed [Get]; [mget]: the loads in
    Redis, or a failure. The result tells whether there is a revision to watch from. *)
Definition syncSvcFullState (svcName : string) (resp : option (list (string * string)))
    (mget : option (list (option string))) (s : Discoverer) : Discoverer * bool :=
  match resp with
  | None => (s, false)
  | Some kvs =>
      let '(newGroup, nodeIDs) := fold_left loadNode kvs (newNodeGroup, []) in
      let newGroup := if decide (nodeIDs = []) then newGroup
                      else match mget with Some vals => setLoads nodeIDs vals newGroup | None => newGroup end in
      (mkDisc (<[svcName := newGroup]> (services s)) (watching s), true)
  end.

Definition upsertNode (key val : string) (s : Discoverer) : Discoverer :=
  match unmarshal val with
  | None => s
  | Some meta =>
      match parseServicePath key with
      | Err _ => s
      | Ok (svcName, svcID) =>
          let one := default newNodeGroup (services s !! svcName) in
          mkDisc (<[svcName := Add svcID (nd_Load meta) one]> (services s)) (watching s)
      end
  end.

Definition removeNode (key : string) (s : Discoverer) : Discoverer :=
  match parseServicePath key with
  | Err _ => s
  | Ok (svcName, svcID) =>
      match services s !! svcName with
      | None => s
      | Some one =>
          let '(one, empty) := Delete svcID one in
          mkDisc (if empty : bool then delete svcName (services s) else <[svcName := one]> (services s)) (watching s)
      end
  end.

(** A load message of [watchRedis]. *)
Definition onLoadMsg (payload : string) (s : Discoverer) : Discoverer :=
  match unmarshal payload with
  | None => s
  | Some m => match services s !! nd_SvcName m with
              | None => s
              | Some g => mkDisc (<[nd_SvcName m := UpdateLoad (nd_NodeID m) (nd_Load m) g]> (services s)) (watching s)
              end
  end.

(** An event of the watch: a put or a delete of a key. *)
Definition watchEvent (s : Discoverer) (ev : string * option string) : Discoverer :=
  match ev.2 with Some v => upsertNode ev.1 v s | None => removeNode ev.1 s end.

(** [Watch] before it starts its loops, which begin with a full load again. *)
Definition Watch (svcName : string) resp mget (s : Discoverer) : Discoverer :=
  if decide (svcName ∈ watching s) then s
  else (syncSvcFullState svcName resp mget (mkDisc (services s) (svcName :: watching s))).1.

Definition getService (svcName : string) resp mget (s : Discoverer) : Discoverer * option nodeGroup :=
  match services s !! svcName with
  | Some one => (s, Some one)
  | None => let s := Watch svcName resp mget s in (s, services s !! svcName)
  end.

(** [Select]: [None] is a nil pointer, which [SelectNode] excludes. *)
Definition Discoverer_Select (svcName : string) (i j : nat) resp mget (s : Discoverer) : option (Discoverer * (Z * bool)) :=
  let '(s, one) := getService svcName resp mget s in
  match one with
  | None => Some (s, (0, false))
  | Some one => r ← SelectNode i j one; Some (s, r)
  end.

Definition Discoverer_Exists (svcName : string) (id : Z) resp mget (s : Discoverer) : Discoverer * bool :=
  let '(s, one) := getService svcName resp mget s in
  (s, match one with None => false | Some one => group_Exists id one end).

End Group.

(** ** Registered paths parse back *)

Lemma count_digits c s acc z : digit c = None → parseDigits s acc = Some z → count c s = 0%nat.
Proof.
  intros Hc. revert acc. induction s as [|a s IH]; intros acc; cbn; [done|].
  destruct (digit a) as [d|] eqn:Ed; [|done]. rewrite decide_False by congruence. cbn. apply IH.
Qed.

Lemma Atoi_plain s z :
  s ≠ EmptyString → parseDigits s 0 = Some z → 0 ≤ z < 2 ^ 63 → Atoi s = (z, true).
Proof.
  intros Hne Hp Hz. unfold Atoi. destruct s as [|a t]; [done|].
  assert (Hd : is_Some (digit a)) by (cbn in Hp; by destruct (digit a)).
  rewrite decide_False by (intros ->; vm_compute in Hd; by destruct Hd).
  rewrite decide_False by (intros ->; vm_compute in Hd; by destruct Hd).
  rewrite Hp. rewrite !decide_False by lia. done.
Qed.

Lemma Atoi_neg t z :
  t ≠ EmptyString → parseDigits t 0 = Some z → 0 ≤ z ≤ 2 ^ 63 → Atoi (String (Ascii.ascii_of_nat 45) t) = (- z, true).
Proof.
  intros Hne Hp Hz. unfold Atoi. rewrite decide_True by done. destruct t; [done|]. rewrite Hp.
  rewrite !decide_False by lia. done.
Qed.

(** A decimal has no slash, is not empty and reads back. *)
Lemma Itoa_reads id :
  is_i32 id → count slash (Itoa id) = 0%nat ∧ Itoa id ≠ EmptyString ∧ Atoi (Itoa id) = (id, true).
Proof.
  intros Hid. unfold is_i32 in Hid. unfold Itoa. destruct id as [|p|p].
  - vm_compute. done.
  - change (pretty (Z.pos p)) with (pretty (N.pos p)). destruct (parse_pretty_N (N.pos p)) as [Hp Hne]; [done|].
    splits; [apply (count_digits _ _ 0 (Z.pos p)); done|done|]. apply Atoi_plain; [done|done|cbn; lia].
  - change (pretty (Z.neg p)) with (String (Ascii.ascii_of_nat 45) (pretty (N.pos p))).
    destruct (parse_pretty_N (N.pos p)) as [Hp Hne]; [done|]. splits; [|done|].
    + change (count slash (String (Ascii.ascii_of_nat 45) (pretty (N.pos p)))) with (count slash (pretty (N.pos p))).
      apply (count_digits _ _ 0 (Z.pos p)); done.
    + rewrite (Atoi_neg _ (Z.pos p)); [done|done|done|cbn in *; lia].
Qed.

Lemma TrimRight_tail c p s : s ≠ EmptyString → count c s = 0%nat → TrimRight c (p +:+ s) = p +:+ s.
Proof.
  intros Hne Hc. induction p as [|a p IH].
  - change (EmptyString +:+ s) with s. clear Hne. induction s as [|a s IHs]; [done|]. cbn in Hc |- *.
    destruct (decide (a = c)); [done|]. rewrite IHs by done. by destruct s.
  - change (String a p +:+ s) with (String a (p +:+ s)). cbn [TrimRight]. rewrite IH.
    destruct p; cbn; [by destruct s|done].
Qed.

Lemma TrimLeft_pre c p a s :
  a ≠ c → ∃ q, TrimLeft c (p +:+ String c (String a s)) = q +:+ String a s ∧
               (q = EmptyString ∨ ∃ q', q = q' +:+ String c EmptyString).
Proof.
  intros Ha. induction p as [|b p IH].
  - exists EmptyString. change (EmptyString +:+ ?x) with x. cbn [TrimLeft].
    destruct (decide (c = c)); [|done]. destruct (decide (a = c)); [done|]. split; [done|by left].
  - change (String b p +:+ ?x) with (String b (p +:+ x)). cbn [TrimLeft]. case_decide as Hb; [exact IH|].
    exists (String b p +:+ String c EmptyString). split; [|right; by eexists].
    change (String b p +:+ String c EmptyString) with (String b (p +:+ String c EmptyString)).
    change (String b (p +:+ String c EmptyString) +:+ String a s) with (String b ((p +:+ String c EmptyString) +:+ String a s)).
    by rewrite <- append_assoc.
Qed.

Lemma Split_snoc c s t : count c t = 0%nat → Split c (s +:+ String c t) = Split c s ++ [t].
Proof.
  intros Ht. induction s as [|a s IH].
  - change (EmptyString +:+ ?x) with x. cbn [Split]. rewrite decide_True by done. by rewrite Split_whole.
  - change (String a s +:+ ?x) with (String a (s +:+ x)). cbn [Split]. rewrite IH. case_decide; [done|].
    pose proof (length_Split c s). by destruct (Split c s).
Qed.

(** A registered key reads back as its service and node. *)
Lemma parse_etcdPath prefix svc id :
  svc ≠ EmptyString → count slash svc = 0%nat → is_i32 id → parseServicePath (etcdPath prefix svc id) = Ok (svc, id).
Proof.
  intros Hne Hc Hid. destruct (Itoa_reads id Hid) as (Hci & Hni & Ha). unfold parseServicePath, etcdPath, Trim.
  destruct svc as [|a svc]; [done|]. change (String a svc +:+ ?x) with (String a (svc +:+ x)).
  destruct (TrimLeft_pre slash prefix a (svc +:+ String slash (Itoa id))) as (q & -> & Hq).
  { cbn in Hc. by destruct (decide (a = slash)). }
  change (String a (svc +:+ ?x)) with (String a svc +:+ x). set (name := String a svc) in *.
  assert (E : q +:+ (name +:+ String slash (Itoa id)) = ((q +:+ name) +:+ String slash EmptyString) +:+ Itoa id).
  { rewrite <- !append_assoc. done. }
  rewrite E, TrimRight_tail, <- E by done. clear E. rewrite append_assoc, Split_snoc by done.
  rewrite reverse_app. change (reverse [Itoa id]) with [Itoa id]. cbn [app].
  assert (∃ l, Split slash (q +:+ name) = l ++ [name]) as [l ->].
  { destruct Hq as [->|[q' ->]]; [exists []; by apply Split_whole|].
    exists (Split slash q'). rewrite <- append_assoc. by apply Split_snoc. }
  rewrite reverse_app. change (reverse [name]) with [name]. cbn [app]. rewrite Ha.
  f_equal. f_equal. unfold i32. unfold is_i32 in Hid. rewrite Z.mod_small; lia.
Qed.

(** ** The table follows etcd *)

(** The order of ids is an order of the nodes. *)
Definition group_wf (g : nodeGroup) : Prop := ng_nodeIDs g ≡ₚ (map_to_list (ng_nodes g)).*1.
Definition disc_wf (s : Discoverer) : Prop := ∀ svc g, services s !! svc = Some g → group_wf g.

Definition nodesOf (s : Discoverer) (svc : string) : gset Z := from_option (dom ∘ ng_nodes) ∅ (services s !! svc).

Lemma keys_dom (m m' : gmap Z Z) : dom m = dom m' → (map_to_list m).*1 ≡ₚ (map_to_list m').*1.
Proof.
  intros E. apply NoDup_Permutation; [apply NoDup_fst_map_to_list..|]. intros k.
  rewrite !list_elem_of_fmap. assert (k ∈ dom m ↔ k ∈ dom m') as Hk by by rewrite E.
  rewrite !elem_of_dom in Hk. split.
  - intros ([k' v] & -> & Hin%elem_of_map_to_list). destruct (proj1 Hk) as [v' Hv']; [by eexists|].
    exists (k', v'). split; [done|by apply elem_of_map_to_list].
  - intros ([k' v] & -> & Hin%elem_of_map_to_list). destruct (proj2 Hk) as [v' Hv']; [by eexists|].
    exists (k', v'). split; [done|by apply elem_of_map_to_list].
Qed.

Lemma UpdateLoad_dom id load g : dom (ng_nodes (UpdateLoad id load g)) = dom (ng_nodes g) ∧ (group_wf g → group_wf (UpdateLoad id load g)).
Proof.
  unfold UpdateLoad. destruct (ng_nodes g !! id) as [v|] eqn:E; [|done]. cbn [ng_nodes].
  assert (dom (<[id := load]> (ng_nodes g)) = dom (ng_nodes g)) as Ed.
  { apply dom_insert_lookup_L. by eexists. }
  split; [done|]. unfold group_wf. cbn. intros ->. by apply keys_dom.
Qed.

Lemma setLoads_dom ids vals g : dom (ng_nodes (setLoads ids vals g)) = dom (ng_nodes g) ∧ (group_wf g → group_wf (setLoads ids vals g)).
Proof.
  revert vals g. induction ids as [|id ids IH]; intros [|[v|] vals] g; cbn; try done.
  destruct (IH vals (UpdateLoad id (i32 (Atoi v).1) g)) as [-> Hw].
  destruct (UpdateLoad_dom id (i32 (Atoi v).1) g) as [-> Hw']. split; [done|auto].
Qed.

(** One event a table sees: a put or a delete under the service's prefix, or a load
    message. *)
Inductive discEvent := DPut (id : Z) (v : string) | DDelete (id : Z) | DLoad (payload : string).

Definition etcdApply (m : gmap Z string) (e : discEvent) : gmap Z string :=
  match e with DPut id v => <[id := v]> m | DDelete id => delete id m | DLoad _ => m end.

Section Track.
Context (iter : gmap Z Z → list Z) (Hiter : ∀ m, iter m ≡ₚ (map_to_list m).*1).
Context (unmarshal : string → option Node) (prefix svc : string).
Context (Hne : svc ≠ EmptyString) (Hslash : count slash svc = 0%nat).

Definition discApply (s : Discoverer) (e : discEvent) : Discoverer :=
  match e with
  | DPut id v => watchEvent iter unmarshal s (etcdPath prefix svc id, Some v)
  | DDelete id => watchEvent iter unmarshal s (etcdPath prefix svc id, None)
  | DLoad p => onLoadMsg unmarshal p s
  end.

(** What registration writes: 32-bit ids and values that decode. *)
Definition eventOk (e : discEvent) : Prop :=
  match e with DPut id v => is_i32 id ∧ is_Some (unmarshal v) | DDelete id => is_i32 id | DLoad _ => True end.

Lemma Add_wf id load g : group_wf (Add iter id load g).
Proof. unfold group_wf, Add. cbn. apply Hiter. Qed.

Lemma nodesOf_insert (s : Discoverer) g svc' w :
  nodesOf (mkDisc (<[svc := g]> (services s)) w) svc' = if decide (svc' = svc) then dom (ng_nodes g) else nodesOf s svc'.
Proof.
  unfold nodesOf. cbn. destruct (decide (svc' = svc)) as [->|]; [by rewrite lookup_insert_eq|by rewrite lookup_insert_ne].
Qed.

Lemma disc_wf_insert s k g w : disc_wf s → group_wf g → disc_wf (mkDisc (<[k := g]> (services s)) w).
Proof. intros Hw Hg k' g'. cbn. intros [[<- <-]|[_ ?]]%lookup_insert_Some; eauto. Qed.

Lemma disc_wf_delete s k w : disc_wf s → disc_wf (mkDisc (delete k (services s)) w).
Proof. intros Hw k' g'. cbn. intros [_ ?]%lookup_delete_Some; eauto. Qed.

Lemma onLoadMsg_nodes p s : disc_wf s → disc_wf (onLoadMsg unmarshal p s) ∧ ∀ k, nodesOf (onLoadMsg unmarshal p s) k = nodesOf s k.
Proof.
  intros Hw. unfold onLoadMsg. destruct (unmarshal p) as [m|]; [|done].
  destruct (services s !! nd_SvcName m) as [g|] eqn:E; [|done].
  destruct (UpdateLoad_dom (nd_NodeID m) (nd_Load m) g) as [Ed Hg]. split; [by apply disc_wf_insert; eauto|].
  intros k. unfold nodesOf. cbn. destruct (decide (k = nd_SvcName m)) as [->|].
  - rewrite lookup_insert_eq, E. done.
  - by rewrite lookup_insert_ne.
Qed.

Lemma upsert_nodes id v s :
  is_i32 id → is_Some (unmarshal v) → disc_wf s →
  let s' := watchEvent iter unmarshal s (etcdPath prefix svc id, Some v) in
  disc_wf s' ∧ ∀ k, nodesOf s' k = if decide (k = svc) then {[ id ]} ∪ nodesOf s svc else nodesOf s k.
Proof.
  intros Hid [m Hm] Hw. unfold watchEvent, upsertNode. cbn. rewrite Hm, parse_etcdPath by done.
  split; [by apply disc_wf_insert, Add_wf|]. intros k. rewrite nodesOf_insert. case_decide; [|done].
  cbn. rewrite dom_insert_L. unfold nodesOf. by destruct (services s !! svc).
Qed.

Lemma remove_nodes id s :
  is_i32 id → disc_wf s →
  let s' := watchEvent iter unmarshal s (etcdPath prefix svc id, None) in
  disc_wf s' ∧ ∀ k, nodesOf s' k = if decide (k = svc) then nodesOf s svc ∖ {[ id ]} else nodesOf s k.
Proof.
  intros Hid Hw. unfold watchEvent, removeNode. cbn. rewrite parse_etcdPath by done.
  destruct (services s !! svc) as [g|] eqn:E; [|].
  2: { split; [done|]. intros k. case_decide as Hk; [|done]. subst k. unfold nodesOf. rewrite E. cbn.
       symmetry. apply subseteq_empty_difference_L, empty_subseteq. }
  assert (Hd : dom (ng_nodes (Delete iter id g).1) = dom (ng_nodes g) ∖ {[ id ]} ∧ group_wf (Delete iter id g).1 ∧
               ((Delete iter id g).2 = true → dom (ng_nodes (Delete iter id g).1) = ∅)).
  { unfold Delete. destruct (ng_nodes g !! id) eqn:Eg; cbn [fst snd ng_nodes].
    - splits; [by rewrite dom_delete_L|apply Hiter|]. intros Hb%bool_decide_eq_true. rewrite Hb. apply dom_empty_L.
    - apply not_elem_of_dom in Eg. splits; [by rewrite difference_disjoint_L by (by apply disjoint_singleton_r)|by eapply Hw|].
      intros Hb%bool_decide_eq_true. rewrite Hb. apply dom_empty_L. }
  destruct (Delete iter id g) as [g' e]. cbn [fst snd] in Hd. destruct Hd as (Hd & Hg & He). destruct e.
  - split; [by apply disc_wf_delete|]. intros k. unfold nodesOf. cbn. case_decide as Hk.
    + subst k. rewrite lookup_delete_eq, E. cbn. rewrite <- Hd. by rewrite He.
    + by rewrite lookup_delete_ne.
  - split; [by apply disc_wf_insert|]. intros k. rewrite nodesOf_insert. case_decide; [|done].
    rewrite Hd. unfold nodesOf. by rewrite E.
Qed.

Lemma events_nodes evs s m :
  Forall eventOk evs → disc_wf s → nodesOf s svc = dom m →
  disc_wf (fold_left discApply evs s) ∧ nodesOf (fold_left discApply evs s) svc = dom (fold_left etcdApply evs m) ∧
  ∀ k, k ≠ svc → nodesOf (fold_left discApply evs s) k = nodesOf s k.
Proof.
  intros Hev. revert s m. induction Hev as [|e evs He _ IH]; intros s m Hw Hs; [done|]. cbn [fold_left].
  assert (Hone : disc_wf (discApply s e) ∧ nodesOf (discApply s e) svc = dom (etcdApply m e) ∧
                 ∀ k, k ≠ svc → nodesOf (discApply s e) k = nodesOf s k).
  { destruct e as [id v|id|p]; cbn [discApply etcdApply eventOk] in *.
    - destruct He as [Hid Hv]. destruct (upsert_nodes id v s Hid Hv Hw) as [Hw' Hn]. splits; [done| |].
      + rewrite Hn, decide_True by done. by rewrite dom_insert_L, Hs.
      + intros k Hk. by rewrite Hn, decide_False.
    - destruct (remove_nodes id s He Hw) as [Hw' Hn]. splits; [done| |].
      + rewrite Hn, decide_True by done. by rewrite dom_delete_L, Hs.
      + intros k Hk. by rewrite Hn, decide_False.
    - destruct (onLoadMsg_nodes p s Hw) as [Hw' Hn]. splits; [done|by rewrite Hn|by intros; rewrite Hn]. }
  destruct Hone as (Hw' & Hs' & Hk'). destruct (IH _ _ Hw' Hs') as (H1 & H2 & H3). splits; [done|done|].
  intros k Hk. by rewrite H3, Hk'.
Qed.

Lemma sync_group (l : list (Z * string)) g ids :
  Forall (λ x, is_i32 x.1 ∧ is_Some (unmarshal x.2)) l → group_wf g →
  let r := fold_left (loadNode iter unmarshal) ((λ x, (etcdPath prefix svc x.1, x.2)) <$> l) (g, ids) in
  group_wf r.1 ∧ dom (ng_nodes r.1) = list_to_set l.*1 ∪ dom (ng_nodes g).
Proof.
  intros Hl. revert g ids. induction Hl as [|[id v] l [Hid [m Hm]] _ IH]; intros g ids Hg.
  - cbn. split; [done|]. by rewrite union_empty_l_L.
  - cbn [fmap list_fmap fold_left]. unfold loadNode at 2 4. cbn [fst snd] in *. rewrite Hm, parse_etcdPath by done.
    cbn [fst snd]. destruct (IH (Add iter id (nd_Load m) g) (ids ++ [id]) (Add_wf _ _ _)) as [Hw Hd].
    split; [done|]. rewrite Hd. cbn [Add ng_nodes list_to_set]. rewrite dom_insert_L.
    rewrite (union_assoc_L _ {[id]}), (union_comm_L _ {[id]}). by rewrite <- union_assoc_L.
Qed.

(** A full load at some revision, in any order of the keys. *)
Lemma discovery_synced (etcd : gmap Z string) (l : list (Z * string)) mget s :
  disc_wf s → l ≡ₚ map_to_list etcd → Forall (λ x, is_i32 x.1 ∧ is_Some (unmarshal x.2)) l →
  let s1 := (syncSvcFullState iter unmarshal svc (Some ((λ x, (etcdPath prefix svc x.1, x.2)) <$> l)) mget s).1 in
  disc_wf s1 ∧ nodesOf s1 svc = dom etcd ∧ ∀ k, k ≠ svc → nodesOf s1 k = nodesOf s k.
Proof.
  intros Hw Hl Hok. unfold syncSvcFullState.
  destruct (sync_group l newNodeGroup [] Hok) as [Hg Hd]; [constructor|].
  destruct (fold_left (loadNode iter unmarshal) _ _) as [g ids]. cbn [fst snd] in Hg, Hd.
  set (g' := if decide (ids = []) then g else _).
  assert (group_wf g' ∧ dom (ng_nodes g') = dom (ng_nodes g)) as [Hg' Hd'].
  { unfold g'. case_decide; [done|]. destruct mget as [vals|]; [|done].
    destruct (setLoads_dom ids vals g) as [? ?]. auto. }
  cbn [fst]. cbv zeta. splits.
  - by apply disc_wf_insert.
  - rewrite nodesOf_insert, decide_True, Hd', Hd by done. cbn. rewrite dom_empty_L, union_empty_r_L.
    apply leibniz_equiv. rewrite dom_alt. by rewrite Hl.
  - intros k Hk. by rewrite nodesOf_insert, decide_False.
Qed.

(** The table of a service follows etcd: after a full load of the service's keys at
    some revision, in any order, and the events since then in order, with load messages
    of any service in between, a node is in the table exactly when its key is in etcd;
    the nodes of other services are as they were, and every table's list of ids, from
    which nodes are selected, lists exactly its nodes. *)
Theorem discovery_tracks_etcd (etcd : gmap Z string) (l : list (Z * string)) mget evs s :
  disc_wf s → l ≡ₚ map_to_list etcd → Forall (λ x, is_i32 x.1 ∧ is_Some (unmarshal x.2)) l → Forall eventOk evs →
  let s1 := (syncSvcFullState iter unmarshal svc (Some ((λ x, (etcdPath prefix svc x.1, x.2)) <$> l)) mget s).1 in
  let s2 := fold_left discApply evs s1 in
  disc_wf s2 ∧ (∀ id, id ∈ nodesOf s2 svc ↔ is_Some (fold_left etcdApply evs etcd !! id)) ∧
  ∀ k, k ≠ svc → nodesOf s2 k = nodesOf s k.
Proof.
  intros Hw Hl Hok Hev. destruct (discovery_synced etcd l mget s Hw Hl Hok) as (Hw1 & Hs1 & Ho1). cbv zeta.
  set (s1 := (syncSvcFullState _ _ _ _ _ _).1) in *.
  destruct (events_nodes evs s1 etcd Hev Hw1 Hs1) as (H1 & H2 & H3).
  splits; [done|intros id; by rewrite H2, elem_of_dom|]. intros k Hk. by rewrite H3, Ho1.
Qed.

End Track.

Definition demoIter (m : gmap Z Z) : list Z := (map_to_list m).*1.
Definition demoUnmarshal (v : string) : option Node :=
  if decide (v = EmptyString) then None else Some (mkNode "game" 0 (len (String.list_ascii_of_string v))).

Lemma discovery_tracks_etcd_witness :
  let s1 := (syncSvcFullState demoIter demoUnmarshal "game"
    (Some ((λ x, (etcdPath "/service/prod" "game" x.1, x.2)) <$> [(1, "ab"); (2, "c")])) None (mkDisc ∅ [])).1 in
  let s2 := fold_left (discApply demoIter demoUnmarshal "/service/prod" "game") [DPut 3 "x"; DDelete 1; DLoad "zz"] s1 in
  2 ∈ nodesOf s2 "game" ∧ 3 ∈ nodesOf s2 "game" ∧ 1 ∉ nodesOf s2 "game".
Proof.
  destruct (discovery_tracks_etcd demoIter ltac:(done) demoUnmarshal "/service/prod" "game" ltac:(discriminate)
    ltac:(reflexivity) (list_to_map [(1, "ab"); (2, "c")]) [(1, "ab"); (2, "c")] None
    [DPut 3 "x"; DDelete 1; DLoad "zz"] (mkDisc ∅ [])) as (_ & Hn & _).
  - intros k g Hk. cbn in Hk. by rewrite lookup_empty in Hk.
  - symmetry. apply map_to_list_to_map. apply NoDup_fmap_fst; [|dec].
    intros x y y' Hx Hy. repeat (apply elem_of_cons in Hx as [?|Hx]; simplify_eq); repeat (apply elem_of_cons in Hy as [?|Hy]; simplify_eq); by try apply elem_of_nil in Hx; try apply elem_of_nil in Hy.
  - repeat constructor; cbn; done || lia || (vm_compute; eauto).
  - repeat constructor; cbn; done || lia || (vm_compute; eauto).
  - cbv zeta. splits; [apply Hn; vm_compute; eauto..|]. intros Hc%Hn. vm_compute in Hc. by destruct Hc.
Defined.

(** ** Choosing a node *)

Lemma SelectNode_two i j g :
  (2 ≤ length (ng_nodeIDs g))%nat →
  SelectNode i j g =
    (id1 ← ng_nodeIDs g !! i; id2 ← ng_nodeIDs g !! (if decide (i ≤ j)%nat then S j else j);
     l1 ← ng_nodes g !! id1; l2 ← ng_nodes g !! id2; Some (if decide (l1 ≤ l2) then (id1, true) else (id2, true))).
Proof. unfold SelectNode. destruct (ng_nodeIDs g) as [|a [|b ids]]; cbn [length]; [lia|lia|done]. Qed.

Lemma select_spec i j (g : nodeGroup) :
  group_wf g → (i < length (ng_nodeIDs g))%nat → (j < length (ng_nodeIDs g) - 1 ∨ length (ng_nodeIDs g) = 1)%nat →
  ∃ id l, SelectNode i j g = Some (id, true) ∧ ng_nodes g !! id = Some l ∧
    (size (ng_nodes g) = 1%nat ∨ ∃ id' l', id' ≠ id ∧ ng_nodes g !! id' = Some l' ∧ l ≤ l').
Proof.
  unfold group_wf. intros Hw Hi Hj. assert (Hin : ∀ id, id ∈ ng_nodeIDs g → is_Some (ng_nodes g !! id)).
  { intros id. rewrite Hw. intros ([k v] & -> & Hkv%elem_of_map_to_list)%list_elem_of_fmap. by exists v. }
  assert (Hsz : size (ng_nodes g) = length (ng_nodeIDs g)).
  { rewrite Hw, length_fmap. symmetry. apply length_map_to_list. }
  assert (Hnd : NoDup (ng_nodeIDs g)) by (rewrite Hw; apply NoDup_fst_map_to_list).
  assert (Hcase : (∃ a, ng_nodeIDs g = [a]) ∨ (2 ≤ length (ng_nodeIDs g))%nat).
  { destruct (ng_nodeIDs g) as [|a [|b ids]]; cbn in *; [lia|left; by eexists|right; lia]. }
  destruct Hcase as [[a E]|Hlen].
  { unfold SelectNode. rewrite E in *. destruct (Hin a) as [l Hl]; [left|]. exists a, l. splits; [done|done|by left]. }
  rewrite SelectNode_two by done. set (j' := if decide (i ≤ j)%nat then S j else j).
  assert (Hj' : (j' < length (ng_nodeIDs g))%nat ∧ j' ≠ i) by (unfold j'; case_decide; lia).
  destruct (lookup_lt_is_Some_2 _ _ Hi) as [id1 E1]. destruct (lookup_lt_is_Some_2 _ _ (proj1 Hj')) as [id2 E2].
  destruct (Hin id1) as [l1 Hl1]; [by eapply list_elem_of_lookup_2|].
  destruct (Hin id2) as [l2 Hl2]; [by eapply list_elem_of_lookup_2|].
  rewrite E1. cbn. rewrite E2. cbn. rewrite Hl1. cbn. rewrite Hl2. cbn.
  assert (id1 ≠ id2) by (intros ->; apply Hj'; by eapply NoDup_lookup).
  case_decide; [exists id1, l1|exists id2, l2]; splits; try done; right; [exists id2, l2|exists id1, l1]; splits; done || lia.
Qed.


Lemma select_cases i j (g : nodeGroup) :
  group_wf g → (i < length (ng_nodeIDs g))%nat → (j < length (ng_nodeIDs g) - 1 ∨ length (ng_nodeIDs g) = 1)%nat →
  ∃ id l, SelectNode i j g = Some (id, true) ∧ ng_nodes g !! id = Some l.
Proof. intros Hw Hi Hj. destruct (select_spec i j g Hw Hi Hj) as (id & l & ? & ? & _). by exists id, l. Qed.

(** A selected node exists and is not the heaviest: with two or more nodes and any
    two random draws, the node selected is one of the table's, and never one that is strictly more loaded
    than all the others;
    a single node is chosen, and only an empty table has none. *)
Theorem select_prefers_lighter i j (g : nodeGroup) :
  group_wf g → (i < length (ng_nodeIDs g))%nat → (j < length (ng_nodeIDs g) - 1 ∨ length (ng_nodeIDs g) = 1)%nat →
  ∃ id l, SelectNode i j g = Some (id, true) ∧ ng_nodes g !! id = Some l ∧
    (size (ng_nodes g) = 1%nat ∨
     ∀ h lh, ng_nodes g !! h = Some lh → (∀ k lk, k ≠ h → ng_nodes g !! k = Some lk → lk < lh) → id ≠ h).
Proof.
  intros Hw Hi Hj. destruct (select_spec i j g Hw Hi Hj) as (id & l & Hs & Hl & Ho). exists id, l. splits; [done|done|].
  destruct Ho as [?|(id' & l' & Hne & Hl' & Hle)]; [by left|right].
  intros h lh Hh Hmax ->. specialize (Hmax id' l' Hne Hl'). simplify_eq. lia.
Qed.

Definition demoGroup : nodeGroup := mkGroup (list_to_map [(1, 10); (2, 5); (3, 30)]) [1; 2; 3].

Lemma demoGroup_wf : group_wf demoGroup.
Proof.
  unfold group_wf. change (ng_nodeIDs demoGroup) with ([(1, 10); (2, 5); (3, 30)] : list (Z * Z)).*1.
  apply fmap_Permutation. symmetry. apply map_to_list_to_map. dec.
Qed.

Lemma select_prefers_lighter_witness :
  ∃ id l, SelectNode 2 0 demoGroup = Some (id, true) ∧ ng_nodes demoGroup !! id = Some l ∧ id = 1.
Proof.
  destruct (select_prefers_lighter 2 0 demoGroup demoGroup_wf) as (id & l & Hs & Hl & _); [cbn; lia|cbn; lia|].
  exists id, l. splits; [exact Hs|exact Hl|]. vm_compute in Hs. by injection Hs.
Defined.

(** ** Allocating a game server

    The account service asks the table of the game service ([gameExists],
    [selectGameServer]); node ids fit the byte of [GameID]. *)

(** [discovery.Default.Select] as the account service sees it. *)
Definition selectedOf (i j : nat) (g : nodeGroup) : option Z :=
  match SelectNode i j g with Some (id, true) => Some id | _ => None end.

(** A login is sent to a game server that exists: with at least one node in the table
    of the game service, the allocation succeeds and gives a node of the table, the one
    the player is still on if that one is there; with an empty table it reports that
    there is no game server. *)
Theorem allocated_game_exists i j (g : nodeGroup) last :
  group_wf g → (∀ id, is_Some (ng_nodes g !! id) → 0 < id < 256) → is_u8 last →
  (i < length (ng_nodeIDs g) ∧ (j < length (ng_nodeIDs g) - 1 ∨ length (ng_nodeIDs g) = 1) ∨ ng_nodeIDs g = [])%nat →
  let '(gameID, code) := allocateGameServer (λ id, group_Exists id g) (selectedOf i j g) last 0 in
  (ng_nodes g ≠ ∅ ∧ code = LCSuccess ∧ is_Some (ng_nodes g !! gameID) ∧ (is_Some (ng_nodes g !! last) → gameID = last)) ∨
  (ng_nodes g = ∅ ∧ code = LCNoGame).
Proof.
  intros Hw Hid Hlast Hij. unfold allocateGameServer.
  assert (Hkeep : is_Some (ng_nodes g !! last) → last ≠ 0 ∧ group_Exists last g = true ∧ ng_nodes g ≠ ∅).
  { intros Hs. pose proof (Hid _ Hs). splits; [lia|by apply bool_decide_eq_true_2|].
    intros E. rewrite E, lookup_empty in Hs. by destruct Hs. }
  destruct (decide (is_Some (ng_nodes g !! last))) as [Hs|Hs].
  { destruct (Hkeep Hs) as (H0 & He & Hne). rewrite decide_True, He by done. cbv zeta beta iota. by left. }
  assert (Hsel : ∀ T (x y : T), (if group_Exists last g then x else y) = y).
  { intros. unfold group_Exists. by rewrite bool_decide_false. }
  rewrite Hsel. assert (∀ T (x : T), (if decide (last ≠ 0) then x else x) = x) as -> by (intros; by case_decide).
  unfold selectGameServer, selectedOf. destruct Hij as [[Hi Hj]|Hnil].
  - destruct (select_cases i j g Hw Hi Hj) as (id & l & -> & Hl). cbv zeta beta iota. left.
    pose proof (Hid id ltac:(by eexists)) as Hr. unfold u8. rewrite Z.mod_small by lia.
    splits; [|done|by eexists|done]. intros E. by rewrite E, lookup_empty in Hl.
  - unfold SelectNode. rewrite Hnil. cbv zeta beta iota. right. split; [|done]. unfold group_wf in Hw. rewrite Hnil in Hw.
    apply Permutation_nil_l in Hw. apply map_to_list_empty_iff. symmetry in Hw. by apply fmap_nil_inv in Hw.
Qed.

Lemma allocated_game_exists_witness :
  allocateGameServer (λ id, group_Exists id demoGroup) (selectedOf 0 1 demoGroup) 3 0 = (3, LCSuccess) ∧
  ∃ g, allocateGameServer (λ id, group_Exists id demoGroup) (selectedOf 0 1 demoGroup) 9 0 = (g, LCSuccess) ∧
       is_Some (ng_nodes demoGroup !! g).
Proof.
  assert (Hid : ∀ id, is_Some (ng_nodes demoGroup !! id) → 0 < id < 256).
  { intros id Hs. assert (Hd : id ∈ dom (ng_nodes demoGroup)) by by apply elem_of_dom.
    change (dom (ng_nodes demoGroup)) with ({[1; 2; 3]} : gset Z) in Hd.
    rewrite !elem_of_union, !elem_of_singleton in Hd. lia. }
  pose proof (allocated_game_exists 0 1 demoGroup 3 demoGroup_wf Hid ltac:(dec) ltac:(left; cbn; lia)) as H3.
  pose proof (allocated_game_exists 0 1 demoGroup 9 demoGroup_wf Hid ltac:(dec) ltac:(left; cbn; lia)) as H9.
  split; [reflexivity|].
  destruct (allocateGameServer _ _ 9 0) as [g c]. destruct H9 as [(_ & -> & Hg & _)|[Hn _]]; [by exists g|].
  by vm_compute in Hn.
Defined.

(** ** register.go: the lease

    A registered node's key lives as long as its lease; when the keep-alive ends, its loop
    calls [keepAlive] again. *)

Record Register := mkReg { rg_leaseID : Z; rg_first : bool; rg_load : Z }.

(** [grant]: the lease etcd grants, or an error; [put]: the write succeeds. The result
    has the lease the key is now stored under. *)
Definition initialRegister (grant : option Z) (put : bool) (s : Register) (key : option Z) : Register * option Z * bool :=
  match grant with
  | None => (s, key, false)
  | Some lease => (mkReg lease (rg_first s) (rg_load s), if put then Some lease else key, put)
  end.

(** [NewRegister] with the lease it obtained. *)
Definition NewRegister (lease : Z) : Register * option Z :=
  let '(s, key, _) := initialRegister (Some lease) true (mkReg 0 true 0) None in (s, key).

(** The registration part of [keepAlive]; then it renews the lease until that fails. *)
Definition keepAlive (grant : option Z) (put : bool) (s : Register) (key : option Z) : Register * option Z :=
  if negb (rg_first s)
  then let '(s, key, _) := initialRegister grant put s key in (mkReg (rg_leaseID s) false (rg_load s), key)
  else (s, key).

Definition Register_UpdateLoad (load : Z) (s : Register) : Register := mkReg (rg_leaseID s) (rg_first s) load.

(** A tick of [reportLoadLoop]: what was reported last, the ticks since then, and the
    load reported now, if any. *)
Definition reportTick (load : Z) (st : Z * Z) : Z * Z * option Z :=
  let ticks := st.2 + 1 in
  if decide (Z.abs (i32 (load - st.1)) > 5 ∨ ticks > 5) then (load, 0, Some load) else (st.1, ticks, None).

Inductive regstep : Register * option Z → Register * option Z → Prop :=
| rg_keepAlive s key grant put : regstep (s, key) (keepAlive grant put s key)
| rg_update s key load : regstep (s, key) (Register_UpdateLoad load s, key)
| rg_expire s key : regstep (s, Some key) (s, None).                 (* the lease runs out *)

Lemma first_preserved : preserved regstep (λ x, rg_first x.1 = true).
Proof. intros x y Hs Hf. destruct Hs; cbn in *; [|done..]. unfold keepAlive. by rewrite Hf. Qed.

(** A node whose lease ran out never comes back: whatever etcd answers afterwards, the
    keep-alive loop does not write the node's key again, because the flag that guards the
    new registration is set at the start and only cleared inside the guarded branch. *)
Theorem lost_lease_is_final lease x y :
  rtc regstep (NewRegister lease) x → x.2 = None → rtc regstep x y → y.2 = None.
Proof.
  intros Hx Hn Hy. assert (Hf : rg_first x.1 = true) by by apply (rtc_preserved _ _ _ _ first_preserved Hx).
  apply (rtc_preserved regstep (λ x, rg_first x.1 = true ∧ x.2 = None) x y); [|done|done].
  intros u v Hs [Hfu Hnu]. split; [by apply (first_preserved _ _ Hs)|].
  destruct Hs; cbn in *; [|done..]. unfold keepAlive. by rewrite Hfu.
Qed.

Lemma lost_lease_is_final_witness : (keepAlive (Some 8) true (mkReg 7 true 0) None).2 = None.
Proof.
  apply (lost_lease_is_final 7 (mkReg 7 true 0, None)).
  - eapply rtc_l; [apply (rg_expire (mkReg 7 true 0) 7)|]. apply rtc_refl.
  - reflexivity.
  - eapply rtc_l; [apply (rg_keepAlive _ _ (Some 8) true)|]. apply rtc_refl.
Defined.

(** Between two reports the load moved by at most 5, and a report comes at least every
    sixth tick. *)
Lemma report_fresh load st last ticks out :
  st.2 ≤ 5 → reportTick load st = (last, ticks, out) → ticks ≤ 5 ∧ (last = load ∨ Z.abs (i32 (load - last)) ≤ 5).
Proof. intros Ht. unfold reportTick. case_decide as Hd; intros [= <- <- <-]; [by split; [lia|left]|]. split; lia. Qed.
