(* ===== verification/Watch.v ===== *)
(** * pkg/discovery: following etcd across failures

    [discover.go]: [Watch], [watchEtcdLoop], [watchRedisLoop]; [register.go]: [Close];
    [service.go]: the [Manager] that the processes use. The goroutines that keep the table
    of one service are a step system beside the log of changes etcd makes to the service's
    keys: a read of all keys, the watch that continues from the revision of that read, its
    interruptions, and the load messages of Redis. The operations on the table are those of
    [Discovery.v]. *)

From S2P Require Import Prelude DataBus Redis Account Discovery.

(** ** service.go: Manager *)

(** [m_etcd]: the client is open. *)
Record Manager := mkMgr { m_prefix : string; m_register : option Register; m_discovery : option Discoverer; m_etcd : bool }.

(** [open]: the etcd client could be created. *)
Definition NewManager (prod : string) (open : bool) : result Manager :=
  if open then Ok (mkMgr ("/service/" +:+ prod) None None true) else Err (ErrMsg "create etcd service failed").

(** [Default] is set only when it could be created. *)
Definition InitDefault (prod : string) (open : bool) (Default : option Manager) : option Manager * go_error :=
  match NewManager prod open with
  | Ok m => (Some m, None)
  | Err e => (Default, Some e)
  end.

Definition NewDiscovery : Discoverer := mkDisc ∅ [].

(** [grant], [put]: etcd's answers to the registration; [key] is the node's key in etcd, by
    its lease. On an error the register is nil again, while the key may be stored. *)
Definition Manager_Register (grant : option Z) (put : bool) (m : Manager) (key : option Z) : Manager * option Z * go_error :=
  let '(r, key, ok) := initialRegister grant put (mkReg 0 true 0) key in
  if ok : bool then (mkMgr (m_prefix m) (Some r) (m_discovery m) (m_etcd m), key, None)
  else (mkMgr (m_prefix m) None (m_discovery m) (m_etcd m), key, Some (ErrMsg "initial etcd register failed")).

Definition Manager_UpdateLoad (load : Z) (m : Manager) : Manager :=
  mkMgr (m_prefix m) (Register_UpdateLoad load <$> m_register m) (m_discovery m) (m_etcd m).

(** [revoked]: etcd revokes the lease; the keys of a revoked lease are gone. *)
Definition Register_Close (revoked : bool) (s : Register) (key : option Z) : option Z :=
  if decide (rg_leaseID s ≠ 0)
  then if revoked then (if decide (key = Some (rg_leaseID s)) then None else key) else key
  else key.

Definition Manager_Close (revoked : bool) (m : Manager) (key : option Z) : Manager * option Z :=
  (mkMgr (m_prefix m) (m_register m) (m_discovery m) false,
   match m_register m with Some r => Register_Close revoked r key | None => key end).

Section Mgr.
Context (iter : gmap Z Z → list Z) (unmarshal : string → option Node).

(** [answers]: what etcd and Redis answer the full load of each dependency. *)
Definition Manager_Watch (deps : list (string * (option (list (string * string)) * option (list (option string))))) (m : Manager) : Manager :=
  mkMgr (m_prefix m) (m_register m)
    (Some (fold_left (λ d x, Watch iter unmarshal x.1 x.2.1 x.2.2 d) deps NewDiscovery)) (m_etcd m).

Definition set_disc (d : Discoverer) (m : Manager) : Manager := mkMgr (m_prefix m) (m_register m) (Some d) (m_etcd m).

Definition Manager_Exists (srvName : string) (id : Z) resp mget (m : Manager) : Manager * bool :=
  match m_discovery m with
  | None => (m, false)
  | Some d => let '(d, b) := Discoverer_Exists iter unmarshal srvName id resp mget d in (set_disc d m, b)
  end.

Definition Manager_Select (srvName : string) (i j : nat) resp mget (m : Manager) : option (Manager * (Z * bool)) :=
  match m_discovery m with
  | None => Some (m, (0, false))
  | Some d => '(d, r) ← Discoverer_Select iter unmarshal srvName i j resp mget d; Some (set_disc d m, r)
  end.

Definition GetAllNodes (svcName : string) resp mget (s : Discoverer) : Discoverer * (list Z * bool) :=
  let '(s, one) := getService iter unmarshal svcName resp mget s in
  (s, match one with None => ([], false) | Some one => (AllNodeIDs one, true) end).

End Mgr.

(** ** discover.go: the loops of a service *)

(** Where the goroutines of a service are. [first]: in the full load of [Watch] itself;
    afterwards at the top of [watchEtcdLoop]. [WStore] has the answer of a read that saw the
    first [n] changes; [WStream n] has applied the first [n]. *)
Inductive wphase :=
| WIdle
| WRead (first : bool)
| WStore (first : bool) (n : nat) (kvs : list (Z * string))
| WWait
| WStream (n : nat)
| WEnded.

(** [w_hist]: the changes of the service's keys, oldest first; [w_at]: how many of them the
    table shows, which the code does not store. *)
Record wsys := mkW { w_hist : list discEvent; w_disc : Discoverer; w_loop : wphase; w_at : nat }.

Definition etcdAt (hist : list discEvent) (n : nat) : gmap Z string := fold_left etcdApply (take n hist) ∅.

Section Loop.
Context (iter : gmap Z Z → list Z) (Hiter : ∀ m, iter m ≡ₚ (map_to_list m).*1).
Context (unmarshal : string → option Node) (prefix svc : string).
Context (Hne : svc ≠ EmptyString) (Hslash : count slash svc = 0%nat).

Definition keyed (kvs : list (Z * string)) : list (string * string) := (λ x, (etcdPath prefix svc x.1, x.2)) <$> kvs.

(** A change of the service's keys. *)
Definition isChange (e : discEvent) : Prop := match e with DLoad _ => False | _ => eventOk unmarshal e end.

Definition enter (d : Discoverer) : Discoverer := mkDisc (services d) (svc :: watching d).

Inductive wstep : wsys → wsys → Prop :=
| ws_etcd h d p a e : isChange e → wstep (mkW h d p a) (mkW (h ++ [e]) d p a)
| ws_load h d p a payload : wstep (mkW h d p a) (mkW h (onLoadMsg unmarshal payload d) p a)   (* watchRedis *)
| ws_watch h d a : svc ∉ watching d → wstep (mkW h d WIdle a) (mkW h (enter d) (WRead true) a)
| ws_get h d first a kvs :
    kvs ≡ₚ map_to_list (etcdAt h (length h)) →
    wstep (mkW h d (WRead first) a) (mkW h d (WStore first (length h) kvs) a)
| ws_getFailed h d (first : bool) a : wstep (mkW h d (WRead first) a) (mkW h d (if first then WRead false else WWait) a)
| ws_store h d (first : bool) n kvs mget a :
    wstep (mkW h d (WStore first n kvs) a)
          (mkW h (syncSvcFullState iter unmarshal svc (Some (keyed kvs)) mget d).1 (if first then WRead false else WStream n) n)
| ws_retry h d a : wstep (mkW h d WWait a) (mkW h d (WRead false) a)
| ws_event h d n e a : h !! n = Some e → wstep (mkW h d (WStream n) a) (mkW h (discApply iter unmarshal prefix svc d e) (WStream (S n)) (S n))
| ws_interrupted h d n a : wstep (mkW h d (WStream n) a) (mkW h d (WRead false) a)           (* cancelled, compacted *)
| ws_closed h d p a : p ≠ WIdle → wstep (mkW h d p a) (mkW h d WEnded a).                     (* Close *)

Definition loop_ok (h : list discEvent) (p : wphase) (a : nat) : Prop :=
  match p with
  | WStream n => n = a
  | WStore _ n kvs => (a ≤ n ≤ length h)%nat ∧ kvs ≡ₚ map_to_list (etcdAt h n)
  | _ => True
  end.

(** The table shows etcd as of revision [w_at]. *)
Definition winv (s : wsys) : Prop :=
  disc_wf (w_disc s) ∧ Forall isChange (w_hist s) ∧ (w_at s ≤ length (w_hist s))%nat ∧
  nodesOf (w_disc s) svc = dom (etcdAt (w_hist s) (w_at s)) ∧ loop_ok (w_hist s) (w_loop s) (w_at s).

Lemma etcdAt_app h e n : (n ≤ length h)%nat → etcdAt (h ++ [e]) n = etcdAt h n.
Proof. intros Hn. unfold etcdAt. by rewrite take_app_le. Qed.

Lemma etcdAt_S h n e : h !! n = Some e → etcdAt h (S n) = etcdApply (etcdAt h n) e.
Proof. intros E. unfold etcdAt. by rewrite (take_S_r h n e E), fold_left_app. Qed.

(** Only what registration wrote is in etcd. *)
Lemma etcdAt_ok h n : Forall isChange h → map_Forall (λ id v, is_i32 id ∧ is_Some (unmarshal v)) (etcdAt h n).
Proof.
  intros Hh. unfold etcdAt. assert (Ht : Forall isChange (take n h)) by by apply Forall_take. clear Hh.
  rewrite <- (reverse_involutive (take n h)) in *. set (l := reverse (take n h)) in *. clearbody l.
  induction l as [|e l IH]; [apply map_Forall_empty|]. rewrite reverse_cons in *. rewrite fold_left_app.
  apply Forall_app in Ht as [Ht He]. inversion He as [|? ? He' _]; subst. specialize (IH Ht). cbn [fold_left].
  destruct e as [id v|id|p]; [|by apply map_Forall_delete|done].
  intros k w. cbn. intros [[<- <-]|[_ ?]]%lookup_insert_Some; [done|by apply (IH k w)].
Qed.

(** A full load shows exactly the keys it read. *)
Lemma store_nodes h n kvs mget d :
  disc_wf d → Forall isChange h → kvs ≡ₚ map_to_list (etcdAt h n) →
  let d' := (syncSvcFullState iter unmarshal svc (Some (keyed kvs)) mget d).1 in
  disc_wf d' ∧ nodesOf d' svc = dom (etcdAt h n).
Proof.
  intros Hw Hh Hk. assert (Hok : Forall (λ x, is_i32 x.1 ∧ is_Some (unmarshal x.2)) kvs).
  { rewrite Hk. apply Forall_forall. intros [id v] Hin%elem_of_map_to_list. by apply (etcdAt_ok h n Hh id v). }
  destruct (discovery_synced iter Hiter unmarshal prefix svc Hne Hslash (etcdAt h n) kvs mget d Hw Hk Hok) as (H1 & H2 & _).
  done.
Qed.

Lemma event_nodes e d m :
  isChange e → disc_wf d → nodesOf d svc = dom m →
  disc_wf (discApply iter unmarshal prefix svc d e) ∧
  nodesOf (discApply iter unmarshal prefix svc d e) svc = dom (etcdApply m e).
Proof.
  intros He Hw Hm. destruct (events_nodes iter Hiter unmarshal prefix svc Hne Hslash [e] d m) as (H1 & H2 & _); [|done..].
  repeat constructor. by destruct e.
Qed.

Lemma watch_preserved : preserved wstep winv.
Proof.
  intros s s' Hs (Hw & Hh & Ha & Hn & Hl). unfold winv. destruct Hs as [h d p a e He|h d p a payload|h d a Hi|h d first a kvs Hk
    |h d first a|h d first n kvs mget a|h d a|h d n e a E|h d n a|h d p a Hp]; cbn [w_disc w_hist w_loop w_at] in *.
  - rewrite length_app, etcdAt_app by done. splits; [done|by apply Forall_app; split; [|repeat constructor]|lia|done|].
    destruct p; cbn [loop_ok] in *; try done. rewrite length_app. destruct Hl as [Hl1 Hl2]. rewrite etcdAt_app by lia. split; [lia|done].
  - destruct (onLoadMsg_nodes unmarshal payload d Hw) as [Hw' Hk]. rewrite Hk. done.
  - splits; done.
  - splits; try done; lia.
  - splits; try done. by destruct first.
  - destruct Hl as [Hl Hk]. destruct (store_nodes h n kvs mget d Hw Hh Hk) as [Hw' Hn'].
    splits; try done; [lia|by destruct first].
  - done.
  - cbn [loop_ok] in Hl. subst a. destruct (event_nodes e d (etcdAt h n)) as [Hw' Hn']; [by eapply Forall_lookup_1|done..|].
    rewrite (etcdAt_S h n e E). splits; try done. apply lookup_lt_Some in E. lia.
  - splits; done.
  - splits; done.
Qed.

(** The table only moves forward. *)
Lemma forward s s' : winv s → wstep s s' → (w_at s ≤ w_at s')%nat.
Proof. intros (_ & _ & _ & _ & Hl) Hs. destruct Hs; cbn in *; lia. Qed.

(** Where the goroutine is after a step in which nothing failed. *)
Definition moves (p p' : wphase) : Prop :=
  match p, p' with
  | WRead first, WStore first' _ _ => first' = first
  | WStore true _ _, WRead first => first = false
  | WStore false n _, WStream n' => n' = n
  | WWait, WRead first => first = false
  | WStream n, WStream n' => n' = S n
  | _, _ => False
  end.

(** The steps in which nothing fails and etcd does not change: the reads are answered, the
    stream delivers the next change. *)
Definition wprog (s s' : wsys) : Prop := wstep s s' ∧ w_hist s' = w_hist s ∧ moves (w_loop s) (w_loop s').

Lemma wprog_get h d first a kvs : kvs ≡ₚ map_to_list (etcdAt h (length h)) →
  wprog (mkW h d (WRead first) a) (mkW h d (WStore first (length h) kvs) a).
Proof. intros Hk. split; [by constructor|done]. Qed.
Lemma wprog_store h d (first : bool) n kvs mget a :
  wprog (mkW h d (WStore first n kvs) a)
    (mkW h (syncSvcFullState iter unmarshal svc (Some (keyed kvs)) mget d).1 (if first then WRead false else WStream n) n).
Proof. split; [by constructor|]. by destruct first. Qed.

(** How many of these steps are left at most. *)
Definition wleft (s : wsys) : nat :=
  match w_loop s with
  | WRead true => 4
  | WStore true _ _ | WWait => 3
  | WRead false => 2
  | WStore false n _ => S (length (w_hist s) - n)
  | WStream n => length (w_hist s) - n
  | WIdle | WEnded => 0
  end.

Lemma wprog_left s s' : winv s → wprog s s' → (wleft s' < wleft s)%nat ∧ w_hist s' = w_hist s ∧ w_loop s' ≠ WIdle ∧ w_loop s' ≠ WEnded.
Proof.
  intros Hi (Hst & Eh & Hm). destruct (watch_preserved _ _ Hst Hi) as (_ & _ & Ha' & _ & Hl').
  destruct Hi as (_ & _ & _ & _ & Hl). unfold wleft. rewrite Eh in *.
  destruct (w_loop s) as [|first|[] n kvs| |n|] eqn:E1, (w_loop s') as [|first'|first' n' kvs'| |n'|] eqn:E2;
    cbn [moves loop_ok] in *; try done; subst; splits; try done; try lia.
  destruct first; [lia|]. destruct Hst as [| | |h d f a kvs Hk|? ? []| | | | |]; cbn in *; simplify_eq; try lia.
Qed.

(** Only a loop that shows all of etcd has nothing left to do. *)
Lemma wprog_stuck s : winv s → w_loop s ≠ WIdle → w_loop s ≠ WEnded → (∀ s', ¬ wprog s s') → w_at s = length (w_hist s).
Proof.
  destruct s as [h d p a]. intros (_ & _ & Ha & _ & Hl) H1 H2 Hno. cbn [w_disc w_hist w_loop w_at] in *.
  destruct p as [|first|first n kvs| |n|]; try done; cbn [loop_ok] in Hl.
  - by destruct (Hno _ (wprog_get h d first a _ (reflexivity _))).
  - by destruct (Hno _ (wprog_store h d first n kvs None a)).
  - by destruct (Hno (mkW h d (WRead false) a)); split; [constructor|].
  - subst a. destruct (decide (n = length h)) as [|Hn]; [done|]. destruct (lookup_lt_is_Some_2 h n) as [e E]; [lia|].
    destruct (Hno (mkW h (discApply iter unmarshal prefix svc d e) (WStream (S n)) (S n))). split; [by constructor|done].
Qed.

Lemma wprog_run k s s' : winv s → w_loop s ≠ WIdle → w_loop s ≠ WEnded → nsteps wprog k s s' →
  (k + wleft s' ≤ wleft s)%nat ∧ w_hist s' = w_hist s ∧ winv s' ∧ w_loop s' ≠ WIdle ∧ w_loop s' ≠ WEnded.
Proof.
  intros Hi H1 H2 Hr. induction Hr as [s|k s t s' Hst _ IH]; [splits; done || lia|].
  destruct (wprog_left _ _ Hi Hst) as (Hlt & Eh & N1 & N2).
  destruct (IH (watch_preserved _ _ (proj1 Hst) Hi) N1 N2) as (? & ? & ? & ? & ?).
  splits; try done; [lia|congruence].
Qed.

(** C13. The table of a watched service follows etcd across failures: in every interleaving of
    etcd's changes, failed reads, interrupted or compacted watches and load messages, the
    nodes in the table are those etcd had after some number of its changes, this number
    never decreases, and it is the number of changes the stream has applied. From every
    state in which the loop still runs, every continuation in which nothing fails any more
    and etcd makes no further change (only answered reads, the retry timer and deliveries of
    the stream) ends within a number of steps that is bounded by the number of changes plus
    four, and when it has ended the table shows exactly the nodes etcd has. *)
Theorem watch_follows_etcd s s' :
  rtc wstep (mkW [] NewDiscovery WIdle 0) s → rtc wstep s s' →
  disc_wf (w_disc s') ∧ (w_at s ≤ w_at s' ≤ length (w_hist s'))%nat ∧
  nodesOf (w_disc s') svc = dom (etcdAt (w_hist s') (w_at s')) ∧
  (w_loop s' = WStream (length (w_hist s')) → nodesOf (w_disc s') svc = dom (etcdAt (w_hist s') (length (w_hist s')))) ∧
  (w_loop s' ≠ WIdle → w_loop s' ≠ WEnded →
   ∀ k s2, nsteps wprog k s' s2 →
     (k ≤ length (w_hist s') + 4)%nat ∧ w_hist s2 = w_hist s' ∧
     ((∀ s3, ¬ wprog s2 s3) → nodesOf (w_disc s2) svc = dom (etcdAt (w_hist s') (length (w_hist s'))))).
Proof.
  intros Hr Hr'. assert (Hi : winv s).
  { eapply rtc_preserved; [apply watch_preserved|exact Hr|]. unfold winv. cbn. splits; done. }
  assert (Hi' : winv s' ∧ (w_at s ≤ w_at s')%nat).
  { clear Hr. induction Hr' as [s|s t s' Hst _ IH]; [done|].
    pose proof (forward _ _ Hi Hst). destruct (IH (watch_preserved _ _ Hst Hi)). split; [done|lia]. }
  destruct Hi' as [Hi' Hle]. pose proof Hi' as (Hw & Hh & Ha & Hn & Hl). splits; try done.
  - intros E. rewrite E in Hl. cbn in Hl. by rewrite Hl.
  - intros H1 H2 k s2 Hk. destruct (wprog_run k s' s2 Hi' H1 H2 Hk) as (Hb & Eh & Hi2 & N1 & N2). splits; [|done|].
    + assert (wleft s' ≤ length (w_hist s') + 4)%nat; [|lia]. unfold wleft. destruct (w_loop s') as [|[]|[] ? ?| | |]; lia.
    + intros Hno. pose proof (wprog_stuck s2 Hi2 N1 N2 Hno) as Ea. destruct Hi2 as (_ & _ & _ & Hn2 & _).
      by rewrite Hn2, Ea, Eh.
Qed.

(** A second caller that looks the service up while the first one's full load is still on
    its way finds nothing: the service is already marked as watched, so [Watch] returns at
    once, whatever etcd has. *)
Theorem concurrent_first_lookup_misses h d a (s : wsys) resp mget :
  svc ∉ watching d → services d !! svc = None → wstep (mkW h d WIdle a) s → w_loop s = WRead true →
  getService iter unmarshal svc resp mget (w_disc s) = (w_disc s, None).
Proof.
  intros Hn Hs Hst Hp. inversion Hst; subst; cbn in Hp; try done. cbn [w_disc]. unfold getService, enter. cbn [services].
  rewrite Hs. unfold Watch. rewrite decide_True by (cbn; by left). cbn [services]. by rewrite Hs.
Qed.

End Loop.

(** A run: node 1 registers, the service is watched, node 2 registers, the watch breaks off,
    node 1 goes away, and the loop has loaded again. *)
Definition demoW (h : list discEvent) (p : wphase) (a : nat) (d : Discoverer) : wsys := mkW h d p a.
Definition demoEnd : Discoverer :=
  (syncSvcFullState demoIter demoUnmarshal "game" (Some (keyed "/service/prod" "game" [(2, "yy")])) None
    (discApply demoIter demoUnmarshal "/service/prod" "game"
      (syncSvcFullState demoIter demoUnmarshal "game" (Some (keyed "/service/prod" "game" [(1, "x")])) None (enter "game" NewDiscovery)).1
      (DPut 2 "yy"))).1.

Definition demoBroken : Discoverer :=
  discApply demoIter demoUnmarshal "/service/prod" "game"
    (syncSvcFullState demoIter demoUnmarshal "game" (Some (keyed "/service/prod" "game" [(1, "x")])) None (enter "game" NewDiscovery)).1
    (DPut 2 "yy").

Lemma watch_follows_etcd_witness :
  nodesOf demoBroken "game" = {[ 1; 2 ]} ∧ nodesOf demoEnd "game" = {[ 2 ]}.
Proof.
  set (h := [DPut 1 "x"; DPut 2 "yy"; DDelete 1]).
  assert (Hr : rtc (wstep demoIter demoUnmarshal "/service/prod" "game") (mkW [] NewDiscovery WIdle 0) (mkW h demoBroken (WRead false) 2)).
  { eapply rtc_l; [apply (ws_etcd _ _ _ _ [] NewDiscovery WIdle 0 (DPut 1 "x")); vm_compute; split; [by split|eauto]|]. cbn [app].
    eapply rtc_l; [apply ws_watch; dec|].
    eapply rtc_l; [apply (ws_getFailed _ _ _ _ _ _ true)|]. eapply rtc_l; [by apply (ws_get _ _ _ _ _ _ _ _ [(1, "x")])|].
    eapply rtc_l; [apply (ws_store _ _ _ _ _ _ false _ _ None)|].
    eapply rtc_l; [apply (ws_etcd _ _ _ _ _ _ _ _ (DPut 2 "yy")); vm_compute; split; [by split|eauto]|]. cbn [app].
    eapply rtc_l; [by apply (ws_event _ _ _ _ _ _ _ (DPut 2 "yy"))|].
    eapply rtc_l; [apply (ws_etcd _ _ _ _ _ _ _ _ (DDelete 1)); vm_compute; by split|]. cbn [app].
    eapply rtc_l; [apply ws_interrupted|]. apply rtc_refl. }
  destruct (watch_follows_etcd demoIter ltac:(done) demoUnmarshal "/service/prod" "game" ltac:(discriminate) ltac:(reflexivity)
    _ _ Hr (rtc_refl _ _)) as (_ & _ & Hn & _ & Hlive). split; [exact Hn|].
  destruct (Hlive ltac:(discriminate) ltac:(discriminate) 2%nat (mkW h demoEnd (WStream 3) 3)) as (_ & _ & Hend).
  - eapply nsteps_l; [by apply (wprog_get _ _ _ _ _ _ _ _ [(2, "yy")])|].
    eapply nsteps_l; [apply (wprog_store _ _ _ _ _ _ false _ _ None)|]. apply nsteps_O.
  - apply Hend. intros s3 (Hs & Eh & Hm). inversion Hs; subst; cbn in *; try done.
Defined.

Lemma concurrent_first_lookup_misses_witness :
  getService demoIter demoUnmarshal "game" (Some [(etcdPath "/service/prod" "game" 1, "x")]) None (enter "game" NewDiscovery)
  = (enter "game" NewDiscovery, None).
Proof.
  apply (concurrent_first_lookup_misses demoIter demoUnmarshal "/service/prod" "game" [DPut 1 "x"] NewDiscovery 0
    (mkW [DPut 1 "x"] (enter "game" NewDiscovery) (WRead true) 0)); [dec|done|by apply ws_watch; dec|done].
Defined.

(** ** Registering and going away *)

(** The node's key lives from a successful registration to [Close]: a registration that
    succeeds stores the key under the lease the register holds, reports of the load keep it,
    and [Close] with a working etcd removes it, unless the lease had run out before. If the
    revocation fails, the key stays until the lease runs out. *)
Theorem registered_until_closed (m : Manager) lease loads revoked :
  lease ≠ 0 →
  let '(m1, key1, err) := Manager_Register (Some lease) true m None in
  let m2 := fold_left (λ m l, Manager_UpdateLoad l m) loads m1 in
  err = None ∧ key1 = Some lease ∧ rg_leaseID <$> m_register m2 = Some lease ∧
  (Manager_Close revoked m2 key1).2 = (if revoked then None else Some lease) ∧ m_etcd (Manager_Close revoked m2 key1).1 = false.
Proof.
  intros Hl. cbn. assert (H : ∀ ls m, rg_leaseID <$> m_register m = Some lease →
    rg_leaseID <$> m_register (fold_left (λ m l, Manager_UpdateLoad l m) ls m) = Some lease).
  { induction ls as [|x ls IH]; intros m' Hm; [done|]. cbn. apply IH. unfold Manager_UpdateLoad. cbn.
    destruct (m_register m'); [|done]. cbn in *. by injection Hm as <-. }
  set (m1 := mkMgr _ _ _ _). specialize (H loads m1 eq_refl). splits; [done|done|done| |done].
  unfold Manager_Close. cbn. destruct (m_register _) as [r|]; [|done]. cbn in H. injection H as H.
  unfold Register_Close. rewrite H, decide_True by done. destruct revoked; [by rewrite decide_True|done].
Qed.

Lemma registered_until_closed_witness :
  (Manager_Close true (fold_left (λ m l, Manager_UpdateLoad l m) [3; 4]
     (Manager_Register (Some 7) true (mkMgr "/service/prod" None None true) None).1.1) (Some 7)).2 = None.
Proof.
  pose proof (registered_until_closed (mkMgr "/service/prod" None None true) 7 [3; 4] true ltac:(lia)) as H.
  cbv zeta beta in H. cbn in H. by destruct H as (_ & _ & _ & H & _).
Defined.
