(* ===== verification/EventLoop.v ===== *)
(** * Mailboxes and the event loop of a role

    Roles and actors each own a swap queue and one goroutine that waits for its
    token, takes the batch and handles it event by event, while any other goroutine may
    push. [mbox] is that queue together with its history; [rloop] is the goroutine of
    [Role.Run] (internal/game/role/role.go) with everything that may interleave with
    it. *)

From S2P Require Import Prelude SwapQueue.

(** ** Mailboxes *)

Section Mailbox.
Context {E : Type} (zero : E) (growcap : Z → Z → Z).

(** [owed]: goroutines between an update ([pushData], a cancellation) and the [Wake]
    that follows it. [accepted], [taken]: all events pushed without an error, and those
    the consumer took. *)
Record mbox := mkMB { mq : SwapQueue E; owed : nat; accepted : list E; taken : list E }.

Definition mb_new (sz mx : Z) : mbox := mkMB (NewSwapQueue sz mx) 0 [] [].

Definition mb_push (x : E) (b : mbox) : mbox :=
  let '(q, err) := pushData growcap x (mq b) in
  mkMB q (S (owed b)) (if err is None then accepted b ++ [x] else accepted b) (taken b).
Definition mb_owe (b : mbox) : mbox := mkMB (mq b) (S (owed b)) (accepted b) (taken b).
Definition mb_wake (b : mbox) : mbox := mkMB (Wake (mq b)) (pred (owed b)) (accepted b) (taken b).

Definition mb_recv (b : mbox) : option mbox :=
  q ← recvSig (mq b); Some (mkMB q (owed b) (accepted b) (taken b)).

(** The critical section of [Range]: the batch it will iterate over. *)
Definition mb_take (b : mbox) : mbox * list E :=
  match write (mq b) with
  | [] => (b, [])
  | l => (mkMB (swap (mq b)) (owed b) (accepted b) (taken b ++ l), l)
  end.
(** The end of [Range], reached only when the batch was not empty. *)
Definition mb_finish (b : mbox) : mbox := mkMB (finish zero (mq b)) (owed b) (accepted b) (taken b).

(** What other goroutines do to the mailbox. *)
Inductive menv : mbox → mbox → Prop :=
| menv_push x b : menv b (mb_push x b)
| menv_wake b : (0 < owed b)%nat → menv b (mb_wake b).

Definition mb_ok (mx : Z) (b : mbox) : Prop :=
  accepted b = taken b ++ write (mq b) ∧ len (write (mq b)) ≤ Z.max 0 mx ∧ maxSize (mq b) = mx.

(** Whoever waits for work will be woken. *)
Definition mb_awake (b : mbox) : Prop := write (mq b) ≠ [] → sig (mq b) = true ∨ (0 < owed b)%nat.

Lemma mb_new_ok sz mx : mb_ok mx (mb_new sz mx).
Proof. unfold mb_ok. splits; [done|cbn; lens|done]. Qed.

Lemma mb_push_ok mx x b : mb_ok mx b → mb_ok mx (mb_push x b).
Proof.
  intros (Ha & Hw & Hm). unfold mb_ok, mb_push.
  destruct (pushData_cases growcap x (mq b)) as [[_ ->]|[(_ & _ & ->)|(_ & Hlt & ->)]]; cbn; splits; try done.
  - by rewrite Ha, app_assoc.
  - lens.
Qed.

Lemma mb_push_grows x b : ∃ l, accepted (mb_push x b) = accepted b ++ l.
Proof.
  unfold mb_push. destruct (pushData growcap x (mq b)) as [q [e|]]; cbn; eauto. exists []. by rewrite app_nil_r.
Qed.

Lemma menv_ok mx b b' : menv b b' → mb_ok mx b → mb_ok mx b'.
Proof. destruct 1; [apply mb_push_ok|done]. Qed.

Lemma menv_awake b b' : menv b b' → mb_awake b'.
Proof.
  destruct 1 as [x b|b Hb]; unfold mb_awake; [|by left].
  unfold mb_push. destruct (pushData growcap x (mq b)). cbn. intros _. right. lia.
Qed.

Lemma mb_recv_ok mx b b' : mb_recv b = Some b' → mb_ok mx b → mb_ok mx b'.
Proof. unfold mb_recv, recvSig. destruct (sig (mq b)); [|done]. cbn. intros [= <-]. done. Qed.

Lemma mb_take_ok mx b : mb_ok mx b → mb_ok mx (mb_take b).1 ∧ len (mb_take b).2 ≤ Z.max 0 mx ∧
  mb_awake (mb_take b).1 ∧ taken (mb_take b).1 = taken b ++ (mb_take b).2.
Proof.
  intros (Ha & Hw & Hm). unfold mb_ok, mb_take, mb_awake. destruct (write (mq b)) as [|y l] eqn:Ew.
  - cbn. rewrite Ew, app_nil_r in *. splits; try done; lens.
  - cbn. splits; first [done|by rewrite app_nil_r|lens].
Qed.

Lemma mb_finish_ok mx b : mb_ok mx b → mb_ok mx (mb_finish b).
Proof. intros (Ha & Hw & Hm). done. Qed.

End Mailbox.
Arguments mbox : clear implicits.

(** ** The goroutine of [Role.Run] *)

(** What running a piece of the role's code ended in; [cancel] says whether it called
    [r.Cancel()]. *)
Inductive outcome (R : Type) := Fine (r : R) (cancel : bool) | Panicked (r : R) (cancel : bool).
Arguments Fine {_}.
Arguments Panicked {_}.

Section RoleLoop.
Context {E R : Type} (zero : E) (growcap : Z → Z → Z).
(** [Online], one event of the [Range] callback, [Offline]. *)
Context (online : R → outcome R) (exec : E → R → outcome R) (offline : R → R).

(** Where the goroutine is: in [Online], at [<-Sig()], before the swap, in the callback
    with the events still to come, at [r.Ctx.Err()], in the deferred function, gone. *)
Inductive phase := POnline | PWait | PSwap | PBatch (rest : list E) | PCheck | POffline | PDone.

Record rloop := mkRL {
  rl_mb : mbox E; rl_ctx : bool; rl_ph : phase; rl_role : R;
  rl_handled : list E;     (* the events the callback was called with *)
  rl_wait : Z }.           (* the counter of r.Wait *)

Definition EventChanSize : Z := 16.

(** [Wait.Add(1)] precedes the goroutine. *)
Definition rl_start (r : R) : rloop :=
  mkRL (mb_new EventChanSize (EventChanSize * 100)) false POnline r [] 1.

(** The next step of the goroutine; [None]: it waits for the token or is gone. *)
Definition rl_next (s : rloop) : option rloop :=
  let '(mkRL b c ph r h w) := s in
  match ph with
  | POnline => Some (match online r with
                     | Fine r cc => mkRL b (c || cc) PWait r h w
                     | Panicked r cc => mkRL b (c || cc) POffline r h w
                     end)
  | PWait => b ← mb_recv b; Some (mkRL b c PSwap r h w)
  | PSwap => let '(b, l) := mb_take b in
             Some (mkRL b c (match l with [] => PCheck | _ => PBatch l end) r h w)
  | PBatch [] => Some (mkRL (mb_finish zero b) c PCheck r h w)
  | PBatch (e :: l) =>
      Some (match exec e r with
            | Fine r cc => mkRL b (c || cc) (PBatch l) r (h ++ [e]) w
            | Panicked r cc => mkRL b (c || cc) POffline r (h ++ [e]) w
            end)
  | PCheck => Some (mkRL b c (if c then POffline else PWait) r h w)
  | POffline => Some (mkRL b c PDone (offline r) h (w - 1))
  | PDone => None
  end.

(** What others do meanwhile: push, wake, and [meta.Kick], which cancels and then
    wakes. *)
Inductive rl_env : rloop → rloop → Prop :=
| rle_mb b b' c ph r h w : menv growcap b b' → rl_env (mkRL b c ph r h w) (mkRL b' c ph r h w)
| rle_kick b c ph r h w : rl_env (mkRL b c ph r h w) (mkRL (mb_owe b) true ph r h w).

Inductive rl_step : rloop → rloop → Prop :=
| rls_own s s' : rl_next s = Some s' → rl_step s s'
| rls_env s s' : rl_env s s' → rl_step s s'.

Definition rl_reachable (r : R) (s : rloop) : Prop := rtc rl_step (rl_start r) s.

(** ** Invariants *)

Definition pendingOf (ph : phase) : list E := match ph with PBatch l => l | _ => [] end.
Definition goneBy (ph : phase) : bool := match ph with POffline | PDone => true | _ => false end.
Definition rl_mx : Z := EventChanSize * 100.

Definition out_role (o : outcome R) : R := match o with Fine r _ | Panicked r _ => r end.
Definition out_cancel (o : outcome R) : bool := match o with Fine _ c | Panicked _ c => c end.

(** The role after going online and handling [h], in order. *)
Definition roleAfter (r0 : R) (h : list E) : R := fold_left (λ r e, out_role (exec e r)) h (out_role (online r0)).

Definition roleOk (r0 : R) (ph : phase) (r : R) (h : list E) : Prop :=
  match ph with
  | POnline => h = [] ∧ r = r0
  | PDone => r = offline (roleAfter r0 h)
  | _ => r = roleAfter r0 h
  end.

(** Every accepted event was handled, is about to be, or is still queued, and the role
    is the result of the events handled. *)
Definition rl_inv (r0 : R) (s : rloop) : Prop :=
  mb_ok rl_mx (rl_mb s) ∧ len (pendingOf (rl_ph s)) ≤ rl_mx ∧
  (∃ lost, taken (rl_mb s) = rl_handled s ++ lost ∧ (goneBy (rl_ph s) = false → lost = pendingOf (rl_ph s))) ∧
  roleOk r0 (rl_ph s) (rl_role s) (rl_handled s) ∧
  rl_wait s = match rl_ph s with PDone => 0 | _ => 1 end.

(** The goroutine never sleeps on events, or on a cancellation, without a token or a
    [Wake] on the way. *)
Definition rl_live (s : rloop) : Prop :=
  (rl_ph s ≠ PSwap → mb_awake (rl_mb s)) ∧
  (rl_ph s = PWait ∨ rl_ph s = POnline → rl_ctx s = true →
     sig (mq (rl_mb s)) = true ∨ (0 < owed (rl_mb s))%nat).

Lemma roleAfter_snoc r0 h e : roleAfter r0 (h ++ [e]) = out_role (exec e (roleAfter r0 h)).
Proof. unfold roleAfter. by rewrite fold_left_app. Qed.

Lemma rl_next_inv r0 s s' : rl_next s = Some s' → rl_inv r0 s → rl_inv r0 s'.
Proof.
  destruct s as [b c ph r h w]. unfold rl_inv. cbn. intros Hn (Hb & Hp & (lost & Hl & He) & Hr & Hw).
  destruct ph as [| | |[|e l]| | |]; cbn in *.
  - destruct Hr as [-> ->]. destruct (online r0) eqn:Eo; injection Hn as <-; cbn in *;
      (splits; [done|lens|exists lost; auto|unfold roleAfter; cbn; by rewrite Eo|done]).
  - destruct (mb_recv b) as [b'|] eqn:Eb; [|done]. cbn in Hn. injection Hn as <-; cbn in *. splits; [by eapply mb_recv_ok|lens| |done|done].
    exists lost. split; [|done]. rewrite <- Hl. revert Eb. unfold mb_recv, recvSig. destruct (sig (mq b)); [|done].
    cbn. by intros [= <-].
  - destruct (mb_take_ok rl_mx b Hb) as (Hb' & Hlen & _ & Ht). destruct (mb_take b) as [b' l]. injection Hn as <-; cbn in *.
    rewrite (He eq_refl), app_nil_r in Hl.
    splits; [done|destruct l; [lens|done]| |by destruct l|by destruct l].
    exists l. rewrite Ht, Hl. split; [done|]. by destruct l.
  - injection Hn as <-; cbn in *. splits; [done|lens|exists lost; auto|done|done].
  - specialize (He eq_refl) as ->.
    assert (Hr' : out_role (exec e r) = roleAfter r0 (h ++ [e])) by (rewrite roleAfter_snoc, Hr; done).
    destruct (exec e r) eqn:Ee; injection Hn as <-; cbn in *;
      (splits; [done|lens|exists l; rewrite Hl, <- app_assoc; done|exact Hr'|done]).
  - injection Hn as <-; cbn in *. splits; [done|destruct c; cbn; lens| |by destruct c|by destruct c]. exists lost. split; [done|].
    destruct c; cbn; auto.
  - injection Hn as <-; cbn in *. splits; [done|lens|exists lost; auto|by f_equal|lia].
  - done.
Qed.

Lemma rl_env_inv r0 s s' : rl_env s s' → rl_inv r0 s → rl_inv r0 s'.
Proof.
  destruct 1 as [b b' c ph r h w Hm|]; [|done]. intros (Hb & Hp & Hl & Hr). cbn in *.
  unfold rl_inv. cbn. splits; try tauto; [by eapply menv_ok|]. destruct Hl as (lost & Hl & He). exists lost.
  split; [|done]. rewrite <- Hl. destruct Hm; [|done]. unfold mb_push. by destruct (pushData _ _ _).
Qed.

Lemma rl_reach_inv r0 s : rl_reachable r0 s → rl_inv r0 s.
Proof.
  intros Hs. eapply rtc_preserved; [|exact Hs|].
  - intros x y [?? Hx|?? Hx]; [by eapply rl_next_inv|by eapply rl_env_inv].
  - unfold rl_inv, rl_start, rl_mx. cbn. splits; [apply mb_new_ok|done|exists []; auto|done|done|done].
Qed.

(** Going online does not cancel the role. *)
Context (Hquiet : ∀ r, out_cancel (online r) = false).

Lemma rl_next_live s s' : rl_next s = Some s' → rl_live s → rl_live s'.
Proof.
  destruct s as [b c ph r h w]. unfold rl_live. cbn. intros Hn [Ha Hc].
  destruct ph as [| | |[|e l]| | |]; cbn in *.
  - pose proof (Hquiet r) as Hq. destruct (online r) as [r' cc|r' cc]; cbn in *; simplify_eq/=; rewrite orb_false_r.
    + split; [intros; by apply Ha|intros _ Hx; apply Hc; auto].
    + split; [intros; by apply Ha|intros [?|?]; done].
  - destruct (mb_recv b); [|done]. cbn in Hn. simplify_eq/=. split; [done|by intros [?|?]].
  - assert (Hx : mb_awake (mb_take b).1).
    { unfold mb_take, mb_awake. destruct (write (mq b)) eqn:Ew; cbn; by rewrite ?Ew. }
    destruct (mb_take b) as [b' l]. simplify_eq/=. split; [done|]. destruct l; by intros [?|?].
  - simplify_eq/=. split; [intros; by apply Ha|by intros [?|?]].
  - destruct (exec e r); simplify_eq/=; (split; [intros; by apply Ha|by intros [?|?]]).
  - simplify_eq/=. split; [intros; by apply Ha|]. destruct c; [|by intros]. by intros [?|?].
  - simplify_eq/=. split; [intros; by apply Ha|by intros [?|?]].
  - done.
Qed.

Lemma rl_env_live s s' : rl_env s s' → rl_live s → rl_live s'.
Proof.
  destruct 1 as [b b' c ph r h w Hm|b c ph r h w]; unfold rl_live; cbn; intros [Ha Hc].
  - split; [intros; by eapply menv_awake|]. intros Hp Hx. destruct (Hc Hp Hx) as [Hs|Hs].
    + left. destruct Hm; [|done]. unfold mb_push.
      destruct (pushData_cases growcap x (mq b)) as [[_ ->]|[(_ & _ & ->)|(_ & _ & ->)]]; done.
    + destruct Hm; [|by left]. right. unfold mb_push. destruct (pushData _ _ _). cbn. lia.
  - split; [intros Hp Hw; right; cbn; lia|]. intros; right; cbn; lia.
Qed.

Lemma rl_reach_live r0 s : rl_reachable r0 s → rl_live s.
Proof.
  intros Hs. eapply rtc_preserved; [|exact Hs|].
  - intros x y [?? Hx|?? Hx]; [by eapply rl_next_live|by eapply rl_env_live].
  - split; cbn; [by intros _ ?|done].
Qed.

(** ** A kicked role exits *)

(** How many steps of its own a cancelled role has left at most. *)
Definition rl_rank (ph : phase) : nat :=
  match ph with
  | POnline => 1606 | PWait => 1605 | PSwap => 1604 | PBatch l => length l + 3
  | PCheck => 2 | POffline => 1 | PDone => 0
  end.

Lemma rl_next_rank r0 s s' :
  rl_inv r0 s → rl_next s = Some s' → rl_ctx s = true → rl_ctx s' = true ∧ (rl_rank (rl_ph s') < rl_rank (rl_ph s))%nat.
Proof.
  destruct s as [b c ph r h w]. cbn. intros (Hb & Hp & _) Hn ->. cbn in *.
  destruct ph as [| | |[|e l]| | |]; cbn in *.
  - destruct (online r); simplify_eq/=; split; lia || done.
  - destruct (mb_recv b); [|done]. cbn in Hn. simplify_eq/=. split; [done|lia].
  - destruct (mb_take_ok rl_mx b Hb) as (_ & Hlen & _). destruct (mb_take b) as [b' [|x l]]; simplify_eq/=;
      (split; [done|]); [lia|]. unfold rl_mx, EventChanSize in *. lens. unfold len in *. lia.
  - simplify_eq/=. split; [done|lia].
  - destruct (exec e r); simplify_eq/=; (split; [done|lia]).
  - simplify_eq/=. split; [done|lia].
  - simplify_eq/=. split; [done|lia].
  - done.
Qed.

End RoleLoop.

(** ** Properties *)

(** The example role counts the events; event 0 panics, event 1 cancels. *)
Definition demoExec (e : Z) (r : Z) : outcome Z :=
  if decide (e = 0) then Panicked r false else if decide (e = 1) then Fine (r + 1) true else Fine (r + e) false.
Abbreviation demoNext := (rl_next 0 (λ r : Z, Fine r false) demoExec (λ r : Z, r)).
Abbreviation demoStep := (rl_step 0 (λ _ n : Z, 2 * n) (λ r : Z, Fine r false) demoExec (λ r : Z, r)).

(** [n] steps of the goroutine alone. *)
Fixpoint demoRuns (n : nat) (s : rloop (E := Z) (R := Z)) : rloop :=
  match n with O => s | S n => match demoNext s with Some s => demoRuns n s | None => s end end.

Lemma demoRuns_rtc n s : rtc demoStep s (demoRuns n s).
Proof.
  revert s. induction n as [|n IH]; intros s; cbn [demoRuns]; [done|]. destruct (demoNext s) as [s'|] eqn:E; [|done].
  eapply rtc_l; [by apply rls_own|done].
Qed.

(** Other goroutines' pushes and kick, as transitions. *)
Definition demoPush (e : Z) (s : rloop (E := Z) (R := Z)) : rloop :=
  mkRL (mb_push (λ _ n, 2 * n) e (rl_mb s)) (rl_ctx s) (rl_ph s) (rl_role s) (rl_handled s) (rl_wait s).
Definition demoKick (s : rloop (E := Z) (R := Z)) : rloop :=
  mkRL (mb_owe (rl_mb s)) true (rl_ph s) (rl_role s) (rl_handled s) (rl_wait s).
Definition demoWake (s : rloop (E := Z) (R := Z)) : rloop :=
  mkRL (mb_wake (rl_mb s)) (rl_ctx s) (rl_ph s) (rl_role s) (rl_handled s) (rl_wait s).

Lemma demoPush_step e s : demoStep s (demoPush e s).
Proof. destruct s. apply rls_env, rle_mb, menv_push. Qed.
Lemma demoKick_step s : demoStep s (demoKick s).
Proof. destruct s. apply rls_env, rle_kick. Qed.
Lemma demoWake_step s : (0 < owed (rl_mb s))%nat → demoStep s (demoWake s).
Proof. destruct s. intros. by apply rls_env, rle_mb, menv_wake. Qed.

(** C5. A role handles its events one at a time and in order: at every moment, with any
    number of goroutines pushing and kicking, the accepted events are those handled,
    followed by the rest of the current batch, followed by the queue; the role is the
    result of going online and applying the handled events in order, and its wait group is
    released only when it has gone offline. Once it is leaving, the handled events are
    still a prefix of the accepted ones. *)
Theorem role_events_in_order {E R} (zero : E) growcap (online : R → outcome R) exec offline r0 s :
  rl_reachable zero growcap online exec offline r0 s →
  (goneBy (rl_ph s) = false →
     accepted (rl_mb s) = rl_handled s ++ pendingOf (rl_ph s) ++ write (mq (rl_mb s))) ∧
  (∃ rest, accepted (rl_mb s) = rl_handled s ++ rest) ∧
  roleOk online exec offline r0 (rl_ph s) (rl_role s) (rl_handled s) ∧
  (rl_wait s = 0 ↔ rl_ph s = PDone) ∧ 0 ≤ rl_wait s.
Proof.
  intros Hs. apply rl_reach_inv in Hs as ((Ha & _) & _ & (lost & Hl & He) & Hr & Hw).
  splits.
  - intros Hg. by rewrite Ha, Hl, (He Hg), <- app_assoc.
  - exists (lost ++ write (mq (rl_mb s))). by rewrite Ha, Hl, <- app_assoc.
  - done.
  - rewrite Hw. by destruct (rl_ph s).
  - rewrite Hw. by destruct (rl_ph s).
Qed.

Definition demoBusy : rloop := demoRuns 2 (demoPush 9 (demoWake (demoPush 7 (demoWake (demoPush 5 (rl_start 100)))))).

Lemma demoBusy_reachable : rl_reachable 0 (λ _ n : Z, 2 * n) (λ r : Z, Fine r false) demoExec (λ r : Z, r) 100 demoBusy.
Proof.
  unfold demoBusy, rl_reachable. eapply (transitivity (R := rtc _)); [|apply demoRuns_rtc].
  eapply rtc_r; [|apply demoPush_step]. eapply rtc_r; [|apply demoWake_step; vm_compute; lia].
  eapply rtc_r; [|apply demoPush_step]. eapply rtc_r; [|apply demoWake_step; vm_compute; lia].
  eapply rtc_r; [|apply demoPush_step]. done.
Qed.

Lemma role_events_in_order_witness :
  accepted (rl_mb demoBusy) = rl_handled demoBusy ++ pendingOf (rl_ph demoBusy) ++ write (mq (rl_mb demoBusy)) ∧
  accepted (rl_mb demoBusy) = [5; 7; 9].
Proof.
  destruct (role_events_in_order 0 (λ _ n : Z, 2 * n) (λ r : Z, Fine r false) demoExec (λ r : Z, r) 100 demoBusy
    demoBusy_reachable) as [H _].
  split; [apply H; reflexivity|reflexivity].
Defined.

(** C15. A kicked role exits: once its context is cancelled (by a kick from any goroutine,
    or by itself for missing heartbeats), it is never asleep without a wake-up on the way,
    each of its own steps brings it closer to the exit, nothing that other goroutines do
    sets it back, and from any point at most 1606 own steps are left, the bound being the
    size of its queue. Going online must not itself cancel the role. *)
Theorem kicked_role_exits {E R} (zero : E) growcap (online : R → outcome R) exec offline r0 s :
  (∀ r, out_cancel (online r) = false) →
  rl_reachable zero growcap online exec offline r0 s → rl_ctx s = true →
  (rl_rank (rl_ph s) ≤ 1606)%nat ∧
  (rl_ph s = PDone ∨ is_Some (rl_next zero online exec offline s) ∨ (0 < owed (rl_mb s))%nat) ∧
  (∀ s', rl_next zero online exec offline s = Some s' →
     rl_ctx s' = true ∧ (rl_rank (rl_ph s') < rl_rank (rl_ph s))%nat) ∧
  (∀ s', rl_env growcap s s' → rl_ctx s' = true ∧ rl_ph s' = rl_ph s).
Proof.
  intros Hq Hs Hc. pose proof (rl_reach_live _ _ _ _ _ Hq _ _ Hs) as [_ Hlive].
  apply rl_reach_inv in Hs as Hi. splits.
  - destruct Hi as (_ & Hp & _). unfold rl_mx, EventChanSize in Hp. destruct (rl_ph s); cbn in *; unfold len in *; lia.
  - destruct s as [b c ph r h w]. cbn in *. subst c. destruct ph as [| | |[|e l]| | |]; cbn; try (right; left; by eexists).
    + destruct (Hlive (or_introl eq_refl) eq_refl) as [E0|E0]; [|by right; right].
      right. left. unfold mb_recv, recvSig. rewrite E0. by eexists.
    + right. left. destruct (mb_take b). by eexists.
    + by left.
  - intros s' Hn. eapply rl_next_rank; done.
  - intros s' He. inversion He; subst; done.
Qed.

Definition demoKicked : rloop := demoKick demoBusy.

Lemma kicked_role_exits_witness :
  (rl_rank (rl_ph demoKicked) ≤ 1606)%nat ∧
  (rl_ph demoKicked = PDone ∨ is_Some (demoNext demoKicked) ∨ (0 < owed (rl_mb demoKicked))%nat) ∧
  rl_ph (demoRuns 20 demoKicked) = PDone ∧ rl_handled (demoRuns 20 demoKicked) = [5; 7; 9].
Proof.
  destruct (kicked_role_exits 0 (λ _ n : Z, 2 * n) (λ r : Z, Fine r false) demoExec (λ r : Z, r) 100 demoKicked)
    as (H1 & H2 & _).
  - reflexivity.
  - eapply rtc_r; [apply demoBusy_reachable|apply demoKick_step].
  - reflexivity.
  - splits; [exact H1|exact H2|reflexivity|reflexivity].
Defined.

(** A panic in one event takes the role offline and drops the rest of its batch: the
    event counts as handled, the events behind it never are, although they were accepted. *)
Theorem role_panic_drops_batch {E R} (zero : E) growcap (online : R → outcome R) exec offline r0 s e l r' c :
  rl_reachable zero growcap online exec offline r0 s → rl_ph s = PBatch (e :: l) →
  exec e (rl_role s) = Panicked r' c →
  ∃ s1 s2, rl_next zero online exec offline s = Some s1 ∧ rl_next zero online exec offline s1 = Some s2 ∧
    rl_next zero online exec offline s2 = None ∧ rl_ph s2 = PDone ∧ rl_role s2 = offline r' ∧
    rl_handled s2 = rl_handled s ++ [e] ∧
    accepted (rl_mb s2) = rl_handled s2 ++ l ++ write (mq (rl_mb s2)).
Proof.
  intros Hs Hp He. apply rl_reach_inv in Hs as ((Ha & _) & _ & (lost & Hl & Hlo) & _).
  destruct s as [b cx ph r h w]. cbn in *. subst ph. cbn in *. rewrite He. eexists _, _.
  splits; try reflexivity. cbn. rewrite Ha, Hl, (Hlo eq_refl), <- !app_assoc. done.
Qed.

Definition demoPanicking : rloop :=
  demoRuns 3 (demoPush 9 (demoWake (demoPush 0 (rl_start 100)))).

Lemma role_panic_drops_batch_witness :
  ∃ s1 s2, demoNext demoPanicking = Some s1 ∧ demoNext s1 = Some s2 ∧ demoNext s2 = None ∧ rl_ph s2 = PDone ∧
    rl_role s2 = 100 ∧ rl_handled s2 = rl_handled demoPanicking ++ [0] ∧
    accepted (rl_mb s2) = rl_handled s2 ++ [9] ++ write (mq (rl_mb s2)).
Proof.
  apply (role_panic_drops_batch 0 (λ _ n : Z, 2 * n) (λ r : Z, Fine r false) demoExec (λ r : Z, r) 100 demoPanicking
    0 [9] 100 false).
  - unfold demoPanicking, rl_reachable. eapply (transitivity (R := rtc _)); [|apply demoRuns_rtc].
    eapply rtc_r; [|apply demoPush_step]. eapply rtc_r; [|apply demoWake_step; vm_compute; lia].
    eapply rtc_r; [|apply demoPush_step]. done.
  - reflexivity.
  - reflexivity.
Defined.
