(* ===== verification/Registry.v ===== *)
(** * internal/game/role/registry.go: the roles running on a game server

    Two tables of 64 locked shards, from role ids to the running roles and from session
    ids to role ids. A [meta] is four fields of one [Role] (its queue, wait group, cancel
    function and context), so it is a pointer into the store of role objects. The goroutines
    behind the pointers are [EventLoop.v]'s. *)

From S2P Require Import Prelude Gmsg SwapQueue Sharded EventLoop.

(** A pointer to a [Role]. *)
Record meta := mkMeta { m_role : Z }.
#[export] Instance meta_eq_dec : EqDecision meta.
Proof. solve_decision. Defined.

Definition shardCount : Z := 64.
Definition tickTime : Z := 3.

Record Registry := mkReg { roleShards : shards meta; sesShards : shards Z }.

Definition NewRegistry : Registry := mkReg (mkShards shardCount) (mkShards shardCount).

(** An index out of range, [None], would be a panic. *)
Definition Register (roleID sesID : Z) (r : meta) (m : Registry) : option Registry :=
  ses ← sAdd shardCount sesID roleID (sesShards m);
  roles ← sAdd shardCount roleID r (roleShards m);
  Some (mkReg roles ses).

Definition Count (m : Registry) : Z := sCount (roleShards m).

Definition get (roleID : Z) (m : Registry) : option (option meta) := sGet shardCount roleID (roleShards m).

Definition getBySes (sesID : Z) (m : Registry) : option (option meta) :=
  o ← sGet shardCount sesID (sesShards m);
  match o with
  | None => Some None
  | Some roleID => get roleID m
  end.

Definition Unregister (roleID sesID : Z) (m : Registry) : option Registry :=
  cur ← sGet shardCount sesID (sesShards m);
  if decide (cur = Some roleID) then
    ses ← sRemove shardCount sesID (sesShards m);
    roles ← sRemove shardCount roleID (roleShards m);
    Some (mkReg roles ses)
  else Some m.

Section Heap.
Context {E : Type} (growcap : Z → Z → Z).

(** The part of a role that a [meta] reaches. *)
Record roleObj := mkRO { ro_Events : SwapQueue E; ro_ctxDone : bool }.
Abbreviation heap := (gmap Z roleObj).

(** A nil dereference cannot happen: a [meta] is only made from a role. *)
Definition pushTo (evt : E) (p : meta) (h : heap) : heap * go_error :=
  match h !! m_role p with
  | None => (h, None)
  | Some o =>
      let '(q, err) := Push growcap evt (ro_Events o) in
      (<[m_role p := mkRO q (ro_ctxDone o)]> h, err)
  end.

(** [m.cancel()], then [m.events.Wake()]. *)
Definition kicked (o : roleObj) : roleObj := mkRO (Wake (ro_Events o)) true.
Definition meta_Kick (p : meta) (h : heap) : heap := alter kicked (m_role p) h.

Definition errNotExist : gerror := ErrMsg "role not exist".
Definition errEventFull : gerror := ErrMsg "role event full".

Definition dispatchTo (r : option meta) (evt : E) (h : heap) : heap * go_error :=
  match r with
  | None => (h, Some errNotExist)
  | Some p => let '(h, err) := pushTo evt p h in
              (h, match err with Some _ => Some errEventFull | None => None end)
  end.

Definition Dispatch (roleID : Z) (evt : E) (m : Registry) (h : heap) : option (heap * go_error) :=
  r ← get roleID m; Some (dispatchTo r evt h).

Definition DispatchBySesID (sesID : Z) (evt : E) (m : Registry) (h : heap) : option (heap * go_error) :=
  r ← getBySes sesID m; Some (dispatchTo r evt h).

Definition Kick (sesID : Z) (m : Registry) (h : heap) : option heap :=
  r ← getBySes sesID m; Some (match r with None => h | Some p => meta_Kick p h end).

(** The second component: the roles whose wait group is then waited for. *)
Definition KickAndWait (roleID : Z) (m : Registry) (h : heap) : option (heap * list meta) :=
  r ← get roleID m;
  Some (match r with None => (h, []) | Some p => (meta_Kick p h, [p]) end).

(** The order in which Go iterates over a shard's map. *)
Context (iter : gmap Z meta → list meta).

Definition metasOf (s : shards meta) : list meta := mjoin (iter <$> s).

Definition CloseAndWait (m : Registry) (h : heap) : heap * list meta :=
  let metas := metasOf (roleShards m) in
  (fold_left (λ h p, meta_Kick p h) metas h, metas).

(** [tick now] is the event that calls [r.OnTick(now)]. *)
Context (tick : Z → E).

Definition onTick (now shardIdx : Z) (m : Registry) (h : heap) : option heap :=
  shard ← roleShards m !! Z.to_nat shardIdx;
  Some (fold_left (λ h p, (pushTo (tick now) p h).1) (iter shard) h).

(** The loop of [Run]: the ticks of its ticker, from shard [cur] on. *)
Definition nextTick (cur : Z) : Z := if decide (cur + 1 >= shardCount) then 0 else cur + 1.

Fixpoint runTicks (nows : list Z) (m : Registry) (cur : Z) (h : heap) : option (heap * Z) :=
  match nows with
  | [] => Some (h, cur)
  | now :: nows => h ← onTick now cur m h; runTicks nows m (nextTick cur) h
  end.

End Heap.
Arguments roleObj : clear implicits.

(** ** The registrations *)

(** Role id to session id and role, of the roles registered now. *)
Abbreviation regs := (gmap Z (Z * meta)).

(** The tables hold exactly the registrations, and no session serves two of them. *)
Definition reg_ok (a : regs) (m : Registry) : Prop :=
  placed shardCount (roleShards m) ∧
  ∃ sm, refines shardCount (roleShards m) (snd <$> a) ∧ refines shardCount (sesShards m) sm ∧
    ∀ s r, sm !! s = Some r ↔ ∃ p, a !! r = Some (s, p).

Definition spec_Unregister (roleID sesID : Z) (a : regs) : regs :=
  match a !! roleID with
  | Some (s, _) => if decide (s = sesID) then delete roleID a else a
  | None => a
  end.

Definition bySes (sesID : Z) (a : regs) (r : option meta) : Prop :=
  match r with
  | Some p => ∃ roleID, a !! roleID = Some (sesID, p)
  | None => ∀ roleID p, a !! roleID ≠ Some (sesID, p)
  end.

Lemma NewRegistry_ok : reg_ok ∅ NewRegistry.
Proof.
  split; [apply mkShards_placed|]. exists ∅. splits; [rewrite fmap_empty; by apply mkShards_refines|by apply mkShards_refines|].
  intros s r. rewrite lookup_empty. split; [done|]. intros [p Hp]. by rewrite lookup_empty in Hp.
Qed.

(** A role that is not registered, on a session that is not in use. *)
Lemma Register_ok a m roleID sesID p :
  reg_ok a m → 0 ≤ roleID → 0 ≤ sesID → a !! roleID = None → bySes sesID a None →
  ∃ m', Register roleID sesID p m = Some m' ∧ reg_ok (<[roleID := (sesID, p)]> a) m'.
Proof.
  intros (Hpl & sm & Hr & Hs & Hk) H1 H2 Ha Hses. unfold Register.
  destruct (sAdd_refines shardCount _ _ sesID roleID eq_refl H2 Hs) as (ses & -> & Hs').
  destruct (sAdd_refines shardCount _ _ roleID p eq_refl H1 Hr) as (roles & Er & Hr').
  cbn [mbind option_bind]. rewrite Er. eexists. split; [done|]. split; [by eapply sAdd_placed; [exact H1|exact Hpl|exact Er]|].
  eexists. splits; [by rewrite fmap_insert|exact Hs'|].
  intros s r. destruct (decide (s = sesID)) as [->|Hn].
  - rewrite lookup_insert_eq. split.
    + intros [= <-]. exists p. by rewrite lookup_insert_eq.
    + intros [p' Hp]. destruct (decide (r = roleID)) as [->|]; [done|]. rewrite lookup_insert_ne in Hp by done.
      by destruct (Hses r p').
  - rewrite lookup_insert_ne, Hk by done. destruct (decide (r = roleID)) as [->|].
    + rewrite lookup_insert_eq. split; [intros [p' Hp]; by rewrite Hp in Ha|]. intros [p' Hp]. congruence.
    + by rewrite lookup_insert_ne.
Qed.

Lemma Unregister_ok a m roleID sesID :
  reg_ok a m → 0 ≤ roleID → 0 ≤ sesID →
  ∃ m', Unregister roleID sesID m = Some m' ∧ reg_ok (spec_Unregister roleID sesID a) m'.
Proof.
  intros (Hpl & sm & Hr & Hs & Hk) H1 H2. unfold Unregister, spec_Unregister.
  rewrite (sGet_refines _ _ sm) by done. cbn [mbind option_bind].
  assert (Hno : sm !! sesID ≠ Some roleID → spec_Unregister roleID sesID a = a).
  { intros Hn. unfold spec_Unregister. destruct (a !! roleID) as [[s p]|] eqn:Ea; [|done]. case_decide; [|done].
    subst. destruct Hn. apply Hk. eauto. }
  unfold spec_Unregister in Hno. case_decide as Hd; [|rewrite Hno by done; exists m; split; [done|split; [done|by exists sm]]].
  apply Hk in Hd as [p Ea]. rewrite Ea, decide_True by done.
  destruct (sRemove_refines shardCount _ _ sesID eq_refl H2 Hs) as (ses & -> & Hs').
  destruct (sRemove_refines shardCount _ _ roleID eq_refl H1 Hr) as (roles & Er & Hr').
  cbn [mbind option_bind]. rewrite Er. eexists. split; [done|]. split; [by eapply sRemove_placed; [exact Hpl|exact Er]|].
  eexists. splits; [by rewrite fmap_delete|exact Hs'|].
  intros s r. destruct (decide (s = sesID)) as [->|Hn].
  - rewrite lookup_delete_eq. split; [done|]. intros [p' Hp]. destruct (decide (r = roleID)) as [->|Hn].
    + by rewrite lookup_delete_eq in Hp.
    + rewrite lookup_delete_ne in Hp by done. assert (sm !! sesID = Some r) by (apply Hk; eauto).
      assert (sm !! sesID = Some roleID) by (apply Hk; eauto). congruence.
  - rewrite lookup_delete_ne, Hk by done. destruct (decide (r = roleID)) as [->|].
    + rewrite lookup_delete_eq, Ea. split; intros [? ?]; congruence.
    + by rewrite lookup_delete_ne.
Qed.

Lemma get_ok a m roleID : reg_ok a m → 0 ≤ roleID → get roleID m = Some (snd <$> a !! roleID).
Proof. intros (_ & sm & Hr & _) H1. unfold get. rewrite (sGet_refines _ _ (snd <$> a)) by done. by rewrite lookup_fmap. Qed.

(** Role ids are unsigned. *)
Definition regs_wf (a : regs) : Prop := ∀ r x, a !! r = Some x → 0 ≤ r.

Lemma getBySes_ok a m sesID :
  reg_ok a m → regs_wf a → 0 ≤ sesID → ∃ r, getBySes sesID m = Some r ∧ bySes sesID a r.
Proof.
  intros Hok Hwf Hs0. pose proof Hok as (_ & sm & Hr & Hs & Hk). unfold getBySes. rewrite (sGet_refines _ _ sm) by done.
  cbn [mbind option_bind]. destruct (sm !! sesID) as [r|] eqn:Em.
  - apply Hk in Em as [p Ea]. rewrite (get_ok a) by eauto. rewrite Ea. eexists. split; [done|]. cbn. eauto.
  - eexists. split; [done|]. intros r p Ea. assert (sm !! sesID = Some r) by (apply Hk; eauto). congruence.
Qed.

Lemma Count_ok a m : reg_ok a m → Count m = Z.of_nat (base.size a).
Proof. intros (_ & sm & (_ & _ & Hc) & _). unfold Count. by rewrite Hc, map_size_fmap. Qed.

(** ** Reaching the registered roles *)

Section Reach.
Context {E : Type} (growcap : Z → Z → Z) (tick : Z → E).
Context (iter : gmap Z meta → list meta) (Hiter : ∀ m, iter m ≡ₚ (map_to_list m).*2).
Implicit Types h : gmap Z (roleObj E).

(** Different roles are different objects. *)
Definition regs_inj (a : regs) : Prop :=
  ∀ r r' s s' p, a !! r = Some (s, p) → a !! r' = Some (s', p) → r = r'.

Definition registered (a : regs) (p : meta) : Prop := ∃ r s, a !! r = Some (s, p).

Definition pushed (e : E) (o : roleObj E) : roleObj E := mkRO (Push growcap e (ro_Events o)).1 (ro_ctxDone o).

Lemma pushTo_alter e p h : (pushTo growcap e p h).1 = alter (pushed e) (m_role p) h.
Proof.
  unfold pushTo. destruct (h !! m_role p) as [o|] eqn:Eo; [|by rewrite alter_None].
  rewrite (alter_Some _ _ _ o) by done. unfold pushed. by destruct (Push growcap e (ro_Events o)).
Qed.

Lemma fold_alter (f : roleObj E → roleObj E) l h x :
  NoDup l → fold_left (λ h p, alter f (m_role p) h) l h !! x =
            (if decide (mkMeta x ∈ l) then f <$> h !! x else h !! x).
Proof.
  revert h. induction l as [|[y] l IH]; intros h Hnd; cbn [fold_left].
  { by rewrite decide_False by apply not_elem_of_nil. }
  apply NoDup_cons in Hnd as [Hy Hnd]. rewrite (IH _ Hnd). cbn [m_role]. destruct (decide (x = y)) as [->|Hne].
  - rewrite decide_False, decide_True, lookup_alter_eq by (done || by left). done.
  - rewrite lookup_alter_ne by done. rewrite (decide_ext (mkMeta x ∈ l) (mkMeta x ∈ mkMeta y :: l)); [done|].
    rewrite elem_of_cons. split; [by right|]. intros [[= ->]|?]; done.
Qed.

Lemma values_NoDup a : regs_inj a → NoDup (map_to_list (snd <$> a)).*2.
Proof.
  intros Hi. apply NoDup_fmap_2_strong; [|apply NoDup_map_to_list].
  intros [k p] [k' p'] H1 H2 E0. cbn in E0. subst p'. apply elem_of_map_to_list in H1, H2.
  rewrite lookup_fmap in H1, H2. destruct (a !! k) as [[s q]|] eqn:E1, (a !! k') as [[s' q']|] eqn:E2; try done.
  cbn in *. simplify_eq. f_equal. by eapply Hi.
Qed.

Lemma metasOf_ok a m : reg_ok a m → regs_wf a → metasOf iter (roleShards m) ≡ₚ (map_to_list (snd <$> a)).*2.
Proof.
  intros (Hpl & sm & Hr & _) Hwf. rewrite <- (refines_entries shardCount (roleShards m) (snd <$> a)); try done.
  - unfold metasOf. clear - Hiter. induction (roleShards m) as [|sh s IH]; [done|]. cbn [fmap list_fmap mjoin list_join].
    rewrite fmap_app, <- IH, Hiter. done.
  - intros k v. rewrite lookup_fmap. destruct (a !! k) eqn:Ea; [|done]. intros _. by eapply Hwf.
Qed.

Lemma registered_value a p : p ∈ (map_to_list (snd <$> a)).*2 ↔ registered a p.
Proof.
  rewrite list_elem_of_fmap. unfold registered. split.
  - intros ([r q] & -> & Hq%elem_of_map_to_list). rewrite lookup_fmap in Hq.
    destruct (a !! r) as [[s q']|] eqn:Ea; [|done]. cbn in Hq. simplify_eq. cbn. eauto.
  - intros (r & s & Ea). exists (r, p). split; [done|]. apply elem_of_map_to_list. by rewrite lookup_fmap, Ea.
Qed.

Lemma CloseAndWait_ok a m h x :
  reg_ok a m → regs_wf a → regs_inj a →
  (registered a (mkMeta x) → (CloseAndWait iter m h).1 !! x = kicked <$> h !! x ∧ mkMeta x ∈ (CloseAndWait iter m h).2) ∧
  (¬ registered a (mkMeta x) → (CloseAndWait iter m h).1 !! x = h !! x ∧ mkMeta x ∉ (CloseAndWait iter m h).2).
Proof.
  intros Hok Hwf Hi. unfold CloseAndWait. cbn [fst snd]. unfold meta_Kick. pose proof (metasOf_ok a m Hok Hwf) as Hp.
  rewrite fold_alter by (rewrite Hp; by apply values_NoDup).
  rewrite <- registered_value, <- Hp. by case_decide.
Qed.

(** One tick: every role of the shard gets the event, no other. *)
Lemma onTick_ok now i sh m h x :
  roleShards m !! Z.to_nat i = Some sh → NoDup (iter sh) →
  ∃ h', onTick growcap iter tick now i m h = Some h' ∧
    h' !! x = if decide (mkMeta x ∈ iter sh) then pushed (tick now) <$> h !! x else h !! x.
Proof.
  intros Ei Hnd. unfold onTick. rewrite Ei. cbn [mbind option_bind]. eexists. split; [done|].
  rewrite <- (fold_alter (pushed (tick now)) (iter sh) h x Hnd). generalize (iter sh). intros l. clear.
  revert h. induction l as [|p l IH]; intros h; [done|]. cbn [fold_left]. by rewrite pushTo_alter.
Qed.

(** The rest of a cycle from shard [k] on: an object in none of the shards to come is
    left alone, one in exactly one of them gets that shard's tick. *)
Lemma runTicks_ok nows m k h x :
  (∀ i sh, roleShards m !! i = Some sh → NoDup (iter sh)) → len (roleShards m) = shardCount →
  (k + length nows = 64)%nat → nows ≠ [] →
  ∃ h', runTicks growcap iter tick nows m (Z.of_nat k) h = Some (h', 0) ∧
    ((∀ i sh, (k ≤ i)%nat → roleShards m !! i = Some sh → mkMeta x ∉ iter sh) → h' !! x = h !! x) ∧
    (∀ i sh now, (k ≤ i)%nat → roleShards m !! i = Some sh → mkMeta x ∈ iter sh → nows !! (i - k)%nat = Some now →
       (∀ j sh', roleShards m !! j = Some sh' → mkMeta x ∈ iter sh' → j = i) →
       h' !! x = pushed (tick now) <$> h !! x).
Proof.
  intros Hnd Hlen. revert k h. induction nows as [|now nows IH]; intros k h Hk Hne; [done|]. clear Hne.
  cbn [length] in Hk. destruct (lookup_lt_is_Some_2 (roleShards m) k) as [sh Esh].
  { unfold len, shardCount in Hlen. lia. }
  cbn [runTicks]. destruct (onTick_ok now (Z.of_nat k) sh m h x) as (h1 & E1 & Hx); [by rewrite Nat2Z.id|by eapply Hnd|].
  rewrite E1. cbn [mbind option_bind].
  assert (Htail : ∃ h', runTicks growcap iter tick nows m (nextTick (Z.of_nat k)) h1 = Some (h', 0) ∧
    ((∀ i sh, (S k ≤ i)%nat → roleShards m !! i = Some sh → mkMeta x ∉ iter sh) → h' !! x = h1 !! x) ∧
    (∀ i sh now, (S k ≤ i)%nat → roleShards m !! i = Some sh → mkMeta x ∈ iter sh → nows !! (i - S k)%nat = Some now →
       (∀ j sh', roleShards m !! j = Some sh' → mkMeta x ∈ iter sh' → j = i) →
       h' !! x = pushed (tick now) <$> h1 !! x)).
  { unfold nextTick, shardCount. destruct nows as [|now' nows'].
    - cbn [length] in Hk. rewrite decide_True by lia. exists h1. splits; [done|done|]. intros i sh' n' _ _ _ Hn. done.
    - cbn [length] in Hk. rewrite decide_False by lia. replace (Z.of_nat k + 1) with (Z.of_nat (S k)) by lia.
      apply IH; [cbn; lia|done]. }
  destruct Htail as (h' & -> & Hno & Hyes). exists h'. splits; [done| |].
  - intros Hall. rewrite Hno by (intros; eapply Hall; [|done]; lia). rewrite Hx, decide_False; [done|by eapply Hall].
  - intros i si n Hi Ei Hin Hn Huniq. destruct (decide (i = k)) as [->|Hik].
    + rewrite Nat.sub_diag in Hn. cbn in Hn. simplify_eq. rewrite decide_True in Hx by done. rewrite Hno; [done|].
      intros j sj Hj Ej Hjin. specialize (Huniq j sj Ej Hjin). lia.
    + rewrite (Hyes i si n); try done; [|lia| ].
      * rewrite Hx, decide_False; [done|]. intros Hk'. by specialize (Huniq k sh Esh Hk') as ->.
      * replace (i - k)%nat with (S (i - S k)) in Hn by lia. done.
Qed.

Lemma iter_shard a m i sh p :
  reg_ok a m → roleShards m !! i = Some sh → p ∈ iter sh →
  ∃ r s, a !! r = Some (s, p) ∧ i = shardIdx shardCount r.
Proof.
  intros (Hpl & sm & (_ & Hr & _) & _) Ei Hp. rewrite Hiter in Hp. apply list_elem_of_fmap in Hp as ([r q] & -> & Hq).
  apply elem_of_map_to_list in Hq. destruct (Hpl _ _ _ _ Ei Hq) as [-> H0]. pose proof (Hr r sh H0 Ei) as E1.
  rewrite Hq, lookup_fmap in E1. destruct (a !! r) as [[s q']|] eqn:Ea; [|done]. cbn in E1. simplify_eq.
  cbn. eauto.
Qed.

Lemma iter_shard_NoDup a m i sh : reg_ok a m → regs_inj a → roleShards m !! i = Some sh → NoDup (iter sh).
Proof.
  intros Hok Hi Ei. rewrite Hiter. apply NoDup_fmap_2_strong; [|apply NoDup_map_to_list].
  intros [k p] [k' p'] H1 H2 E0. cbn in E0. subst p'. apply elem_of_map_to_list in H1, H2.
  destruct Hok as (Hpl & sm & (_ & Hr & _) & _).
  assert (Hin : ∀ k, sh !! k = Some p → ∃ s, a !! k = Some (s, p)).
  { intros j Hj. destruct (Hpl _ _ _ _ Ei Hj) as [-> H0]. pose proof (Hr j sh H0 Ei) as E1.
    rewrite Hj, lookup_fmap in E1. destruct (a !! j) as [[s q]|]; [|done]. cbn in E1. simplify_eq. eauto. }
  destruct (Hin k H1) as [s Hs], (Hin k' H2) as [s' Hs']. f_equal. by eapply Hi.
Qed.

Lemma registered_in_shard a m r s p :
  reg_ok a m → regs_wf a → a !! r = Some (s, p) →
  ∃ sh, roleShards m !! shardIdx shardCount r = Some sh ∧ p ∈ iter sh.
Proof.
  intros (Hpl & sm & (Hl & Hr & _) & _) Hwf Ea.
  destruct (getShard_total shardCount r (roleShards m) eq_refl Hl) as [sh Es]. exists sh. split; [done|].
  rewrite Hiter. apply list_elem_of_fmap. exists (r, p). split; [done|]. apply elem_of_map_to_list.
  rewrite (Hr r sh); [|by eapply Hwf|done]. by rewrite lookup_fmap, Ea.
Qed.

End Reach.

(** ** Histories *)

Inductive regOp := ORegister (roleID sesID : Z) (p : meta) | OUnregister (roleID sesID : Z).

Definition regDo (m : Registry) (o : regOp) : option Registry :=
  match o with ORegister r s p => Register r s p m | OUnregister r s => Unregister r s m end.
Definition regRun (ops : list regOp) (m : option Registry) : option Registry :=
  fold_left (λ m o, m ≫= λ m, regDo m o) ops m.

Definition specDo (a : regs) (o : regOp) : regs :=
  match o with ORegister r s p => <[r := (s, p)]> a | OUnregister r s => spec_Unregister r s a end.
Definition specRun (ops : list regOp) (a : regs) : regs := fold_left specDo ops a.

(** A role is registered only while no other instance of it is, on a session and an
    object of its own: what the logon service sees to. *)
Definition fresh (a : regs) (o : regOp) : Prop :=
  match o with
  | ORegister r s p => 0 ≤ r ∧ 0 ≤ s ∧ a !! r = None ∧ bySes s a None ∧ ¬ registered a p
  | OUnregister r s => 0 ≤ r ∧ 0 ≤ s
  end.
Fixpoint disciplined (a : regs) (ops : list regOp) : Prop :=
  match ops with [] => True | o :: ops => fresh a o ∧ disciplined (specDo a o) ops end.

Definition regs_good (a : regs) : Prop := regs_wf a ∧ regs_inj a.

Lemma delete_good a r : regs_good a → regs_good (delete r a).
Proof.
  intros [Hw Hi]. split.
  - intros k x [_ Hk]%lookup_delete_Some. by eapply Hw.
  - intros k k' s s' p [_ H1]%lookup_delete_Some [_ H2]%lookup_delete_Some. by eapply Hi.
Qed.

Lemma specDo_good a o : fresh a o → regs_good a → regs_good (specDo a o).
Proof.
  destruct o as [r s p|r s]; cbn.
  - intros (Hr & _ & _ & _ & Hp) [Hw Hi]. split.
    + intros k x. destruct (decide (k = r)) as [->|]; [done|]. rewrite lookup_insert_ne by done. apply Hw.
    + intros k k' s1 s2 q. destruct (decide (k = r)) as [->|], (decide (k' = r)) as [->|]; try done;
        rewrite ?lookup_insert_eq, ?lookup_insert_ne by done.
      * intros [= -> ->] Hk. destruct Hp. by exists k', s2.
      * intros Hk [= -> ->]. destruct Hp. by exists k, s1.
      * apply Hi.
  - intros _ Hg. unfold spec_Unregister. destruct (a !! r) as [[s0 p0]|]; [|done]. case_decide; [by apply delete_good|done].
Qed.

Lemma regRun_ok ops a m :
  disciplined a ops → reg_ok a m → regs_good a →
  ∃ m', regRun ops (Some m) = Some m' ∧ reg_ok (specRun ops a) m' ∧ regs_good (specRun ops a).
Proof.
  revert a m. induction ops as [|o ops IH]; intros a m Hd Hok Hg; [by exists m|]. destruct Hd as [Hf Hd].
  unfold regRun. cbn [fold_left mbind option_bind].
  assert (Ho : ∃ m', regDo m o = Some m' ∧ reg_ok (specDo a o) m').
  { destruct o as [r s p|r s]; cbn in *.
    - destruct Hf as (? & ? & ? & ? & ?). by apply Register_ok.
    - destruct Hf. by apply Unregister_ok. }
  destruct Ho as (m' & -> & Hok'). apply IH; [done..|]. by apply specDo_good.
Qed.

Lemma empty_good : regs_good ∅.
Proof. split; [intros r x Hx|intros r r' s s' p Hx]; by rewrite lookup_empty in Hx. Qed.

(** ** Properties *)

(** C6. The registry is the table of running roles: along every history in which a role
    is registered only while no other instance of it is, on a session of its own (and
    unregistered in any way, late and repeated calls included), no access panics, a role
    id leads to its role, a session id to the role registered on it, and the count is the
    number of roles. *)
Theorem registry_tracks_roles (ops : list regOp) :
  disciplined ∅ ops →
  ∃ m, regRun ops (Some NewRegistry) = Some m ∧
    let a := specRun ops ∅ in
    (∀ r, 0 ≤ r → get r m = Some (snd <$> a !! r)) ∧
    (∀ s, 0 ≤ s → ∃ x, getBySes s m = Some x ∧ bySes s a x) ∧
    Count m = Z.of_nat (base.size a).
Proof.
  intros Hd. destruct (regRun_ok ops ∅ NewRegistry Hd NewRegistry_ok empty_good) as (m & E & Hok & [Hw Hi]).
  exists m. split; [done|]. cbv zeta. splits; intros.
  - by apply get_ok.
  - by apply getBySes_ok.
  - by apply Count_ok.
Qed.

Definition demoOps : list regOp :=
  [ORegister 5 100 (mkMeta 1); ORegister 69 164 (mkMeta 2); OUnregister 5 100; ORegister 5 101 (mkMeta 3);
   OUnregister 5 100].

(** The freshness of a concrete operation. *)
Lemma demoOps_disciplined : disciplined ∅ demoOps.
Proof.
  assert (Hb : ∀ s (a : regs), Forall (λ kv, kv.2.1 ≠ s) (map_to_list a) → bySes s a None).
  { intros s a Ha r p E. rewrite Forall_forall in Ha. apply (Ha (r, (s, p))); [by apply elem_of_map_to_list|done]. }
  assert (Hp : ∀ p (a : regs), Forall (λ kv, kv.2.2 ≠ p) (map_to_list a) → ¬ registered a p).
  { intros p a Ha (r & s & E). rewrite Forall_forall in Ha. apply (Ha (r, (s, p))); [by apply elem_of_map_to_list|done]. }
  cbn [disciplined demoOps fresh]. splits; try lia; try done; try (apply Hb; dec); try (apply Hp; dec).
Qed.

Lemma registry_tracks_roles_witness :
  ∃ m, regRun demoOps (Some NewRegistry) = Some m ∧ Count m = 2 ∧ get 5 m = Some (Some (mkMeta 3)).
Proof.
  destruct (registry_tracks_roles demoOps demoOps_disciplined) as (m & E & Hg & _ & Hc). exists m. splits; [done| |].
  - rewrite Hc. reflexivity.
  - rewrite Hg by lia. reflexivity.
Defined.

(** A session has one role. *)
Lemma getBySes_role a m s r p :
  reg_ok a m → regs_wf a → 0 ≤ s → a !! r = Some (s, p) → getBySes s m = Some (Some p).
Proof.
  intros Hok Hw Hs Ea. destruct (getBySes_ok _ m s Hok Hw Hs) as (x & -> & Hx).
  destruct x as [p'|]; [|by destruct (Hx r p)]. destruct Hx as [r' Ea'].
  assert (r' = r) as ->.
  { destruct Hok as (_ & sm & _ & _ & Hk). assert (sm !! s = Some r) by (apply Hk; eauto).
    assert (sm !! s = Some r') by (apply Hk; eauto). congruence. }
  by rewrite Ea in Ea'; simplify_eq.
Qed.

(** A client's message reaches exactly the role that is registered on its session:
    after any such history, [DispatchBySesID] pushes the event to the queue of that role
    and of no other, reports an error exactly when the queue refuses it, and for a session
    without a role changes nothing and says so. *)
Theorem session_message_reaches_role {E} growcap (ops : list regOp) (s : Z) (e : E) (h : gmap Z (roleObj E)) :
  disciplined ∅ ops → 0 ≤ s →
  ∃ m, regRun ops (Some NewRegistry) = Some m ∧
    (∀ r p o, specRun ops ∅ !! r = Some (s, p) → h !! m_role p = Some o →
       DispatchBySesID growcap s e m h =
         Some (<[m_role p := pushed growcap e o]> h,
               match (Push growcap e (ro_Events o)).2 with Some _ => Some errEventFull | None => None end)) ∧
    (bySes s (specRun ops ∅) None → DispatchBySesID growcap s e m h = Some (h, Some errNotExist)).
Proof.
  intros Hd Hs. destruct (regRun_ok ops ∅ NewRegistry Hd NewRegistry_ok empty_good) as (m & E0 & Hok & [Hw Hi]).
  exists m. split; [done|]. unfold DispatchBySesID. split.
  - intros r p o Ea Eo. rewrite (getBySes_role _ _ _ _ _ Hok Hw Hs Ea). cbn. unfold pushTo. rewrite Eo. unfold pushed.
    by destruct (Push growcap e (ro_Events o)) as [q [err|]].
  - intros Hn. destruct (getBySes_ok _ m s Hok Hw Hs) as (x & -> & Hx). cbn.
    destruct x as [p|]; [|done]. destruct Hx as [r Ea]. by destruct (Hn r p).
Qed.

Definition demoHeap : gmap Z (roleObj Z) :=
  list_to_map [(1, mkRO (NewSwapQueue 16 1600) true); (2, mkRO (NewSwapQueue 16 1600) false);
               (3, mkRO (NewSwapQueue 16 1600) false)].

Lemma session_message_reaches_role_witness :
  ∃ m, regRun demoOps (Some NewRegistry) = Some m ∧
    DispatchBySesID (λ _ n, 2 * n) 101 77 m demoHeap =
      Some (<[3 := pushed (λ _ n, 2 * n) 77 (mkRO (NewSwapQueue 16 1600) false)]> demoHeap, None).
Proof.
  destruct (session_message_reaches_role (λ _ n, 2 * n) demoOps 101 77 demoHeap demoOps_disciplined) as (m & E & H1 & _);
    [lia|].
  exists m. split; [done|]. apply (H1 5 (mkMeta 3) (mkRO (NewSwapQueue 16 1600) false)); reflexivity.
Defined.

(** Every role ticks once per cycle: in 64 consecutive ticks of [Run], starting at
    shard 0 and ending there again, each registered role is sent exactly one tick, at the
    time its shard came up, and no other object is touched; the order in which Go iterates
    over a shard does not matter. *)
Theorem tick_cycle_reaches_every_role {E} growcap (tick : Z → E) iter (ops : list regOp) (nows : list Z)
    (h : gmap Z (roleObj E)) :
  (∀ m, iter m ≡ₚ (map_to_list m).*2) → disciplined ∅ ops → length nows = Z.to_nat shardCount →
  ∃ m h', regRun ops (Some NewRegistry) = Some m ∧ runTicks growcap iter tick nows m 0 h = Some (h', 0) ∧
    (∀ r s p now, specRun ops ∅ !! r = Some (s, p) → nows !! shardIdx shardCount r = Some now →
       h' !! m_role p = pushed growcap (tick now) <$> h !! m_role p) ∧
    (∀ x, ¬ registered (specRun ops ∅) (mkMeta x) → h' !! x = h !! x).
Proof.
  intros Hiter Hd Hlen. destruct (regRun_ok ops ∅ NewRegistry Hd NewRegistry_ok empty_good) as (m & E0 & Hok & [Hw Hi]).
  assert (Hl : len (roleShards m) = shardCount) by (by destruct Hok as (_ & ? & (? & _) & _)).
  assert (Hrun : ∀ x, _) by (intros x; refine (runTicks_ok growcap tick iter nows m 0 h x _ Hl _ _);
    [intros; by eapply iter_shard_NoDup|done|by destruct nows]).
  destruct (Hrun 0) as (h' & Eh & _). exists m, h'. splits; [done|done| |].
  - intros r s [x] now Ea Hn. destruct (Hrun x) as (h2 & Eh2 & _ & Hyes). rewrite Eh in Eh2. simplify_eq.
    destruct (registered_in_shard iter Hiter _ m r s (mkMeta x) Hok Hw Ea) as (sh & Es & Hin).
    apply (Hyes _ sh now ltac:(lia) Es Hin); [by rewrite Nat.sub_0_r|]. intros j sj Ej Hj.
    destruct (iter_shard iter Hiter _ m j sj (mkMeta x) Hok Ej Hj) as (r' & s' & Ea' & ->).
    by rewrite (Hi r' r s' s (mkMeta x) Ea' Ea).
  - intros x Hx. destruct (Hrun x) as (h2 & Eh2 & Hno & _). rewrite Eh in Eh2. simplify_eq. apply Hno.
    intros i sh _ Ei Hin. destruct Hx. destruct (iter_shard iter Hiter _ m i sh _ Hok Ei Hin) as (r & s & Ea & _).
    by exists r, s.
Qed.

Lemma tick_cycle_reaches_every_role_witness :
  ∃ m h', regRun demoOps (Some NewRegistry) = Some m ∧
    runTicks (λ _ n, 2 * n) (λ m, (map_to_list m).*2) (λ t, t) (seqZ 0 64) m 0 demoHeap = Some (h', 0) ∧
    h' !! 3 = pushed (λ _ n, 2 * n) 5 <$> demoHeap !! 3 ∧ h' !! 1 = demoHeap !! 1.
Proof.
  destruct (tick_cycle_reaches_every_role (λ _ n, 2 * n) (λ t, t) (λ m, (map_to_list m).*2) demoOps (seqZ 0 64) demoHeap)
    as (m & h' & E & Eh & H1 & H2); [done|exact demoOps_disciplined|done|].
  exists m, h'. splits; [done|done| |].
  - apply (H1 5 101 (mkMeta 3) 5); reflexivity.
  - apply H2. intros (r & s & Hr%elem_of_map_to_list).
    assert (Hall : Forall (λ kv, kv.2.2 ≠ mkMeta 1) (map_to_list (specRun demoOps ∅))) by dec.
    rewrite Forall_forall in Hall. by apply (Hall _ Hr).
Defined.

(** Closing the registry reaches every role: [CloseAndWait] cancels and wakes exactly
    the registered roles and waits for exactly them. *)
Theorem close_kicks_every_role {E} (iter : gmap Z meta → list meta) (ops : list regOp) (h : gmap Z (roleObj E)) :
  (∀ m, iter m ≡ₚ (map_to_list m).*2) → disciplined ∅ ops →
  ∃ m, regRun ops (Some NewRegistry) = Some m ∧
    let '(h', waited) := CloseAndWait iter m h in
    ∀ p, (registered (specRun ops ∅) p → h' !! m_role p = kicked <$> h !! m_role p ∧ p ∈ waited) ∧
         (¬ registered (specRun ops ∅) p → h' !! m_role p = h !! m_role p ∧ p ∉ waited).
Proof.
  intros Hiter Hd. destruct (regRun_ok ops ∅ NewRegistry Hd NewRegistry_ok empty_good) as (m & E0 & Hok & [Hw Hi]).
  exists m. split; [done|]. destruct (CloseAndWait iter m h) as [h' waited] eqn:Ec. intros [x].
  pose proof (CloseAndWait_ok iter Hiter _ m h x Hok Hw Hi) as Hx. by rewrite Ec in Hx.
Qed.

Lemma close_kicks_every_role_witness :
  ∃ m, regRun demoOps (Some NewRegistry) = Some m ∧
    mkMeta 3 ∈ (CloseAndWait (λ m, (map_to_list m).*2) m demoHeap).2 ∧
    (CloseAndWait (λ m, (map_to_list m).*2) m demoHeap).1 !! 3 = kicked <$> demoHeap !! 3.
Proof.
  destruct (close_kicks_every_role (λ m, (map_to_list m).*2) demoOps demoHeap) as (m & E & H);
    [done|exact demoOps_disciplined|].
  exists m. split; [done|]. destruct (CloseAndWait (λ m, (map_to_list m).*2) m demoHeap) as [h' w].
  destruct (H (mkMeta 3)) as [H1 _]. destruct H1; [|done]. exists 5, 101. reflexivity.
Defined.

(** A registration that overlaps another of the same role makes the newer one
    unreachable: when a role is registered on a second session before its first instance
    unregisters, the late [Unregister] deletes the entry of the new instance, so that
    neither the role id nor the new session leads to it any more. *)
Theorem overlapping_registration_unreachable (ops : list regOp) (r s1 s2 : Z) (p1 p2 : meta) :
  disciplined ∅ ops → specRun ops ∅ !! r = Some (s1, p1) → 0 ≤ r → 0 ≤ s1 → 0 ≤ s2 → s1 ≠ s2 →
  ∃ m m1 m2, regRun ops (Some NewRegistry) = Some m ∧ Register r s2 p2 m = Some m1 ∧
    get r m1 = Some (Some p2) ∧ getBySes s2 m1 = Some (Some p2) ∧
    Unregister r s1 m1 = Some m2 ∧ get r m2 = Some None ∧ getBySes s2 m2 = Some None.
Proof.
  intros Hd Ea Hr Hs1 Hs2 Hne.
  destruct (regRun_ok ops ∅ NewRegistry Hd NewRegistry_ok empty_good) as (m & E0 & (_ & sm & H1 & H2 & Hk) & _).
  assert (Hs : sm !! s1 = Some r) by (apply Hk; eauto).
  destruct (sAdd_refines shardCount _ _ s2 r eq_refl Hs2 H2) as (ss & E2 & H2').
  destruct (sAdd_refines shardCount _ _ r p2 eq_refl Hr H1) as (rs & E1 & H1').
  destruct (sRemove_refines shardCount _ _ s1 eq_refl Hs1 H2') as (ss' & F2 & G2).
  destruct (sRemove_refines shardCount _ _ r eq_refl Hr H1') as (rs' & F1 & G1).
  pose proof (sGet_refines shardCount rs _ r eq_refl Hr H1') as A1.
  pose proof (sGet_refines shardCount rs' _ r eq_refl Hr G1) as A2.
  pose proof (sGet_refines shardCount ss _ s2 eq_refl Hs2 H2') as A3.
  pose proof (sGet_refines shardCount ss _ s1 eq_refl Hs1 H2') as A4.
  pose proof (sGet_refines shardCount ss' _ s2 eq_refl Hs2 G2) as A5.
  rewrite lookup_insert_eq in A1. rewrite lookup_insert_eq in A3. rewrite lookup_delete_eq in A2. rewrite lookup_insert_ne, Hs in A4 by done.
  rewrite lookup_delete_ne, lookup_insert_eq in A5 by done.
  exists m, (mkReg rs ss), (mkReg rs' ss'). unfold Register, Unregister, getBySes, get. cbn [roleShards sesShards].
  rewrite E2, A1, A2, A3, A4, A5. cbn [mbind option_bind]. rewrite E1, A1, A2, decide_True, F2 by done.
  cbn [mbind option_bind]. by rewrite F1.
Qed.

Lemma overlapping_registration_unreachable_witness :
  ∃ m m1 m2, regRun demoOps (Some NewRegistry) = Some m ∧ Register 5 102 (mkMeta 4) m = Some m1 ∧
    get 5 m1 = Some (Some (mkMeta 4)) ∧ getBySes 102 m1 = Some (Some (mkMeta 4)) ∧
    Unregister 5 101 m1 = Some m2 ∧ get 5 m2 = Some None ∧ getBySes 102 m2 = Some None.
Proof.
  apply (overlapping_registration_unreachable demoOps 5 101 102 (mkMeta 3) (mkMeta 4) demoOps_disciplined);
    [reflexivity|lia..].
Defined.
