(* ===== verification/Actors.v ===== *)
(** * internal/share/actor: global actors

    An actor is a queue, a sub-actor and a goroutine that handles events and a one-second
    tick until the manager's context is cancelled. A panic in an event is caught, and the
    loop starts over. The manager is a table of actors that is filled before they start. *)

From S2P Require Import Prelude SwapQueue EventLoop.

(** ** The goroutine *)

Section Loop.
Context {E S : Type} (zero : E) (growcap : Z → Z → Z).
(** One event of the [Range] callback, [sub.OnTick] and [sub.Exit]. *)
Context (exec : E → S → outcome S) (onTick : S → outcome S) (exit : S → S).

(** Where the goroutine is: at the outer [select] of [Start], at the [select] of [run],
    before the swap, in the callback, in the deferred function, gone. *)
Inductive aphase := AOuter | ASelect | ASwap | ABatch (rest : list E) | AExit | ADone.

Record aloop := mkAL {
  al_mb : mbox E; al_ctx : bool; al_ph : aphase; al_sub : S;
  al_handled : list E;
  al_wg : Z }.            (* this actor's share of the manager's wait group *)

(** [NewActor] and [Start]. *)
Definition actorSize (EventChanSize : Z) : Z := if decide (EventChanSize = 0) then 40960 else EventChanSize.
Definition al_start (sz : Z) (s : S) : aloop :=
  mkAL (mb_new (actorSize sz) (actorSize sz * 100)) false AOuter s [] 1.

(** Steps of the goroutine. A [select] with several ready cases takes any of them. *)
Inductive al_own : aloop → aloop → Prop :=
| alo_stop b s h w : al_own (mkAL b true AOuter s h w) (mkAL b true AExit s h w)
| alo_run b s h w : al_own (mkAL b false AOuter s h w) (mkAL b false ASelect s h w)
| alo_recv b b' c s h w : mb_recv b = Some b' → al_own (mkAL b c ASelect s h w) (mkAL b' c ASwap s h w)
| alo_tick b c s h w s' cc : onTick s = Fine s' cc → al_own (mkAL b c ASelect s h w) (mkAL b c ASelect s' h w)
| alo_tick_panic b c s h w s' cc : onTick s = Panicked s' cc → al_own (mkAL b c ASelect s h w) (mkAL b c AOuter s' h w)
| alo_done b s h w : al_own (mkAL b true ASelect s h w) (mkAL b true AOuter s h w)
| alo_swap b b' l c s h w : mb_take b = (b', l) →
    al_own (mkAL b c ASwap s h w) (mkAL b' c (match l with [] => ASelect | _ => ABatch l end) s h w)
| alo_exec b c s h w e l s' cc : exec e s = Fine s' cc →
    al_own (mkAL b c (ABatch (e :: l)) s h w) (mkAL b c (ABatch l) s' (h ++ [e]) w)
| alo_panic b c s h w e l s' cc : exec e s = Panicked s' cc →
    al_own (mkAL b c (ABatch (e :: l)) s h w) (mkAL b c AOuter s' (h ++ [e]) w)
| alo_finish b c s h w : al_own (mkAL b c (ABatch []) s h w) (mkAL (mb_finish zero b) c ASelect s h w)
| alo_exit b c s h w : al_own (mkAL b c AExit s h w) (mkAL b c ADone (exit s) h (w - 1)).

(** What others do: [Post], and the cancellation of [StopAndWait]. *)
Inductive al_env : aloop → aloop → Prop :=
| ale_mb b b' c ph s h w : menv growcap b b' → al_env (mkAL b c ph s h w) (mkAL b' c ph s h w)
| ale_cancel b c ph s h w : al_env (mkAL b c ph s h w) (mkAL b true ph s h w).

Inductive al_step : aloop → aloop → Prop :=
| als_own x y : al_own x y → al_step x y
| als_env x y : al_env x y → al_step x y.

Definition al_reachable (sz : Z) (s : S) (x : aloop) : Prop := rtc al_step (al_start sz s) x.

Definition apending (ph : aphase) : list E := match ph with ABatch l => l | _ => [] end.
Definition panics : Prop := ∃ e s s' c, exec e s = Panicked s' c.

(** Events are handled in order; unless a handler panics, all of them. *)
Definition al_inv (mx : Z) (x : aloop) : Prop :=
  mb_ok mx (al_mb x) ∧
  al_handled x ++ apending (al_ph x) `sublist_of` taken (al_mb x) ∧
  (¬ panics → taken (al_mb x) = al_handled x ++ apending (al_ph x)) ∧
  (al_ph x ≠ ASwap → mb_awake (al_mb x)) ∧
  (al_ph x = AExit ∨ al_ph x = ADone → al_ctx x = true) ∧
  al_wg x = match al_ph x with ADone => 0 | _ => 1 end.

Lemma al_own_inv mx x y : al_own x y → al_inv mx x → al_inv mx y.
Proof.
  intros Hs. unfold al_inv.
  destruct Hs as [b s h w|b s h w|b b' c s h w Hr|b c s h w s' cc Ht|b c s h w s' cc Ht|b s h w
    |b b' l c s h w Ht|b c s h w e l s' cc He|b c s h w e l s' cc He|b c s h w|b c s h w]; cbn;
    intros (Hb & Hsub & Hex & Haw & Hctx & Hw); try (splits; first [done|tauto|by intros [?|?]|lia|by auto]).
  - assert (taken b' = taken b) as Et.
    { revert Hr. unfold mb_recv. destruct (recvSig (mq b)); [|done]. cbn. by intros [= <-]. }
    rewrite Et. splits; [by eapply mb_recv_ok|done|done|done|by intros [?|?]|done].
  - destruct (mb_take_ok mx b Hb) as (Hb' & _ & Haw' & Htk). rewrite Ht in *. cbn in *.
    rewrite app_nil_r in Hsub, Hex. rewrite Htk.
    assert (Hp : apending (match l with [] => ASelect | _ => ABatch l end) = l) by (by destruct l). rewrite Hp.
    splits; [done|by apply sublist_app|intros Hn; by rewrite Hex|done|destruct l; by intros [?|?]|by destruct l].
  - rewrite <- app_assoc. cbn. splits; try done; intros; try by apply Haw. by destruct H.
  - splits; try done.
    + rewrite app_nil_r. etrans; [|exact Hsub]. change (e :: l) with ([e] ++ l). rewrite app_assoc.
      apply sublist_inserts_r. reflexivity.
    + intros Hn. destruct Hn. by exists e, s, s', cc.
    + intros _. by apply Haw.
    + by intros [?|?].
Qed.

Lemma al_env_inv mx x y : al_env x y → al_inv mx x → al_inv mx y.
Proof.
  intros Hs. unfold al_inv. destruct Hs as [b b' c ph s h w Hm|b c ph s h w]; cbn; intros (Hb & Hsub & Hex & Haw & Hctx & Hw).
  - assert (taken b' = taken b) as Et by (destruct Hm; [unfold mb_push; by destruct (pushData _ _ _)|done]).
    rewrite Et. splits; try done; [by eapply menv_ok|intros; by eapply menv_awake].
  - splits; done.
Qed.

Lemma al_reach_inv sz s x : al_reachable sz s x → al_inv (actorSize sz * 100) x.
Proof.
  intros Hx. eapply rtc_preserved; [|exact Hx|].
  - intros a b [?? Ha|?? Ha]; [by eapply al_own_inv|by eapply al_env_inv].
  - unfold al_inv. cbn. splits; first [apply mb_new_ok|done|by intros _ ?|by intros [?|?]].
Qed.

End Loop.

(** ** The manager *)

Section Mgr.
Context {E S : Type} (growcap : Z → Z → Z).

Record Actor := mkActor { a_Events : SwapQueue E; a_sub : S }.
Record ActorMgr := mkMgr { actors : gmap Z Actor; am_ctx : bool }.

Definition NewActorMgr : ActorMgr := mkMgr ∅ false.

Definition NewActor (subActor : S) (EventChanSize : Z) : Actor :=
  let sz := actorSize EventChanSize in mkActor (NewSwapQueue sz (sz * 100)) subActor.

(** [subInit] is the sub-actor's [Init]. *)
Definition Init (subInit : S → S * go_error) (id : Z) (a : S) (evtChanSize : Z) (m : ActorMgr) : ActorMgr * go_error :=
  match actors m !! id with
  | Some _ => (m, Some (ErrMsg ("actor id " +:+ pretty id +:+ " repeated")))
  | None =>
      let ac := NewActor a evtChanSize in
      let '(sub, err) := subInit (a_sub ac) in
      match err with
      | Some e => (m, Some e)
      | None => (mkMgr (<[id := mkActor (a_Events ac) sub]> (actors m)) (am_ctx m), None)
      end
  end.

Definition Post (e : E) (a : Actor) : Actor * go_error :=
  let '(q, err) := Push growcap e (a_Events a) in (mkActor q (a_sub a), err).

Definition am_get (id : Z) (m : ActorMgr) : option Actor := actors m !! id.

Definition am_Dispatch (id : Z) (e : E) (m : ActorMgr) : ActorMgr * go_error :=
  match am_get id m with
  | None => (m, Some (ErrMsg ("actor id " +:+ pretty id +:+ " not found")))
  | Some a => let '(a, err) := Post e a in (mkMgr (<[id := a]> (actors m)) (am_ctx m), err)
  end.

(** [order]: the iteration over the map. [stopped id] is the event that logs the stop. *)
Definition StopAndWait (stopped : Z → E) (order : list Z) (m : ActorMgr) : ActorMgr :=
  fold_left (λ m id, mkMgr (alter (λ a, (Post (stopped id) a).1) id (actors m)) (am_ctx m)) order
    (mkMgr (actors m) true).

End Mgr.
Arguments Actor : clear implicits.
Arguments ActorMgr : clear implicits.

(** ** Properties *)

(** An actor handles its events in order and survives their panics: the handled
    events followed by the rest of the current batch are always a subsequence of the
    accepted ones; if no handler panics, nothing is skipped; the goroutine leaves its loop
    only after the manager was stopped, and releases the wait group only then; and it is
    never left waiting while events lie in its queue. *)
Theorem actor_events_in_order {E S} (zero : E) growcap exec onTick exit sz (s0 : S) x :
  al_reachable zero growcap exec onTick exit sz s0 x →
  al_handled x ++ apending (al_ph x) ++ write (mq (al_mb x)) `sublist_of` accepted (al_mb x) ∧
  (¬ panics exec → accepted (al_mb x) = al_handled x ++ apending (al_ph x) ++ write (mq (al_mb x))) ∧
  (al_ph x = AExit ∨ al_ph x = ADone → al_ctx x = true) ∧ (al_wg x = 0 ↔ al_ph x = ADone) ∧
  (al_ph x = ASelect → write (mq (al_mb x)) ≠ [] → is_Some (mb_recv (al_mb x)) ∨ (0 < owed (al_mb x))%nat).
Proof.
  intros Hx. apply al_reach_inv in Hx as ((Ha & _) & Hsub & Hex & Haw & Hctx & Hw). splits.
  - rewrite Ha, app_assoc. by apply sublist_app.
  - intros Hn. by rewrite Ha, Hex, <- app_assoc.
  - done.
  - rewrite Hw. by destruct (al_ph x).
  - intros Hp Hne. destruct Haw as [Hs|Ho]; [by rewrite Hp|done| |by right]. left. unfold mb_recv, recvSig.
    rewrite Hs. by eexists.
Qed.

(** The example actor adds its events up; event 0 panics. *)
Definition demoAExec (e s : Z) : outcome Z := if decide (e = 0) then Panicked s false else Fine (s + e) false.
Abbreviation demoAReach := (al_reachable 0 (λ _ n : Z, 2 * n) demoAExec (λ s : Z, Fine s false) (λ s : Z, s) 4 0).

Definition demoMB (write : list Z) (sig : bool) (owed : nat) (acc tkn : list Z) : mbox Z :=
  mkMB {| SwapQueue.write := write; wcap := 4; read := []; rcap := 4; sig := sig; maxSize := 400; size := 4;
          closed := false |} owed acc tkn.

(** Two events are posted, the first of which panics. *)
Lemma demoA_two_events :
  demoAReach (mkAL (demoMB [0; 5] true 0 [0; 5] []) false ASelect 0 [] 1).
Proof.
  unfold al_reachable.
  eapply (rtc_l _ _ (mkAL (demoMB [0] false 1 [0] []) false AOuter 0 [] 1)).
  { apply als_env, (ale_mb _ _ (mb_push (λ _ n, 2 * n) 0 (mb_new 4 400))), menv_push. }
  eapply (rtc_l _ _ (mkAL (demoMB [0; 5] false 2 [0; 5] []) false AOuter 0 [] 1)).
  { apply als_env, (ale_mb _ _ (mb_push (λ _ n, 2 * n) 5 (demoMB [0] false 1 [0] []))), menv_push. }
  eapply (rtc_l _ _ (mkAL (demoMB [0; 5] true 1 [0; 5] []) false AOuter 0 [] 1)).
  { apply als_env, (ale_mb _ _ (mb_wake (demoMB [0; 5] false 2 [0; 5] []))), menv_wake. cbn. lia. }
  eapply (rtc_l _ _ (mkAL (demoMB [0; 5] true 0 [0; 5] []) false AOuter 0 [] 1)).
  { apply als_env, (ale_mb _ _ (mb_wake (demoMB [0; 5] true 1 [0; 5] []))), menv_wake. cbn. lia. }
  apply rtc_once, als_own, alo_run.
Qed.

Lemma actor_events_in_order_witness :
  [0; 5] `sublist_of` [0; 5] ∧
  (is_Some (mb_recv (demoMB [0; 5] true 0 [0; 5] [])) ∨ (0 < 0)%nat).
Proof.
  destruct (actor_events_in_order 0 (λ _ n : Z, 2 * n) demoAExec (λ s : Z, Fine s false) (λ s : Z, s) 4 0
    (mkAL (demoMB [0; 5] true 0 [0; 5] []) false ASelect 0 [] 1) demoA_two_events) as (H1 & _ & _ & _ & H5).
  split; [exact H1|]. apply H5; done.
Defined.

(** Stopping loses accepted events: the manager cancels before anything else, and an
    actor whose queue is not empty may see the cancellation first. *)
Lemma actor_stop_drops_events :
  ∃ x, demoAReach x ∧ al_ph x = ADone ∧ accepted (al_mb x) = [0; 5] ∧ al_handled x = [].
Proof.
  exists (mkAL (demoMB [0; 5] true 0 [0; 5] []) true ADone 0 [] 0). splits; try reflexivity.
  eapply rtc_r; [eapply rtc_r; [eapply rtc_r; [eapply rtc_r; [apply demoA_two_events|apply als_env, ale_cancel]
    |apply als_own, alo_done]|apply als_own, alo_stop]|apply als_own]. apply (alo_exit 0 demoAExec (λ s : Z, Fine s false) (λ s : Z, s) (demoMB [0; 5] true 0 [0; 5] []) true 0 [] 1).
Qed.

(** The table of actors: an id is initialised at most once (a second [Init], or one
    whose sub-actor fails, is an error and leaves the table alone), [Dispatch] pushes to the
    queue of that actor and of no other, and to an unknown id changes nothing and is an
    error. *)
Theorem actor_table {E S} growcap (subInit : S → S * go_error) (m : ActorMgr E S) id a sz (e : E) :
  (let '(m', err) := Init subInit id a sz m in
   match actors m !! id, (subInit a).2 with
   | None, None => err = None ∧ am_get id m' = Some (mkActor (NewSwapQueue (actorSize sz) (actorSize sz * 100)) (subInit a).1) ∧
                   ∀ id', id' ≠ id → am_get id' m' = am_get id' m
   | _, _ => err ≠ None ∧ m' = m
   end) ∧
  (let '(m', err) := am_Dispatch growcap id e m in
   match am_get id m with
   | None => err ≠ None ∧ m' = m
   | Some ac => am_get id m' = Some (mkActor (Push growcap e (a_Events ac)).1 (a_sub ac)) ∧
                err = (Push growcap e (a_Events ac)).2 ∧ ∀ id', id' ≠ id → am_get id' m' = am_get id' m
   end).
Proof.
  split.
  - unfold Init, NewActor. destruct (actors m !! id) eqn:Ea; [done|]. cbn [a_sub a_Events].
    destruct (subInit a) as [sub [err|]]; cbn [snd fst]; [done|]. unfold am_get. cbn.
    splits; [done|by rewrite lookup_insert_eq|]. intros. by rewrite lookup_insert_ne.
  - unfold am_Dispatch, Post. destruct (am_get id m) as [ac|] eqn:Ea; [|done].
    destruct (Push growcap e (a_Events ac)) as [q err]. unfold am_get. cbn.
    splits; [by rewrite lookup_insert_eq|done|]. intros. by rewrite lookup_insert_ne.
Qed.
