(* ===== verification/App.v ===== *)
(** * The message entry points of the game and the center servers

    internal/game/app.go and internal/center/app.go decide where a message from the bus
    goes: to a role's queue, to an actor's, to the router at once, or on to the node where
    a role is online. internal/game/role/router.go registers handlers that receive the role
    through the message's [U] field. *)

From S2P Require Import Prelude Gmsg SwapQueue Batcher DataBus Proto Rpc Router Sharded EventLoop Actors Registry.

(** ** Role handlers *)

(** [c.U] during a call of the router, and the role state behind it: no role, a role, or
    the panic of a failed type assertion. *)
Inductive uval (R : Type) := UNil | URole (r : R) | UPanic.
Arguments UNil {_}.
Arguments URole {_}.
Arguments UPanic {_}.

Section RoleHandlers.
Context {M : Type} `{VTMessage M} {R : Type}.

(** [df(msg.(T), c.U.( *Role))]. *)
Definition role_handleFunc (df : M → R → M * R) : handleFunc (M := M) (A := uval R) := λ _ m u,
  match u with
  | URole r => let '(m, r) := df m r in (m, URole r)
  | UNil | UPanic => (m, UPanic)
  end.

Definition role_rpcFunc (df : M → M → R → M * M * R) : rpcFunc (M := M) (A := uval R) := λ _ q s u,
  match u with
  | URole r => let '(q, s, r) := df q s r in (q, s, URole r)
  | UNil | UPanic => (q, s, UPanic)
  end.

(** [None] is the panic of a failed registration. *)
Definition role_register (ready usePool : bool) (req : M) (df : M → R → M * R) (rt : Router (M := M) (A := uval R))
    : option (Router (M := M) (A := uval R)) :=
  match FindMsgIDAndCreateFunc req with
  | Err _ => None
  | Ok (msgID, reqCreate) =>
      match Router_Register ready msgID reqCreate usePool (role_handleFunc df) rt with
      | (_, Some _) => None
      | (rt, None) => Some rt
      end
  end.

Definition role_registerRpc (ready usePool : bool) (req res : M) (df : M → M → R → M * M * R)
    (rt : Router (M := M) (A := uval R)) : option (Router (M := M) (A := uval R)) :=
  match FindMsgIDAndCreateFunc req with
  | Err _ => None
  | Ok (msgID, reqCreate) =>
      match Router_RegisterRpc ready msgID reqCreate (new_msg (msg_type res)) usePool (role_rpcFunc df) rt with
      | (_, Some _) => None
      | (rt, None) => Some rt
      end
  end.

Definition role_On ready req df rt := role_register ready false req df rt.
Definition role_OnP ready req df rt := role_register ready true req df rt.
Definition role_OnRpc ready req res df rt := role_registerRpc ready false req res df rt.
Definition role_OnRpcP ready req res df rt := role_registerRpc ready true req res df rt.

(** ** Events *)

(** What the goroutine of a role owns: the role, and the rpc answers it published. *)
Abbreviation rstate := (R * list (string * bytes))%type.

(** [role.Event] and the type of its [Func]. *)
Record Event := mkEvent { ev_Ctx : Message; ev_Func : option (rstate → outcome rstate) }.

(** The context of the role, cancelled or not. *)
Context (cancelled : R → bool).
Context (stale : Z → bytes) (publish : string → bytes → go_error).

(** The callback of [Range] in [Role.Run], with the router's pools as they are. *)
Definition handleEvent (pick pick2 : option nat) (evt : Event) (rt : Router (M := M) (A := uval R)) (s : rstate)
    : Router (M := M) (A := uval R) * outcome rstate :=
  match ev_Func evt with
  | Some f => (rt, f s)
  | None =>
      match Router_Handle stale publish pick pick2 (ev_Ctx evt) rt (URole s.1, s.2) with
      | None => (rt, Panicked s false)
      | Some (rt, (URole r, out), _) => (rt, Fine (r, out) (cancelled r))
      | Some (rt, (_, out), _) => (rt, Panicked (s.1, out) false)
      end
  end.

(** The same with a table of handler meanings, which has no pools. *)
Definition specEvent (max : Z) (specs : gmap Z (hspec (M := M) (A := uval R))) (evt : Event) (s : rstate) : outcome rstate :=
  match ev_Func evt with
  | Some f => f s
  | None =>
      match spec_route stale publish max specs (ev_Ctx evt) (URole s.1, s.2) with
      | None => Panicked s false
      | Some ((URole r, out), _) => Fine (r, out) (cancelled r)
      | Some ((_, out), _) => Panicked (s.1, out) false
      end
  end.

Lemma handleEvent_ok `{!VTLaws M} max specs pick pick2 evt rt s :
  router_ok max specs rt → 0 ≤ MsgID (msg_head (ev_Ctx evt)) →
  let '(rt', o) := handleEvent pick pick2 evt rt s in
  router_ok max specs rt' ∧ o = specEvent max specs evt s.
Proof.
  intros Hok Hid. unfold handleEvent, specEvent. destruct (ev_Func evt) as [f|]; [done|].
  pose proof (Router_Handle_ok stale publish max specs rt pick pick2 (ev_Ctx evt) (URole s.1, s.2) Hok Hid) as Hr.
  destruct (Router_Handle _ _ _ _ _ _ _) as [[[rt' [u out]] err]|].
  - destruct Hr as [Hok' ->]. by destruct u.
  - by rewrite Hr.
Qed.

(** ** Registrations of role handlers *)

(** One call of [On], [OnP], [OnRpc] or [OnRpcP], with the zero values of its types. *)
Inductive roleReg :=
| RegMsg (usePool : bool) (req : M) (df : M → R → M * R)
| RegRpc (usePool : bool) (req res : M) (df : M → M → R → M * M * R).

Definition roleReg_do (reg : roleReg) (rt : Router (M := M) (A := uval R)) : option (Router (M := M) (A := uval R)) :=
  match reg with
  | RegMsg usePool req df => role_register false usePool req df rt
  | RegRpc usePool req res df => role_registerRpc false usePool req res df rt
  end.
Definition roleRegs (regs : list roleReg) (rt : option (Router (M := M) (A := uval R))) :=
  fold_left (λ rt reg, rt ≫= roleReg_do reg) regs rt.

(** A Go function cannot change the type of the objects it is given. *)
Definition roleReg_typed (reg : roleReg) : Prop :=
  match reg with
  | RegMsg _ _ df => ∀ m r, msg_type (df m r).1 = msg_type m
  | RegRpc _ _ _ df => ∀ q s r, msg_type (df q s r).1.1 = msg_type q ∧ msg_type (df q s r).1.2 = msg_type s
  end.

Definition roleReg_req (reg : roleReg) : M := match reg with RegMsg _ req _ | RegRpc _ req _ _ => req end.
(** The id the handler is registered under. *)
Definition roleReg_id (reg : roleReg) (id : Z) : Prop := ∃ c, FindMsgIDAndCreateFunc (roleReg_req reg) = Ok (id, c).
Definition roleReg_spec (reg : roleReg) : hspec (M := M) (A := uval R) :=
  match reg with
  | RegMsg _ req df => SMsg (msg_type req) (role_handleFunc df)
  | RegRpc _ req res df => SRpc (msg_type req) (msg_type res) (role_rpcFunc df)
  end.

Lemma roleReg_typed_spec reg : roleReg_typed reg → typed_spec (roleReg_spec reg).
Proof.
  destruct reg as [b q df|b q s df]; cbn; intros Ht.
  - intros p m [|r|]; cbn; try done. specialize (Ht m r). by destruct (df m r).
  - intros p m m' [|r|]; cbn; try done. specialize (Ht m m' r). by destruct (df m m' r) as [[? ?] ?].
Qed.

Lemma roleReg_do_ok `{!VTLaws M} max specs rt reg rt' :
  router_ok max specs rt → roleReg_typed reg → roleReg_do reg rt = Some rt' →
  ∃ id, roleReg_id reg id ∧ id < max ∧ specs !! id = None ∧ router_ok max (<[id := roleReg_spec reg]> specs) rt'.
Proof.
  intros Hok Ht E.
  assert (∃ id b, roleReg_id reg id ∧ 0 ≤ id ∧ Router.regDo false rt (Router.mkReg id b (roleReg_spec reg)) = (rt', None))
    as (id & b & Hid & Hn & Ed).
  { destruct reg as [b q df|b q s df]; cbn in E; unfold role_register, role_registerRpc in E;
      destruct (FindMsgIDAndCreateFunc q) as [[id c]|e] eqn:Ef; try done;
      destruct (find_ok _ _ _ Ef) as [-> Hn]; exists id, b; (split; [eexists; exact Ef|split; [done|]]); unfold Router.regDo; cbn.
    - destruct (Router_Register _ _ _ _ _ _) as [? [?|]]; [done|]. by injection E as ->.
    - destruct (Router_RegisterRpc _ _ _ _ _ _ _) as [? [?|]]; [done|]. by injection E as ->. }
  pose proof (regDo_ok max specs [] rt (Router.mkReg id b (roleReg_spec reg)) Hok Hn (roleReg_typed_spec _ Ht)) as Hd.
  rewrite Ed in Hd. unfold specReg in Hd. cbn in Hd. exists id. case_decide; [by destruct Hd|].
  destruct (specs !! id); [by destruct Hd|]. destruct Hd as [Hd _]. splits; [done|lia|done|done].
Qed.

(** The table that a sequence of registrations makes. *)
Lemma roleRegs_ok `{!VTLaws M} max specs rt regs rt' :
  router_ok max specs rt → Forall roleReg_typed regs → roleRegs regs (Some rt) = Some rt' →
  ∃ specs', router_ok max specs' rt' ∧
    ∀ id s, specs' !! id = Some s ↔ specs !! id = Some s ∨ ∃ reg, reg ∈ regs ∧ roleReg_id reg id ∧ id < max ∧ s = roleReg_spec reg.
Proof.
  intros Hok Hf. revert rt specs Hok. induction Hf as [|reg regs Ht _ IH]; intros rt specs Hok E.
  - injection E as <-. exists specs. split; [done|]. intros id s. split; [by left|]. intros [|(? & ?%elem_of_nil & _)]; done.
  - unfold roleRegs in E. cbn [fold_left mbind option_bind] in E. destruct (roleReg_do reg rt) as [rt1|] eqn:E1.
    2: { exfalso. clear -E. induction regs; [done|]. by apply IHregs. }
    destruct (roleReg_do_ok _ _ _ _ _ Hok Ht E1) as (id1 & Hid1 & Hlt & Hnone & Hok1).
    destruct (IH _ _ Hok1 E) as (specs' & Hok' & Hs). exists specs'. split; [done|]. intros id s. rewrite Hs, lookup_insert_Some.
    split.
    + intros [[[<- <-]|[Hne Hl]]|(reg' & Hin & ?)]; [right; exists reg; by split; [left|]|by left|].
      right. exists reg'. by split; [right|].
    + intros [Hl|(reg' & [->|Hin]%elem_of_cons & Hid & Hlt' & ->)].
      * left. right. split; [congruence|done].
      * left. left. split; [|done]. destruct Hid as [c Hc], Hid1 as [c1 Hc1]. congruence.
      * right. by exists reg'.
Qed.

(** Only ids of the table are registered. *)
Lemma roleRegs_id_lt `{!VTLaws M} max regs rt reg id :
  0 ≤ max → Forall roleReg_typed regs → roleRegs regs (Some (NewMsgRouter max)) = Some rt →
  reg ∈ regs → roleReg_id reg id → id < max.
Proof.
  intros Hmax Hty Hregs Hin [c Hc]. destruct (list_elem_of_split _ _ Hin) as (l1 & l2 & ->).
  unfold roleRegs in Hregs. rewrite fold_left_app in Hregs. cbn [fold_left] in Hregs.
  assert (Hn : ∀ l, fold_left (λ rt reg, rt ≫= roleReg_do reg) l None = None) by (by induction l).
  destruct (fold_left _ l1 _) as [rt1|] eqn:E1; [|cbn in Hregs; by rewrite Hn in Hregs]. cbn [mbind option_bind] in Hregs.
  destruct (roleReg_do reg rt1) as [rt2|] eqn:E2; [|by rewrite Hn in Hregs].
  apply Forall_app in Hty as [Ht1 [Ht2 _]%Forall_cons].
  destruct (roleRegs_ok max ∅ _ _ _ (NewMsgRouter_ok max Hmax) Ht1 E1) as (specs & Hok & _).
  destruct (roleReg_do_ok _ _ _ _ _ Hok Ht2 E2) as (id' & [c' Hc'] & Hlt & _). congruence.
Qed.

(** The routers there are after registering and after any number of handled events. *)
Inductive served (rt0 : Router (M := M) (A := uval R)) : Router (M := M) (A := uval R) → Prop :=
| served_start : served rt0 rt0
| served_event rt pick pick2 evt s :
    served rt0 rt → 0 ≤ MsgID (msg_head (ev_Ctx evt)) → served rt0 (handleEvent pick pick2 evt rt s).1.

Lemma served_ok `{!VTLaws M} max specs rt0 rt : router_ok max specs rt0 → served rt0 rt → router_ok max specs rt.
Proof.
  intros H0 Hs. induction Hs as [|rt pick pick2 evt s _ IH Hid]; [done|].
  pose proof (handleEvent_ok max specs pick pick2 evt rt s IH Hid) as Hh. by destruct (handleEvent _ _ _ _ _) as [? ?], Hh.
Qed.

End RoleHandlers.

(** ** The game server *)

Section Game.
Context {M : Type} `{VTMessage M} {R : Type} {AE AS : Type}.
Context (growcap : Z → Z → Z) (stale : Z → bytes) (publish : string → bytes → go_error).

(** [actor.Event]. *)
Record AEvent := mkAEvent { ae_Ctx : Message; ae_Func : option AE }.

Record gameSrv := mkGame {
  g_reg : Registry; g_heap : gmap Z (roleObj (Event (R := R)));
  g_actors : ActorMgr AEvent AS;
  g_router : Router (M := M) (A := uval R); g_out : list (string * bytes) }.

Definition IDAccBegin : Z := 100000.

(** [None]: a panic; outside a role's goroutine the router is called with no [U]. *)
Definition game_OnServerMsg (pick pick2 : option nat) (c : Message) (g : gameSrv) : option gameSrv :=
  if decide (SesID (msg_head c) ≠ 0) then
    '(h, _) ← DispatchBySesID growcap (SesID (msg_head c)) (mkEvent c None) (g_reg g) (g_heap g);
    Some (mkGame (g_reg g) h (g_actors g) (g_router g) (g_out g))
  else if decide (ActorID (msg_head c) > IDAccBegin) then
    '(h, _) ← Dispatch growcap (ActorID (msg_head c)) (mkEvent c None) (g_reg g) (g_heap g);
    Some (mkGame (g_reg g) h (g_actors g) (g_router g) (g_out g))
  else if decide (ActorID (msg_head c) > 0) then
    let '(a, _) := am_Dispatch growcap (ActorID (msg_head c)) (mkAEvent c None) (g_actors g) in
    Some (mkGame (g_reg g) (g_heap g) a (g_router g) (g_out g))
  else
    '(rt, (u, out), _) ← Router_Handle stale publish pick pick2 c (g_router g) (UNil, g_out g);
    match u with
    | UPanic => None
    | _ => Some (mkGame (g_reg g) (g_heap g) (g_actors g) rt out)
    end.

(** [onDisconnect] of the logon service: the gateway lost the session. *)
Definition onDisconnect (sesID : Z) (g : gameSrv) : option gameSrv :=
  h ← Kick sesID (g_reg g) (g_heap g);
  Some (mkGame (g_reg g) h (g_actors g) (g_router g) (g_out g)).

End Game.

(** ** The center *)

Section Center.
Context {AE AS : Type} (growcap : Z → Z → Z) (cap : Z) (stale : Z → bytes).

Record centerSrv := mkCenter {
  ce_onlines : shards Onlines.Data; ce_actors : ActorMgr (AEvent (AE := AE)) AS; ce_bus : DataBus }.

Definition IDExample : Z := 0.
Definition IDGlobal : Z := 1.

(** [actors.Create]: the sub-actors' [Init] returns nil; their events queues have the
    default size. *)
Definition actors_Create (example global : AS) (m : ActorMgr (AEvent (AE := AE)) AS) : ActorMgr (AEvent (AE := AE)) AS :=
  let '(m, _) := Init (λ s, (s, None)) IDExample example 0 m in
  let '(m, _) := Init (λ s, (s, None)) IDGlobal global 0 m in m.

Definition center_OnServerMsg (c : Message) (s : centerSrv) : option centerSrv :=
  let hd := msg_head c in
  if decide (Flag hd = Forward) then
    '(gameID, ok) ← Onlines.GetGameID (ActorID hd) (ce_onlines s);
    if ok : bool then
      '(bus, _) ← SendToNode cap stale (i32 (ToSer hd)) gameID (MsgID hd) (msg_data c) (ActorID hd) (SesID hd) (ce_bus s);
      Some (mkCenter (ce_onlines s) (ce_actors s) bus)
    else Some s
  else if decide (ActorID hd > 0) then
    let '(a, _) := am_Dispatch growcap (ActorID hd) (mkAEvent c None) (ce_actors s) in
    Some (mkCenter (ce_onlines s) a (ce_bus s))
  else
    let '(a, _) := am_Dispatch growcap IDGlobal (mkAEvent c None) (ce_actors s) in
    Some (mkCenter (ce_onlines s) a (ce_bus s)).

End Center.

(** ** Properties *)

(** What a role handler makes of a message: it is parsed into an empty object, the
    function is called with the role. *)
Definition roleMeaning {M} `{VTMessage M} {R} (t : string) (df : M → R → M * R) (data : bytes) (r : R) : R :=
  match UnmarshalVT (new_msg t) data with
  | (m, None) => (df m r).2
  | (_, Some _) => r
  end.

(** The role, and what is published: the answer, on the subject the message names. *)
Definition rpcMeaning {M} `{VTMessage M} {R} (stale : Z → bytes) (publish : string → bytes → go_error)
    (t u : string) (df : M → M → R → M * M * R) (c : Message) (r : R) (out : list (string * bytes))
    : R * list (string * bytes) :=
  match UnmarshalVT (new_msg t) (msg_data c) with
  | (q, None) =>
      let '(_, s, r) := df q (new_msg u) r in
      (r, match RpcRespond stale publish (Reply c) s out with Some (out, _) => out | None => out end)
  | (_, Some _) => (r, out)
  end.

(** C21. A handler that was registered for roles always gets its role: take any sequence of
    registrations that does not panic, and the router as it is after any number of events
    of any roles. A message that a role's goroutine takes from its queue never ends in a
    failed type assertion: it is parsed into an empty object and handled, whatever the
    pools hand out, by the one function registered for its id together with this role, an
    rpc function's answer being published on the message's reply subject; a payload that
    does not parse and an id without a handler leave the role as it is. But the game
    server hands a message that carries neither a session nor an actor to the same
    handlers outside of a role, and if its payload parses the assertion fails and the
    server panics. *)
Theorem role_handlers_get_their_role {M} `{VTLaws M} {R AE AS} (cancelled : R → bool) growcap stale publish max
    (regs : list (roleReg (M := M) (R := R))) rt0 rt pick pick2 c r out :
  (∀ n, 0 ≤ n → len (stale n) = n) → 0 ≤ max → Forall roleReg_typed regs →
  roleRegs regs (Some (NewMsgRouter max)) = Some rt0 → served cancelled stale publish rt0 rt → 0 ≤ MsgID (msg_head c) →
  let o := (handleEvent cancelled stale publish pick pick2 (mkEvent c None) rt (r, out)).2 in
  (∀ usePool req df, RegMsg usePool req df ∈ regs → roleReg_id (RegMsg usePool req df) (MsgID (msg_head c)) →
     let r' := roleMeaning (msg_type req) df (msg_data c) r in o = Fine (r', out) (cancelled r')) ∧
  (∀ usePool req res df, RegRpc usePool req res df ∈ regs → roleReg_id (RegRpc usePool req res df) (MsgID (msg_head c)) →
     let '(r', out') := rpcMeaning stale publish (msg_type req) (msg_type res) df c r out in o = Fine (r', out') (cancelled r')) ∧
  ((∀ reg, reg ∈ regs → ¬ roleReg_id reg (MsgID (msg_head c))) → o = Fine (r, out) (cancelled r)) ∧
  (∀ reg (g : gameSrv (AE := AE) (AS := AS)), reg ∈ regs → roleReg_id reg (MsgID (msg_head c)) → g_router g = rt →
     SesID (msg_head c) = 0 → ActorID (msg_head c) = 0 →
     (UnmarshalVT (new_msg (msg_type (roleReg_req reg))) (msg_data c)).2 = None →
     game_OnServerMsg growcap stale publish pick pick2 c g = None).
Proof.
  intros Hst Hmax Hty Hregs Hsv Hid.
  destruct (roleRegs_ok max ∅ _ _ _ (NewMsgRouter_ok max Hmax) Hty Hregs) as (specs & Hok0 & Hs).
  pose proof (served_ok cancelled stale publish max specs rt0 rt Hok0 Hsv) as Hok.
  pose proof (handleEvent_ok cancelled stale publish max specs pick pick2 (mkEvent c None) rt (r, out) Hok Hid) as Hh.
  destruct (handleEvent _ _ _ _ _ _ _ _) as [rt' o]. destruct Hh as [_ ->]. cbn [snd].
  assert (Hl : ∀ reg, reg ∈ regs → roleReg_id reg (MsgID (msg_head c)) →
            ∀ w, spec_route stale publish max specs c w = spec_Handle stale publish (roleReg_spec reg) c w).
  { intros reg Hin Hi w. unfold spec_route. pose proof (roleRegs_id_lt _ _ _ _ _ Hmax Hty Hregs Hin Hi). rewrite decide_False by lia.
    rewrite (proj2 (Hs (MsgID (msg_head c)) (roleReg_spec reg))); [done|]. right.
    exists reg. by splits. }
  unfold specEvent. cbn [ev_Func ev_Ctx fst snd]. splits.
  - intros b q df Hin Hi. rewrite (Hl _ Hin Hi). unfold roleMeaning. cbn [spec_Handle roleReg_spec fst snd].
    destruct (UnmarshalVT (new_msg (msg_type q)) (msg_data c)) as [m [e|]]; [done|]. cbn. by destruct (df m r).
  - intros b q s df Hin Hi. rewrite (Hl _ Hin Hi). unfold rpcMeaning. cbn [spec_Handle roleReg_spec fst snd].
    destruct (UnmarshalVT (new_msg (msg_type q)) (msg_data c)) as [m [e|]]; [done|]. cbn [role_rpcFunc].
    destruct (df m (new_msg (msg_type s)) r) as [[m' s'] r'].
    destruct (RpcRespond_cases stale Hst publish (Reply c) s' out) as (out' & e & -> & _). done.
  - intros Hno. unfold spec_route. case_decide; [done|].
    destruct (specs !! MsgID (msg_head c)) as [s|] eqn:Es; [|done]. exfalso.
    apply Hs in Es as [Es|(reg & Hin & Hi & _)]; [by rewrite lookup_empty in Es|by eapply Hno].
  - intros reg g Hin Hi <- Hses Hact Hp. unfold game_OnServerMsg.
    rewrite decide_False by (rewrite Hses; by intros []). rewrite !decide_False by (rewrite Hact; unfold IDAccBegin; lia).
    pose proof (Router_Handle_ok stale publish max specs (g_router g) pick pick2 c (UNil, g_out g) Hok Hid) as Hr.
    rewrite (Hl _ Hin Hi) in Hr. destruct (Router_Handle _ _ _ _ _ _ _) as [[[rt1 [u o1]] e1]|]; [|done]. cbn [mbind option_bind].
    destruct Hr as [_ Hr]. destruct reg as [b q df|b q s df]; cbn [roleReg_req roleReg_spec spec_Handle] in Hp, Hr;
      destruct (UnmarshalVT (new_msg (msg_type q)) (msg_data c)) as [m e]; cbn in Hp; subst e; cbn in Hr; [by simplify_eq|].
    destruct (RpcRespond _ _ _ _ _) as [[o2 e2]|]; cbn in Hr; [by simplify_eq|done].
Qed.

(** The example: the role is a number; the handler of [S2SEcho] adds the number of flags of
    the message to it, the rpc handler answers with the flags negated. *)
Definition demoRoleH : demoMsg → Z → demoMsg * Z := λ m r, (m, r + Z.of_nat (length m.2)).
Definition demoRoleRpc : demoMsg → demoMsg → Z → demoMsg * demoMsg * Z := λ q s r, (q, (s.1, negb <$> q.2), r + 1).
Definition demoRoleRegs : list (roleReg (M := demoMsg) (R := Z)) :=
  [RegMsg true ("S2SEcho", []) demoRoleH; RegRpc true ("S2SRpcEchoRoleReq", []) ("S2SRpcEchoRoleRes", []) demoRoleRpc].
Definition demoRoleRt : Router (M := demoMsg) (A := uval Z) :=
  default (NewMsgRouter 30) (roleRegs demoRoleRegs (Some (NewMsgRouter 30))).
Definition demoRoleMsg (id : Z) : Message := mkMessage (mkHead 0 9 id 0 0 1 2 1) [1; 0; 1] "inbox".

Lemma role_handlers_get_their_role_witness :
  (handleEvent (λ _ : Z, false) zeros (λ _ _, None) None None (mkEvent (demoRoleMsg 22) None) demoRoleRt (10, [])).2 =
    Fine (13, []) false ∧
  (handleEvent (λ _ : Z, false) zeros (λ _ _, None) None None (mkEvent (demoRoleMsg 25) None) demoRoleRt (10, [])).2 =
    Fine (11, [("inbox", [0; 1; 0])]) false ∧
  game_OnServerMsg (AE := unit) (AS := unit) (λ _ n, 2 * n) zeros (λ _ _, None) None None
    (mkMessage (mkHead 0 0 22 0 0 1 2 1) [1] "inbox") (mkGame NewRegistry ∅ NewActorMgr demoRoleRt []) = None.
Proof.
  assert (Ht : Forall roleReg_typed demoRoleRegs) by (by repeat constructor).
  assert (Hr : roleRegs demoRoleRegs (Some (NewMsgRouter 30)) = Some demoRoleRt) by (vm_compute; reflexivity).
  assert (H22 : roleReg_id (RegMsg (R := Z) true ("S2SEcho", []) demoRoleH) 22) by (eexists; vm_compute; reflexivity).
  assert (H25 : roleReg_id (RegRpc (R := Z) true ("S2SRpcEchoRoleReq", []) ("S2SRpcEchoRoleRes", []) demoRoleRpc) 25)
    by (eexists; vm_compute; reflexivity).
  pose proof (λ c Hid, role_handlers_get_their_role (AE := unit) (AS := unit) (λ _ : Z, false) (λ _ n, 2 * n) zeros (λ _ _, None) 30
    demoRoleRegs demoRoleRt demoRoleRt None None c 10 [] len_zeros ltac:(lia) Ht Hr (served_start _ _ _ _) Hid) as T.
  split; [|split].
  - destruct (T (demoRoleMsg 22) ltac:(cbn; lia)) as (T1 & _). rewrite (T1 true ("S2SEcho", []) demoRoleH); [reflexivity|left|exact H22].
  - destruct (T (demoRoleMsg 25) ltac:(cbn; lia)) as (_ & T2 & _).
    specialize (T2 true ("S2SRpcEchoRoleReq", []) ("S2SRpcEchoRoleRes", []) demoRoleRpc ltac:(right; left) H25).
    vm_compute in T2 |- *. exact T2.
  - destruct (T (mkMessage (mkHead 0 0 22 0 0 1 2 1) [1] "inbox") ltac:(cbn; lia)) as (_ & _ & _ & T4).
    apply (T4 (RegMsg true ("S2SEcho", []) demoRoleH)); [left|exact H22|reflexivity..].
Defined.

(** What the center makes of a forwarded message for a role on game node [gameID]: the
    sender and the node are new, the rest is the message's. *)
Definition relayedMsg (centerID gameID : Z) (c : Message) : Message :=
  let hd := msg_head c in
  mkMessage (mkHead (ActorID hd) (SesID hd) (MsgID hd) Normal Server_Center centerID (ToSer hd) gameID)
    (msg_data c) EmptyString.

Definition onlinesAfter (reqs : list Onlines.S2SReqLoginOrLogout) : option (shards Onlines.Data) :=
  fold_left (λ s req, s ≫= Onlines.onLoginOrLogout req) reqs (Some Onlines.init).
Definition onlineTable (reqs : list Onlines.S2SReqLoginOrLogout) : gmap Z Onlines.Data :=
  fold_left Onlines.specReq reqs ∅.

Lemma onlinesAfter_ok reqs :
  Forall (λ req, 0 ≤ Onlines.rq_RoleID req) reqs →
  ∃ s, onlinesAfter reqs = Some s ∧ refines Onlines.shardCount s (onlineTable reqs).
Proof.
  intros Hf. unfold onlinesAfter, onlineTable.
  assert (Hi : ∃ s, Some Onlines.init = Some s ∧ refines Onlines.shardCount s ∅) by (eexists; split; [done|by apply mkShards_refines]).
  revert Hi. generalize (∅ : gmap Z Onlines.Data). generalize (Some Onlines.init).
  induction Hf as [|req reqs Hr _ IH]; intros o m (s & -> & Hs); cbn [fold_left].
  - by exists s.
  - apply IH. cbn. by apply Onlines.onLoginOrLogout_refines.
Qed.

(** What the game server does with a message: it goes to the role of its session, or, when
    it has none, to the role it names, and nowhere else. *)
Lemma game_role_message {M} `{VTMessage M} {R AE AS} growcap stale publish pick pick2 ops reg c
    (h : gmap Z (roleObj (Event (R := R)))) (ga : ActorMgr (AEvent (AE := AE)) AS) (rt : Router (M := M)) out :
  disciplined ∅ ops → regRun ops (Some NewRegistry) = Some reg → 0 ≤ ActorID (msg_head c) → 0 ≤ SesID (msg_head c) →
  let to p := Some (mkGame reg (alter (pushed growcap (mkEvent c None)) (m_role p) h) ga rt out) in
  let got := game_OnServerMsg growcap stale publish pick pick2 c (mkGame reg h ga rt out) in
  (∀ r p, SesID (msg_head c) ≠ 0 → specRun ops ∅ !! r = Some (SesID (msg_head c), p) → got = to p) ∧
  (SesID (msg_head c) ≠ 0 → bySes (SesID (msg_head c)) (specRun ops ∅) None → got = Some (mkGame reg h ga rt out)) ∧
  (SesID (msg_head c) = 0 → IDAccBegin < ActorID (msg_head c) →
     match specRun ops ∅ !! ActorID (msg_head c) with
     | Some (_, p) => got = to p
     | None => got = Some (mkGame reg h ga rt out)
     end).
Proof.
  intros Hd Hrun Ha Hs to got. destruct (regRun_ok ops ∅ NewRegistry Hd NewRegistry_ok empty_good) as (reg' & E & Hok & Hwf & Hinj).
  rewrite Hrun in E. simplify_eq.
  assert (Hpush : ∀ p, (dispatchTo growcap (Some p) (mkEvent c None) h).1 = alter (pushed growcap (mkEvent c None)) (m_role p) h).
  { intros p. unfold dispatchTo. rewrite <- pushTo_alter. by destruct (pushTo _ _ _ _). }
  splits.
  - intros r p Hne Hr. unfold got, game_OnServerMsg. rewrite decide_True by done. unfold DispatchBySesID.
    cbn [g_heap g_reg g_actors g_router g_out]. rewrite (getBySes_role _ _ _ _ _ Hok Hwf Hs Hr). cbn [mbind option_bind].
    specialize (Hpush p). destruct (dispatchTo _ _ _ _) as [h' e]. cbn in Hpush |- *. by subst h'.
  - intros Hne Hnone. unfold got, game_OnServerMsg. rewrite decide_True by done. unfold DispatchBySesID.
    cbn [g_heap g_reg g_actors g_router g_out]. destruct (getBySes_ok _ _ _ Hok Hwf Hs) as (x & -> & Hx). cbn [mbind option_bind].
    destruct x as [p|]; [|done]. destruct Hx as [r Ea]. by destruct (Hnone r p).
  - intros Hz Hlt. unfold got, game_OnServerMsg. rewrite decide_False by (by intros []). rewrite decide_True by lia.
    cbn [g_heap g_reg g_actors g_router g_out]. unfold Dispatch. rewrite (get_ok _ _ _ Hok Ha). cbn [mbind option_bind].
    destruct (specRun ops ∅ !! ActorID (msg_head c)) as [[ses p]|]; [|done]. cbn [fmap option_fmap option_map snd].
    specialize (Hpush p). destruct (dispatchTo _ _ _ _) as [h' e]. cbn in Hpush |- *. by subst h'.
Qed.


Definition demoReqs : list Onlines.S2SReqLoginOrLogout :=
  [Onlines.mkReq 100005 7 1 true; Onlines.mkReq 100006 8 2 true; Onlines.mkReq 100005 0 1 false;
   Onlines.mkReq 100005 9 2 true].
Definition demoRelay : Message := mkMessage (mkHead 100005 0 30 Forward 2 1 Server_Game 0) [1] "r".
(** The same with a session. *)
Definition demoRelaySes : Message := mkMessage (mkHead 100005 77 30 Forward 2 1 Server_Game 0) [1] "r".
Definition demoGameOps : list regOp := [ORegister 100005 77 (mkMeta 3)].

Lemma demoGame_disciplined : disciplined ∅ demoGameOps.
Proof.
  cbn. splits; try lia; try done.
  intros (r & s & E). by rewrite lookup_empty in E.
Qed.


(** ** A call to a game node and its answer *)

(** What becomes of a request and of its answer on the way. *)
Inductive rpcFate := Delivered | RequestLost | AnswerLost.

#[export] Instance rpcFate_eq_dec : EqDecision rpcFate.
Proof. solve_decision. Defined.

Section Call.
Context {M : Type} `{VTLaws M} {R AE AS : Type}.
Context (growcap : Z → Z → Z) (stale : Z → bytes) (Hstale : ∀ n, 0 ≤ n → len (stale n) = n).
Context (publish : string → bytes → go_error) (pick pick2 : option nat).

(** The called node: [Serve]'s callback decodes the request and hands it, with the
    caller's [inbox] as reply subject, to [OnServerMsg]. [None]: the node panics. *)
Definition serveRequest (inbox : string) (buf : bytes) (g : gameSrv (M := M) (R := R) (AE := AE) (AS := AS))
    : option (gameSrv (M := M) (R := R) (AE := AE) (AS := AS)) :=
  match DecodeManyAndHandle inbox (λ m st, g ← st; game_OnServerMsg growcap stale publish pick pick2 m g)
          buf (mkSub 0 ∅) (Some g) with
  | Some (_, _, st) => st
  | None => None
  end.

(** The first thing published on the caller's [inbox] is the answer. *)
Definition answerOn (inbox : string) (published : list (string * bytes)) : option bytes :=
  snd <$> (snd <$> list_find (λ x, x.1 = inbox) published).

Definition rpcNetwork (fate : rpcFate) (inbox : string) (node : Z * Z) (g : gameSrv (M := M) (R := R) (AE := AE) (AS := AS))
    (subj : string) (buf : bytes) (timeout : Z) : result bytes :=
  if decide (subj = rpcSubject node) then
    match fate, g' ← serveRequest inbox buf g; answerOn inbox (drop (length (g_out g)) (g_out g')) with
    | Delivered, Some data => Ok data
    | _, _ => Err (ErrMsg "nats: timeout")
    end
  else Err (ErrMsg "nats: no responders").

Definition callHead (bs : DataBus) (msgID toSer toSerID actorID : Z) : Head :=
  {| ActorID := actorID; MsgID := msgID; Flag := 0; FromSer := bus_serType bs;
     FromSerID := bus_serID bs; ToSer := u8 toSer; ToSerID := toSerID; SesID := 0 |}.

(** One frame is one message for [OnServerMsg]. *)
Lemma serveRequest_one inbox m g :
  msg_wf m → serveRequest inbox (frame m) g = game_OnServerMsg growcap stale publish pick pick2 (SetReply m inbox) g.
Proof.
  intros Hw. unfold serveRequest. set (cb := λ (m : Message) st, _). unfold DecodeManyAndHandle.
  pose proof (decode_loop_items inbox cb [] [IMsg m] TNone (mkSub 0 ∅) (Some g) (S (length (frame m)))) as D.
  cbn [tail_bytes app fmap list_fmap item_bytes mjoin list_join] in D. rewrite !app_nil_r in D.
  change (len []) with 0 in D. rewrite D; [done|by apply Forall_singleton|done|].
  pose proof (len_frame m) as Hl. unfold len, FrameLenSize, FrameBodyHeadSize in Hl. cbn [length]. lia.
Qed.

(** A handler that is registered without a role: a function of the request. *)
Definition plainRpc (f : M → M → M * M) : rpcFunc (M := M) (A := uval R) := λ _ q s u, (f q s, u).

(** The node itself is called: the handler runs at once, and its answer is published or lost. *)
Lemma game_answers max specs inbox m (g : gameSrv (M := M) (R := R) (AE := AE) (AS := AS)) t u f q :
  router_ok max specs (g_router g) → 0 ≤ MsgID (msg_head m) < max → SesID (msg_head m) = 0 → ActorID (msg_head m) = 0 →
  specs !! MsgID (msg_head m) = Some (SRpc t u (plainRpc f)) → UnmarshalVT (new_msg t) (msg_data m) = (q, None) →
  ∃ g', game_OnServerMsg growcap stale publish pick pick2 (SetReply m inbox) g = Some g' ∧
    Some (g_out g') = fst <$> RpcRespond stale publish inbox (f q (new_msg u)).2 (g_out g).
Proof.
  intros Hok Hid Hses Hact Hs Hq. unfold game_OnServerMsg. change (msg_head (SetReply m inbox)) with (msg_head m).
  rewrite decide_False by (rewrite Hses; by intros []). rewrite !decide_False by (rewrite Hact; unfold IDAccBegin; lia).
  pose proof (Router_Handle_ok stale publish max specs (g_router g) pick pick2 (SetReply m inbox) (UNil, g_out g) Hok (proj1 Hid)) as Hr.
  unfold spec_route in Hr. change (MsgID (msg_head (SetReply m inbox))) with (MsgID (msg_head m)) in Hr.
  rewrite decide_False, Hs in Hr by lia. cbn [spec_Handle] in Hr. unfold plainRpc in Hr.
  change (msg_data (SetReply m inbox)) with (msg_data m) in Hr. rewrite Hq in Hr. cbn [fst snd] in Hr.
  change (Reply (SetReply m inbox)) with inbox in Hr. destruct (f q (new_msg u)) as [q' s]. cbn [snd].
  destruct (RpcRespond_cases stale Hstale publish inbox s (g_out g)) as (out & err & E & _). rewrite E in Hr |- *. cbn in Hr.
  destruct (Router_Handle _ _ _ _ _ _ _) as [[[rt [u' o]] e]|]; [|done]. destruct Hr as [_ [= <- <- <-]]. by eexists.
Qed.

(** Publishing on the inbox of a call. *)
Lemma answerOn_app inbox (out : list (string * bytes)) enc :
  answerOn inbox (drop (length out) (out ++ [(inbox, enc)])) = Some enc.
Proof. rewrite drop_app_length. unfold answerOn. cbn. by rewrite decide_True. Qed.

(** The answer the caller sees: that of the handler, or none. *)
Lemma network_answer fate max specs inbox node m (g : gameSrv (M := M) (R := R) (AE := AE) (AS := AS)) t u f q timeout :
  msg_wf m → router_ok max specs (g_router g) → 0 ≤ MsgID (msg_head m) < max → SesID (msg_head m) = 0 → ActorID (msg_head m) = 0 →
  specs !! MsgID (msg_head m) = Some (SRpc t u (plainRpc f)) → UnmarshalVT (new_msg t) (msg_data m) = (q, None) →
  let ack := (f q (new_msg u)).2 in
  rpcNetwork fate inbox node g (rpcSubject node) (frame m) timeout = Err (ErrMsg "nats: timeout") ∧
    (fate ≠ Delivered ∨ inbox = EmptyString ∨ is_ok (MarshalToSizedBufferVT ack (stale (SizeVT ack))) = false ∨ ∃ enc, is_Some (publish inbox enc)) ∨
  fate = Delivered ∧ ∃ enc, rpcNetwork fate inbox node g (rpcSubject node) (frame m) timeout = Ok enc ∧
    UnmarshalVT (new_msg (msg_type ack)) enc = (ack, None).
Proof.
  intros Hw Hok Hid Hses Hact Hs Hq ack. unfold rpcNetwork. rewrite decide_True by done. rewrite serveRequest_one by done.
  destruct (game_answers max specs inbox m g t u f q Hok Hid Hses Hact Hs Hq) as (g' & -> & Hout). cbn [mbind option_bind].
  fold ack in Hout. destruct (decide (fate = Delivered)) as [->|Hf]; [|left; split; [by destruct fate|by left]].
  destruct (RpcRespond_cases stale Hstale publish inbox ack (g_out g)) as (out & err & E & Hc). rewrite E in Hout. cbn in Hout.
  injection Hout as Eo. rewrite Eo. destruct Hc as [[-> He]|(enc & n & Em & _ & _ & -> & _ & Hu)].
  - left. rewrite drop_ge by lia. split; [done|]. right. unfold RpcRespond in E. case_decide; [by left|right].
    destruct (MarshalToSizedBufferVT ack _) as [[enc n]|e] eqn:Em; [right|by left].
    destruct (slice enc 0 n) as [data|]; [|done]. cbn in E. destruct (publish inbox data) as [e|] eqn:Ep; [by exists data; rewrite Ep|].
    injection E as _ <-. by destruct He.
  - right. split; [done|]. exists enc. split; [|done]. by rewrite answerOn_app.
Qed.

(** A request that names a role goes to the role's queue. *)
Lemma role_request inbox m ops reg h (ga : ActorMgr (AEvent (AE := AE)) AS) (rt : Router (M := M) (A := uval R)) out :
  disciplined ∅ ops → regRun ops (Some NewRegistry) = Some reg → msg_wf m →
  SesID (msg_head m) = 0 → IDAccBegin < ActorID (msg_head m) →
  serveRequest inbox (frame m) (mkGame reg h ga rt out) =
  Some (match specRun ops ∅ !! ActorID (msg_head m) with
        | Some (_, p) => mkGame reg (alter (pushed growcap (mkEvent (SetReply m inbox) None)) (m_role p) h) ga rt out
        | None => mkGame reg h ga rt out end).
Proof.
  intros Hdis Hrun Hwf Hses Hlt. rewrite serveRequest_one by done.
  destruct (game_role_message growcap stale publish pick pick2 ops reg (SetReply m inbox) h ga rt out Hdis Hrun) as (_ & _ & Hg);
    [apply Hwf|apply Hwf|]. specialize (Hg Hses Hlt). change (msg_head (SetReply m inbox)) with (msg_head m) in Hg.
  by destruct (specRun ops ∅ !! ActorID (msg_head m)) as [[ses p]|].
Qed.

(** [RpcCall] fails to marshal, or asks the network with one frame and parses what it says. *)
Lemma RpcCall_cases (net : string → bytes → Z → result bytes) bs (req : M) msgID toSer toSerID actorID timeOut calls u :
  GetMsgIDS2S req = Some msgID → bus_closed bs = false →
  head_wf (callHead bs msgID toSer toSerID actorID) → FrameBodyHeadSize + SizeVT req < 2 ^ 32 →
  is_i32 toSer → Forall (λ p, is_i32 p.1 ∧ is_u8 p.2) calls →
  let call := (λ x, (x.1.1, x.2)) <$> RpcCall stale true net bs req (new_msg u) toSer toSerID actorID timeOut (rpcHistory calls) in
  (∃ e buf, call = Some (new_msg u, Some e) ∧ len buf = SizeVT req ∧ MarshalToSizedBufferVT req buf = Err e) ∨
  ∃ enc, let m := mkMessage (callHead bs msgID toSer toSerID actorID) enc EmptyString in
    msg_wf m ∧ UnmarshalVT (new_msg (msg_type req)) enc = (req, None) ∧
    ∃ t, call = match net (rpcSubject (toSer, toSerID)) (frame m) t with
                | Err e => Some (new_msg u, Some e) | Ok data => Some (UnmarshalVT (new_msg u) data) end.
Proof.
  intros Hid Hcl Hw Hsz H32 Hc call. assert (Hi8 : is_u8 toSerID) by apply Hw.
  destruct (rpcNodeSubjectName_ok _ (toSer, toSerID) H32 Hi8 (rpcHistory_ok calls Hc)) as [En _]. cbn [fst snd] in En.
  unfold call, RpcCall. rewrite Hcl, Hid. cbn [negb].
  destruct (rpcFrame_cases stale Hstale bs req msgID toSer toSerID actorID) as [(e & -> & buf & Hl & Em)|(enc & -> & Hu & Hl & _)];
    cbn [mbind option_bind]; [left; by exists e, buf|right]. exists enc. set (m := mkMessage _ enc _). splits; [|done|].
  - split; [done|]. cbn [msg_data m]. lia.
  - destruct (rpcNodeSubjectName toSer toSerID (rpcHistory calls)) as [s c]. cbn [fst] in En. subst s.
    exists (if decide (timeOut ≤ 0) then rpcDefaultTimeout else timeOut).
    destruct (net _ (frame m) _) as [data|e]; [|done]. by destruct (UnmarshalVT (new_msg u) data).
Qed.

End Call.


Definition demoRpcReg : regReq (M := demoMsg) (A := uval Z) :=
  Router.mkReg 23 true (SRpc "S2SRpcEchoReq" "S2SRpcEchoRes" (plainRpc (λ q s, (q, (s.1, negb <$> q.2))))).
Definition demoRpcGame : gameSrv (M := demoMsg) (R := Z) (AE := unit) (AS := unit) :=
  mkGame NewRegistry ∅ NewActorMgr (regAll false [demoRpcReg] (NewMsgRouter 30, [])).1 [("other", [7])].


(** Where a game server puts a message: a message with a session goes to the queue of
    the session's role, one without a session to a role or an actor by the range of its
    actor id, and only a message with neither is handled at once; in the first three cases
    neither the router nor anything published changes, and nothing can panic. *)
Theorem game_message_routing {M} `{VTMessage M} {R AE AS} growcap stale publish pick pick2 ops reg c
    (g : gameSrv (M := M) (R := R) (AE := AE) (AS := AS)) :
  disciplined ∅ ops → regRun ops (Some NewRegistry) = Some reg → g_reg g = reg →
  head_wf (msg_head c) → SesID (msg_head c) ≠ 0 ∨ ActorID (msg_head c) ≠ 0 →
  ∃ g', game_OnServerMsg growcap stale publish pick pick2 c g = Some g' ∧
    g_router g' = g_router g ∧ g_out g' = g_out g ∧ g_reg g' = g_reg g ∧
    (SesID (msg_head c) ≠ 0 →
       g_actors g' = g_actors g ∧
       Some (g_heap g') = fst <$> DispatchBySesID growcap (SesID (msg_head c)) (mkEvent c None) reg (g_heap g)) ∧
    (SesID (msg_head c) = 0 → IDAccBegin < ActorID (msg_head c) →
       g_actors g' = g_actors g ∧
       Some (g_heap g') = fst <$> Dispatch growcap (ActorID (msg_head c)) (mkEvent c None) reg (g_heap g)) ∧
    (SesID (msg_head c) = 0 → ActorID (msg_head c) ≤ IDAccBegin →
       g_heap g' = g_heap g ∧
       g_actors g' = (am_Dispatch growcap (ActorID (msg_head c)) (mkAEvent c None) (g_actors g)).1).
Proof.
  intros Hd Hrun <- Hw Hne. destruct (regRun_ok ops ∅ NewRegistry Hd NewRegistry_ok empty_good) as (reg' & E & Hok & Hwf & _).
  rewrite Hrun in E. simplify_eq. destruct Hw as (Ha & Hs & _). unfold game_OnServerMsg.
  destruct (decide (SesID (msg_head c) ≠ 0)) as [H1|H1].
  - destruct (getBySes_ok _ _ (SesID (msg_head c)) Hok Hwf (proj1 Hs)) as (x & Ex & _). unfold DispatchBySesID. rewrite Ex.
    cbn [mbind option_bind]. destruct (dispatchTo _ _ _ _) as [h err]. eexists. split; [done|]. splits; done.
  - destruct (decide (ActorID (msg_head c) > IDAccBegin)) as [H2|H2].
    + unfold Dispatch. rewrite (get_ok _ _ _ Hok (proj1 Ha)). cbn [mbind option_bind].
      destruct (dispatchTo _ _ _ _) as [h err]. eexists. split; [done|]. splits; intros; try done; lia.
    + rewrite decide_True by (unfold is_u64 in *; lia). destruct (am_Dispatch _ _ _ _) as [a err].
      eexists. split; [done|]. splits; intros; try done; lia.
Qed.

Lemma game_message_routing_witness :
  ∃ m g', regRun demoOps (Some NewRegistry) = Some m ∧
    game_OnServerMsg (λ _ n, 2 * n) zeros (λ _ _, None) None None (mkMessage (mkHead 0 101 4 0 0 1 2 1) [1] EmptyString)
      (mkGame (M := demoMsg) (R := Z) m ∅ (NewActorMgr (E := AEvent (AE := unit)) (S := unit)) (NewMsgRouter 9) []) = Some g' ∧
    g_router g' = NewMsgRouter 9.
Proof.
  destruct (regRun_ok demoOps ∅ NewRegistry demoOps_disciplined NewRegistry_ok empty_good) as (m & E & _).
  destruct (game_message_routing (λ _ n, 2 * n) zeros (λ _ _, None) None None demoOps m
    (mkMessage (mkHead 0 101 4 0 0 1 2 1) [1] EmptyString)
    (mkGame (M := demoMsg) (R := Z) m ∅ (NewActorMgr (E := AEvent (AE := unit)) (S := unit)) (NewMsgRouter 9) []))
    as (g' & Eg & Er & _).
  - exact demoOps_disciplined.
  - exact E.
  - reflexivity.
  - dec.
  - left. discriminate.
  - exists m, g'. splits; [exact E|exact Eg|exact Er].
Defined.
