(* ===== verification/Offline.v ===== *)
(** * internal/share/offline_evt: events for players who are offline

    While a player is offline, events and messages for it are kept in a Redis list of at
    most ten entries; when it comes online they are handled and removed. The Redis list
    commands are a class with their documented behaviour, a concrete store at the end has
    it. Expiry after thirty days is left out. *)

From S2P Require Import Prelude DataBus EventLoop Redis.

(** ** Redis lists *)

(** [LRANGE key start stop] on a list: negative indices count from the end, indices
    out of range are cut off. *)
Definition lindex (n i : Z) : Z := if decide (i < 0) then Z.max 0 (n + i) else i.
Definition lstop (n i : Z) : Z := if decide (i < 0) then n + i else i.
Definition lrange {A} (start stop : Z) (l : list A) : list A :=
  let a := lindex (len l) start in
  let b := Z.min (len l - 1) (lstop (len l) stop) in
  take (Z.to_nat (b - a + 1)) (drop (Z.to_nat a) l).

Class ListOps (R : Type) := {
  RPUSH : string → string → R → R;
  LTRIM : string → Z → Z → R → R;
  LRANGE : string → Z → Z → R → list string }.

(** The list at a key is [LRANGE key 0 -1]. *)
Definition LIST `{ListOps R} (k : string) (r : R) : list string := LRANGE k 0 (-1) r.

Class ListLaws (R : Type) `{ListOps R} := {
  lrange_list r k a b : LRANGE k a b r = lrange a b (LIST k r);
  list_rpush r k v : LIST k (RPUSH k v r) = LIST k r ++ [v];
  list_rpush_ne r k k' v : k ≠ k' → LIST k' (RPUSH k v r) = LIST k' r;
  list_ltrim r k a b : LIST k (LTRIM k a b r) = lrange a b (LIST k r);
  list_ltrim_ne r k k' a b : k ≠ k' → LIST k' (LTRIM k a b r) = LIST k' r }.

Lemma lrange_first {A} n (l : list A) : 0 < n → lrange 0 (n - 1) l = take (Z.to_nat n) l.
Proof.
  intros Hn. unfold lrange, lindex, lstop. rewrite !decide_False by lia. rewrite drop_0.
  destruct (decide (len l ≤ n)).
  - rewrite !take_ge; [done|unfold len in *; lia..].
  - f_equal. lens.
Qed.

Lemma lrange_last {A} n (l : list A) : 0 < n → lrange (- n) (-1) l = drop (length l - Z.to_nat n) l.
Proof.
  intros Hn. unfold lrange, lindex, lstop. rewrite !decide_True by lia.
  replace (Z.to_nat (Z.max 0 (len l + - n))) with (length l - Z.to_nat n)%nat by (unfold len; lia).
  rewrite take_ge; [done|]. rewrite length_drop. unfold len. lia.
Qed.

Lemma lrange_from {A} n (l : list A) : 0 ≤ n → lrange n (-1) l = drop (Z.to_nat n) l.
Proof.
  intros Hn. unfold lrange, lindex, lstop. destruct (decide (n < 0)); [lia|]. destruct (decide (-1 < 0)); [|lia].
  apply take_ge. rewrite length_drop. unfold len. lia.
Qed.

(** ** Messages *)

(** Protobuf messages: [proto.Marshal], [proto.Unmarshal], [proto.MessageName] and the
    registry of types. *)
Class ProtoMsg (M : Type) := {
  MessageName : M → string;
  Marshal : M → result string;
  Unmarshal : string → M → result M;
  NewByName : string → option M }.

(** A message that is encoded parses into a new message of its own type, which the
    registry finds under its name. *)
Class ProtoLaws (M : Type) `{ProtoMsg M} := {
  new_by_name m : is_Some (NewByName (MessageName m));
  marshal_unmarshal m s m0 : Marshal m = Ok s → NewByName (MessageName m) = Some m0 → Unmarshal s m0 = Ok m;
  marshal_empty m m0 : Marshal m = Ok EmptyString → NewByName (MessageName m) = Some m0 → m = m0 }.

Record EvtOffline := mkEvt { ev_MsgName : string; ev_Data : string; ev_RoleID : Z }.
#[export] Instance EvtOffline_eq_dec : EqDecision EvtOffline.
Proof. solve_decision. Defined.

Section Offline.
Context {R : Type} `{ListOps R} {M : Type} `{ProtoMsg M} {U : Type}.
(** The encoding of [pb.EvtOffline]. *)
Context (evtMarshal : EvtOffline → result string) (evtUnmarshal : string → result EvtOffline).
Context (SrvType : Z).

Definition MaxEvents : Z := 10.

Definition offlineDataKey (roleId : Z) : string :=
  "role:" +:+ Itoa roleId +:+ ":" +:+ Itoa SrvType +:+ ":offline_evt".
Definition offlineMsgKey (roleId : Z) : string :=
  "role:" +:+ Itoa roleId +:+ ":" +:+ Itoa SrvType +:+ ":offline_msg".

(** [pipe.RPush; pipe.LTrim; pipe.Exec]; [applied] commands of the pipeline reached the
    server, all of them unless [Exec] failed. *)
Definition pushTrim (applied : nat) (key v : string) (r : R) : R :=
  fold_left (λ r f, f r) (take applied [RPUSH key v; LTRIM key (- MaxEvents) (-1)]) r.

Definition offline_Add (applied : nat) (roleId : Z) (msg : M) (r : R) : R :=
  match Marshal msg with
  | Err _ => r
  | Ok b =>
      match evtMarshal (mkEvt (MessageName msg) b roleId) with
      | Err _ => r
      | Ok dataB => pushTrim applied (offlineDataKey roleId) dataB r
      end
  end.

(** [offlineHandle]: what a handler makes of the user, a panic being caught by
    [RunSafe]. *)
Abbreviation handlers := (gmap string (M → U → outcome U)).

Definition RegisterHandler (name : string) (fn : option (M → U → outcome U)) (h : handlers) : handlers :=
  match fn with
  | None => h
  | Some fn => <[name := λ m u, if decide (MessageName m = name) then fn m u else Fine u false]> h
  end.

(** One entry of the list. *)
Definition handleOne (h : handlers) (u : U) (v : string) : U :=
  match evtUnmarshal v with
  | Err _ => u
  | Ok op =>
      match NewByName (ev_MsgName op) with
      | None => u
      | Some msg =>
          let parsed := if decide (ev_Data op = EmptyString) then Ok msg else Unmarshal (ev_Data op) msg in
          match parsed with
          | Err _ => u
          | Ok msg => match h !! ev_MsgName op with None => u | Some f => out_role (f msg u) end
          end
      end
  end.

(** [Do] in its three steps: what it read, the user after handling it, and the trim, whose
    error is not looked at; [trimmed]: it ran. *)
Definition doRead (roleId : Z) (r : R) : list string := LRANGE (offlineDataKey roleId) 0 (MaxEvents - 1) r.
Definition doHandle (h : handlers) (ss : list string) (u : U) : U := fold_left (handleOne h) ss u.
Definition doTrim (trimmed : bool) (roleId : Z) (ss : list string) (r : R) : R :=
  match ss with
  | [] => r
  | _ => if trimmed then LTRIM (offlineDataKey roleId) (len ss) (-1) r else r
  end.

(** [failed]: [LRange] returned an error. *)
Definition offline_Do (failed trimmed : bool) (h : handlers) (roleId : Z) (r : R) (u : U) : R * U :=
  if failed then (r, u)
  else let ss := doRead roleId r in (doTrim trimmed roleId ss r, doHandle h ss u).

(** *** Offline messages *)

(** [pb.NatsMsg] and its encoding; [route] is the router's handling of a message id and
    payload for this role. *)
Record NatsMsg := mkNats { nm_RoleID : Z; nm_MsgID : Z; nm_Data : bytes }.
Context (natsMarshal : NatsMsg → result string) (natsUnmarshal : string → result NatsMsg).
Context (route : Z → bytes → U → U).

Definition AddMsg (applied : nat) (msg : NatsMsg) (r : R) : R :=
  match natsMarshal msg with
  | Err _ => r
  | Ok dataB => pushTrim applied (offlineMsgKey (nm_RoleID msg)) dataB r
  end.

Definition HandleMsg (failed trimmed : bool) (roleId : Z) (r : R) (u : U) : R * U :=
  if failed then (r, u)
  else
    let ss := LRANGE (offlineDataKey roleId) 0 (MaxEvents - 1) r in
    (doTrim trimmed roleId ss r,
     fold_left (λ u v, match natsUnmarshal v with
                       | Err _ => u
                       | Ok msg => route (nm_MsgID msg) (nm_Data msg) u
                       end) ss u).

(** ** Keys *)

(** The separator of the keys. *)
Definition colon : Ascii.ascii := Ascii.ascii_of_nat 58.

Lemma prefix_inj p a b : p +:+ a = p +:+ b → a = b.
Proof. induction p as [|x p IH]; [done|]. intros E. injection E as E. by apply IH. Qed.

Lemma evtKey_inj i j : is_u64 i → is_u64 j → offlineDataKey i = offlineDataKey j → i = j.
Proof.
  intros Hi Hj E. apply prefix_inj in E. apply (Itoa_end colon) in E as [-> _]; done.
Qed.

Lemma evtKey_msgKey i j : is_u64 i → is_u64 j → offlineDataKey i ≠ offlineMsgKey j.
Proof.
  intros Hi Hj E. apply prefix_inj in E. apply (Itoa_end colon) in E as [_ E]; [|done..].
  apply prefix_inj in E. discriminate.
Qed.

(** ** One role's list *)

Section Lists.
Context `{!ListLaws R}.

(** What a pipeline leaves that [applied] commands of reached the server. *)
Definition kept {A} (l : list A) (applied : nat) (x : A) : list A :=
  match applied with
  | 0%nat => l
  | 1%nat => l ++ [x]
  | _ => drop (length l + 1 - 10) (l ++ [x])
  end.

Lemma list_pushTrim_kept applied key v r : LIST key (pushTrim applied key v r) = kept (LIST key r) applied v.
Proof.
  unfold pushTrim, kept. destruct applied as [|[|n]]; cbn [take fold_left]; [done|by rewrite list_rpush|].
  rewrite take_nil. cbn [fold_left]. rewrite list_ltrim, list_rpush. unfold MaxEvents.
  rewrite lrange_last by lia. f_equal. rewrite length_app. cbn. lia.
Qed.

Lemma list_pushTrim key v r : LIST key (pushTrim 2 key v r) = drop (length (LIST key r) + 1 - 10) (LIST key r ++ [v]).
Proof.
  apply (list_pushTrim_kept 2).
Qed.

Lemma list_pushTrim_ne applied key key' v r : key ≠ key' → LIST key' (pushTrim applied key v r) = LIST key' r.
Proof.
  intros Hn. unfold pushTrim. destruct applied as [|[|n]]; cbn [take fold_left]; [done|by rewrite list_rpush_ne|].
  rewrite take_nil. cbn [fold_left]. by rewrite list_ltrim_ne, list_rpush_ne.
Qed.

Lemma doRead_list i r : doRead i r = take 10 (LIST (offlineDataKey i) r).
Proof. unfold doRead. rewrite lrange_list. unfold MaxEvents. by rewrite lrange_first. Qed.

Lemma doTrim_list i ss r : LIST (offlineDataKey i) (doTrim true i ss r) = drop (length ss) (LIST (offlineDataKey i) r).
Proof.
  unfold doTrim. destruct ss as [|s ss]; [by rewrite drop_0|]. rewrite list_ltrim, lrange_from by lens.
  f_equal. unfold len. lia.
Qed.

Lemma doTrim_ne b i key ss r : offlineDataKey i ≠ key → LIST key (doTrim b i ss r) = LIST key r.
Proof. intros Hn. unfold doTrim. destruct ss; [done|]. destruct b; [|done]. by rewrite list_ltrim_ne. Qed.

(** The last ten of a list. *)
Definition last10 {A} (l : list A) : list A := drop (length l - 10) l.

Lemma last10_snoc {A} (l : list A) x : drop (length (last10 l) + 1 - 10) (last10 l ++ [x]) = last10 (l ++ [x]).
Proof.
  unfold last10. rewrite length_drop, length_app. cbn [length].
  rewrite <- (drop_app_le l [x] (length l - 10)) by lia. rewrite drop_drop. f_equal. lia.
Qed.

Lemma length_last10 {A} (l : list A) : (length (last10 l) ≤ 10)%nat.
Proof. unfold last10. rewrite length_drop. lia. Qed.

(** A sequence of successful pushes keeps the last ten. *)
Lemma pushes_list key vs r l :
  LIST key r = last10 l → LIST key (fold_left (λ r v, pushTrim 2 key v r) vs r) = last10 (l ++ vs).
Proof.
  revert r l. induction vs as [|v vs IH]; intros r l E; cbn [fold_left]; [by rewrite app_nil_r|].
  rewrite (IH _ (l ++ [v])); [by rewrite <- app_assoc|]. by rewrite list_pushTrim, E, last10_snoc.
Qed.

End Lists.
End Offline.

(** ** A store and messages with the laws *)

Abbreviation lstore := (gmap string (list string)).
#[export] Instance lstore_ops : ListOps lstore := {|
  RPUSH k v r := <[k := default [] (r !! k) ++ [v]]> r;
  LTRIM k a b r := <[k := lrange a b (default [] (r !! k))]> r;
  LRANGE k a b r := lrange a b (default [] (r !! k)) |}.

Lemma lstore_list k (r : lstore) : LIST k r = default [] (r !! k).
Proof. unfold LIST. cbn. by rewrite lrange_from, drop_0. Qed.

#[export] Instance lstore_laws : ListLaws lstore.
Proof.
  split; intros.
  - by rewrite lstore_list.
  - rewrite !lstore_list. cbn. by rewrite lookup_insert_eq.
  - rewrite !lstore_list. cbn. by rewrite lookup_insert_ne.
  - rewrite !lstore_list. cbn. by rewrite lookup_insert_eq.
  - rewrite !lstore_list. cbn. by rewrite lookup_insert_ne.
Qed.

(** A message is its name and its encoding. *)
Definition namedMsg := (string * string)%type.
#[export] Instance namedMsg_proto : ProtoMsg namedMsg := {|
  MessageName m := m.1;
  Marshal m := Ok m.2;
  Unmarshal s m := Ok (m.1, s);
  NewByName n := Some (n, EmptyString) |}.
#[export] Instance namedMsg_laws : ProtoLaws namedMsg.
Proof.
  split; cbn.
  - by eexists.
  - by intros [n s] s' m0 [= <-] [= <-].
  - by intros [n s] m0 [= ->] [= <-].
Qed.

(** ** Properties *)

Section Props.
Context {R : Type} `{ListLaws R} {M : Type} `{ProtoLaws M} {U : Type}.
Context (evtMarshal : EvtOffline → result string) (evtUnmarshal : string → result EvtOffline).
Context (Hevt : ∀ e s, evtMarshal e = Ok s → evtUnmarshal s = Ok e).

Definition encodable (i : Z) (m : M) : Prop :=
  ∃ b s, Marshal m = Ok b ∧ evtMarshal (mkEvt (MessageName m) b i) = Ok s.

(** What the entry of a message does to the user. *)
Definition handleMessage (h : gmap string (M → U → outcome U)) (u : U) (m : M) : U :=
  match h !! MessageName m with None => u | Some f => out_role (f m u) end.

(** The entry of a message. *)
Definition entryOf (i : Z) (m : M) : string :=
  match Marshal m with
  | Ok b => match evtMarshal (mkEvt (MessageName m) b i) with Ok s => s | Err _ => EmptyString end
  | Err _ => EmptyString
  end.

Lemma handleOne_entry h u i m : encodable i m → handleOne evtUnmarshal h u (entryOf i m) = handleMessage h u m.
Proof.
  intros (b & s & Eb & Es). unfold entryOf. rewrite Eb, Es. unfold handleOne. rewrite (Hevt _ _ Es). cbn [ev_MsgName ev_Data].
  destruct (new_by_name m) as [m0 E0]. rewrite E0. unfold handleMessage. case_decide as Hd.
  - subst b. by rewrite <- (marshal_empty m m0).
  - by rewrite (marshal_unmarshal m b m0).
Qed.

Lemma Add_entry applied st i m r :
  encodable i m → offline_Add evtMarshal st applied i m r = pushTrim applied (offlineDataKey st i) (entryOf i m) r.
Proof. intros (b & s & Eb & Es). unfold offline_Add, entryOf. by rewrite Eb, Es. Qed.

(** The messages whose entries are in the list after [adds], each with the commands of its
    pipeline that reached the server. *)
Definition keptAll (adds : list (M * nat)) (l : list M) : list M := fold_left (λ l x, kept l x.2 x.1) adds l.

Lemma kept_fmap {A B} (f : A → B) l n x : kept (f <$> l) n (f x) = f <$> kept l n x.
Proof.
  unfold kept. destruct n as [|[|n]]; [done|by rewrite fmap_app|]. by rewrite length_fmap, fmap_drop, fmap_app.
Qed.

Lemma Adds_list st i (adds : list (M * nat)) r l :
  Forall (λ x, encodable i x.1) adds → LIST (offlineDataKey st i) r = entryOf i <$> l →
  LIST (offlineDataKey st i) (fold_left (λ r x, offline_Add evtMarshal st x.2 i x.1 r) adds r) = entryOf i <$> keptAll adds l.
Proof.
  intros Hms. revert r l. induction Hms as [|[m n] ms Hm _ IH]; intros r l El; [done|]. unfold keptAll. cbn [fold_left fst snd] in *.
  apply IH. by rewrite Add_entry, list_pushTrim_kept, El, kept_fmap.
Qed.

(** When every pipeline runs the last ten are kept. *)
Lemma keptAll_ran (adds : list (M * nat)) l :
  Forall (λ x, (2 ≤ x.2)%nat) adds → keptAll adds (last10 l) = last10 (l ++ adds.*1).
Proof.
  intros Ha. revert l. induction Ha as [|[m n] adds Hn _ IH]; intros l; [by rewrite app_nil_r|].
  unfold keptAll. cbn [fold_left fmap list_fmap fst snd] in *.
  replace (kept (last10 l) n m) with (last10 (l ++ [m])).
  - fold (keptAll adds (last10 (l ++ [m]))). rewrite IH. by rewrite <- app_assoc.
  - destruct n as [|[|n]]; [lia|lia|]. unfold kept. by rewrite last10_snoc.
Qed.

Lemma last10_fmap {A B} (f : A → B) l : last10 (f <$> l) = f <$> last10 l.
Proof. unfold last10. by rewrite length_fmap, fmap_drop. Qed.

End Props.

(** C33. Offline events are handled in order when the player comes online, and once if the
    list can be trimmed. Let any number of events be added for a role with an empty list,
    each pipeline reaching Redis in full, in part or not at all; the list then holds the
    events whose push arrived, cut to the last ten by every trim that did: the last ten of
    all when every pipeline ran. If [Do] can read the list, it hands the first ten of these,
    in the order of their addition and decoded to the very messages that were added, to
    their handlers, events without a handler being skipped, and if its own trim runs it
    leaves only what comes after them. If that trim fails, which [Do] does not notice, the
    list stays and the next [Do] handles the same events again. If the read fails nothing
    happens. The lists of all other keys are not touched. *)
Theorem offline_events_roundtrip {R} `{ListLaws R} {M} `{ProtoLaws M} {U} evtMarshal evtUnmarshal st failed trimmed
    (h : gmap string (M → U → outcome U)) (i : Z) (adds : list (M * nat)) (r : R) (u : U) :
  (∀ e s, evtMarshal e = Ok s → evtUnmarshal s = Ok e) → Forall (λ x, encodable evtMarshal i x.1) adds →
  LIST (offlineDataKey st i) r = [] →
  let r1 := fold_left (λ r x, offline_Add evtMarshal st x.2 i x.1 r) adds r in
  let evs := keptAll adds [] in
  let '(r2, u2) := offline_Do evtUnmarshal st failed trimmed h i r1 u in
  (Forall (λ x, (2 ≤ x.2)%nat) adds → evs = last10 adds.*1) ∧
  (failed = true → r2 = r1 ∧ u2 = u) ∧
  (failed = false →
     u2 = fold_left (handleMessage h) (take 10 evs) u ∧
     (trimmed = true → LIST (offlineDataKey st i) r2 = entryOf evtMarshal i <$> drop 10 evs) ∧
     (trimmed = false → ∀ trimmed' u', (offline_Do evtUnmarshal st false trimmed' h i r2 u').2 = fold_left (handleMessage h) (take 10 evs) u')) ∧
  ∀ k, k ≠ offlineDataKey st i → LIST k r2 = LIST k r.
Proof.
  intros Hevt Hms El r1 evs.
  assert (E1 : LIST (offlineDataKey st i) r1 = entryOf evtMarshal i <$> evs) by (by apply Adds_list).
  assert (Er : doRead st i r1 = entryOf evtMarshal i <$> take 10 evs) by (by rewrite (doRead_list st), E1, fmap_take).
  assert (Henc : Forall (encodable evtMarshal i) evs).
  { unfold evs, keptAll. assert (Hl : Forall (encodable evtMarshal i) []) by constructor. revert Hl.
    generalize (@nil M). clear -Hms. induction Hms as [|[m n] adds Hm _ IH]; intros l Hl; [done|]. cbn [fold_left fst snd] in *.
    apply IH. unfold kept. destruct n as [|[|n]]; [done|..]; [|apply Forall_drop]; by apply Forall_app; split; [|constructor]. }
  assert (Hh : ∀ u, doHandle evtUnmarshal h (entryOf evtMarshal i <$> take 10 evs) u = fold_left (handleMessage h) (take 10 evs) u).
  { unfold doHandle. assert (Hl : Forall (encodable evtMarshal i) (take 10 evs)) by (by apply Forall_take).
    clear - Hl Hevt H2. induction Hl as [|m l Hm _ IH]; intros u; [done|]. cbn [fmap list_fmap fold_left].
    by rewrite handleOne_entry. }
  assert (Hk1 : ∀ k, k ≠ offlineDataKey st i → LIST k r1 = LIST k r).
  { intros k Hk. unfold r1. clear - Hk H0. revert r. induction adds as [|[m n] adds IH]; intros r; [done|].
    cbn [fold_left fst snd]. rewrite IH. unfold offline_Add. destruct (Marshal m); [|done].
    destruct (evtMarshal _); [|done]. by rewrite (list_pushTrim_ne (R := R)). }
  unfold offline_Do. destruct failed; splits; try done; try (apply (keptAll_ran adds [])).
  - intros _. rewrite Er, Hh. splits; [done|intros ->; rewrite (doTrim_list st), E1, length_fmap, fmap_drop, length_take|intros -> ? u'].
    + destruct (decide (length evs ≤ 10)%nat); [by rewrite !drop_ge by (rewrite ?length_fmap; lia)|]. f_equal. lia.
    + replace (doTrim st false i _ r1) with r1 by (unfold doTrim; by case_match). cbn [snd]. by rewrite Er, Hh.
  - intros k Hk. rewrite (doTrim_ne st) by done. by apply Hk1.
Qed.

(** The encoding of an event for the examples: fields that contain no separator. *)
Definition demoEnc (e : EvtOffline) : result string :=
  if decide (e = mkEvt "Gift" "1" 5000) then Ok "g1"
  else if decide (e = mkEvt "Gift" "2" 5000) then Ok "g2"
  else if decide (e = mkEvt "Mail" "x" 5000) then Ok "m" else Err (ErrMsg "enc").
Definition demoDec (s : string) : result EvtOffline :=
  if decide (s = "g1") then Ok (mkEvt "Gift" "1" 5000)
  else if decide (s = "g2") then Ok (mkEvt "Gift" "2" 5000)
  else if decide (s = "m") then Ok (mkEvt "Mail" "x" 5000) else Err (ErrMsg "dec").

Lemma demoEnc_dec e s : demoEnc e = Ok s → demoDec s = Ok e.
Proof. unfold demoEnc. repeat (case_decide; [intros [= <-]; subst; reflexivity|]). done. Qed.

(** Gifts are collected by the user. *)
Definition demoHandlers : gmap string (namedMsg → list string → outcome (list string)) :=
  RegisterHandler "Gift" (Some (λ m u, Fine (u ++ [m.2]) false)) ∅.
Definition demoAdded : list (namedMsg * nat) := [(("Gift", "1"), 3%nat); (("Mail", "x"), 1%nat); (("Gift", "2"), 2%nat)].

Lemma demoAdded_encodable : Forall (λ x, encodable demoEnc 5000 x.1) demoAdded.
Proof.
  unfold demoAdded. rewrite !Forall_cons. splits; [..|by apply Forall_nil];
    (eexists _, _; split; [reflexivity|vm_compute; reflexivity]).
Qed.

Lemma offline_events_roundtrip_witness :
  let r1 := fold_left (λ r x, offline_Add demoEnc 2 x.2 5000 x.1 r) demoAdded (∅ : lstore) in
  (offline_Do demoDec 2 false true demoHandlers 5000 r1 []).2 = ["1"; "2"] ∧
  (let '(r2, u2) := offline_Do demoDec 2 false false demoHandlers 5000 r1 [] in
   (offline_Do demoDec 2 false true demoHandlers 5000 r2 u2).2 = ["1"; "2"; "1"; "2"]).
Proof.
  pose proof (λ b, offline_events_roundtrip demoEnc demoDec 2 false b demoHandlers 5000 demoAdded (∅ : lstore) []
    demoEnc_dec demoAdded_encodable eq_refl) as T. cbv zeta in T |- *. split.
  - specialize (T true). destruct (offline_Do _ _ _ _ _ _ _ _) as [r2 u2]. destruct T as (_ & _ & T & _).
    destruct (T eq_refl) as [-> _]. reflexivity.
  - specialize (T false). destruct (offline_Do _ _ false false _ _ _ _) as [r2 u2]. destruct T as (_ & _ & T & _).
    destruct (T eq_refl) as (-> & _ & T2). rewrite (T2 eq_refl). reflexivity.
Defined.

(** Events added while [Do] runs survive only as far as they fit beside the ones being
    handled: when [Do] has read the [k] entries of the list and [a] events are added before
    it removes them, the first [k + a - 10] of the added events are deleted without ever
    having been handled, and exactly the others remain. *)
Theorem offline_do_race {R} `{ListLaws R} st (i : Z) (l vs : list string) (r : R) :
  LIST (offlineDataKey st i) r = l → (length l ≤ 10)%nat →
  let ss := doRead st i r in
  let r1 := fold_left (λ r v, pushTrim 2 (offlineDataKey st i) v r) vs r in
  ss = l ∧ LIST (offlineDataKey st i) (doTrim st true i ss r1) = drop (length l + length vs - 10) vs.
Proof.
  intros El Hl ss r1. assert (Es : ss = l) by (unfold ss; rewrite (doRead_list st), El; by apply take_ge).
  split; [done|]. rewrite (doTrim_list st), Es. unfold r1. rewrite (pushes_list _ vs r l).
  - unfold last10. rewrite drop_drop, length_app.
    replace (length l + length vs - 10 + length l)%nat with (length l + (length l + length vs - 10))%nat by lia.
    rewrite <- drop_drop, drop_app_length. done.
  - rewrite El. unfold last10. by replace (length l - 10)%nat with 0%nat by lia.
Qed.

Lemma offline_do_race_witness :
  let r : lstore := {[ offlineDataKey 2 7 := replicate 10 "old" ]} in
  LIST (offlineDataKey 2 7) (doTrim 2 true 7 (doRead 2 7 r) (pushTrim 2 (offlineDataKey 2 7) "new" r)) = [].
Proof.
  apply (offline_do_race 2 7 (replicate 10 "old") ["new"] ({[ offlineDataKey 2 7 := replicate 10 "old" ]} : lstore)).
  - rewrite lstore_list. by rewrite lookup_singleton_eq.
  - cbn. lia.
Defined.

(** Offline messages are never handled: they are stored under one key and looked for
    under another. Whatever messages are added for a role, [HandleMsg] gives the same
    result as without them and leaves them in their list; it works on, and removes, the
    role's offline events instead. *)
Theorem offline_messages_never_handled {R} `{ListLaws R} {U} st natsMarshal natsUnmarshal (route : Z → bytes → U → U)
    (i : Z) (ms : list NatsMsg) (r : R) (u : U) :
  is_u64 i → Forall (λ m, nm_RoleID m = i) ms →
  let r1 := fold_left (λ r m, AddMsg st natsMarshal 2 m r) ms r in
  let '(r2, u2) := HandleMsg st natsUnmarshal route false true i r1 u in
  u2 = (HandleMsg st natsUnmarshal route false true i r u).2 ∧
  LIST (offlineMsgKey st i) r2 = LIST (offlineMsgKey st i) r1 ∧
  LIST (offlineDataKey st i) r2 = drop 10 (LIST (offlineDataKey st i) r).
Proof.
  intros Hi Hms r1.
  assert (E1 : LIST (offlineDataKey st i) r1 = LIST (offlineDataKey st i) r).
  { unfold r1. clear - Hi Hms H0. revert r. induction Hms as [|m ms Hm _ IH]; intros r; [done|]. cbn [fold_left].
    rewrite IH. unfold AddMsg. destruct (natsMarshal m); [|done]. rewrite (list_pushTrim_ne (R := R)); [done|].
    rewrite Hm. symmetry. by apply evtKey_msgKey. }
  unfold HandleMsg. rewrite !lrange_list, E1. unfold MaxEvents. rewrite lrange_first by lia. splits.
  - done.
  - apply (doTrim_ne st). by apply evtKey_msgKey.
  - rewrite (doTrim_list st), E1, length_take. destruct (decide (length (LIST (offlineDataKey st i) r) ≤ 10)%nat).
    + rewrite !drop_ge; [done|lia|]. change (Z.to_nat 10) with 10%nat. lia.
    + f_equal. change (Z.to_nat 10) with 10%nat. lia.
Qed.

Lemma offline_messages_never_handled_witness :
  let r1 := AddMsg 2 (λ _, Ok "msg") 2 (mkNats 5000 30 [1]) (∅ : lstore) in
  (HandleMsg 2 (λ _, Ok (mkNats 5000 30 [1])) (λ id _ u, u ++ [id]) false true 5000 r1 []).2 = [] ∧
  LIST (offlineMsgKey 2 5000) r1 = ["msg"].
Proof.
  pose proof (offline_messages_never_handled 2 (λ _, Ok "msg") (λ _, Ok (mkNats 5000 30 [1])) (λ id _ u, u ++ [id])
    5000 [mkNats 5000 30 [1]] (∅ : lstore) []) as T. cbv zeta in T |- *. cbn [fold_left] in T.
  destruct (HandleMsg _ _ _ _ _ _ _ _) as [r2 u2]. destruct T as (E & _); [dec|by repeat constructor|].
  split; [rewrite E; reflexivity|reflexivity].
Defined.
