(* ===== verification/Lock.v ===== *)
(** * pkg/lock: locks in Redis

    [SimpleLock] is a key that exists while the lock is held, with the holder's id as its
    value and an expiry; [OptimisticLockedDo] is a transaction on a watched key with
    retries; [LockedDo] runs a function under a redsync mutex. The commands are a class of
    a store whose keys expire, with their documented behaviour; the last section has a
    concrete store. *)

From S2P Require Import Prelude DataBus EventLoop.

(** ** A store whose keys expire *)

(** Every command runs at a time of the server. [SETNX] with expiry 0 sets a key that
    does not expire. *)
Class TimedOps (R : Type) := {
  TGET : Z → string → R → option string;
  SETNX : Z → string → string → Z → R → R * bool;
  TDEL : string → R → R }.

Definition live (set expiration now : Z) : Prop := expiration = 0 ∨ now < set + expiration.
#[export] Instance live_dec a b c : Decision (live a b c).
Proof. unfold live. apply _. Defined.

Class TimedLaws (R : Type) `{TimedOps R} := {
  setnx_free r t k v e : TGET t k r = None → (SETNX t k v e r).2 = true ∧
    ∀ t', t ≤ t' → TGET t' k (SETNX t k v e r).1 = if decide (live t e t') then Some v else None;
  setnx_taken r t k v e w : TGET t k r = Some w → SETNX t k v e r = (r, false);
  setnx_other r t k k' v e t' : k ≠ k' → TGET t' k' (SETNX t k v e r).1 = TGET t' k' r;
  tget_expired r t t' k : t ≤ t' → TGET t k r = None → TGET t' k r = None;
  tget_del r t k : TGET t k (TDEL k r) = None;
  tget_del_other r t k k' : k ≠ k' → TGET t k' (TDEL k r) = TGET t k' r }.

(** ** SimpleLock *)

Record SimpleLock := mkLock { lockKey : string; lockValue : Z; expiration : Z }.

(** [gen] is what [idgen.Gen] returns; its error is ignored, and the id is then 0. *)
Definition NewSimpleLock (gen : result Z) (key : string) (exp : Z) : SimpleLock :=
  mkLock key (match gen with Ok id => id | Err _ => 0 end) exp.

Section SimpleLock.
Context {R : Type} `{TimedOps R}.

(** [reply]: [None] when the answer arrives, [Some applied] when the call fails. *)
Definition Lock (reply : option bool) (now : Z) (l : SimpleLock) (r : R) : R * (bool * go_error) :=
  match reply with
  | None => let '(r, ok) := SETNX now (lockKey l) (Itoa (lockValue l)) (expiration l) r in (r, (ok, None))
  | Some applied =>
      ((if applied then (SETNX now (lockKey l) (Itoa (lockValue l)) (expiration l) r).1 else r),
       (false, Some (ErrMsg "redis")))
  end.

(** The script, one atomic step of the server. *)
Definition Unlock (applied : bool) (now : Z) (l : SimpleLock) (r : R) : R :=
  if applied && bool_decide (TGET now (lockKey l) r = Some (Itoa (lockValue l))) then TDEL (lockKey l) r else r.

(** ** Clients of one lock *)

(** A client is a [SimpleLock] of its own; [holds] says since when each client that
    was given the lock has had it. *)
Context (client : Z → SimpleLock) (key : string) (exp : Z).

Inductive lockOp :=
| OLock (c : Z) (reply : option bool)
| OUnlock (c : Z) (applied : bool)
| OWait (d : Z).

Record lsys := mkLS { ls_r : R; ls_now : Z; ls_holds : gmap Z Z }.

Definition ldo (s : lsys) (o : lockOp) : lsys :=
  match o with
  | OLock c reply =>
      let '(r, (ok, _)) := Lock reply (ls_now s) (client c) (ls_r s) in
      mkLS r (ls_now s) (if ok then <[c := ls_now s]> (ls_holds s) else ls_holds s)
  | OUnlock c applied => mkLS (Unlock applied (ls_now s) (client c) (ls_r s)) (ls_now s) (delete c (ls_holds s))
  | OWait d => mkLS (ls_r s) (ls_now s + Z.max 0 d) (ls_holds s)
  end.
Definition lrun (ops : list lockOp) (s : lsys) : lsys := fold_left ldo ops s.

(** A client that was given the lock, has not returned it, and whose time is not up. *)
Definition holder (s : lsys) (c : Z) : Prop := ∃ t, ls_holds s !! c = Some t ∧ live t exp (ls_now s).

Context `{!TimedLaws R}.
Context (Hkey : ∀ c, lockKey (client c) = key ∧ expiration (client c) = exp) (Hexp : 0 ≤ exp).
Context (Hval : ∀ c d, lockValue (client c) = lockValue (client d) → c = d).

(** A holder's id stays in the key until its time is up. *)
Definition linv (s : lsys) : Prop :=
  ∀ c t, ls_holds s !! c = Some t → t ≤ ls_now s ∧
    (live t exp (ls_now s) → ∀ t', ls_now s ≤ t' → live t exp t' → TGET t' key (ls_r s) = Some (Itoa (lockValue (client c)))).

Lemma live_mono t e a b : a ≤ b → live t e b → live t e a.
Proof. unfold live. lia. Qed.

Lemma linv_exclusive s c d : linv s → holder s c → holder s d → c = d.
Proof.
  intros Hi (t & Hc & Lc) (t' & Hd & Ld). destruct (Hi c t Hc) as [_ H1], (Hi d t' Hd) as [_ H2].
  specialize (H1 Lc (ls_now s) ltac:(lia) Lc). specialize (H2 Ld (ls_now s) ltac:(lia) Ld).
  rewrite H1 in H2. injection H2 as E. apply Itoa_inj in E. by apply Hval.
Qed.

Lemma setnx_holds s t' w c0 :
  TGET (ls_now s) key (ls_r s) = Some w ∨ TGET (ls_now s) key (ls_r s) = None →
  ls_now s ≤ t' → TGET t' key (ls_r s) = Some w →
  TGET t' key (SETNX (ls_now s) key (Itoa (lockValue (client c0))) exp (ls_r s)).1 = Some w.
Proof.
  intros [E|E] Ht Hw; [by rewrite (setnx_taken _ _ _ _ _ w)|].
  by rewrite (tget_expired _ (ls_now s) t' key) in Hw.
Qed.

Lemma ldo_inv s o : linv s → linv (ldo s o).
Proof.
  intros Hi. assert (Hnow : ∀ c t, ls_holds s !! c = Some t → live t exp (ls_now s) →
    TGET (ls_now s) key (ls_r s) = Some (Itoa (lockValue (client c)))).
  { intros c t Hc Hl. destruct (Hi c t Hc) as [_ H1]. apply H1; [done|lia|done]. }
  destruct o as [c reply|c applied|d]; cbn [ldo].
  - unfold Lock. destruct (Hkey c) as [-> ->].
    assert (Hkeep : ∀ d t, ls_holds s !! d = Some t → t ≤ ls_now s ∧ (live t exp (ls_now s) →
      ∀ t', ls_now s ≤ t' → live t exp t' →
      TGET t' key (SETNX (ls_now s) key (Itoa (lockValue (client c))) exp (ls_r s)).1 = Some (Itoa (lockValue (client d))))).
    { intros d t Hd. destruct (Hi d t Hd) as [Ht H1]. split; [done|]. intros Hl t' Ht' Hl'.
      apply setnx_holds; [left; by eapply Hnow|done|by apply H1]. }
    destruct reply as [[]|]; cbn.
    + intros d t Hd. by apply Hkeep.
    + done.
    + destruct (TGET (ls_now s) key (ls_r s)) as [w|] eqn:Eg.
      { rewrite (setnx_taken _ _ _ _ _ w) by done. done. }
      destruct (setnx_free (ls_r s) (ls_now s) key (Itoa (lockValue (client c))) exp Eg) as [Eok Hset].
      destruct (SETNX _ _ _ _ _) as [r' ok] eqn:Es. cbn [snd fst] in *. subst ok. cbn [ls_r ls_now ls_holds].
      intros d t Hd. cbn in Hd. destruct (decide (d = c)) as [->|Hn].
      * rewrite lookup_insert_eq in Hd. simplify_eq. split; [cbn; lia|]. intros _ t' Ht' Hl'. cbn in *.
        rewrite Hset by lia. by rewrite decide_True.
      * rewrite lookup_insert_ne in Hd by done. cbn. destruct (Hi d t Hd) as [Ht _]. split; [done|].
        intros Hl. pose proof (Hnow d t Hd Hl). congruence.
  - intros d t Hd. cbn in *. apply lookup_delete_Some in Hd as [Hne Hd]. destruct (Hi d t Hd) as [Ht H1].
    split; [done|]. intros Hl t' Ht' Hl'. unfold Unlock. destruct (Hkey c) as [-> _]. rewrite (Hnow d t Hd Hl).
    destruct applied; [|by apply H1]. rewrite bool_decide_false; [by apply H1|].
    intros E. injection E as E. apply Itoa_inj in E. by apply Hne, Hval.
  - intros c t Hc. cbn in *. destruct (Hi c t Hc) as [Ht H1]. split; [lia|]. intros Hl t' Ht' Hl'.
    apply H1; [by eapply live_mono; [|exact Hl]; lia|lia|done].
Qed.

Lemma lrun_inv ops s : linv s → linv (lrun ops s).
Proof. intros Hi. unfold lrun. apply fold_left_inv; [done|]. intros. by apply ldo_inv. Qed.

End SimpleLock.

(** ** Optimistic locking *)

Section Optimistic.
Context {R : Type}.

(** [fn] reads the store and queues its writes in [save], or fails. [touched i r]: in
    the [i]-th attempt others changed the store to this while [fn] ran, and changed the
    watched key or not. *)
Context (fn : nat → R → result (R → R)) (others : nat → R → R * bool).

Definition maxRetries : nat := 5.
Definition TxFailedErr : gerror := ErrMsg "redis: transaction failed".

(** [redisCli.Watch(ctx, txfTarget, key)]. *)
Definition Watch (i : nat) (r : R) : R * go_error :=
  match fn i r with
  | Err e => ((others i r).1, Some e)
  | Ok w => let '(r, changed) := others i r in if changed then (r, Some TxFailedErr) else (w r, None)
  end.

Fixpoint retry (n i : nat) (r : R) : R * go_error :=
  match n with
  | O => (r, None)
  | S n =>
      let '(r, err) := Watch i r in
      match err with
      | None => (r, None)
      | Some e => if decide (e = TxFailedErr) then retry n (S i) r else (r, Some e)
      end
  end.

Definition OptimisticLockedDo (r : R) : R * go_error := retry maxRetries 0 r.

(** The store after [n] attempts in which only others wrote. *)
Fixpoint othersOnly (n i : nat) (r : R) : R :=
  match n with O => r | S n => othersOnly n (S i) (others i r).1 end.

Lemma retry_conflicts n i r :
  (∀ j r', i ≤ j < i + n → (others j r').2 = true ∧ is_ok (fn j r') = true)%nat → retry n i r = (othersOnly n i r, None).
Proof.
  revert i r. induction n as [|n IH]; intros i r Hc; [done|]. cbn [retry othersOnly]. unfold Watch.
  destruct (Hc i r) as [Ho Hf]; [lia|]. destruct (fn i r); [|done]. destruct (others i r) as [r' ch]. cbn in Ho. subst ch.
  rewrite decide_True by done. cbn. apply IH. intros. apply Hc. lia.
Qed.

(** [n] conflicts, then an attempt without one. *)
Lemma retry_success n m i r w :
  (∀ j r', i ≤ j < i + n → (others j r').2 = true ∧ is_ok (fn j r') = true)%nat →
  let r0 := othersOnly n i r in
  fn (i + n) r0 = Ok w → (others (i + n)%nat r0).2 = false →
  retry (n + S m) i r = (w (others (i + n)%nat r0).1, None).
Proof.
  revert i r. induction n as [|n IH]; intros i r Hc r0 Hf Ho.
  - rewrite Nat.add_0_r in *. cbn [othersOnly Nat.add retry] in *. unfold Watch. unfold r0 in *. cbn in *. rewrite Hf.
    destruct (others i r) as [r' ch]. cbn in Ho. by subst ch.
  - cbn [Nat.add retry]. unfold Watch. destruct (Hc i r) as [Ho' Hf']; [lia|]. destruct (fn i r); [|done].
    unfold r0 in *. cbn [othersOnly] in *. destruct (others i r) as [r' ch]. cbn in Ho'. subst ch. cbn [fst] in *.
    rewrite decide_True by done. replace (i + S n)%nat with (S i + n)%nat in * by lia. apply IH; [|done|done].
    intros. apply Hc. lia.
Qed.

End Optimistic.

(** ** LockedDo *)

(** The calls made, in order; [fn] may panic, and the deferred unlock still runs. *)
Inductive lockAct := ALock (key : string) | AFn | AUnlock (key : string).

Definition LockedDo (lockErr : go_error) (key : string) (fn : option go_error) : list lockAct * option go_error :=
  let k := "lock:" +:+ key in
  match lockErr with
  | Some e => ([ALock k], Some (Some e))
  | None => ([ALock k; AFn; AUnlock k], fn)
  end.

(** ** A store with the laws *)

(** The value, the time it was set and its expiry. *)
Definition tst_get (now : Z) (k : string) (r : gmap string (string * Z * Z)) : option string :=
  match r !! k with
  | Some (v, t, e) => if decide (live t e now) then Some v else None
  | None => None
  end.

#[export] Instance tstore_ops : TimedOps (gmap string (string * Z * Z)) := {|
  TGET := tst_get;
  SETNX now k v e r := match tst_get now k r with Some _ => (r, false) | None => (<[k := (v, now, e)]> r, true) end;
  TDEL k r := delete k r |}.

#[export] Instance tstore_laws : TimedLaws (gmap string (string * Z * Z)).
Proof.
  split; cbn; unfold tst_get.
  - intros r t k v e E. rewrite E. split; [done|]. intros t' Ht. cbn. by rewrite lookup_insert_eq.
  - intros r t k v e w E. by rewrite E.
  - intros r t k k' v e t' Hk. destruct (match r !! k with Some _ => _ | None => _ end); cbn; [done|].
    by rewrite lookup_insert_ne.
  - intros r t t' k Ht. destruct (r !! k) as [[[v s] e]|]; [|done]. repeat case_decide; try done.
    destruct H. unfold live in *. lia.
  - intros. by rewrite lookup_delete_eq.
  - intros. by rewrite lookup_delete_ne.
Qed.

(** ** Properties *)

(** At most one client holds the lock: along every sequence of lock attempts (with and
    without lost replies), unlocks (also late and repeated ones) and passing time, two
    clients that were both given the lock, have not returned it and whose time is not up
    are the same client, provided the clients' ids differ. *)
Theorem simple_lock_exclusive {R} `{TimedLaws R} (client : Z → SimpleLock) key exp (r : R) now ops c d :
  (∀ c, lockKey (client c) = key ∧ expiration (client c) = exp) → 0 ≤ exp →
  (∀ c d, lockValue (client c) = lockValue (client d) → c = d) →
  let s := lrun client ops (mkLS r now ∅) in
  holder exp s c → holder exp s d → c = d.
Proof.
  intros Hk He Hv s. apply (linv_exclusive client key exp Hv). unfold s. apply lrun_inv; [done..|].
  intros x t Hx. cbn in Hx. by rewrite lookup_empty in Hx.
Qed.

Lemma simple_lock_exclusive_witness :
  let s := lrun (λ c, mkLock "k" c 8) [OLock 1 None; OLock 2 None; OWait 9; OLock 2 None; OUnlock 1 true; OLock 3 None]
             (mkLS (∅ : gmap string (string * Z * Z)) 100 ∅) in
  holder 8 s 2 ∧ (holder 8 s 3 → 2 = 3).
Proof.
  intros s. assert (Hh : holder 8 s 2) by (exists 109; split; [reflexivity|right; reflexivity]).
  split; [exact Hh|]. apply (simple_lock_exclusive (λ c, mkLock "k" c 8) "k" 8 ∅ 100
    [OLock 1 None; OLock 2 None; OWait 9; OLock 2 None; OUnlock 1 true; OLock 3 None] 2 3); [done|lia|done|exact Hh].
Defined.

(** A lock without an id protects nobody: when id generation fails, its error is
    ignored and the id is 0, so two such clients share one, and the second, whose attempt
    failed, can unlock what the first holds; a third then gets the lock beside the first. *)
Theorem lock_without_id_not_exclusive key exp :
  let l := NewSimpleLock (Err (ErrMsg "no id")) key exp in
  let l3 := NewSimpleLock (Ok 7) key exp in
  0 < exp →
  let '(r1, (ok1, _)) := Lock None 0 l (∅ : gmap string (string * Z * Z)) in
  let '(r2, (ok2, _)) := Lock None 0 l r1 in
  let r3 := Unlock true 0 l r2 in
  let '(_, (ok3, _)) := Lock None 0 l3 r3 in
  ok1 = true ∧ ok2 = false ∧ ok3 = true.
Proof.
  intros l l3 He. assert (Hl : live 0 exp 0) by (right; lia).
  unfold Lock, Unlock, l, l3, NewSimpleLock. cbn. unfold tst_get. rewrite lookup_empty. cbn.
  repeat (rewrite ?lookup_insert_eq, ?lookup_delete_eq; cbn; rewrite ?decide_True by done; cbn).
  rewrite bool_decide_true by done. by rewrite lookup_delete_eq.
Qed.

Lemma lock_without_id_not_exclusive_witness :
  let l := NewSimpleLock (Err (ErrMsg "no id")) "k" 8 in
  (Lock None 0 (NewSimpleLock (Ok 7) "k" 8)
     (Unlock true 0 l (Lock None 0 l (Lock None 0 l (∅ : gmap string (string * Z * Z))).1).1)).2.1 = true.
Proof. exact (proj2 (proj2 (lock_without_id_not_exclusive "k" 8 eq_refl))). Defined.

(** Optimistic locking: after up to four conflicts, the first attempt without one
    applies the writes that [fn] computed from exactly the state in which its transaction
    ran, and no error is reported. With five conflicts in a row nothing is written, and
    still no error is reported: the update is lost silently. *)
Theorem optimistic_lock_outcome {R} (fn : nat → R → result (R → R)) (others : nat → R → R * bool) (n : nat) (r : R) :
  (∀ j r', j < n → (others j r').2 = true ∧ is_ok (fn j r') = true)%nat →
  ((n < maxRetries)%nat → ∀ w, let r0 := othersOnly others n 0 r in
     fn n r0 = Ok w → (others n r0).2 = false → OptimisticLockedDo fn others r = (w (others n r0).1, None)) ∧
  (n = maxRetries → OptimisticLockedDo fn others r = (othersOnly others maxRetries 0 r, None)).
Proof.
  intros Hc. split.
  - intros Hn w r0 Hf Ho. unfold OptimisticLockedDo. replace maxRetries with (n + S (maxRetries - n - 1))%nat by lia.
    apply (retry_success fn others n _ 0 r w); [intros; apply Hc; lia|done|done].
  - intros ->. apply retry_conflicts. intros. apply Hc. lia.
Qed.

(** Another server adds 10 during each attempt. *)
Lemma optimistic_lock_outcome_witness :
  OptimisticLockedDo (λ _ r, Ok (λ _, r + 1)) (λ i r, if decide (i < 2)%nat then (r + 10, true) else (r, false)) 0 = (21, None) ∧
  OptimisticLockedDo (λ _ r, Ok (λ _, r + 1)) (λ _ r, (r + 10, true)) 0 = (50, None).
Proof.
  split.
  - destruct (optimistic_lock_outcome (λ _ r, Ok (λ _, r + 1))
      (λ i r, if decide (i < 2)%nat then (r + 10, true) else (r, false)) 2 0) as [T _].
    + intros j r' Hj. by rewrite decide_True.
    + exact (T ltac:(unfold maxRetries; lia) (λ _, 21) eq_refl eq_refl).
  - destruct (optimistic_lock_outcome (λ _ r, Ok (λ _, r + 1)) (λ _ r, (r + 10, true)) 5 0) as [_ T]; [done|].
    apply T. reflexivity.
Defined.
