(* ===== verification/Crypt.v ===== *)
(** * pkg/crypt: AES in CBC mode with PKCS7 padding, Diffie-Hellman

    The AES permutation of a block is a class with its laws; the CBC modes of
    [crypto/cipher], which keep the last cipher block between calls, are written out. A byte
    slice that a function may write through is a backing array with a length. *)

From S2P Require Import Prelude.
From Stdlib Require Import Zpow_facts.

Definition blockSize : Z := 16.

(** [aes.NewCipher] accepts keys of 16, 24 and 32 bytes; under each, a block of 16 bytes is
    permuted. *)
Class BlockCipher := {
  aesE : bytes → bytes → bytes;
  aesD : bytes → bytes → bytes;
  aesE_length k b : length b = 16%nat → length (aesE k b) = 16%nat;
  aesD_length k b : length b = 16%nat → length (aesD k b) = 16%nat;
  aesD_E k b : length b = 16%nat → is_bytes b → aesD k (aesE k b) = b;
  aesE_D k b : length b = 16%nat → is_bytes b → aesE k (aesD k b) = b;
  aesE_bytes k b : is_bytes (aesE k b);
  aesD_bytes k b : is_bytes (aesD k b) }.

Definition keyOk (k : bytes) : bool := bool_decide (length k ∈ [16; 24; 32]%nat).

(** ** Padding *)

Definition PKCS7Padding (ciphertext : bytes) (bs : Z) : bytes :=
  let padding := bs - len ciphertext mod bs in
  ciphertext ++ replicate (Z.to_nat padding) (u8 padding).

(** The two checks and the slice. *)
Definition PKCS7UnPadding (plaintext : bytes) : option (result bytes) :=
  let length := len plaintext in
  if decide (length = 0) then Some (Err (ErrMsg "plaintext is empty"))
  else
    unpadding ← plaintext !! Z.to_nat (length - 1);
    if decide (unpadding > length ∨ unpadding = 0) then Some (Err (ErrMsg "invalid padding length"))
    else
      let padStart := length - unpadding in
      tail ← slice plaintext padStart length;
      if decide (Forall (λ b, b = u8 unpadding) tail)
      then Ok <$> slice plaintext 0 padStart
      else Some (Err (ErrMsg "invalid padding bytes")).

(** ** CBC *)

Definition xorBytes (a b : bytes) : bytes := zip_with Z.lxor a b.

Fixpoint blocks (n : nat) (l : bytes) : list bytes :=
  match n with O => [] | S n => take 16 l :: blocks n (drop 16 l) end.

Section CBC.
Context `{BlockCipher}.

(** [cipher.BlockMode]: direction, key and the chaining block. *)
Record BlockMode := mkMode { bm_enc : bool; bm_key : bytes; bm_iv : bytes }.

Fixpoint cbcEnc (k iv : bytes) (bs : list bytes) : list bytes * bytes :=
  match bs with
  | [] => ([], iv)
  | b :: bs => let c := aesE k (xorBytes b iv) in let '(cs, iv) := cbcEnc k c bs in (c :: cs, iv)
  end.
Fixpoint cbcDec (k iv : bytes) (bs : list bytes) : list bytes * bytes :=
  match bs with
  | [] => ([], iv)
  | b :: bs => let p := xorBytes (aesD k b) iv in let '(ps, iv) := cbcDec k b bs in (p :: ps, iv)
  end.

(** [CryptBlocks(dst, src)] panics unless the input is whole blocks. *)
Definition CryptBlocks (src : bytes) (m : BlockMode) : option (bytes * BlockMode) :=
  if decide (len src mod blockSize = 0) then
    let bs := blocks (length src / 16) src in
    let '(out, iv) := if bm_enc m then cbcEnc (bm_key m) (bm_iv m) bs else cbcDec (bm_key m) (bm_iv m) bs in
    Some (mjoin out, mkMode (bm_enc m) (bm_key m) iv)
  else None.

(** [cipher.NewCBCEncrypter] panics on an IV of the wrong length. *)
Definition newMode (enc : bool) (key iv : bytes) : option BlockMode :=
  if decide (len iv = blockSize) then Some (mkMode enc key iv) else None.

Definition NewEncrypter (key iv : bytes) : option (result BlockMode) :=
  if keyOk key then Ok <$> newMode true key iv else Some (Err (ErrMsg "invalid key size")).
Definition NewDecrypter (key iv : bytes) : option (result BlockMode) :=
  if keyOk key then Ok <$> newMode false key iv else Some (Err (ErrMsg "invalid key size")).

(** *** aes.go *)

(** A slice [arr[:n]] of a backing array; [append] writes into the array when there is
    room, and copies otherwise. [fresh] is the array behind the result then. *)
Record gslice := mkSlice { arr : bytes; sl_len : nat }.
Definition contents (s : gslice) : bytes := take (sl_len s) (arr s).

(** [EnCrypt(src, blockMode)]: the caller's slice afterwards, the result, the mode. *)
Definition EnCrypt (src : gslice) (m : BlockMode) : option (gslice * bytes * BlockMode) :=
  let padded := PKCS7Padding (contents src) blockSize in
  '(out, m) ← CryptBlocks padded m;
  if decide (length padded ≤ length (arr src))%nat
  then Some (mkSlice (out ++ drop (length padded) (arr src)) (sl_len src), out, m)
  else Some (src, out, m).

(** [DeCrypt] works in place; its result is a part of the caller's slice. *)
Definition DeCrypt (src : bytes) (m : BlockMode) : option (bytes * result bytes * BlockMode) :=
  '(out, m) ← CryptBlocks src m;
  r ← PKCS7UnPadding out;
  Some (out, r, m).

(** *** aes_once.go *)

(** The package variables; [globalBlock] is the key of the cached cipher. *)
Record aesState := mkAes { aesKey : bytes; aesIV : bytes; globalBlock : option bytes }.

(** The initial key and IV. *)
Definition aesDefaults : aesState :=
  mkAes [53; 54; 112; 111; 108; 49; 50; 51; 52; 107; 105; 106; 55; 56; 104; 117]
        [48; 57; 51; 112; 111; 53; 52; 105; 117; 121; 56; 55; 54; 116; 114; 101] None.

Definition aes_Init (key iv : bytes) (s : aesState) : aesState * go_error :=
  let k := if decide (key = []) then aesKey s else key in
  let v := if decide (iv = []) then aesIV s else iv in
  if keyOk k then
    if decide (len v ≠ blockSize) then (mkAes k v (globalBlock s), Some (ErrMsg "IV length must equal block size"))
    else (mkAes k v (Some k), None)
  else (mkAes k v (globalBlock s), Some (ErrMsg "invalid key size")).

(** [None]: the nil block that a failed [NewCipher] leaves, a panic when used. *)
Definition getBlock (s : aesState) : option bytes * aesState :=
  match globalBlock s with
  | Some k => (Some k, s)
  | None => if keyOk (aesKey s) then (Some (aesKey s), mkAes (aesKey s) (aesIV s) (Some (aesKey s))) else (None, s)
  end.

Definition EnCryptOnce (src : bytes) (s : aesState) : option (bytes * aesState) :=
  if decide (len src = 0) then Some ([], s)
  else
    let '(block, s) := getBlock s in
    k ← block;
    m ← newMode true k (aesIV s);
    '(dst, _) ← CryptBlocks (PKCS7Padding src blockSize) m;
    Some (dst, s).

Definition DeCryptOnce (src : bytes) (s : aesState) : option (result bytes * aesState) :=
  let '(block, s) := getBlock s in
  k ← block;
  if decide (len src = 0 ∨ len src mod blockSize ≠ 0) then Some (Err (ErrMsg "invalid ciphertext length"), s)
  else
    m ← newMode false k (aesIV s);
    '(dst, _) ← CryptBlocks src m;
    r ← PKCS7UnPadding dst;
    Some (r, s).

End CBC.

(** ** pkg/crypt/dh *)

Definition dh_g : Z := 2.
Definition dh_p : Z := 987123654.

(** [big.Int.Exp(x, y, m)]. *)
Definition bigExp (x y m : Z) : Z := (x ^ y) mod m.

(** [priv] is the random number below [math.MaxInt64]. *)
Definition Exchange (priv : Z) : Z * Z := (priv, bigExp dh_g priv dh_p).
Definition GetKey (privateKey publicKey : Z) : Z := bigExp publicKey privateKey dh_p.

(** ** Padding and unpadding *)

Lemma padding_range (l : bytes) : 1 ≤ blockSize - len l mod blockSize ≤ 16.
Proof. unfold blockSize. pose proof (Z.mod_pos_bound (len l) 16). lia. Qed.

Lemma padding_whole l : len (PKCS7Padding l blockSize) mod blockSize = 0.
Proof.
  unfold PKCS7Padding. pose proof (padding_range l). lens. unfold blockSize in *. rewrite Z2Nat.id by lia.
  rewrite (Z.div_mod (len l) 16) at 1 by lia.
  replace (_ + _ + _) with ((len l / 16 + 1) * 16) by lia. apply Z.mod_mul. lia.
Qed.

Lemma padding_bytes l : is_bytes l → is_bytes (PKCS7Padding l blockSize).
Proof.
  intros Hl. unfold PKCS7Padding. apply Forall_app. split; [done|]. apply Forall_replicate.
  unfold is_u8, u8. apply Z.mod_pos_bound. lia.
Qed.

(** What unpadding removes: a run of [p] bytes [p]. *)
Lemma unpad_run m p : 1 ≤ p ≤ 255 → PKCS7UnPadding (m ++ replicate (Z.to_nat p) p) = Some (Ok m).
Proof.
  intros Hp. unfold PKCS7UnPadding. set (l := m ++ _).
  assert (Hl : len l = len m + p) by (unfold l; lens).
  assert (Hlast : l !! Z.to_nat (len l - 1) = Some p).
  { unfold l. rewrite lookup_app_r by (fold l; unfold len in *; lia). apply lookup_replicate_2. fold l. unfold len in *. lia. }
  pose proof (len_nonneg m). rewrite decide_False by lia. rewrite Hlast. cbn [mbind option_bind].
  rewrite decide_False by lia.
  assert (slice l (len l - p) (len l) = Some (replicate (Z.to_nat p) p)) as ->
    by (apply (slice_suffix m (replicate (Z.to_nat p) p)); [lia|done]).
  cbn [mbind option_bind].
  rewrite decide_True.
  - replace (len l - p) with (len m) by lia. unfold l. by rewrite slice_prefix.
  - apply Forall_replicate. unfold u8. rewrite Z.mod_small by lia. done.
Qed.

Lemma unpad_pad l : PKCS7UnPadding (PKCS7Padding l blockSize) = Some (Ok l).
Proof.
  unfold PKCS7Padding. pose proof (padding_range l). set (p := _ - _) in *.
  unfold u8. rewrite Z.mod_small by lia. apply unpad_run. lia.
Qed.

(** ** Blocks *)

Lemma blocks_join n l : length l = (16 * n)%nat → mjoin (blocks n l) = l ∧ Forall (λ b, length b = 16%nat) (blocks n l).
Proof.
  revert l. induction n as [|n IH]; intros l Hl; cbn [blocks].
  - destruct l; [split; [done|constructor]|cbn in Hl; lia].
  - destruct (IH (drop 16 l)) as [E F]; [rewrite length_drop; lia|]. 
    change (mjoin (take 16 l :: blocks n (drop 16 l))) with (take 16 l ++ mjoin (blocks n (drop 16 l))). rewrite E. split.
    + apply take_drop.
    + constructor; [|done]. rewrite length_take. lia.
Qed.

Lemma join_blocks bs : Forall (λ b, length b = 16%nat) bs → blocks (length bs) (mjoin bs) = bs ∧ length (mjoin bs) = (16 * length bs)%nat.
Proof.
  induction 1 as [|b bs Hb _ [IH1 IH2]]; [done|]. change (mjoin (b :: bs)) with (b ++ mjoin bs). cbn [length blocks].
  rewrite take_app_length', drop_app_length', IH1 by done. split; [done|]. rewrite length_app. lia.
Qed.

Lemma blocks_bytes n l : is_bytes l → Forall is_bytes (blocks n l).
Proof.
  revert l. induction n as [|n IH]; intros l Hl; cbn [blocks]; constructor; [by apply Forall_take|].
  apply IH. by apply Forall_drop.
Qed.

Lemma whole_blocks (l : bytes) : len l mod blockSize = 0 → length l = (16 * (length l / 16))%nat.
Proof.
  unfold blockSize, len. intros E. assert (E' : (length l mod 16 = 0)%nat).
  { apply Nat2Z.inj. by rewrite Nat2Z.inj_mod. }
  pose proof (Nat.div_mod (length l) 16). lia.
Qed.

(** ** The two directions of CBC undo each other *)

Lemma length_xor a b : length a = length b → length (xorBytes a b) = length a.
Proof. intros. unfold xorBytes. rewrite length_zip_with. lia. Qed.

Lemma xor_xor a b : length a = length b → xorBytes (xorBytes a b) b = a.
Proof.
  revert b. induction a as [|x a IH]; intros [|y b] Hl; cbn in Hl; [done..|]. unfold xorBytes in *. cbn.
  rewrite IH by lia. by rewrite Z.lxor_assoc, Z.lxor_nilpotent, Z.lxor_0_r.
Qed.

Lemma lxor_u8 a b : is_u8 a → is_u8 b → is_u8 (Z.lxor a b).
Proof.
  unfold is_u8. intros Ha Hb. split; [apply Z.lxor_nonneg; lia|].
  destruct (decide (Z.lxor a b = 0)) as [->|Hn]; [lia|].
  apply Z.log2_lt_pow2; [assert (0 ≤ Z.lxor a b) by (apply Z.lxor_nonneg; lia); lia|].
  assert (Hlog : ∀ x, 0 ≤ x < 2 ^ 8 → Z.log2 x < 8).
  { intros x Hx. destruct (decide (x = 0)) as [->|]; [cbn; lia|]. apply Z.log2_lt_pow2; lia. }
  pose proof (Z.log2_lxor a b ltac:(lia) ltac:(lia)). pose proof (Hlog a Ha). pose proof (Hlog b Hb). lia.
Qed.

Lemma xor_bytes a b : is_bytes a → is_bytes b → is_bytes (xorBytes a b).
Proof.
  intros Ha. revert b. induction Ha as [|x a Hx _ IH]; intros b Hb; [constructor|]. destruct Hb as [|y b Hy Hb]; [constructor|].
  unfold xorBytes. cbn. constructor; [by apply lxor_u8|by apply IH].
Qed.

Section Laws.
Context `{BlockCipher}.

Definition blocksOk (bs : list bytes) : Prop := Forall (λ b, length b = 16%nat ∧ is_bytes b) bs.

Lemma cbc_enc_dec k iv bs :
  blocksOk bs → length iv = 16%nat → is_bytes iv →
  let '(cs, iv') := cbcEnc k iv bs in
  blocksOk cs ∧ length cs = length bs ∧ cbcDec k iv cs = (bs, iv') ∧ length iv' = 16%nat ∧ is_bytes iv'.
Proof.
  intros Hbs. revert iv. induction Hbs as [|b bs [Hl Hb] _ IH]; intros iv Hiv Hib; cbn [cbcEnc].
  { splits; [constructor|done..]. }
  assert (Hx : length (xorBytes b iv) = 16%nat) by (by rewrite length_xor by congruence).
  specialize (IH (aesE k (xorBytes b iv)) (aesE_length k _ Hx) (aesE_bytes k _)).
  destruct (cbcEnc k (aesE k (xorBytes b iv)) bs) as [cs iv']. destruct IH as (H1 & H2 & H3 & H4 & H5).
  cbn [cbcDec]. rewrite H3, aesD_E by (done || by apply xor_bytes). rewrite xor_xor by congruence.
  splits; [|cbn; by f_equal|done..]. constructor; [split; [by apply aesE_length|apply aesE_bytes]|done].
Qed.

Lemma cbc_dec_enc k iv bs :
  blocksOk bs → length iv = 16%nat → is_bytes iv →
  let '(cs, iv') := cbcDec k iv bs in
  blocksOk cs ∧ length cs = length bs ∧ cbcEnc k iv cs = (bs, iv') ∧ length iv' = 16%nat ∧ is_bytes iv'.
Proof.
  intros Hbs. revert iv. induction Hbs as [|b bs [Hl Hb] _ IH]; intros iv Hiv Hib; cbn [cbcDec].
  { splits; [constructor|done..]. }
  assert (Hx : length (aesD k b) = 16%nat) by (by apply aesD_length).
  specialize (IH b Hl Hb). destruct (cbcDec k b bs) as [cs iv']. destruct IH as (H1 & H2 & H3 & H4 & H5).
  cbn [cbcEnc]. rewrite xor_xor, aesE_D by (done || congruence). rewrite H3.
  splits; [|cbn; by f_equal|done..]. constructor; [|done]. split; [by rewrite length_xor by congruence|].
  apply xor_bytes; [apply aesD_bytes|done].
Qed.

(** A mode is usable and another one is its inverse. *)
Definition modeOk (m : BlockMode) : Prop := length (bm_iv m) = 16%nat ∧ is_bytes (bm_iv m).
Definition inverse (m : BlockMode) : BlockMode := mkMode (negb (bm_enc m)) (bm_key m) (bm_iv m).

Lemma CryptBlocks_inverse src m :
  is_bytes src → len src mod blockSize = 0 → modeOk m →
  ∃ out m', CryptBlocks src m = Some (out, m') ∧ is_bytes out ∧ length out = length src ∧ modeOk m' ∧
    CryptBlocks out (inverse m) = Some (src, inverse m').
Proof.
  intros Hb Hw [Hiv Hib]. unfold CryptBlocks. rewrite decide_True by done.
  destruct (blocks_join (length src / 16) src (whole_blocks _ Hw)) as [Ej Hf].
  set (bs := blocks (length src / 16) src) in *.
  assert (Hok : blocksOk bs).
  { pose proof (blocks_bytes (length src / 16) src Hb) as Hbb. fold bs in Hbb. unfold blocksOk.
    by apply Forall_and. }
  assert (Hgen : ∀ cs iv', blocksOk cs → length cs = length bs → length iv' = 16%nat ∧ is_bytes iv' →
    is_bytes (mjoin cs) ∧ length (mjoin cs) = length src ∧ modeOk (mkMode (bm_enc m) (bm_key m) iv') ∧
    len (mjoin cs) mod blockSize = 0 ∧ blocks (length (mjoin cs) / 16) (mjoin cs) = cs).
  { intros cs iv' Hcs Hl Hi. apply Forall_and in Hcs as [Hc1 Hc2]. destruct (join_blocks cs Hc1) as [J1 J2].
    assert (Els : length (mjoin cs) = length src).
    { rewrite <- Ej at 1. destruct (join_blocks bs Hf) as [_ ->]. lia. }
    splits; [by apply Forall_join|done|done..| |].
    - unfold len. by rewrite Els.
    - rewrite J2, Nat.mul_comm, Nat.div_mul by done. done. }
  destruct (bm_enc m) eqn:Em.
  - pose proof (cbc_enc_dec (bm_key m) (bm_iv m) bs Hok Hiv Hib) as Hc. destruct (cbcEnc _ _ bs) as [cs iv'].
    destruct Hc as (H1 & H2 & H3 & H4). destruct (Hgen cs iv' H1 H2 H4) as (G1 & G2 & G3 & G4 & G5).
    eexists _, _. splits; [done|done|done|done|]. unfold inverse. rewrite Em. cbn [bm_enc negb bm_key bm_iv].
    rewrite decide_True by done. rewrite G5, H3, Ej. done.
  - pose proof (cbc_dec_enc (bm_key m) (bm_iv m) bs Hok Hiv Hib) as Hc. destruct (cbcDec _ _ bs) as [cs iv'].
    destruct Hc as (H1 & H2 & H3 & H4). destruct (Hgen cs iv' H1 H2 H4) as (G1 & G2 & G3 & G4 & G5).
    eexists _, _. splits; [done|done|done|done|]. unfold inverse. rewrite Em. cbn [bm_enc negb bm_key bm_iv].
    rewrite decide_True by done. rewrite G5, H3, Ej. done.
Qed.

End Laws.

(** ** Streams of messages *)

Section Streams.
Context `{BlockCipher}.

Definition slice_wf (s : gslice) : Prop := (sl_len s ≤ length (arr s))%nat ∧ is_bytes (arr s).

Fixpoint encAll (ss : list gslice) (m : BlockMode) : option (list bytes * BlockMode) :=
  match ss with
  | [] => Some ([], m)
  | s :: ss => '(_, c, m) ← EnCrypt s m; '(cs, m) ← encAll ss m; Some (c :: cs, m)
  end.
Fixpoint decAll (cs : list bytes) (m : BlockMode) : option (list (result bytes) * BlockMode) :=
  match cs with
  | [] => Some ([], m)
  | c :: cs => '(_, r, m) ← DeCrypt c m; '(rs, m) ← decAll cs m; Some (r :: rs, m)
  end.

Lemma contents_bytes s : slice_wf s → is_bytes (contents s).
Proof. intros [_ Hb]. by apply Forall_take. Qed.

Lemma EnCrypt_DeCrypt s m :
  slice_wf s → modeOk m →
  ∃ s' c m', EnCrypt s m = Some (s', c, m') ∧ modeOk m' ∧
    (∃ buf, DeCrypt c (inverse m) = Some (buf, Ok (contents s), inverse m')) ∧
    length c = length (PKCS7Padding (contents s) blockSize) ∧
    contents s' = (if decide (length (PKCS7Padding (contents s) blockSize) ≤ length (arr s))%nat
                   then take (sl_len s) c else contents s).
Proof.
  intros Hs Hm. unfold EnCrypt, DeCrypt.
  destruct (CryptBlocks_inverse (PKCS7Padding (contents s) blockSize) m) as (c & m' & -> & _ & Hl & Hm' & Ed);
    [by apply padding_bytes, contents_bytes|apply padding_whole|done|]. cbn [mbind option_bind].
  set (padded := PKCS7Padding (contents s) blockSize) in *.
  assert (Hdec : ('(out, m0) ← CryptBlocks c (inverse m); r ← PKCS7UnPadding out; Some (out, r, m0)) =
                 Some (padded, Ok (contents s), inverse m')).
  { rewrite Ed. cbn [mbind option_bind]. unfold padded. rewrite unpad_pad. done. }
  case_decide as Hd; eexists _, c, m'; splits; try done; try (by exists padded).
  unfold contents at 1. cbn [arr sl_len]. apply take_app_le. rewrite Hl. unfold padded, PKCS7Padding, contents.
  rewrite length_app, length_take. destruct Hs. lia.
Qed.

Lemma streams_invert ss m :
  Forall slice_wf ss → modeOk m →
  ∃ cs m', encAll ss m = Some (cs, m') ∧ modeOk m' ∧ decAll cs (inverse m) = Some (Ok <$> (contents <$> ss), inverse m').
Proof.
  intros Hss. revert m. induction Hss as [|s ss Hs _ IH]; intros m Hm; [by exists [], m|]. cbn [encAll].
  destruct (EnCrypt_DeCrypt s m Hs Hm) as (s' & c & m1 & -> & Hm1 & (buf & Ed) & _). cbn [mbind option_bind].
  destruct (IH m1 Hm1) as (cs & m' & -> & Hm' & Ec). cbn [mbind option_bind].
  exists (c :: cs), m'. splits; [done|done|]. cbn [decAll]. rewrite Ed. cbn [mbind option_bind]. rewrite Ec. done.
Qed.

End Streams.

(** A block cipher for the examples: every byte is complemented. *)
Definition flip (b : bytes) : bytes := (λ x, Z.lxor (u8 x) 255) <$> b.
Lemma flip_bytes b : is_bytes (flip b).
Proof.
  apply Forall_fmap, Forall_true. intros x. apply lxor_u8; [unfold is_u8, u8; apply Z.mod_pos_bound; lia|by unfold is_u8].
Qed.
Lemma flip_flip b : is_bytes b → flip (flip b) = b.
Proof.
  intros Hb. unfold flip. rewrite <- list_fmap_compose. rewrite <- (list_fmap_id b) at 2. apply list_fmap_ext.
  intros i x Hx. pose proof (Forall_lookup_1 _ _ _ _ Hb Hx) as H8. cbn. unfold is_u8, u8 in *.
  rewrite (Z.mod_small x) by lia. rewrite (Z.mod_small (Z.lxor x 255)) by (apply lxor_u8; by unfold is_u8).
  by rewrite Z.lxor_assoc, Z.lxor_nilpotent, Z.lxor_0_r.
Qed.
#[export] Instance flipCipher : BlockCipher.
Proof.
  refine {| aesE := λ _, flip; aesD := λ _, flip |}; intros.
  - by unfold flip; rewrite length_fmap.
  - by unfold flip; rewrite length_fmap.
  - by apply flip_flip.
  - by apply flip_flip.
  - apply flip_bytes.
  - apply flip_bytes.
Defined.

(** ** Properties *)

(** C34. A stream of messages survives encryption: any sequence of messages, each of any
    length and in a slice with or without spare capacity, encrypted one after the other
    with a mode that keeps its chaining block, is decrypted by the opposite mode with the
    same key and IV to exactly these messages, and the two modes stay in step. Either
    direction may be used to encrypt. *)
Theorem crypt_stream_roundtrip `{BlockCipher} (enc : bool) key iv ss m :
  newMode enc key iv = Some m → is_bytes iv → Forall slice_wf ss →
  ∃ d cs m', newMode (negb enc) key iv = Some d ∧ encAll ss m = Some (cs, m') ∧
    decAll cs d = Some (Ok <$> (contents <$> ss), inverse m').
Proof.
  unfold newMode. case_decide as Hd; [|done]. intros [= <-] Hb Hss.
  destruct (streams_invert ss (mkMode enc key iv) Hss) as (cs & m' & E & _ & Ec).
  - split; [cbn; unfold len, blockSize in Hd; lia|done].
  - by eexists _, cs, m'.
Qed.

Definition demoIV : bytes := replicate 16 7.

Lemma crypt_stream_roundtrip_witness :
  ∃ d cs m', newMode true [] demoIV = Some d ∧
    encAll [mkSlice [1; 2; 3] 3; mkSlice (replicate 40 9) 20; mkSlice [] 0] (mkMode false [] demoIV) = Some (cs, m') ∧
    decAll cs d = Some ([Ok [1; 2; 3]; Ok (replicate 20 9); Ok []], inverse m').
Proof.
  apply (crypt_stream_roundtrip false [] demoIV [mkSlice [1; 2; 3] 3; mkSlice (replicate 40 9) 20; mkSlice [] 0]).
  - reflexivity.
  - dec.
  - repeat constructor; cbn; try lia; unfold is_u8; lia.
Defined.

(** Encrypting in place overwrites the caller's data when its slice has room for the
    padding: the slice passed in then holds the beginning of the ciphertext afterwards.
    Without that room it is left alone. *)
Theorem encrypt_overwrites_source `{BlockCipher} s m :
  slice_wf s → modeOk m →
  ∃ s' c m', EnCrypt s m = Some (s', c, m') ∧
    contents s' = (if decide (length (PKCS7Padding (contents s) blockSize) ≤ length (arr s))%nat
                   then take (sl_len s) c else contents s).
Proof.
  intros Hs Hm. destruct (EnCrypt_DeCrypt s m Hs Hm) as (s' & c & m' & E & _ & _ & _ & Ec). by exists s', c, m'.
Qed.

Lemma encrypt_overwrites_source_witness :
  ∃ s' c m', EnCrypt (mkSlice (replicate 40 9) 3) (mkMode true [] demoIV) = Some (s', c, m') ∧
    contents s' = take 3 c.
Proof.
  destruct (encrypt_overwrites_source (mkSlice (replicate 40 9) 3) (mkMode true [] demoIV)) as (s' & c & m' & E & Ec).
  - split; [cbn; lia|dec].
  - split; [reflexivity|dec].
  - exists s', c, m'. split; [exact E|exact Ec].
Defined.

Lemma pad_slices (l : bytes) p :
  0 ≤ p ≤ len l →
  slice l (len l - p) (len l) = Some (drop (Z.to_nat (len l - p)) l) ∧
  slice l 0 (len l - p) = Some (take (Z.to_nat (len l - p)) l).
Proof.
  intros Hp. set (n := Z.to_nat (len l - p)). pose proof (take_drop n l) as E. split.
  - rewrite <- E at 1. apply slice_suffix; [unfold n; lens|by rewrite E].
  - rewrite <- E at 1. apply slice_prefix. unfold n. lens.
Qed.

Lemma unpad_cases l :
  is_bytes l →
  (∃ e, PKCS7UnPadding l = Some (Err e) ∧ ∀ m p, 1 ≤ p ≤ 255 → l ≠ m ++ replicate (Z.to_nat p) p) ∨
  ∃ m p, PKCS7UnPadding l = Some (Ok m) ∧ 1 ≤ p ≤ 255 ∧ l = m ++ replicate (Z.to_nat p) p.
Proof.
  intros Hb.
  assert (Herr : ∀ e, PKCS7UnPadding l = Some (Err e) → ∃ e, PKCS7UnPadding l = Some (Err e) ∧
            ∀ m p, 1 ≤ p ≤ 255 → l ≠ m ++ replicate (Z.to_nat p) p).
  { intros e He. exists e. split; [done|]. intros m p Hp El. subst l. by rewrite unpad_run in He. }
  destruct (decide (len l = 0)) as [E|E].
  { left. eapply Herr. unfold PKCS7UnPadding. by rewrite decide_True. }
  pose proof (len_nonneg l).
  destruct (lookup_lt_is_Some_2 l (Z.to_nat (len l - 1))) as [p Ep]; [unfold len in *; lia|].
  pose proof (Forall_lookup_1 _ _ _ _ Hb Ep) as Hp. unfold is_u8 in Hp.
  destruct (decide (p > len l ∨ p = 0)) as [Hd|Hd].
  { left. eapply Herr. unfold PKCS7UnPadding. rewrite decide_False, Ep by done. cbn. by rewrite decide_True. }
  destruct (pad_slices l p) as [S1 S2]; [lia|].
  destruct (decide (Forall (λ b, b = u8 p) (drop (Z.to_nat (len l - p)) l))) as [Hf|Hf].
  - right. exists (take (Z.to_nat (len l - p)) l), p. splits; [|lia..|].
    + unfold PKCS7UnPadding. rewrite decide_False, Ep by done. cbn [mbind option_bind]. rewrite decide_False by done.
      rewrite S1. cbn [mbind option_bind]. rewrite decide_True by done. by rewrite S2.
    + rewrite <- (take_drop (Z.to_nat (len l - p)) l) at 1. f_equal. unfold u8 in Hf. rewrite Z.mod_small in Hf by lia.
      replace (Z.to_nat p) with (length (drop (Z.to_nat (len l - p)) l)) by (rewrite length_drop; unfold len in *; lia).
      clear - Hf. induction Hf as [|x t -> _ IH]; [done|]. cbn. by f_equal.
  - left. eapply Herr. unfold PKCS7UnPadding. rewrite decide_False, Ep by done. cbn [mbind option_bind].
    rewrite decide_False by done. rewrite S1. cbn [mbind option_bind]. by rewrite decide_False.
Qed.

(** Unpadding is exact and never panics: on every byte string it succeeds precisely
    when the string ends in a run of [p] bytes of value [p], for some [p] from 1 to 255,
    and then removes that run; in all other cases it reports an error. *)
Theorem unpadding_exact (l : bytes) :
  is_bytes l →
  is_Some (PKCS7UnPadding l) ∧
  ∀ m, PKCS7UnPadding l = Some (Ok m) ↔ ∃ p, 1 ≤ p ≤ 255 ∧ l = m ++ replicate (Z.to_nat p) p.
Proof.
  intros Hb. destruct (unpad_cases l Hb) as [(e & E & Hno)|(m & p & E & Hp & El)]; (split; [by rewrite E|]); intros m'.
  - rewrite E. split; [done|]. intros (p & Hp & El). by destruct (Hno m' p Hp).
  - split; [rewrite E; intros [= <-]; by exists p|]. intros (p' & Hp' & ->). by apply unpad_run.
Qed.

Lemma unpadding_exact_witness :
  is_Some (PKCS7UnPadding [5; 2; 3]) ∧ PKCS7UnPadding [5; 2; 2] = Some (Ok [5]).
Proof.
  split; [apply (unpadding_exact [5; 2; 3]); dec|].
  apply (proj2 (unpadding_exact [5; 2; 2] ltac:(dec))). exists 2. split; [lia|reflexivity].
Defined.

Lemma getBlock_Init key iv s s' : aes_Init key iv s = (s', None) →
  ∃ k, getBlock s' = (Some k, s') ∧ len (aesIV s') = blockSize.
Proof.
  unfold aes_Init. destruct (keyOk _); [|done]. case_decide as Hd; [done|]. intros [= <-].
  eexists. cbn. split; [done|lia].
Qed.

(** Single encryptions decrypt: after any successful [Init], every non-empty byte
    string encrypts to whole blocks that decrypt to it again, while the empty string
    encrypts to nothing, which does not decrypt. A failed [Init] has already replaced the
    IV: with one of the wrong length, the next encryption panics. *)
Theorem crypt_once_roundtrip `{BlockCipher} key iv s s' :
  aes_Init key iv s = (s', None) → is_bytes (aesIV s') →
  (∀ src, is_bytes src → src ≠ [] →
     ∃ c, EnCryptOnce src s' = Some (c, s') ∧ DeCryptOnce c s' = Some (Ok src, s')) ∧
  (EnCryptOnce [] s' = Some ([], s') ∧ DeCryptOnce [] s' = Some (Err (ErrMsg "invalid ciphertext length"), s')) ∧
  (∀ badIV x, badIV ≠ [] → len badIV ≠ blockSize →
     (aes_Init [] badIV s').2 ≠ None ∧ EnCryptOnce (x :: []) (aes_Init [] badIV s').1 = None).
Proof.
  intros Hi Hb. destruct (getBlock_Init _ _ _ _ Hi) as (k & Eg & Hl). splits.
  - intros src Hs Hne. unfold EnCryptOnce, DeCryptOnce. rewrite decide_False by (intros E%len_0_nil; done).
    rewrite Eg. cbn [mbind option_bind]. unfold newMode. rewrite decide_True by done. cbn [mbind option_bind].
    destruct (CryptBlocks_inverse (PKCS7Padding src blockSize) (mkMode true k (aesIV s'))) as (c & m' & E & _ & Hlc & _ & Ed);
      [by apply padding_bytes|apply padding_whole|split; [cbn; unfold len, blockSize in Hl; lia|done]|].
    rewrite E. cbn [mbind option_bind]. exists c. split; [done|].
    assert (Elen : len c = len (PKCS7Padding src blockSize)) by (unfold len; by rewrite Hlc).
    rewrite decide_False.
    + unfold inverse in Ed. cbn in Ed. rewrite decide_True by done. cbn [mbind option_bind]. rewrite Ed. cbn [mbind option_bind]. rewrite unpad_pad. done.
    + rewrite Elen, padding_whole. intros [Hx|Hx]; [|done]. unfold PKCS7Padding in Hx. pose proof (padding_range src). lens.
  - done.
  - unfold DeCryptOnce. by rewrite Eg.
  - intros badIV x Hn Hlen. unfold aes_Init. destruct (decide (badIV = [])); [done|]. destruct (decide (([] : bytes) = [])); [|done].
    assert (Hp : ∀ st, aesIV st = badIV → EnCryptOnce [x] st = None).
    { intros st Est. unfold EnCryptOnce. rewrite decide_False by done. unfold getBlock.
      destruct (globalBlock st); cbn [mbind option_bind]; [unfold newMode; by rewrite Est, decide_False|].
      destruct (keyOk (aesKey st)); cbn [mbind option_bind aesIV]; [unfold newMode; by rewrite Est, decide_False|done]. }
    destruct (keyOk (aesKey s')); [rewrite decide_True by done|]; (split; [done|by apply Hp]).
Qed.

Lemma crypt_once_roundtrip_witness :
  ∃ c, EnCryptOnce [1; 2; 3] (aes_Init [] [] aesDefaults).1 = Some (c, (aes_Init [] [] aesDefaults).1) ∧
    DeCryptOnce c (aes_Init [] [] aesDefaults).1 = Some (Ok [1; 2; 3], (aes_Init [] [] aesDefaults).1).
Proof.
  destruct (crypt_once_roundtrip [] [] aesDefaults (aes_Init [] [] aesDefaults).1) as [T _]; [reflexivity|dec|].
  apply T; [dec|discriminate].
Defined.

(** The key exchange agrees: for all secrets, both sides compute the same key from
    their own secret and the other's public key. The modulus, however, is no prime but
    even, and with base 2 every public key and every shared key of positive secrets is
    even too. *)
Theorem dh_agrees (a b : Z) :
  0 ≤ a → 0 ≤ b →
  GetKey (Exchange a).1 (Exchange b).2 = GetKey (Exchange b).1 (Exchange a).2 ∧
  (0 < a → Z.even (Exchange a).2 = true ∧ (0 < b → Z.even (GetKey (Exchange b).1 (Exchange a).2) = true)).
Proof.
  intros Ha Hb. unfold GetKey, Exchange, bigExp. cbn [fst snd]. split.
  - rewrite !Z.mod_pow_l, <- !Z.pow_mul_r by done. by rewrite Z.mul_comm.
  - assert (Heven : ∀ x, Z.even (x mod dh_p) = Z.even x).
    { intros x. rewrite (Z.div_mod x dh_p) at 2 by done. rewrite Z.even_add, Z.even_mul. cbn. by destruct (Z.even _). }
    intros Ha'. split; [by rewrite Heven, Z.even_pow by lia|]. intros Hb'.
    by rewrite Heven, Z.even_pow, Heven, Z.even_pow by lia.
Qed.

Lemma dh_agrees_witness : GetKey 6 (Exchange 15).2 = GetKey 15 (Exchange 6).2.
Proof. apply (dh_agrees 6 15); lia. Defined.
