(* ===== verification/Rand.v ===== *)
(** * pkg/util/rand.go: random choices

    The random source of [math/rand/v2] is an argument: a function that answers every
    bound it is given with a number below it, or the number it returned. *)

From S2P Require Import Prelude.

(** ** Choice by weight *)

Section Weighted.
Context {T : Type} (zero : T).

Record data := mkData { Weight : Z; Value : T }.
Record RandByWeight := mkRBW { datas : list data; rbw_max : Z }.

Definition NewRandByWeight : RandByWeight := mkRBW [] 0.

Definition Valid (r : RandByWeight) : bool := bool_decide (len (datas r) > 0 ∧ rbw_max r > 0).

(** [copy] into a new slice: later changes of either are not seen by the other. *)
Definition Clone (r : RandByWeight) : RandByWeight := mkRBW (datas r) (rbw_max r).

Definition rbw_Add (weight : Z) (v : T) (r : RandByWeight) : RandByWeight :=
  if decide (weight ≤ 0) then r
  else mkRBW (datas r ++ [mkData weight v]) (i64 (rbw_max r + weight)).

(** The loops: the index and value of the first entry whose cumulated weight exceeds
    [rate]. *)
Fixpoint findWeight (ds : list data) (i : nat) (cr rate : Z) : option (nat * T) :=
  match ds with
  | [] => None
  | v :: ds => let cr := i64 (cr + Weight v) in
               if decide (cr > rate) then Some (i, Value v) else findWeight ds (S i) cr rate
  end.

Definition errNotValid : gerror := ErrMsg "randByWeight: not valid".
Definition errEmpty : gerror := ErrMsg "RandByWeight empty".

(** [rate] is [rand.Int64N(r.max)]. *)
Definition rbw_Get (rate : Z) (r : RandByWeight) : result T :=
  if Valid r then
    match findWeight (datas r) 0 0 rate with Some (_, v) => Ok v | None => Err errEmpty end
  else Err errNotValid.

(** [r.datas[i] = r.datas[lastIdx]; r.datas = r.datas[:lastIdx]]. *)
Definition removeSwap {A} (i : nat) (l : list A) : list A :=
  match last l with
  | Some x => take (length l - 1) (<[i := x]> l)
  | None => l
  end.

Definition GetAndDelete (rate : Z) (r : RandByWeight) : RandByWeight * result T :=
  if Valid r then
    match findWeight (datas r) 0 0 rate with
    | Some (i, v) =>
        (mkRBW (removeSwap i (datas r))
           (i64 (rbw_max r - match datas r !! i with Some d => Weight d | None => 0 end)), Ok v)
    | None => (r, Err errEmpty)
    end
  else (r, Err errNotValid).

(** ** The reference: every value written down as often as its weight says *)

Definition expand (ds : list data) : list T := ds ≫= λ d, replicate (Z.to_nat (Weight d)) (Value d).

Definition total (ds : list data) : Z := Z.of_nat (length (expand ds)).

(** Positive weights that fit [int32], fewer than [2 ^ 31] entries. *)
Definition rbw_ok (r : RandByWeight) : Prop :=
  Forall (λ d, 0 < Weight d < 2 ^ 31) (datas r) ∧ len (datas r) < 2 ^ 31 ∧ rbw_max r = total (datas r).

Lemma total_cons d ds : 0 ≤ Weight d → total (d :: ds) = Weight d + total ds.
Proof.
  intros. unfold total, expand. cbn [mbind list_bind]. rewrite length_app, length_replicate. lia.
Qed.
Lemma total_app ds ds' : total (ds ++ ds') = total ds + total ds'.
Proof. unfold total, expand. rewrite bind_app, length_app. lia. Qed.

Lemma total_bound ds : Forall (λ d, 0 < Weight d < 2 ^ 31) ds → 0 ≤ total ds ≤ len ds * 2 ^ 31.
Proof.
  induction 1 as [|d ds Hd _ IH]; [done|]. rewrite total_cons by lia. lens.
Qed.

Lemma total_pos ds : Forall (λ d, 0 < Weight d < 2 ^ 31) ds → ds ≠ [] → 0 < total ds.
Proof.
  intros Hf Hn. destruct Hf as [|d ds Hd Hf]; [done|]. rewrite total_cons by lia. pose proof (total_bound ds Hf). lia.
Qed.

Lemma rbw_ok_small r : rbw_ok r → 0 ≤ total (datas r) < 2 ^ 62 + 1.
Proof.
  intros (Hf & Hl & _). pose proof (total_bound _ Hf). nia.
Qed.

Lemma Valid_ok r : rbw_ok r → Valid r = bool_decide (datas r ≠ []).
Proof.
  intros (Hf & Hl & Hm). unfold Valid. apply bool_decide_ext. rewrite Hm. split.
  - intros [H _] E. rewrite E in H. done.
  - intros Hn. split; [|pose proof (total_pos _ Hf Hn); lia].
    destruct (datas r); [done|]. lens.
Qed.

Lemma rbw_Add_ok w v r :
  is_i32 w → len (datas r) + 1 < 2 ^ 31 → rbw_ok r → rbw_ok (rbw_Add w v r).
Proof.
  intros Hw Hl Hok. pose proof (rbw_ok_small r Hok) as Hs. destruct Hok as (Hf & _ & Hm). unfold rbw_Add.
  case_decide; [unfold rbw_ok; splits; [done|lia|done]|]. unfold rbw_ok. cbn [datas rbw_max]. unfold is_i32 in *. splits.
  - apply Forall_app. split; [done|]. constructor; [cbn; lia|constructor].
  - lens.
  - rewrite total_app, total_cons by (cbn; lia). change (total []) with 0. cbn [Weight]. unfold i64.
    rewrite Hm, Z.mod_small; lia.
Qed.

(** The loop finds the entry that covers the position. *)
Lemma findWeight_spec ds i cr rate :
  Forall (λ d, 0 < Weight d < 2 ^ 31) ds → 0 ≤ cr ≤ rate → cr + total ds < 2 ^ 63 →
  match findWeight ds i cr rate with
  | Some (j, v) => ∃ k d, j = (i + k)%nat ∧ ds !! k = Some d ∧ Value d = v ∧ expand ds !! Z.to_nat (rate - cr) = Some v ∧
                     rate < cr + total ds
  | None => rate >= cr + total ds
  end.
Proof.
  intros Hf. revert i cr. induction Hf as [|d ds Hd Hf IH]; intros i cr Hcr Hb.
  { cbn [findWeight]. unfold total, expand. cbn. lia. }
  cbn [findWeight]. rewrite total_cons in * by lia. pose proof (total_bound ds Hf).
  assert (Ei : i64 (cr + Weight d) = cr + Weight d) by (unfold i64; rewrite Z.mod_small; lia). rewrite Ei.
  unfold expand. cbn [mbind list_bind]. fold (expand ds). case_decide as Hlt.
  - exists 0%nat, d. splits; [lia|done|done| |lia]. rewrite lookup_app_l by (rewrite length_replicate; lia).
    apply lookup_replicate_2. lia.
  - specialize (IH (S i) (cr + Weight d) ltac:(lia) ltac:(lia)).
    destruct (findWeight ds (S i) (cr + Weight d) rate) as [[j v]|]; [|lia].
    destruct IH as (k & d' & -> & Hk & Hv & He & Hlt'). exists (S k), d'. splits; [lia|done|done| |lia].
    rewrite lookup_app_r by (rewrite length_replicate; lia). rewrite length_replicate.
    rewrite <- He. f_equal. lia.
Qed.

End Weighted.
Arguments data : clear implicits.
Arguments RandByWeight : clear implicits.

(** ** Choice without repetition *)

Section Unique.
Context {T : Type}.

Abbreviation RandUnique := (list T).

Definition NewRandUnique (values : list T) : RandUnique := values.
Definition ru_Add (v : T) (r : RandUnique) : RandUnique := r ++ [v].
(** [cur] is [rand.IntN(n)]; [None]: an index out of range. *)
Definition ru_Get (cur : nat) (r : RandUnique) : option (RandUnique * result T) :=
  if decide (length r = 0%nat) then Some (r, Err (ErrMsg "RandUnique empty"))
  else ret ← r !! cur; Some (removeSwap cur r, Ok ret).
Definition ru_Reset (values : list T) (r : RandUnique) : RandUnique := values.
Definition Remain (r : RandUnique) : Z := len r.

Lemma removeSwap_Permutation {A} i (l : list A) x : l !! i = Some x → x :: removeSwap i l ≡ₚ l.
Proof.
  intros Hi. unfold removeSwap. destruct l as [|y l] using rev_ind; [done|]. clear IHl. rewrite last_snoc.
  rewrite length_app. cbn [length]. replace (length l + 1 - 1)%nat with (length l) by lia.
  destruct (decide (i < length l)%nat) as [Hlt|Hge].
  - rewrite lookup_app_l in Hi by done. rewrite insert_app_l, take_app_length' by (done || by rewrite length_insert).
    rewrite (insert_take_drop l i y) by done.
    rewrite <- (take_drop_middle l i x Hi) at 3. solve_Permutation.
  - apply lookup_lt_Some in Hi as Hl. rewrite length_app in Hl. cbn in Hl. assert (i = length l) as -> by lia.
    rewrite list_lookup_middle in Hi by done. simplify_eq. rewrite insert_app_r_alt by lia.
    rewrite take_app_length. solve_Permutation.
Qed.

Lemma length_removeSwap {A} i (l : list A) : length (removeSwap i l) = (length l - 1)%nat.
Proof.
  unfold removeSwap. destruct (last l) eqn:E; [rewrite length_take, length_insert; lia|].
  apply last_None in E as ->. done.
Qed.

End Unique.

(** ** Ranges *)

(** A Go integer type: its width and whether it is signed. *)
Record gint := mkInt { gi_bits : Z; gi_signed : bool }.
#[export] Instance gint_eq_dec : EqDecision gint.
Proof. solve_decision. Defined.
Definition gints : list gint :=
  [mkInt 8 true; mkInt 16 true; mkInt 32 true; mkInt 64 true; mkInt 8 false; mkInt 16 false; mkInt 32 false; mkInt 64 false].

Definition inType (t : gint) (z : Z) : Prop :=
  if gi_signed t then - 2 ^ (gi_bits t - 1) ≤ z < 2 ^ (gi_bits t - 1) else 0 ≤ z < 2 ^ gi_bits t.

(** The conversion [T(z)]. *)
Definition conv (t : gint) (z : Z) : Z :=
  if gi_signed t then (z + 2 ^ (gi_bits t - 1)) mod 2 ^ gi_bits t - 2 ^ (gi_bits t - 1) else z mod 2 ^ gi_bits t.

Definition MaxRate : Z := 10000.
(** [draw] is [rand.N(10000)]. *)
Definition Happen (v draw : Z) : bool :=
  if decide (v ≤ 0) then false
  else let val := u64 v in if decide (val >= MaxRate) then true else bool_decide (draw < val).

(** The bounds in order, and [uint64(max) - uint64(min)]. *)
Definition ordered (min max : Z) : Z * Z := if decide (min > max) then (max, min) else (min, max).
Definition rangeDiff (min max : Z) : Z := u64 (u64 max - u64 min).

(** [rand.N] on [uint64]: [N n] is what the source answers to the bound [n]; a bound of 0
    panics. The library promises a number below the bound. *)
Definition rand_N (N : Z → Z) (n : Z) : option Z := if decide (n ≤ 0) then None else Some (N n).
Definition lawful (N : Z → Z) : Prop := ∀ n, 0 < n → 0 ≤ N n < n.

Definition RandRange (t : gint) (N : Z → Z) (min max : Z) : option Z :=
  if decide (min = max) then Some min
  else
    let '(min, max) := ordered min max in
    draw ← rand_N N (rangeDiff min max);
    Some (conv t (u64 (u64 min + draw))).

(** [Uint64] is what [rand.Uint64()] answers. *)
Definition RandRangeInc (t : gint) (N : Z → Z) (Uint64 : Z) (min max : Z) : option Z :=
  if decide (min = max) then Some min
  else
    let '(min, max) := ordered min max in
    if decide (rangeDiff min max = 2 ^ 64 - 1) then Some (conv t Uint64)
    else draw ← rand_N N (u64 (rangeDiff min max + 1)); Some (conv t (u64 (u64 min + draw))).

(** ** Drawing everything *)

Section Draws.
Context {T : Type}.

Lemma total_Permutation (ds ds' : list (data T)) : ds ≡ₚ ds' → total ds = total ds'.
Proof.
  unfold total, expand. induction 1 as [|d l l' _ IH|d d' l|l1 l2 l3 _ IH1 _ IH2]; cbn; rewrite ?length_app in *; lia.
Qed.

Lemma GetAndDelete_ok rate (r : RandByWeight T) :
  rbw_ok r → datas r ≠ [] → 0 ≤ rate < rbw_max r →
  ∃ d r', GetAndDelete rate r = (r', Ok (Value d)) ∧ rbw_ok r' ∧ d :: datas r' ≡ₚ datas r ∧
    rbw_Get rate r = Ok (Value d).
Proof.
  intros Hok Hne Hr. pose proof (rbw_ok_small r Hok) as Hs. unfold GetAndDelete, rbw_Get.
  rewrite (Valid_ok r Hok), bool_decide_true by done. destruct Hok as (Hf & Hl & Hm).
  pose proof (findWeight_spec (datas r) 0 0 rate Hf ltac:(lia) ltac:(lia)) as Hw.
  destruct (findWeight (datas r) 0 0 rate) as [[j v]|]; [|lia].
  destruct Hw as (k & d & -> & Hk & <- & _). cbn [Nat.add]. rewrite Hk.
  pose proof (removeSwap_Permutation k (datas r) d Hk) as Hp. pose proof (Forall_lookup_1 _ _ _ _ Hf Hk) as Hd. cbn in Hd.
  eexists d, _. splits; [done| |exact Hp|done]. unfold rbw_ok. cbn [datas rbw_max].
  assert (Hf' : Forall (λ d, 0 < Weight d < 2 ^ 31) (d :: removeSwap k (datas r))) by (by rewrite Hp).
  apply Forall_cons in Hf' as [_ Hf']. splits; [done| |].
  - unfold len in *. rewrite length_removeSwap. lia.
  - apply total_Permutation in Hp. rewrite total_cons in Hp by lia. pose proof (total_bound _ Hf').
    unfold i64. rewrite Z.mod_small; lia.
Qed.

(** [n] draws, the source choosing below the bound it is given. *)
Fixpoint drawWeighted (n : nat) (choose : Z → Z) (r : RandByWeight T) : RandByWeight T * list (result T) :=
  match n with
  | O => (r, [])
  | S n => let '(r, v) := GetAndDelete (choose (rbw_max r)) r in
           let '(r, vs) := drawWeighted n choose r in (r, v :: vs)
  end.

Lemma drawWeighted_ok n choose (r : RandByWeight T) :
  (∀ m, 0 < m → 0 ≤ choose m < m) → rbw_ok r → length (datas r) = n →
  ∃ vs, drawWeighted n choose r = (mkRBW [] 0, Ok <$> vs) ∧ vs ≡ₚ Value <$> datas r.
Proof.
  intros Hc. revert r. induction n as [|n IH]; intros r Hok Hn.
  { destruct r as [ds mx], Hok as (_ & _ & Hm). destruct ds; [|done]. exists []. cbn in *. subst mx. done. }
  assert (Hne : datas r ≠ []) by (by destruct (datas r)). cbn [drawWeighted].
  assert (Hmx : 0 < rbw_max r) by (destruct Hok as (Hf & _ & ->); by apply total_pos).
  destruct (GetAndDelete_ok (choose (rbw_max r)) r Hok Hne (Hc _ Hmx)) as (d & r' & -> & Hok' & Hp & _).
  destruct (IH r' Hok') as (vs & -> & Hvs).
  { apply Permutation_length in Hp. cbn in Hp. lia. }
  exists (Value d :: vs). split; [done|]. by rewrite Hvs, <- Hp.
Qed.

Fixpoint drawUnique (n : nat) (choose : Z → Z) (r : list T) : option (list T * list (result T)) :=
  match n with
  | O => Some (r, [])
  | S n => '(r, v) ← ru_Get (Z.to_nat (choose (len r))) r; '(r, vs) ← drawUnique n choose r; Some (r, v :: vs)
  end.

Lemma drawUnique_ok n choose (r : list T) :
  (∀ m, 0 < m → 0 ≤ choose m < m) → length r = n →
  ∃ vs, drawUnique n choose r = Some ([], Ok <$> vs) ∧ vs ≡ₚ r.
Proof.
  intros Hc. revert r. induction n as [|n IH]; intros r Hn.
  { destruct r; [|done]. by exists []. }
  cbn [drawUnique]. unfold ru_Get. rewrite decide_False by lia.
  destruct (lookup_lt_is_Some_2 r (Z.to_nat (choose (len r)))) as [x Hx].
  { pose proof (Hc (len r)). unfold len in *. lia. }
  rewrite Hx. cbn [mbind option_bind]. pose proof (removeSwap_Permutation _ r x Hx) as Hp.
  destruct (IH (removeSwap (Z.to_nat (choose (len r))) r)) as (vs & E & Hvs).
  { rewrite length_removeSwap. lia. }
  rewrite E. cbn [mbind option_bind]. exists (x :: vs). split; [done|]. by rewrite Hvs.
Qed.

(** The table built by additions, and the reference built from the same. *)
Definition addAll (adds : list (Z * T)) (r : RandByWeight T) : RandByWeight T :=
  fold_left (λ r a, rbw_Add a.1 a.2 r) adds r.
Definition reference (adds : list (Z * T)) : list T := adds ≫= λ a, replicate (Z.to_nat a.1) a.2.

Lemma addAll_ok adds (r : RandByWeight T) :
  Forall (λ a, is_i32 a.1) adds → len (datas r) + len adds < 2 ^ 31 → rbw_ok r →
  rbw_ok (addAll adds r) ∧ expand (datas (addAll adds r)) = expand (datas r) ++ reference adds.
Proof.
  intros Hf. revert r. induction Hf as [|[w v] adds Hw _ IH]; intros r Hl Hok.
  { split; [done|]. cbn. by rewrite app_nil_r. }
  change (addAll ((w, v) :: adds) r) with (addAll adds (rbw_Add w v r)).
  change (reference ((w, v) :: adds)) with (replicate (Z.to_nat w) v ++ reference adds).
  cbn in Hw. pose proof (len_nonneg adds).
  assert (Hd : expand (datas (rbw_Add w v r)) = expand (datas r) ++ replicate (Z.to_nat w) v).
  { unfold rbw_Add. case_decide.
    - replace (Z.to_nat w) with 0%nat by lia. cbn. by rewrite app_nil_r.
    - cbn [datas]. unfold expand. rewrite bind_app. cbn. by rewrite app_nil_r. }
  assert (Hlen : len (datas (rbw_Add w v r)) ≤ len (datas r) + 1).
  { unfold rbw_Add. case_decide; cbn [datas]; lens. }
  destruct (IH (rbw_Add w v r)) as [H1 H2].
  - lens.
  - apply rbw_Add_ok; [done|lens|done].
  - split; [done|]. rewrite H2, Hd. by rewrite <- app_assoc.
Qed.

Lemma empty_rbw_ok : rbw_ok (NewRandByWeight (T := T)).
Proof. unfold rbw_ok, NewRandByWeight. cbn. splits; [by apply Forall_nil|done|done]. Qed.

End Draws.

(** ** Properties *)

(** Weighted choice is the choice of a position in the list in which every value is
    written as often as its weight says: for every sequence of additions (weights that
    are not positive are ignored), the table's bound is the length of that list, and a
    draw [rate] below it returns the value at position [rate], so each value is returned
    for exactly as many draws as its weight; an empty table reports an error. *)
Theorem weighted_choice_equiv {T} (adds : list (Z * T)) :
  Forall (λ a, is_i32 a.1) adds → len adds < 2 ^ 31 →
  let r := addAll adds NewRandByWeight in
  rbw_max r = len (reference adds) ∧
  (∀ rate, 0 ≤ rate < rbw_max r → ∃ v, reference adds !! Z.to_nat rate = Some v ∧ rbw_Get rate r = Ok v) ∧
  (reference adds = [] → ∀ rate, rbw_Get rate r = Err errNotValid).
Proof.
  intros Hf Hl r. destruct (addAll_ok adds NewRandByWeight Hf) as [Hok He]; [exact Hl|apply empty_rbw_ok|].
  cbn [datas NewRandByWeight] in He. change (expand (T:=T) []) with (@nil T) in He. cbn [app] in He. fold r in Hok, He.
  pose proof (rbw_ok_small r Hok) as Hs. pose proof (Valid_ok r Hok) as Hv. destruct Hok as (Hw & Hlen & Hm). splits.
  - rewrite Hm. unfold total. by rewrite He.
  - intros rate Hr. pose proof (findWeight_spec (datas r) 0 0 rate Hw ltac:(lia) ltac:(lia)) as Hx.
    unfold rbw_Get. rewrite Hv, bool_decide_true.
    + destruct (findWeight (datas r) 0 0 rate) as [[j v]|]; [|lia]. destruct Hx as (k & d & _ & _ & _ & Hx & _).
      rewrite Z.sub_0_r, He in Hx. by exists v.
    + intros E. rewrite E in Hm. change (total []) with 0 in Hm. lia.
  - intros E0 rate. unfold rbw_Get. rewrite Hv, bool_decide_false; [done|]. intros Hn. apply Hn.
    destruct (datas r) as [|d ds] eqn:Ed; [done|]. pose proof (total_pos _ Hw Hn) as Hp. unfold total in Hp.
    rewrite He, E0 in Hp. done.
Qed.

Lemma weighted_choice_equiv_witness :
  rbw_Get 1 (addAll [(2, "a"); (0, "x"); (1, "b")] NewRandByWeight) = Ok "a" ∧
  rbw_Get 2 (addAll [(2, "a"); (0, "x"); (1, "b")] NewRandByWeight) = Ok "b".
Proof.
  destruct (weighted_choice_equiv [(2, "a"); (0, "x"); (1, "b")]) as (_ & H & _);
    [repeat constructor; cbn; lia|unfold len; cbn; lia|].
  destruct (H 1 ltac:(vm_compute; done)) as (v1 & E1 & F1). destruct (H 2 ltac:(vm_compute; done)) as (v2 & E2 & F2).
  rewrite F1, F2. vm_compute in E1, E2. split; congruence.
Defined.

(** Draws without repetition: however the random source chooses, drawing a weighted
    table empty with [GetAndDelete], or a [RandUnique] with [Get], never fails, returns
    every value exactly as often as it was put in, and leaves nothing; a further draw is
    an error. *)
Theorem draws_are_permutations {T} (choose : Z → Z) (adds : list (Z * T)) (values : list T) :
  (∀ m, 0 < m → 0 ≤ choose m < m) → Forall (λ a, is_i32 a.1) adds → len adds < 2 ^ 31 →
  (let r := addAll adds NewRandByWeight in
   ∃ vs, drawWeighted (length (datas r)) choose r = (mkRBW [] 0, Ok <$> vs) ∧ vs ≡ₚ Value <$> datas r ∧
     ∀ rate, (GetAndDelete rate (mkRBW (T := T) [] 0)).2 = Err errNotValid) ∧
  (∃ vs, drawUnique (length values) choose (NewRandUnique values) = Some ([], Ok <$> vs) ∧ vs ≡ₚ values ∧
     ∀ cur, ru_Get (T := T) cur [] = Some ([], Err (ErrMsg "RandUnique empty"))).
Proof.
  intros Hc Hf Hl. split.
  - intros r. destruct (addAll_ok adds NewRandByWeight Hf) as [Hok _]; [exact Hl|apply empty_rbw_ok|].
    destruct (drawWeighted_ok (length (datas r)) choose r Hc Hok eq_refl) as (vs & E & Hp). by exists vs.
  - destruct (drawUnique_ok (length values) choose values Hc eq_refl) as (vs & E & Hp). by exists vs.
Qed.

Lemma draws_are_permutations_witness :
  ∃ vs, drawUnique 3 (λ m, m - 1) ["a"; "b"; "c"] = Some ([], Ok <$> vs) ∧ vs ≡ₚ ["a"; "b"; "c"].
Proof.
  destruct (draws_are_permutations (λ m, m - 1) [(2, "a"); (1, "b")] ["a"; "b"; "c"]) as [_ (vs & E & Hp & _)].
  - intros m Hm. lia.
  - repeat constructor; cbn; lia.
  - unfold len. cbn. lia.
  - exists vs. split; [exact E|exact Hp].
Defined.

(** Conversions to and from [uint64] cancel on the values of every type. *)
Lemma conv_u64 t z : t ∈ gints → inType t z → conv t (u64 z) = z.
Proof.
  unfold gints, u64. rewrite !elem_of_cons, elem_of_nil. intros Ht Hz.
  destruct Ht as [-> |[-> |[-> |[-> |[-> |[-> |[-> |[-> |[]]]]]]]]]; unfold conv, inType in *; cbn [gi_bits gi_signed] in *;
    width; Z.div_mod_to_equations; lia.
Qed.

Lemma inType_between t a b z : inType t a → inType t b → a ≤ z ≤ b → inType t z.
Proof. unfold inType. destruct (gi_signed t); lia. Qed.

Lemma inType_64 t z : t ∈ gints → inType t z → - 2 ^ 63 ≤ z < 2 ^ 64.
Proof.
  unfold gints. rewrite !elem_of_cons, elem_of_nil. intros Ht Hz.
  destruct Ht as [-> |[-> |[-> |[-> |[-> |[-> |[-> |[-> |[]]]]]]]]]; unfold inType in *; cbn [gi_bits gi_signed] in *; lia.
Qed.

Lemma u64_add a b : u64 (u64 a + b) = u64 (a + b).
Proof. unfold u64. apply Zplus_mod_idemp_l. Qed.

Lemma rangeDiff_eq t a b : t ∈ gints → inType t a → inType t b → a < b → rangeDiff a b = b - a.
Proof.
  intros Ht Ha Hb Hlt. pose proof (inType_64 t a Ht Ha). pose proof (inType_64 t b Ht Hb).
  unfold rangeDiff, u64. rewrite <- Zminus_mod. apply Z.mod_small.
  enough (b - a < 2 ^ 64) by lia. revert Ht Ha Hb. unfold gints. rewrite !elem_of_cons, elem_of_nil. intros Ht.
  destruct Ht as [-> |[-> |[-> |[-> |[-> |[-> |[-> |[-> |[]]]]]]]]]; unfold inType; cbn [gi_bits gi_signed]; lia.
Qed.

(** The only types whose whole range spans 64 bits have 64 bits. *)
Lemma full_range t a b : t ∈ gints → inType t a → inType t b → b - a = 2 ^ 64 - 1 →
  (∀ z, inType t z ↔ a ≤ z ≤ b) ∧ ∀ d, 0 ≤ d < 2 ^ 64 → inType t (conv t d) ∧ u64 (conv t d) = d.
Proof.
  unfold gints. rewrite !elem_of_cons, elem_of_nil. intros Ht Ha Hb Hd.
  destruct Ht as [-> |[-> |[-> |[-> |[-> |[-> |[-> |[-> |[]]]]]]]]]; unfold inType in *; cbn [gi_bits gi_signed] in *; try lia.
  - split; [lia|]. intros d Hd'. unfold conv, u64. cbn [gi_bits gi_signed]. change (64 - 1) with 63 in *. split.
    + pose proof (Z.mod_pos_bound (d + 2 ^ 63) (2 ^ 64)). lia.
    + rewrite Zminus_mod_idemp_l. replace (d + 2 ^ 63 - 2 ^ 63) with d by lia. by apply Z.mod_small.
  - split; [lia|]. intros d Hd'. unfold conv, u64. cbn [gi_bits gi_signed]. rewrite !(Z.mod_small d) by done. lia.
Qed.

(** The two functions on bounds that differ. *)
Lemma range_draws t N U min max lo hi :
  t ∈ gints → inType t min → inType t max → min ≠ max → ordered min max = (lo, hi) → lawful N →
  lo < hi ∧ RandRange t N min max = Some (lo + N (hi - lo)) ∧
  (hi - lo ≠ 2 ^ 64 - 1 → RandRangeInc t N U min max = Some (lo + N (hi - lo + 1))) ∧
  (hi - lo = 2 ^ 64 - 1 → RandRangeInc t N U min max = Some (conv t U)).
Proof.
  intros Ht H1 H2 Hne Eo HN.
  assert (Ho : inType t lo ∧ inType t hi ∧ lo < hi).
  { unfold ordered in Eo. case_decide; simplify_eq; splits; done || lia. }
  destruct Ho as (Hlo & Hhi & Hlt). pose proof (rangeDiff_eq t lo hi Ht Hlo Hhi Hlt) as Hdf.
  assert (Hu : 0 ≤ rangeDiff lo hi < 2 ^ 64) by apply u64_range.
  assert (Hc : ∀ d, 0 ≤ d ≤ hi - lo → conv t (u64 (u64 lo + d)) = lo + d).
  { intros d Hd. rewrite u64_add. apply conv_u64; [done|]. apply (inType_between t lo hi); done || lia. }
  unfold RandRange, RandRangeInc, rand_N. rewrite !decide_False, Eo, Hdf by done. splits; [done|..].
  - rewrite decide_False by lia. cbn. pose proof (HN (hi - lo) ltac:(lia)). by rewrite Hc by lia.
  - intros Hn. rewrite decide_False by done. assert (u64 (hi - lo + 1) = hi - lo + 1) as -> by (unfold u64; apply Z.mod_small; lia).
    rewrite decide_False by lia. cbn. pose proof (HN (hi - lo + 1) ltac:(lia)). by rewrite Hc by lia.
  - intros E. by rewrite decide_True.
Qed.

(** C35. Random numbers of a range, for every Go integer type and all bounds, in either
    order: [RandRange] can return exactly the numbers from the smaller bound up to but
    without the larger, [RandRangeInc] exactly those up to and including it, also when the
    range is that of a whole 64-bit type, where the difference of the bounds overflows;
    with equal bounds both return them. Neither panics, and different answers of the
    source (a number below the bound it is given) give different numbers. *)
Theorem rand_range_exact (t : gint) (min max : Z) :
  t ∈ gints → inType t min → inType t max →
  let '(lo, hi) := ordered min max in
  (min = max → ∀ N U, RandRange t N min max = Some min ∧ RandRangeInc t N U min max = Some min) ∧
  (min ≠ max →
     (∀ z, (∃ N, lawful N ∧ RandRange t N min max = Some z) ↔ lo ≤ z < hi) ∧
     (∀ z, (∃ N U, lawful N ∧ is_u64 U ∧ RandRangeInc t N U min max = Some z) ↔ lo ≤ z ≤ hi) ∧
     ∀ N N' U U', lawful N → lawful N' → is_u64 U → is_u64 U' →
       is_Some (RandRange t N min max) ∧ is_Some (RandRangeInc t N U min max) ∧
       (RandRange t N min max = RandRange t N' min max → N (hi - lo) = N' (hi - lo)) ∧
       (RandRangeInc t N U min max = RandRangeInc t N' U' min max →
          if decide (hi - lo = 2 ^ 64 - 1) then U = U' else N (hi - lo + 1) = N' (hi - lo + 1))).
Proof.
  intros Ht H1 H2. destruct (ordered min max) as [lo hi] eqn:Eo. split.
  { intros -> N U. unfold RandRange, RandRangeInc. by rewrite !decide_True. }
  intros Hne. pose proof (λ N U, range_draws t N U min max lo hi Ht H1 H2 Hne Eo) as Hd.
  assert (Hfix : ∀ d m, 0 ≤ d < m → ∃ N, lawful N ∧ N m = d).
  { intros d m Hm. exists (λ n, if decide (n = m) then d else 0). split; [|by rewrite decide_True].
    intros n Hn. case_decide; subst; lia. }
  assert (Hfull : hi - lo = 2 ^ 64 - 1 → (∀ z, inType t z ↔ lo ≤ z ≤ hi) ∧ ∀ d, 0 ≤ d < 2 ^ 64 → inType t (conv t d) ∧ u64 (conv t d) = d).
  { intros E. apply full_range; [done|unfold ordered in Eo; case_decide; by simplify_eq..|done]. }
  splits.
  - intros z. split.
    + intros (N & HN & E). destruct (Hd N 0 HN) as (Hlt & Er & _). rewrite Er in E. simplify_eq. pose proof (HN (hi - lo)). lia.
    + intros Hz. destruct (Hfix (z - lo) (hi - lo)) as (N & HN & En); [lia|]. exists N. split; [done|].
      destruct (Hd N 0 HN) as (_ & -> & _). f_equal. lia.
  - intros z. destruct (decide (hi - lo = 2 ^ 64 - 1)) as [Ef|Ef].
    + destruct (Hfull Ef) as [Hin Hcv]. split.
      * intros (N & U & HN & HU & E). destruct (Hd N U HN) as (_ & _ & _ & Er). rewrite (Er Ef) in E. simplify_eq. apply Hin. by apply Hcv.
      * intros Hz. exists (λ _, 0), (u64 z). assert (HN : lawful (λ _, 0)) by (intros n ?; lia). splits; [done|apply u64_range|].
        destruct (Hd _ (u64 z) HN) as (_ & _ & _ & Er). rewrite (Er Ef). f_equal. apply conv_u64; [done|]. by apply Hin.
    + split.
      * intros (N & U & HN & HU & E). destruct (Hd N U HN) as (Hlt & _ & Er & _). rewrite (Er Ef) in E. simplify_eq.
        pose proof (HN (hi - lo + 1)). lia.
      * intros Hz. destruct (Hfix (z - lo) (hi - lo + 1)) as (N & HN & En); [lia|]. exists N, 0. splits; [done|by width|].
        destruct (Hd N 0 HN) as (_ & _ & Er & _). rewrite (Er Ef). f_equal. lia.
  - intros N N' U U' HN HN' HU HU'. destruct (Hd N U HN) as (_ & -> & E1 & E2). destruct (Hd N' U' HN') as (_ & -> & E1' & E2').
    destruct (decide (hi - lo = 2 ^ 64 - 1)) as [Ef|Ef].
    + rewrite (E2 Ef), (E2' Ef). splits; [by eexists..|intros [= E]; lia|]. intros [= E].
      destruct (Hfull Ef) as [_ Hcv]. destruct (Hcv U HU) as [_ <-], (Hcv U' HU') as [_ <-]. congruence.
    + rewrite (E1 Ef), (E1' Ef). splits; [by eexists..|intros [= E]; lia|intros [= E]; lia].
Qed.

Lemma rand_range_exact_witness :
  RandRange (mkInt 8 true) (λ n, n - 1) 7 7 = Some 7 ∧ ¬ (∃ N, lawful N ∧ RandRange (mkInt 8 true) N 100 (-100) = Some 100) ∧
  (∃ N U, lawful N ∧ is_u64 U ∧ RandRangeInc (mkInt 8 true) N U 100 (-100) = Some 100) ∧
  (∃ N U, lawful N ∧ is_u64 U ∧ RandRangeInc (mkInt 64 true) N U (- 2 ^ 63) (2 ^ 63 - 1) = Some (2 ^ 63 - 1)).
Proof.
  pose proof (rand_range_exact (mkInt 8 true) 7 7 ltac:(dec) ltac:(cbn; lia) ltac:(cbn; lia)) as [T1 _].
  pose proof (rand_range_exact (mkInt 8 true) 100 (-100) ltac:(dec) ltac:(cbn; lia) ltac:(cbn; lia)) as [_ T2].
  pose proof (rand_range_exact (mkInt 64 true) (- 2 ^ 63) (2 ^ 63 - 1) ltac:(dec) ltac:(cbn; lia) ltac:(cbn; lia)) as [_ T3].
  splits.
  - by apply (T1 eq_refl (λ n, n - 1) 0).
  - destruct (T2 ltac:(lia)) as (R & _ & _). intros E. apply R in E. lia.
  - destruct (T2 ltac:(lia)) as (_ & I & _). apply I. lia.
  - destruct (T3 ltac:(lia)) as (_ & I & _). apply I. lia.
Defined.

(** A rate of [v] in ten thousand: true for exactly [v] of the ten thousand draws. *)
Lemma happen_rate (v : Z) : - 2 ^ 63 ≤ v < 2 ^ 64 →
  len (filter (λ draw, Happen v draw = true) (seqZ 0 10000)) = Z.max 0 (Z.min v 10000).
Proof.
  intros Hv. assert (Hp : ∀ d, 0 ≤ d < 10000 → Happen v d = true ↔ d < v).
  { intros d Hd. unfold Happen, MaxRate. case_decide; [split; [done|lia]|].
    unfold u64. rewrite Z.mod_small by lia. case_decide; [split; [lia|done]|]. apply bool_decide_eq_true. }
  rewrite (filter_ext_in _ (λ d, d < v)) by (intros d Hd%elem_of_seqZ; apply Hp; lia).
  assert (Hs : ∀ n, 0 ≤ n → len (filter (λ d, d < v) (seqZ 0 n)) = Z.max 0 (Z.min v n)).
  { apply natlike_ind.
    - change (seqZ 0 0) with (@nil Z). rewrite filter_nil. lens.
    - intros n Hn IH. rewrite <- Z.add_1_r, seqZ_app, filter_app by lia. rewrite len_app, IH.
      assert (seqZ (0 + n) 1 = [n]) as -> by (unfold seqZ; cbn; f_equal; lia). rewrite filter_cons, filter_nil. case_decide; unfold len; cbn; lia. }
  by apply Hs.
Qed.
