(* ===== verification/Util.v ===== *)
(** * pkg/util, pkg/gerror, pkg/flag: small utilities

    Conversions between numbers and strings for every Go integer type, bit flags, days and
    weeks, host names, and errors that carry a code. *)

From S2P Require Import Prelude DataBus Redis Account Discovery Rand.

(** ** pkg/util/strings.go *)

Definition IToString (n : Z) : string := Itoa n.

(** [strconv.ParseInt(s, 10, 64)] is [Atoi]: the value and whether it succeeded.
    [strconv.ParseUint] gives 0 on a syntax error and the largest number out of range. *)
Definition strconv_ParseInt (s : string) : Z * bool := Atoi s.
Definition strconv_ParseUint (s : string) : Z * bool :=
  match s with
  | EmptyString => (0, false)
  | _ => match parseDigits s 0 with
         | None => (0, false)
         | Some z => if decide (z < 2 ^ 64) then (z, true) else (2 ^ 64 - 1, false)
         end
  end.

Definition ParseInt (t : gint) (s : string) : Z * bool := let '(n, ok) := strconv_ParseInt s in (conv t n, ok).
Definition ParseUint (t : gint) (s : string) : Z * bool := let '(n, ok) := strconv_ParseUint s in (conv t n, ok).

(** [def...]: the first of them is used, or the zero value. *)
Definition defaultVal {A} (zero : A) (def : list A) : A := default zero (head def).

Definition ParseIntDef (t : gint) (s : string) (def : list Z) : Z :=
  if decide (s = EmptyString) then defaultVal 0 def
  else let '(n, ok) := strconv_ParseInt s in if ok then conv t n else defaultVal 0 def.
Definition ParseUintDef (t : gint) (s : string) (def : list Z) : Z :=
  if decide (s = EmptyString) then defaultVal 0 def
  else let '(n, ok) := strconv_ParseUint s in if ok then conv t n else defaultVal 0 def.
Definition ParseBoolDef (s : string) (def : list bool) : bool :=
  if decide (s = EmptyString) then defaultVal false def
  else match parseBool s with Some v => v | None => defaultVal false def end.

(** ** pkg/util/flag.go *)

(** An [int] of 64 bits. *)
Definition Flag_Add (flag v : Z) : Z := Z.lor v flag.
Definition Flag_Has (flag v : Z) : bool := bool_decide (Z.land v flag ≠ 0).
Definition Flag_Del (flag v : Z) : Z := Z.land v (Z.lnot flag).

(** ** pkg/util/time.go *)

Definition gTimeInterval : Z := 24 * 3600.

Section Time.
(** Midnight of January 1 and of January 5, 1970, local time. *)
Context (gTimeGenesisUnix gTimeGenesisUnixWeek : Z).

(** Go's division truncates. *)
Definition GetZeroDay (time resetTime : Z) : Z := Z.quot (i64 (i64 (time - gTimeGenesisUnix) - resetTime)) gTimeInterval.
Definition GetZeroWeek (time resetTime : Z) : Z :=
  Z.quot (Z.quot (i64 (i64 (time - gTimeGenesisUnixWeek) - resetTime)) gTimeInterval) 7.

Definition IsSameDay (a b resetTime : Z) : bool :=
  if decide (a = b) then true
  else
    let ad := GetZeroDay a resetTime in
    if decide (ad < 0) then false
    else
      let bd := GetZeroDay b resetTime in
      if decide (bd < 0) then false else bool_decide (ad = bd).

End Time.

(** ** pkg/flag: the index of a node from its host name *)

Definition dash : Ascii.ascii := Ascii.ascii_of_nat 45.

(** The string around the last [c]: [strings.LastIndex]. *)
Fixpoint lastCut (c : Ascii.ascii) (s : string) : option (string * string) :=
  match s with
  | EmptyString => None
  | String a t =>
      match lastCut c t with
      | Some (x, y) => Some (String a x, y)
      | None => if decide (a = c) then Some (EmptyString, t) else None
      end
  end.

(** [None] is [log.Panicf]. *)
Definition splitHostNameAndID (hostName : string) : option (string * Z) :=
  match lastCut dash hostName with
  | None => Some (EmptyString, -1)
  | Some (name, idStr) =>
      if decide (idStr = EmptyString) then None
      else let '(id, ok) := Atoi idStr in if ok : bool then Some (name, id) else None
  end.

Definition SplitHostName (hostName : string) : option Z := snd <$> splitHostNameAndID hostName.

(** The part of [flag.Init] that sets [SvcIndex]. *)
Definition initSvcIndex (hostName : string) (SvcIndex : Z) : option Z :=
  if decide (hostName = EmptyString) then Some SvcIndex
  else idx ← SplitHostName hostName; Some (if decide (idx >= 0) then u8 idx else SvcIndex).

(** ** pkg/gerror *)

(** An error and what it wraps: a plain error, one with a stack or with a message added,
    and a [CodeErr]. *)
Inductive error :=
| EPlain (msg : string)
| EStack (err : error)
| EMsg (err : error) (msg : string)
| ECode (code : Z) (err : error).

Definition ErrorCode_Internal : Z := 10000.
Definition ErrorCode_name : gmap Z string :=
  list_to_map [(0, "Success"); (10000, "Internal"); (10001, "BadRequest"); (10002, "Timeout")].

Definition CodeErr_Msg (code : Z) : string := default "UnknownError" (ErrorCode_name !! i32 code).

(** The text of an error; a nil error inside a [CodeErr] cannot be built by this package. *)
Fixpoint err_Error (e : error) : string :=
  match e with
  | EPlain m => m
  | EStack e => err_Error e
  | EMsg e m => m +:+ ": " +:+ err_Error e
  | ECode c e => "code=" +:+ Itoa c +:+ " msg=" +:+ CodeErr_Msg c +:+ ": " +:+ err_Error e
  end.

(** [errors.As]: the first [CodeErr] along the chain of [Unwrap]. *)
Fixpoint asCode (e : error) : option Z :=
  match e with
  | EPlain _ => None
  | EStack e | EMsg e _ => asCode e
  | ECode c _ => Some c
  end.

Definition CodeOf (err : option error) : Z * bool :=
  match err ≫= asCode with Some c => (c, true) | None => (ErrorCode_Internal, false) end.

Definition NewCode (code : Z) : error := ECode code (EPlain (default EmptyString (ErrorCode_name !! i32 code))).
Definition gerror_New (msg : string) : error := EPlain msg.
Definition From_ (code : Z) (err : option error) : option error := (λ e, ECode code (EStack e)) <$> err.
Definition WithStack (err : option error) : option error := EStack <$> err.
Definition Wrap (err : option error) (msg : string) : option error := (λ e, EMsg e msg) <$> err.
Definition WrapCode (code : Z) (err : option error) (msg : string) : option error := (λ e, ECode code (EMsg e msg)) <$> err.

(** The chain down to the plain error. *)
Fixpoint rootMsg (e : error) : string :=
  match e with EPlain m => m | EStack e | EMsg e _ | ECode _ e => rootMsg e end.

(** ** Properties *)

Lemma Itoa_digits n : 0 ≤ n → Itoa n ≠ EmptyString ∧ parseDigits (Itoa n) 0 = Some n.
Proof.
  intros Hn. unfold Itoa. destruct n as [|p|p]; [done| |lia].
  destruct (parse_pretty_N (N.pos p)) as [Hp Hne]; [done|]. split; [exact Hne|exact Hp].
Qed.

Lemma Itoa_neg p : Itoa (Z.neg p) = String dash (Itoa (Z.pos p)).
Proof. reflexivity. Qed.

Lemma Atoi_Itoa z : is_i64 z → Atoi (Itoa z) = (z, true).
Proof.
  intros Hz. unfold is_i64 in Hz. destruct (decide (0 ≤ z)) as [H0|H0].
  - destruct (Itoa_digits z H0) as [Hne Hp]. apply Atoi_plain; [done|done|lia].
  - destruct z as [|p|p]; [lia..|]. rewrite Itoa_neg. destruct (Itoa_digits (Z.pos p)) as [Hne Hp]; [lia|].
    unfold Atoi. rewrite decide_True by done. destruct (Itoa (Z.pos p)) as [|a t]; [done|]. rewrite Hp.
    rewrite !decide_False by lia. done.
Qed.

Lemma conv_id t z : t ∈ gints → inType t z → conv t z = z.
Proof.
  unfold gints. rewrite !elem_of_cons, elem_of_nil. intros Ht Hz.
  destruct Ht as [-> |[-> |[-> |[-> |[-> |[-> |[-> |[-> |[]]]]]]]]]; unfold conv, inType in *; cbn [gi_bits gi_signed] in *;
    rewrite Z.mod_small; lia.
Qed.

(** Numbers survive printing and parsing: for every Go integer type and each of its
    values, [ParseInt] or [ParseUint], and the variants with a default, return the value
    that [IToString] wrote; the default is returned for the empty string and for anything
    that is not a 64-bit number, and a 64-bit number that does not fit the type is
    converted by truncation, without an error. *)
Theorem parse_print_roundtrip (t : gint) (n : Z) (def : list Z) :
  t ∈ gints → inType t n →
  (gi_signed t = true → ParseInt t (IToString n) = (n, true) ∧ ParseIntDef t (IToString n) def = n ∧
     ∀ z, is_i64 z → ParseIntDef t (IToString z) def = conv t z) ∧
  (gi_signed t = false → ParseUint t (IToString n) = (n, true) ∧ ParseUintDef t (IToString n) def = n ∧
     ∀ z, is_u64 z → ParseUintDef t (IToString z) def = conv t z) ∧
  ParseIntDef t EmptyString def = defaultVal 0 def ∧ ParseUintDef t EmptyString def = defaultVal 0 def ∧
  (∀ s, (strconv_ParseInt s).2 = false → ParseIntDef t s def = defaultVal 0 def).
Proof.
  intros Ht Hn.
  assert (Hne : ∀ z, Itoa z ≠ EmptyString).
  { intros z. destruct z as [|p|p]; [done| |done]. by apply Itoa_digits. }
  assert (Hu : ∀ z, is_u64 z → strconv_ParseUint (Itoa z) = (z, true)).
  { intros z Hz. unfold is_u64 in Hz. destruct (Itoa_digits z) as [Hz1 Hz2]; [lia|]. unfold strconv_ParseUint.
    destruct (Itoa z); [done|]. rewrite Hz2. by rewrite decide_True by lia. }
  pose proof (inType_64 t n Ht Hn) as H64. unfold IToString, ParseInt, ParseIntDef, ParseUint, ParseUintDef, strconv_ParseInt.
  splits; [..|done|done|].
  - intros Hs. assert (is_i64 n) as Hi.
    { revert Ht Hn. unfold gints. rewrite !elem_of_cons, elem_of_nil. intros Ht Hn.
      destruct Ht as [-> |[-> |[-> |[-> |[-> |[-> |[-> |[-> |[]]]]]]]]]; try done; unfold inType, is_i64 in *;
        cbn [gi_bits gi_signed] in *; lia. }
    rewrite (Atoi_Itoa n Hi), (conv_id t n Ht Hn), decide_False by done. splits; [done|done|].
    intros z Hz. by rewrite decide_False, Atoi_Itoa.
  - intros Hs. assert (is_u64 n) as Hi.
    { unfold inType in Hn. rewrite Hs in Hn. unfold is_u64. lia. }
    rewrite (Hu n Hi), (conv_id t n Ht Hn), decide_False by done. splits; [done|done|].
    intros z Hz. by rewrite decide_False, Hu.
  - intros s Hf. case_decide; [done|]. destruct (Atoi s) as [z ok]. cbn in Hf. by subst ok.
Qed.

Lemma parse_print_roundtrip_witness :
  ParseIntDef (mkInt 8 true) (IToString (-128)) [7] = -128 ∧ ParseIntDef (mkInt 8 true) (IToString 300) [7] = 44.
Proof.
  destruct (parse_print_roundtrip (mkInt 8 true) (-128) [7]) as (H & _); [dec|cbn; lia|].
  destruct (H eq_refl) as (_ & H1 & H2). split; [exact H1|]. rewrite (H2 300) by dec. reflexivity.
Defined.

Lemma lastCut_none c s : count c s = 0%nat → lastCut c s = None.
Proof.
  induction s as [|a s IH]; [done|]. cbn. case_decide; [lia|]. intros. by rewrite IH.
Qed.

Lemma lastCut_app c s t : count c t = 0%nat → lastCut c (s +:+ String c t) = Some (s, t).
Proof.
  intros Ht. induction s as [|a s IH].
  - change (EmptyString +:+ String c t) with (String c t). cbn. rewrite lastCut_none by done. by rewrite decide_True.
  - change (String a s +:+ String c t) with (String a (s +:+ String c t)). cbn [lastCut]. by rewrite IH.
Qed.

Lemma digits_count s acc z : parseDigits s acc = Some z → count dash s = 0%nat.
Proof.
  revert acc. induction s as [|a s IH]; intros acc; [done|]. cbn. destruct (digit a) as [d|] eqn:E; [|done].
  intros Hs. case_decide as Hd; [|by eapply IH]. subst a. done.
Qed.

(** A node takes its index from its host name: for a name followed by a dash and a
    number the index is that number modulo 256, whatever dashes the name itself contains; a
    name without a dash keeps the configured index, and one that ends in a dash, or in
    something that is no number, stops the process. *)
Theorem host_index (name : string) (n idx : Z) :
  0 ≤ n < 2 ^ 63 →
  splitHostNameAndID (name +:+ String dash (Itoa n)) = Some (name, n) ∧
  initSvcIndex (name +:+ String dash (Itoa n)) idx = Some (u8 n) ∧
  (∀ s, s ≠ EmptyString → count dash s = 0%nat → initSvcIndex s idx = Some idx) ∧
  initSvcIndex (name +:+ String dash EmptyString) idx = None.
Proof.
  intros Hn. destruct (Itoa_digits n) as [Hne Hp]; [lia|].
  assert (Hc : lastCut dash (name +:+ String dash (Itoa n)) = Some (name, Itoa n)) by (apply lastCut_app; by eapply digits_count).
  assert (Hx : ∀ t, name +:+ String dash t ≠ EmptyString) by (by destruct name).
  assert (Hs : splitHostNameAndID (name +:+ String dash (Itoa n)) = Some (name, n)).
  { unfold splitHostNameAndID. rewrite Hc, decide_False, (Atoi_plain _ n) by done || lia. done. }
  splits; [done| | |].
  - unfold initSvcIndex, SplitHostName. rewrite decide_False, Hs by done. cbn. by rewrite decide_True by lia.
  - intros s Hse Hcs. unfold initSvcIndex, SplitHostName, splitHostNameAndID.
    rewrite decide_False, lastCut_none by done. reflexivity.
  - unfold initSvcIndex, SplitHostName, splitHostNameAndID. rewrite decide_False, lastCut_app by done. reflexivity.
Qed.

Lemma host_index_witness : initSvcIndex "my-game-259" 9 = Some 3.
Proof. apply (host_index "my-game" 259 9). lia. Defined.

Lemma wraps_keep wraps e :
  ∃ e', fold_left (λ e w, match w with Some m => Wrap e m | None => WithStack e end) wraps (Some e) = Some e' ∧
    asCode e' = asCode e ∧ rootMsg e' = rootMsg e.
Proof.
  revert e. induction wraps as [|w wraps IH]; intros e; cbn [fold_left]; [by exists e|].
  destruct w as [m|]; [apply (IH (EMsg e m))|apply (IH (EStack e))].
Qed.

(** An error keeps its code: adding stacks and messages, in any number and order,
    changes neither the code that [CodeOf] finds nor the original message at its root; a
    new code replaces the old one for [CodeOf] and keeps the chain; an error without a
    code, and nil, have none; and wrapping nil stays nil. *)
Theorem error_code_survives (e : error) (wraps : list (option string)) (c : Z) (msg : string) :
  let wrapped := fold_left (λ e w, match w with Some m => Wrap e m | None => WithStack e end) wraps (Some e) in
  CodeOf wrapped = CodeOf (Some e) ∧ rootMsg <$> wrapped = Some (rootMsg e) ∧
  CodeOf (WrapCode c wrapped msg) = (c, true) ∧ CodeOf (From_ c wrapped) = (c, true) ∧
  rootMsg <$> WrapCode c wrapped msg = Some (rootMsg e) ∧ CodeOf (Some (NewCode c)) = (c, true) ∧
  CodeOf (Some (gerror_New msg)) = (ErrorCode_Internal, false) ∧ CodeOf None = (ErrorCode_Internal, false) ∧
  Wrap None msg = None ∧ WithStack None = None ∧ WrapCode c None msg = None ∧ From_ c None = None.
Proof.
  intros wrapped. destruct (wraps_keep wraps e) as (e' & E & H1 & H2). unfold wrapped. rewrite E. unfold CodeOf. cbn. rewrite H1, H2. splits; done.
Qed.

(** Flags are sets of bits: adding a flag sets exactly its bits, deleting it clears
    exactly them, and [Has] tells whether any of its bits is set. *)
Theorem flags_are_bit_sets (flag v : Z) :
  (∀ i, 0 ≤ i → Z.testbit (Flag_Add flag v) i = Z.testbit v i || Z.testbit flag i) ∧
  (∀ i, 0 ≤ i → Z.testbit (Flag_Del flag v) i = Z.testbit v i && negb (Z.testbit flag i)) ∧
  (Flag_Has flag v = true ↔ ∃ i, 0 ≤ i ∧ Z.testbit v i = true ∧ Z.testbit flag i = true) ∧
  Flag_Has flag (Flag_Del flag v) = false ∧ (flag ≠ 0 → Flag_Has flag (Flag_Add flag v) = true).
Proof.
  assert (Hany : ∀ f w, Flag_Has f w = true ↔ ∃ i, 0 ≤ i ∧ Z.testbit w i = true ∧ Z.testbit f i = true).
  { intros f w. unfold Flag_Has. rewrite bool_decide_eq_true. split.
    - intros Hn. destruct (Z.eq_dec (Z.land w f) 0) as [|Hz]; [done|].
      destruct (decide (0 ≤ Z.land w f)) as [Hp|Hp].
      + exists (Z.log2 (Z.land w f)). split; [apply Z.log2_nonneg|]. apply andb_true_iff. rewrite <- Z.land_spec.
        apply Z.bit_log2. lia.
      + exists (Z.succ (Z.log2 (Z.abs (Z.land w f)))). split; [pose proof (Z.log2_nonneg (Z.abs (Z.land w f))); lia|].
        apply andb_true_iff. rewrite <- Z.land_spec. apply (proj1 (Z.bits_iff_neg (Z.land w f) _ (Z.lt_succ_diag_r _))). lia.
    - intros (i & Hi & Hw & Hf) E. assert (Hx : Z.testbit (Z.land w f) i = true) by (by rewrite Z.land_spec, Hw, Hf).
      by rewrite E, Z.bits_0 in Hx. }
  unfold Flag_Add, Flag_Del. splits.
  - intros i Hi. apply Z.lor_spec.
  - intros i Hi. by rewrite Z.land_spec, Z.lnot_spec.
  - apply Hany.
  - apply not_true_iff_false. rewrite Hany. intros (i & Hi & Hv & Hf). rewrite Z.land_spec, Z.lnot_spec, Hf in Hv by done.
    by rewrite andb_false_r in Hv.
  - intros Hf. unfold Flag_Has. apply bool_decide_eq_true. rewrite Z.land_comm, Z.lor_comm, Z.land_lor_distr_r, Z.land_diag.
    intros E. apply Hf. apply Z.bits_inj'. intros i Hi. rewrite Z.bits_0.
    assert (Hx : Z.testbit (Z.lor flag (Z.land flag v)) i = false) by (by rewrite E, Z.bits_0).
    rewrite Z.lor_spec in Hx. by apply orb_false_iff in Hx as [? _].
Qed.

Lemma flags_are_bit_sets_witness : Flag_Has 6 (Flag_Add 6 1) = true ∧ Flag_Has 6 (Flag_Del 6 7) = false.
Proof.
  split.
  - apply (flags_are_bit_sets 6 1). discriminate.
  - apply (flags_are_bit_sets 6 7).
Defined.

(** Two times are on the same day exactly when they lie in the same interval of 24
    hours from the reset time, for times from the first reset on; the times of the day
    before it count as that first day too, because the division truncates, and earlier
    ones as no day. *)
Theorem same_day_exact (g a b reset : Z) :
  - 2 ^ 62 < g < 2 ^ 61 → - 2 ^ 61 < reset < 2 ^ 61 → - 2 ^ 61 < a < 2 ^ 61 → - 2 ^ 61 < b < 2 ^ 61 → a ≠ b →
  let day x := (x - g - reset) / 86400 in
  (g + reset ≤ a → g + reset ≤ b → IsSameDay g a b reset = bool_decide (day a = day b)) ∧
  (day a = -1 → a ≠ g + reset - 86400 → day b = 0 → IsSameDay g a b reset = true) ∧
  (day a < -1 → IsSameDay g a b reset = false).
Proof.
  intros Hg Hr Ha Hb Hne day. unfold IsSameDay. rewrite decide_False by done.
  assert (Hz : ∀ x, - 2 ^ 61 < x < 2 ^ 61 → GetZeroDay g x reset = Z.quot (x - g - reset) 86400).
  { intros x Hx. unfold GetZeroDay, i64, gTimeInterval. rewrite (Z.mod_small (x - g + 2 ^ 63)) by lia.
    rewrite Z.mod_small by lia. f_equal. lia. }
  rewrite !Hz by done. unfold day. splits.
  - intros Ha0 Hb0. rewrite !Z.quot_div_nonneg by lia. rewrite !decide_False by (pose proof (Z.div_pos (a - g - reset) 86400); pose proof (Z.div_pos (b - g - reset) 86400); lia).
    done.
  - intros Hda Hx Hdb. assert (Hqa : Z.quot (a - g - reset) 86400 = 0) by (apply Z.quot_small_iff; [done|]; Z.div_mod_to_equations; lia).
    assert (Hqb : Z.quot (b - g - reset) 86400 = 0) by (apply Z.quot_small_iff; [done|]; Z.div_mod_to_equations; lia).
    rewrite Hqa, Hqb. by rewrite !decide_False by lia.
  - intros Hda. rewrite decide_True; [done|]. Z.quot_rem_to_equations. Z.div_mod_to_equations. lia.
Qed.

Lemma same_day_exact_witness :
  IsSameDay (-28800) 1700000000 1700003600 28800 = true ∧ IsSameDay (-28800) (-90000) 5 28800 = false.
Proof.
  split.
  - destruct (same_day_exact (-28800) 1700000000 1700003600 28800) as [H _]; [lia..|]. rewrite H by lia. reflexivity.
  - destruct (same_day_exact (-28800) (-90000) 5 28800) as (_ & _ & H); [lia..|]. apply H. reflexivity.
Defined.
