(* ===== verification/Database.v ===== *)
(** * pkg/db: connecting to the databases

    [InitRedis], [InitMongo] and [InitClickhouse] make a client, try it, and keep it in a
    package variable; the [Close] functions close what is kept. The clients are a library's:
    the model has which were opened and not closed. *)

From S2P Require Import Prelude.

(** ** redis.go *)

Record RedisCfg := mkRC { rc_Addr : list string; rc_Password : string; rc_DB : Z; rc_Name : string }.

Record redisOptions := mkRO { ro_Addrs : list string; ro_ClientName : string; ro_DB : Z; ro_Password : string;
  ro_PoolSize : Z; ro_MinIdleConns : Z }.

Definition DefaultPoolSizeRedis : Z := 10.

(** The options [NewRedis] passes: a pool by default, and database 0 in a cluster. *)
Definition NewRedisOptions (conf : RedisCfg) (poolSize : Z) : redisOptions :=
  let poolSize := if decide (poolSize <= 0) then DefaultPoolSizeRedis else poolSize in
  let db := if decide (len (rc_Addr conf) > 1 ∧ rc_DB conf ≠ 0) then 0 else rc_DB conf in
  mkRO (rc_Addr conf) (rc_Name conf) db (rc_Password conf) poolSize (Z.quot poolSize 4).

(** ** Clients *)

(** A Mongo client keeps the database in use. *)
Record mongoRef := mkMongo { mg_Client : nat; mg_DB : string }.

(** The package variables, the clients opened so far, and those not closed. *)
Record dbs := mkDbs { g_Redis : option nat; g_mongoCli : option mongoRef; g_ck : option nat; g_next : nat; g_open : list nat }.

Definition dbs0 : dbs := mkDbs None None None 0 [].

Definition opened (s : dbs) : dbs * nat :=
  (mkDbs (g_Redis s) (g_mongoCli s) (g_ck s) (S (g_next s)) (g_next s :: g_open s), g_next s).
Definition closed (c : nat) (s : dbs) : dbs :=
  mkDbs (g_Redis s) (g_mongoCli s) (g_ck s) (g_next s) (filter (λ x, x ≠ c) (g_open s)).

Definition setRedis (c : option nat) (s : dbs) : dbs := mkDbs c (g_mongoCli s) (g_ck s) (g_next s) (g_open s).
Definition setMongo (m : option mongoRef) (s : dbs) : dbs := mkDbs (g_Redis s) m (g_ck s) (g_next s) (g_open s).
Definition setCk (c : option nat) (s : dbs) : dbs := mkDbs (g_Redis s) (g_mongoCli s) c (g_next s) (g_open s).

(** [ping]: what [Ping] gives. A client that does not answer is returned to nobody. *)
Definition NewRedis (ping : go_error) (s : dbs) : dbs * result nat :=
  let '(s, cli) := opened s in
  match ping with Some e => (s, Err e) | None => (s, Ok cli) end.

Definition InitRedis (ping : go_error) (s : dbs) : dbs * go_error :=
  let '(s, r) := NewRedis ping s in
  match r with Err e => (s, Some e) | Ok cli => (setRedis (Some cli) s, None) end.

Definition CloseRedis (s : dbs) : dbs := match g_Redis s with Some c => closed c s | None => s end.

Definition NewMongo (connect ping : go_error) (dbName : string) (s : dbs) : dbs * result mongoRef :=
  match connect with
  | Some e => (s, Err e)
  | None => let '(s, cli) := opened s in
            match ping with Some e => (s, Err e) | None => (s, Ok (mkMongo cli dbName)) end
  end.

(** The variable is assigned whatever happens. *)
Definition InitMongo (connect ping : go_error) (dbName : string) (s : dbs) : dbs * go_error :=
  let '(s, r) := NewMongo connect ping dbName s in
  match r with Err e => (setMongo None s, Some e) | Ok m => (setMongo (Some m) s, None) end.

(** [None]: the nil pointer. *)
Definition MongoUse (dbName : string) (s : dbs) : option dbs :=
  m ← g_mongoCli s; Some (setMongo (Some (mkMongo (mg_Client m) dbName)) s).
Definition MongoDB (s : dbs) : option string := mg_DB <$> g_mongoCli s.

Definition CloseMongo (s : dbs) : dbs := match g_mongoCli s with Some m => closed (mg_Client m) s | None => s end.

(** The variable is assigned before the connection is tried. *)
Definition InitClickhouse (open ping : go_error) (s : dbs) : dbs * go_error :=
  match open with
  | Some e => (setCk None s, Some e)
  | None => let '(s, c) := opened s in (setCk (Some c) s, ping)
  end.
Definition CloseDb (s : dbs) : dbs := match g_ck s with Some c => closed c s | None => s end.

(** [initDB] of app.go: Mongo is used under the name [admin] until the server chooses. *)
Definition initDB (redisPing mongoConnect mongoPing : go_error) (s : dbs) : dbs * go_error :=
  let '(s, e) := InitRedis redisPing s in
  match e with Some e => (s, Some e) | None => InitMongo mongoConnect mongoPing "admin" s end.

(** ** Properties *)

(** What the pool and the database of a client are, in every configuration. *)
Lemma redis_options conf poolSize :
  let o := NewRedisOptions conf poolSize in
  0 < ro_PoolSize o ∧ 0 ≤ ro_MinIdleConns o < ro_PoolSize o ∧ (len (rc_Addr conf) > 1 → ro_DB o = 0) ∧
  (len (rc_Addr conf) ≤ 1 → ro_DB o = rc_DB conf).
Proof.
  unfold NewRedisOptions, DefaultPoolSizeRedis. cbn [ro_PoolSize ro_MinIdleConns ro_DB].
  set (p := if decide (poolSize <= 0) then 10 else poolSize). assert (Hp : 0 < p) by (unfold p; case_decide; lia).
  clearbody p. rewrite Z.quot_div_nonneg by lia. pose proof (Z.div_lt p 4). pose proof (Z.div_pos p 4). splits; [done|lia|lia| |].
  - intros Hl. case_decide; [done|]. destruct (decide (rc_DB conf = 0)); [done|tauto].
  - intros Hl. case_decide; [lia|done].
Qed.

(** The databases' life in a process: if [initDB] succeeds, closing both leaves no client
    open, and the database in use after [MongoUse] is the one named; if it fails because a
    database does not answer, the client that was tried stays open and no variable refers to
    it, so that no [Close] closes it. *)
Theorem databases_life redisPing mongoConnect mongoPing name :
  let '(s, e) := initDB redisPing mongoConnect mongoPing dbs0 in
  (e = None ↔ redisPing = None ∧ mongoConnect = None ∧ mongoPing = None) ∧
  (e = None → ∃ s', MongoUse name s = Some s' ∧ MongoDB s' = Some name ∧ g_open (CloseRedis (CloseMongo s')) = []) ∧
  (redisPing ≠ None → g_open (CloseRedis (CloseMongo s)) = [0%nat]) ∧
  (redisPing = None → mongoConnect = None → mongoPing ≠ None → g_open (CloseRedis (CloseMongo s)) = [1%nat]).
Proof.
  destruct redisPing as [e1|], mongoConnect as [e2|], mongoPing as [e3|]; cbn; splits; try done;
    try (split; [done|by intros (? & ? & ?)]).
  intros _. eexists. splits; [reflexivity|done|done].
Qed.
