(* ===== verification/Metrics.v ===== *)
(** * pkg/gnet/gmetrics: the metrics of the message bus

    The names the metrics are registered under, the caches of the receiving side (global
    [sync.Map]s that any goroutine may fill at the same time), the counts, and the gauge
    of the connection to NATS that [setupNatsConn] of [msgq/nats.go] keeps. *)

From S2P Require Import Prelude Gmsg DataBus Redis Account Discovery Util.

(** ** Names *)

Definition cqt : Ascii.ascii := Ascii.ascii_of_nat 34.

Inductive metric :=
| PubMsg (subject : string) | PubDrop (subject : string) | BatchFlush (subject : string)
| BatchSizeMsg (subject : string) | NatsPubLatency (subject : string)
| SubDecodeErr (subject : string) | SubMsg (subject : string) (msgID : Z)
| HandlerLatency (msgID : Z)
| NatsConnStatus (server : string) | NatsReconnect (server : string) | SlowConsumer (subject : string).

#[export] Instance metric_eq_dec : EqDecision metric.
Proof. solve_decision. Defined.

(** A label value in quotes and what follows. *)
Definition qt (v rest : string) : string := String cqt (v +:+ String cqt rest).

Definition metricName (m : metric) : string :=
  match m with
  | PubMsg s => "msgq_pub_msgs_total{subject=" +:+ qt s "}"
  | PubDrop s => "msgq_pub_drop_total{subject=" +:+ qt s "}"
  | BatchFlush s => "msgq_batch_flush_total{subject=" +:+ qt s "}"
  | BatchSizeMsg s => "msgq_batch_size_msgs{subject=" +:+ qt s "}"
  | NatsPubLatency s => "msgq_nats_publish_latency_ms{subject=" +:+ qt s "}"
  | SubDecodeErr s => "msgq_sub_decode_err_total{subject=" +:+ qt s "}"
  | SubMsg s id => "msgq_sub_msgs_total{subject=" +:+ qt s (",msg_id=" +:+ qt (Itoa id) "}")
  | HandlerLatency id => "msgq_handler_latency_ms{msg_id=" +:+ qt (Itoa id) "}"
  | NatsConnStatus s => "msgq_nats_conn_status{server=" +:+ qt s "}"
  | NatsReconnect s => "msgq_nats_reconnect_total{server=" +:+ qt s "}"
  | SlowConsumer s => "msgq_nats_slow_consumer_total{subject=" +:+ qt s "}"
  end.

(** ** The registry *)

(** By documentation, [GetOrCreateCounter] and [GetOrCreateGauge] give the one metric of a
    name: the registry is the values by name. *)
Abbreviation registry := (gmap string Z).

Definition IncMetric (m : metric) (reg : registry) : registry := <[metricName m := default 0 (reg !! metricName m) + 1]> reg.
Definition SetMetric (m : metric) (v : Z) (reg : registry) : registry := <[metricName m := v]> reg.

Definition SetNatsConnStatus (server : string) (status : Z) (reg : registry) : registry := SetMetric (NatsConnStatus server) status reg.
Definition IncNatsReconnect (server : string) (reg : registry) : registry := IncMetric (NatsReconnect server) reg.
Definition IncSlowConsumer (subject : string) (reg : registry) : registry := IncMetric (SlowConsumer subject) reg.

(** ** The caches *)

(** A [SubMetrics] object: its subject and the counters it has cached, by message id. *)
Record subMetrics := mkSM { sm_Subject : string; sm_MsgCounters : gmap Z metric }.

Definition NewSubMetrics (subject : string) : subMetrics := mkSM subject ∅.

(** The objects that were allocated, and [subMetricsMap]. *)
Record caches := mkCa { ca_heap : list subMetrics; ca_subs : gmap string nat }.

(** [LoadOrStore]. *)
Definition loadOrStore {K V} `{Countable K} (k : K) (v : V) (m : gmap K V) : gmap K V * V :=
  match m !! k with Some actual => (m, actual) | None => (<[k := v]> m, v) end.

(** [GetHandlerLatencyMetric], over [handlerLatencies]; a hit of its first [Load] is one of
    [LoadOrStore]. *)
Definition GetHandlerLatencyMetric (msgID : Z) (m : gmap Z metric) : gmap Z metric * metric :=
  loadOrStore msgID (HandlerLatency msgID) m.

(** A call on its way: of [GetSubMetrics], or of [GetMsgCounter] on an object. *)
Inductive mcall :=
| SLoad (subject : string) | SStore (subject : string) (sm : nat) | SGot (subject : string) (sm : nat)
| CLoad (sm : nat) (msgID : Z) | CStore (sm : nat) (msgID : Z) (c : metric) | CGot (sm : nat) (msgID : Z) (c : metric).

(** One step of a call: each [sync.Map] operation is atomic. [None]: no such object. *)
Definition mcallStep (c : mcall) (ca : caches) : option (caches * mcall) :=
  match c with
  | SLoad s =>
      match ca_subs ca !! s with
      | Some a => Some (ca, SGot s a)
      | None => Some (mkCa (ca_heap ca ++ [NewSubMetrics s]) (ca_subs ca), SStore s (length (ca_heap ca)))
      end
  | SStore s a =>
      let '(m, actual) := loadOrStore s a (ca_subs ca) in Some (mkCa (ca_heap ca) m, SGot s actual)
  | CLoad a id =>
      sm ← ca_heap ca !! a;
      match sm_MsgCounters sm !! id with
      | Some c => Some (ca, CGot a id c)
      | None => Some (ca, CStore a id (SubMsg (sm_Subject sm) id))
      end
  | CStore a id c =>
      sm ← ca_heap ca !! a;
      let '(m, actual) := loadOrStore id c (sm_MsgCounters sm) in
      Some (mkCa (<[a := mkSM (sm_Subject sm) m]> (ca_heap ca)) (ca_subs ca), CGot a id actual)
  | SGot _ _ | CGot _ _ _ => None
  end.

(** Any number of calls in any number of goroutines. A new call of [GetMsgCounter] is made
    on an object that [GetSubMetrics] has returned. *)
Record msys := mkMS { m_ca : caches; m_calls : list mcall }.

Inductive mstep : msys → msys → Prop :=
| ms_sub s st : mstep st (mkMS (m_ca st) (m_calls st ++ [SLoad s]))
| ms_msg s a id st : SGot s a ∈ m_calls st → mstep st (mkMS (m_ca st) (m_calls st ++ [CLoad a id]))
| ms_run i c c' ca' st : m_calls st !! i = Some c → mcallStep c (m_ca st) = Some (ca', c') →
    mstep st (mkMS ca' (<[i := c']> (m_calls st))).

Definition mstart : msys := mkMS (mkCa [] ∅) [].

(** ** Names are distinct *)

(** What a metric may be labelled with. *)
Definition labelOk (m : metric) : Prop :=
  match m with
  | PubMsg s | PubDrop s | BatchFlush s | BatchSizeMsg s | NatsPubLatency s | SubDecodeErr s
  | NatsConnStatus s | NatsReconnect s | SlowConsumer s => count cqt s = 0%nat
  | SubMsg s id => count cqt s = 0%nat ∧ 0 ≤ id
  | HandlerLatency id => 0 ≤ id
  end.

Definition metricParts (m : metric) : list string :=
  match m with
  | PubMsg s => ["msgq_pub_msgs_total{subject="; s; "}"]
  | PubDrop s => ["msgq_pub_drop_total{subject="; s; "}"]
  | BatchFlush s => ["msgq_batch_flush_total{subject="; s; "}"]
  | BatchSizeMsg s => ["msgq_batch_size_msgs{subject="; s; "}"]
  | NatsPubLatency s => ["msgq_nats_publish_latency_ms{subject="; s; "}"]
  | SubDecodeErr s => ["msgq_sub_decode_err_total{subject="; s; "}"]
  | SubMsg s id => ["msgq_sub_msgs_total{subject="; s; ",msg_id="; Itoa id; "}"]
  | HandlerLatency id => ["msgq_handler_latency_ms{msg_id="; Itoa id; "}"]
  | NatsConnStatus s => ["msgq_nats_conn_status{server="; s; "}"]
  | NatsReconnect s => ["msgq_nats_reconnect_total{server="; s; "}"]
  | SlowConsumer s => ["msgq_nats_slow_consumer_total{subject="; s; "}"]
  end.

Lemma Itoa_no_quote i : 0 ≤ i → count cqt (Itoa i) = 0%nat.
Proof. intros Hi. destruct (Itoa_digits i Hi) as [_ E]. by eapply count_digits. Qed.

Lemma metricName_parts m : labelOk m → Split cqt (metricName m) = metricParts m.
Proof.
  destruct m; cbn [labelOk metricName metricParts]; unfold qt; intros Hl; rewrite Split_app by done; f_equal.
  7: { destruct Hl as [Hl Hid]. rewrite Split_app by done. f_equal. rewrite Split_app by done. f_equal.
       rewrite Split_app by by apply Itoa_no_quote. done. }
  all: rewrite Split_app by (done || by apply Itoa_no_quote); done.
Qed.

Lemma metricName_inj m m' : labelOk m → labelOk m' → metricName m = metricName m' → m = m'.
Proof.
  intros H1 H2 E. apply (f_equal (Split cqt)) in E. rewrite !metricName_parts in E by done.
  destruct m, m'; cbn [metricParts] in E; try discriminate E; injection E; intros; subst; f_equal; by apply Itoa_inj.
Qed.

(** ** Sharing *)

Definition subjectOf (ca : caches) (a : nat) : option string := sm_Subject <$> ca_heap ca !! a.

(** What holds of a call, given the caches. *)
Definition callOk (ca : caches) (c : mcall) : Prop :=
  match c with
  | SLoad _ => True
  | SStore s a => subjectOf ca a = Some s
  | SGot s a => ca_subs ca !! s = Some a
  | CLoad a id => is_Some (subjectOf ca a)
  | CStore a id c | CGot a id c => ∃ s, subjectOf ca a = Some s ∧ c = SubMsg s id
  end.

Definition cachesOk (ca : caches) : Prop :=
  (∀ s a, ca_subs ca !! s = Some a → subjectOf ca a = Some s) ∧
  (∀ a sm id c, ca_heap ca !! a = Some sm → sm_MsgCounters sm !! id = Some c → c = SubMsg (sm_Subject sm) id).

Definition minv (st : msys) : Prop := cachesOk (m_ca st) ∧ Forall (callOk (m_ca st)) (m_calls st).

(** The caches only grow. *)
Definition caGrows (ca ca' : caches) : Prop :=
  (∀ a s, subjectOf ca a = Some s → subjectOf ca' a = Some s) ∧ (∀ s a, ca_subs ca !! s = Some a → ca_subs ca' !! s = Some a).

Lemma callOk_grows ca ca' c : caGrows ca ca' → callOk ca c → callOk ca' c.
Proof.
  intros [H1 H2]. destruct c; cbn; try (by auto).
  - intros [s Hs]. exists s. by apply H1.
  - intros (s & Hs & ->). exists s. auto.
  - intros (s & Hs & ->). exists s. auto.
Qed.

Lemma caGrows_refl ca : caGrows ca ca.
Proof. by split. Qed.

Lemma mcallStep_ok c ca ca' c' :
  cachesOk ca → callOk ca c → mcallStep c ca = Some (ca', c') → cachesOk ca' ∧ caGrows ca ca' ∧ callOk ca' c'.
Proof.
  intros [Hs Hm] Hc E. destruct c as [s|s a|s a|a id|a id c|a id c]; cbn in Hc, E; [..|done].
  - destruct (ca_subs ca !! s) as [a|] eqn:Es; injection E as <- <-; [by splits; [split|apply caGrows_refl|]|].
    assert (Hg : caGrows ca (mkCa (ca_heap ca ++ [NewSubMetrics s]) (ca_subs ca))).
    { split; [|done]. unfold subjectOf. intros a s' (sm & E & ->)%fmap_Some. cbn [ca_heap].
      by rewrite lookup_app_l, E by by eapply lookup_lt_Some. }
    splits; [split|done|].
    + intros s' a Ha. by apply Hg, Hs.
    + cbn [ca_heap]. intros a sm id c Ha Hcnt. apply lookup_snoc_Some in Ha as [[_ Ha]|[_ <-]]; [by eapply Hm|]. by cbn in Hcnt.
    + cbn. unfold subjectOf. cbn [ca_heap]. by rewrite lookup_app_r, Nat.sub_diag by lia.
  - unfold loadOrStore in E. destruct (ca_subs ca !! s) as [a'|] eqn:Es; injection E as <- <-.
    { splits; [by split|by split|done]. }
    splits; [split; cbn [ca_subs ca_heap]|split; cbn [ca_subs ca_heap]|cbn; apply lookup_insert_eq]; try done.
    + intros s' b. rewrite lookup_insert_Some. intros [[<- <-]|[_ ?]]; [done|by apply Hs].
    + intros s' b Hb. rewrite lookup_insert_ne; [done|]. intros ->. congruence.
  - done.
  - destruct (ca_heap ca !! a) as [sm|] eqn:Ea; [|done]. cbn in E.
    destruct (sm_MsgCounters sm !! id) as [c|] eqn:Ec; injection E as <- <-; (splits; [by split|apply caGrows_refl|]); exists (sm_Subject sm);
      unfold subjectOf; rewrite Ea; (split; [done|]); [by eapply Hm|done].
  - destruct (ca_heap ca !! a) as [sm|] eqn:Ea; [|done]. cbn in E. destruct Hc as (s & Hsub & ->).
    assert (Hss : sm_Subject sm = s) by (unfold subjectOf in Hsub; rewrite Ea in Hsub; by injection Hsub).
    unfold loadOrStore in E.
    assert (Hkeep : ∀ m b, subjectOf (mkCa (<[a := mkSM (sm_Subject sm) m]> (ca_heap ca)) (ca_subs ca)) b = subjectOf ca b).
    { intros m b. unfold subjectOf. cbn [ca_heap]. destruct (decide (a = b)) as [<-|Hne].
      - rewrite list_lookup_insert_eq by by eapply lookup_lt_Some. by rewrite Ea.
      - by rewrite list_lookup_insert_ne. }
    destruct (sm_MsgCounters sm !! id) as [c|] eqn:Ec; injection E as <- <-; (splits; [split|split|]); cbn [ca_subs callOk]; try done;
      try (intros ? ? ?; rewrite Hkeep; by auto).
    + cbn [ca_heap]. intros b sm' id' c' Hb Hcnt. destruct (decide (a = b)) as [<-|Hne].
      * rewrite list_lookup_insert_eq in Hb by by eapply lookup_lt_Some. injection Hb as <-. cbn in *. by eapply Hm.
      * rewrite list_lookup_insert_ne in Hb by done. by eapply Hm.
    + exists s. rewrite Hkeep. split; [done|]. rewrite <- Hss. by eapply Hm.
    + cbn [ca_heap]. intros b sm' id' c' Hb Hcnt. destruct (decide (a = b)) as [<-|Hne].
      * rewrite list_lookup_insert_eq in Hb by by eapply lookup_lt_Some. injection Hb as <-. cbn [sm_MsgCounters sm_Subject] in *.
        apply lookup_insert_Some in Hcnt as [[<- <-]|[_ ?]]; [by rewrite Hss|by eapply Hm].
      * rewrite list_lookup_insert_ne in Hb by done. by eapply Hm.
    + exists s. by rewrite Hkeep.
Qed.

Lemma mstep_inv : preserved mstep minv.
Proof.
  intros st st' Hs [Hc Hf]. destruct Hs as [s st|s a id st Hin|i c c' ca' st Ei E]; unfold minv; cbn [m_ca m_calls].
  - split; [done|]. apply Forall_app. split; [done|]. by repeat constructor.
  - split; [done|]. apply Forall_app. split; [done|]. repeat constructor. cbn.
    apply (proj1 (Forall_forall _ _) Hf) in Hin. cbn in Hin. exists s. by apply Hc.
  - pose proof (proj1 (Forall_lookup _ _) Hf _ _ Ei) as Hci.
    destruct (mcallStep_ok _ _ _ _ Hc Hci E) as (Hc' & Hg & Hok). split; [done|]. apply Forall_insert; [|done].
    eapply Forall_impl; [exact Hf|]. intros x. by apply callOk_grows.
Qed.

(** The receiving side's metrics are shared: however the calls of any number of
    goroutines interleave, all calls of [GetSubMetrics] for a subject return the same
    object, objects of two subjects differ, and every counter an object returns is the one
    registered for its subject and the message id; so two labels that differ are counted
    apart, for subjects without a quote. *)
Theorem metrics_shared st :
  rtc mstep mstart st →
  (∀ s a a', SGot s a ∈ m_calls st → SGot s a' ∈ m_calls st → a = a') ∧
  (∀ s s' a, SGot s a ∈ m_calls st → SGot s' a ∈ m_calls st → s = s') ∧
  (∀ s s' a a' id id' c, SGot s a ∈ m_calls st → SGot s' a' ∈ m_calls st →
     CGot a id c ∈ m_calls st → c = SubMsg s id ∧
     (labelOk (SubMsg s id) → labelOk (SubMsg s' id') → metricName c = metricName (SubMsg s' id') → s' = s ∧ id' = id)).
Proof.
  intros Hr. assert (Hi : minv st).
  { eapply rtc_preserved; [apply mstep_inv|exact Hr|]. split; [|constructor]. by split; intros; set_solver. }
  destruct Hi as [[Hs Hm] Hf]. rewrite Forall_forall in Hf. splits.
  - intros s a a' H1%Hf H2%Hf. cbn in *. congruence.
  - intros s s' a H1%Hf%Hs H2%Hf%Hs. congruence.
  - intros s s' a a' id id' c H1%Hf%Hs H2%Hf%Hs H3%Hf. destruct H3 as (s0 & Hs0 & ->).
    assert (s0 = s) as -> by congruence. split; [done|]. intros L1 L2 E. apply metricName_inj in E; [|done..]. by simplify_eq.
Qed.

(** Two goroutines that both miss the cache, then a counter. *)
Definition demoCalls : list mcall := [SGot "a" 0; SGot "a" 0; CGot 0 7 (SubMsg "a" 7)].

Lemma demo_race : ∃ ca, rtc mstep mstart (mkMS ca demoCalls).
Proof.
  eexists. eapply rtc_l; [apply (ms_sub "a")|]. eapply rtc_l; [apply (ms_sub "a")|].
  cbn [m_ca m_calls mstart app].
  eapply rtc_l; [eapply (ms_run 0); reflexivity|]. eapply rtc_l; [eapply (ms_run 1); reflexivity|].
  eapply rtc_l; [eapply (ms_run 0); reflexivity|]. eapply rtc_l; [eapply (ms_run 1); reflexivity|].
  eapply rtc_l; [eapply (ms_msg "a" 0 7); left|]. cbn [m_ca m_calls app insert list_insert].
  eapply rtc_l; [eapply (ms_run 2); reflexivity|]. eapply rtc_l; [eapply (ms_run 2); reflexivity|]. apply rtc_refl.
Qed.

Lemma metrics_shared_witness : SubMsg "a" 7 = SubMsg "a" 7.
Proof.
  destruct demo_race as [ca Hr]. destruct (metrics_shared _ Hr) as (_ & _ & H).
  apply (H "a" "a" 0%nat 0%nat 7 7 (SubMsg "a" 7)); [left|left|right; right; left].
Defined.

(** The histograms are cached under their own message id. *)
Lemma latencies_cached msgID (m : gmap Z metric) :
  (∀ id c, m !! id = Some c → c = HandlerLatency id) →
  let '(m', c) := GetHandlerLatencyMetric msgID m in
  c = HandlerLatency msgID ∧ (∀ id c, m' !! id = Some c → c = HandlerLatency id) ∧ ∀ id c, m !! id = Some c → m' !! id = Some c.
Proof.
  intros Hm. unfold GetHandlerLatencyMetric, loadOrStore. destruct (m !! msgID) as [c|] eqn:E; [by splits; [apply Hm|..]|].
  splits; [done| |].
  - intros id c. rewrite lookup_insert_Some. intros [[<- <-]|[_ ?]]; [done|by apply Hm].
  - intros id c Hc. rewrite lookup_insert_ne; [done|]. congruence.
Qed.

(** ** Counts *)

Definition IncAll (incs : list metric) (reg : registry) : registry := fold_left (λ reg m, IncMetric m reg) incs reg.

(** A counter holds how often it was incremented, whatever else was. *)
Lemma counts_exact incs reg m : labelOk m → Forall labelOk incs →
  default 0 (IncAll incs reg !! metricName m) = default 0 (reg !! metricName m) + len (filter (λ x, x = m) incs).
Proof.
  intros Hm Hf. revert reg. induction Hf as [|x incs Hx Hf IH]; intros reg; [change (len (filter _ [])) with 0; unfold IncAll; cbn [fold_left]; lia|].
  cbn [IncAll fold_left]. fold (IncAll incs (IncMetric x reg)). rewrite IH. unfold IncMetric.
  destruct (decide (x = m)) as [->|Hne].
  - rewrite lookup_insert_eq, filter_cons_True, len_cons by done. change (default 0 (Some ?x)) with x. lia.
  - rewrite lookup_insert_ne, filter_cons_False by (try done; by intros E%metricName_inj). done.
Qed.

(** ** The connection's gauge: [setupNatsConn] *)

(** The state of the connection, with the server it is connected to. *)
Inductive natsState := NConnected (url : string) | NDisconnected.

Section Nats.
Context (ConnectedUrl : natsState → string).

Record natsSys := mkNS { n_state : natsState; n_reg : registry }.

(** [Connect] with [RetryOnFailedConnect] succeeds although no server is reached yet. *)
Definition setupNatsConn (connect : result natsState) (connectString : string) (reg : registry) : result natsSys :=
  match connect with
  | Err e => Err e
  | Ok st => Ok (mkNS st (SetNatsConnStatus connectString 1 reg))
  end.

Definition DisconnectErrHandler (st : natsState) (reg : registry) : registry := SetNatsConnStatus (ConnectedUrl st) 0 reg.
Definition ReconnectHandler (st : natsState) (reg : registry) : registry :=
  IncNatsReconnect (ConnectedUrl st) (SetNatsConnStatus (ConnectedUrl st) 1 reg).
(** [slow]: the error is [ErrSlowConsumer]. *)
Definition ErrorHandler (slow : bool) (subject : string) (reg : registry) : registry :=
  if slow then IncSlowConsumer subject reg else reg.

Inductive natsStep : natsSys → natsSys → Prop :=
| ns_down s : natsStep s (mkNS NDisconnected (DisconnectErrHandler NDisconnected (n_reg s)))
| ns_up u s : count cqt u = 0%nat → natsStep s (mkNS (NConnected u) (ReconnectHandler (NConnected u) (n_reg s)))
| ns_err slow subject s : count cqt subject = 0%nat → natsStep s (mkNS (n_state s) (ErrorHandler slow subject (n_reg s))).

(** [ConnectedUrl] is the URL of the server the client is connected to, else empty; the
    handler of a disconnection runs when the client has left its server. *)
Hypothesis ConnectedUrl_up : ∀ u, ConnectedUrl (NConnected u) = u.
Hypothesis ConnectedUrl_down : ConnectedUrl NDisconnected = EmptyString.

Definition gauge (server : string) (s : natsSys) : Z := default 0 (n_reg s !! metricName (NatsConnStatus server)).

Lemma gauge_other server m v reg st :
  count cqt server = 0%nat → labelOk m → m ≠ NatsConnStatus server →
  gauge server (mkNS st (<[metricName m := v]> reg)) = default 0 (reg !! metricName (NatsConnStatus server)).
Proof. intros Hs Hl Hne. unfold gauge. cbn [n_reg]. rewrite lookup_insert_ne; [done|]. by intros E%metricName_inj. Qed.

(** The gauge of the connection never shows an outage: once it has been set for a
    server, by the setup (reached or not) or by a reconnection, no disconnection resets it,
    because while it is disconnected the client has no server to name: the gauge that is
    set to 0 is that of the empty name. *)
Theorem outage_not_shown server s s' :
  server ≠ EmptyString → count cqt server = 0%nat → gauge server s = 1 → rtc natsStep s s' → gauge server s' = 1.
Proof.
  intros Hne Hq Hg Hr. revert Hg. induction Hr as [|s s1 s' Hs _ IH]; [done|]. intros Hg. apply IH. clear IH s'.
  destruct Hs as [s|u s Hu|slow subject s Hsub].
  - unfold DisconnectErrHandler, SetNatsConnStatus, SetMetric. rewrite ConnectedUrl_down, gauge_other; [done..|]. intros [= E]. by destruct Hne.
  - unfold ReconnectHandler, IncNatsReconnect, SetNatsConnStatus, IncMetric, SetMetric. rewrite ConnectedUrl_up, gauge_other by done.
    destruct (decide (u = server)) as [->|Hus]; [by rewrite lookup_insert_eq|].
    rewrite lookup_insert_ne; [exact Hg|]. intros E%metricName_inj; [|done..]. by simplify_eq.
  - destruct slow; [|done]. unfold ErrorHandler, IncSlowConsumer, IncMetric. by rewrite gauge_other.
Qed.

End Nats.

Definition demoUrl (st : natsState) : string := match st with NConnected u => u | NDisconnected => EmptyString end.

Lemma outage_not_shown_witness :
  ∃ s, setupNatsConn (Ok (NConnected "nats://n1")) "nats://n1" ∅ = Ok s ∧
    gauge "nats://n1" (mkNS NDisconnected (DisconnectErrHandler demoUrl NDisconnected (n_reg s))) = 1.
Proof.
  eexists. split; [reflexivity|].
  eapply (outage_not_shown demoUrl); [done|done|done|done| |apply rtc_once, ns_down]. vm_compute. reflexivity.
Defined.
