(* ===== verification/Shutdown.v ===== *)
(** * internal/game/logon_service: running and closing the service

    The goroutine of [LogonService.run] with its channel, the three savers with their
    queues, the role goroutines as far as they post events, and [Close]: kick the roles
    and wait for them, cancel, wait for the producers, which drain the channel and close
    the savers, and wait for the savers, which write what is left. Each step is one turn
    of a goroutine; the handlers are those of [Logon.v], the writes those of [Saver.v],
    the queues those of [SwapQueue.v]. *)

From S2P Require Import Prelude SwapQueue Role Saver Logon.

Definition opChanSize : Z := 40960.

(** ** A saver and its queue *)

Inductive sphase := SRunning | SClosing | SStopped.
#[export] Instance sphase_eq_dec : EqDecision sphase.
Proof. solve_decision. Defined.

Record sproc := mkSP { sp_q : SwapQueue opSaveData; sp_sv : saver; sp_closeCh : bool; sp_ph : sphase }.

Definition newSaverProc : sproc := mkSP (NewSwapQueue 4096 opChanSize) newSaver false SRunning.

Section Service.
Context (growcap : Z → Z → Z) (loads : DataToSave → bool).

Definition zeroOp : opSaveData := mkOp 0 ∅ false.

Definition set_q (q : SwapQueue opSaveData) (p : sproc) : sproc := mkSP q (sp_sv p) (sp_closeCh p) (sp_ph p).

(** [saver.close] *)
Definition saver_close (p : sproc) : sproc := mkSP (Close (sp_q p)) (sp_sv p) true (sp_ph p).

(** [saver.post]: an error is logged only. *)
Definition post (op : opSaveData) (p : sproc) : sproc := set_q (Push growcap op (sp_q p)).1 p.

(** [saver.postMustSave]: [None] while the queue is full and the push is tried again; a
    closed queue loses the data. *)
Definition postMustSave (op : opSaveData) (p : sproc) : option sproc :=
  let '(q, err) := Push growcap op (sp_q p) in
  match err with
  | None => Some (set_q q p)
  | Some e => if decide (e = ErrQueueClosed) then Some (set_q q p) else None
  end.

(** [s.q.Range] with [merge] as its callback. *)
Definition collect (p : sproc) : sproc :=
  let '(q, b) := Range zeroOp (λ d '(q, b), (q, merge b d)) (sp_q p, batch (sp_sv p)) in
  mkSP q (mkSaver b (backoff (sp_sv p)) (nextFlush (sp_sv p))) (sp_closeCh p) (sp_ph p).

Definition set_ph (ph : sphase) (p : sproc) : sproc := mkSP (sp_q p) (sp_sv p) (sp_closeCh p) ph.
Definition set_sv (sv : saver) (p : sproc) : sproc := mkSP (sp_q p) sv (sp_closeCh p) (sp_ph p).

(** One turn of [saver.run]: the token, the ticker (or a large batch, or the closing
    loop), the closed channel, the end of the closing loop. *)
Inductive saverTurn : sproc → stores → sproc → stores → Prop :=
| svt_sig p q st : sp_ph p = SRunning → recvSig (sp_q p) = Some q → saverTurn p st (collect (set_q q p)) st
| svt_flush p st env all now sv st' ids :
    sp_ph p ≠ SStopped → all ≡ₚ (map_to_list (batch (sp_sv p))).*2 →
    flushBatch env all now (sp_sv p) st = (sv, st', ids) → saverTurn p st (set_sv sv p) st'
| svt_close p st : sp_ph p = SRunning → sp_closeCh p = true → saverTurn p st (set_ph SClosing (collect p)) st
| svt_done p st : sp_ph p = SClosing → batch (sp_sv p) = ∅ → saverTurn p st (set_ph SStopped p) st.

(** ** The service *)

(** Where [Close] is: waiting for the roles of its snapshot of the registry, for the
    producers, for the savers, or returned. *)
Inductive cphase := CRoles (waiting : gset Z) | CProducers | CConsumers | CDone.

Record service := mkSvc {
  g_data : logonMap; g_ops : list ILogonEvent; g_save : list sproc;
  g_cancelled : bool; g_run : bool;        (* [run] has not returned *)
  g_close : cphase; g_roles : gset Z;      (* the role goroutines *)
  g_db : stores;
  g_logouts : gmap Z fields;               (* what each role that ended handed over *)
  g_late : list Z }.                       (* roles outside of the snapshot *)

(** [Start] makes three savers. When [Close] begins it takes the registered roles as its
    snapshot; a role that is leaving has unregistered but not yet posted its logout. *)
Definition startSavers : list sproc := replicate (Z.to_nat saveGoCnt) newSaverProc.
Definition closing (m : logonMap) (ops : list ILogonEvent) (ps : list sproc) (roles leaving : gset Z) (db : stores)
    : service := mkSvc m ops ps false true (CRoles roles) (roles ∪ leaving) db ∅ (elements leaving).

(** The actions of a handler: a save goes to the queue of its saver, [Register] and
    [Run] start a role; the rest leaves the service. *)
Definition doAct (a : action) (s : service) : option service :=
  match a with
  | ASave i op must =>
      p ← g_save s !! Z.to_nat i;
      p' ← (if must : bool then postMustSave op p else Some (post op p));
      Some (mkSvc (g_data s) (g_ops s) (<[Z.to_nat i := p']> (g_save s)) (g_cancelled s) (g_run s) (g_close s)
                  (g_roles s) (g_db s) (g_logouts s) (g_late s))
  | ARun id _ _ =>
      Some (mkSvc (g_data s) (g_ops s) (g_save s) (g_cancelled s) (g_run s) (g_close s)
                  ({[ id ]} ∪ g_roles s) (g_db s) (g_logouts s) (id :: g_late s))
  | _ => Some s
  end.
Fixpoint doActs (l : list action) (s : service) : option service :=
  match l with [] => Some s | a :: l => s' ← doAct a s; doActs l s' end.

Definition set_data (m : logonMap) (ops : list ILogonEvent) (s : service) : service :=
  mkSvc m ops (g_save s) (g_cancelled s) (g_run s) (g_close s) (g_roles s) (g_db s) (g_logouts s) (g_late s).
Definition set_save (ps : list sproc) (db : stores) (s : service) : service :=
  mkSvc (g_data s) (g_ops s) ps (g_cancelled s) (g_run s) (g_close s) (g_roles s) db (g_logouts s) (g_late s).
Definition set_close (c : cphase) (s : service) : service :=
  mkSvc (g_data s) (g_ops s) (g_save s) (g_cancelled s) (g_run s) c (g_roles s) (g_db s) (g_logouts s) (g_late s).

(** [Logout] blocks while the channel is full; [SaveRole] drops the save. *)
Definition Logout (id : Z) (data : option fields) (s : service) : option service :=
  match data with
  | None => Some (mkSvc (g_data s) (g_ops s) (g_save s) (g_cancelled s) (g_run s) (g_close s)
                        (g_roles s ∖ {[ id ]}) (g_db s) (g_logouts s) (g_late s))
  | Some d =>
      if decide (len (g_ops s) < opChanSize) then
        Some (mkSvc (g_data s) (g_ops s ++ [EvtLogout (mkSave id d)]) (g_save s) (g_cancelled s) (g_run s) (g_close s)
                    (g_roles s ∖ {[ id ]}) (g_db s) (<[id := d]> (g_logouts s)) (g_late s))
      else None
  end.
Definition SaveRole (d : DataToSave) (both : bool) (s : service) : service * bool :=
  if decide (len (g_ops s) < opChanSize)
  then (set_data (g_data s) (g_ops s ++ [EvtSaveRole d both]) s, true) else (s, false).

(** [run] returns: the savers are closed. *)
Definition runExit (s : service) : service :=
  mkSvc (g_data s) (g_ops s) (saver_close <$> g_save s) (g_cancelled s) false (g_close s)
        (g_roles s) (g_db s) (g_logouts s) (g_late s).
Definition cancel (s : service) : service :=
  mkSvc (g_data s) (g_ops s) (g_save s) true (g_run s) CProducers
        (g_roles s) (g_db s) (g_logouts s) (g_late s).

(** Events that do not come from role goroutines: logins, loaded data, re-entries,
    reports of the savers. *)
Definition fromOutside (e : ILogonEvent) : Prop :=
  match e with EvtLogout _ | EvtSaveRole _ _ => False | _ => True end.

Inductive cstep : service → service → Prop :=
| c_exit s s' id d : id ∈ g_roles s → Logout id d s = Some s' → cstep s s'
| c_save s d both : ds_RoleID d ∈ g_roles s → cstep s (SaveRole d both s).1
| c_post s e : fromOutside e → len (g_ops s) < opChanSize → cstep s (set_data (g_data s) (g_ops s ++ [e]) s)
| c_turn s s' e rest now :                          (* [run] and [drainOps] *)
    g_run s = true → g_ops s = e :: rest →
    doActs (onOps loads now (g_data s) e).2 (set_data (onOps loads now (g_data s) e).1 rest s) = Some s' → cstep s s'
| c_cleanup s s' now :
    g_run s = true →
    doActs (cleanup now (g_data s)).2 (set_data (cleanup now (g_data s)).1 (g_ops s) s) = Some s' → cstep s s'
| c_runExit s : g_run s = true → g_cancelled s = true → g_ops s = [] → cstep s (runExit s)
| c_saver s i p p' db' :
    g_save s !! i = Some p → saverTurn p (g_db s) p' db' → cstep s (set_save (<[i := p']> (g_save s)) db' s)
| c_rolesGone s w : g_close s = CRoles w → w ∩ g_roles s = ∅ → cstep s (cancel s)
| c_producers s : g_close s = CProducers → g_run s = false → cstep s (set_close CConsumers s)
| c_consumers s : g_close s = CConsumers → Forall (λ p, sp_ph p = SStopped) (g_save s) → cstep s (set_close CDone s).

(** ** Queues and savers *)

Definition slot (id : Z) : nat := Z.to_nat (id mod saveGoCnt).

Lemma slot_small id : (slot id < 3)%nat.
Proof. unfold slot, saveGoCnt. pose proof (Z.mod_pos_bound id 3). lia. Qed.

(** What a role's saver will have stored for it once queue and batch are written. *)
Definition willStore (p : sproc) (db : stores) (id : Z) : fields :=
  overlay (write (sp_q p)) id (view (batch (sp_sv p)) db id).

Lemma push_cases op (q : SwapQueue opSaveData) :
  let '(q', err) := Push growcap op q in
  closed q' = closed q ∧
  match err with
  | None => closed q = false ∧ write q' = write q ++ [op]
  | Some e => write q' = write q ∧ (e = ErrQueueClosed → closed q = true)
  end.
Proof.
  unfold Push. destruct (pushData_cases growcap op q) as [[? ->]|[(? & ? & ->)|(? & ? & ->)]]; cbn; done.
Qed.

Lemma overlay_snoc l op id f :
  overlay (l ++ [op]) id f = if decide (op_ID op = id) then op_Data op ∪ overlay l id f else overlay l id f.
Proof. unfold overlay. by rewrite fold_left_app. Qed.

Lemma merge_all_view l b db id : view (fold_left merge l b) db id = overlay l id (view b db id).
Proof.
  unfold overlay. revert b. induction l as [|d l IH]; intros b; [done|]. cbn [fold_left].
  rewrite IH, merge_view. done.
Qed.

Lemma collect_eq p :
  collect p = mkSP (match write (sp_q p) with [] => sp_q p | _ => finish zeroOp (swap (sp_q p)) end)
                   (mkSaver (fold_left merge (write (sp_q p)) (batch (sp_sv p))) (backoff (sp_sv p)) (nextFlush (sp_sv p)))
                   (sp_closeCh p) (sp_ph p).
Proof.
  unfold collect, Range. destruct (write (sp_q p)) as [|d l] eqn:E; [done|]. cbn [read swap]. rewrite E.
  assert (H : ∀ l q b, fold_left (λ st x, (λ d '(q, b), (q, merge b d)) x st) l (q, b) =
                       ((q : SwapQueue opSaveData), fold_left merge l b)).
  { clear. induction l as [|d l IH]; intros q b; [done|]. cbn [fold_left]. apply IH. }
  by rewrite H.
Qed.

Lemma collect_write p : write (sp_q (collect p)) = [] ∧ closed (sp_q (collect p)) = closed (sp_q p).
Proof. rewrite collect_eq. cbn. by destruct (write (sp_q p)) eqn:E. Qed.

Lemma collect_willStore p db id : willStore (collect p) db id = willStore p db id.
Proof.
  unfold willStore at 1. destruct (collect_write p) as [-> _]. rewrite collect_eq. cbn. apply merge_all_view.
Qed.

(** The queue and the batch of saver [i] are about roles of its slot. *)
Definition sproc_ok (i : nat) (p : sproc) : Prop :=
  batch_wf (batch (sp_sv p)) ∧ (∀ k d, batch (sp_sv p) !! k = Some d → slot k = i) ∧
  Forall (λ op, slot (op_ID op) = i) (write (sp_q p)).

Lemma merge_slot i l b :
  batch_wf b → (∀ k d, b !! k = Some d → slot k = i) → Forall (λ op, slot (op_ID op) = i) l →
  batch_wf (fold_left merge l b) ∧ ∀ k d, fold_left merge l b !! k = Some d → slot k = i.
Proof.
  revert b. induction l as [|op l IH]; intros b Hb Hs Hf; [done|]. inversion Hf as [|? ? Hop Hl]; subst.
  cbn [fold_left]. apply IH; [by apply merge_wf| |done]. intros k d. unfold merge.
  destruct (b !! op_ID op); rewrite lookup_insert_Some; intros [[<- _]|[_ Hk]]; try done; by eapply Hs.
Qed.

Lemma collect_ok i p : sproc_ok i p → sproc_ok i (collect p).
Proof.
  intros (Hb & Hs & Hq). destruct (merge_slot i _ _ Hb Hs Hq) as [H1 H2]. split; [|split].
  - by rewrite collect_eq.
  - by rewrite collect_eq.
  - destruct (collect_write p) as [-> _]. constructor.
Qed.

(** A flush changes neither what will be stored for the saver's own roles nor what is
    stored for others, and does not touch the queue. *)
Lemma flush_willStore p st env all now sv st' ids id :
  batch_wf (batch (sp_sv p)) → all ≡ₚ (map_to_list (batch (sp_sv p))).*2 →
  flushBatch env all now (sp_sv p) st = (sv, st', ids) →
  willStore (set_sv sv p) st' id = willStore p st id ∧
  (batch (sp_sv p) !! id = None → stored st' id = stored st id) ∧ (batch sv = ∅ ∨ batch sv = batch (sp_sv p)).
Proof.
  intros Hb Hp E. unfold flushBatch in E.
  destruct (decide (batch (sp_sv p) = ∅)) as [E0|]; [simplify_eq; splits; [by destruct p|done|by right]|].
  destruct (decide (now < _)); [simplify_eq; splits; [by destruct p|done|by right]|].
  destruct (saveBatch env all st) as [[st1 ids1] err] eqn:Es.
  destruct (flush_view _ _ _ _ _ _ _ id Hb Hp Es) as [Hv Hn]. unfold willStore.
  assert (Ho : batch (sp_sv p) !! id = None → stored st1 id = stored st id).
  { intros Ei. unfold view, pending in Hv. rewrite Ei in Hv. cbn in Hv. by rewrite !map_empty_union in Hv. }
  destruct err as [e|]; simplify_eq; cbn.
  - splits; [by rewrite Hv|done|by right].
  - splits; [|done|by left]. unfold view at 1, pending. rewrite lookup_empty. cbn.
    by rewrite map_empty_union, Hn.
Qed.

(** ** The invariant *)

Definition sproc_ph (running : bool) (p : sproc) : Prop :=
  (running = true → closed (sp_q p) = false ∧ sp_closeCh p = false ∧ sp_ph p = SRunning) ∧
  (sp_closeCh p = true → closed (sp_q p) = true) ∧
  (sp_ph p = SRunning ∨ closed (sp_q p) = true ∧ write (sp_q p) = []) ∧
  (sp_ph p = SStopped → batch (sp_sv p) = ∅).

Definition savers_ok (s : service) : Prop :=
  length (g_save s) = 3%nat ∧ ∀ i p, g_save s !! i = Some p → sproc_ok i p ∧ sproc_ph (g_run s) p.

Definition savesFor (id : Z) (e : ILogonEvent) : Prop :=
  match e with EvtLogout d | EvtSaveRole d _ => ds_RoleID d = id | _ => False end.

(** The role's last data are in the channel, or with its saver; in the latter case the
    cache has nothing else that a cleanup could write. *)
Definition onItsWay (id : Z) (D : fields) (s : service) : Prop :=
  ∃ pre rest, g_ops s = pre ++ EvtLogout (mkSave id D) :: rest ∧ Forall (λ e, ¬ savesFor id e) rest.
Definition cached (id : Z) (D : fields) (m : logonMap) : Prop :=
  ∀ v, m !! id = Some v → Cache v = D ∨ Cache v = ∅.
Definition held (id : Z) (D : fields) (s : service) : Prop :=
  ∃ p, g_save s !! slot id = Some p ∧ D ⊆ willStore p (g_db s) id.
Definition arrived (id : Z) (D : fields) (s : service) : Prop :=
  Forall (λ e, ¬ savesFor id e) (g_ops s) ∧ cached id D (g_data s) ∧ held id D s.

Definition safe (s : service) : Prop :=
  ∀ id D, g_logouts s !! id = Some D → id ∉ g_late s →
    (id ∉ g_roles s) ∧ (g_run s = true ∧ onItsWay id D s ∨ arrived id D s).

Definition onlyLate (s : service) : Prop := ∀ id, id ∈ g_roles s → id ∈ g_late s.

Definition close_ok (s : service) : Prop :=
  match g_close s with
  | CRoles w => g_cancelled s = false ∧ g_run s = true ∧ ∀ id, id ∈ g_roles s → id ∉ g_late s → id ∈ w
  | CProducers => onlyLate s
  | CConsumers => onlyLate s ∧ g_run s = false
  | CDone => onlyLate s ∧ g_run s = false ∧ Forall (λ p, sp_ph p = SStopped) (g_save s)
  end.

Definition cinv (s : service) : Prop := savers_ok s ∧ safe s ∧ close_ok s.

(** ** Turns of the service *)

(** What the actions of a turn may change: queues, and roles that start. *)
Definition evolves (s s' : service) : Prop :=
  g_data s' = g_data s ∧ g_ops s' = g_ops s ∧ g_cancelled s' = g_cancelled s ∧ g_run s' = g_run s ∧
  g_close s' = g_close s ∧ g_db s' = g_db s ∧ g_logouts s' = g_logouts s ∧
  (∀ x, x ∈ g_late s → x ∈ g_late s') ∧ (∀ x, x ∈ g_roles s' → x ∈ g_roles s ∨ x ∈ g_late s').

Lemma evolves_refl s : evolves s s.
Proof. unfold evolves. splits; auto. Qed.
Lemma evolves_trans s1 s2 s3 : evolves s1 s2 → evolves s2 s3 → evolves s1 s3.
Proof.
  unfold evolves. intros (? & ? & ? & ? & ? & ? & ? & Hl & Hr) (? & ? & ? & ? & ? & ? & ? & Hl' & Hr').
  splits; try congruence; [by auto|]. intros x Hx. destruct (Hr' x Hx) as [Hx'|]; [|by right].
  destruct (Hr x Hx'); auto.
Qed.

Lemma sproc_push i op p q err :
  slot (op_ID op) = i → sproc_ok i p → sproc_ph true p → Push growcap op (sp_q p) = (q, err) →
  sproc_ok i (set_q q p) ∧ sproc_ph true (set_q q p).
Proof.
  intros Hop (Hb & Hk & Hq) (H1 & H2 & H3 & H4) E. pose proof (push_cases op (sp_q p)) as Hc. rewrite E in Hc.
  destruct (H1 eq_refl) as (Hcl & Hch & Hph). destruct Hc as [Hc Hw]. unfold sproc_ok, sproc_ph. cbn.
  rewrite Hc, Hcl, Hch, Hph. destruct err as [e|].
  - destruct Hw as [-> _]. splits; try done. by left.
  - destruct Hw as [_ ->]. splits; try done; [|by left]. apply Forall_app. split; [done|by repeat constructor].
Qed.

(** A push lays the save over what will be stored, or is refused. *)
Lemma push_willStore op p q err db id D :
  Push growcap op (sp_q p) = (q, err) → (op_ID op = id → op_Data op = D ∨ op_Data op = ∅) →
  D ⊆ willStore p db id → D ⊆ willStore (set_q q p) db id.
Proof.
  intros E Hop HD. pose proof (push_cases op (sp_q p)) as Hc. rewrite E in Hc. destruct Hc as [_ Hw].
  unfold willStore. cbn. destruct err as [e|]; [by destruct Hw as [-> _]|]. destruct Hw as [_ ->].
  rewrite overlay_snoc. destruct (decide (op_ID op = id)) as [Hid|]; [|done].
  destruct (Hop Hid) as [-> | ->]; [apply map_union_subseteq_l|by rewrite map_empty_union].
Qed.

Definition actionOk (P : opSaveData → Prop) (a : action) : Prop :=
  match a with ASave i op _ => i = op_ID op mod saveGoCnt ∧ P op | _ => True end.

(** A save action is a push to the role's saver. *)
Lemma doAct_save i op must s s' :
  i = op_ID op mod saveGoCnt → doAct (ASave i op must) s = Some s' →
  ∃ p q err, g_save s !! slot (op_ID op) = Some p ∧ Push growcap op (sp_q p) = (q, err) ∧
    s' = set_save (<[slot (op_ID op) := set_q q p]> (g_save s)) (g_db s) s ∧
    (must = true → err = None ∨ err = Some ErrQueueClosed).
Proof.
  intros -> E. cbn [doAct] in E. fold (slot (op_ID op)) in E. destruct (g_save s !! slot (op_ID op)) as [p|] eqn:Ep; [|done].
  cbn in E. destruct (Push growcap op (sp_q p)) as [q err] eqn:Eq.
  exists p, q, err. split; [done|]. split; [done|]. unfold post, postMustSave in E. rewrite Eq in E. destruct must.
  - destruct err as [e|]; [destruct (decide (e = ErrQueueClosed)) as [->|]; [|done]|]; injection E as <-;
      (split; [done|auto]).
  - injection E as <-. by split.
Qed.

Lemma doAct_step (P : opSaveData → Prop) a s s' :
  savers_ok s → g_run s = true → actionOk P a → doAct a s = Some s' →
  savers_ok s' ∧ evolves s s' ∧
  (∀ id D, (∀ op, P op → op_ID op = id → op_Data op = D ∨ op_Data op = ∅) → held id D s → held id D s') ∧
  (∀ id ses d, a = ARun id ses d → id ∈ g_late s').
Proof.
  intros [Hl Hok] Hrun Ha E. destruct a as [ld l|i op must|l|id ses d|id seq];
    try (injection E as <-; splits; [done|apply evolves_refl|done|done]).
  - destruct Ha as [Hi HP]. apply doAct_save in E as (p & q & err & Ep & Eq & -> & _); [|done].
    destruct (Hok _ _ Ep) as [Ho Hp]. rewrite Hrun in Hp.
    destruct (sproc_push _ op p q err eq_refl Ho Hp Eq) as [Ho' Hp']. splits.
    + split; [by cbn; rewrite length_insert|]. intros j p'. cbn. rewrite Hrun. intros Hj.
      apply list_lookup_insert_Some in Hj as [(<- & <- & _)|[_ Hj]]; [done|]. rewrite <- Hrun. by apply Hok.
    + unfold evolves. cbn. splits; auto.
    + intros id D Hd (p0 & E0 & H0). unfold held. cbn. destruct (decide (slot (op_ID op) = slot id)) as [Es|Es].
      * rewrite Es in *. simplify_eq. exists (set_q q p). split; [apply list_lookup_insert_eq; by eapply lookup_lt_Some|].
        eapply push_willStore; [done| |done]. by apply Hd.
      * exists p0. by rewrite list_lookup_insert_ne.
    + done.
  - injection E as <-. splits; [done| |done|intros ? ? ? [= <- _ _]; by left].
    unfold evolves. cbn. splits; auto.
    + intros x Hx. by right.
    + intros x [->%elem_of_singleton|]%elem_of_union; [right; by left|by left].
Qed.

Lemma doActs_steps (P : opSaveData → Prop) l s s' :
  savers_ok s → g_run s = true → Forall (actionOk P) l → doActs l s = Some s' →
  savers_ok s' ∧ evolves s s' ∧
  (∀ id D, (∀ op, P op → op_ID op = id → op_Data op = D ∨ op_Data op = ∅) → held id D s → held id D s') ∧
  (∀ id ses d, ARun id ses d ∈ l → id ∈ g_late s').
Proof.
  intros Hok Hrun Hf. revert s Hok Hrun. induction Hf as [|a l Ha Hf IH]; intros s Hok Hrun E.
  - injection E as <-. splits; [done|apply evolves_refl|done|]. intros id ses d Hin. by apply elem_of_nil in Hin.
  - cbn [doActs] in E. destruct (doAct a s) as [s1|] eqn:E1; [|done]. cbn in E.
    destruct (doAct_step P a s s1 Hok Hrun Ha E1) as (Hok1 & Hev1 & Hh1 & Hr1).
    destruct (IH s1 Hok1) as (Hok2 & Hev2 & Hh2 & Hr2); [destruct Hev1 as (_ & _ & _ & -> & _); done|done|].
    splits; [done|by eapply evolves_trans|by auto|]. intros id ses d [E0|Hin]%elem_of_cons; [|by eapply Hr2].
    destruct Hev2 as (_ & _ & _ & _ & _ & _ & _ & Hlate & _). apply Hlate. by apply (Hr1 id ses d).
Qed.

(** ** What the handlers do to the cache and ask of the savers *)

Lemma onOps_saves now m e : Forall (actionOk (λ op, savesFor (op_ID op) e)) (onOps loads now m e).2.
Proof.
  assert (Hi : ∀ P d l, Forall (actionOk P) (initRole loads now d l m).2).
  { intros P d l. unfold initRole. destruct (negb _); [constructor|]. destruct (decide _); [constructor|].
    destruct (m !! ds_RoleID d); cbn; by repeat constructor. }
  destruct e as [l|l d|l|d|d b|ids]; cbn [onOps].
  - unfold opSignIn. destruct (m !! lg_RoleID l) as [v|] eqn:E; cbn [State].
    + destruct (State v); try case_decide; try apply Hi; by repeat constructor.
    + by repeat constructor.
  - apply Hi.
  - unfold opReentry. destruct (m !! lg_RoleID l); [apply Hi|constructor].
  - by repeat constructor.
  - by repeat constructor.
  - constructor.
Qed.

Lemma cached_alter id D f i m :
  (∀ v, Cache (f v) = Cache v) → cached id D m → cached id D (alter f i m).
Proof.
  intros Hf Hc v. destruct (decide (i = id)) as [->|]; [rewrite lookup_alter_eq|rewrite lookup_alter_ne by done; apply Hc].
  destruct (m !! id) as [w|] eqn:E; [|done]. cbn. intros [= <-]. rewrite Hf. by apply Hc.
Qed.

Lemma initRole_cached now d l m id D :
  cached id D m → (∀ ses x, ARun id ses x ∉ (initRole loads now d l m).2) → cached id D (initRole loads now d l m).1.
Proof.
  intros Hc. unfold initRole. destruct (negb (loads d)); [intros _; by apply cached_alter|].
  destruct (decide (ds_RoleID d ≠ lg_RoleID l)); [intros _; by apply cached_alter|].
  destruct (m !! ds_RoleID d) as [v|] eqn:E; [|done]. cbn. intros Hr. destruct (decide (ds_RoleID d = id)) as [<-|Hn].
  - destruct (Hr (lg_SesID l) d). by apply list_elem_of_singleton.
  - intros w. rewrite lookup_insert_ne by done. apply Hc.
Qed.

Lemma saveSuccess_cached now ids m id D : cached id D m → cached id D (saveSuccess now ids m).
Proof.
  unfold saveSuccess. revert m. induction ids as [|i ids IH]; intros m Hc; [done|]. cbn [fold_left]. apply IH.
  apply cached_alter; [|done]. intros v. by case_decide.
Qed.

(** Until the role starts again, its cache stays what it handed over. *)
Lemma onOps_cached now m e id D :
  cached id D m → ¬ savesFor id e → (∀ ses x, ARun id ses x ∉ (onOps loads now m e).2) →
  cached id D (onOps loads now m e).1.
Proof.
  intros Hc He. destruct e as [l|l d|l|d|d b|ids]; cbn [onOps savesFor] in *.
  - unfold opSignIn. destruct (m !! lg_RoleID l) as [v|] eqn:E; cbn [State].
    + destruct (State v); try case_decide; try apply initRole_cached; try (intros _; by apply cached_alter); done.
    + intros _. cbn. apply cached_alter; [done|]. intros w. destruct (decide (lg_RoleID l = id)) as [<-|].
      * rewrite lookup_insert_eq. intros [= <-]. by right.
      * rewrite lookup_insert_ne by done. apply Hc.
  - by apply initRole_cached.
  - unfold opReentry. destruct (m !! lg_RoleID l); [by apply initRole_cached|done].
  - intros _ v. cbn. rewrite lookup_alter_ne, lookup_alter_ne by done. apply Hc.
  - intros _ v. cbn. rewrite lookup_alter_ne by done. apply Hc.
  - intros _. by apply saveSuccess_cached.
Qed.

Lemma cleanup_saves now m :
  Forall (actionOk (λ op, ∃ v, m !! op_ID op = Some v ∧ op_Data op = Cache v)) (cleanup now m).2.
Proof.
  apply Forall_forall. intros a Ha. unfold cleanup in Ha. cbn [snd] in Ha.
  apply list_elem_of_bind in Ha as ([k v] & Ha & Hk). apply elem_of_map_to_list in Hk. unfold cleanupEntry in Ha.
  apply elem_of_app in Ha as [Ha|Ha].
  - case_decide; [|by apply elem_of_nil in Ha]. apply list_elem_of_singleton in Ha as ->. split; [done|]. by exists v.
  - case_decide; [|by apply elem_of_nil in Ha]. by apply list_elem_of_singleton in Ha as ->.
Qed.

Lemma cleanup_cached now m id D : cached id D m → cached id D (cleanup now m).1.
Proof. intros Hc v Hv. cbn in Hv. apply map_lookup_filter_Some_1_1 in Hv. by apply Hc. Qed.

(** ** Preservation *)

Lemma saverTurn_ok running i p st p' st' :
  saverTurn p st p' st' → sproc_ok i p → sproc_ph running p →
  sproc_ok i p' ∧ sproc_ph running p' ∧ (∀ id, willStore p' st' id = willStore p st id) ∧
  (∀ id, slot id ≠ i → stored st' id = stored st id).
Proof.
  intros Ht Ho (H1 & H2 & H3 & H4).
  destruct Ht as [p q st Hph Hq|p st env all now sv st' ids Hph Hp E|p st Hph Hch|p st Hph Hb].
  - assert (Eq : write q = write (sp_q p) ∧ closed q = closed (sp_q p)).
    { unfold recvSig in Hq. destruct (sig (sp_q p)); [|done]. by injection Hq as <-. }
    destruct Eq as [Ew Ec], (collect_write (set_q q p)) as [Hw Hcl]. splits.
    + apply collect_ok. destruct Ho as (? & ? & ?). split; [done|]. cbn. by rewrite Ew.
    + unfold sproc_ph. rewrite Hcl, Hw, collect_eq. cbn. rewrite Ec, Hph in *. splits; auto. done.
    + intros id. rewrite collect_willStore. unfold willStore. cbn. by rewrite Ew.
    + done.
  - destruct Ho as (Hb & Hs & Hq). splits.
    + destruct (flush_willStore p st env all now sv st' ids 0 Hb Hp E) as (_ & _ & [Eb|Eb]); unfold sproc_ok; cbn; rewrite Eb;
        splits; auto; by intros ? ? ?%lookup_empty_Some.
    + unfold sproc_ph. cbn. splits; auto. done.
    + intros id. by eapply flush_willStore.
    + intros id Hn. eapply flush_willStore; [done..|]. destruct (batch (sp_sv p) !! id) eqn:Ei; [|done].
      by apply Hs in Ei.
  - destruct (collect_write p) as [Hw Hcl]. splits.
    + by apply collect_ok.
    + unfold sproc_ph. cbn. rewrite Hw, Hcl, collect_eq. cbn. rewrite Hch in *. splits; auto; [|done].
      intros E. by destruct (H1 E) as (_ & ? & _).
    + intros id. apply collect_willStore.
    + done.
  - splits; [done| |done|done]. unfold sproc_ph. cbn. rewrite Hph in *. splits; auto.
    + intros E. by destruct (H1 E) as (_ & _ & ?).
    + destruct H3 as [?|H3]; [done|by right].
Qed.

Lemma held_saver s i p p' db' id D :
  savers_ok s → g_save s !! i = Some p → saverTurn p (g_db s) p' db' → held id D s →
  held id D (set_save (<[i := p']> (g_save s)) db' s).
Proof.
  intros [_ Hok] Ei Ht (p0 & E0 & H0). destruct (Hok i p Ei) as [Ho Hp].
  destruct (saverTurn_ok _ _ _ _ _ _ Ht Ho Hp) as (_ & _ & Hw & Hs). unfold held. cbn.
  destruct (decide (i = slot id)) as [->|Hn].
  - simplify_eq. exists p'. split; [apply list_lookup_insert_eq; by eapply lookup_lt_Some|]. by rewrite Hw.
  - exists p0. split; [by rewrite list_lookup_insert_ne|]. unfold willStore, view in *. by rewrite Hs.
Qed.

(** An event that is no save of a role that has ended may join the channel. *)
Lemma safe_more_ops s e :
  safe s → (∀ id, is_Some (g_logouts s !! id) → id ∉ g_late s → ¬ savesFor id e) →
  safe (set_data (g_data s) (g_ops s ++ [e]) s).
Proof.
  intros Hs He id D E Hl. destruct (Hs id D E Hl) as [Hr Hd]. split; [done|].
  assert (Hn : ¬ savesFor id e) by (apply He; [by eexists|done]).
  destruct Hd as [(Hrun & pre & rest & Eo & Hf)|(Hf & Hc & Hh)]; [left|right].
  - split; [done|]. exists pre, (rest ++ [e]). cbn. rewrite Eo, <- app_assoc. split; [done|].
    apply Forall_app. split; [done|by repeat constructor].
  - split; [|done]. cbn. apply Forall_app. split; [done|by repeat constructor].
Qed.

(** A role that ends. *)
Lemma safe_exit s s' id d :
  safe s → close_ok s → id ∈ g_roles s → Logout id d s = Some s' → safe s'.
Proof.
  intros Hs Hc Hid E. destruct d as [d|]; cbn in E; [case_decide; [|done]|]; injection E as <-; intros i D Ei Hl; cbn in *.
  - destruct (decide (id = i)) as [->|Hn].
    + rewrite lookup_insert_eq in Ei. injection Ei as ->. split; [by intros [_ []%not_elem_of_singleton]%elem_of_difference|].
      left. split; [|by exists (g_ops s), []]. unfold close_ok, onlyLate in Hc.
      destruct (g_close s); destruct_and?; [done|exfalso; eauto..].
    + rewrite lookup_insert_ne in Ei by done. destruct (Hs i D Ei Hl) as [Hr Hd].
      split; [by intros [? _]%elem_of_difference|]. destruct Hd as [(Hrun & pre & rest & Eo & Hf)|(Hf & Hca & Hh)]; [left|right].
      * split; [done|]. exists pre, (rest ++ [EvtLogout (mkSave id d)]). cbn. rewrite Eo, <- app_assoc. split; [done|].
        apply Forall_app. split; [done|]. by repeat constructor.
      * split; [|done]. cbn. apply Forall_app. split; [done|]. by repeat constructor.
  - destruct (Hs i D Ei Hl) as [Hr Hd]. split; [by intros [? _]%elem_of_difference|done].
Qed.

(** The turn that handles a role's logout gives its data to the saver. *)
Lemma logout_turn_holds now id D m s s' :
  savers_ok s → g_run s = true → doActs (roleOffline now (mkSave id D) m).2 s = Some s' → held id D s'.
Proof.
  intros [_ Hok] Hrun E. unfold roleOffline, saveMust in E. cbn [snd doActs op_ID ds_RoleID ds_Data] in E.
  destruct (doAct _ s) as [s1|] eqn:E1; [|done]. injection E as <-.
  apply doAct_save in E1 as (p & q & err & Ep & Eq & -> & He); [|done]. cbn [op_ID] in *.
  destruct (Hok _ _ Ep) as [_ Hp]. rewrite Hrun in Hp. destruct Hp as (Hp & _). destruct (Hp eq_refl) as (Hcl & _ & _).
  pose proof (push_cases (mkOp id D false) (sp_q p)) as Hc. rewrite Eq in Hc. destruct Hc as [_ Hc].
  destruct (He eq_refl) as [-> | ->]; [|destruct Hc as [_ Hc]; rewrite Hc in Hcl by done; done]. destruct Hc as [_ Hw].
  exists (set_q q p). cbn. split; [apply list_lookup_insert_eq; by eapply lookup_lt_Some|].
  unfold willStore. cbn. rewrite Hw, overlay_snoc. cbn. rewrite decide_True by done. apply map_union_subseteq_l.
Qed.

Lemma safe_turn s s' e rest now :
  savers_ok s → safe s → g_run s = true → g_ops s = e :: rest →
  doActs (onOps loads now (g_data s) e).2 (set_data (onOps loads now (g_data s) e).1 rest s) = Some s' →
  savers_ok s' ∧ safe s' ∧ evolves (set_data (onOps loads now (g_data s) e).1 rest s) s'.
Proof.
  intros Hok Hs Hrun Eo E. set (s0 := set_data _ rest s) in *.
  destruct (doActs_steps _ _ s0 s' Hok Hrun (onOps_saves now (g_data s) e) E) as (Hok' & Hev & Hh & Hr).
  split; [done|]. split; [|done].
  destruct Hev as (Ed & Eops & _ & Erun & _ & Edb & El & Hlate & Hroles). intros id D Ei Hl. rewrite El in Ei.
  assert (Hl0 : id ∉ g_late s) by (intros H; by apply Hl, Hlate).
  destruct (Hs id D Ei Hl0) as [Hnr Hd]. split; [by intros [?|?]%Hroles|].
  destruct Hd as [(_ & pre & post & Ep & Hf)|(Hf & Hc & Hhd)].
  - rewrite Eo in Ep. destruct pre as [|e' pre]; injection Ep as -> ->.
    + right. unfold arrived. splits; [by rewrite Eops| |exact (logout_turn_holds now id D (g_data s) s0 s' Hok Hrun E)]. rewrite Ed. intros v. cbn.
      rewrite lookup_alter_eq, lookup_alter_eq. destruct (g_data s !! id); [|done]. cbn. intros [= <-]. by left.
    + left. split; [by rewrite Erun|]. exists pre, post. by rewrite Eops.
  - right. rewrite Eo in Hf. inversion Hf as [|? ? He Hf']; subst. unfold arrived. splits.
    + by rewrite Eops.
    + rewrite Ed. cbn. apply onOps_cached; [done|done|]. intros ses x Hin. by apply Hl, (Hr id ses x).
    + apply Hh; [|done]. intros op Hop E1. by rewrite E1 in Hop.
Qed.

Lemma safe_cleanup s s' now :
  savers_ok s → safe s → g_run s = true →
  doActs (cleanup now (g_data s)).2 (set_data (cleanup now (g_data s)).1 (g_ops s) s) = Some s' →
  savers_ok s' ∧ safe s' ∧ evolves (set_data (cleanup now (g_data s)).1 (g_ops s) s) s'.
Proof.
  intros Hok Hs Hrun E. set (s0 := set_data _ _ s) in *.
  destruct (doActs_steps _ _ s0 s' Hok Hrun (cleanup_saves now (g_data s)) E) as (Hok' & Hev & Hh & _).
  split; [done|]. split; [|done].
  destruct Hev as (Ed & Eops & _ & Erun & _ & Edb & El & Hlate & Hroles). intros id D Ei Hl. rewrite El in Ei.
  assert (Hl0 : id ∉ g_late s) by (intros H; by apply Hl, Hlate).
  destruct (Hs id D Ei Hl0) as [Hnr Hd]. split; [by intros [?|?]%Hroles|].
  destruct Hd as [(_ & pre & post & Ep & Hf)|(Hf & Hc & Hhd)].
  - left. split; [by rewrite Erun|]. exists pre, post. by rewrite Eops.
  - right. unfold arrived. splits; [by rewrite Eops|rewrite Ed; by apply cleanup_cached|].
    apply Hh; [|done]. intros op (v & Ev & ->) E1. rewrite E1 in Ev. by apply Hc.
Qed.

(** Roles that join are outside of the snapshot. *)
Lemma close_evolves s s' :
  close_ok s → g_run s = true → evolves s s' → close_ok s'.
Proof.
  intros Hc Hrun (_ & _ & E1 & E2 & E3 & _ & _ & Hlate & Hroles). unfold close_ok, onlyLate in *. rewrite E3, E1, E2.
  destruct (g_close s) as [w| | |]; destruct_and?.
  - splits; [done..|]. intros id Hid Hn. destruct (Hroles id Hid); [|done]. auto.
  - intros id Hid. destruct (Hroles id Hid); auto.
  - congruence.
  - congruence.
Qed.

Lemma savers_close s : savers_ok s → savers_ok (runExit s).
Proof.
  intros [Hl Hok]. split; [by cbn; rewrite length_fmap|]. intros i p'. cbn. rewrite list_lookup_fmap.
  destruct (g_save s !! i) as [p|] eqn:E; [|done]. cbn. intros [= <-].
  destruct (Hok i p E) as [(Hb & Hk & Hq) (_ & _ & H3 & H4)].
  assert (Hw : write (Close (sp_q p)) = write (sp_q p) ∧ closed (Close (sp_q p)) = true).
  { unfold Close. by destruct (closed (sp_q p)) eqn:Ec. }
  destruct Hw as [Hw Hcl]. unfold sproc_ok, sproc_ph. cbn. rewrite Hw, Hcl. splits; try done.
  destruct H3 as [?|[? ?]]; auto.
Qed.

Lemma safe_runExit s : safe s → g_ops s = [] → safe (runExit s).
Proof.
  intros Hs Eo id D Ei Hl. destruct (Hs id D Ei Hl) as [Hr Hd]. split; [done|].
  destruct Hd as [(_ & pre & post & Ep & _)|(Hf & Hc & p & Ep & Hp)].
  - rewrite Eo in Ep. by destruct pre.
  - right. unfold arrived. splits; [done..|]. exists (saver_close p). cbn. rewrite list_lookup_fmap, Ep. split; [done|].
    unfold willStore in *. cbn. replace (write (Close (sp_q p))) with (write (sp_q p)); [done|].
    unfold Close. by destruct (closed (sp_q p)).
Qed.

Lemma close_shrinks s s' :
  close_ok s → g_close s' = g_close s → g_cancelled s' = g_cancelled s → g_run s' = g_run s → g_save s' = g_save s →
  (∀ x, x ∈ g_late s → x ∈ g_late s') → (∀ x, x ∈ g_roles s' → x ∈ g_roles s) → close_ok s'.
Proof.
  intros Hc E1 E2 E3 E4 Hl Hr. unfold close_ok, onlyLate in *. rewrite E1, E2, E3, E4.
  destruct (g_close s); destruct_and?; splits; auto.
Qed.

Lemma safe_close c s : safe s → safe (set_close c s).
Proof. done. Qed.

Lemma shutdown_inv_preserved : preserved cstep cinv.
Proof.
  intros s s' Hst (Hok & Hs & Hc). unfold cinv.
  destruct Hst as [s s' id d Hid E|s d both Hid|s e He Hroom|s s' e rest now Hrun Eo E|s s' now Hrun E|s Hrun Hcan Eo
                  |s i p p' db' Ep Ht|s w Ew Hw|s Ecl Hrun|s Ecl Hf].
  - splits; [|by eapply safe_exit|].
    + destruct d; cbn in E; [case_decide; [|done]|]; by injection E as <-.
    + destruct d; cbn in E; [case_decide; [|done]|]; injection E as <-; (eapply close_shrinks; [exact Hc|done..|]); cbn;
        intros x; rewrite elem_of_difference; tauto.
  - unfold SaveRole. case_decide; [|done]. cbn [fst]. splits; [done| |done]. apply safe_more_ops; [done|].
    intros id [D HD] Hl E. cbn in E. rewrite E in Hid. by destruct (Hs id D HD Hl).
  - splits; [done| |done]. apply safe_more_ops; [done|]. intros id _ _ E. by destruct e.
  - destruct (safe_turn s s' e rest now Hok Hs Hrun Eo E) as (? & ? & Hev). splits; [done..|].
    by eapply close_evolves; [..|exact Hev].
  - destruct (safe_cleanup s s' now Hok Hs Hrun E) as (? & ? & Hev). splits; [done..|].
    by eapply close_evolves; [..|exact Hev].
  - splits; [by apply savers_close|by apply safe_runExit|]. unfold close_ok, onlyLate in *. cbn.
    destruct (g_close s); destruct_and?; [congruence|done|done|congruence].
  - assert (Hok' := Hok). destruct Hok' as [Hl Hall]. destruct (Hall i p Ep) as [Ho Hp].
    destruct (saverTurn_ok _ _ _ _ _ _ Ht Ho Hp) as (Ho' & Hp' & _ & _). splits.
    + split; [by cbn; rewrite length_insert|]. intros j pj. cbn. intros Hj.
      apply list_lookup_insert_Some in Hj as [(<- & <- & _)|[_ Hj]]; [done|by apply Hall].
    + intros id D Ei Hl'. destruct (Hs id D Ei Hl') as [Hr [Hd|(? & ? & Hh)]]; [by split; [|left]|].
      split; [done|right]. unfold arrived. splits; [done..|]. by eapply held_saver.
    + unfold close_ok, onlyLate in *. cbn. destruct (g_close s); destruct_and?; splits; try done.
      exfalso. assert (Hst : sp_ph p = SStopped) by (by apply (Forall_lookup_1 (λ p, sp_ph p = SStopped) (g_save s) _ p) in Ep).
      destruct Ht; congruence.
  - splits; [done..|]. unfold close_ok, onlyLate in *. cbn. rewrite Ew in Hc. destruct Hc as (_ & _ & Hc).
    intros id Hid. destruct (decide (id ∈ g_late s)) as [|Hn]; [done|].
    assert (id ∈ w ∩ g_roles s) as Hx by (apply elem_of_intersection; auto). rewrite Hw in Hx. by apply elem_of_empty in Hx.
  - splits; [done..|]. unfold close_ok in *. rewrite Ecl in Hc. done.
  - splits; [done..|]. unfold close_ok in *. rewrite Ecl in Hc. destruct Hc. done.
Qed.

End Service.

(** ** Properties *)

(** What holds once [Close] has returned. *)
Lemma close_done growcap loads m ops ps roles leaving db s :
  savers_ok (closing m ops ps roles leaving db) →
  rtc (cstep growcap loads) (closing m ops ps roles leaving db) s → g_close s = CDone →
  ((∀ id, id ∉ g_late s → id ∉ g_roles s) ∧
   ∀ id D, g_logouts s !! id = Some D → id ∉ g_late s → D ⊆ stored (g_db s) id) ∧
  g_run s = false ∧ Forall (λ p, sp_ph p = SStopped) (g_save s).
Proof.
  intros Hok Hr Hd. assert (Hi : cinv s).
  { eapply rtc_preserved; [apply shutdown_inv_preserved|exact Hr|]. unfold cinv. splits; [done|intros id D E; cbn in E; by apply lookup_empty_Some in E|].
    unfold close_ok. cbn. splits; [done..|]. intros id [|Hl]%elem_of_union Hn; [done|].
    by destruct Hn; apply elem_of_elements. }
  destruct Hi as ([Hlen Hall] & Hs & Hc). unfold close_ok, onlyLate in Hc. rewrite Hd in Hc. destruct Hc as (Hlate & Hrun & Hst).
  split; [|done]. split; [by intros id Hn Hx; apply Hn, Hlate|]. intros id D Ei Hn.
  destruct (Hs id D Ei Hn) as [_ [[Hx _]|(_ & _ & p & Ep & Hp)]]; [by rewrite Hrun in Hx|].
  destruct (Hall _ _ Ep) as [_ (_ & _ & Hw & Hb)].
  assert (Hph : sp_ph p = SStopped) by (by apply (Forall_lookup_1 (λ p, sp_ph p = SStopped) (g_save s) _ p) in Ep).
  destruct Hw as [Hw|[_ Hw]]; [by rewrite Hph in Hw|]. unfold willStore, view, pending in Hp. rewrite Hw, (Hb Hph), lookup_empty in Hp.
  cbn in Hp. by rewrite map_empty_union in Hp.
Qed.

(** C7. Closing the game server loses no role: [Close] returns only when every role of its
    snapshot of the registry has ended, and by then whatever such a role handed over when it
    ended is in Redis, in any interleaving of the role goroutines, the service, the cleanup
    and the three savers, with any failures of the databases and any other events in the
    channel; this is for roles that were not started again in the meantime. *)
Theorem shutdown_saves_every_role growcap loads m ops ps roles leaving db s :
  savers_ok (closing m ops ps roles leaving db) →
  rtc (cstep growcap loads) (closing m ops ps roles leaving db) s → g_close s = CDone →
  (∀ id, id ∉ g_late s → id ∉ g_roles s) ∧
  ∀ id D, g_logouts s !! id = Some D → id ∉ g_late s → D ⊆ stored (g_db s) id.
Proof. intros Hok Hr Hd. apply (close_done _ _ _ _ _ _ _ _ s Hok Hr Hd). Qed.

Lemma startSavers_ok m ops roles leaving db : savers_ok (closing m ops startSavers roles leaving db).
Proof.
  split; [done|]. intros i p Hp. cbn in Hp.
  assert (p = newSaverProc) as ->.
  { apply list_elem_of_lookup_2 in Hp. unfold startSavers in Hp. apply elem_of_replicate in Hp. by destruct Hp. }
  unfold sproc_ok, sproc_ph. cbn. splits;
    first [done|by left|by constructor|intros ? ? E; by apply lookup_empty_Some in E].
Qed.

(** Saver [i] takes its turn. *)
Lemma saver_step growcap loads s i p p' db' s' :
  g_save s !! i = Some p → saverTurn p (g_db s) p' db' → s' = set_save (<[i := p']> (g_save s)) db' s →
  cstep growcap loads s s'.
Proof. intros Hp Ht ->. by eapply c_saver. Qed.

(** From the moment all producers are gone and nothing is left to write, [Close] can
    return, and changes nothing any more. *)
Lemma idle_close growcap loads m roles db logouts late :
  ∃ ps, rtc (cstep growcap loads) (mkSvc m [] startSavers true true CProducers roles db logouts late)
            (mkSvc m [] ps true false CDone roles db logouts late) ∧ Forall (λ p, sp_ph p = SStopped) ps.
Proof.
  set (p1 := saver_close newSaverProc). set (p2 := set_ph SClosing (collect p1)). set (p3 := set_ph SStopped p2).
  assert (H1 : ∀ st, saverTurn p1 st p2 st) by (intros; by apply svt_close).
  assert (H2 : ∀ st, saverTurn p2 st p3 st) by (intros; by apply svt_done).
  exists [p3; p3; p3]. split; [|by repeat constructor].
  eapply rtc_l; [by apply c_runExit|]. eapply rtc_l; [by apply c_producers|].
  eapply rtc_l; [eapply (saver_step _ _ _ 0); [reflexivity|apply H1|reflexivity]|].
  eapply rtc_l; [eapply (saver_step _ _ _ 1); [reflexivity|apply H1|reflexivity]|].
  eapply rtc_l; [eapply (saver_step _ _ _ 2); [reflexivity|apply H1|reflexivity]|].
  eapply rtc_l; [eapply (saver_step _ _ _ 0); [reflexivity|apply H2|reflexivity]|].
  eapply rtc_l; [eapply (saver_step _ _ _ 1); [reflexivity|apply H2|reflexivity]|].
  eapply rtc_l; [eapply (saver_step _ _ _ 2); [reflexivity|apply H2|reflexivity]|].
  eapply rtc_l; [apply c_consumers; [done|by repeat constructor]|]. apply rtc_refl.
Qed.

(** The next step, from the state as a value. *)
Ltac next := match goal with |- rtc _ ?a _ => let b := eval vm_compute in a in change a with b end; eapply rtc_l.

(** A small run: role 7 is online when [Close] begins, logs out, and is stored by saver 1. *)
Definition demoClosing : service := closing {[ 7 := mkLD stateOnline 0 ∅ 3 ]} [] startSavers {[ 7 ]} ∅ (mkStores ∅ ∅).

Lemma demo_close :
  ∃ s, rtc (cstep (λ c _, c * 2) (λ _, true)) demoClosing s ∧ g_close s = CDone ∧ g_late s = [] ∧
    g_logouts s !! 7 = Some (ds_Data demoSave7).
Proof.
  eexists. split; [|split; [|split]].
  - next; [apply (c_exit _ _ _ _ 7 (Some (ds_Data demoSave7))); [dec|reflexivity]|].
    next; [eapply (c_rolesGone _ _ _ {[ 7 ]}); [reflexivity|dec]|].
    next; [eapply (c_turn _ _ _ _ _ _ 5); [reflexivity|reflexivity|reflexivity]|].
    next; [apply c_runExit; reflexivity|]. next; [apply c_producers; reflexivity|].
    next; [eapply (saver_step _ _ _ 0); [reflexivity|by apply svt_close|reflexivity]|].
    next; [eapply (saver_step _ _ _ 1); [reflexivity|by apply svt_close|reflexivity]|].
    next; [eapply (saver_step _ _ _ 2); [reflexivity|by apply svt_close|reflexivity]|].
    next; [eapply (saver_step _ _ _ 1); [reflexivity|by eapply (svt_flush _ _ [] _ 0)|reflexivity]|].
    next; [eapply (saver_step _ _ _ 0); [reflexivity|by apply svt_done|reflexivity]|].
    next; [eapply (saver_step _ _ _ 1); [reflexivity|by apply svt_done|reflexivity]|].
    next; [eapply (saver_step _ _ _ 2); [reflexivity|by apply svt_done|reflexivity]|].
    next; [apply c_consumers; [reflexivity|by repeat constructor]|]. apply rtc_refl.
  - reflexivity.
  - reflexivity.
  - reflexivity.
Qed.

Lemma shutdown_saves_every_role_witness :
  ∃ s, rtc (cstep (λ c _, c * 2) (λ _, true)) demoClosing s ∧ g_close s = CDone ∧ g_late s = [] ∧
    ds_Data demoSave7 ⊆ stored (g_db s) 7.
Proof.
  destruct demo_close as (s & Hr & Hc & Hl & Ho). exists s. splits; [done..|].
  eapply (shutdown_saves_every_role _ _ _ _ _ _ _ _ s (startSavers_ok _ _ _ _ _) Hr Hc); [exact Ho|]. rewrite Hl. by apply not_elem_of_nil.
Defined.

(** Once [run] and the savers have returned, nothing is written any more. *)
Lemma stopped_forever growcap loads s s' :
  g_run s = false → Forall (λ p, sp_ph p = SStopped) (g_save s) → rtc (cstep growcap loads) s s' → g_db s' = g_db s.
Proof.
  intros Hrun Hst Hr.
  assert (H : g_run s' = false ∧ Forall (λ p, sp_ph p = SStopped) (g_save s') ∧ g_db s' = g_db s); [|tauto].
  eapply (rtc_preserved (cstep growcap loads)
    (λ x, g_run x = false ∧ Forall (λ p, sp_ph p = SStopped) (g_save x) ∧ g_db x = g_db s)); [|exact Hr|done].
  intros x x' Hs (Hx & Hf & Hd).
  destruct Hs as [x x' id d Hid E|x d both Hid|x e He Hroom|x x' e rest now Hx' Eo E|x x' now Hx' E|x Hx' Hcan Eo
                 |x i p p' db' Ep Ht|x w Ew Hw|x Ecl Hrun'|x Ecl Hf']; try congruence; try done.
  - destruct d; cbn in E; [case_decide; [|done]|]; by injection E as <-.
  - unfold SaveRole. by case_decide.
  - exfalso. apply (Forall_lookup_1 (λ p, sp_ph p = SStopped) (g_save x) _ p) in Ep; [|done]. destruct Ht; congruence.
Qed.

(** [Close] stays returned. *)
Lemma close_final growcap loads s s' :
  g_run s = false → g_close s = CDone → rtc (cstep growcap loads) s s' → g_close s' = CDone.
Proof.
  intros Hrun Hc Hr. apply (rtc_preserved (cstep growcap loads) (λ x, g_run x = false ∧ g_close x = CDone) s s'); [|done|done].
  intros x x' Hs (Hx & Hcx).
  destruct Hs as [x x' id d Hid E|x d both Hid|x e He Hroom|x x' e rest now Hx' Eo E|x x' now Hx' E|x Hx' Hcan Eo
                 |x i p p' db' Ep Ht|x w Ew Hw|x Ecl Hrun'|x Ecl Hf']; try congruence; try done.
  - destruct d; cbn in E; [case_decide; [|done]|]; by injection E as <-.
  - unfold SaveRole. by case_decide.
Qed.

(** A role outside of the snapshot is lost: one that has unregistered but not posted its
    logout when [Close] takes its snapshot is not waited for, and one whose data arrive
    during [Close] is started and never kicked. In both cases [Close] can return with
    nothing written for the role, and nothing ever will be. *)
Theorem close_loses_other_roles growcap loads id D db l t :
  lg_RoleID l = id → loads (mkSave id D) = true →
  (∃ s, rtc (cstep growcap loads) (closing ∅ [] startSavers ∅ {[ id ]} db) s ∧
     g_close s = CDone ∧ g_logouts s !! id = Some D ∧ ∀ s', rtc (cstep growcap loads) s s' → g_db s' = db) ∧
  (∃ s, rtc (cstep growcap loads) (closing {[ id := mkLD statePending t ∅ 0 ]} [EvtDBLoaded l (mkSave id D)] startSavers ∅ ∅ db) s ∧
     g_close s = CDone ∧ id ∈ g_roles s ∧ ∀ s', rtc (cstep growcap loads) s s' → g_db s' = db).
Proof.
  intros El Hl. split.
  - destruct (idle_close growcap loads ∅ (∅ ∪ {[ id ]}) db ∅ (elements ({[ id ]} : gset Z))) as (ps & Hr & Hf). eexists. split.
    + eapply rtc_l; [by apply (c_rolesGone _ _ _ ∅); [|apply (left_absorb_L ∅ (∩))]|].
      eapply rtc_trans; [exact Hr|]. apply rtc_once. apply (c_exit _ _ _ _ id (Some D)); [|reflexivity].
      cbn. apply elem_of_union. right. by apply elem_of_singleton.
    + cbn. splits; [done|by rewrite lookup_insert_eq|]. intros s' Hs. by apply stopped_forever in Hs.
  - set (m := <[id := mkLD stateOnline t D (lg_Seq l)]> ({[ id := mkLD statePending t ∅ 0 ]} : logonMap)).
    destruct (idle_close growcap loads m ({[ id ]} ∪ (∅ ∪ ∅)) db ∅ (id :: elements (∅ : gset Z))) as (ps & Hr & Hf). eexists. split.
    + eapply rtc_l; [by apply (c_rolesGone _ _ _ ∅); [|apply (left_absorb_L ∅ (∩))]|].
      eapply rtc_l; [|exact Hr]. eapply (c_turn _ _ _ _ _ _ t); [done|reflexivity|]. cbn [onOps].
      rewrite (initRole_runs loads t _ l id); [done|done|done|done|]. cbn. rewrite lookup_singleton_eq. by eexists.
    + cbn. splits; [done| |]; [apply elem_of_union; left; by apply elem_of_singleton|].
      intros s' Hs. by apply stopped_forever in Hs.
Qed.

Lemma close_loses_other_roles_witness :
  ∃ s, rtc (cstep (λ c _, c * 2) (λ _, true)) (closing ∅ [] startSavers ∅ {[ 7 ]} demoOld) s ∧
     g_close s = CDone ∧ g_logouts s !! 7 = Some (ds_Data demoSave7) ∧
     ∀ s', rtc (cstep (λ c _, c * 2) (λ _, true)) s s' → g_db s' = demoOld.
Proof. apply (close_loses_other_roles (λ c _, c * 2) (λ _, true) 7 (ds_Data demoSave7) demoOld demoLogin 0); done. Defined.
