(* ===== verification/Process.v ===== *)
(** * internal/share/app, the [app.go] of the services: the life of a process

    [App.RootCmdRun] starts a process step by step, waits for a signal and stops it again.
    A process is the list of the actions its code performs in order, [program]; a step
    performs the next one, lets one fail, delivers a message of the bus to a process that
    has subscribed, or has one of its goroutines use the bus of [DataBus.v]. The game
    server's last part is composed with the logon service of [Shutdown.v]. Also here:
    [pkg/flag], the signals of [pkg/thread] and the indexes of [pkg/db]. *)

From S2P Require Import Prelude Gmsg Batcher DataBus Util Saver Logon Shutdown.

(** ** The services *)

Inductive kind := Account | Center | Game | Gateway | Robot.
#[export] Instance kind_eq_dec : EqDecision kind.
Proof. solve_decision. Defined.

(** What [init], [action] and [unInit] call, and what the services' own functions call. *)
Inductive act :=
| AIdGen | ACfgLoad | ALog | AHttpInit | ARedis | AMongo | ALockPool | ADiscInit | ADiscWatch | ABusInit
| AMongoUse | ACreateIndex | ACreateActors | AMonitor | ASetup | ARegisteMsgHandle
| AStartAuth | AActorsStart | ALogonStart | ARoleRun | AListenWS | AInitRobots
| AHttpServe | AServe | AReady | ARegister | AWaitExit | ACancel
| ADiscClose | AActorsStop | ALogonClose | AGracefulStop | ACliClose | AMongoClose | ARedisClose | AWait.
#[export] Instance act_eq_dec : EqDecision act.
Proof. solve_decision. Defined.

(** The five [Init] functions. *)
Definition account_Init : list act := [AMongoUse; ACreateIndex].
Definition center_Init : list act := [AMongoUse; ACreateActors].
Definition game_Init : list act := [AMongoUse; ACreateIndex].
Definition gateway_Init : list act := [AMonitor].
Definition robot_Init : list act := [ASetup; ARegisteMsgHandle].

Definition account_Action : list act := [AStartAuth].
Definition center_Action : list act := [AActorsStart].
Definition game_Action : list act := [ALogonStart; ARoleRun].
Definition gateway_Action : list act := [AListenWS].
Definition robot_Action : list act := [AInitRobots].

Definition account_UnInit : list act := [].
Definition center_UnInit : list act := [AActorsStop].
Definition game_UnInit : list act := [ALogonClose].
Definition gateway_UnInit : list act := [AGracefulStop].
Definition robot_UnInit : list act := [ACliClose].

(** The [App] of each [main]. *)
Record App := mkApp { a_Init : list act; a_Action : list act; a_UnInit : list act; a_OnMsg : bool; a_SrvType : Z }.

Definition Server_Robot : Z := 21.

Definition account_main : App := mkApp account_Init account_Action account_UnInit true Server_Account.
Definition center_main : App := mkApp center_Init center_Action center_UnInit true Server_Center.
Definition game_main : App := mkApp game_Init game_Action game_UnInit true Server_Game.
Definition gateway_main : App := mkApp gateway_Init gateway_Action gateway_UnInit true Server_Gateway.
Definition robot_main : App := mkApp robot_Init robot_Action robot_UnInit false Server_Robot.

Definition main (k : kind) : App :=
  match k with
  | Account => account_main | Center => center_main | Game => game_main | Gateway => gateway_main | Robot => robot_main
  end.

(** ** app.go *)

Definition initDB : list act := [ARedis; AMongo].
Definition app_init (a : App) : list act :=
  [AIdGen; ACfgLoad; ALog; AHttpInit] ++ initDB ++ [ALockPool; ADiscInit; ADiscWatch; ABusInit] ++ a_Init a.
Definition app_action (a : App) : list act :=
  a_Action a ++ [AHttpServe] ++ (if a_OnMsg a then [AServe] else []) ++ [AReady; ARegister; AWaitExit].
Definition app_unInit (a : App) : list act := [ADiscClose] ++ a_UnInit a ++ [AMongoClose; ARedisClose].

Definition RootCmdRun (a : App) : list act := app_init a ++ app_action a ++ [ACancel] ++ app_unInit a ++ [AWait].
Definition program (k : kind) : list act := RootCmdRun (main k).

(** The actions whose failure ends the process, by a panic or [Fatal]; the error of
    [idgen.Init] is nil always, index errors are logged only. *)
Definition canFail (a : act) : bool :=
  bool_decide (a ∈ [ACfgLoad; ARedis; AMongo; ADiscInit; ABusInit; AStartAuth; AServe; ARegister]).

(** ** The process *)

Inductive pstate := PRunning | PDead | PExited.

(** [p_key]: the node's key in etcd; [p_handled]: messages given to [OnMsg], with what the
    process had done by then. *)
Record proc := mkP {
  p_pc : list act; p_done : list act; p_state : pstate; p_bus : option DataBus; p_key : option Z;
  p_handled : list (Message * list act) }.

Definition start (k : kind) : proc := mkP (program k) [] PRunning None None [].

Section Proc.
Context (cap : Z) (stale : Z → bytes) (k : kind) (nodeID : Z).

Definition onBus (a : act) (b : option DataBus) : option DataBus :=
  if decide (a = ABusInit) then Some (freshBus (a_SrvType (main k)) nodeID) else b.
(** [e]: the lease, or whether the revocation failed. *)
Definition onKey (a : act) (e : Z) (key : option Z) : option Z :=
  if decide (a = ARegister) then Some e
  else if decide (a = ADiscClose) then (if decide (e = 0) then None else key) else key.

Inductive pstep : proc → proc → Prop :=
| ps_do a pc d b key h e : pstep (mkP (a :: pc) d PRunning b key h) (mkP pc (d ++ [a]) PRunning (onBus a b) (onKey a e key) h)
| ps_fail a pc d b key h key' :
    canFail a = true → (key' = key ∨ a = ARegister) →               (* a failed registration may have stored the key *)
    pstep (mkP (a :: pc) d PRunning b key h) (mkP (a :: pc) d PDead b key' h)
| ps_exit d b key h : pstep (mkP [] d PRunning b key h) (mkP [] d PExited b key h)
| ps_bus pc d bs bs' err key h o :
    busDo cap stale bs o = Some (bs', err) →
    pstep (mkP pc d PRunning (Some bs) key h) (mkP pc d PRunning (Some bs') key h)
| ps_msg pc d b key h m : AServe ∈ d → pstep (mkP pc d PRunning b key h) (mkP pc d PRunning b key (h ++ [(m, d)]))
| ps_expire pc d st b key h : pstep (mkP pc d st b key h) (mkP pc d st b None h).

(** ** Order *)

(** [a] comes before every occurrence of [b] in the program. *)
Definition before (prog : list act) (a b : act) : bool :=
  match list_find (λ x, x = b) prog with
  | Some (i, _) => bool_decide (a ∈ take i prog)
  | None => true
  end.

Lemma before_done prog d pc a b : before prog a b = true → d ++ pc = prog → b ∈ d → a ∈ d.
Proof.
  unfold before. intros Hb <- Hd. destruct (list_find (λ x, x = b) (d ++ pc)) as [[i x]|] eqn:E.
  - apply bool_decide_eq_true in Hb. apply list_find_Some in E as (Ex & -> & Hmin).
    apply list_elem_of_lookup in Hd as [j Hj].
    assert (Hij : (i ≤ j)%nat).
    { destruct (decide (i ≤ j)%nat); [done|]. exfalso. apply (Hmin j b); [|lia|done]. by apply lookup_app_l_Some. }
    apply lookup_lt_Some in Hj. rewrite take_app_le in Hb by lia.
    apply elem_of_take in Hb as (i' & Hi' & _). by eapply list_elem_of_lookup_2.
  - apply list_find_None in E. rewrite Forall_forall in E. destruct (E b); [|done]. apply elem_of_app. by left.
Qed.

(** What the code performs is a prefix of its program; the rest of the invariant says what
    a subscription and a key mean. *)
Definition pinv (p : proc) : Prop :=
  p_done p ++ p_pc p = program k ∧
  (∀ m d, (m, d) ∈ p_handled p → AServe ∈ d ∧ ∃ pc, d ++ pc = program k) ∧
  (p_key p ≠ None → AReady ∈ p_done p) ∧
  (p_key p ≠ None → a_OnMsg (main k) = true → AServe ∈ p_done p) ∧
  (is_Some (p_bus p) ↔ ABusInit ∈ p_done p).

Lemma ready_before_register : before (program k) AReady ARegister = true.
Proof. by destruct k. Qed.
Lemma serve_before_register : a_OnMsg (main k) = true → before (program k) AServe ARegister = true.
Proof. by destruct k. Qed.

Lemma at_register d pc : d ++ ARegister :: pc = program k →
  AReady ∈ d ∧ (a_OnMsg (main k) = true → AServe ∈ d).
Proof.
  intros E. assert (H : ∀ a, before (program k) a ARegister = true → a ≠ ARegister → a ∈ d).
  { intros a Ha Hn. assert (a ∈ d ++ [ARegister]) as Hin.
    { eapply (before_done (program k) (d ++ [ARegister]) pc a ARegister); [done|by rewrite <- app_assoc|]. apply elem_of_app. right. by left. }
    apply elem_of_app in Hin as [?|Hin]; [done|]. apply list_elem_of_singleton in Hin. done. }
  split; [|intros Ho]; apply H; [apply ready_before_register|done|by apply serve_before_register|done].
Qed.

Lemma pinv_preserved : preserved pstep pinv.
Proof.
  intros p p' Hs (Hp & Hh & Hk1 & Hk2 & Hb). unfold pinv.
  destruct Hs as [a pc d b key h e|a pc d b key h key' Hf Hk|d b key h|pc d bs bs' err key h o Hdo|pc d b key h m Hin|pc d st b key h]; cbn in *.
  - assert (Hkey : onKey a e key ≠ None → a = ARegister ∨ key ≠ None).
    { unfold onKey. repeat case_decide; auto. }
    splits; [by rewrite <- app_assoc|done|..].
    + intros H%Hkey. apply elem_of_app. left. destruct H as [->|H]; [by apply (at_register d pc)|by apply Hk1].
    + intros H%Hkey Ho. apply elem_of_app. left. destruct H as [->|H]; [by apply (at_register d pc)|by apply Hk2].
    + unfold onBus. rewrite elem_of_app, list_elem_of_singleton. case_decide as Ha; [subst; by split; [right|eauto]|].
      rewrite Hb. split; [by left|]. intros [?|?]; [done|congruence].
  - assert (Hkey : key' ≠ None → a = ARegister ∨ key ≠ None) by (destruct Hk as [->| ->]; auto).
    splits; [done|done| | |done].
    + intros H%Hkey. destruct H as [->|H]; [by apply (at_register d pc)|by apply Hk1].
    + intros H%Hkey Ho. destruct H as [->|H]; [by apply (at_register d pc)|by apply Hk2].
  - done.
  - splits; try done. rewrite <- Hb. split; by eexists.
  - splits; try done. intros m' d' [Hin'|Hin']%elem_of_app; [by eapply Hh|].
    apply list_elem_of_singleton in Hin'. injection Hin' as -> ->. split; [done|by eexists].
  - splits; done.
Qed.

Lemma reachable_inv p : rtc pstep (start k) p → pinv p.
Proof.
  intros Hr. eapply rtc_preserved; [apply pinv_preserved|exact Hr|]. unfold pinv, start. cbn. splits; try done.
  - intros m d H. by apply elem_of_nil in H.
  - split; [by intros []|intros H; by apply elem_of_nil in H].
Qed.

(** What must precede what, in all five programs. *)
Lemma serve_order a : a ∈ app_init (main k) ++ a_Action (main k) → before (program k) a AServe = true.
Proof. intros Ha. apply (Forall_forall (λ a, before (program k) a AServe = true) (app_init (main k) ++ a_Action (main k))); [|done]. destruct k; dec. Qed.
Lemma unInit_order a : a ∈ a_UnInit (main k) → before (program k) ADiscClose a = true ∧ before (program k) a AMongoClose = true.
Proof.
  intros Ha. apply (Forall_forall (λ a, before (program k) ADiscClose a = true ∧ before (program k) a AMongoClose = true) (a_UnInit (main k))); [|done].
  destruct k; dec.
Qed.

Lemma fail_order a : a ∈ program k → canFail a = true → before (program k) a ACancel = true.
Proof.
  intros Ha. apply (Forall_forall (λ a, canFail a = true → before (program k) a ACancel = true) (program k)); [|done]. destruct k; dec.
Qed.
Lemma program_nodup : NoDup (program k).
Proof. destruct k; dec. Qed.

Lemma dead_at p : rtc pstep (start k) p → p_state p = PDead → ∃ a pc, p_pc p = a :: pc ∧ canFail a = true.
Proof.
  intros Hr. apply (rtc_preserved pstep (λ p, p_state p = PDead → ∃ a pc, p_pc p = a :: pc ∧ canFail a = true) (start k) p); [|done|done].
  intros x y Hs Hx. destruct Hs; cbn in *; try done. intros _. by eexists _, _.
Qed.

(** Starting and stopping in order: a message is only given to the service when the
    databases, discovery, the bus and the service's own state are set up; a node is
    found in etcd only when the process has subscribed and registrations of handlers are
    closed; when the service is being stopped, discovery has been closed before, and the
    databases are closed only after the service has stopped. A process that fails does so
    before it begins to stop. *)
Theorem process_order p :
  rtc pstep (start k) p →
  (∀ m d, (m, d) ∈ p_handled p → ∀ a, a ∈ app_init (main k) ++ a_Action (main k) → a ∈ d) ∧
  (p_key p ≠ None → AReady ∈ p_done p ∧ (a_OnMsg (main k) = true → AServe ∈ p_done p)) ∧
  (∀ a, a ∈ a_UnInit (main k) → (a ∈ p_done p → ADiscClose ∈ p_done p) ∧ (AMongoClose ∈ p_done p → a ∈ p_done p)) ∧
  (p_state p = PDead → ACancel ∉ p_done p).
Proof.
  intros Hr. destruct (reachable_inv p Hr) as (Hp & Hh & Hk1 & Hk2 & Hb). splits.
  - intros m d Hin a Ha. destruct (Hh m d Hin) as (Hs & pc & Hpc).
    by eapply before_done; [apply serve_order|exact Hpc|].
  - intros Hk. split; [by apply Hk1|by apply Hk2].
  - intros a Ha. destruct (unInit_order a Ha) as [H1 H2]. split; intros Hin; by eapply before_done.
  - intros Hd Hc. destruct (dead_at p Hr Hd) as (a & pc & Epc & Hcan). rewrite Epc in Hp.
    assert (Hin : a ∈ program k) by (rewrite <- Hp; apply elem_of_app; right; by left).
    assert (Ha : a ∈ p_done p) by (by eapply (before_done _ _ _ a ACancel); [apply fail_order| |]).
    pose proof program_nodup as Hnd. rewrite <- Hp in Hnd. apply NoDup_app in Hnd as (_ & Hnd & _). apply (Hnd a Ha). by left.
Qed.

(** The main goroutine performs the next actions, with lease 1 and a revocation that works. *)
Lemma run_acts l pc d b key h :
  rtc pstep (mkP (l ++ pc) d PRunning b key h)
    (mkP pc (d ++ l) PRunning (fold_left (λ b a, onBus a b) l b)
       (fold_left (λ key a, onKey a (if decide (a = ARegister) then 1 else 0) key) l key) h).
Proof.
  revert d b key. induction l as [|a l IH]; intros d b key; [rewrite app_nil_r; apply rtc_refl|]. cbn [app fold_left].
  eapply rtc_l; [apply (ps_do _ _ _ _ _ _ (if decide (a = ARegister) then 1 else 0))|].
  replace (d ++ a :: l) with ((d ++ [a]) ++ l) by by rewrite <- app_assoc. apply IH.
Qed.

End Proc.

(** ** The bus at the end *)

Definition lastActs (k : kind) : list act := [AMongoClose; ARedisClose; AWait].
Definition firstActs (k : kind) : list act := app_init (main k) ++ app_action (main k) ++ [ACancel; ADiscClose] ++ a_UnInit (main k).

Lemma program_split k : program k = firstActs k ++ lastActs k.
Proof. by destruct k. Qed.

Definition farewell : busOp := OSendToNode Server_Game 1 7 [1] 9 8.

(** Nothing closes the bus: in every service, a message that is accepted by the bus while
    the service stops can be dropped at the exit, although closing the bus would publish it;
    and as the subscriptions stay, messages are still handled after both databases have been
    closed. *)
Theorem exit_leaves_bus_open k nodeID m :
  (∃ p bs, rtc (pstep buffSize zeros k nodeID) (start k) p ∧ p_state p = PExited ∧ p_bus p = Some bs ∧
     (∃ b0, busDo buffSize zeros b0 farewell = Some (bs, None)) ∧ bus_wire bs = [] ∧
     on_key (KNode Server_Game 1) (bus_wire (close_batcher bs (KNode Server_Game 1))) ≠ []) ∧
  (a_OnMsg (main k) = true → ∃ p d, rtc (pstep buffSize zeros k nodeID) (start k) p ∧ p_state p = PRunning ∧
     (m, d) ∈ p_handled p ∧ AMongoClose ∈ d ∧ ARedisClose ∈ d).
Proof.
  set (b0 := freshBus (a_SrvType (main k)) nodeID).
  assert (Hfirst : rtc (pstep buffSize zeros k nodeID) (start k) (mkP (lastActs k) (firstActs k) PRunning (Some b0) None [])).
  { unfold start. rewrite program_split. pose proof (run_acts buffSize zeros k nodeID (firstActs k) (lastActs k) [] None None []) as H.
    replace (fold_left _ (firstActs k) None) with (Some b0) in H by by destruct k.
    replace (fold_left _ (firstActs k) None) with (@None Z) in H by by destruct k. exact H. }
  assert (Hlast : ∀ b h, rtc (pstep buffSize zeros k nodeID) (mkP (lastActs k) (firstActs k) PRunning b None h)
                           (mkP [] (firstActs k ++ lastActs k) PRunning b None h)).
  { intros b h. pose proof (run_acts buffSize zeros k nodeID (lastActs k) [] (firstActs k) b None h) as H. exact H. }
  split.
  - destruct (busDo buffSize zeros b0 farewell) as [[bs err]|] eqn:E; [|by vm_compute in E].
    exists (mkP [] (firstActs k ++ lastActs k) PExited (Some bs) None []), bs. splits; [|done|done|exists b0|..].
    + eapply rtc_trans; [exact Hfirst|]. eapply rtc_l; [by eapply ps_bus|]. eapply rtc_r; [apply Hlast|apply ps_exit].
    + vm_compute in E. injection E as <- <-. reflexivity.
    + vm_compute in E. by injection E as <- <-.
    + vm_compute in E. injection E as <- <-. by vm_compute.
  - intros Ho. exists (mkP [] (firstActs k ++ lastActs k) PRunning (Some b0) None ([] ++ [(m, firstActs k ++ lastActs k)])), (firstActs k ++ lastActs k).
    splits; [|done|by left|apply elem_of_app; right; by left|apply elem_of_app; right; right; by left].
    eapply rtc_trans; [exact Hfirst|]. eapply rtc_r; [apply Hlast|]. apply ps_msg.
    apply elem_of_app. left. destruct k; try done; dec.
Qed.

Lemma exit_leaves_bus_open_witness :
  ∃ p d, rtc (pstep buffSize zeros Account 1) (start Account) p ∧ (demo_msg [1], d) ∈ p_handled p ∧ ARedisClose ∈ d.
Proof.
  destruct (proj2 (exit_leaves_bus_open Account 1 (demo_msg [1])) eq_refl) as (p & d & H1 & _ & H2 & _ & H3). by exists p, d.
Defined.

Lemma process_order_witness :
  ∃ p, rtc (pstep buffSize zeros Game 1) (start Game) p ∧ p_key p = Some 1 ∧ AServe ∈ p_done p.
Proof.
  pose proof (run_acts buffSize zeros Game 1 (take 18 (program Game)) (drop 18 (program Game)) [] None None []) as Hr.
  rewrite take_drop in Hr. eexists. split; [exact Hr|]. split; [reflexivity|].
  apply (proj1 (proj2 (process_order buffSize zeros Game 1 _ Hr))); [by vm_compute|reflexivity].
Defined.

(** ** Stopping the game server

    From the moment [UnInit] calls [Mgr.Close] the main goroutine waits inside of
    [ALogonClose], while the goroutines of the logon service go on. *)

Definition atClose : proc :=
  mkP (ALogonClose :: lastActs Game) (app_init (main Game) ++ app_action (main Game) ++ [ACancel; ADiscClose]) PRunning None None [].

Section GameStop.
Context (growcap : Z → Z → Z) (loads : Role.DataToSave → bool) (cap : Z) (stale : Z → bytes) (nodeID : Z).

(** [ALogonClose] ends when [Close] has returned. *)
Inductive gpstep : proc * service → proc * service → Prop :=
| gp_service p s s' : p_state p = PRunning → cstep growcap loads s s' → gpstep (p, s) (p, s')
| gp_main p p' s : pstep cap stale Game nodeID p p' → (ALogonClose ∈ p_done p' → ALogonClose ∈ p_done p ∨ g_close s = CDone) →
    gpstep (p, s) (p', s).

Lemma gp_inv s0 p s :
  rtc gpstep (atClose, s0) (p, s) → rtc (cstep growcap loads) s0 s ∧ rtc (pstep cap stale Game nodeID) atClose p ∧
  (ALogonClose ∈ p_done p → ∃ s1, rtc (cstep growcap loads) s0 s1 ∧ g_close s1 = CDone ∧ rtc (cstep growcap loads) s1 s).
Proof.
  intros Hr. apply (rtc_preserved gpstep (λ x, rtc (cstep growcap loads) s0 x.2 ∧ rtc (pstep cap stale Game nodeID) atClose x.1 ∧
    (ALogonClose ∈ p_done x.1 → ∃ s1, rtc (cstep growcap loads) s0 s1 ∧ g_close s1 = CDone ∧ rtc (cstep growcap loads) s1 x.2))
    _ (p, s)) in Hr; [done| |].
  - intros y z Hyz (Hs & Hp & Hc). destruct Hyz as [q t t' _ Ht|q q' t Hq Hd]; cbn in *.
    + splits; [by eapply rtc_r|done|]. intros Hin. destruct (Hc Hin) as (s1 & ? & ? & ?). exists s1. splits; [done..|by eapply rtc_r].
    + splits; [done|by eapply rtc_r|]. intros Hin. destruct (Hd Hin) as [?|?]; [by apply Hc|]. exists t. splits; [done..|apply rtc_refl].
  - cbn. splits; [apply rtc_refl..|]. intros Hin. exfalso. revert Hin. dec.
Qed.

Lemma atClose_order p : rtc (pstep cap stale Game nodeID) atClose p → AMongoClose ∈ p_done p → ALogonClose ∈ p_done p.
Proof.
  intros Hr Hin. assert (Hp : p_done p ++ p_pc p = program Game).
  { apply (rtc_preserved (pstep cap stale Game nodeID) (λ p, p_done p ++ p_pc p = program Game) atClose p); [|done|reflexivity].
    intros x y Hs Hx. destruct Hs; cbn in *; try done. by rewrite <- app_assoc. }
  by eapply (before_done (program Game) (p_done p) (p_pc p) ALogonClose AMongoClose).
Qed.

(** C28. The game server closes its databases after the last write: when the process has
    disconnected from MongoDB, everything the roles of [Close]'s snapshot handed over is
    stored, and no goroutine of the logon service writes any more, whatever it still
    receives. This is for roles that were not started again in the meantime: what a role
    that logged in again during [Close] hands over later is not covered. *)
Theorem databases_close_after_last_write m ops ps roles leaving db p s p' s' :
  savers_ok (closing m ops ps roles leaving db) →
  rtc gpstep (atClose, closing m ops ps roles leaving db) (p, s) → AMongoClose ∈ p_done p →
  rtc gpstep (p, s) (p', s') →
  (∀ id D, g_logouts s !! id = Some D → id ∉ g_late s → D ⊆ stored (g_db s) id) ∧ g_db s' = g_db s.
Proof.
  intros Hok Hr Hm Hr'. destruct (gp_inv _ _ _ Hr) as (Hs & Hp & Hc). pose proof (atClose_order p Hp Hm) as Hl.
  destruct (Hc Hl) as (s1 & H1 & Hd & H2).
  destruct (close_done growcap loads _ _ _ _ _ _ s1 Hok H1 Hd) as (_ & Hrun & Hst).
  assert (Hd' : g_close s = CDone) by (by eapply close_final).
  destruct (close_done growcap loads _ _ _ _ _ _ s Hok Hs Hd') as ((_ & Hsto) & Hrun' & Hst'). split; [done|].
  assert (Hcs : rtc (cstep growcap loads) s s').
  { clear - Hr'. remember (p, s) as x eqn:Ex. remember (p', s') as y eqn:Ey. revert p s Ex.
    induction Hr' as [|x z y Hxz _ IH]; intros p s ->; [injection Ey as -> ->; apply rtc_refl|].
    destruct z as [pz sz]. specialize (IH Ey pz sz eq_refl). inversion Hxz; subst; [by eapply rtc_l|done]. }
  by eapply stopped_forever.
Qed.

End GameStop.

Lemma service_runs growcap loads cap stale nodeID p s s' :
  p_state p = PRunning → rtc (cstep growcap loads) s s' → rtc (gpstep growcap loads cap stale nodeID) (p, s) (p, s').
Proof. intros Hp. induction 1 as [|s s1 s' Hs _ IH]; [apply rtc_refl|]. eapply rtc_l; [by apply gp_service|exact IH]. Qed.

Lemma databases_close_after_last_write_witness :
  ∃ p s, rtc (gpstep (λ c _, c * 2) (λ _, true) buffSize zeros 1) (atClose, demoClosing) (p, s) ∧ AMongoClose ∈ p_done p ∧
    Role.ds_Data demoSave7 ⊆ stored (g_db s) 7.
Proof.
  destruct demo_close as (s & Hr & Hc & Hl & Ho).
  assert (Hg : rtc (gpstep (λ c _, c * 2) (λ _, true) buffSize zeros 1) (atClose, demoClosing)
    (mkP [ARedisClose; AWait] ((p_done atClose ++ [ALogonClose]) ++ [AMongoClose]) PRunning None None [], s)).
  { eapply rtc_trans; [by apply service_runs|]. unfold atClose, lastActs.
    eapply rtc_l; [apply gp_main; [apply (ps_do _ _ _ _ _ _ _ _ _ _ 0)|by right]|]. cbn [onBus onKey].
    eapply rtc_l; [apply gp_main; [apply (ps_do _ _ _ _ _ _ _ _ _ _ 0)|]|].
    - intros _. left. cbn [p_done]. apply elem_of_app. right. by left.
    - apply rtc_refl. }
  eexists _, s. splits; [exact Hg|cbn [p_done]; apply elem_of_app; right; by left|].
  eapply (databases_close_after_last_write _ _ _ _ _ _ _ _ _ _ _ _ _ _ _ (startSavers_ok _ _ _ _ _) Hg);
    [cbn [p_done]; apply elem_of_app; right; by left|apply rtc_refl|exact Ho|]. rewrite Hl. by apply not_elem_of_nil.
Defined.

(** ** pkg/thread: waiting for a signal *)

Inductive signal := SIGINT | SIGTERM | SIGQUIT | SIGOTHER.

(** Signals in the order they arrive after [Notify], and whether the goroutine is at its
    receive by then: the channel has no buffer, and [Notify] drops what cannot be received
    at once. [None]: still waiting. *)
Fixpoint WaitExit (arrivals : list (signal * bool)) : option signal :=
  match arrivals with
  | [] => None
  | (s, receiving) :: rest =>
      match s with
      | SIGOTHER => WaitExit rest          (* not notified *)
      | _ => if receiving : bool then Some s else WaitExit rest
      end
  end.

(** A signal that arrives while the process is at the receive ends the wait; one that
    arrives just before is lost. *)
Lemma WaitExit_spec l : WaitExit l = snd <$> (head (omap (λ x, if decide (x.2 = true) then match x.1 with SIGOTHER => None | s => Some (x.2, s) end else None) l)).
Proof. induction l as [|[[] []] l IH]; cbn; try done; by rewrite IH. Qed.

(** ** pkg/flag *)

Record flags := mkFlags { f_EtcdAddr : list string; f_IID : string; f_SvcIndex : Z; f_RpcPort : Z; f_HttpPort : Z; f_TcpPort : Z; f_SrvType : Z }.

(** [strconv.Atoi] of an environment variable: unset, or a number, or a panic. *)
Definition envPort (str : string) (port : Z) : option Z :=
  if decide (str = EmptyString) then Some port
  else let '(n, ok) := Discovery.Atoi str in if ok : bool then Some n else None.

Definition flag_Init (serverType : Z) (HOSTNAME RPC_PORT HTTP_PORT : string) : option flags :=
  idx ← initSvcIndex HOSTNAME 0; rpc ← envPort RPC_PORT 0; http ← envPort HTTP_PORT 0;
  Some (mkFlags ["127.0.0.1:2379"] "local" idx rpc http 30001 serverType).

(** The command line is parsed after [Init], so it wins over the environment. *)
Definition cmdLine (index httpPort : option Z) (f : flags) : flags :=
  mkFlags (f_EtcdAddr f) (f_IID f) (default (f_SvcIndex f) (u8 <$> index)) (f_RpcPort f) (default (f_HttpPort f) httpPort) (f_TcpPort f) (f_SrvType f).

(** ** pkg/db: indexes *)

(** [None]: a failure; what was created before it stays. [order]: the map's iteration. *)
Fixpoint CreateIndexes (names : gset string) (order : list (string * string)) (fails : string → bool) (created : list string)
    : list string * bool :=
  match order with
  | [] => (created, true)
  | (name, auto) :: order =>
      if decide (name ∈ names) then CreateIndexes names order fails created
      else if fails name then (created, false) else CreateIndexes names order fails (created ++ [auto])
  end.

(** [listed]: the names in the collection, or a failure. An index without an explicit name is
    named after its keys, the second component. *)
Definition CreateIndexIfNotExist (listed : option (gset string)) (order : list (string * string)) (fails : string → bool)
    : gset string * bool :=
  match listed with
  | None => (∅, false)
  | Some names => let '(created, ok) := CreateIndexes names order fails [] in (names ∪ list_to_set created, ok)
  end.

Definition game_indexes : list (string * string) := [("role_id_1", "id_1")].
Definition account_indexes : list (string * string) := [("acc_id_1", "acc_id_1"); ("binds_1", "binds_1")].

Lemma CreateIndexes_all names order fails created :
  (∀ n, fails n = false) → CreateIndexes names order fails created = (created ++ (filter (λ x, x.1 ∉ names) order).*2, true).
Proof.
  intros Hf. revert created. induction order as [|[n a] order IH]; intros created; cbn [CreateIndexes]; [by rewrite app_nil_r|].
  rewrite Hf, !IH. destruct (decide (n ∈ names)).
  - by rewrite filter_cons_False by tauto.
  - rewrite filter_cons_True by done. by rewrite <- app_assoc.
Qed.

(** Creating indexes is idempotent when the name under which an index is looked up is the
    one it gets: then a second start finds everything and creates nothing. The game
    server looks its index up under another name and asks for it again at every start. *)
Theorem indexes_created_once names order :
  (∀ n a, (n, a) ∈ order → n = a) →
  let names' := (CreateIndexIfNotExist (Some names) order (λ _, false)).1 in
  (∀ n a, (n, a) ∈ order → n ∈ names') ∧ CreateIndexes names' order (λ _, false) [] = ([], true) ∧
  ∀ names'', (CreateIndexes ({[ "id_1" ]} ∪ names'' ∖ {[ "role_id_1" ]}) game_indexes (λ _, false) []).1 = ["id_1"].
Proof.
  intros Hn. unfold CreateIndexIfNotExist. rewrite CreateIndexes_all by done. cbn. 
  assert (Hin : ∀ n a, (n, a) ∈ order → n ∈ names ∪ (list_to_set (filter (λ x : string * string, x.1 ∉ names) order).*2 : gset string)).
  { intros n a Hna. pose proof (Hn n a Hna) as <-. destruct (decide (n ∈ names)) as [|Hnn]; [by apply elem_of_union_l|].
    apply elem_of_union_r, elem_of_list_to_set, list_elem_of_fmap. exists (n, n). split; [done|]. by apply list_elem_of_filter. }
  splits; [done| |].
  - rewrite CreateIndexes_all by done. rewrite filter_false_in; [done|]. intros [n a] Hna Hc. cbn in Hc. by eapply Hc, Hin.
  - intros names''. unfold game_indexes. cbn [CreateIndexes]. rewrite decide_False; [done|].
    rewrite elem_of_union, elem_of_singleton, elem_of_difference, elem_of_singleton. by intros [?|[_ []]].
Qed.

Lemma indexes_created_once_witness :
  (CreateIndexIfNotExist (Some ∅) account_indexes (λ _, false)).2 = true ∧
  CreateIndexes ((CreateIndexIfNotExist (Some ∅) account_indexes (λ _, false)).1) account_indexes (λ _, false) [] = ([], true).
Proof.
  split; [reflexivity|]. apply (indexes_created_once ∅ account_indexes).
  intros n a Hin. unfold account_indexes in Hin. repeat (apply elem_of_cons in Hin as [?|Hin]; [by simplify_eq|]). by apply elem_of_nil in Hin.
Defined.

(** Host names beyond 255 wrap around: two replicas of a service get the same index. *)
Lemma host_index_wraps : (f_SvcIndex <$> flag_Init 2 "game-3" EmptyString EmptyString) = Some 3 ∧
  (f_SvcIndex <$> flag_Init 2 "game-259" EmptyString EmptyString) = Some 3.
Proof. by vm_compute. Qed.
