(* ===== verification/Notice.v ===== *)
(** * pkg/notice and pkg/logger: alerts

    [notice.go]: alerts are counted per tag and sent every five minutes by a goroutine.
    [error_notifier.go]: the logging core that turns error entries into alerts; its [With]
    extends a Go slice, whose backing array is modelled because loggers derived from the same
    logger share it. [log.go]: which cores a logger has. *)

From S2P Require Import Prelude DataBus Config.

(** ** notice.go *)

Record NoticeData := mkND { nd_Count : Z; nd_Url : string; nd_Msg : string }.

(** [g_Notice]: nil until the first alert. *)
Abbreviation notices := (option (gmap string NoticeData)).

Definition notice_Add (msg url tag : string) (g : notices) : notices :=
  if decide (msg = EmptyString ∨ url = EmptyString) then g
  else
    let data := default ∅ g in
    Some (match data !! tag with
          | None => <[tag := mkND 1 url msg]> data
          | Some d => <[tag := mkND (i64 (nd_Count d + 1)) url msg]> data
          end).

Definition quote : string := String (Ascii.ascii_of_nat 34) EmptyString.
Definition newline : string := String (Ascii.ascii_of_nat 10) EmptyString.

(** The text that is sent: the last message of the tag and how many there were. *)
Definition withCount (d : NoticeData) : string :=
  nd_Msg d +:+ newline +:+ "> 数量:<font color=" +:+ quote +:+ "comment" +:+ quote +:+ ">" +:+ Itoa (nd_Count d) +:+ "</font>".

(** [Post]: what is sent, if anything; a failed request is logged and the alert is gone. *)
Definition Post (msg url : string) : option (string * string) :=
  if decide (msg = EmptyString ∨ url = EmptyString) then None else Some (msg, url).

(** One round of the goroutine: every alert is posted, in the order of the map's
    iteration, and the map is replaced. *)
Definition postAll (order : list (string * NoticeData)) (g : notices) : notices * list (string * string) :=
  match g with
  | None => (None, [])
  | Some _ => (Some ∅, omap (λ x, Post (withCount x.2) (nd_Url x.2)) order)
  end.

(** Alerts as they come in and rounds of the goroutine, with what was sent per tag. *)
Record nsys := mkN { n_g : notices; n_added : list (string * string * string); n_sent : list (string * NoticeData) }.

Inductive nstep : nsys → nsys → Prop :=
| ns_add g a s msg url tag : nstep (mkN g a s) (mkN (notice_Add msg url tag g) (a ++ [(msg, url, tag)]) s)
| ns_round g a s order :
    order ≡ₚ map_to_list (default ∅ g) → nstep (mkN g a s) (mkN (postAll order g).1 a (s ++ order)).

Definition accepted (tag : string) (x : string * string * string) : Prop :=
  x.1.1 ≠ EmptyString ∧ x.1.2 ≠ EmptyString ∧ x.2 = tag.
#[export] Instance accepted_dec tag x : Decision (accepted tag x).
Proof. unfold accepted. apply _. Defined.

Fixpoint countOf (l : list NoticeData) : Z := match l with [] => 0 | d :: l => nd_Count d + countOf l end.
Definition sentFor (tag : string) (l : list (string * NoticeData)) : list NoticeData := (filter (λ x, x.1 = tag) l).*2.
Definition pendingFor (tag : string) (g : notices) : list NoticeData := match default ∅ g !! tag with Some d => [d] | None => [] end.

Lemma countOf_app l k : countOf (l ++ k) = countOf l + countOf k.
Proof. induction l as [|d l IH]; [done|]. cbn. rewrite IH. lia. Qed.

Lemma sentFor_app tag l k : sentFor tag (l ++ k) = sentFor tag l ++ sentFor tag k.
Proof. unfold sentFor. by rewrite filter_app, fmap_app. Qed.

Lemma sentFor_map tag (m : gmap string NoticeData) order :
  order ≡ₚ map_to_list m → sentFor tag order ≡ₚ match m !! tag with Some d => [d] | None => [] end.
Proof.
  intros Hp. unfold sentFor. rewrite Hp. destruct (m !! tag) as [d|] eqn:E.
  - rewrite <- (insert_delete_id m tag d E), map_to_list_insert by apply lookup_delete_eq.
    rewrite filter_cons_True by done. rewrite filter_false_in; [done|].
    intros [t x] Hin%elem_of_map_to_list. cbn. intros ->. by rewrite lookup_delete_eq in Hin.
  - rewrite filter_false_in; [done|]. intros [t x] Hin%elem_of_map_to_list. cbn. intros ->. congruence.
Qed.

Lemma countOf_perm l k : l ≡ₚ k → countOf l = countOf k.
Proof. induction 1; cbn; lia. Qed.

Lemma pending_add tag msg url t g :
  countOf (pendingFor tag g) < 2 ^ 63 - 1 → 0 ≤ countOf (pendingFor tag g) →
  countOf (pendingFor tag (notice_Add msg url t g)) = countOf (pendingFor tag g) + (if decide (accepted tag (msg, url, t)) then 1 else 0).
Proof.
  intros Hb Hp. unfold notice_Add, accepted. cbn [fst snd].
  destruct (decide (msg = EmptyString ∨ url = EmptyString)) as [Hm|Hm]; [rewrite decide_False by tauto; lia|].
  destruct (decide (t = tag)) as [->|Ht].
  - rewrite decide_True by tauto. unfold pendingFor in *. cbn [default].
    destruct (default ∅ g !! tag) as [d|] eqn:E; rewrite ?E in *; cbn; rewrite lookup_insert_eq; cbn in *; [|lia]. rewrite i64_id; [lia|]. width.
  - rewrite decide_False by tauto. unfold pendingFor. cbn [default].
    destruct (default ∅ g !! t); cbn; rewrite lookup_insert_ne by done; lia.
Qed.

(** What was sent and what is still pending per tag, against what came in. *)
Definition counted (s : nsys) : Prop :=
  ∀ tag, countOf (sentFor tag (n_sent s)) + countOf (pendingFor tag (n_g s)) = len (filter (accepted tag) (n_added s)) ∧
         0 ≤ countOf (sentFor tag (n_sent s)) ∧ 0 ≤ countOf (pendingFor tag (n_g s)).

Lemma counted_step s s' : nstep s s' → len (n_added s') < 2 ^ 63 → counted s → counted s'.
Proof.
  intros Hs Hlen Hc tag. destruct Hs as [g a st msg url t|g a st order Ho]; cbn [n_g n_added n_sent] in *; destruct (Hc tag) as (H1 & H2 & H3);
    cbn [n_g n_added n_sent] in *.
  - pose proof (length_filter (accepted tag) a) as Hf. rewrite len_app, len_cons, len_nil in Hlen.
    rewrite pending_add by (unfold len in *; lia). rewrite filter_app, len_app, filter_cons, filter_nil.
    splits; try lia; case_decide; unfold len; cbn [length]; unfold len in H1; lia.
  - rewrite sentFor_app, countOf_app, (countOf_perm _ _ (sentFor_map tag (default ∅ g) order Ho)).
    fold (pendingFor tag g). assert (pendingFor tag (postAll order g).1 = []) as -> by by destruct g.
    cbn. splits; lia.
Qed.

Definition filled (s : nsys) : Prop :=
  ∀ tag d, default ∅ (n_g s) !! tag = Some d → nd_Msg d ≠ EmptyString ∧ nd_Url d ≠ EmptyString.

Lemma reachable_filled s : rtc nstep (mkN None [] []) s → filled s.
Proof.
  intros Hr. apply (rtc_preserved nstep filled (mkN None [] []) s); [|done|intros tag d E; cbn in E; by rewrite lookup_empty in E].
  intros x y Hs Hx tag d. destruct Hs as [g a st msg url t|g a st order Ho]; cbn [n_g] in *.
  - unfold notice_Add. case_decide as Hm; [by apply Hx|]. cbn [default].
    destruct (default ∅ g !! t); cbn; intros [[<- <-]|[_ E]]%lookup_insert_Some; cbn; first [tauto|by apply (Hx tag)].
  - destruct g as [m|]; cbn; by rewrite lookup_empty.
Qed.

(** No alert goes uncounted: per tag, the numbers sent and the number still pending add up to
    the alerts that came in with a message and an address, in any interleaving with the
    rounds of the goroutine; the next round sends one text per pending tag, with its count,
    and leaves nothing pending. *)
Theorem alerts_counted s tag :
  rtc nstep (mkN None [] []) s → len (n_added s) < 2 ^ 63 →
  countOf (sentFor tag (n_sent s)) + countOf (pendingFor tag (n_g s)) = len (filter (accepted tag) (n_added s)) ∧
  ∀ order, order ≡ₚ map_to_list (default ∅ (n_g s)) →
    pendingFor tag (postAll order (n_g s)).1 = [] ∧
    (∀ d, d ∈ pendingFor tag (n_g s) → nd_Msg d ≠ EmptyString ∧ nd_Url d ≠ EmptyString ∧
       (withCount d, nd_Url d) ∈ (postAll order (n_g s)).2).
Proof.
  intros Hr Hlen. pose proof (reachable_filled s Hr) as Hf. split.
  - assert (Hc : len (n_added s) < 2 ^ 63 → counted s); [|by apply (Hc Hlen tag)].
    apply (rtc_preserved nstep (λ s, len (n_added s) < 2 ^ 63 → counted s) (mkN None [] []) s); [|done|done].
    intros x y Hs Hx Hy. apply (counted_step x y Hs Hy), Hx. destruct Hs; cbn in *; lens.
  - intros order Ho. split; [by destruct (n_g s)|]. intros d Hd. unfold pendingFor in Hd.
    destruct (default ∅ (n_g s) !! tag) as [d'|] eqn:E; [|by apply elem_of_nil in Hd]. apply list_elem_of_singleton in Hd as <-.
    destruct (Hf tag d E) as [Hm Hu]. splits; [done..|]. destruct (n_g s) as [m|] eqn:Eg; [|cbn in E; by rewrite lookup_empty in E].
    cbn [postAll snd]. apply list_elem_of_omap. exists (tag, d). split; [rewrite Ho; by apply elem_of_map_to_list|].
    unfold Post. rewrite decide_False; [done|]. cbn [snd]. intros [H|H]; [|done]. unfold withCount in H. by destruct (nd_Msg d).
Qed.

Lemma alerts_counted_witness :
  let g := notice_Add "b" "u" "line1" (notice_Add "a" "u" "line1" None) in
  countOf (sentFor "line1" []) + countOf (pendingFor "line1" g) = 2.
Proof.
  cbv zeta. assert (Hr : rtc nstep (mkN None [] []) (mkN (notice_Add "b" "u" "line1" (notice_Add "a" "u" "line1" None))
    [("a", "u", "line1"); ("b", "u", "line1")] [])).
  { eapply rtc_l; [apply (ns_add _ _ _ "a" "u" "line1")|]. eapply rtc_l; [apply (ns_add _ _ _ "b" "u" "line1")|]. apply rtc_refl. }
  exact (proj1 (alerts_counted _ "line1" Hr ltac:(by vm_compute))).
Defined.

(** ** Go slices

    A slice is a part of an array: the array, the length and the capacity; it starts at the
    array's first element here. [append] writes into the array when the capacity allows. *)

Section Slice.
Context {A : Type} (zero : A).

Record gslice := mkSl { sl_arr : nat; sl_len : nat; sl_cap : nat }.
Abbreviation heap := (gmap nat (list A)).

Definition contents (h : heap) (s : gslice) : list A := take (sl_len s) (default [] (h !! sl_arr s)).

(** Arrays are as long as the capacity. *)
Definition slice_ok (h : heap) (s : gslice) : Prop :=
  (sl_len s ≤ sl_cap s)%nat ∧ ∃ a, h !! sl_arr s = Some a ∧ length a = sl_cap s.

(** [grow]: the capacity the run time chooses for a needed length; [new]: a fresh array. *)
Definition append (grow : nat → nat → nat) (new : nat) (h : heap) (s : gslice) (xs : list A) : heap * gslice :=
  let a := default [] (h !! sl_arr s) in
  let n := (sl_len s + length xs)%nat in
  if decide (n ≤ sl_cap s)%nat
  then (<[sl_arr s := take (sl_len s) a ++ xs ++ drop n a]> h, mkSl (sl_arr s) n (sl_cap s))
  else let c := grow (sl_cap s) n in
       (<[new := take (sl_len s) a ++ xs ++ replicate (c - n) zero]> h, mkSl new n c).

Context (grow : nat → nat → nat) (Hgrow : ∀ c n, (n ≤ grow c n)%nat).

Lemma append_slice h s xs new :
  (append grow new h s xs).2 =
  if decide (sl_len s + length xs ≤ sl_cap s)%nat then mkSl (sl_arr s) (sl_len s + length xs) (sl_cap s)
  else mkSl new (sl_len s + length xs) (grow (sl_cap s) (sl_len s + length xs)).
Proof. unfold append. by destruct (decide _). Qed.

Lemma append_contents h s xs new :
  slice_ok h s → let '(h', s') := append grow new h s xs in slice_ok h' s' ∧ contents h' s' = contents h s ++ xs.
Proof.
  intros (Hl & a & Ha & Hc). unfold append, contents. rewrite Ha. cbn [default]. case_decide as Hd; cbn [sl_arr sl_len sl_cap].
  - rewrite lookup_insert_eq. cbn. split.
    + split; [done|]. exists (take (sl_len s) a ++ xs ++ drop (sl_len s + length xs) a). cbn. rewrite lookup_insert_eq. split; [done|].
      rewrite !length_app, length_take, length_drop. lia.
    + rewrite app_assoc. apply take_app_length'. rewrite length_app, length_take. lia.
  - specialize (Hgrow (sl_cap s) (sl_len s + length xs)). rewrite lookup_insert_eq. cbn. split.
    + split; [done|]. eexists. cbn. rewrite lookup_insert_eq. split; [done|].
      rewrite !length_app, length_take, length_replicate. lia.
    + rewrite app_assoc. apply take_app_length'. rewrite length_app, length_take. lia.
Qed.

(** Slices that are no longer than the one extended, and those of other arrays, keep their
    contents. *)
Lemma append_keeps h s xs new t :
  slice_ok h s → slice_ok h t → h !! new = None →
  (sl_arr t ≠ sl_arr s ∨ (sl_len t ≤ sl_len s)%nat) →
  contents (append grow new h s xs).1 t = contents h t ∧ slice_ok (append grow new h s xs).1 t.
Proof.
  intros (Hl & a & Ha & Hc) (Hlt & b & Hb & Hcb) Hn Ht. unfold append. rewrite Ha. cbn [default].
  assert (Hnew : sl_arr t ≠ new) by (intros E; congruence).
  case_decide as Hd; cbn [fst].
  - destruct (decide (sl_arr t = sl_arr s)) as [E|E].
    + destruct Ht as [?|Ht]; [done|]. unfold contents, slice_ok. rewrite E, lookup_insert_eq, Ha. cbn. rewrite E, Ha in Hb. injection Hb as <-.
      split.
      * rewrite take_app_le by (rewrite length_take; lia). by rewrite take_take, Nat.min_l by lia.
      * split; [done|]. eexists. split; [done|]. rewrite !length_app, length_take, length_drop. lia.
    + unfold contents, slice_ok. rewrite lookup_insert_ne by done. eauto.
  - unfold contents, slice_ok. rewrite lookup_insert_ne by done. eauto.
Qed.

End Slice.

(** ** error_notifier.go *)

Inductive ftype := Int64Type | Int32Type | Int16Type | Int8Type | Uint64Type | Uint32Type | StringType | BoolType | Float64Type | DurationType | OtherType.
#[export] Instance ftype_eq_dec : EqDecision ftype.
Proof. solve_decision. Defined.

(** [zapcore.Field]: where the value is depends on the type; [f_Interface] is the printed
    value, nil without one. *)
Record Field := mkField { f_Key : string; f_Type : ftype; f_Integer : Z; f_String : string; f_Interface : option string }.

(** [zap.Bool], [zap.Uint64], [zap.String]. *)
Definition zap_Bool (key : string) (b : bool) : Field := mkField key BoolType (if b then 1 else 0) EmptyString None.
Definition zap_Uint64 (key : string) (v : Z) : Field := mkField key Uint64Type (i64 v) EmptyString None.
Definition zap_String (key v : string) : Field := mkField key StringType 0 v None.

(** [getFieldValue] as [%v] prints it. *)
Definition getFieldValue (f : Field) : string :=
  match f_Type f with
  | Int64Type | Int32Type | Int16Type | Int8Type | Uint64Type | Uint32Type => Itoa (f_Integer f)
  | StringType => f_String f
  | _ => default "<nil>" (f_Interface f)
  end.

Definition zeroField : Field := mkField EmptyString OtherType 0 EmptyString None.

Record ErrorNotifierCore := mkCore { c_IId : string; c_NotifyUrl : string; c_fields : gslice }.

(** The level from which alerts are sent. *)
Definition ErrorLevel : Z := 2.
Definition Enabled (lvl : Z) : bool := bool_decide (ErrorLevel ≤ lvl).

Record Entry := mkEntry { e_Level : Z; e_Time : string; e_Caller : string; e_LevelStr : string; e_Message : string; e_Stack : string }.

(** Whether the core joins the entry's writers. *)
Definition core_Check (ent : Entry) (writers : nat) : nat := if Enabled (e_Level ent) then S writers else writers.

Section Core.
Context (grow : nat → nat → nat) (Hgrow : ∀ c n, (n ≤ grow c n)%nat).
Context (tpl : string → string → string → string → string → string → string → string → string). (* noticeMsgTpl *)

Definition core_With (new : nat) (h : gmap nat (list Field)) (c : ErrorNotifierCore) (fs : list Field) : gmap nat (list Field) * ErrorNotifierCore :=
  let '(h, s) := append zeroField grow new h (c_fields c) fs in (h, mkCore (c_IId c) (c_NotifyUrl c) s).

Definition kvString (fs : list Field) : string := fold_right (λ f s, f_Key f +:+ "=" +:+ getFieldValue f +:+ " " +:+ s) EmptyString fs.

(** [Write]: the arguments of [notice.Add], which runs in a goroutine of its own. *)
Definition core_Write (srvNode : string) (h : gmap nat (list Field)) (c : ErrorNotifierCore) (ent : Entry) (fs : list Field)
    : option (string * string * string) :=
  if decide (c_NotifyUrl c = EmptyString) then None
  else Some (tpl (c_IId c) srvNode (e_Time ent) (e_Caller ent) (e_LevelStr ent) (e_Message ent) (kvString (contents h (c_fields c) ++ fs)) (e_Stack ent),
             c_NotifyUrl c, e_Caller ent).

(** Deriving a logger keeps its parent and adds the fields: the child logs with the parent's
    fields followed by its own, and the parent still logs with its own. But loggers derived
    from the same parent share its array: with room for both, deriving the second overwrites
    the fields of the first, which from then on logs the second's. *)
Theorem derived_loggers new1 new2 (h : gmap nat (list Field)) c fs1 fs2 :
  slice_ok h (c_fields c) → h !! new1 = None →
  let '(h1, c1) := core_With new1 h c fs1 in
  contents h1 (c_fields c1) = contents h (c_fields c) ++ fs1 ∧ contents h1 (c_fields c) = contents h (c_fields c) ∧
  (h1 !! new2 = None →
   let '(h2, c2) := core_With new2 h1 c fs2 in
   contents h2 (c_fields c2) = contents h (c_fields c) ++ fs2 ∧
   ((sl_cap (c_fields c) < sl_len (c_fields c) + length fs1)%nat → contents h2 (c_fields c1) = contents h (c_fields c) ++ fs1) ∧
   (length fs1 = length fs2 → (sl_len (c_fields c) + length fs1 ≤ sl_cap (c_fields c))%nat →
    contents h2 (c_fields c1) = contents h (c_fields c) ++ fs2)).
Proof.
  intros Hok Hn1. unfold core_With.
  pose proof (append_contents zeroField grow Hgrow h (c_fields c) fs1 new1 Hok) as H1.
  pose proof (append_keeps zeroField grow h (c_fields c) fs1 new1 (c_fields c) Hok Hok Hn1 ltac:(by right)) as [Hk Hok'].
  pose proof (append_slice zeroField grow h (c_fields c) fs1 new1) as Hs1.
  destruct (append zeroField grow new1 h (c_fields c) fs1) as [h1 s1]. cbn [fst snd] in *. destruct H1 as [Hok1 H1]. cbn [c_fields].
  splits; [done..|]. intros Hn2.
  pose proof (append_contents zeroField grow Hgrow h1 (c_fields c) fs2 new2 Hok') as H2.
  pose proof (append_keeps zeroField grow h1 (c_fields c) fs2 new2 s1 Hok' Hok1 Hn2) as Hks.
  pose proof (append_slice zeroField grow h1 (c_fields c) fs2 new2) as Hs2.
  destruct (append zeroField grow new2 h1 (c_fields c) fs2) as [h2 s2]. cbn [fst snd] in *. destruct H2 as [Hok2 H2]. cbn [c_fields].
  splits; [by rewrite H2, Hk| |].
  - intros Hroom. rewrite decide_False in Hs1 by lia. subst s1. destruct Hks as [Hks _]; [|by rewrite Hks]. left. cbn.
    destruct Hok as (_ & a & Ha & _). congruence.
  - intros El Hroom. rewrite decide_True in Hs1 by lia. rewrite decide_True in Hs2 by lia. subst s1 s2. rewrite El. by rewrite H2, Hk.
Qed.

End Core.

(** Values whose type keeps them in another field than [Interface] are not shown, and large
    unsigned numbers are shown as negative ones. *)
Lemma alert_values b :
  getFieldValue (zap_Bool "ok" b) = "<nil>" ∧ getFieldValue (zap_Uint64 "id" (2 ^ 64 - 1)) = "-1" ∧
  getFieldValue (zap_Uint64 "id" 1001) = "1001" ∧ getFieldValue (zap_String "name" "x") = "x".
Proof. by vm_compute. Qed.

(** ** log.go *)

Inductive core := CFile (level : Z) | CConsole (level : Z) (color : bool) | CNotice (url iid : string).

Definition NewZapLog (conf : LogConf) : list core :=
  [CFile (lc_Level conf)] ++ (if lc_Console conf then [CConsole (lc_Level conf) (lc_ConsoleColor conf)] else []) ++
  (if decide (lc_NoticeUrl conf = EmptyString) then [] else [CNotice (lc_NoticeUrl conf) (lc_IId conf)]).

Definition demoHeap : gmap nat (list Field) := {[ 0%nat := [zap_String "srv" "game"; zeroField; zeroField; zeroField] ]}.
Definition demoCore : ErrorNotifierCore := mkCore "prod" "http" (mkSl 0 1 4).

Lemma derived_loggers_witness :
  let '(h1, c1) := core_With (λ _ n, n) 1 demoHeap demoCore [zap_String "role" "1"] in
  let '(h2, c2) := core_With (λ _ n, n) 2 h1 demoCore [zap_String "role" "2"] in
  contents h1 (c_fields c1) = [zap_String "srv" "game"; zap_String "role" "1"] ∧
  contents h2 (c_fields c1) = [zap_String "srv" "game"; zap_String "role" "2"].
Proof.
  pose proof (derived_loggers (λ _ n, n) ltac:(done) 1 2 demoHeap demoCore [zap_String "role" "1"] [zap_String "role" "2"]) as H.
  destruct (core_With (λ _ n, n) 1 demoHeap demoCore _) as [h1 c1] eqn:E1. vm_compute in E1. injection E1 as <- <-.
  destruct H as (H1 & _ & H2); [split; [cbn; lia|by eexists]|done|]. specialize (H2 eq_refl).
  destruct (core_With (λ _ n, n) 2 _ demoCore _) as [h2 c2]. destruct H2 as (_ & _ & H2). split; [exact H1|]. apply H2; [done|cbn; lia].
Defined.
