(* ===== verification/MsgGen.v ===== *)
(** * tools/proto/generate_msgid.go: assigning message ids

    The generator collects the messages of the protocol files by the prefix of their name
    and appends those that have no id yet to the enum of their kind. The syntax trees are
    those of the parser the tool uses; reading a file and parsing it are its inputs. *)

From S2P Require Import Prelude DataBus Redis.

(** ** Syntax trees *)

Inductive enumElem :=
| EnumField (name : string) (int : Z) (inlineComment : option (list string))
| EnumComment (lines : list string)
| EnumOther.

Record enum := mkEnum { en_Name : string; en_Elements : list enumElem }.

Inductive element :=
| ESyntax (value : string)
| EPackage (name : string)
| EImport (filename : string)
| EEnum (e : enum)
| EOption (name source : string)
| EMessage (name : string)
| EOther.

(** ** Collecting messages *)

Definition targetPrefixes : list string := ["C2S"; "S2C"; "S2S"].

(** [strings.HasPrefix] *)
Fixpoint HasPrefix (s p : string) : bool :=
  match p, s with
  | EmptyString, _ => true
  | String a p, String b s => bool_decide (a = b) && HasPrefix s p
  | _, _ => false
  end.

(** What [WalkDir] visits, in its order; [None] is a file that does not open or parse. *)
Record protoFile := mkFile { f_isDir : bool; f_ext : string; f_err : bool; f_def : option (list element) }.

Definition addMessage (msgMap : gmap string (list string)) (e : element) : gmap string (list string) :=
  match e with
  | EMessage name =>
      match list_find (λ p, HasPrefix name p = true) targetPrefixes with
      | Some (_, p) => <[p := default [] (msgMap !! p) ++ [name]]> msgMap
      | None => msgMap
      end
  | _ => msgMap
  end.

Definition visit (msgMap : gmap string (list string)) (f : protoFile) : gmap string (list string) :=
  if f_err f || f_isDir f || negb (bool_decide (f_ext f = ".proto")) then msgMap
  else match f_def f with
       | None => msgMap
       | Some els => fold_left addMessage els msgMap
       end.

Definition collectAllMessages (dirExists : bool) (files : list protoFile) : gmap string (list string) :=
  if dirExists then fold_left visit files ∅ else ∅.

(** ** Updating an enum *)

(** The map [enums] keeps the last enum of each name; its position stands for the
    pointer through which it is changed. *)
Fixpoint lastEnum (name : string) (els : list element) : option (nat * enum) :=
  match els with
  | [] => None
  | e :: els =>
      match lastEnum name els with
      | Some (i, x) => Some (S i, x)
      | None => match e with
                | EEnum x => if decide (en_Name x = name) then Some (0%nat, x) else None
                | _ => None
                end
      end
  end.

(** The names in use and the largest id, from -1. *)
Definition existingFields (els : list enumElem) : list string :=
  omap (λ el, match el with EnumField n _ _ => Some n | _ => None end) els.
Definition maxIDOf (els : list enumElem) : Z :=
  fold_left (λ m el, match el with EnumField _ i _ => if decide (i > m) then i else m | _ => m end) els (-1).

(** The loop over the collected messages. The names are those found before it. *)
Fixpoint newFields (existing : list string) (maxID : Z) (msgs : list string) : list enumElem :=
  match msgs with
  | [] => []
  | msg :: msgs =>
      if decide (msg ∈ existing) then newFields existing maxID msgs
      else let maxID := i64 (maxID + 1) in EnumField msg maxID None :: newFields existing maxID msgs
  end.

Definition updateEnum (typ : string) (msgs : list string) (els : list element) : list element * bool :=
  let enumName := "MsgID" +:+ typ in
  let '(els, i, target, created) :=
    match lastEnum enumName els with
    | Some (i, e) => (els, i, e, false)
    | None => let e := mkEnum enumName [] in (els ++ [EEnum e], length els, e, true)
    end in
  let fs := newFields (existingFields (en_Elements target)) (maxIDOf (en_Elements target)) msgs in
  (<[i := EEnum (mkEnum (en_Name target) (en_Elements target ++ fs))]> els, created || negb (bool_decide (fs = []))).

(** The target file: absent, unreadable or not parsed, or a tree. The result is the
    tree to be written, if any. *)
Inductive target := TMissing | TUnreadable | TParsed (els : list element).

Definition updateTargetEnumFile (typ : string) (msgs : list string) (t : target) : option (list element) :=
  match t with
  | TUnreadable => None
  | TMissing => Some (updateEnum typ msgs [ESyntax "proto3"]).1
  | TParsed els => let '(els, modified) := updateEnum typ msgs els in if modified then Some els else None
  end.

(** ** Writing *)

Definition nl : string := String (Ascii.ascii_of_nat 10) EmptyString.
Definition tab : string := String (Ascii.ascii_of_nat 9) EmptyString.
Definition dq : string := String (Ascii.ascii_of_nat 34) EmptyString.
Definition space : Ascii.ascii := Ascii.ascii_of_nat 32.
Definition semicolon : Ascii.ascii := Ascii.ascii_of_nat 59.

Section Write.
Context (quote : string → string).         (* the verb %q *)

Definition writeField (f : enumElem) : string :=
  match f with
  | EnumField n i (Some (c :: _)) => "    " +:+ n +:+ " = " +:+ Itoa i +:+ ";//" +:+ tab +:+ tab +:+ c +:+ nl
  | EnumField n i _ => "    " +:+ n +:+ " = " +:+ Itoa i +:+ ";" +:+ nl
  | EnumComment ls => fold_right (λ l s, "    // " +:+ l +:+ nl +:+ s) EmptyString ls
  | EnumOther => EmptyString
  end.

Definition writeFields (fs : list enumElem) (rest : string) : string :=
  fold_right (λ f s, writeField f +:+ s) rest fs.

Definition writeEnum (e : enum) : string :=
  nl +:+ "enum " +:+ en_Name e +:+ " {" +:+ nl +:+ writeFields (en_Elements e) ("}" +:+ nl).

Definition writeElement (n i : nat) (e : element) : string :=
  match e with
  | ESyntax v => "syntax = " +:+ quote v +:+ ";" +:+ nl +:+ nl
  | EPackage n => "package " +:+ n +:+ ";" +:+ nl
  | EImport f => "import " +:+ quote f +:+ ";" +:+ nl
  | EEnum e => writeEnum e +:+ (if decide (S i = n) then EmptyString else nl)
  | EOption name src =>
      if decide (name = "go_package") then "option " +:+ name +:+ " = " +:+ dq +:+ src +:+ dq +:+ ";" +:+ nl
      else "option " +:+ name +:+ " = " +:+ src +:+ ";" +:+ nl
  | _ => EmptyString
  end.

Definition writeProto (els : list element) : string :=
  fold_right (λ s t, s +:+ t) EmptyString (imap (writeElement (length els)) els).

End Write.

(** ** Ids of an enum *)

Definition idsOf (els : list enumElem) : list (string * Z) :=
  omap (λ el, match el with EnumField n i _ => Some (n, i) | _ => None end) els.
Definition enumIds (typ : string) (els : list element) : list (string * Z) :=
  match lastEnum ("MsgID" +:+ typ) els with Some (_, e) => idsOf (en_Elements e) | None => [] end.
Definition maxOf (ids : list (string * Z)) : Z := fold_left Z.max ids.*2 (-1).

Lemma existingFields_ids els : existingFields els = (idsOf els).*1.
Proof. unfold existingFields, idsOf. induction els as [|[] els IH]; cbn; [done|by f_equal|done|done]. Qed.

Lemma maxIDOf_ids els : maxIDOf els = maxOf (idsOf els).
Proof.
  unfold maxIDOf, maxOf, idsOf. generalize (-1). induction els as [|[n i c| |] els IH]; intros m; cbn; [done| |apply IH..].
  rewrite IH. f_equal. case_decide; lia.
Qed.

Lemma maxOf_bound ids : -1 ≤ maxOf ids ∧ ∀ n i, (n, i) ∈ ids → i ≤ maxOf ids.
Proof.
  unfold maxOf. assert (H : ∀ (l : list Z) m, m ≤ fold_left Z.max l m ∧ ∀ i, i ∈ l → i ≤ fold_left Z.max l m).
  { induction l as [|x l IH]; intros m; cbn; [split; [lia|by intros i ?%elem_of_nil]|].
    destruct (IH (Z.max m x)) as [H1 H2]. split; [lia|]. intros i [->|Hi]%elem_of_cons; [lia|by apply H2]. }
  destruct (H ids.*2 (-1)) as [H1 H2]. split; [done|]. intros n i Hi. apply H2. apply list_elem_of_fmap. by exists (n, i).
Qed.

(** The messages without an id get the next ids, one after the other. *)
Lemma newFields_ids ex m msgs :
  -1 ≤ m → m + len msgs < 2 ^ 63 →
  idsOf (newFields ex m msgs) = imap (λ k n, (n, m + 1 + Z.of_nat k)) (filter (λ n, n ∉ ex) msgs).
Proof.
  revert m. induction msgs as [|n msgs IH]; intros m Hm Hb; [done|]. cbn [newFields].
  assert (Hl : len (n :: msgs) = 1 + len msgs) by lens. rewrite Hl in Hb. destruct (decide (n ∈ ex)) as [Hin|Hn].
  - rewrite filter_cons_False by auto. apply IH; [done|lens].
  - rewrite filter_cons_True by done. rewrite i64_id by (unfold is_i64; lens). cbn. f_equal; [f_equal; lia|].
    rewrite IH by lens. apply imap_ext. intros k x _. cbn. f_equal. lia.
Qed.

Lemma newFields_nil ex m msgs : (∀ n, n ∈ msgs → n ∈ ex) → newFields ex m msgs = [].
Proof.
  revert m. induction msgs as [|n msgs IH]; intros m H; [done|]. cbn [newFields]. rewrite decide_True by (apply H; by left).
  apply IH. intros x Hx. apply H. by right.
Qed.

(** ** Positions of enums *)

Lemma lastEnum_spec name els i e : lastEnum name els = Some (i, e) → els !! i = Some (EEnum e) ∧ en_Name e = name.
Proof.
  revert i. induction els as [|x els IH]; intros i E; [done|]. cbn in E. destruct (lastEnum name els) as [[j y]|].
  - injection E as <- <-. by apply IH.
  - destruct x; try done. case_decide; [|done]. by injection E as <- <-.
Qed.

Lemma lastEnum_insert name els i e e' :
  lastEnum name els = Some (i, e) → en_Name e' = name → lastEnum name (<[i := EEnum e']> els) = Some (i, e').
Proof.
  revert i. induction els as [|x els IH]; intros i E Hn; [done|]. cbn in E.
  destruct (lastEnum name els) as [[j y]|] eqn:El.
  - injection E as <- <-. change (<[S j := EEnum e']> (x :: els)) with (x :: <[j := EEnum e']> els).
    cbn [lastEnum]. by rewrite (IH j).
  - destruct x; try done. case_decide; [|done]. injection E as <- <-. cbn. by rewrite El, decide_True.
Qed.

Lemma lastEnum_snoc name els e :
  lastEnum name els = None → en_Name e = name → lastEnum name (els ++ [EEnum e]) = Some (length els, e).
Proof.
  induction els as [|x els IH]; intros E Hn; cbn in *; [by rewrite decide_True|].
  destruct (lastEnum name els) as [[j y]|]; [done|]. by rewrite IH.
Qed.

(** The tree before the fields are added: the enum exists. *)
Definition withEnum (typ : string) (els : list element) : list element :=
  match lastEnum ("MsgID" +:+ typ) els with Some _ => els | None => els ++ [EEnum (mkEnum ("MsgID" +:+ typ) [])] end.

Lemma updateEnum_eq typ msgs els :
  ∃ i e, lastEnum ("MsgID" +:+ typ) (withEnum typ els) = Some (i, e) ∧ idsOf (en_Elements e) = enumIds typ els ∧
    let fs := newFields (enumIds typ els).*1 (maxOf (enumIds typ els)) msgs in
    updateEnum typ msgs els =
      (<[i := EEnum (mkEnum (en_Name e) (en_Elements e ++ fs))]> (withEnum typ els),
       bool_decide (lastEnum ("MsgID" +:+ typ) els = None) || negb (bool_decide (fs = []))).
Proof.
  unfold updateEnum, withEnum, enumIds. destruct (lastEnum ("MsgID" +:+ typ) els) as [[i e]|] eqn:E.
  - exists i, e. splits; [done..|]. cbv zeta. by rewrite existingFields_ids, maxIDOf_ids.
  - exists (length els), (mkEnum ("MsgID" +:+ typ) []). splits; [by apply lastEnum_snoc|done|]. done.
Qed.

(** Numbering a list of names from above [m]. *)
Definition numbered (m : Z) (l : list string) : list (string * Z) := imap (λ k n, (n, m + 1 + Z.of_nat k)) l.

Lemma numbered_names m l : (numbered m l).*1 = l.
Proof.
  apply list_eq. intros k. unfold numbered. rewrite list_lookup_fmap, list_lookup_imap. by destruct (l !! k).
Qed.

Lemma numbered_nums m l : NoDup (numbered m l).*2 ∧ ∀ n i, (n, i) ∈ numbered m l → n ∈ l ∧ m < i.
Proof.
  unfold numbered. split.
  - rewrite fmap_imap. apply NoDup_alt. intros a b x. rewrite !list_lookup_imap.
    destruct (l !! a), (l !! b); cbn; try done. intros [= <-] [= ?]. lia.
  - intros n i Hi. apply elem_of_lookup_imap in Hi as (k & x & [= -> ->] & Hx). split; [by eapply list_elem_of_lookup_2|lia].
Qed.

(** ** Properties *)

(** Message ids are stable: a run of the generator keeps every name and id of the enum
    in place, gives every collected message an id, numbers the new ones from above the
    largest id in use, so that ids stay distinct, and, if every message was collected once,
    names too; and a second run with the same messages finds nothing to change. This
    holds as long as the ids fit an [int]. *)
Theorem message_ids_stable (typ : string) (msgs : list string) (els : list element) :
  let old := enumIds typ els in
  maxOf old + len msgs < 2 ^ 63 →
  let '(els', modified) := updateEnum typ msgs els in
  let new := enumIds typ els' in
  (∃ added, new = old ++ added ∧ ∀ n i, (n, i) ∈ added → n ∈ msgs ∧ (n ∉ old.*1) ∧ ∀ m j, (m, j) ∈ old → j < i) ∧
  (∀ n, n ∈ msgs → n ∈ new.*1) ∧
  (NoDup old.*2 → NoDup new.*2) ∧ (NoDup msgs → NoDup old.*1 → NoDup new.*1) ∧
  (modified = false → els' = els) ∧ updateEnum typ msgs els' = (els', false).
Proof.
  intros old Hb. destruct (updateEnum_eq typ msgs els) as (i & e & El & Ei & Eu). cbv zeta in Eu. fold old in Ei, Eu.
  set (fs := newFields old.*1 (maxOf old) msgs) in *. rewrite Eu. cbv zeta.
  destruct (maxOf_bound old) as [Hm1 Hm2]. set (fresh := filter (λ n, n ∉ old.*1) msgs).
  assert (Hf : idsOf fs = numbered (maxOf old) fresh) by (by apply newFields_ids).
  destruct (numbered_nums (maxOf old) fresh) as [Hnum Hin].
  assert (El' := lastEnum_insert _ _ _ _ (mkEnum (en_Name e) (en_Elements e ++ fs)) El (proj2 (lastEnum_spec _ _ _ _ El))).
  assert (Es : idsOf (en_Elements e ++ fs) = old ++ numbered (maxOf old) fresh).
  { rewrite <- Hf, <- Ei. apply omap_app. }
  assert (En : enumIds typ (<[i := EEnum (mkEnum (en_Name e) (en_Elements e ++ fs))]> (withEnum typ els)) =
               old ++ numbered (maxOf old) fresh) by (unfold enumIds; by rewrite El').
  assert (Hall : ∀ n, n ∈ msgs → n ∈ (old ++ numbered (maxOf old) fresh).*1).
  { intros n Hn. rewrite fmap_app, numbered_names. apply elem_of_app. destruct (decide (n ∈ old.*1)); [by left|right].
    by apply list_elem_of_filter. }
  rewrite En. splits.
  - exists (numbered (maxOf old) fresh). split; [done|]. intros n j Hj. apply Hin in Hj as [[? ?]%list_elem_of_filter ?].
    splits; [done..|]. intros m k Hk. apply Hm2 in Hk. lia.
  - done.
  - intros Hd. rewrite fmap_app. apply NoDup_app. splits; [done| |done]. intros x Hx Hx'.
    apply list_elem_of_fmap in Hx as ([n j] & -> & Hx), Hx' as ([m k] & Ek & Hx').
    apply Hm2 in Hx. apply Hin in Hx' as [_ ?]. cbn in *. lia.
  - intros Hdm Hd. rewrite fmap_app, numbered_names. apply NoDup_app. splits; [done| |by apply NoDup_filter].
    intros x Hx Hx'. by apply list_elem_of_filter in Hx' as [? _].
  - intros Hmod. apply orb_false_iff in Hmod as [H1 H2]. apply bool_decide_eq_false in H1.
    apply negb_false_iff, bool_decide_eq_true in H2. rewrite H2, app_nil_r. unfold withEnum in *.
    destruct (lastEnum _ els) as [[j y]|]; [|done]. apply list_insert_id. destruct e. by apply lastEnum_spec in El as [-> _].
  - unfold updateEnum. rewrite El'. cbn [en_Elements]. rewrite (newFields_nil _ _ msgs).
    + rewrite app_nil_r. cbn. f_equal. apply list_insert_id. by apply lastEnum_spec in El' as [-> _].
    + intros n Hn. rewrite existingFields_ids, Es. by apply Hall.
Qed.

Definition demoTree : list element :=
  [ESyntax "proto3"; EEnum (mkEnum "MsgIDC2S" [EnumField "C2SNone" 0 None; EnumField "C2SLogin" 100001 None])].

Lemma message_ids_stable_witness :
  enumIds "C2S" (updateEnum "C2S" ["C2SLogin"; "C2SEcho"] demoTree).1 =
    [("C2SNone", 0); ("C2SLogin", 100001); ("C2SEcho", 100002)] ∧
  updateEnum "C2S" ["C2SLogin"; "C2SEcho"] (updateEnum "C2S" ["C2SLogin"; "C2SEcho"] demoTree).1 =
    ((updateEnum "C2S" ["C2SLogin"; "C2SEcho"] demoTree).1, false).
Proof.
  split; [reflexivity|]. pose proof (message_ids_stable "C2S" ["C2SLogin"; "C2SEcho"] demoTree ltac:(vm_compute; reflexivity)) as H.
  destruct (updateEnum "C2S" ["C2SLogin"; "C2SEcho"] demoTree) as [els' modified].
  by destruct H as (_ & _ & _ & _ & _ & H).
Defined.

(** A message that is declared in two files is collected twice, and gets two ids. *)
Lemma duplicate_message_two_ids (n : string) :
  n ∉ ["C2SNone"; "C2SLogin"] →
  enumIds "C2S" (updateEnum "C2S" [n; n] demoTree).1 =
    [("C2SNone", 0); ("C2SLogin", 100001); (n, 100002); (n, 100003)].
Proof.
  intros Hn. set (fs := [EnumField "C2SNone" 0 None; EnumField "C2SLogin" 100001 None]).
  assert (E : newFields (existingFields fs) (maxIDOf fs) [n; n] = [EnumField n 100002 None; EnumField n 100003 None]).
  { cbn [newFields]. change (existingFields fs) with ["C2SNone"; "C2SLogin"]. rewrite !decide_False by done. reflexivity. }
  unfold updateEnum. change (lastEnum ("MsgID" +:+ "C2S") demoTree) with (Some (1%nat, mkEnum "MsgIDC2S" fs)).
  cbv beta iota zeta. cbn [en_Elements]. by rewrite E.
Qed.

(** ** The written enum

    [plain] enums are those the generator makes: fields only, without comments, with names
    that have no blank and ids that are not negative. *)

Fixpoint without (c : Ascii.ascii) (s : string) : bool :=
  match s with EmptyString => true | String a s => negb (bool_decide (a = c)) && without c s end.

Definition plainField (f : enumElem) : Prop :=
  match f with EnumField n i None => without space n = true ∧ is_u64 i | _ => False end.
Definition plain (e : enum) : Prop := without space (en_Name e) = true ∧ Forall plainField (en_Elements e).

Lemma string_app_assoc (a b c : string) : (a +:+ b) +:+ c = a +:+ (b +:+ c).
Proof. induction a as [|x a IH]; [done|]. change (String x ((a +:+ b) +:+ c) = String x (a +:+ (b +:+ c))). by rewrite IH. Qed.

Lemma cut_inj c a b x y : without c a = true → without c b = true → a +:+ String c x = b +:+ String c y → a = b ∧ x = y.
Proof.
  revert b. induction a as [|d a IH]; intros [|e b] Ha Hb E; cbn in *.
  - by injection E.
  - injection E as <- _. rewrite bool_decide_true in Hb by done. done.
  - injection E as -> _. rewrite bool_decide_true in Ha by done. done.
  - injection E as -> E. apply andb_prop in Ha as [_ Ha], Hb as [_ Hb]. destruct (IH b Ha Hb E) as [-> ->]. done.
Qed.

Lemma writeFields_inj fs gs :
  Forall plainField fs → Forall plainField gs →
  writeFields fs ("}" +:+ nl) = writeFields gs ("}" +:+ nl) → fs = gs.
Proof.
  intros Hf. revert gs. induction Hf as [|f fs Hf Hfs IH]; intros gs Hg E.
  - destruct Hg as [|g gs Hg _]; [done|]. destruct g as [n i [c|]| |]; by destruct Hg.
  - destruct f as [n i [c|]| |]; try done. destruct Hg as [|g gs Hg Hgs]; [done|].
    destruct g as [m j [c|]| |]; try done. destruct Hf as [Hn Hi], Hg as [Hm Hj].
    cbn [writeFields fold_right writeField] in E. rewrite !string_app_assoc in E. cbn in E. injection E as E.
    apply (cut_inj space) in E as [-> E]; [|done..]. injection E as E.
    apply (Itoa_end semicolon) in E as [-> E]; [|done..]. injection E as E. f_equal. by apply IH.
Qed.

(** The text of an enum determines it: two enums that are written alike are the same. *)
Theorem written_enum_unique e e' : plain e → plain e' → writeEnum e = writeEnum e' → e = e'.
Proof.
  intros [Hn Hf] [Hn' Hf'] E. destruct e as [n fs], e' as [n' fs']. unfold writeEnum in E. cbn in *.
  injection E as E. apply (cut_inj space) in E as [-> E]; [|done..]. injection E as E. f_equal. by apply writeFields_inj.
Qed.

Lemma written_enum_unique_witness :
  plain (mkEnum "MsgIDC2S" [EnumField "C2SNone" 0 None]) ∧
  (writeEnum (mkEnum "MsgIDC2S" [EnumField "C2SNone" 0 None]) = writeEnum (mkEnum "MsgIDC2S" [EnumField "C2SNone" 0 None]) →
   mkEnum "MsgIDC2S" [EnumField "C2SNone" 0 None] = mkEnum "MsgIDC2S" [EnumField "C2SNone" 0 None]).
Proof.
  assert (H : plain (mkEnum "MsgIDC2S" [EnumField "C2SNone" 0 None])) by (split; [reflexivity|repeat constructor; cbn; lia]).
  split; [exact H|]. intros E. exact (written_enum_unique _ _ H H E).
Defined.
