(* ===== verification/ProtoGen.v ===== *)
(** * tools/proto/generate_proto.go: the generated registration of the messages

    From the name tables of the message id enums the generator writes [msg_helper.go]: a
    pool per server message and a registration per message. Go's formatter is an
    argument. [MsgPool] of pkg/gnet/pool is the type of the pools. *)

From stdpp Require Import sorting.
From S2P Require Import Prelude DataBus Proto MsgGen.

Record Node := mkNode { nd_Id : string; nd_Value : string }.

(** [order] is the order in which the keys of the map are met. *)
Definition getNodes (order : list Z) (msgIds : gmap Z string) : list Node :=
  (λ k, let name := default EmptyString (msgIds !! i32 k) in mkNode name name) <$> merge_sort Z.le order.

(** ** The template *)

Definition each (f : Node → string) (ns : list Node) : string := foldr (λ n s, f n +:+ s) EmptyString ns.

Definition poolDecl (n : Node) : string :=
  " " +:+ nl +:+ tab +:+ "Pool" +:+ nd_Value n +:+ " = pool.NewMsgPool[" +:+ nd_Value n +:+ "]()" +:+ nl +:+ tab.

Definition registerCall (kind : string) (n : Node) : string :=
  " register" +:+ kind +:+ "Msg(msgid.MsgID" +:+ kind +:+ "_" +:+ nd_Id n +:+ ", &messageMeta{" +:+ nl +:+
  tab +:+ tab +:+ "MessageType:reflect.TypeOf(" +:+ nd_Value n +:+ "{})," +:+ nl +:+
  tab +:+ tab +:+ "NewMessage: func() VTMessage { return &" +:+ nd_Value n +:+ "{} }," +:+ nl +:+
  tab +:+ "})" +:+ nl +:+ tab +:+ nl +:+ tab.

Definition registerFunc (kind : string) (ns : list Node) : string :=
  "func registerAll" +:+ kind +:+ "Msg()  {" +:+ nl +:+ tab +:+ each (registerCall kind) ns +:+ "}".

Definition template (C2S S2C S2S : list Node) : string :=
  "// Code generated by tools/proto/generate_proto. DO NOT EDIT." +:+ nl +:+ "package pb" +:+ nl +:+ nl +:+
  "import (" +:+ nl +:+ tab +:+ dq +:+ "reflect" +:+ dq +:+ nl +:+ tab +:+ dq +:+ "server/api/pb/msgid" +:+ dq +:+ nl +:+
  tab +:+ dq +:+ "server/pkg/gnet/pool" +:+ dq +:+ nl +:+ ")" +:+ nl +:+ nl +:+
  "var (" +:+ nl +:+ tab +:+ each poolDecl S2C +:+ nl +:+ tab +:+ each poolDecl S2S +:+ nl +:+ ")" +:+ nl +:+ nl +:+
  registerFunc "C2S" C2S +:+ nl +:+ tab +:+ nl +:+ registerFunc "S2C" S2C +:+ nl +:+ nl +:+ registerFunc "S2S" S2S.

Definition outFileName : string := "msg_helper.go".

(** The name tables with the order each is met in; the files after, [None] for a panic. *)
Definition main (fmt : string → result string) (writable : bool) (c2s s2c s2s : list Z * gmap Z string)
    (files : gmap string string) : option (gmap string string) :=
  match fmt (template (getNodes c2s.1 c2s.2) (getNodes s2c.1 s2c.2) (getNodes s2s.1 s2s.2)) with
  | Err _ => None
  | Ok fineCode => if writable then Some (<[outFileName := fineCode]> files) else None
  end.

(** What the calls a list of nodes stands for register: the constant of [Id] is its key in the
    name table. *)
Definition registered (msgIds : gmap Z string) (ns : list Node) : list (Z * string) :=
  ns ≫= λ n, (λ e, (e.1, nd_Value n)) <$> filter (λ e, e.2 = nd_Id n) (map_to_list msgIds).

(** ** The order of the map does not matter *)

Definition keys_of (msgIds : gmap Z string) : list Z := (map_to_list msgIds).*1.
Definition enum_wf (msgIds : gmap Z string) : Prop :=
  (∀ i j n, msgIds !! i = Some n → msgIds !! j = Some n → i = j) ∧ ∀ i n, msgIds !! i = Some n → is_i32 i.

Lemma sort_order (l1 l2 : list Z) : l1 ≡ₚ l2 → merge_sort Z.le l1 = merge_sort Z.le l2.
Proof.
  intros Hp. apply (Sorted_unique Z.le); [apply (Sorted_merge_sort _)..|].
  by rewrite !merge_sort_Permutation.
Qed.

Lemma keys_lookup (m : gmap Z string) i : i ∈ keys_of m ↔ is_Some (m !! i).
Proof.
  unfold keys_of. rewrite list_elem_of_fmap. split.
  - intros ([j n] & -> & Hj). apply elem_of_map_to_list in Hj. by exists n.
  - intros [n Hn]. exists (i, n). split; [done|]. by apply elem_of_map_to_list.
Qed.

(** The keys of one name: a single one. *)
Lemma filter_name (m : gmap Z string) i n :
  enum_wf m → m !! i = Some n → filter (λ e, e.2 = n) (map_to_list m) = [(i, n)].
Proof.
  intros [Hinj _] Hi. apply (Permutation_singleton_r (filter _ _)), NoDup_Permutation.
  - apply NoDup_filter, NoDup_map_to_list.
  - apply NoDup_singleton.
  - intros [j k]. rewrite list_elem_of_filter, elem_of_map_to_list, list_elem_of_singleton. cbn. split.
    + intros [-> Hj]. by rewrite (Hinj _ _ _ Hj Hi).
    + by intros [= -> ->].
Qed.

Lemma registered_in_order m ks :
  enum_wf m → Forall (λ k, is_Some (m !! k)) ks →
  registered m ((λ k, let name := default EmptyString (m !! i32 k) in mkNode name name) <$> ks) =
  (λ k, (k, default EmptyString (m !! k))) <$> ks.
Proof.
  intros Hm. induction 1 as [|k ks [n Hk] _ IH]; [done|]. unfold registered in *. cbn [fmap list_fmap mbind list_bind].
  rewrite IH, i32_id by (by apply (proj2 Hm _ _ Hk)). rewrite Hk.
  change (nd_Id _) with n. by rewrite (filter_name m k n).
Qed.

Lemma registered_nodes m order :
  enum_wf m → order ≡ₚ keys_of m →
  registered m (getNodes order m) = (λ k, (k, default EmptyString (m !! k))) <$> merge_sort Z.le order.
Proof.
  intros Hm Hp. apply registered_in_order; [done|]. apply Forall_forall. intros k Hk.
  rewrite merge_sort_Permutation, Hp in Hk. by apply keys_lookup.
Qed.

(** The generated file does not depend on the order in which Go walks the maps, and running it
    registers exactly the messages of the enum: each under its own id, an id outside of the
    enum not at all. *)
Theorem generated_registry {M} `{VTMessage M} (m : gmap Z string) order order' :
  enum_wf m → order ≡ₚ keys_of m → order' ≡ₚ keys_of m →
  let t := registerAll (registered m (getNodes order m)) : TypeMeta M in
  getNodes order' m = getNodes order m ∧
  (∀ id name, m !! id = Some name →
     TypeMeta_MsgID t name = Some id ∧ TypeMeta_NewFunc t id = Some (new_msg name)) ∧
  (∀ id, m !! id = None → TypeMeta_New t id = None).
Proof.
  intros Hm Hp Hp' t. set (l := registered m (getNodes order m)) in *. pose proof (registered_nodes m order Hm Hp) as El.
  fold l in El. assert (Hin : ∀ id name, (id, name) ∈ l ↔ m !! id = Some name).
  { intros id name. rewrite El, list_elem_of_fmap. setoid_rewrite merge_sort_Permutation. setoid_rewrite Hp.
    setoid_rewrite keys_lookup. split; [intros (k & [= -> ->] & [n ->]); done|]. intros E. exists id. rewrite E. by eauto. }
  assert (N1 : NoDup l.*1).
  { rewrite El, <- list_fmap_compose. cbn. rewrite list_fmap_id, merge_sort_Permutation, Hp. apply NoDup_fst_map_to_list. }
  assert (N2 : NoDup l.*2).
  { apply NoDup_fmap_2_strong; [|by apply NoDup_fmap_1 in N1]. intros [i n] [j k] Hi Hj. cbn. intros ->.
    apply Hin in Hi, Hj. by rewrite (proj1 Hm _ _ _ Hi Hj). }
  splits.
  - unfold getNodes. by rewrite (sort_order order' order) by (by rewrite Hp').
  - intros id name E. by apply registerAll_lookup; [..|apply Hin].
  - intros id E. unfold TypeMeta_New, t. rewrite (proj1 (registerAll_spec l N1 N2)).
    destruct (list_to_map l !! id) as [n|] eqn:E'; [|done]. apply elem_of_list_to_map_2, Hin in E'. congruence.
Qed.

(** The three tables of the repository, for the enums of its id files. *)
Definition MsgIDC2S_name : gmap Z string := list_to_map tableC2S.
Definition MsgIDS2C_name : gmap Z string := list_to_map tableS2C.
Definition MsgIDS2S_name : gmap Z string := list_to_map tableS2S.

Lemma repository_tables :
  registered MsgIDC2S_name (getNodes (keys_of MsgIDC2S_name) MsgIDC2S_name) = tableC2S ∧
  registered MsgIDS2C_name (getNodes (keys_of MsgIDS2C_name) MsgIDS2C_name) = tableS2C ∧
  registered MsgIDS2S_name (getNodes (keys_of MsgIDS2S_name) MsgIDS2S_name) = tableS2S.
Proof. splits; vm_compute; reflexivity. Qed.

Lemma enum_wf_list (l : list (Z * string)) :
  NoDup l.*1 → NoDup l.*2 → Forall is_i32 l.*1 → enum_wf (list_to_map l).
Proof.
  intros N1 N2 Hf. assert (Hl : ∀ i n, (list_to_map l : gmap Z string) !! i = Some n → (i, n) ∈ l).
  { intros i n E. by apply elem_of_list_to_map_2. }
  split.
  - intros i j n Hi%Hl Hj%Hl. apply list_elem_of_lookup in Hi as [a Ha], Hj as [b Hb].
    assert (a = b) as ->; [|congruence]. apply (NoDup_lookup _ a b n N2); rewrite list_lookup_fmap; [by rewrite Ha|by rewrite Hb].
  - intros i n Hi%Hl. rewrite Forall_forall in Hf. apply Hf, list_elem_of_fmap. by exists (i, n).
Qed.

Lemma generated_registry_witness :
  let t := registerAll (registered MsgIDS2C_name (getNodes [106; 0; 101; 2; 103; 105; 100; 104] MsgIDS2C_name)) : TypeMeta demoMsg in
  TypeMeta_MsgID t "S2CEcho" = Some 106 ∧ TypeMeta_New t 107 = None ∧
  getNodes (reverse (keys_of MsgIDS2C_name)) MsgIDS2C_name = getNodes [106; 0; 101; 2; 103; 105; 100; 104] MsgIDS2C_name.
Proof.
  destruct (generated_registry (M := demoMsg) MsgIDS2C_name [106; 0; 101; 2; 103; 105; 100; 104] (reverse (keys_of MsgIDS2C_name)))
    as (H1 & H2 & H3).
  - apply enum_wf_list; dec.
  - apply NoDup_Permutation; [dec|apply NoDup_fst_map_to_list|].
    intros x. vm_compute (keys_of _). rewrite !elem_of_cons. tauto.
  - apply reverse_Permutation.
  - intros t. splits; [apply (H2 106 "S2CEcho"); reflexivity|apply H3; reflexivity|exact H1].
Defined.

(** ** The pools *)

Section MsgPool.
Context {M : Type} `{VTLaws M} (T : string).

(** The idle messages of a pool of type [T]. *)
Definition MsgPool : Type := list M.
Definition NewMsgPool : MsgPool := [].
(** [pick]: which idle message the pool hands out, a new one otherwise. *)
Definition MsgPool_Get (pick : option nat) (p : list M) : M * list M :=
  match (i ← pick; m ← p !! i; Some (i, m)) with
  | Some (i, m) => (proto_Reset m, delete i p)
  | None => (proto_Reset (new_msg T), p)
  end.
Definition MsgPool_Put (m : M) (p : list M) : list M := m :: p.

(** Whatever was put back, a message taken from the pool is the empty message of its type. *)
Lemma MsgPool_Get_empty pick p :
  Forall (λ m, msg_type m = T) p →
  (MsgPool_Get pick p).1 = new_msg T ∧ Forall (λ m, msg_type m = T) (MsgPool_Get pick p).2.
Proof.
  intros Hp. unfold MsgPool_Get.
  assert (Hn : proto_Reset (new_msg T : M) = new_msg T) by (by rewrite reset_new, new_msg_type).
  destruct pick as [i|]; cbn [mbind option_bind fst snd]; [|by split].
  destruct (p !! i) as [m|] eqn:E; cbn [mbind option_bind fst snd]; [|by split].
  rewrite reset_new, (Forall_lookup_1 _ _ _ _ Hp E). split; [done|by apply Forall_delete].
Qed.

End MsgPool.
