(* ===== verification/Robot.v ===== *)
(** * internal/robot: the test client

    The robots speak the gateway's protocol: packets of a big-endian message id and a
    payload, read by one goroutine, handled by the session's main loop and written through
    a bounded channel and a reused buffer by a third goroutine. *)

From S2P Require Import Prelude SwapQueue Batcher DataBus Session Util.

(** ** Packets: pkg.go *)

Definition newReader (data : bytes) : result bytes :=
  if decide (len data < 4) then Err (ErrMsg "packet head < 2") else Ok data.

Definition GetMsgID (p : bytes) : option Z := h ← slice p 0 4; Some (be_combine h).
Definition GetData (p : bytes) : option bytes := slice p 4 (len p).

Record pkgWriter := mkPW { pw_msgId : Z; pw_data : bytes }.

(** [Write] into a buffer: the id over its first four bytes, as much of the payload as
    there is room for behind it; [None] is the panic of a buffer without room for the id. *)
Definition pkgWrite (p : pkgWriter) (retCache : bytes) : option (bytes * Z) :=
  if decide (len retCache < 4) then None
  else
    let copied := take (length retCache - 4) (pw_data p) in
    Some (be_split 4 (pw_msgId p) ++ copied ++ drop (4 + length copied) retCache, len (pw_data p) + 4).

(** ** Sending: sender.go *)

Definition sendPacketLimit : Z := 1024.

(** The packet handed to the connection, and the buffer afterwards. *)
Definition rawSend (p : pkgWriter) (cache : bytes) : option (bytes * bytes) :=
  '(cache, n) ← pkgWrite p cache;
  pkt ← slice cache 0 n;
  Some (cache, pkt).

Definition sendWithCache (p : pkgWriter) (cache : bytes) : option (bytes * bytes) :=
  if decide (len (pw_data p) > sendPacketLimit) then
    '(_, pkt) ← rawSend p (replicate (length (pw_data p) + 10) 0);
    Some (cache, pkt)
  else rawSend p cache.

(** The loop over what comes out of the channel. [WriteMessage] may fail for any packet,
    which is logged only: [ok] says which ones are written. *)
Fixpoint sendLoop (ok : nat → bool) (n : nat) (ps : list pkgWriter) (cache : bytes) : option (list bytes) :=
  match ps with
  | [] => Some []
  | p :: ps =>
      '(cache, pkt) ← sendWithCache p cache;
      pkts ← sendLoop ok (S n) ps cache;
      Some (if ok n then pkt :: pkts else pkts)
  end.

Definition cache0 : bytes := replicate (Z.to_nat (sendPacketLimit + 10)) 0.

(** [Send]: the channel [out] with its capacity. *)
Definition cli_Send (outSize msgID : Z) (data : bytes) (out : list pkgWriter) : list pkgWriter * bool :=
  if decide (len out < outSize) then (out ++ [mkPW msgID data], true) else (out, false).

(** [SendPB]; [msg] is the marshalled message, or none. *)
Definition cli_SendPB (outSize msgID : Z) (msg : option (result bytes)) (out : list pkgWriter) : list pkgWriter * bool :=
  match msg with
  | None => cli_Send outSize msgID [] out
  | Some (Err _) => (out, false)
  | Some (Ok b) => cli_Send outSize msgID b out
  end.

(** ** Receiving: handler.go, recver.go, session.go *)

Section Client.
Context {M A : Type}.
Context (unmarshal : bytes → M → result M).

(** The session as its main loop sees it; [A] is the unit behind it, which the handlers
    change. *)
Record cli := mkCli { c_flag : Z; c_pkgCnt : Z; c_pkgCnt1Min : Z; c_unit : A }.

Definition SesClose : Z := 1.
Definition cli_Close (s : cli) : cli := mkCli (Flag_Add SesClose (c_flag s)) (c_pkgCnt s) (c_pkgCnt1Min s) (c_unit s).
Definition isClosed (s : cli) : bool := Flag_Has SesClose (c_flag s).

Record msgHandler := mkMH { createFunc : option (option M); handleFunc : option M → cli → cli }.

Record Route := mkRoute { r_size : Z; r_handlers : gmap Z msgHandler }.

Definition NewRoute (size : Z) : Route := mkRoute size ∅.

(** [Register]: an index out of range panics. *)
Definition route_Register (msgID : Z) (h : msgHandler) (r : Route) : option Route :=
  if decide (msgID < r_size r) then Some (mkRoute (r_size r) (<[msgID := h]> (r_handlers r))) else None.

Definition errAPINotRegist : gerror := ErrMsg "api not regist".

Definition route_getHandler (id : Z) (r : Route) : result msgHandler :=
  if decide (id >= r_size r) then Err errAPINotRegist
  else match r_handlers r !! id with
       | None => Err errAPINotRegist
       | Some h => match createFunc h with None => Err errAPINotRegist | Some _ => Ok h end
       end.

(** A handler whose [createFunc] yields nil gets no message. *)
Definition parseMsg (h : msgHandler) (data : bytes) : result (option M) :=
  match createFunc h with
  | Some (Some m) => match unmarshal data m with Ok m => Ok (Some m) | Err e => Err e end
  | _ => Ok None
  end.

Definition route_Handle (r : Route) (id : Z) (data : bytes) (s : cli) : cli * bool :=
  match route_getHandler id r with
  | Err _ => (s, false)
  | Ok h => match parseMsg h data with
            | Err _ => (cli_Close s, false)
            | Ok msg => (handleFunc h msg s, true)
            end
  end.

Definition onRecvCliMsg (r : Route) (data : bytes) (s : cli) : option cli :=
  match newReader data with
  | Err _ => Some (cli_Close s)
  | Ok p =>
      msgID ← GetMsgID p;
      d ← GetData p;
      Some (route_Handle r msgID d s).1
  end.

Definition check1Min (RpmLimit : Z) (s : cli) : cli :=
  let s := if decide (RpmLimit > 0 ∧ c_pkgCnt1Min s > RpmLimit) then cli_Close s else s in
  mkCli (c_flag s) (c_pkgCnt s) 0 (c_unit s).

(** What the main loop's select receives. *)
Inductive mainEvt := MIn (data : bytes) | MInClosed | MEvt | MSec (f : A → A) | MMinute | MShutDown.

(** One turn: the session and whether the loop goes on. *)
Definition mainTurn (r : Route) (RpmLimit : Z) (e : mainEvt) (s : cli) : option (cli * bool) :=
  let next s := Some (s, negb (isClosed s)) in
  match e with
  | MInClosed => Some (s, false)
  | MIn data =>
      s ← onRecvCliMsg r data (mkCli (c_flag s) (u32 (c_pkgCnt s + 1)) (i64 (c_pkgCnt1Min s + 1)) (c_unit s));
      next s
  | MEvt => next s
  | MSec f => next (mkCli (c_flag s) (c_pkgCnt s) (c_pkgCnt1Min s) (f (c_unit s)))
  | MMinute => next (check1Min RpmLimit s)
  | MShutDown => next (cli_Close s)
  end.

Fixpoint mainLoop (r : Route) (RpmLimit : Z) (es : list mainEvt) (s : cli) : option cli :=
  match es with
  | [] => Some s
  | e :: es => '(s, go) ← mainTurn r RpmLimit e s; if go : bool then mainLoop r RpmLimit es s else Some s
  end.

End Client.

(** ** Timed tasks: time_evt.go *)

Section Tasks.
Context {R : Type}.

Record Item := mkItem { it_cb : R → R; it_runTime : Z; it_period : Z }.
Record TimeEvter := mkTE { te_items : list Item; te_now : Z }.

Definition NewTimeEvter (now : Z) : TimeEvter := mkTE [] now.
Definition te_Add (period : Z) (cb : R → R) (t : TimeEvter) : TimeEvter :=
  mkTE (te_items t ++ [mkItem cb (te_now t + period) period]) (te_now t).

(** The loop over the items: a due one runs once and is due a period later. *)
Fixpoint runItems (now : Z) (items : list Item) (r : R) : list Item * R :=
  match items with
  | [] => ([], r)
  | v :: items =>
      let '(v, r) := if decide (it_runTime v < now)
                     then (mkItem (it_cb v) (it_runTime v + it_period v) (it_period v), it_cb v r) else (v, r) in
      let '(items, r) := runItems now items r in (v :: items, r)
  end.
Definition te_Run (now : Z) (t : TimeEvter) (r : R) : TimeEvter * R :=
  let '(items, r) := runItems now (te_items t) r in (mkTE items now, r).

End Tasks.
Arguments TimeEvter : clear implicits.
Arguments Item : clear implicits.

(** ** Facts *)

Definition frame (p : pkgWriter) : bytes := packet (mkSend (pw_msgId p) (pw_data p)).

Lemma rawSend_frame p cache :
  len (pw_data p) + 4 ≤ len cache → ∃ cache', rawSend p cache = Some (cache', frame p) ∧ len cache' = len cache.
Proof.
  intros Hl. unfold rawSend, pkgWrite. pose proof (len_nonneg (pw_data p)). rewrite decide_False by lia.
  cbv zeta. rewrite take_ge by (unfold len in *; lia). cbn [mbind option_bind]. unfold frame, packet. cbn [ms_ID ms_Data].
  assert (H4 : len (be_split 4 (pw_msgId p)) = 4) by (unfold len; by rewrite length_be_split).
  eexists. rewrite app_assoc. rewrite slice_prefix by lens. cbn [mbind option_bind]. split; [done|].
  unfold len in *. rewrite !length_app, length_drop, length_be_split. lia.
Qed.

Lemma sendWithCache_frame p cache :
  len cache = sendPacketLimit + 10 → ∃ cache', sendWithCache p cache = Some (cache', frame p) ∧ len cache' = len cache.
Proof.
  intros Hl. unfold sendWithCache. case_decide as Hd.
  - destruct (rawSend_frame p (replicate (length (pw_data p) + 10) 0)) as (c & -> & _).
    { unfold len. rewrite length_replicate. lia. }
    by exists cache.
  - apply rawSend_frame. lia.
Qed.

Lemma sendLoop_frames ok n ps cache :
  len cache = sendPacketLimit + 10 →
  sendLoop ok n ps cache = Some (mjoin (imap (λ k p, if ok (n + k)%nat then [frame p] else []) ps)).
Proof.
  revert n cache. induction ps as [|p ps IH]; intros n cache Hl; [done|]. cbn [sendLoop].
  destruct (sendWithCache_frame p cache Hl) as (c & -> & Hc). cbn [mbind option_bind].
  rewrite (IH (S n) c) by lia. cbn. rewrite Nat.add_0_r. f_equal.
  rewrite (imap_ext (λ k p, if ok (S (n + k)) then [frame p] else []) ((λ k p, if ok (n + k)%nat then [frame p] else []) ∘ S))
    by (intros i x _; cbn; by rewrite Nat.add_succ_r). by destruct (ok n).
Qed.

(** What the gateway does with a list of client messages. *)
Fixpoint forwardAll (cap : Z) (stale : Z → bytes) (s : Session) (ps : list pkgWriter) (bs : DataBus) : option DataBus :=
  match ps with
  | [] => Some bs
  | p :: ps =>
      '(bs, _) ← SendToNode cap stale (pw_msgId p / 100000) (getSerID s) (pw_msgId p) (pw_data p) 0 (s_Id s) bs;
      forwardAll cap stale s ps bs
  end.

(** How the web-socket may deliver a packet: in pieces. *)
Definition delivery (p : pkgWriter) (d : list bytes * bytes) : Prop := mjoin d.1 ++ d.2 = frame p.

Definition forServer (p : pkgWriter) : Prop :=
  is_u32 (pw_msgId p) ∧ MsgIDMax_S2SMax < pw_msgId p ∧ len (pw_data p) + 4 < maxRecvMsgSize.

Lemma readTurn_frame cap stale p d s bs :
  delivery p d → forServer p → s_cancelled s = false →
  readTurn cap stale (WBinary (readsOf d.1 d.2)) s bs =
    '(bs, _) ← SendToNode cap stale (pw_msgId p / 100000) (getSerID s) (pw_msgId p) (pw_data p) 0 (s_Id s) bs;
    Some (s, bs, true).
Proof.
  intros Hd (Hid & Hmin & Hlen) Hc. unfold delivery, frame, packet in Hd. cbn [ms_ID ms_Data] in Hd.
  assert (Hl : len (mjoin d.1) + len d.2 = 4 + len (pw_data p)).
  { rewrite <- len_app, Hd, len_app. unfold len. rewrite length_be_split. lia. }
  unfold readTurn. rewrite readFull_fits by lens. cbn [app]. rewrite Hd. unfold forwardToSrv.
  rewrite decode_frame by done. cbn [mbind option_bind]. rewrite decide_False by lia.
  destruct (SendToNode _ _ _ _ _ _ _ _ _) as [[bs' e]|]; cbn; [by rewrite Hc|done].
Qed.

Lemma readLoop_frames cap stale ps ds s bs :
  Forall2 delivery ps ds → Forall forServer ps → s_cancelled s = false →
  readLoop cap stale ((λ d, WBinary (readsOf d.1 d.2)) <$> ds) (Some (s, bs, true)) =
    bs ← forwardAll cap stale s ps bs; Some (s, bs, true).
Proof.
  intros Hd Hf Hc. revert bs Hf. induction Hd as [|p d ps ds Hp Hd IH]; intros bs Hf; [done|].
  inversion Hf as [|? ? Hp' Hf']; subst. unfold readLoop in *. cbn [fmap list_fmap fold_left mbind option_bind].
  rewrite (readTurn_frame cap stale p d s bs) by done. cbn [forwardAll].
  destruct (SendToNode _ _ _ _ _ _ _ _ _) as [[bs' e]|]; cbn [mbind option_bind]; [by apply IH|].
  clear. induction ds as [|d ds IH]; [done|]. cbn. apply IH.
Qed.

Lemma onRecv_packet {M A} (unmarshal : bytes → M → result M) (r : Route (M := M) (A := A)) v s :
  is_u32 (ms_ID v) → onRecvCliMsg unmarshal r (packet v) s = Some (route_Handle unmarshal r (ms_ID v) (ms_Data v) s).1.
Proof.
  intros Hid. assert (H4 : len (be_split 4 (ms_ID v)) = 4) by (unfold len; by rewrite length_be_split).
  unfold onRecvCliMsg, newReader, packet. rewrite decide_False by lens. unfold GetMsgID, GetData.
  rewrite slice_prefix by done. cbn [mbind option_bind]. rewrite slice_suffix by done. cbn [mbind option_bind].
  rewrite be_combine_be_split, Z.mod_small by width. done.
Qed.

(** ** Properties *)

(** C24. Client and gateway agree on the wire: whatever a robot sends, from its reused buffer
    or from one of its own for a large message, is written as exactly the packets of these
    messages, in order; and however the web-socket delivers them, the gateway forwards each
    to the node of the service that its id names, in order, as long as the ids are client
    ids and the packets shorter than its buffer. In the other direction, each packet of the
    gateway makes the robot call the handler of its id on its payload, in order, until one
    of them closes the session. *)
Theorem robot_and_gateway_agree {M A} (unmarshal : bytes → M → result M) (r : Route (M := M) (A := A)) limit cap stale ps ds s bs vs c :
  Forall2 delivery ps ds → Forall forServer ps → s_cancelled s = false → Forall (λ v, is_u32 (ms_ID v)) vs →
  sendLoop (λ _, true) 0 ps cache0 = Some (frame <$> ps) ∧
  readLoop cap stale ((λ d, WBinary (readsOf d.1 d.2)) <$> ds) (Some (s, bs, true)) =
    (bs ← forwardAll cap stale s ps bs; Some (s, bs, true)) ∧
  let step (c : cli) v := (route_Handle unmarshal r (ms_ID v) (ms_Data v)
       (mkCli (c_flag c) (u32 (c_pkgCnt c + 1)) (i64 (c_pkgCnt1Min c + 1)) (c_unit c))).1 in
  (∀ k, (k < length vs)%nat → isClosed (fold_left step (take k vs) c) = false) →
  mainLoop unmarshal r limit (MIn <$> (packet <$> vs)) c = Some (fold_left step vs c).
Proof.
  intros Hd Hf Hc Hv. splits.
  - rewrite sendLoop_frames by done. f_equal. generalize 0%nat. clear.
    induction ps as [|p ps IH]; intros n; [done|]. cbn. f_equal. apply (IH 0%nat).
  - by apply readLoop_frames.
  - intros step. revert c. induction Hv as [|v vs Hid Hv IH]; intros c Hopen; [done|].
    cbn [fmap list_fmap mainLoop mainTurn]. rewrite onRecv_packet by done. cbn [mbind option_bind].
    fold (step c v). destruct (decide (vs = [])) as [->|Hne].
    + destruct (negb (isClosed (step c v))); done.
    + assert (H1 : isClosed (step c v) = false) by (apply (Hopen 1%nat); destruct vs; cbn; [done|lia]).
      rewrite H1. cbn [negb]. rewrite IH; [done|]. intros k Hk. apply (Hopen (S k)). cbn. lia.
Qed.

Definition demoRoute : Route (M := bytes) (A := list bytes) :=
  mkRoute 65536 {[ 106 := mkMH (Some (Some [])) (λ m c, mkCli (c_flag c) (c_pkgCnt c) (c_pkgCnt1Min c) (c_unit c ++ option_list m)) ]}.

Lemma robot_and_gateway_agree_witness :
  sendLoop (λ _, true) 0 [mkPW 200007 [9; 8]] cache0 = Some [[0; 3; 13; 71; 9; 8]] ∧
  readLoop buffSize zeros [WBinary (readsOf [[0; 3]; [13; 71; 9]] [8])] (Some (demoSes, freshBus 0 1, true)) =
    (bs ← forwardAll buffSize zeros demoSes [mkPW 200007 [9; 8]] (freshBus 0 1); Some (demoSes, bs, true)) ∧
  mainLoop (λ b _, Ok b) demoRoute 0 [MIn (packet (mkSend 106 [5])); MIn (packet (mkSend 106 [6]))] (mkCli 0 0 0 []) =
    Some (mkCli 0 2 2 [[5]; [6]]).
Proof.
  destruct (robot_and_gateway_agree (λ b _, Ok b) demoRoute 0 buffSize zeros [mkPW 200007 [9; 8]] [([[0; 3]; [13; 71; 9]], [8])]
    demoSes (freshBus 0 1) [mkSend 106 [5]; mkSend 106 [6]] (mkCli 0 0 0 [])) as (H1 & H2 & H3).
  - by repeat constructor.
  - repeat constructor; unfold MsgIDMax_S2SMax, maxRecvMsgSize; cbn; lia.
  - reflexivity.
  - repeat constructor; cbn; lia.
  - split; [exact H1|]. split; [exact H2|]. cbv zeta in H3. etransitivity; [apply H3|reflexivity].
    intros [|[|k]] Hk; [reflexivity|reflexivity|cbn in Hk; lia].
Defined.

(** *** Tasks *)

(** [te_Run] at the next [n] seconds. *)
Fixpoint runSeconds {R} (n : nat) (now : Z) (t : TimeEvter R) (r : R) : TimeEvter R * R :=
  match n with
  | O => (t, r)
  | S n => let '(t, r) := te_Run (now + 1) t r in runSeconds n (now + 1) t r
  end.

Lemma runSeconds_single (p : Z) n now rt k :
  0 < p → now ≤ rt → let '(t, m) := runSeconds n now (mkTE [mkItem Z.succ rt p] now) k in
  ∃ rt', te_items t = [mkItem Z.succ rt' p] ∧ rt' = rt + p * (m - k) ∧ now + Z.of_nat n ≤ rt' ∧ 0 ≤ m - k ∧
         (0 < m - k → rt' - p < now + Z.of_nat n).
Proof.
  intros Hp. revert now rt k. induction n as [|n IH]; intros now rt k Hr.
  - exists rt. splits; [done|lia..].
  - cbn [runSeconds te_Run runItems te_items it_runTime it_period it_cb]. unfold te_Run. cbn [te_items runItems it_runTime it_cb it_period].
    case_decide as Hd.
    + assert (rt = now) as -> by lia. specialize (IH (now + 1) (now + p) (Z.succ k) ltac:(lia)).
      destruct (runSeconds n (now + 1) _ _) as [t m]. destruct IH as (rt' & E & -> & H1 & H2 & H3).
      exists (now + p + p * (m - Z.succ k)). splits; [done|lia|lia|lia|]. intros _.
      destruct (decide (0 < m - Z.succ k)); [specialize (H3 ltac:(lia)); lia|]. assert (m = Z.succ k) as -> by lia. lia.
    + specialize (IH (now + 1) rt k ltac:(lia)). destruct (runSeconds n (now + 1) _ _) as [t m].
      destruct IH as (rt' & E & -> & H1 & H2 & H3). exists (rt + p * (m - k)). splits; [done|lia|lia|lia|].
      intros H. specialize (H3 H). lia.
Qed.

(** A robot's task runs once per period: polled every second, a task of [p] seconds has
    run [m] times after [n] seconds exactly when [m] periods lie before that second and the
    next one does not. *)
Theorem task_runs_once_per_period (p : Z) (n : nat) (now : Z) :
  0 < p → (0 < n)%nat →
  let '(_, m) := runSeconds n now (te_Add p Z.succ (NewTimeEvter now)) 0 in
  p * m < Z.of_nat n ≤ p * (m + 1).
Proof.
  intros Hp Hn. pose proof (runSeconds_single p n now (now + p) 0 Hp ltac:(lia)) as H.
  change (te_Add p Z.succ (NewTimeEvter now)) with (mkTE [mkItem Z.succ (now + p) p] now).
  destruct (runSeconds n now _ 0) as [t m]. destruct H as (rt' & _ & -> & H1 & H2 & H3).
  destruct (decide (0 < m - 0)) as [Hm|]; [specialize (H3 Hm); lia|]. assert (m = 0) as -> by lia. lia.
Qed.

Lemma task_runs_once_per_period_witness :
  let '(_, m) := runSeconds 45 1000 (te_Add 20 Z.succ (NewTimeEvter 1000)) 0 in m = 2 ∧ 20 * m < 45 ≤ 20 * (m + 1).
Proof.
  pose proof (task_runs_once_per_period 20 45 1000 ltac:(lia) ltac:(lia)) as H.
  assert (E : (runSeconds 45 1000 (te_Add 20 Z.succ (NewTimeEvter 1000)) 0).2 = 2) by (vm_compute; reflexivity).
  destruct (runSeconds 45 1000 _ 0) as [t m]. cbn in E. subst m. split; [reflexivity|exact H].
Defined.
