(* ===== verification/Fleet.v ===== *)
(** * internal/robot/logic: the load generator's robots

    [robot.go], [robot_proto.go], [robot_task.go], [robot_mgr.go], [echo.go],
    [disconnect.go], [monitor.go], and the connections of [clinet] ([conn.go],
    [network.go], [session.go]). A robot dials, logs in on its first tick, runs timed tasks
    while it is in the game and dials again some time after its connection was lost. The
    goroutines of all robots are a step system; packets and tasks are those of [Robot.v]. *)

From S2P Require Import Prelude DataBus Util Robot.

(** ** Robots and their sessions *)

Inductive rstate := RInit | RInGame | RDisconnect | RPending.
#[export] Instance rstate_eq_dec : EqDecision rstate.
Proof. solve_decision. Defined.

Record RoleData := mkRD { rd_ID : Z; rd_Name : string; rd_Level : Z; rd_Exp : Z }.
#[export] Instance RoleData_eq_dec : EqDecision RoleData.
Proof. solve_decision. Defined.

(** What a robot sends. *)
Inductive cmsg :=
| CLogin (acc : string)
| CHeartBeat (cliTime : Z)
| CEcho (id : Z) (name : string) (level exp time : Z).

Definition SesInit : Z := 256.
Definition OutChanSize : Z := 1250.

(** [se_U]: the unit is set; [se_alive]: the main loop runs; [se_out]: the channel;
    [se_sent]: everything that ever entered it, which the code does not keep. *)
Record ses := mkSes { se_Id : Z; se_flag : Z; se_U : bool; se_alive : bool; se_out : list cmsg; se_sent : list cmsg }.

(** [handleCliConn] with a connection. *)
Definition handleCliConn : ses := mkSes 0 0 false true [] [].
Definition set_U (u : bool) (s : ses) : ses := mkSes (se_Id s) (se_flag s) u (se_alive s) (se_out s) (se_sent s).
Definition ses_Close (s : ses) : ses := mkSes (se_Id s) (Flag_Add SesClose (se_flag s)) (se_U s) (se_alive s) (se_out s) (se_sent s).
Definition ses_Send (m : cmsg) (s : ses) : ses :=
  if decide (len (se_out s) < OutChanSize)
  then mkSes (se_Id s) (se_flag s) (se_U s) (se_alive s) (se_out s ++ [m]) (se_sent s ++ [m]) else s.

Record Robot := mkRobot {
  r_id : Z; r_acc : string; r_state : rstate; r_s : option ses; r_Data : option RoleData; r_gameId : Z; r_token : Z; r_lastActTime : option Z }.

Definition set_ses (s : option ses) (r : Robot) : Robot :=
  mkRobot (r_id r) (r_acc r) (r_state r) s (r_Data r) (r_gameId r) (r_token r) (r_lastActTime r).
Definition set_state (st : rstate) (r : Robot) : Robot :=
  mkRobot (r_id r) (r_acc r) st (r_s r) (r_Data r) (r_gameId r) (r_token r) (r_lastActTime r).
Definition set_lastAct (t : Z) (r : Robot) : Robot :=
  mkRobot (r_id r) (r_acc r) (r_state r) (r_s r) (r_Data r) (r_gameId r) (r_token r) (Some t).

(** [NewUnitRobot] once the dial has succeeded. *)
Definition NewUnitRobot (id : Z) : Robot :=
  let id := u32 id in
  mkRobot id ("Robot" +:+ Itoa id) RInit (Some handleCliConn) None 0 0 None.

(** ** Tasks *)

(** Times are nanoseconds since 1970; a turn of a main loop reads the clock once. The
    callbacks of a robot's tasks see the clock and the robot. *)
Definition UnixMilli (now : Z) : Z := now / 1000000.
Definition Unix (now : Z) : Z := now / 1000000000.

Definition robot_Send (m : cmsg) (r : Robot) : Robot := set_ses (ses_Send m <$> r_s r) r.
Definition Login (r : Robot) : Robot := robot_Send (CLogin (r_acc r)) r.
Definition heartBeat (now : Z) (r : Robot) : Robot := robot_Send (CHeartBeat (UnixMilli now)) r.

(** [heartbeat], [task] and [taskDisconnect]. *)
Definition heartbeat (x : Z * Robot) : Z * Robot := (x.1, robot_Send (CHeartBeat (UnixMilli x.1)) x.2).
Definition task (x : Z * Robot) : Z * Robot :=
  match r_Data x.2 with
  | Some d => (x.1, robot_Send (CEcho (rd_ID d) (rd_Name d) (u32 (rd_Level d)) (rd_Exp d) x.1) x.2)
  | None => x                                        (* a nil dereference: not reached in the game *)
  end.
Definition taskDisconnect (x : Z * Robot) : Z * Robot := (x.1, set_ses (ses_Close <$> r_s x.2) x.2).

Definition tasks := TimeEvter (Z * Robot).

Definition InitEcho (t : tasks) : tasks := te_Add 1 task (te_Add 1 task (te_Add 1 task (te_Add 1 task (te_Add 1 task t)))).
(** [period]: the random period from 300 to 1800 seconds. *)
Definition InitDisconnect (period : Z) (t : tasks) : tasks := te_Add period taskDisconnect t.
Definition InitTask (now period : Z) : tasks :=
  InitDisconnect period (InitEcho (te_Add 20 heartbeat (NewTimeEvter (Unix now)))).

(** A robot that was never active has the zero time. *)
Definition idle (now : Z) (last : option Z) : bool :=
  match last with None => true | Some t => bool_decide (now - t > 15 * 1000000000) end.
Definition TaskRun (LoginOnly : bool) (now : Z) (t : tasks) (r : Robot) : tasks * Robot :=
  let r := if idle now (r_lastActTime r) then heartBeat now (set_lastAct now r) else r in
  if LoginOnly then (t, r) else let '(t, x) := te_Run (Unix now) t (now, r) in (t, x.2).

(** ** The monitor's view of an echo *)

(** [onEcho]: does the echo match the robot's data? *)
Definition echo_matches (r : Robot) (id : Z) (name : string) (level exp : Z) : bool :=
  match r_Data r with
  | Some d => bool_decide (id = rd_ID d ∧ name = rd_Name d ∧ exp = rd_Exp d ∧ level = u32 (rd_Level d))
  | None => false
  end.

(** ** The fleet *)

(** [f_cli], [f_cnt], [f_sesID]: the table of sessions, its counter and the id counter;
    [f_redial]: the goroutines that [OnDisconnect] started; [f_inits]: how often a session was
    initialized; [f_online]: the robots a login-only run marks. *)
Record fleet := mkF {
  f_robots : gmap Z (Robot * tasks); f_cli : gmap Z Z; f_cnt : Z; f_sesID : Z; f_redial : list Z; f_inits : Z; f_online : gmap Z bool }.

Definition fleet0 : fleet := mkF ∅ ∅ 0 1 [] 0 ∅.

Section Fleet.
Context (LoginOnly : bool).

(** [AddCliSession] and [RemoveCliSession]. *)
Definition AddCliSession (id k : Z) (f : fleet) : fleet :=
  mkF (f_robots f) (<[id := k]> (f_cli f)) (i32 (f_cnt f + 1)) (f_sesID f) (f_redial f) (f_inits f) (f_online f).
Definition RemoveCliSession (id : Z) (f : fleet) : fleet :=
  mkF (f_robots f) (delete id (f_cli f)) (i32 (f_cnt f - 1)) (f_sesID f) (f_redial f) (f_inits f) (f_online f).

Definition put (k : Z) (r : Robot) (t : tasks) (f : fleet) : fleet :=
  mkF (<[k := (r, t)]> (f_robots f)) (f_cli f) (f_cnt f) (f_sesID f) (f_redial f) (f_inits f) (f_online f).

(** [Session.Init] without keys. *)
Definition ses_Init (k : Z) (s : ses) (f : fleet) : ses * fleet :=
  let id := u32 (f_sesID f + 1) in
  (mkSes id (Flag_Add SesInit (se_flag s)) (se_U s) (se_alive s) (se_out s) (se_sent s),
   AddCliSession id k (mkF (f_robots f) (f_cli f) (f_cnt f) id (f_redial f) (f_inits f + 1) (f_online f))).

Definition SecLoop (k now : Z) (r : Robot) (t : tasks) (s : ses) (f : fleet) : fleet :=
  match r_state r with
  | RInit => let '(s, f) := ses_Init k s f in put k (set_state RPending (Login (set_ses (Some s) r))) t f
  | RInGame => let '(t, r) := TaskRun LoginOnly now t r in put k r t f
  | _ => f
  end.

(** [OnClosed] with its unit: the session leaves the table, the robot loses it. *)
Definition OnDisconnect (k : Z) (r : Robot) (t : tasks) (f : fleet) : fleet :=
  put k (set_state RDisconnect (set_ses None r)) t
    (mkF (f_robots f) (f_cli f) (f_cnt f) (f_sesID f) (f_redial f ++ [k]) (f_inits f) (f_online f)).
Definition OnClosed (k : Z) (r : Robot) (t : tasks) (s : ses) (f : fleet) : fleet :=
  let f := if Flag_Has SesInit (se_flag s) then RemoveCliSession (se_Id s) f else f in OnDisconnect k r t f.

Definition onLoginSuccess (k gameID token : Z) (player : RoleData) (r : Robot) (t : tasks) (f : fleet) : fleet :=
  let r := mkRobot (r_id r) (r_acc r) (r_state r) (r_s r) (Some player) gameID (r_token r) (r_lastActTime r) in
  if LoginOnly
  then let f := put k r t f in mkF (f_robots f) (f_cli f) (f_cnt f) (f_sesID f) (f_redial f) (f_inits f) (<[r_id r := true]> (f_online f))
  else put k (set_state RInGame (mkRobot (r_id r) (r_acc r) (r_state r) (r_s r) (r_Data r) gameID token (r_lastActTime r))) t f.

(** [onLogin]: a refused login is logged only. *)
Definition onLogin (k : Z) (ok : bool) (gameID token : Z) (player : RoleData) (r : Robot) (t : tasks) (f : fleet) : fleet :=
  if ok then onLoginSuccess k gameID token player r t f else f.

Definition closing (s : ses) : bool := Flag_Has SesClose (se_flag s).
Definition initialized (s : ses) : bool := Flag_Has SesInit (se_flag s).

(** The main loop takes another turn: it runs and was not told to close. *)
Definition turns (f : fleet) (k : Z) (r : Robot) (t : tasks) (s : ses) : Prop :=
  f_robots f !! k = Some (r, t) ∧ r_s r = Some s ∧ se_alive s = true ∧ se_U s = true ∧ closing s = false.

(** - [fs_dial], [fs_attach]: the two halves of [NewUnitRobot]; the session runs before it
      has its unit. [fs_redial], [fs_attach]: the same of the goroutine of [OnDisconnect].
    - [fs_tick], [fs_login]: turns of the main loop; the server answers a login only after
      one was sent. A reply without a player panics, which is [fs_closed].
    - [fs_sent]: a turn of the send loop.
    - [fs_closed]: the main loop ends, for whatever reason. [fs_closedEarly]: it ends without a
      unit, where [OnClosed] panics. *)
Inductive fstep : fleet → fleet → Prop :=
| fs_dial f k id start period :
    f_robots f !! k = None → fstep f (put k (NewUnitRobot id) (InitTask start period) f)
| fs_attach f k r t s :
    f_robots f !! k = Some (r, t) → r_s r = Some s → se_U s = false →
    fstep f (put k (set_state RInit (set_ses (Some (set_U true s)) r)) t f)
| fs_tick f k r t s now : turns f k r t s → fstep f (SecLoop k now r t s f)
| fs_login f k r t s ok gameID token player :
    turns f k r t s → initialized s = true → fstep f (onLogin k ok gameID token player r t f)
| fs_sent f k r t s m out :
    f_robots f !! k = Some (r, t) → r_s r = Some s → se_out s = m :: out →
    fstep f (put k (set_ses (Some (mkSes (se_Id s) (se_flag s) (se_U s) (se_alive s) out (se_sent s))) r) t f)
| fs_closed f k r t s :
    f_robots f !! k = Some (r, t) → r_s r = Some s → se_alive s = true → se_U s = true → fstep f (OnClosed k r t s f)
| fs_closedEarly f k r t s :
    f_robots f !! k = Some (r, t) → r_s r = Some s → se_alive s = true → se_U s = false →
    fstep f (put k (set_ses (Some (mkSes (se_Id s) (se_flag s) false false (se_out s) (se_sent s))) r) t f)
| fs_redial f k r t l1 l2 (ok : bool) :
    f_robots f !! k = Some (r, t) → f_redial f = l1 ++ k :: l2 →
    let f' := mkF (f_robots f) (f_cli f) (f_cnt f) (f_sesID f) (l1 ++ l2) (f_inits f) (f_online f) in
    fstep f (if ok then put k (set_ses (Some handleCliConn) r) t f' else f').

(** ** Invariants *)

Definition isLogin (m : cmsg) : Prop := match m with CLogin _ => True | _ => False end.
#[export] Instance isLogin_dec m : Decision (isLogin m).
Proof. destruct m; cbn; apply _. Defined.

Definition logins (s : ses) : Z := len (filter isLogin (se_sent s)).
Definition fresh (s : ses) : Prop := se_out s = [] ∧ se_sent s = [] ∧ se_flag s = 0.

(** What a robot's state says of its session. *)
Definition robot_ok (r : Robot) : Prop :=
  match r_s r, r_state r with
  | None, st => st = RDisconnect
  | Some s, RInit => fresh s
  | Some s, RDisconnect => fresh s ∧ se_U s = false
  | Some s, RPending => logins s = 1 ∧ initialized s = true ∧ se_U s = true
  | Some s, RInGame => logins s = 1 ∧ initialized s = true ∧ se_U s = true ∧ LoginOnly = false ∧ r_Data r ≠ None
  end.

(** Changes of a robot that keep its state, its login and its place in the table. *)
Definition keeps (r r' : Robot) : Prop :=
  r_state r' = r_state r ∧ r_Data r' = r_Data r ∧
  match r_s r, r_s r' with
  | Some s, Some s' => logins s' = logins s ∧ initialized s' = initialized s ∧ se_Id s' = se_Id s ∧ se_U s' = se_U s
  | None, None => True
  | _, _ => False
  end.

Lemma keeps_refl r : keeps r r.
Proof. unfold keeps. destruct (r_s r); done. Qed.
Lemma keeps_trans r1 r2 r3 : keeps r1 r2 → keeps r2 r3 → keeps r1 r3.
Proof.
  unfold keeps. intros (E1 & D1 & H1) (E2 & D2 & H2). split; [congruence|]. split; [congruence|].
  destruct (r_s r1), (r_s r2), (r_s r3); try done. destruct H1 as (? & ? & ? & ?), H2 as (? & ? & ? & ?). splits; congruence.
Qed.

Lemma Send_keeps m r : ¬ isLogin m → keeps r (robot_Send m r).
Proof.
  intros Hm. unfold keeps, robot_Send. cbn. split; [done|]. split; [done|]. destruct (r_s r) as [s|]; [|done]. cbn. unfold ses_Send.
  case_decide; [|done]. unfold logins, initialized. cbn. rewrite filter_app, filter_cons_False by done. by rewrite filter_nil, app_nil_r.
Qed.

Lemma Close_init s : Flag_Has SesInit (Flag_Add SesClose s) = Flag_Has SesInit s.
Proof.
  unfold Flag_Has, Flag_Add, SesInit, SesClose. rewrite Z.land_lor_distr_l. change (Z.land 1 256) with 0. by rewrite Z.lor_0_r.
Qed.

Definition keeping (cb : Z * Robot → Z * Robot) : Prop := ∀ x, keeps x.2 (cb x).2.

Lemma disconnect_keeps : keeping taskDisconnect.
Proof.
  intros [now r]. unfold keeps, taskDisconnect. cbn. split; [done|]. split; [done|]. destruct (r_s r) as [s|]; [|done]. cbn.
  unfold initialized. cbn. by rewrite Close_init.
Qed.
Lemma task_keeps : keeping task.
Proof. intros [now r]. unfold task. cbn. destruct (r_Data r); [apply Send_keeps; by intros []|apply keeps_refl]. Qed.
Lemma heartbeat_keeps : keeping heartbeat.
Proof. intros [now r]. apply Send_keeps. by intros []. Qed.

Definition tasks_ok (t : tasks) : Prop := Forall (λ it, keeping (it_cb it)) (te_items t).

Lemma te_Add_ok p cb t : keeping cb → tasks_ok t → tasks_ok (te_Add p cb t).
Proof. intros ? ?. unfold tasks_ok, te_Add. cbn. apply Forall_app. by rewrite Forall_singleton. Qed.

Lemma InitTask_ok now period : tasks_ok (InitTask now period).
Proof.
  unfold InitTask, InitDisconnect, InitEcho. repeat (apply te_Add_ok; [auto using disconnect_keeps, task_keeps, heartbeat_keeps|]). constructor.
Qed.

Lemma te_Run_keeps now t x : tasks_ok t → tasks_ok (te_Run now t x).1 ∧ keeps x.2 (te_Run now t x).2.2.
Proof.
  unfold tasks_ok, te_Run. intros Ht.
  assert (H : Forall (λ it, keeping (it_cb it)) (runItems now (te_items t) x).1 ∧ keeps x.2 (runItems now (te_items t) x).2.2).
  { revert x. induction Ht as [|it l Hit _ IH]; intros x; [split; [constructor|apply keeps_refl]|]. cbn [runItems].
    destruct (decide (it_runTime it < now)).
    - specialize (IH (it_cb it x)). destruct (runItems now l (it_cb it x)) as [l' r']. destruct IH. split; [by constructor|].
      eapply keeps_trans; [apply Hit|done].
    - specialize (IH x). destruct (runItems now l x) as [l' r']. destruct IH. split; [by constructor|done]. }
  destruct (runItems now (te_items t) x). done.
Qed.

Lemma TaskRun_keeps now t r : tasks_ok t → tasks_ok (TaskRun LoginOnly now t r).1 ∧ keeps r (TaskRun LoginOnly now t r).2.
Proof.
  intros Ht. unfold TaskRun. set (r1 := if idle _ _ then _ else r).
  assert (H1 : keeps r r1).
  { unfold r1. destruct (idle _ _); [|apply keeps_refl]. eapply keeps_trans; [|apply Send_keeps; by intros []]. exact (keeps_refl r). }
  destruct LoginOnly; [done|]. pose proof (te_Run_keeps (Unix now) t (now, r1) Ht) as [? ?].
  destruct (te_Run (Unix now) t (now, r1)) as [t' x]. split; [done|by eapply keeps_trans].
Qed.

Lemma robot_ok_keeps r r' : (r_state r = RPending ∨ r_state r = RInGame) → keeps r r' → robot_ok r → robot_ok r'.
Proof.
  unfold robot_ok, keeps. intros Hn (E & D & H). rewrite E, D. destruct (r_s r) as [s|], (r_s r') as [s'|]; try done.
  destruct H as (-> & -> & _ & ->). by destruct Hn as [-> | ->].
Qed.

Definition fleet_ok (f : fleet) : Prop := ∀ k r t, f_robots f !! k = Some (r, t) → robot_ok r ∧ tasks_ok t.

(** A robot that is about to dial again has no session, and does so once. *)
Definition redial_ok (f : fleet) : Prop :=
  NoDup (f_redial f) ∧ ∀ k, k ∈ f_redial f → ∃ r t, f_robots f !! k = Some (r, t) ∧ r_s r = None.

Lemma fleet_ok_put k r t f : fleet_ok f → robot_ok r → tasks_ok t → fleet_ok (put k r t f).
Proof. intros Hf Hr Ht k' r' t'. cbn. intros [[<- [= <- <-]]|[_ ?]]%lookup_insert_Some; [done|by eapply Hf]. Qed.

Lemma Login_once r s : r_s r = Some s → se_out s = [] → se_sent s = [] →
  ∃ s', r_s (Login r) = Some s' ∧ logins s' = 1 ∧ se_flag s' = se_flag s ∧ se_Id s' = se_Id s ∧ se_U s' = se_U s.
Proof.
  intros Es Eo Et. unfold Login, robot_Send, ses_Send. cbn. rewrite Es. cbn. rewrite Eo, Et. cbn. by eexists.
Qed.

Lemma Init_flag : Flag_Has SesInit (Flag_Add SesInit 0) = true.
Proof. reflexivity. Qed.

Lemma redial_put k r t f :
  redial_ok f → (∀ r t, f_robots f !! k = Some (r, t) → r_s r ≠ None) → redial_ok (put k r t f).
Proof.
  intros [Hn Hd] Hk. split; [done|]. cbn. intros k' Hin. destruct (Hd k' Hin) as (r' & t' & E & Es). exists r', t'. split; [|done].
  rewrite lookup_insert_ne; [done|]. intros <-. by eapply Hk.
Qed.

Lemma redial_preserved : preserved fstep redial_ok.
Proof.
  intros f f' Hs Hd.
  assert (Hput : ∀ k r t s r' t', f_robots f !! k = Some (r, t) → r_s r = Some s → redial_ok (put k r' t' f)).
  { intros k r t s r' t' Hk Es. apply redial_put; [done|]. intros r0 t0 E. congruence. }
  destruct Hs as [f k id start period Hk|f k r t s Hk Es HU|f k r t s now (Hk & Es & Ha & HU & Hc)|f k r t s ok gameID token player (Hk & Es & Ha & HU & Hc) Hi
    |f k r t s m out Hk Es Eo|f k r t s Hk Es Ha HU|f k r t s Hk Es Ha HU|f k r t l1 l2 ok Hk El]; try by eapply Hput.
  - apply redial_put; [done|]. intros r t E. congruence.
  - unfold SecLoop. destruct (r_state r); try done; [exact (Hput _ _ _ _ _ _ Hk Es)|].
    destruct (TaskRun LoginOnly now t r). by eapply Hput.
  - unfold onLogin, onLoginSuccess. destruct ok, LoginOnly; [|by eapply Hput|done..]. exact (Hput _ _ _ _ _ _ Hk Es).
  - destruct Hd as [Hn Hd]. assert (Hout : k ∉ f_redial f) by (intros Hin; destruct (Hd k Hin) as (? & ? & ? & ?); congruence).
    unfold OnClosed, OnDisconnect. set (f1 := if Flag_Has _ _ then _ else f).
    assert (E1 : f_redial f1 = f_redial f ∧ f_robots f1 = f_robots f) by (unfold f1; by destruct (Flag_Has _ _)).
    destruct E1 as [-> E2]. split; cbn; rewrite ?E2.
    + apply NoDup_app. splits; [done|set_solver|apply NoDup_singleton].
    + intros k' [Hin| ->%list_elem_of_singleton]%elem_of_app; [|rewrite lookup_insert_eq; eauto].
      rewrite lookup_insert_ne by (intros <-; done). by apply Hd.
  - destruct Hd as [Hn Hd]. rewrite El in Hn, Hd. apply NoDup_app in Hn as (N1 & N2 & [N3 N4]%NoDup_cons).
    assert (Hnd : NoDup (l1 ++ l2) ∧ k ∉ l1 ++ l2) by (rewrite NoDup_app; set_solver).
    assert (Hd' : redial_ok (mkF (f_robots f) (f_cli f) (f_cnt f) (f_sesID f) (l1 ++ l2) (f_inits f) (f_online f))).
    { split; [apply Hnd|]. intros k' Hin. apply Hd. cbn in Hin. set_solver. }
    destruct ok; [|done]. destruct Hd' as [_ Hd']. split; [apply Hnd|]. cbn. intros k' Hin.
    rewrite lookup_insert_ne by (intros <-; by apply Hnd). by apply Hd'.
Qed.

Lemma fleet_ok_step f f' : fstep f f' → redial_ok f → fleet_ok f → fleet_ok f'.
Proof.
  intros Hs Hd Hf.
  destruct Hs as [f k id start period Hk|f k r t s Hk Es HU|f k r t s now (Hk & Es & Ha & HU & Hc)|f k r t s ok gameID token player (Hk & Es & Ha & HU & Hc) Hi
    |f k r t s m out Hk Es Eo|f k r t s Hk Es Ha HU|f k r t s Hk Es Ha HU|f k r t l1 l2 ok Hk El].
  - apply fleet_ok_put; [done|done|apply InitTask_ok].
  - destruct (Hf _ _ _ Hk) as [Hr Ht]. apply fleet_ok_put; [done| |done]. unfold robot_ok in *. cbn. rewrite Es in Hr.
    destruct (r_state r); try done; intuition congruence.
  - destruct (Hf _ _ _ Hk) as [Hr Ht]. unfold SecLoop. destruct (r_state r) eqn:Est; try done.
    + unfold robot_ok in Hr. rewrite Es, Est in Hr. destruct Hr as (Ho & Hsent & Hfl).
      apply fleet_ok_put; [done| |done]. unfold robot_ok. cbn [r_state set_state r_s].
      destruct (Login_once (set_ses (Some (mkSes (u32 (f_sesID f + 1)) (Flag_Add SesInit (se_flag s)) (se_U s) (se_alive s) (se_out s) (se_sent s))) r) _ eq_refl Ho Hsent)
        as (s' & E' & Hl & Hfl' & _ & HU').
      rewrite E'. splits; [done| |by rewrite HU']. unfold initialized. rewrite Hfl'. cbn. by rewrite Hfl.
    + destruct (TaskRun_keeps now t r Ht) as [Ht' Hk']. destruct (TaskRun LoginOnly now t r) as [t' r']. apply fleet_ok_put; [done| |done].
      eapply robot_ok_keeps; [by right|done|done].
  - destruct (Hf _ _ _ Hk) as [Hr Ht]. unfold onLogin, onLoginSuccess. destruct ok; [|done].
    assert (Hst : logins s = 1 ∧ (r_state r = RPending ∨ r_state r = RInGame)).
    { unfold robot_ok in Hr. rewrite Es in Hr. destruct (r_state r) eqn:Est; [|intuition congruence..].
      destruct Hr as (_ & _ & E0). unfold initialized in Hi. rewrite E0 in Hi. done. }
    destruct LoginOnly eqn:EL.
    + intros k' r' t'. cbn. intros [[<- [= <- <-]]|[_ ?]]%lookup_insert_Some; [|by eapply Hf]. split; [|done].
      unfold robot_ok in *. cbn. rewrite Es in *. destruct Hst as [_ [E|E]]; rewrite E in *; intuition congruence.
    + apply fleet_ok_put; [done| |done]. unfold robot_ok. cbn. rewrite Es. by destruct Hst.
  - destruct (Hf _ _ _ Hk) as [Hr Ht]. apply fleet_ok_put; [done| |done]. unfold robot_ok, fresh in *. cbn. rewrite Es in Hr.
    destruct (r_state r); try done; rewrite Eo in Hr; intuition congruence.
  - destruct (Hf _ _ _ Hk) as [Hr Ht]. unfold OnClosed, OnDisconnect. destruct (Flag_Has SesInit (se_flag s)); apply fleet_ok_put; done.
  - destruct (Hf _ _ _ Hk) as [Hr Ht]. apply fleet_ok_put; [done| |done]. unfold robot_ok, fresh in *. cbn. rewrite Es in Hr.
    destruct (r_state r); try done; intuition congruence.
  - destruct (Hf _ _ _ Hk) as [Hr Ht]. destruct ok; [|done]. apply fleet_ok_put; [done| |done].
    destruct (proj2 Hd k) as (r0 & t0 & Hk0 & E0); [rewrite El; set_solver|]. assert (r0 = r) as -> by congruence.
    unfold robot_ok in *. cbn. rewrite E0 in Hr. by rewrite Hr.
Qed.

(** ** The table of sessions *)

(** Robot [k] has an initialized session with this id. *)
Definition holds (f : fleet) (id k : Z) : Prop :=
  ∃ r t s, f_robots f !! k = Some (r, t) ∧ r_s r = Some s ∧ initialized s = true ∧ se_Id s = id.

Definition table_ok (f : fleet) : Prop :=
  (∀ id k, f_cli f !! id = Some k ↔ holds f id k) ∧ f_cnt f = i32 (Z.of_nat (size (f_cli f))) ∧
  f_sesID f = 1 + f_inits f ∧ 0 ≤ f_inits f ∧ ∀ id k, f_cli f !! id = Some k → 1 < id ≤ 1 + f_inits f.

Lemma holds_put_eq f k r t id : holds (put k r t f) id k ↔ ∃ s, r_s r = Some s ∧ initialized s = true ∧ se_Id s = id.
Proof.
  unfold holds. cbn. rewrite lookup_insert_eq. split; [intros (? & ? & s & [= <- <-] & ? & ? & ?); by exists s|].
  intros (s & ? & ? & ?). by exists r, t, s.
Qed.
Lemma holds_put_ne f k k' r t id : k ≠ k' → holds (put k r t f) id k' ↔ holds f id k'.
Proof. intros Hn. unfold holds. cbn. by rewrite lookup_insert_ne. Qed.

(** A change of one robot that leaves its session's place as it is. *)
Lemma table_put k r' t' f :
  table_ok f →
  (∀ id, holds f id k ↔ ∃ s, r_s r' = Some s ∧ initialized s = true ∧ se_Id s = id) →
  table_ok (put k r' t' f).
Proof.
  intros (H1 & H2 & H3 & H4 & H5) Hk. unfold table_ok. cbn. splits; try done. intros id k'. rewrite H1.
  destruct (decide (k = k')) as [<-|Hn]; [by rewrite holds_put_eq, Hk|by rewrite holds_put_ne].
Qed.

Lemma holds_at f k r t id : f_robots f !! k = Some (r, t) →
  holds f id k ↔ ∃ s, r_s r = Some s ∧ initialized s = true ∧ se_Id s = id.
Proof.
  intros E. unfold holds. rewrite E. split; [intros (? & ? & s & [= <- <-] & ? & ? & ?); by exists s|].
  intros (s & ? & ? & ?). by exists r, t, s.
Qed.

Lemma table_keeps k r t r' t' f :
  f_robots f !! k = Some (r, t) → keeps r r' → table_ok f → table_ok (put k r' t' f).
Proof.
  intros Hk (_ & _ & H) Hf. apply table_put; [done|]. intros id. rewrite (holds_at f k r t id Hk).
  destruct (r_s r) as [s|], (r_s r') as [s'|]; try done. destruct H as (_ & Ei & Ed & _).
  split; intros (x & [= <-] & ? & ?); eexists; (split; [done|split; congruence]).
Qed.

Lemma i32_add z n : i32 (i32 z + n) = i32 (z + n).
Proof.
  unfold i32. replace ((z + 2 ^ 31) mod 2 ^ 32 - 2 ^ 31 + n + 2 ^ 31) with ((z + 2 ^ 31) mod 2 ^ 32 + n) by lia.
  rewrite Zplus_mod_idemp_l. do 2 f_equal. lia.
Qed.

(** A tick of a robot that has just connected: a fresh id enters the table. *)
Lemma table_init k r t s f :
  f_robots f !! k = Some (r, t) → r_s r = Some s → initialized s = false → f_inits f + 1 < 2 ^ 32 - 1 → table_ok f →
  ∀ r', (∃ s', r_s r' = Some s' ∧ initialized s' = true ∧ se_Id s' = u32 (f_sesID f + 1)) → table_ok (put k r' t (ses_Init k s f).2).
Proof.
  intros Hk Es Hi Hb (H1 & H2 & H3 & H4 & H5) r' (s' & Es' & Hi' & Ed). unfold ses_Init. cbn [snd].
  assert (Eid : u32 (f_sesID f + 1) = 2 + f_inits f) by (rewrite H3, u32_id; [lia|width]).
  rewrite Eid in *. assert (Hfresh : f_cli f !! (2 + f_inits f) = None).
  { destruct (f_cli f !! (2 + f_inits f)) as [k'|] eqn:E; [|done]. apply H5 in E. lia. }
  assert (Hno : ∀ id, ¬ holds f id k).
  { intros id. rewrite (holds_at f k r t id Hk). intros (x & Ex & Hx & _). congruence. }
  set (f' := AddCliSession _ _ _). assert (Hh : ∀ id k', holds f' id k' ↔ holds f id k') by done.
  unfold table_ok. splits.
  - intros id k'. change (f_cli (put k r' t f')) with (<[2 + f_inits f := k]> (f_cli f)). destruct (decide (k = k')) as [<-|Hkk].
    + rewrite holds_put_eq, lookup_insert_Some, H1. split.
      * intros [[<- _]|[_ Hx]]; [by exists s'|by destruct (Hno id)].
      * intros (s2 & E2 & _ & Ed2). left. split; [congruence|done].
    + rewrite holds_put_ne, Hh, <- H1, lookup_insert_Some by done. split; [by intros [[_ ?]|[_ ?]]|].
      intros Hx. right. split; [|done]. intros <-. congruence.
  - cbn. rewrite map_size_insert_None by done. rewrite H2, i32_add. f_equal. lia.
  - cbn. lia.
  - cbn. lia.
  - cbn. intros id k'. intros [[<- _]|[_ E]]%lookup_insert_Some; [lia|]. apply H5 in E. lia.
Qed.

(** A session that ends leaves the table. *)
Lemma table_closed k r t s f :
  f_robots f !! k = Some (r, t) → r_s r = Some s → table_ok f → table_ok (OnClosed k r t s f).
Proof.
  intros Hk Es (H1 & H2 & H3 & H4 & H5). unfold OnClosed, OnDisconnect. fold (initialized s). destruct (initialized s) eqn:Hi.
  - assert (Hin : f_cli f !! se_Id s = Some k) by (apply H1; by exists r, t, s).
    set (f' := mkF _ _ _ _ _ _ _). assert (Hh : ∀ id k', holds f' id k' ↔ holds f id k') by done.
    unfold table_ok. splits; try done.
    + intros id k'. change (f_cli (put k _ t f')) with (delete (se_Id s) (f_cli f)). rewrite lookup_delete_Some.
      destruct (decide (k = k')) as [<-|Hn].
      * rewrite holds_put_eq, H1, (holds_at f k r t id Hk). split; [|by intros (? & ? & _)].
        intros [Hne (s2 & E2 & _ & Ed2)]. congruence.
      * rewrite holds_put_ne, Hh, <- H1 by done. split; [by intros [_ ?]|]. intros Hx. split; [|done]. intros <-. congruence.
    + cbn. rewrite H2. change (i32 (Z.of_nat (size (f_cli f))) - 1) with (i32 (Z.of_nat (size (f_cli f))) + -1). rewrite i32_add, map_size_delete_Some by done.
      pose proof (map_size_ne_0_lookup_2 (f_cli f) (se_Id s) ltac:(by eexists)). f_equal. lia.
    + intros id k'. cbn. intros [_ ?]%lookup_delete_Some. by eapply H5.
  - pose proof (table_put k (set_state RDisconnect (set_ses None r)) t f) as Hp. destruct Hp as (P1 & P2 & P3 & P4 & P5).
    { unfold table_ok. done. }
    { intros id. rewrite (holds_at f k r t id Hk). split; [intros (x & Ex & Hx & _); congruence|by intros (? & ? & _)]. }
    unfold table_ok. cbn in *. splits; done.
Qed.

Lemma inits_mono f f' : fstep f f' → f_inits f ≤ f_inits f'.
Proof.
  intros Hs. destruct Hs as [ | |f k r t s now _|f k r t s ok gameID token player _ _| |f k r t s _ _ _ _| |f k r t l1 l2 ok _ _]; cbn; try lia.
  - unfold SecLoop. destruct (r_state r); cbn; try lia. destruct (TaskRun LoginOnly now t r). cbn. lia.
  - unfold onLogin, onLoginSuccess. destruct ok, LoginOnly; cbn; lia.
  - unfold OnClosed, OnDisconnect. destruct (Flag_Has _ _); cbn; lia.
  - destruct ok; cbn; lia.
Qed.

(** The first tick of a connection. *)
Lemma table_firstTick k r t s f :
  f_robots f !! k = Some (r, t) → r_s r = Some s → fresh s → f_inits f + 1 < 2 ^ 32 - 1 → table_ok f →
  let '(s', f') := ses_Init k s f in table_ok (put k (set_state RPending (Login (set_ses (Some s') r))) t f').
Proof.
  intros Hk Es (Ho & Hsent & Hfl) Hb Ht. pose proof (table_init k r t s f Hk Es) as Hti. unfold ses_Init in *. cbn [snd] in Hti.
  apply Hti; [by unfold initialized; rewrite Hfl|done|done|].
  destruct (Login_once (set_ses (Some (mkSes (u32 (f_sesID f + 1)) (Flag_Add SesInit (se_flag s)) (se_U s) (se_alive s) (se_out s) (se_sent s))) r) _ eq_refl Ho Hsent)
    as (s' & E' & _ & Hfl' & Hd' & _).
  exists s'. split; [done|]. split; [unfold initialized; rewrite Hfl'; cbn; by rewrite Hfl|done].
Qed.

Lemma table_step f f' : fstep f f' → f_inits f' < 2 ^ 32 - 1 → redial_ok f → fleet_ok f → table_ok f → table_ok f'.
Proof.
  intros Hs Hb Hd Hf Ht.
  destruct Hs as [f k id start period Hk|f k r t s Hk Es HU|f k r t s now (Hk & Es & Ha & HU & Hc)|f k r t s ok gameID token player (Hk & Es & Ha & HU & Hc) Hi
    |f k r t s m out Hk Es Eo|f k r t s Hk Es Ha HU|f k r t s Hk Es Ha HU|f k r t l1 l2 ok Hk El].
  - apply table_put; [done|]. intros id'. split; [intros (r & t & s & E & _); congruence|]. intros (s & [= <-] & ? & _). done.
  - apply table_put; [done|]. intros id. rewrite (holds_at f k r t id Hk), Es. cbn.
    split; intros (x & [= <-] & ? & ?); eexists; done.
  - destruct (Hf _ _ _ Hk) as [Hr Htt]. unfold SecLoop in *. destruct (r_state r) eqn:Est; try done.
    + unfold robot_ok in Hr. rewrite Es, Est in Hr. cbn in Hb. exact (table_firstTick k r t s f Hk Es Hr ltac:(lia) Ht).
    + destruct (TaskRun_keeps now t r Htt) as [Ht' Hk']. destruct (TaskRun LoginOnly now t r) as [t' r']. by eapply table_keeps.
  - unfold onLogin, onLoginSuccess. destruct ok; [|done]. destruct LoginOnly.
    + assert (Hp : table_ok (put k (mkRobot (r_id r) (r_acc r) (r_state r) (r_s r) (Some player) gameID (r_token r) (r_lastActTime r)) t f)); [|exact Hp].
      apply table_put; [done|]. intros id. by rewrite (holds_at f k r t id Hk).
    + apply table_put; [done|]. intros id. by rewrite (holds_at f k r t id Hk).
  - eapply table_keeps; [done| |done]. unfold keeps. cbn. by rewrite Es.
  - by apply table_closed.
  - eapply table_keeps; [done| |done]. unfold keeps. cbn. by rewrite Es.
  - destruct ok; [|done]. destruct (proj2 Hd k) as (r0 & t0 & Hk0 & E0); [rewrite El; set_solver|].
    apply (table_put k _ t (mkF (f_robots f) (f_cli f) (f_cnt f) (f_sesID f) (l1 ++ l2) (f_inits f) (f_online f))); [done|].
    intros id. rewrite (holds_at (mkF _ _ _ _ _ _ _) k r0 t0 id Hk0), E0. split; intros (x & [= <-] & ? & _). done.
Qed.

Definition reachable : fleet → Prop := rtc fstep fleet0.

Lemma reachable_ok f : reachable f → redial_ok f ∧ fleet_ok f.
Proof.
  intros Hr. apply (rtc_preserved fstep (λ f, redial_ok f ∧ fleet_ok f) fleet0 f); [|done|].
  - intros f1 f2 Hs [? ?]. split; [by eapply redial_preserved|by eapply fleet_ok_step].
  - split; [split; [constructor|cbn; set_solver]|done].
Qed.

(** What the robots do, in whatever order their goroutines run. A robot without a session
    is disconnected; on a new connection it has sent nothing; while it waits for the answer or
    plays, exactly one login entered the channel of this connection, whose session is in the
    table; it plays only with the data of its role and never in a run that logs in only. A
    goroutine that dials again is its robot's only one and finds no session to close. *)
Theorem robots_log_in_once f k r t :
  reachable f → f_robots f !! k = Some (r, t) →
  match r_s r with
  | None => r_state r = RDisconnect
  | Some s =>
      (logins s = 0 ∧ se_out s = [] ∧ (r_state r = RInit ∨ r_state r = RDisconnect)) ∨
      (logins s = 1 ∧ initialized s = true ∧ (r_state r = RPending ∨ r_state r = RInGame ∧ LoginOnly = false ∧ r_Data r ≠ None))
  end ∧ (k ∈ f_redial f → r_s r = None) ∧ NoDup (f_redial f).
Proof.
  intros Hf Hk. destruct (reachable_ok f Hf) as [Hd Hok]. destruct (Hok _ _ _ Hk) as [Hr _]. splits.
  - unfold robot_ok, fresh, logins in *. destruct (r_s r) as [s|]; [|done].
    destruct (r_state r); [left|right|left|right]; try tauto.
    + destruct Hr as (? & -> & _). auto.
    + destruct Hr as ((? & -> & _) & _). auto.
  - intros Hin. destruct (proj2 Hd k Hin) as (r0 & t0 & E & ?). congruence.
  - apply Hd.
Qed.

(** The table of sessions: while fewer than 2^32 - 1 sessions have been initialized, it
    holds exactly the robots' initialized sessions, under different ids, and the counter is its
    size. *)
Theorem robot_table_exact f :
  reachable f → f_inits f < 2 ^ 32 - 1 →
  (∀ id k, f_cli f !! id = Some k ↔ holds f id k) ∧ f_cnt f = i32 (Z.of_nat (size (f_cli f))).
Proof.
  intros Hr Hb.
  assert (H : redial_ok f ∧ fleet_ok f ∧ (f_inits f < 2 ^ 32 - 1 → table_ok f)).
  { apply (rtc_preserved fstep (λ f, redial_ok f ∧ fleet_ok f ∧ (f_inits f < 2 ^ 32 - 1 → table_ok f)) fleet0 f); [|done|].
    - intros f1 f2 Hs (H1 & H2 & H3). splits; [by eapply redial_preserved|by eapply fleet_ok_step|].
      intros Hb2. pose proof (inits_mono _ _ Hs). eapply table_step; try done. apply H3. lia.
    - splits; [split; [constructor|cbn; set_solver]|done|]. intros _. unfold table_ok. cbn. splits; try done.
      intros id k. split; [done|]. by intros (? & ? & ? & ? & _). }
  destruct H as (_ & _ & H). by destruct (H Hb) as (? & ? & _).
Qed.

(** A robot that cannot act: no main loop runs for it and nobody dials. *)
Definition inert (o : option ses) : Prop := match o with None => True | Some s => se_alive s = false end.
Definition lost (f : fleet) (k : Z) : Prop := k ∉ f_redial f ∧ (∃ r t, f_robots f !! k = Some (r, t) ∧ inert (r_s r)).

Lemma lost_put f k j r t : lost f k → (j = k → inert (r_s r)) → lost (put j r t f) k.
Proof.
  intros (Hn & r0 & t0 & E & Hi) Hj. split; [done|]. destruct (decide (j = k)) as [->|Hjk].
  - exists r, t. cbn. rewrite lookup_insert_eq. auto.
  - exists r0, t0. cbn. by rewrite lookup_insert_ne.
Qed.

Lemma lost_preserved k : preserved fstep (λ f, lost f k).
Proof.
  intros f f' Hs Hl.
  assert (Hdead : ∀ j r t s, f_robots f !! j = Some (r, t) → r_s r = Some s → j = k → se_alive s = false).
  { intros j r t s Ej Es ->. destruct Hl as (_ & r0 & t0 & E & Hi). assert (r0 = r) as -> by congruence. by rewrite Es in Hi. }
  assert (Halive : ∀ j r t s, f_robots f !! j = Some (r, t) → r_s r = Some s → se_alive s = true → j ≠ k).
  { intros j r t s Ej Es Ha ->. rewrite (Hdead _ _ _ _ Ej Es) in Ha; done. }
  destruct Hs as [f j id start period Hk|f j r t s Hk Es HU|f j r t s now (Hk & Es & Ha & HU & Hc)|f j r t s ok gameID token player (Hk & Es & Ha & HU & Hc) Hi
    |f j r t s m out Hk Es Eo|f j r t s Hk Es Ha HU|f j r t s Hk Es Ha HU|f j r t l1 l2 ok Hk El].
  - apply lost_put; [done|]. intros ->. destruct Hl as (_ & ? & ? & ? & _). congruence.
  - apply lost_put; [done|]. intros ->. cbn. by eapply Hdead.
  - pose proof (Halive _ _ _ _ Hk Es Ha). unfold SecLoop. destruct (r_state r); try done; [by apply lost_put|].
    destruct (TaskRun LoginOnly now t r). by apply lost_put.
  - pose proof (Halive _ _ _ _ Hk Es Ha). unfold onLogin, onLoginSuccess. destruct ok, LoginOnly; try done; [|by apply lost_put].
    exact (lost_put f k j _ t Hl ltac:(done)).
  - apply lost_put; [done|]. intros ->. cbn. by eapply Hdead.
  - pose proof (Halive _ _ _ _ Hk Es Ha). unfold OnClosed, OnDisconnect. set (f1 := if Flag_Has _ _ then _ else f).
    assert (E1 : f_redial f1 = f_redial f ∧ f_robots f1 = f_robots f) by (unfold f1; by destruct (Flag_Has _ _)).
    destruct E1 as [E1 E2]. apply lost_put; [|done]. destruct Hl as (Hn & Hrest). split; cbn; rewrite ?E1, ?E2; [|done].
    rewrite not_elem_of_app, list_elem_of_singleton. auto.
  - apply lost_put; [done|]. intros ->. by destruct (Halive _ _ _ _ Hk Es Ha).
  - destruct Hl as (Hn & Hrest). rewrite El, not_elem_of_app, not_elem_of_cons in Hn. destruct Hn as (? & ? & ?).
    assert (Hl' : lost (mkF (f_robots f) (f_cli f) (f_cnt f) (f_sesID f) (l1 ++ l2) (f_inits f) (f_online f)) k).
    { split; [by apply not_elem_of_app|done]. }
    destruct ok; [|done]. by apply lost_put.
Qed.

(** A robot dials once after it lost its connection: when that fails, it never acts again,
    whatever happens next. *)
Theorem failed_redial_is_final f k r t l1 l2 f' :
  reachable f → f_robots f !! k = Some (r, t) → f_redial f = l1 ++ k :: l2 →
  rtc fstep (mkF (f_robots f) (f_cli f) (f_cnt f) (f_sesID f) (l1 ++ l2) (f_inits f) (f_online f)) f' → lost f' k.
Proof.
  intros Hf Hk El Hr. destruct (reachable_ok f Hf) as [[Hn Hd] _].
  eapply (rtc_preserved fstep (λ f, lost f k)); [apply lost_preserved|done|]. split; cbn.
  - rewrite El in Hn. apply NoDup_app in Hn as (_ & N2 & [N3 _]%NoDup_cons). rewrite not_elem_of_app. split; [|done].
    intros Hin. apply (N2 k Hin). by left.
  - exists r, t. split; [done|]. destruct (Hd k) as (r0 & t0 & E & E0); [rewrite El; set_solver|].
    assert (r0 = r) as -> by congruence. by rewrite E0.
Qed.

End Fleet.

(** *** A run: robot 7 logs in, plays, is closed and dials again *)

Definition hero : RoleData := mkRD 42 "Ann" 3 5.

Definition f_dialed : fleet := put 7 (NewUnitRobot 7) (InitTask 0 300) fleet0.
Definition r_attached : Robot := set_state RInit (set_ses (Some (set_U true handleCliConn)) (NewUnitRobot 7)).
Definition f_attached : fleet := put 7 r_attached (InitTask 0 300) f_dialed.
Definition f_pending : fleet := SecLoop false 7 1000000000 r_attached (InitTask 0 300) (set_U true handleCliConn) f_attached.
Definition robotAt (f : fleet) : Robot := default (NewUnitRobot 0) (fst <$> f_robots f !! 7).
Definition sesAt (f : fleet) : ses := default handleCliConn (r_s (robotAt f)).
Definition f_playing : fleet := onLogin false 7 true 1 99 hero (robotAt f_pending) (InitTask 0 300) f_pending.
Definition f_closed : fleet := OnClosed 7 (robotAt f_playing) (InitTask 0 300) (sesAt f_playing) f_playing.

Lemma turns_at f k r t s :
  f_robots f !! k = Some (r, t) → r_s r = Some s → se_alive s = true → se_U s = true → closing s = false → turns f k r t s.
Proof. by repeat split. Qed.

Lemma f_playing_reachable : reachable false f_playing.
Proof.
  eapply rtc_l; [apply (fs_dial false fleet0 7 7 0 300); vm_compute; reflexivity|].
  eapply rtc_l; [apply (fs_attach false f_dialed 7 (NewUnitRobot 7) (InitTask 0 300) handleCliConn); [apply lookup_insert_eq|done..]|].
  eapply rtc_l; [apply (fs_tick false f_attached 7 r_attached (InitTask 0 300) (set_U true handleCliConn) 1000000000), turns_at; [apply lookup_insert_eq|done..]|].
  eapply rtc_l; [|apply rtc_refl].
  apply (fs_login false f_pending 7 (robotAt f_pending) (InitTask 0 300) (sesAt f_pending) true 1 99 hero); [|by vm_compute].
  apply turns_at; [|by vm_compute..]. unfold robotAt, f_pending. cbn. by rewrite lookup_insert_eq.
Qed.

Lemma robots_log_in_once_witness :
  f_robots f_playing !! 7 = Some (robotAt f_playing, InitTask 0 300) ∧ logins (sesAt f_playing) = 1 ∧ r_state (robotAt f_playing) = RInGame.
Proof.
  assert (E : f_robots f_playing !! 7 = Some (robotAt f_playing, InitTask 0 300)).
  { unfold robotAt, f_playing, onLogin, onLoginSuccess. cbn. by rewrite lookup_insert_eq. }
  split; [done|]. destruct (robots_log_in_once false f_playing 7 _ _ f_playing_reachable E) as [H _].
  split; [|by vm_compute].
  assert (Es : r_s (robotAt f_playing) = Some (sesAt f_playing)) by (by vm_compute). rewrite Es in H.
  destruct H as [(_ & _ & [Hx|Hx])|(Hl & _)]; [vm_compute in Hx; done..|exact Hl].
Defined.

Lemma robot_table_exact_witness : f_cnt f_playing = 1 ∧ holds f_playing 2 7.
Proof.
  destruct (robot_table_exact false f_playing f_playing_reachable) as [H E]; [by vm_compute|].
  split; [rewrite E; by vm_compute|]. apply H. by vm_compute.
Defined.

Lemma f_closed_reachable : reachable false f_closed.
Proof.
  eapply rtc_r; [apply f_playing_reachable|].
  apply (fs_closed false f_playing 7 (robotAt f_playing) (InitTask 0 300) (sesAt f_playing)); [|by vm_compute..].
  unfold robotAt, f_playing, onLogin, onLoginSuccess. cbn. by rewrite lookup_insert_eq.
Qed.

Lemma failed_redial_is_final_witness :
  f_redial f_closed = [7] ∧
  lost (mkF (f_robots f_closed) (f_cli f_closed) (f_cnt f_closed) (f_sesID f_closed) [] (f_inits f_closed) (f_online f_closed)) 7.
Proof.
  assert (E : f_redial f_closed = [7]) by (by vm_compute). split; [done|].
  eapply (failed_redial_is_final false f_closed 7 (robotAt f_closed) (InitTask 0 300) [] []); [apply f_closed_reachable| |done|apply rtc_refl].
  unfold robotAt, f_closed, OnClosed, OnDisconnect. cbn. by rewrite lookup_insert_eq.
Defined.
