(* ===== verification/Monitor.v ===== *)
(** * internal/robot/logic: starting the robots and counting what they do

    [robot_mgr.go]: the robots a run starts; [monitor.go]: the goroutine that takes the
    robots' reports from its channels and logs a line a minute; [onHeartbeat] and [onEcho];
    [clinet/recver.go]: the loop that reads a robot's connection. *)

From S2P Require Import Prelude DataBus Util Robot Fleet.

(** ** Which robots are started *)

Record ServerCfg := mkSC { sc_Cnt : Z; sc_BeginID : Z; sc_WorldBegin : Z; sc_WorldEnd : Z; sc_LoginOnly : bool }.

(** [for i := WorldBegin; i <= WorldEnd; i++] over [uint32]; [None]: out of fuel. *)
Fixpoint worlds (fuel : nat) (i last : Z) : option (list Z) :=
  match fuel with
  | O => None
  | S fuel => if decide (i ≤ last) then cons i <$> worlds fuel (u32 (i + 1)) last else Some []
  end.

(** The robots as arguments of [NewUnitRobot], and whether the monitor is started. [i != cnt]
    counts up from 0: a negative count comes round only after 2^64 robots. *)
Definition InitRobots (fuel : nat) (cfg : ServerCfg) : option (list (Z * Z) * bool) :=
  if sc_LoginOnly cfg
  then match worlds fuel (sc_WorldBegin cfg) (sc_WorldEnd cfg) with
       | Some ws => Some ((λ i, (i, i)) <$> ws, false)
       | None => None
       end
  else if decide (0 ≤ sc_Cnt cfg)
       then Some ((λ i, (sc_BeginID cfg + i, sc_WorldBegin cfg)) <$> seqZ 0 (sc_Cnt cfg), true) else None.

Lemma worlds_count n i last fuel :
  0 ≤ i → last < 2 ^ 32 - 1 → Z.of_nat n = last + 1 - i → (n < fuel)%nat → worlds fuel i last = Some (seqZ i (last + 1 - i)).
Proof.
  revert i fuel. induction n as [|n IH]; intros i [|fuel] Hi Hl Hn Hf; try lia; cbn [worlds].
  - rewrite decide_False by lia. by rewrite seqZ_nil by lia.
  - rewrite decide_True, u32_id by (unfold is_u32; lia). rewrite (IH (i + 1)) by lia. cbn.
    rewrite (seqZ_cons i) by lia. do 3 f_equal; lia.
Qed.

Lemma worlds_wrap fuel i : 0 ≤ i < 2 ^ 32 → worlds fuel i (2 ^ 32 - 1) = None.
Proof.
  revert i. induction fuel as [|fuel IH]; intros i Hi; [done|]. cbn [worlds]. rewrite decide_True by lia.
  rewrite IH; [done|]. apply Z.mod_pos_bound. lia.
Qed.

(** A run that logs in only starts one robot per world of its range, each once; a range that ends at the
    largest [uint32] never stops starting robots. *)
Theorem login_run_covers_worlds cfg fuel :
  sc_LoginOnly cfg = true → 0 ≤ sc_WorldBegin cfg ≤ sc_WorldEnd cfg → sc_WorldEnd cfg < 2 ^ 32 →
  Z.of_nat fuel > sc_WorldEnd cfg + 1 - sc_WorldBegin cfg →
  match InitRobots fuel cfg with
  | Some (rs, started) => sc_WorldEnd cfg ≠ 2 ^ 32 - 1 ∧ started = false ∧
      NoDup rs ∧ ∀ r, r ∈ rs ↔ sc_WorldBegin cfg ≤ r.1 ≤ sc_WorldEnd cfg ∧ r.2 = r.1
  | None => sc_WorldEnd cfg = 2 ^ 32 - 1
  end.
Proof.
  intros HL Hb He Hf. unfold InitRobots. rewrite HL. destruct (decide (sc_WorldEnd cfg = 2 ^ 32 - 1)) as [E|Hn].
  - rewrite E, worlds_wrap by lia. done.
  - rewrite (worlds_count (Z.to_nat (sc_WorldEnd cfg + 1 - sc_WorldBegin cfg))) by lia. cbn. splits; [done|done| |].
    + apply NoDup_fmap_2; [by intros ?? [= ->]|apply NoDup_seqZ].
    + intros [a b]. cbn. rewrite list_elem_of_fmap. setoid_rewrite elem_of_seqZ. split.
      * intros (x & [= -> ->] & ?). split; [lia|done].
      * intros [? ->]. exists a. split; [done|lia].
Qed.

Lemma login_run_covers_worlds_witness : InitRobots 5 (mkSC 0 0 3 5 true) = Some ([(3, 3); (4, 4); (5, 5)], false) ∧
  NoDup [(3, 3); (4, 4); (5, 5)].
Proof.
  pose proof (login_run_covers_worlds (mkSC 0 0 3 5 true) 5 eq_refl ltac:(cbn; lia) ltac:(cbn; lia) ltac:(cbn; lia)) as H.
  split; [reflexivity|]. exact (proj1 (proj2 (proj2 H))).
Defined.

(** ** The monitor *)

(** The two channels, the robots seen since the last line, the late heartbeats per robot, the
    two counters. *)
Record Monitor := mkMon {
  m_c : list Z; m_onLine : gmap Z Z; m_toc : list Z; m_timeOut : gmap Z Z; m_sendCnt : Z; m_recvCnt : Z }.

Definition NewMonitor : Monitor := mkMon [] ∅ [] ∅ 0 0.

(** A send on a full channel waits: [None]. *)
Definition Active (id : Z) (m : Monitor) : option Monitor :=
  if decide (len (m_c m) < 1000) then Some (mkMon (m_c m ++ [id]) (m_onLine m) (m_toc m) (m_timeOut m) (m_sendCnt m) (m_recvCnt m)) else None.
Definition TimeOut (id : Z) (m : Monitor) : option Monitor :=
  if decide (len (m_toc m) < 3000) then Some (mkMon (m_c m) (m_onLine m) (m_toc m ++ [id]) (m_timeOut m) (m_sendCnt m) (m_recvCnt m)) else None.
Definition AddSendCnt (m : Monitor) : Monitor := mkMon (m_c m) (m_onLine m) (m_toc m) (m_timeOut m) (u64 (m_sendCnt m + 1)) (m_recvCnt m).
Definition AddRecvCnt (m : Monitor) : Monitor := mkMon (m_c m) (m_onLine m) (m_toc m) (m_timeOut m) (m_sendCnt m) (u64 (m_recvCnt m + 1)).

(** What is logged: the line of a minute, or the tally of a login run. *)
Inductive line :=
| LMinute (active timeOut send recv : Z)
| LLogin (total success : Z) (missing : list Z).

Definition isLate (v : Z) : bool := bool_decide (v > 5).
Definition late (m : gmap Z Z) : list (Z * Z) := filter (λ kv, isLate kv.2 = true) (map_to_list m).

(** A turn of [run]: which case the select took. *)
Inductive turn := TakeC | TakeToc | TLogin | TMinute.

Definition run_turn (cfg : ServerCfg) (robots : gmap Z bool) (now : Z) (w : turn) (m : Monitor) : option (Monitor * list line) :=
  match w with
  | TakeC =>
      match m_c m with
      | id :: c => Some (mkMon c (<[id := now]> (m_onLine m)) (m_toc m) (m_timeOut m) (m_sendCnt m) (m_recvCnt m), [])
      | [] => None
      end
  | TakeToc =>
      match m_toc m with
      | id :: toc => Some (mkMon (m_c m) (m_onLine m) toc (<[id := u32 (default 0 (m_timeOut m !! id) + 1)]> (m_timeOut m)) (m_sendCnt m) (m_recvCnt m), [])
      | [] => None
      end
  | TLogin =>
      if sc_LoginOnly cfg
      then Some (m, [LLogin (u32 (sc_WorldEnd cfg - sc_WorldBegin cfg + 1)) (len (filter (λ kv, kv.2 = true) (map_to_list robots)))
                       ((filter (λ kv, kv.2 = false) (map_to_list robots)).*1)])
      else Some (m, [])
  | TMinute =>
      if sc_LoginOnly cfg then Some (m, [])
      else Some (mkMon (m_c m) ∅ (m_toc m) ((λ _, 0) <$> m_timeOut m) 0 0,
                 [LMinute (Z.of_nat (size (m_onLine m))) (len (late (m_timeOut m))) (m_sendCnt m) (m_recvCnt m)])
  end.

(** ** What the robots tell it *)

Definition TimeOutMs : Z := 300.

(** [onHeartbeat] of a robot with this id and role: two channel sends, either may wait. *)
Definition onHeartbeat (nowMs cliTime id : Z) (data : option RoleData) (m : Monitor) : option Monitor :=
  m ← (if decide (nowMs - cliTime > TimeOutMs) then TimeOut id m else Some m);
  match data with Some d => Active (rd_ID d) m | None => Some m end.

(** [onEcho]: the warning of a mismatch, and the counter in any case. *)
Definition onEcho (r : Robot) (id : Z) (name : string) (level exp : Z) (m : Monitor) : bool * Monitor :=
  (negb (echo_matches r id name level exp), AddRecvCnt m).

(** A robot's echo comes back unchanged: no warning. *)
Lemma echo_no_warning r d now m s :
  r_Data r = Some d → r_s r = Some s → len (se_out s) < OutChanSize →
  ∃ id name level exp t s', r_s (task (now, r)).2 = Some s' ∧ se_out s' = se_out s ++ [CEcho id name level exp t] ∧
    onEcho (task (now, r)).2 id name level exp m = (false, AddRecvCnt m).
Proof.
  intros Ed Es Hl. unfold task. cbn. rewrite Ed. unfold robot_Send, ses_Send. cbn. rewrite Es. cbn. rewrite decide_True by done.
  do 5 eexists. eexists. split; [done|]. split; [done|]. unfold onEcho, echo_matches. cbn. rewrite Ed. by rewrite bool_decide_eq_true_2.
Qed.

(** ** All of it together *)

Inductive mop := OActive (id : Z) | OTimeOut (id : Z) | OSend | ORecv | OTurn (now : Z) (w : turn).

Definition mon_op (cfg : ServerCfg) (robots : gmap Z bool) (o : mop) (m : Monitor) : option (Monitor * list line) :=
  match o with
  | OActive id => m ← Active id m; Some (m, [])
  | OTimeOut id => m ← TimeOut id m; Some (m, [])
  | OSend => Some (AddSendCnt m, [])
  | ORecv => Some (AddRecvCnt m, [])
  | OTurn now w => run_turn cfg robots now w m
  end.

Fixpoint mon_ops (cfg : ServerCfg) (robots : gmap Z bool) (os : list mop) (m : Monitor) : option (Monitor * list line) :=
  match os with
  | [] => Some (m, [])
  | o :: os => '(m, l1) ← mon_op cfg robots o m; '(m, l2) ← mon_ops cfg robots os m; Some (m, l1 ++ l2)
  end.

Definition sumZ (l : list Z) : Z := foldr Z.add 0 l.
Definition line_send (l : line) : Z := match l with LMinute _ _ s _ => s | _ => 0 end.
Definition line_recv (l : line) : Z := match l with LMinute _ _ _ r => r | _ => 0 end.
Definition is_send (o : mop) : bool := match o with OSend => true | _ => false end.
Definition is_recv (o : mop) : bool := match o with ORecv => true | _ => false end.
Definition countOf (p : mop → bool) (os : list mop) : Z := sumZ ((λ o, if p o then 1 else 0) <$> os).

Lemma countOf_cons p o os : countOf p (o :: os) = (if p o then 1 else 0) + countOf p os.
Proof. done. Qed.
Lemma countOf_nonneg p os : 0 ≤ countOf p os.
Proof. induction os as [|o os IH]; [done|]. rewrite countOf_cons. destruct (p o); lia. Qed.
Lemma sumZ_app l1 l2 : sumZ (l1 ++ l2) = sumZ l1 + sumZ l2.
Proof. unfold sumZ. induction l1 as [|x l1 IH]; cbn; [done|]. rewrite IH. lia. Qed.

(** One operation moves counts between the counters and the lines. *)
Lemma mon_op_counts cfg robots o m m' l :
  mon_op cfg robots o m = Some (m', l) → 0 ≤ m_sendCnt m → 0 ≤ m_recvCnt m →
  m_sendCnt m + (if is_send o then 1 else 0) < 2 ^ 64 → m_recvCnt m + (if is_recv o then 1 else 0) < 2 ^ 64 →
  (0 ≤ m_sendCnt m' ∧ 0 ≤ m_recvCnt m') ∧ (0 ≤ sumZ (line_send <$> l) ∧ 0 ≤ sumZ (line_recv <$> l)) ∧
  sumZ (line_send <$> l) + m_sendCnt m' = m_sendCnt m + (if is_send o then 1 else 0) ∧
  sumZ (line_recv <$> l) + m_recvCnt m' = m_recvCnt m + (if is_recv o then 1 else 0).
Proof.
  intros E Hs Hr Bs Br. destruct o as [id|id| | |now w]; cbn in E.
  - unfold Active in E. case_decide; [|done]. injection E as <- <-. cbn. lia.
  - unfold TimeOut in E. case_decide; [|done]. injection E as <- <-. cbn. lia.
  - injection E as <- <-. cbn in *. rewrite u64_id by (width; lia). lia.
  - injection E as <- <-. cbn in *. rewrite u64_id by (width; lia). lia.
  - destruct w; cbn in E; [destruct (m_c m); [done|]|destruct (m_toc m); [done|]|destruct (sc_LoginOnly cfg)|destruct (sc_LoginOnly cfg)];
      injection E as <- <-; cbn in *; lia.
Qed.

Lemma mon_ops_counts cfg robots os m0 m lines :
  mon_ops cfg robots os m0 = Some (m, lines) → 0 ≤ m_sendCnt m0 → 0 ≤ m_recvCnt m0 →
  m_sendCnt m0 + countOf is_send os < 2 ^ 64 → m_recvCnt m0 + countOf is_recv os < 2 ^ 64 →
  sumZ (line_send <$> lines) + m_sendCnt m = m_sendCnt m0 + countOf is_send os ∧
  sumZ (line_recv <$> lines) + m_recvCnt m = m_recvCnt m0 + countOf is_recv os.
Proof.
  revert m0 m lines. induction os as [|o os IH]; intros m0 m lines E Hs Hr Bs Br; [injection E as <- <-; cbn; lia|].
  cbn in E. destruct (mon_op cfg robots o m0) as [[m1 l1]|] eqn:E1; [|done]. cbn in E.
  destruct (mon_ops cfg robots os m1) as [[m2 l2]|] eqn:E2; [|done]. cbn in E. injection E as <- <-.
  rewrite ?countOf_cons in *. pose proof (countOf_nonneg is_send os). pose proof (countOf_nonneg is_recv os).
  destruct (mon_op_counts _ _ _ _ _ _ E1) as ((? & ?) & (? & ?) & ? & ?); [lia..|].
  destruct (IH _ _ _ E2) as [? ?]; [lia..|]. rewrite !fmap_app, !sumZ_app. lia.
Qed.

(** The monitor loses no count: whatever the order of the robots' calls and of the
    goroutine's turns, the echoes sent (received) are those of the lines logged so far plus
    the counter, as long as fewer than 2^64 were counted. *)
Theorem monitor_conserves cfg robots os m lines :
  mon_ops cfg robots os NewMonitor = Some (m, lines) → countOf is_send os < 2 ^ 64 → countOf is_recv os < 2 ^ 64 →
  sumZ (line_send <$> lines) + m_sendCnt m = countOf is_send os ∧ sumZ (line_recv <$> lines) + m_recvCnt m = countOf is_recv os.
Proof.
  intros E ? ?. destruct (mon_ops_counts cfg robots os NewMonitor m lines E) as [-> ->];
    cbn [NewMonitor m_sendCnt m_recvCnt]; lia.
Qed.

Lemma monitor_conserves_witness :
  let os := [OSend; OActive 4; OSend; OTurn 0 TakeC; OTurn 0 TMinute; ORecv; OSend] in
  ∃ m lines, mon_ops (mkSC 1 1 1 1 false) ∅ os NewMonitor = Some (m, lines) ∧ lines = [LMinute 1 0 2 0] ∧
    sumZ (line_send <$> lines) + m_sendCnt m = countOf is_send os ∧ sumZ (line_recv <$> lines) + m_recvCnt m = countOf is_recv os.
Proof.
  eexists _, _. split; [vm_compute; reflexivity|]. split; [reflexivity|].
  apply (monitor_conserves (mkSC 1 1 1 1 false) ∅); vm_compute; reflexivity.
Defined.

(** ** Reading a connection *)

(** What [ReadMessage] returns; 2 and 8 are the binary and the close message. *)
Inductive readEvt := RdErr | RdMsg (mt : Z) (data : bytes).

(** [recvLoop]: what the main loop gets; it takes [n] messages before it ends. *)
Fixpoint recvLoop (n : nat) (evs : list readEvt) : list bytes :=
  match evs with
  | [] | RdErr :: _ => []
  | RdMsg mt d :: evs =>
      if decide (mt = 8) then [] else if decide (mt ≠ 2) then recvLoop n evs
      else match n with O => [] | S n => d :: recvLoop n evs end
  end.

Definition isBinary (e : readEvt) : option bytes := match e with RdMsg mt d => if decide (mt = 2) then Some d else None | RdErr => None end.
Definition ends (e : readEvt) : bool := match e with RdErr => true | RdMsg mt _ => bool_decide (mt = 8) end.
Fixpoint before (evs : list readEvt) : list readEvt :=
  match evs with [] => [] | e :: evs => if ends e then [] else e :: before evs end.

(** The main loop gets the binary messages before the first error or close, in order, and as
    many as it takes. *)
Lemma recvLoop_spec n evs : recvLoop n evs = take n (omap isBinary (before evs)).
Proof.
  revert n. induction evs as [|[|mt d] evs IH]; intros n; cbn; [by destruct n|by destruct n|].
  destruct (decide (mt = 8)) as [->|H8]; [by destruct n|]. rewrite bool_decide_eq_false_2 by done. cbn.
  destruct (decide (mt = 2)) as [->|H2].
  - rewrite decide_False by (intros H; by apply H). destruct n; [done|]. cbn. by rewrite IH.
  - rewrite decide_True by done. by rewrite IH.
Qed.
