(* ===== verification/Jetq.v ===== *)
(** * pkg/gnet/jetq: the durable queue

    Messages for a node or for any node of a service go through the same tables of
    batchers as those of the bus, and are published to a JetStream stream; a durable
    consumer per subject decodes each stored batch, hands its messages to the callback and
    acknowledges it. A batch that is not acknowledged is delivered again. *)

From S2P Require Import Prelude Gmsg Batcher DataBus.

(** ** Names *)

Definition getStreamName (serType : Z) : string := "Stream_" +:+ SrvName serType.
Definition getStreamWildcardSubject (serType : Z) : string := "stream." +:+ SrvName serType +:+ ".>".
Definition getNodeSubject (serType serID : Z) : string := "stream." +:+ SrvName serType +:+ ".node." +:+ Itoa serID.
Definition getAnySubject (serType : Z) : string := "stream." +:+ SrvName serType +:+ ".any".

(** [NewNodePub] and [NewAnyPub]; [NewBroadcastPub] panics. *)
Definition jet_subject (k : bkey) : option string :=
  match k with
  | KNode t i => Some (getNodeSubject t i)
  | KAny t => Some (getAnySubject t)
  | KBroadcast _ => None
  end.

(** ** Sending

    The [closed] flag and the tables of batchers are those of a [DataBus]. *)

Section Send.
Context (cap : Z) (stale : Z → bytes).

Definition jet_SendToNode (serType serID msgID : Z) (data : bytes) (roleID sesID : Z) (jt : DataBus) :=
  send (KNode serType serID)
    (mkMessage {| ActorID := roleID; SesID := sesID; MsgID := msgID; FromSerID := bus_serID jt;
                  FromSer := bus_serType jt; ToSerID := serID; ToSer := u8 serType; Flag := 0 |} data EmptyString)
    cap stale jt.

(** The addressee's type is not part of the head here. *)
Definition jet_SendToAny (serType msgID : Z) (data : bytes) (roleID sesID : Z) (jt : DataBus) :=
  send (KAny serType)
    (mkMessage {| ActorID := roleID; SesID := sesID; MsgID := msgID; FromSerID := bus_serID jt;
                  FromSer := bus_serType jt; ToSerID := 0; ToSer := 0; Flag := 0 |} data EmptyString)
    cap stale jt.

End Send.

(** The callback of [NewPubBatcher]: an empty buffer is not published, and one whose
    publication fails is lost. [ok] says which publications succeed. *)
Definition jet_publish (ok : nat → bool) (n : nat) (kt : bkey * flushTask) : option (string * flushTask) :=
  if decide (ft_buf kt.2 = []) then None
  else if ok n then (λ s, (s, kt.2)) <$> jet_subject kt.1 else None.

Definition jet_stream (ok : nat → bool) (w : list (bkey * flushTask)) : list (string * flushTask) :=
  omap id (imap (jet_publish ok) w).

(** [Shutdown], as far as sending goes. *)
Definition jet_Shutdown (jt : DataBus) : DataBus := if bus_closed jt then jt else Close jt.

(** ** Receiving *)

(** [Serve]: the subjects of this node. *)
Definition jet_Serve (serType serID : Z) : list string := [getNodeSubject serType serID; getAnySubject serType].

(** The durable consumer of a subject: what is stored and not acknowledged, what the
    callback has received, how many acknowledgements failed. *)
Record consumer := mkCons { co_pending : list flushTask; co_handled : list Message; co_failed : nat }.

Definition jet_consumer (subj : string) (stream : list (string * flushTask)) : consumer :=
  mkCons (snd <$> filter (λ e, e.1 = subj) stream) [] 0.

(** What the callback receives from one stored batch. *)
Definition decoded (reply : string) (t : flushTask) : option (list Message) :=
  match DecodeManyAndHandle reply (λ m l, l ++ [m]) (ft_buf t) (mkSub 0 ∅) [] with
  | Some (_, _, l) => Some l
  | None => None
  end.

(** One call of the callback of [sub]: any pending batch, with the reply subject of this
    delivery; it is acknowledged whether or not it decodes. *)
Inductive dstep : consumer → consumer → Prop :=
| d_deliver pre t rest h f reply l (ack : bool) :
    decoded reply t = Some l →
    dstep (mkCons (pre ++ t :: rest) h f)
          (mkCons (if ack then pre ++ rest else pre ++ t :: rest) (h ++ l) (if ack then f else S f)).

(** ** Histories *)

Inductive jetOp :=
| JNode (serType serID msgID : Z) (data : bytes) (roleID sesID : Z)
| JAny (serType msgID : Z) (data : bytes) (roleID sesID : Z)
| JTick (k : bkey).

Definition jetDo (cap : Z) (stale : Z → bytes) (jt : DataBus) (o : jetOp) : option (DataBus * go_error) :=
  match o with
  | JNode t i m d r s => jet_SendToNode cap stale t i m d r s jt
  | JAny t m d r s => jet_SendToAny cap stale t m d r s jt
  | JTick k => Some (tick_batcher jt k, None)
  end.

Definition jetTarget (st si : Z) (o : jetOp) : option (bkey * Message) :=
  let msg m to toID d r s :=
    mkMessage {| MsgID := m; FromSerID := si; FromSer := st; ToSer := to; ToSerID := toID;
                 ActorID := r; SesID := s; Flag := 0 |} d EmptyString in
  match o with
  | JNode t i m d r s => Some (KNode t i, msg m (u8 t) i d r s)
  | JAny t m d r s => Some (KAny t, msg m 0 0 d r s)
  | JTick _ => None
  end.

Definition jetRun (cap : Z) (stale : Z → bytes) (ops : list jetOp) (jt : option DataBus) : option DataBus :=
  fold_left (λ jt o, jt ← jt; '(jt, _) ← jetDo cap stale jt o; Some jt) ops jt.

Definition jetSent (st si : Z) (k : bkey) (ops : list jetOp) : list Message :=
  omap (λ o, '(k', m) ← jetTarget st si o; if decide (k' = k) then Some m else None) ops.

Definition jetOk (o : jetOp) : Prop :=
  match o with
  | JNode t i _ _ _ _ => 0 ≤ t < SvcTypeMax ∧ 0 ≤ i < SvcIDMax
  | JAny t _ _ _ _ => 0 ≤ t < SvcTypeMax
  | JTick _ => True
  end.

Lemma jetOk_key st si o k m : jetOk o → jetTarget st si o = Some (k, m) → in_table k ∧ (∀ t, k ≠ KBroadcast t).
Proof.
  unfold in_table, key_check, SvcTypeMax, SvcIDMax. intros Ho E. destruct o; cbn in Ho, E; simplify_eq; split; try done;
    unfold SvcTypeMax, SvcIDMax in *; repeat case_decide; try done; lia.
Qed.

Lemma jetDo_send cap stale jt o k m :
  jetTarget (bus_serType jt) (bus_serID jt) o = Some (k, m) → jetDo cap stale jt o = send k m cap stale jt.
Proof. intros E. by destruct o; cbn in E; simplify_eq. Qed.

Lemma jetSent_snoc st si k ops o :
  jetSent st si k (ops ++ [o]) =
  jetSent st si k ops ++ match jetTarget st si o with
                         | Some (k', m) => if decide (k' = k) then [m] else []
                         | None => [] end.
Proof.
  unfold jetSent. rewrite omap_app. f_equal. cbn. destruct (jetTarget st si o) as [[k' m]|]; cbn; [|done]. by case_decide.
Qed.

Lemma jetRun_inv cap stale st si ops :
  buffSize ≤ cap → (∀ n, 0 ≤ n → len (stale n) = n) → Forall jetOk ops →
  ∃ jt, jetRun cap stale ops (Some (freshBus st si)) = Some jt ∧ bus_inv st si jt (λ k, jetSent st si k ops).
Proof.
  intros Hc Hst. induction ops as [|o ops IH] using rev_ind; intros Hok.
  { apply (busRun_inv cap stale st si []); done. }
  apply Forall_app in Hok as [Hok Ho]. inversion Ho as [|? ? Ho' _]; subst. clear Ho.
  destruct (IH Hok) as (jt & E & Hinv). unfold jetRun in *. rewrite fold_left_app, E. cbn [fold_left mbind option_bind].
  pose proof Hinv as (Ht & Hi & _). destruct (jetTarget st si o) as [[k m]|] eqn:Eo.
  - rewrite (jetDo_send cap stale jt o k m) by (by rewrite Ht, Hi).
    destruct (send_inv cap stale Hc Hst st si jt _ k m Hinv) as [Hin _].
    destruct (Hin (proj1 (jetOk_key st si o k m Ho' Eo))) as (jt' & -> & Hinv'). eexists. split; [done|].
    eapply bus_inv_ext; [|exact Hinv']. intros k' _. cbn beta. rewrite jetSent_snoc, Eo.
    case_decide; [done|by rewrite app_nil_r].
  - destruct o; try done. cbn [jetDo mbind option_bind]. eexists. split; [done|].
    eapply bus_inv_ext; [|by apply tick_inv]. intros k' _. cbn beta. by rewrite jetSent_snoc, Eo, app_nil_r.
Qed.

(** ** Subjects and the stream *)

Lemma jet_subject_bus k s : jet_subject k = Some s → ∃ r, s = "stream." +:+ r ∧ subject_of k = "msg." +:+ r.
Proof. destruct k; cbn; intros [= <-]; by eexists. Qed.

Lemma jet_subject_inj k k' s :
  in_table k → in_table k' → known_key k → jet_subject k = Some s → jet_subject k' = Some s → k = k'.
Proof.
  intros Hk Hk' Hn (r & -> & E)%jet_subject_bus (r' & E' & E'')%jet_subject_bus.
  apply subject_of_inj; [done..|]. assert (r = r') as -> by (by injection E'). by rewrite E, E''.
Qed.

Lemma jet_stream_on_key k s n w :
  in_table k → known_key k → jet_subject k = Some s → (∀ e, e ∈ w → in_table e.1) →
  Forall (λ t, ft_buf t ≠ []) (on_key k w) →
  snd <$> filter (λ e : string * flushTask, e.1 = s) (omap id (imap (λ i, jet_publish (λ _, true) (n + i)) w)) = on_key k w.
Proof.
  intros Hk Hn Hs. revert n. induction w as [|[k' t] w IH]; intros n Hw Hf; [done|].
  assert (Hstep : ∀ n, imap (λ i, jet_publish (λ _, true) (n + i)) ((k', t) :: w) =
                       jet_publish (λ _, true) n (k', t) :: imap (λ i, jet_publish (λ _, true) (S n + i)) w).
  { intros m. cbn [imap]. rewrite Nat.add_0_r. by f_equal. }
  rewrite Hstep. assert (Hw' : ∀ e, e ∈ w → in_table e.1) by (intros e He; apply Hw; by right).
  change ((k', t) :: w) with ([(k', t)] ++ w) in Hf |- *. rewrite on_key_app in *. apply Forall_app in Hf as [Hf1 Hf2].
  rewrite <- (IH (S n) Hw' Hf2). unfold jet_publish at 1. cbn [fst snd]. destruct (decide (k = k')) as [<-|Hne].
  - change [(k, t)] with (pair k <$> [t]) in *. rewrite on_key_same in *. inversion Hf1 as [|? ? Ht _]; subst.
    rewrite decide_False by done. rewrite Hs. cbn [omap list_omap id fmap option_fmap option_map].
    by rewrite filter_cons_True by done.
  - change [(k', t)] with (pair k' <$> [t]). rewrite on_key_other by done. cbn [app].
    destruct (decide (ft_buf t = [])); [done|]. destruct (jet_subject k') as [s'|] eqn:Es; [|done].
    cbn [omap list_omap id fmap option_fmap option_map]. rewrite filter_cons_False; [done|]. cbn. intros ->. apply Hne.
    apply (jet_subject_inj k k' s); [done| |done..]. apply (Hw (k', t)). by left.
Qed.

(** ** Deliveries *)

Definition noReply (m : Message) : Message := SetReply m EmptyString.

Lemma decoded_task reply t ms : task_for t ms → Forall msg_wf ms → decoded reply t = Some ((λ m, SetReply m reply) <$> ms).
Proof.
  intros Ht Hw. pose proof (task_received reply t ms Ht Hw) as H. unfold received in H. unfold decoded.
  destruct (DecodeManyAndHandle _ _ _ _ _) as [[[[e|] sm] l]|]; [done| |done]. done.
Qed.

(** What was sent is what was handled and what is pending; exactly, if no
    acknowledgement failed. *)
Definition dinv (sent : list Message) (c : consumer) : Prop :=
  ∃ mss, Forall2 task_for (co_pending c) mss ∧ Forall msg_wf (mjoin mss) ∧
    (∀ m, m ∈ sent ↔ m ∈ (noReply <$> co_handled c) ++ mjoin mss) ∧
    (co_failed c = 0%nat → (noReply <$> co_handled c) ++ mjoin mss ≡ₚ sent).

Lemma dinv_preserved sent : (∀ m, m ∈ sent → msg_reply m = EmptyString) → preserved dstep (dinv sent).
Proof.
  intros Hrep c c' Hs. destruct Hs as [pre t rest h f reply l ack El]. intros (mss & Hp & Hw & Hm & Hx).
  cbn [co_pending co_handled co_failed] in *.
  apply Forall2_app_inv_l in Hp as (mss1 & mss' & Hp1 & Hp2 & ->). apply Forall2_cons_inv_l in Hp2 as (ms & mss2 & Ht & Hp2 & ->).
  rewrite join_app in *. change (mjoin (ms :: mss2)) with (ms ++ mjoin mss2) in *.
  apply Forall_app in Hw as [Hw1 Hw2]. apply Forall_app in Hw2 as [Hw0 Hw2].
  rewrite (decoded_task reply t ms Ht Hw0) in El. injection El as <-.
  assert (Hn : noReply <$> ((λ m, SetReply m reply) <$> ms) = ms).
  { rewrite <- list_fmap_compose. rewrite <- (list_fmap_id ms) at 2. apply list_fmap_ext. intros i m Hi.
    assert (Hin : m ∈ sent). { apply Hm, elem_of_app. right. apply elem_of_app. right. apply elem_of_app. left.
      by eapply list_elem_of_lookup_2. }
    specialize (Hrep m Hin). destruct m as [hd d r]. cbn in *. by subst. }
  unfold dinv. cbn [co_pending co_handled co_failed]. rewrite fmap_app, Hn. destruct ack.
  - exists (mss1 ++ mss2). rewrite join_app. splits; [by apply Forall2_app|by apply Forall_app| |].
    + intros m. rewrite Hm, !elem_of_app. tauto.
    + intros Hf. rewrite <- Hx by done. solve_Permutation.
  - exists (mss1 ++ ms :: mss2). rewrite join_app. change (mjoin (ms :: mss2)) with (ms ++ mjoin mss2).
    splits; [by apply Forall2_app; [|constructor]|by repeat (apply Forall_app; split)| |done].
    intros m. rewrite Hm, !elem_of_app. tauto.
Qed.

(** ** Properties *)

(** C26. The durable queue delivers at least once: after any sequence of sends and ticker
    flushes and a shutdown, with every publication accepted by the stream, a consumer of a
    node's (or service's) subject only ever hands over messages that were sent to it; once
    no batch is pending, however the deliveries were ordered and however many
    acknowledgements failed, it has handed over every message sent to it; and if none
    failed, each of them exactly once. Each arrives with the head and payload it was sent
    with. *)
Theorem durable_queue_at_least_once cap stale st si ops k subj :
  buffSize ≤ cap → (∀ n, 0 ≤ n → len (stale n) = n) → Forall jetOk ops →
  in_table k → known_key k → jet_subject k = Some subj → Forall msg_wf (jetSent st si k ops) →
  ∃ jt, jetRun cap stale ops (Some (freshBus st si)) = Some jt ∧
    ∀ c, rtc dstep (jet_consumer subj (jet_stream (λ _, true) (bus_wire (jet_Shutdown jt)))) c →
      (∀ m, m ∈ noReply <$> co_handled c → m ∈ jetSent st si k ops) ∧
      (co_pending c = [] → (∀ m, m ∈ jetSent st si k ops → m ∈ noReply <$> co_handled c) ∧
         (co_failed c = 0%nat → noReply <$> co_handled c ≡ₚ jetSent st si k ops)).
Proof.
  intros Hc Hst Hok Hk Hn Hs Hw. destruct (jetRun_inv cap stale st si ops Hc Hst Hok) as (jt & E & Hinv).
  exists jt. split; [done|]. intros c Hr.
  assert (Hsd : jet_Shutdown jt = Close jt) by (unfold jet_Shutdown; destruct Hinv as (_ & _ & -> & _); done).
  rewrite Hsd in Hr. destruct (Close_spec st si jt _ Hinv) as (_ & Ht & Hcl). destruct (Hcl k Hk) as [(mss & H1 & H2) _].
  assert (Hne : Forall (λ t, ft_buf t ≠ []) (on_key k (bus_wire (Close jt)))).
  { clear -H1. induction H1 as [|t ms ts mss (E & _ & Hne & _) _ IH]; constructor; [|done]. rewrite E. intros E0.
    apply Hne, len_frames_of_0. rewrite E0. rewrite len_nil. lia. }
  assert (Hi : dinv (jetSent st si k ops) c).
  { eapply rtc_preserved; [apply dinv_preserved|exact Hr|].
    - intros m Hm. unfold jetSent in Hm. apply list_elem_of_omap in Hm as (o & _ & Ho).
      destruct o; cbn [jetTarget mbind option_bind] in Ho; [destruct (decide _); [by injection Ho as <-|done]..|done].
    - exists mss. unfold jet_consumer, jet_stream. cbn [co_pending co_handled co_failed fmap list_fmap app].
      pose proof (jet_stream_on_key k subj 0 (bus_wire (Close jt)) Hk Hn Hs Ht Hne) as Hstr. cbn [Nat.add] in Hstr.
      change (imap (λ i, jet_publish (λ _, true) i)) with (imap (jet_publish (λ _, true))) in Hstr.
      rewrite H2. splits; [by rewrite Hstr|done..]. }
  destruct Hi as (mss' & Hp & _ & Hm & Hx). split.
  - intros m Hin. apply Hm, elem_of_app. by left.
  - intros E0. rewrite E0 in Hp. apply Forall2_nil_inv_l in Hp as ->. cbn in Hm, Hx. rewrite app_nil_r in *. split; [|done].
    intros m Hin. by apply Hm.
Qed.

Definition demoJet : list jetOp := [JNode 2 1 7 [1] 9 8; JAny 2 5 [3] 0 0; JTick (KNode 2 1); JNode 2 1 8 [] 9 8].

Lemma durable_queue_at_least_once_witness :
  ∃ jt c, jetRun buffSize zeros demoJet (Some (freshBus 3 2)) = Some jt ∧
    rtc dstep (jet_consumer "stream.Game.node.1" (jet_stream (λ _, true) (bus_wire (jet_Shutdown jt)))) c ∧
    co_pending c = [] ∧ co_failed c = 1%nat ∧ ∀ m, m ∈ jetSent 3 2 (KNode 2 1) demoJet → m ∈ noReply <$> co_handled c.
Proof.
  destruct (durable_queue_at_least_once buffSize zeros 3 2 demoJet (KNode 2 1) "stream.Game.node.1") as (jt & E & H).
  - done.
  - exact len_zeros.
  - repeat constructor; unfold SvcTypeMax, SvcIDMax; cbn; lia.
  - done.
  - by eexists.
  - reflexivity.
  - repeat constructor; vm_compute; congruence.
  - exists jt. assert (∃ c, rtc dstep (jet_consumer "stream.Game.node.1" (jet_stream (λ _, true) (bus_wire (jet_Shutdown jt)))) c ∧
      co_pending c = [] ∧ co_failed c = 1%nat) as (c & Hr & Hp & Hf).
    { vm_compute in E. injection E as <-. eexists. split.
      - match goal with |- rtc _ ?a _ => let b := eval vm_compute in a in change a with b end.
        eapply rtc_l; [eapply (d_deliver [] _ _ _ _ "r1" _ false); vm_compute; reflexivity|].
        eapply rtc_l; [eapply (d_deliver [] _ _ _ _ "r2" _ true); vm_compute; reflexivity|].
        eapply rtc_l; [eapply (d_deliver [] _ _ _ _ "r3" _ true); vm_compute; reflexivity|]. apply rtc_refl.
      - split; reflexivity. }
    exists c. split; [exact E|]. split; [exact Hr|]. split; [exact Hp|]. split; [exact Hf|]. by apply (H c Hr).
Defined.

(** ** Pulling: pull.go

    One turn of [Start]: each fetched batch is decoded; all of them are acknowledged, those
    that do not decode at once and the others at the end. [ack] says which
    acknowledgements reach the server. *)

Definition pullBatch (reply : string) (t : flushTask) : option (list Message * bool) :=
  match DecodeManyAndHandle reply (λ m l, l ++ [m]) (ft_buf t) (mkSub 0 ∅) [] with
  | Some (None, _, l) => Some (l, true)
  | Some (Some _, _, l) => Some (l, false)
  | None => None
  end.

(** The fetched batches with their reply subjects: what the callback received, and which
    of the batches were acknowledged early and late. *)
Fixpoint pullTurn (ts : list (string * flushTask)) : option (list Message * list flushTask * list flushTask) :=
  match ts with
  | [] => Some ([], [], [])
  | (reply, t) :: ts =>
      '(l, ok) ← pullBatch reply t;
      '(ls, early, late) ← pullTurn ts;
      Some (if ok : bool then (l ++ ls, early, t :: late) else (l ++ ls, t :: early, late))
  end.

(** A turn hands over exactly the messages of the fetched batches, in order, and
    acknowledges all of them at its end. *)
Lemma pullTurn_complete ts mss :
  Forall2 (λ rt ms, task_for rt.2 ms) ts mss → Forall msg_wf (mjoin mss) →
  ∃ l, pullTurn ts = Some (l, [], ts.*2) ∧ noReply <$> l = noReply <$> mjoin mss.
Proof.
  induction 1 as [|[reply t] ms ts mss Ht Hts IH]; intros Hw; [by exists []|].
  change (mjoin (ms :: mss)) with (ms ++ mjoin mss) in *. apply Forall_app in Hw as [Hw1 Hw2]. cbn [pullTurn].
  assert (E : pullBatch reply t = Some ((λ m, SetReply m reply) <$> ms, true)).
  { pose proof (task_received reply t ms Ht Hw1) as H. unfold received in H. unfold pullBatch.
    destruct (DecodeManyAndHandle _ _ _ _ _) as [[[[e|] sm] l]|]; try done. by injection H as ->. }
  destruct (IH Hw2) as (l & El & Hl). rewrite E. cbn [mbind option_bind]. rewrite El. cbn [mbind option_bind].
  eexists. split; [done|]. rewrite !fmap_app, Hl. f_equal. by rewrite <- list_fmap_compose.
Qed.
