(* ===== verification/JetServer.v ===== *)
(** * pkg/gnet/jetq: streams, consumers and acknowledgements

    [Init], [initGlobalStream], [sub], [Serve], [NewPullConsumer] and [Shutdown] over the
    JetStream service, which is an interface here: its operations are parameters and what
    the code relies on are laws. Then the acknowledgements of publications: the channel of a
    [PubBatcher] and its two workers. What is stored and delivered is in [Jetq.v]. *)

From S2P Require Import Prelude Gmsg Batcher DataBus Redis Account Discovery Util Jetq.

(** ** The service *)

(** The subject pattern of a stream, and the filter and [MaxAckPending] of a durable
    consumer of a stream, as the service keeps them. *)
Class JetAPI := {
  jsState : Type;
  streamAt : jsState → string → option string;
  durableAt : jsState → string * string → option (string * Z);
  CreateOrUpdateStream : string → string → jsState → result jsState;
  CreateOrUpdateConsumer : string → string → string → Z → jsState → result jsState;
  subjectMatch : string → string → bool
}.

(** By documentation: an accepted request sets the entry of its name and no other, and
    [p.>] matches what has one token or more after [p]. *)
Class JetLaws (A : JetAPI) : Prop := {
  stream_set n w s s' : CreateOrUpdateStream n w s = Ok s' →
    (∀ n', streamAt s' n' = if decide (n = n') then Some w else streamAt s n') ∧ ∀ k, durableAt s' k = durableAt s k;
  consumer_set n c f m s s' : CreateOrUpdateConsumer n c f m s = Ok s' →
    (∀ n', streamAt s' n' = streamAt s n') ∧
    ∀ k, durableAt s' k = if decide ((n, c) = k) then Some (f, m) else durableAt s k;
  match_tail p s : subjectMatch (p +:+ ".>") s = true ↔ ∃ r, r ≠ EmptyString ∧ s = p +:+ "." +:+ r
}.

Definition cDot : Ascii.ascii := Ascii.ascii_of_nat 46.
Definition cUnder : Ascii.ascii := Ascii.ascii_of_nat 95.

(** [strings.ReplaceAll(subject, ".", "_")]. *)
Fixpoint replaceDots (s : string) : string :=
  match s with EmptyString => EmptyString | String a s => String (if decide (a = cDot) then cUnder else a) (replaceDots s) end.

(** ** The client *)

(** The consumers being consumed and whether the context is cancelled; [closed] and the
    batchers are in [DataBus]. *)
Record JetStream := mkJT { jt_serType : Z; jt_serID : Z; jt_consContext : list string; jt_cancelled : bool }.

(** [Init]: a connection and a JetStream context, or the error of either. *)
Definition jet_Init (connect jetstream : result unit) (serType serID : Z) : result JetStream :=
  match connect, jetstream with
  | Err e, _ => Err e
  | Ok _, Err e => Err e
  | Ok _, Ok _ => Ok (mkJT (u8 serType) serID [] false)
  end.

Section Client.
Context {A : JetAPI}.

Definition initGlobalStream (serType : Z) (js : jsState) : result jsState :=
  CreateOrUpdateStream (getStreamName serType) (getStreamWildcardSubject serType) js.

(** [consume]: whether [Consume] starts. *)
Definition jet_sub (consume : result unit) (subject : string) (jt : JetStream) (js : jsState) : result (JetStream * jsState) :=
  let consumerName := replaceDots subject in
  match CreateOrUpdateConsumer (getStreamName (jt_serType jt)) consumerName subject 10000 js with
  | Err e => Err e
  | Ok js => match consume with
             | Err e => Err e
             | Ok _ => Ok (mkJT (jt_serType jt) (jt_serID jt) (jt_consContext jt ++ [subject]) (jt_cancelled jt), js)
             end
  end.

(** The loop of [Serve]: it stops at the first error. *)
Fixpoint subAll (consume : result unit) (subjects : list string) (jt : JetStream) (js : jsState) : result (JetStream * jsState) :=
  match subjects with
  | [] => Ok (jt, js)
  | s :: subjects => match jet_sub consume s jt js with Err e => Err e | Ok (jt, js) => subAll consume subjects jt js end
  end.

Definition jt_Serve (consume : result unit) (jt : JetStream) (js : jsState) : result (JetStream * jsState) :=
  match initGlobalStream (jt_serType jt) js with
  | Err e => Err e
  | Ok js => subAll consume (jet_Serve (jt_serType jt) (jt_serID jt)) jt js
  end.

Definition NewPullConsumer (subject : string) (jt : JetStream) (js : jsState) : result jsState :=
  match initGlobalStream (jt_serType jt) js with
  | Err e => Err e
  | Ok js => CreateOrUpdateConsumer (getStreamName (jt_serType jt)) (replaceDots subject) subject 2000 js
  end.

(** Servers start one after another: each makes its client with [Init] and serves. *)
Fixpoint serveJet (servers : list (Z * Z)) (js : jsState) : result jsState :=
  match servers with
  | [] => Ok js
  | p :: servers => match jet_Init (Ok ()) (Ok ()) p.1 p.2 with
                    | Err e => Err e
                    | Ok jt => match jt_Serve (Ok ()) jt js with
                               | Err e => Err e
                               | Ok (_, js) => serveJet servers js
                               end
                    end
  end.

End Client.

(** The end of [Shutdown]: every consumer is stopped and the context cancelled. *)
Definition jt_Shutdown (jt : JetStream) : JetStream := mkJT (jt_serType jt) (jt_serID jt) [] true.

(** ** Names *)

Lemma replaceDots_inj s t : count cUnder s = 0%nat → count cUnder t = 0%nat → replaceDots s = replaceDots t → s = t.
Proof.
  revert t. induction s as [|a s IH]; intros [|b t] Hs Ht E; try done. cbn in Hs, Ht, E. injection E as Ea E.
  destruct (decide (a = cUnder)), (decide (b = cUnder)); try lia.
  rewrite (IH t) by (done || lia). f_equal. destruct (decide (a = cDot)), (decide (b = cDot)); congruence.
Qed.

Lemma Itoa_no_under i : 0 ≤ i → count cUnder (Itoa i) = 0%nat.
Proof. intros Hi. destruct (Itoa_digits i Hi) as [_ E]. by eapply count_digits. Qed.

Definition nodeOk (p : Z * Z) : Prop := known p.1 ∧ 0 ≤ p.1 < SvcTypeMax ∧ 0 ≤ p.2 < SvcIDMax.

Lemma name_no_under t : known t → count cUnder (SrvName t) = 0%nat ∧ count cDot (SrvName t) = 0%nat.
Proof. intros Hk%known_cases. rewrite !elem_of_cons in Hk. by repeat destruct Hk as [->|Hk]; [..|by apply elem_of_nil in Hk]. Qed.

Lemma subjects_no_under p s : nodeOk p → s ∈ jet_Serve p.1 p.2 → count cUnder s = 0%nat.
Proof.
  intros (Hk & _ & Hi) Hs. destruct (name_no_under p.1 Hk) as [Hn _]. unfold jet_Serve in Hs.
  rewrite !elem_of_cons, elem_of_nil in Hs. destruct Hs as [->|[->|[]]]; unfold getNodeSubject, getAnySubject;
    rewrite !count_app, Hn, ?Itoa_no_under by lia; done.
Qed.

(** Two subjects with the same consumer name are the same. *)
Lemma consumer_name_inj p q s s' :
  nodeOk p → nodeOk q → s ∈ jet_Serve p.1 p.2 → s' ∈ jet_Serve q.1 q.2 → replaceDots s = replaceDots s' → s = s'.
Proof. intros. apply replaceDots_inj; [by eapply (subjects_no_under p)|by eapply (subjects_no_under q)|done]. Qed.

Lemma known_name_inj t t' : known t → known t' → SrvName t = SrvName t' → t = t'.
Proof. intros. by apply SrvName_inj; [apply known_cases|apply known_cases|]. Qed.

Lemma streamName_inj t t' : known t → known t' → getStreamName t = getStreamName t' → t = t'.
Proof. intros Ht Ht' E. injection E as E. by apply known_name_inj. Qed.

Lemma Split_stream n r : count cDot n = 0%nat → Split cDot ("stream." +:+ n +:+ String cDot r) = "stream" :: n :: Split cDot r.
Proof. intros Hn. change ("stream." +:+ ?x) with ("stream" +:+ String cDot x). by rewrite !Split_app. Qed.

(** A stream's pattern matches the subjects of its own service only. *)
Lemma wildcard_match `{JetLaws} t t' r : known t → known t' → r ≠ EmptyString →
  subjectMatch (getStreamWildcardSubject t) ("stream." +:+ SrvName t' +:+ String cDot r) = true ↔ t = t'.
Proof.
  intros Ht Ht' Hr. unfold getStreamWildcardSubject. rewrite append_assoc, match_tail. split.
  - intros (r' & Hr' & E). rewrite <- !append_assoc in E. apply (f_equal (Split cDot)) in E.
    change ("." +:+ r') with (String cDot r') in E. rewrite !Split_stream in E by by apply name_no_under.
    injection E as E _. by apply known_name_inj.
  - intros ->. exists r. by rewrite <- append_assoc.
Qed.

Lemma jet_subject_tail k s : jet_subject k = Some s →
  ∃ r, r ≠ EmptyString ∧ s = "stream." +:+ SrvName (key_type k) +:+ String cDot r.
Proof. destruct k; cbn; intros [= <-]; eexists; (split; [|reflexivity]); done. Qed.

Lemma jet_Serve_keys t i s : s ∈ jet_Serve t i ↔ ∃ k, jet_subject k = Some s ∧ key_type k = t ∧ match k with KNode _ j => i = j | _ => True end.
Proof.
  unfold jet_Serve. rewrite !elem_of_cons, elem_of_nil. split.
  - intros [->|[->|[]]]; [by exists (KNode t i)|by exists (KAny t)].
  - intros ([t' j|t'|t'] & E & <- & Hj); cbn in E, Hj; simplify_eq; auto.
Qed.

(** ** Servers that serve *)

Section Serving.
Context `{JetLaws}.

(** There is a stream per service and a durable consumer per subject of [l]. *)
Definition jsHas (l : list (Z * Z)) (js : jsState) : Prop :=
  (∀ n w, streamAt js n = Some w ↔ ∃ p, p ∈ l ∧ n = getStreamName p.1 ∧ w = getStreamWildcardSubject p.1) ∧
  (∀ key c, durableAt js key = Some c ↔
     ∃ p s, p ∈ l ∧ s ∈ jet_Serve p.1 p.2 ∧ key = (getStreamName p.1, replaceDots s) ∧ c = (s, 10000)).

(** A durable table that records the subjects of [Q], and one more. *)
Definition recorded (Q : string → string → Prop) (js : jsState) : Prop :=
  ∀ key c, durableAt js key = Some c ↔ ∃ n s, Q n s ∧ key = (n, replaceDots s) ∧ c = (s, 10000).

Lemma recorded_sub Q p s jt js jt' js' :
  jt_serType jt = p.1 → nodeOk p → s ∈ jet_Serve p.1 p.2 →
  (∀ n s, Q n s → ∃ q, nodeOk q ∧ s ∈ jet_Serve q.1 q.2) →
  jet_sub (Ok ()) s jt js = Ok (jt', js') → recorded Q js →
  recorded (λ n s', Q n s' ∨ n = getStreamName p.1 ∧ s' = s) js' ∧ (∀ n, streamAt js' n = streamAt js n) ∧ jt_serType jt' = p.1.
Proof.
  intros Ht Hp Hs HQ E HR. unfold jet_sub in E. rewrite Ht in E.
  destruct (CreateOrUpdateConsumer _ _ _ _ _) as [js1|] eqn:Ec; [|done]. injection E as <- <-.
  destruct (consumer_set _ _ _ _ _ _ Ec) as [Hst Hd]. splits; [|done..]. intros key c. rewrite Hd. clear Hd.
  destruct (decide _) as [<-|Hne].
  - split.
    + intros [= <-]. exists (getStreamName p.1), s. auto.
    + intros (n & s' & [HQs|[-> ->]] & Ek & ->); [|done]. injection Ek as _ En. destruct (HQ n s' HQs) as (q & Hq & Hin).
      by rewrite (consumer_name_inj p q s s').
  - rewrite (HR key c). split; intros (n & s' & Hns & Ek & ->); exists n, s'; [by auto|].
    destruct Hns as [?|[-> ->]]; [done|]. by rewrite Ek in Hne.
Qed.

Lemma jsHas_serve l p jt js jt' js' :
  Forall nodeOk l → nodeOk p → jt_serType jt = p.1 → jt_serID jt = p.2 → jsHas l js →
  jt_Serve (Ok ()) jt js = Ok (jt', js') → jsHas (l ++ [p]) js'.
Proof.
  intros Hl Hp Ht Hi [Hs Hd] E. unfold jt_Serve, initGlobalStream in E. rewrite Ht, Hi in E.
  destruct (CreateOrUpdateStream _ _ _) as [js1|] eqn:E1; [|done]. destruct (stream_set _ _ _ _ E1) as [Hs1 Hd1].
  unfold jet_Serve in E. cbn [subAll] in E. destruct (jet_sub _ _ jt js1) as [[jt2 js2]|] eqn:E2; [|done].
  destruct (jet_sub _ _ jt2 js2) as [[jt3 js3]|] eqn:E3; [|done]. injection E as <- <-.
  pose (Q := λ n s, ∃ q, q ∈ l ∧ n = getStreamName q.1 ∧ s ∈ jet_Serve q.1 q.2).
  assert (HQ : ∀ n s, Q n s → ∃ q, nodeOk q ∧ s ∈ jet_Serve q.1 q.2).
  { intros n s (q & Hq & _ & Hin). exists q. by rewrite Forall_forall in Hl; auto. }
  assert (HR : recorded Q js1).
  { intros key c. rewrite Hd1, Hd. unfold Q. split.
    - intros (q & s & ? & ? & -> & ->). eauto 10.
    - intros (n & s & (q & ? & -> & ?) & -> & ->). eauto 10. }
  assert (Hnode : getNodeSubject p.1 p.2 ∈ jet_Serve p.1 p.2) by by left.
  assert (Hany : getAnySubject p.1 ∈ jet_Serve p.1 p.2) by (right; by left).
  destruct (recorded_sub Q p _ jt js1 jt2 js2 Ht Hp Hnode HQ E2 HR) as (HR2 & Hs2 & Ht2).
  assert (HQ2 : ∀ n s, Q n s ∨ n = getStreamName p.1 ∧ s = getNodeSubject p.1 p.2 → ∃ q, nodeOk q ∧ s ∈ jet_Serve q.1 q.2).
  { intros n s [?|[_ ->]]; eauto. }
  destruct (recorded_sub _ p _ jt2 js2 jt3 js3 Ht2 Hp Hany HQ2 E3 HR2) as (HR3 & Hs3 & _).
  split.
  - intros n w. rewrite Hs3, Hs2, Hs1. setoid_rewrite elem_of_app. setoid_rewrite list_elem_of_singleton.
    destruct (decide _) as [<-|Hne]; [|rewrite Hs].
    + split; [intros [= <-]; eauto|]. intros (q & Hq & En & ->). f_equal. f_equal. apply streamName_inj; [by apply Hp| |done].
      destruct Hq as [Hq| ->]; [|by apply Hp]. rewrite Forall_forall in Hl. by apply Hl.
    + split; [intros (q & ? & ?); eauto|]. intros (q & [Hq| ->] & ->& ->); [eauto|done].
  - intros key c. rewrite (HR3 key c). unfold Q. setoid_rewrite elem_of_app. setoid_rewrite list_elem_of_singleton. split.
    + intros (n & s & [[(q & ? & -> & ?)|[-> ->]]|[-> ->]] & ? & ?); eauto 10.
    + intros (q & s & [Hq| ->] & Hin & -> & ->); [eauto 12|]. unfold jet_Serve in Hin.
      rewrite !elem_of_cons, elem_of_nil in Hin. destruct Hin as [->|[->|[]]]; eauto 8.
Qed.

Lemma serveJet_has l servers js js' :
  Forall nodeOk l → Forall nodeOk servers → jsHas l js → serveJet servers js = Ok js' → jsHas (l ++ servers) js'.
Proof.
  intros Hl Hs. revert l js Hl. induction Hs as [|p servers Hp Hs IH]; intros l js Hl Hj E.
  { injection E as <-. by rewrite app_nil_r. }
  cbn [serveJet jet_Init] in E. destruct (jt_Serve _ _ _) as [[jt1 js1]|] eqn:E1; [|done].
  replace (l ++ p :: servers) with ((l ++ [p]) ++ servers) by (by rewrite <- app_assoc). apply (IH (l ++ [p]) js1); [apply Forall_app; auto| |done].
  eapply (jsHas_serve l p); [..|exact E1]; [done..| |done|done]. cbn [jt_serType].
  destruct Hp as (_ & Ht & _). unfold SvcTypeMax in Ht. apply u8_id. unfold is_u8. lia.
Qed.

(** The node a subject is served by: node [i] for the subject of node [i], any for the
    subject of any node. *)
Definition servesKey (k : bkey) (i : Z) : Prop := match k with KNode _ j => i = j | _ => True end.

(** C27. Where durable messages go: after any servers have started against an empty
    JetStream, one stream at most stores the messages of a node's (or service's) subject,
    that of the service, and it exists exactly if a server of that service has started (a
    message published before that matches no stream and is lost); and one durable consumer
    at most reads the subject, named after it, which exists exactly if that node (or any
    node of the service) has started: the streams of two services never share a message,
    and the consumers of two nodes never take each other's. *)
Theorem durable_routing servers js0 js k subj :
  (∀ n, streamAt js0 n = None) → (∀ key, durableAt js0 key = None) →
  Forall nodeOk servers → serveJet servers js0 = Ok js →
  in_table k → known_key k → jet_subject k = Some subj →
  (∀ n w, streamAt js n = Some w ∧ subjectMatch w subj = true ↔
     n = getStreamName (key_type k) ∧ w = getStreamWildcardSubject (key_type k) ∧ ∃ i, (key_type k, i) ∈ servers) ∧
  (∀ key c, durableAt js key = Some c ∧ c.1 = subj ↔
     key = (getStreamName (key_type k), replaceDots subj) ∧ c = (subj, 10000) ∧
     ∃ i, (key_type k, i) ∈ servers ∧ servesKey k i).
Proof.
  intros Hs0 Hd0 Hok E Hk Hn Es. assert (Hj0 : jsHas [] js0).
  { split; [intros n w; rewrite Hs0|intros key c; rewrite Hd0]; (split; [done|]).
    - by intros (? & ?%elem_of_nil & _).
    - by intros (? & ? & ?%elem_of_nil & _). }
  destruct (serveJet_has [] servers js0 js (Forall_nil_2 _) Hok Hj0 E) as [Hs Hd]. rewrite app_nil_l in *.
  assert (Hkn : known (key_type k)) by by destruct k.
  destruct (jet_subject_tail k subj Es) as (r & Hr & Er). rewrite Forall_forall in Hok. split.
  - intros n w. rewrite Hs. split.
    + intros [([t i] & Hp & -> & ->) Hm]. cbn [fst] in *. rewrite Er in Hm.
      apply wildcard_match in Hm as ->; [eauto|by apply (Hok (t, i))|done..].
    + intros (-> & -> & i & Hi). split; [by exists (key_type k, i)|]. rewrite Er. by apply wildcard_match.
  - intros key c. rewrite Hd. split.
    + intros [([t i] & s & Hp & Hin & -> & ->) Ec]. cbn [fst snd] in *. subst s.
      apply jet_Serve_keys in Hin as (k' & Es' & Ht' & Hi'). destruct (Hok _ Hp) as (Hkt & Ht & Hii). cbn [fst snd] in *.
      assert (k = k') as <-.
      { apply (jet_subject_inj k k' subj); [done| |done..]. destruct k'; cbn in Es', Ht', Hi'; simplify_eq;
          unfold in_table, key_check; repeat rewrite decide_False by lia; try done; by rewrite ?decide_True by lia. }
      subst t. splits; [done..|]. by exists i.
    + intros (-> & -> & i & Hi & Hsk). split; [|done]. exists (key_type k, i), subj. splits; [done| |done..]. cbn [fst snd].
      apply jet_Serve_keys. by exists k.
Qed.

End Serving.

(** A service that keeps its entries in maps and accepts everything. *)
Fixpoint tailMatch (p s : string) : bool :=
  match p, s with
  | EmptyString, EmptyString => true
  | String a p', String b s' =>
      if decide (a = Ascii.ascii_of_nat 62 ∧ p' = EmptyString) then true
      else bool_decide (a = b) && tailMatch p' s'
  | _, _ => false
  end.

Definition mapJet : JetAPI := {|
  jsState := gmap string string * gmap (string * string) (string * Z);
  streamAt js n := js.1 !! n;
  durableAt js k := js.2 !! k;
  CreateOrUpdateStream n w js := Ok (<[n := w]> js.1, js.2);
  CreateOrUpdateConsumer n c f m js := Ok (js.1, <[(n, c) := (f, m)]> js.2);
  subjectMatch := tailMatch
|}.

Lemma tailMatch_spec p s : tailMatch (p +:+ ".>") s = true ↔ ∃ r, r ≠ EmptyString ∧ s = p +:+ "." +:+ r.
Proof.
  revert s. induction p as [|a p IH]; intros s.
  - change (EmptyString +:+ ?x) with x. setoid_rewrite append_nil_l. destruct s as [|b [|c s]].
    + split; [done|]. by intros (? & _ & ?).
    + cbn [tailMatch]. rewrite decide_False by (by intros []). rewrite andb_false_r. split; [done|].
      intros (r & Hr & E). change ("." +:+ r) with (String cDot r) in E. by injection E as _ <-.
    + cbn [tailMatch]. rewrite decide_False by (by intros []). rewrite decide_True by done. rewrite andb_true_r, bool_decide_eq_true. split.
      * intros <-. by exists (String c s).
      * intros (r & Hr & E). change ("." +:+ r) with (String cDot r) in E. by injection E.
  - rewrite append_cons. setoid_rewrite append_cons. destruct s as [|b s].
    + split; [by destruct (p +:+ ".>")|]. by intros (? & _ & ?).
    + cbn [tailMatch]. rewrite decide_False by (intros [_ E]; destruct p; by rewrite ?append_cons in E).
      rewrite andb_true_iff, bool_decide_eq_true, IH. split.
      * intros [<- (r & Hr & ->)]. by exists r.
      * intros (r & Hr & E). injection E as <- ->. eauto.
Qed.

#[export] Instance mapJet_laws : JetLaws mapJet.
Proof.
  split; cbn; [| |apply tailMatch_spec]; intros; simplify_eq; cbn; (split; [|done]) || (split; [done|]); intros; case_decide; subst;
    by rewrite ?lookup_insert_eq, ?lookup_insert_ne.
Qed.

Definition demoServers : list (Z * Z) := [(2, 1); (2, 3); (3, 1)].

Definition demoStarted : jsState (JetAPI := mapJet) :=
  match serveJet (A := mapJet) demoServers (∅, ∅) with Ok js => js | Err _ => (∅, ∅) end.

Lemma durable_routing_witness :
  durableAt (JetAPI := mapJet) demoStarted ("Stream_Game", "stream_Game_node_3") = Some ("stream.Game.node.3", 10000) ∧
  "stream.Game.node.3" = "stream.Game.node.3".
Proof.
  apply (durable_routing (A := mapJet) demoServers (∅, ∅) demoStarted (KNode 2 3) "stream.Game.node.3").
  - intros n. apply lookup_empty.
  - intros key. apply lookup_empty.
  - repeat constructor; vm_compute; (done || by eexists).
  - reflexivity.
  - vm_compute. reflexivity.
  - vm_compute. by eexists.
  - vm_compute. reflexivity.
  - split; [vm_compute; reflexivity|]. split; [vm_compute; reflexivity|]. exists 3. split; [|reflexivity]. right. left.
Defined.

(** ** Acknowledgements of publications *)

Definition ackCap : Z := 40960.

(** A worker of [ackWorker]: at its [select], in [waitAck], or returned. *)
Inductive worker := WSelect | WWait (subject : string) | WReturned.
(** How [waitAck] ends; only the first is silent. *)
Inductive ackOutcome := AckOk | AckErr | AckTimeout.

(** What was published, the channel, the workers, the publications whose acknowledgement
    nobody waits for because the channel was full, and how the others ended. *)
Record PubBatcher := mkPB { pb_published : list (string * flushTask); pb_ack : list string;
  pb_workers : list worker; pb_full : Z; pb_ended : list ackOutcome }.

Definition NewPubBatcher : PubBatcher := mkPB [] [] (replicate 2 WSelect) 0 [].

(** The callback given to [pub.NewBatcher]. *)
Definition publishCb (ok : bool) (subject : string) (t : flushTask) (tb : PubBatcher) : PubBatcher :=
  if decide (ft_buf t = []) then tb
  else if negb ok then tb
  else if decide (len (pb_ack tb) < ackCap)
       then mkPB (pb_published tb ++ [(subject, t)]) (pb_ack tb ++ [subject]) (pb_workers tb) (pb_full tb) (pb_ended tb)
       else mkPB (pb_published tb ++ [(subject, t)]) (pb_ack tb) (pb_workers tb) (pb_full tb + 1) (pb_ended tb).

Definition setWorker (i : nat) (w : worker) (ack : list string) (ended : list ackOutcome) (tb : PubBatcher) : PubBatcher :=
  mkPB (pb_published tb) ack (<[i := w]> (pb_workers tb)) (pb_full tb) ended.

(** Steps of the batcher's goroutine and of the two workers; [waitAck] ends by its timer at
    the latest. *)
Inductive ackStep (subject : string) (cancelled : bool) : PubBatcher → PubBatcher → Prop :=
| ak_publish ok t tb : ackStep subject cancelled tb (publishCb ok subject t tb)
| ak_take i s rest tb : pb_workers tb !! i = Some WSelect → pb_ack tb = s :: rest →
    ackStep subject cancelled tb (setWorker i (WWait s) rest (pb_ended tb) tb)
| ak_end i s o tb : pb_workers tb !! i = Some (WWait s) →
    ackStep subject cancelled tb (setWorker i WSelect (pb_ack tb) (pb_ended tb ++ [o]) tb)
| ak_done i tb : cancelled = true → pb_workers tb !! i = Some WSelect →
    ackStep subject cancelled tb (setWorker i WReturned (pb_ack tb) (pb_ended tb) tb).

Definition waits (w : worker) : Z := match w with WWait _ => 1 | _ => 0 end.
Definition waiting (ws : list worker) : Z := foldr (λ w n, waits w + n) 0 ws.

Lemma waiting_insert ws i w w' : ws !! i = Some w → waiting (<[i := w']> ws) = waiting ws - waits w + waits w'.
Proof.
  revert i. induction ws as [|x ws IH]; intros [|i] E; [done..| |]; cbn in E.
  - simplify_eq. cbn. lia.
  - change (waits x + waiting (<[i := w']> ws) = waits x + waiting ws - waits w + waits w'). rewrite (IH i) by done. lia.
Qed.

(** Every publication is waited for, will be, has been, or was given up for a full channel. *)
Definition ackInv (tb : PubBatcher) : Prop :=
  length (pb_workers tb) = 2%nat ∧ len (pb_ack tb) ≤ ackCap ∧
  len (pb_published tb) = len (pb_ack tb) + waiting (pb_workers tb) + len (pb_ended tb) + pb_full tb.

Lemma ackStep_inv subject cancelled : preserved (ackStep subject cancelled) ackInv.
Proof.
  intros tb tb' Hs (Hw & Ha & Hp). destruct Hs as [ok t tb|i s rest tb E1 E2|i s o tb E1|i tb _ E1]; unfold ackInv.
  - unfold publishCb. destruct (decide _); [done|]. destruct ok; [|done]. cbn [negb].
    destruct (decide (len (pb_ack tb) < ackCap)); cbn [pb_workers pb_ack pb_published pb_ended pb_full]; rewrite !len_app; repeat change (len [?x]) with 1; splits; (done || lia).
  - cbn [setWorker pb_workers pb_ack pb_published pb_ended pb_full]. rewrite length_insert, (waiting_insert _ _ _ _ E1), Hp.
    rewrite E2, len_cons in *. cbn [waits]. splits; (done || lia).
  - cbn [setWorker pb_workers pb_ack pb_published pb_ended pb_full]. rewrite length_insert, (waiting_insert _ _ _ _ E1), Hp, len_app. change (len [o]) with 1.
    cbn [waits]. splits; (done || lia).
  - cbn [setWorker pb_workers pb_ack pb_published pb_ended pb_full]. rewrite length_insert, (waiting_insert _ _ _ _ E1), Hp.
    cbn [waits]. splits; (done || lia).
Qed.

(** However publications, acknowledgements and the end of the context interleave, each
    publication of a [PubBatcher] is accounted for once: in the channel (at most 40960), with
    one of the two workers, ended, or given up. *)
Theorem publications_accounted subject cancelled tb :
  rtc (ackStep subject cancelled) NewPubBatcher tb → ackInv tb.
Proof. intros Hr. eapply rtc_preserved; [apply ackStep_inv|exact Hr|]. done. Qed.
