(* ===== verification/Election.v ===== *)
(** * pkg/util/master.go: electing a master

    Each node runs [StartElection]: it opens a session with etcd, campaigns, is master
    until its session ends or its context is cancelled, resigns and starts again. etcd keeps
    one key per campaign, in the order of their creation, and deletes the keys of a session
    that is closed or expires; [Campaign] returns when no earlier key is left. A node learns
    of the end of its session some time later, or even before. *)

From S2P Require Import Prelude.

(** Where the loop is. A session is named by the creation revision of its key. *)
Inductive ephase := ENew | ECampaign (rev : Z) | EMaster (rev : Z) | EResign (rev : Z) | EStopped.

Record enode := mkNode { en_ph : ephase; en_isMaster : bool; en_ctx : bool (* cancelled *) }.

Record election := mkEl { el_nodes : gmap Z enode; el_keys : gset Z; el_next : Z }.

Definition IsMaster (n : Z) (s : election) : bool := from_option en_isMaster false (el_nodes s !! n).

Definition electionKey (serName : string) : string := "/election/master/" +:+ serName.

(** The end of a round: on the way out, or from the beginning. *)
Definition again (x : enode) : enode := mkNode (if en_ctx x then EStopped else ENew) (en_isMaster x) (en_ctx x).

Definition set_node (n : Z) (x : enode) (keys : gset Z) (s : election) : election :=
  mkEl (<[n := x]> (el_nodes s)) keys (el_next s).

Inductive elstep : election → election → Prop :=
| el_sessionFails s n x :             (* [NewSession] fails: sleep and try again *)
    el_nodes s !! n = Some x → en_ph x = ENew → elstep s s
| el_campaign s n x :                 (* a session, and the key of the campaign *)
    el_nodes s !! n = Some x → en_ph x = ENew →
    elstep s (mkEl (<[n := mkNode (ECampaign (el_next s)) (en_isMaster x) (en_ctx x)]> (el_nodes s))
                   ({[ el_next s ]} ∪ el_keys s) (el_next s + 1))
| el_campaignFails s n x rev (closed : bool) :   (* [session.Close] may not reach etcd *)
    el_nodes s !! n = Some x → en_ph x = ECampaign rev →
    elstep s (set_node n (again x) (if closed then el_keys s ∖ {[ rev ]} else el_keys s) s)
| el_win s n x rev :
    el_nodes s !! n = Some x → en_ph x = ECampaign rev → (∀ k, k ∈ el_keys s → rev ≤ k) →
    elstep s (set_node n (mkNode (EMaster rev) true (en_ctx x)) (el_keys s) s)
| el_lost s n x rev :                 (* [session.Done()] or [ctx.Done()] *)
    el_nodes s !! n = Some x → en_ph x = EMaster rev →
    elstep s (set_node n (mkNode (EResign rev) false (en_ctx x)) (el_keys s) s)
| el_resign s n x rev (done : bool) : (* [Resign] and [session.Close], which may both fail *)
    el_nodes s !! n = Some x → en_ph x = EResign rev →
    elstep s (set_node n (again x) (if done then el_keys s ∖ {[ rev ]} else el_keys s) s)
| el_expire s rev :                   (* a lease runs out *)
    elstep s (mkEl (el_nodes s) (el_keys s ∖ {[ rev ]}) (el_next s))
| el_cancel s n x :
    el_nodes s !! n = Some x →
    elstep s (set_node n (mkNode (en_ph x) (en_isMaster x) true) (el_keys s) s).

Definition electionStart (ns : gset Z) : election := mkEl (gset_to_gmap (mkNode ENew false false) ns) ∅ 0.

(** ** The invariant *)

Definition revOf (p : ephase) : option Z :=
  match p with ECampaign r | EMaster r | EResign r => Some r | _ => None end.

Definition node_ok (s : election) (n : Z) (x : enode) : Prop :=
  (∀ r, revOf (en_ph x) = Some r → r < el_next s ∧
     ∀ n' x', el_nodes s !! n' = Some x' → revOf (en_ph x') = Some r → n' = n) ∧
  (en_isMaster x = true ↔ ∃ r, en_ph x = EMaster r) ∧
  (∀ r, en_ph x = EMaster r → ∀ k, k ∈ el_keys s → r ≤ k).

Definition elinv (s : election) : Prop :=
  (∀ k, k ∈ el_keys s → k < el_next s) ∧ ∀ n x, el_nodes s !! n = Some x → node_ok s n x.

(** A step that changes one node, keeps its revision or drops it, and removes keys. *)
Lemma elinv_set s n x x' keys :
  elinv s → el_nodes s !! n = Some x → (∀ k, k ∈ keys → k ∈ el_keys s) →
  (∀ r, revOf (en_ph x') = Some r → revOf (en_ph x) = Some r) →
  (en_isMaster x' = true ↔ ∃ r, en_ph x' = EMaster r) →
  (∀ r, en_ph x' = EMaster r → ∀ k, k ∈ keys → r ≤ k) → elinv (set_node n x' keys s).
Proof.
  intros [Hk Hn] Hx Hsub Hrev Hm Hmin. split; [by intros k Hin; apply Hk, Hsub|].
  assert (Hold : ∀ m y, el_nodes (set_node n x' keys s) !! m = Some y →
            ∃ y0, el_nodes s !! m = Some y0 ∧ (∀ r, revOf (en_ph y) = Some r → revOf (en_ph y0) = Some r)).
  { intros m y. cbn. rewrite lookup_insert_Some. intros [[<- <-]|[_ Hy]]; eauto. }
  intros m y Hy. destruct (Hold m y Hy) as (y0 & Hy0 & Hr). destruct (Hn m y0 Hy0) as (H1 & H2 & H3). unfold node_ok. splits.
  - intros r E. destruct (H1 r (Hr r E)) as [Hlt Hu]. split; [done|]. intros m' y' Hy' E'.
    destruct (Hold m' y' Hy') as (y0' & Hy0' & Hr'). eauto.
  - cbn in Hy. apply lookup_insert_Some in Hy as [[<- <-]|[_ Hy]]; [done|]. simplify_eq. done.
  - cbn in Hy. apply lookup_insert_Some in Hy as [[<- <-]|[_ Hy]]; [done|]. simplify_eq. cbn. intros r E k Hin. eauto.
Qed.

Lemma elinv_preserved : preserved elstep elinv.
Proof.
  intros s s' Hs Hi. pose proof Hi as [Hk Hn].
  assert (Hagain : ∀ n x, el_nodes s !! n = Some x → (∀ r, en_ph x ≠ EMaster r) →
            (en_isMaster (again x) = true ↔ ∃ r, en_ph (again x) = EMaster r)).
  { intros n x Hx Hp. destruct (Hn n x Hx) as (_ & Hm & _). cbn. rewrite Hm. split.
    - intros [r E]. by destruct (Hp r).
    - intros [r E]. destruct (en_ctx x); discriminate E. }
  destruct Hs as [s n x Hx Hp|s n x Hx Hp|s n x rev closed Hx Hp|s n x rev Hx Hp Hfirst|s n x rev Hx Hp|s n x rev done' Hx Hp
                 |s rev|s n x Hx].
  - done.
  - destruct (Hn n x Hx) as (_ & Hm & _). split.
    { cbn. intros k [->%elem_of_singleton|Hin]%elem_of_union; [lia|]. apply Hk in Hin. lia. }
    intros m y. cbn. rewrite lookup_insert_Some. intros [[<- <-]|[Hne Hy]].
    + unfold node_ok. cbn. splits.
      * intros r [= <-]. split; [lia|]. intros n' x'. rewrite lookup_insert_Some. intros [[<- _]|[_ Hx']] E; [done|].
        destruct (Hn n' x' Hx') as (H1 & _). destruct (H1 _ E). lia.
      * rewrite Hm, Hp. split; intros [r E]; discriminate E.
      * done.
    + destruct (Hn m y Hy) as (H1 & H2 & H3). unfold node_ok. cbn. splits.
      * intros r E. destruct (H1 r E) as [Hlt Hu]. split; [lia|]. intros n' x'. rewrite lookup_insert_Some.
        intros [[<- <-]|[_ Hx']] E'; [cbn in E'; injection E' as <-; lia|eauto].
      * done.
      * intros r E k [->%elem_of_singleton|Hin]%elem_of_union; [|eauto]. assert (Hr : revOf (en_ph y) = Some r) by (by rewrite E).
        destruct (H1 r Hr). lia.
  - eapply elinv_set; [done..| | |by apply (Hagain n x Hx); rewrite Hp|].
    + intros k. destruct closed; [|done]. by intros [? _]%elem_of_difference.
    + intros r. cbn. by destruct (en_ctx x).
    + intros r. cbn. by destruct (en_ctx x).
  - eapply elinv_set; [done..| | |].
    + intros r. cbn. by rewrite Hp.
    + cbn. split; eauto.
    + cbn. by intros r [= <-].
  - eapply elinv_set; [done..| | |].
    + intros r. cbn. by rewrite Hp.
    + cbn. split; [done|]. by intros [? ?].
    + done.
  - eapply elinv_set; [done..| | |by apply (Hagain n x Hx); rewrite Hp|].
    + intros k. destruct done'; [|done]. by intros [? _]%elem_of_difference.
    + intros r. cbn. by destruct (en_ctx x).
    + intros r. cbn. by destruct (en_ctx x).
  - split; [intros k [Hin _]%elem_of_difference; by apply Hk|]. intros n x Hx. destruct (Hn n x Hx) as (H1 & H2 & H3).
    unfold node_ok. cbn. splits; [done..|]. intros r E k [Hin _]%elem_of_difference. eauto.
  - destruct (Hn n x Hx) as (H1 & H2 & H3). by eapply elinv_set.
Qed.

Lemma electionStart_inv ns : elinv (electionStart ns).
Proof.
  split; [by intros k ?%elem_of_empty|]. intros n x. cbn. rewrite lookup_gset_to_gmap_Some. intros [_ <-].
  unfold node_ok. cbn. splits; [done| |done]. split; [done|]. by intros [? ?].
Qed.

(** ** Properties *)

(** At most one master holds a lease: whenever, in any interleaving of any number of
    nodes with failing sessions, campaigns and resignations, expiring leases and
    cancelled contexts, two nodes believe to be master and both their keys are still in
    etcd, they are the same node; and a node believes to be master exactly between winning
    a campaign and learning that its session or its context is over. *)
Theorem one_master_with_lease ns s n n' x x' r r' :
  rtc elstep (electionStart ns) s →
  el_nodes s !! n = Some x → el_nodes s !! n' = Some x' →
  (IsMaster n s = true ↔ ∃ r, en_ph x = EMaster r) ∧
  (en_ph x = EMaster r → en_ph x' = EMaster r' → r ∈ el_keys s → r' ∈ el_keys s → n = n').
Proof.
  intros Hr Hx Hx'. assert (Hi : elinv s).
  { eapply rtc_preserved; [apply elinv_preserved|exact Hr|apply electionStart_inv]. }
  destruct Hi as [_ Hn]. destruct (Hn n x Hx) as (_ & Hm & Hmin), (Hn n' x' Hx') as (Hu & _ & Hmin'). split.
  - unfold IsMaster. by rewrite Hx.
  - intros E E' Hin Hin'. assert (r = r') as -> by (pose proof (Hmin r E r' Hin'); pose proof (Hmin' r' E' r Hin); lia).
    destruct (Hu r') as [_ Huniq]; [by rewrite E'|]. apply (Huniq n x); [done|by rewrite E].
Qed.

Lemma one_master_with_lease_witness :
  ∃ s x, rtc elstep (electionStart {[ 1; 2 ]}) s ∧ el_nodes s !! 1 = Some x ∧ en_ph x = EMaster 0 ∧ IsMaster 1 s = true.
Proof.
  assert (∃ s x, rtc elstep (electionStart {[ 1; 2 ]}) s ∧ el_nodes s !! 1 = Some x ∧ en_ph x = EMaster 0) as (s & x & Hr & Hx & Hp).
  { eexists _, _. split; [|split].
    - eapply rtc_l; [apply (el_campaign _ 1 (mkNode ENew false false)); reflexivity|].
      eapply rtc_l; [apply (el_campaign _ 2 (mkNode ENew false false)); reflexivity|].
      eapply rtc_l; [apply (el_win _ 1 (mkNode (ECampaign 0) false false) 0); [reflexivity|reflexivity|dec]|]. apply rtc_refl.
    - reflexivity.
    - reflexivity. }
  exists s, x. split; [exact Hr|]. split; [exact Hx|]. split; [exact Hp|].
  apply (one_master_with_lease {[ 1; 2 ]} s 1 1 x x 0 0 Hr Hx Hx). by exists 0.
Defined.

(** Two masters: a node whose lease ran out stays master until it notices, and the next
    one has been elected in the meantime. *)
Lemma two_masters_after_expiry :
  ∃ s, rtc elstep (electionStart {[ 1; 2 ]}) s ∧ IsMaster 1 s = true ∧ IsMaster 2 s = true.
Proof.
  eexists. split; [|split].
  - eapply rtc_l; [apply (el_campaign _ 1 (mkNode ENew false false)); reflexivity|].
    eapply rtc_l; [apply (el_win _ 1 (mkNode (ECampaign 0) false false) 0); [reflexivity|reflexivity|dec]|].
    eapply rtc_l; [apply (el_expire _ 0)|].
    eapply rtc_l; [apply (el_campaign _ 2 (mkNode ENew false false)); reflexivity|].
    eapply rtc_l; [apply (el_win _ 2 (mkNode (ECampaign 1) false false) 1); [reflexivity|reflexivity|dec]|]. apply rtc_refl.
  - reflexivity.
  - reflexivity.
Qed.

(** While no session can be opened, a cancelled context is not noticed: the loop goes on. *)
Lemma cancel_unnoticed_without_session s n x :
  el_nodes s !! n = Some x → en_ph x = ENew →
  ∃ s', rtc elstep s s' ∧ elstep s' s' ∧ el_nodes s' !! n = Some (mkNode ENew (en_isMaster x) true).
Proof.
  intros Hx Hp. exists (set_node n (mkNode (en_ph x) (en_isMaster x) true) (el_keys s) s). splits.
  - apply rtc_once. by apply el_cancel.
  - apply (el_sessionFails _ n (mkNode (en_ph x) (en_isMaster x) true)); [|done]. cbn. by rewrite lookup_insert_eq.
  - cbn. by rewrite lookup_insert_eq, Hp.
Qed.
