(* ===== verification/Http.v ===== *)
(** * pkg/ghttp/middleware.go and pkg/thread: the HTTP middleware and guarded calls

    The logging middleware reads a request's body for the log and puts it back, and
    captures the beginning of the response on its way to the client; the recovery
    middleware turns a panic of a handler into a response. *)

From S2P Require Import Prelude.

(** ** pkg/thread *)

Section Thread.
Context {S : Type}.

(** A Go function that changes [S]: it returns, or panics after some of its effects. *)
Inductive ran := Returned (s : S) | Panics (s : S).

(** [RunSafe]: the state and whether a panic was caught; [None] is a panic that is not
    caught. *)
Definition RunSafe (CapturePanic : bool) (fn : option (S → ran)) (s : S) : option (S * bool) :=
  match fn with
  | None => Some (s, false)
  | Some f => match f s with
              | Returned s => Some (s, false)
              | Panics s => if CapturePanic then Some (s, true) else None
              end
  end.

(** [KeepRunSafe]: the list says at which checks of the context it is cancelled. *)
Fixpoint KeepRunSafe (CapturePanic : bool) (fn : option (S → ran)) (done : list bool) (s : S) : option (S * bool) :=
  match done with
  | [] => Some (s, true)                     (* still running *)
  | true :: _ => Some (s, false)
  | false :: done => '(s, _) ← RunSafe CapturePanic fn s; KeepRunSafe CapturePanic fn done s
  end.

End Thread.
Arguments ran : clear implicits.

(** ** Requests and responses *)

(** A body: the bytes that can be read and whether reading then fails. *)
Record reqBody := mkBody { rb_data : bytes; rb_fails : bool }.

(** What reaches the client: status and writes, in order. *)
Record respOut := mkOut { ro_status : Z; ro_writes : list bytes }.

Definition MaxLogSize : Z := 4096.

(** *** The capturing writer *)

Record limitRespWriter := mkW { w_out : list bytes; w_body : bytes; w_loggedSize : Z }.

Definition limitRespWriter_Write (w : limitRespWriter) (b : bytes) : limitRespWriter :=
  if decide (w_loggedSize w < MaxLogSize) then
    let writeLen := if decide (w_loggedSize w + len b > MaxLogSize) then MaxLogSize - w_loggedSize w else len b in
    mkW (w_out w ++ [b]) (w_body w ++ take (Z.to_nat writeLen) b) (w_loggedSize w + writeLen)
  else mkW (w_out w ++ [b]) (w_body w) (w_loggedSize w).

(** *** The request *)

Inductive contentType := CTJson | CTForm | CTMultipart | CTOther.
#[export] Instance contentType_eq_dec : EqDecision contentType.
Proof. solve_decision. Defined.

(** What the log says of the request: text and the truncation mark, the parsed form, the
    note for uploads, or nothing. *)
Inductive reqLog := LText (b : bytes) (truncated : bool) | LForm (data : bytes) | LSkipped | LNone.

(** [io.ReadAll] of at most [n] bytes, and what is left in the body; its error is dropped. *)
Definition readLimited (n : Z) (b : reqBody) : bytes * reqBody :=
  let got := take (Z.to_nat n) (rb_data b) in (got, mkBody (drop (Z.to_nat n) (rb_data b)) (rb_fails b)).

(** The request as the handlers behind the middleware see it. [ParseForm] reads the body. *)
Definition readReq (ct : contentType) (b : reqBody) : reqLog * reqBody :=
  match ct with
  | CTJson =>
      let '(reqBytes, rest) := readLimited (MaxLogSize + 1) b in
      if decide (len reqBytes > MaxLogSize)
      then (LText (take (Z.to_nat MaxLogSize) reqBytes) true, mkBody (reqBytes ++ rb_data rest) (rb_fails rest))
      else (LText reqBytes false, mkBody reqBytes false)
  | CTForm => (LForm (rb_data b), mkBody [] false)
  | CTMultipart => (LSkipped, b)
  | CTOther => (LNone, b)
  end.

Inductive level := InfoLevel | WarnLevel | ErrorLevel.
Definition levelOf (status : Z) : level :=
  if decide (status >= 500) then ErrorLevel else if decide (status >= 400) then WarnLevel else InfoLevel.

Record logEntry := mkLog { le_level : level; le_req : reqLog; le_resp : bytes; le_truncated : bool; le_status : Z }.

(** [next] is the rest of the chain: it reads the body and yields a status and writes. *)
Definition logMiddleware (trace healthProbe : bool) (ct : contentType) (b : reqBody) (next : reqBody → respOut)
    : respOut * option logEntry :=
  if healthProbe then (next b, None)
  else
    let '(reqData, b) := readReq ct b in
    let r := next b in
    let w := fold_left limitRespWriter_Write (ro_writes r) (mkW [] [] 0) in
    let lv := levelOf (ro_status r) in
    (mkOut (ro_status r) (w_out w),
     match lv, trace with
     | InfoLevel, false => None
     | _, _ => Some (mkLog lv reqData (w_body w) (bool_decide (w_loggedSize w >= MaxLogSize)) (ro_status r))
     end).

(** [recoverMiddleware]: what the chain had written stays written, and so does its status;
    [Fail] adds its own. *)
Definition recoverMiddleware (failResp : bytes) (next : respOut → ran respOut) (r : respOut) : option (respOut * bool) :=
  '(r, panics) ← RunSafe true (Some next) r;
  Some (if panics : bool then (mkOut (if decide (ro_writes r = []) then 500 else ro_status r) (ro_writes r ++ [failResp]), true) else (r, false)).

(** ** Facts *)

Lemma capture_all ws w :
  w_body w = take (Z.to_nat MaxLogSize) (mjoin (w_out w)) → w_loggedSize w = len (w_body w) →
  let w' := fold_left limitRespWriter_Write ws w in
  w_out w' = w_out w ++ ws ∧ w_body w' = take (Z.to_nat MaxLogSize) (mjoin (w_out w ++ ws)) ∧ w_loggedSize w' = len (w_body w').
Proof.
  cbv zeta. revert w. induction ws as [|b ws IH]; intros w Hb Hl; [by rewrite app_nil_r|]. cbn [fold_left].
  assert (Hstep : w_out (limitRespWriter_Write w b) = w_out w ++ [b] ∧
                  w_body (limitRespWriter_Write w b) = take (Z.to_nat MaxLogSize) (mjoin (w_out w ++ [b])) ∧
                  w_loggedSize (limitRespWriter_Write w b) = len (w_body (limitRespWriter_Write w b))).
  { rewrite join_app. change (mjoin [b]) with (b ++ mjoin []). change (mjoin (@nil bytes)) with (@nil Z). rewrite app_nil_r.
    unfold limitRespWriter_Write, MaxLogSize in *. rewrite Hl, Hb in *. unfold len in *. rewrite length_take in *.
    case_decide as Hd; cbn [w_out w_body w_loggedSize].
    - rewrite take_app. splits; [done| |].
      + rewrite !(take_ge (mjoin (w_out w))) by lia. f_equal. case_decide; [f_equal; lia|]. rewrite !take_ge by lia. done.
      + rewrite length_app, !length_take. case_decide; lia.
    - splits; [done| |].
      + rewrite take_app_le by lia. done.
      + rewrite length_take. lia. }
  destruct Hstep as (H1 & H2 & H3). rewrite <- H1 in H2. destruct (IH _ H2 H3) as (-> & -> & ->).
  rewrite H1, <- app_assoc. done.
Qed.

(** ** Properties *)

(** The logging middleware is transparent: whatever the handlers compute from the
    request's body, the client gets exactly the status and the writes it would get without
    the middleware, for bodies of any size that can be read, unless the request is a form,
    whose body is parsed on the way. The log holds at most the first 4096 bytes of request
    and response. A body that fails within these bytes reaches the handlers as if it ended
    there. *)
Theorem log_middleware_transparent (trace probe : bool) (ct : contentType) (b : reqBody) (next : reqBody → respOut) :
  ct ≠ CTForm →
  let '(out, log) := logMiddleware trace probe ct b next in
  (rb_fails b = false ∨ len (rb_data b) > MaxLogSize ∨ ct ≠ CTJson ∨ probe = true → out = next b) ∧
  (ct = CTJson → probe = false → rb_fails b = true → len (rb_data b) ≤ MaxLogSize → out = next (mkBody (rb_data b) false)) ∧
  (∀ e, log = Some e → le_status e = ro_status out ∧ le_resp e = take (Z.to_nat MaxLogSize) (mjoin (ro_writes out)) ∧
     (le_truncated e = true ↔ len (mjoin (ro_writes out)) >= MaxLogSize) ∧
     (ct = CTJson → le_req e = LText (take (Z.to_nat MaxLogSize) (rb_data b)) (bool_decide (len (rb_data b) > MaxLogSize)))) ∧
  (log = None ↔ probe = true ∨ (ro_status out < 400 ∧ trace = false)).
Proof.
  intros Hct. destruct probe.
  { cbn. splits; try done. split; [by left|done]. }
  assert (Hreq : (ct = CTJson → (readReq ct b).1 = LText (take (Z.to_nat MaxLogSize) (rb_data b)) (bool_decide (len (rb_data b) > MaxLogSize))) ∧
            (readReq ct b).2 = if decide (ct = CTJson ∧ len (rb_data b) ≤ MaxLogSize) then mkBody (rb_data b) false else b).
  { unfold readReq, readLimited, MaxLogSize. destruct b as [d f]. cbn [rb_data rb_fails].
    destruct ct; try done; try (split; [done|]; by rewrite decide_False by (by intros [? _])).
    unfold len. rewrite length_take.
    case_decide as Hd; cbn [fst snd].
    - rewrite bool_decide_true by lia. rewrite decide_False by (intros [_ ?]; lia). split; [intros _; f_equal; rewrite take_take; done|]. by rewrite take_drop.
    - rewrite bool_decide_false by lia. rewrite decide_True by (split; [done|lia]). rewrite !take_ge by lia. done. }
  destruct Hreq as [Hlog Hbody]. unfold logMiddleware. destruct (readReq ct b) as [reqData b'] eqn:Er. cbn [fst snd] in *.
  destruct (capture_all (ro_writes (next b')) (mkW [] [] 0)) as (Ho & Hb & Hs); [done..|]. cbv zeta in *.
  set (w := fold_left _ _ _) in *. cbn [app w_out] in Ho, Hb. rewrite Ho.
  assert (Hout : mkOut (ro_status (next b')) (ro_writes (next b')) = next b') by (by destruct (next b')). rewrite Hout. cbv beta iota. splits.
  - intros Hr. rewrite Hbody. destruct (decide (ct = CTJson ∧ len (rb_data b) ≤ MaxLogSize)) as [[-> Hle]|]; [|done].
    destruct Hr as [Hr|[Hr|[?|?]]]; [|exfalso; lia|done|done]. destruct b as [d f]. cbn in *. by subst.
  - intros -> _ _ Hle. rewrite Hbody. by rewrite decide_True.
  - intros e He.
    assert (E : e = mkLog (levelOf (ro_status (next b'))) reqData (w_body w) (bool_decide (w_loggedSize w >= MaxLogSize)) (ro_status (next b')))
      by (destruct (levelOf _), trace; by simplify_eq).
    rewrite E. cbn [le_status le_resp le_truncated le_req]. splits; [done|done| |done]. rewrite bool_decide_eq_true, Hs, Hb.
    unfold len, MaxLogSize. rewrite length_take. lia.
  - unfold levelOf. repeat case_decide; destruct trace; (split; [intros; try done; right; split; lia|]);
      intros [?|[? ?]]; first [done|lia].
Qed.

Lemma log_middleware_transparent_witness :
  let b := mkBody [7; 8; 9] false in
  let next (b : reqBody) := mkOut 404 [rb_data b; [1; 2]] in
  (logMiddleware false false CTJson b next).1 = next b.
Proof.
  intros b next. pose proof (log_middleware_transparent false false CTJson b next ltac:(done)) as H.
  destruct (logMiddleware false false CTJson b next) as [out log]. destruct H as (H & _). apply H. by left.
Defined.

(** A panic behind the recovery middleware becomes a response and never reaches the
    server: with status 500 if nothing had been written before, else behind what had. *)
Theorem panics_become_responses (failResp : bytes) (next : respOut → ran respOut) (r : respOut) :
  recoverMiddleware failResp next r =
    Some (match next r with
          | Returned x => (x, false)
          | Panics (mkOut st []) => (mkOut 500 [failResp], true)
          | Panics (mkOut st ws) => (mkOut st (ws ++ [failResp]), true)
          end).
Proof. unfold recoverMiddleware, RunSafe. by destruct (next r) as [x|[st [|w ws]]]. Qed.

(** The checks of the context before the first one that finds it cancelled. *)
Fixpoint rounds (done : list bool) : Z := match done with false :: done => 1 + rounds done | _ => 0 end.

(** A function kept running survives its panics and ends only with the context: it has
    run once for each check before the first one that found the context cancelled. *)
Theorem kept_running (f : Z → ran Z) (done : list bool) (z : Z) :
  (∀ z, f z = Returned (z + 1) ∨ f z = Panics (z + 1)) →
  KeepRunSafe true (Some f) done z =
    Some (z + rounds done, forallb negb done).
Proof.
  intros Hf. revert z. induction done as [|[] done IH]; intros z; cbn; [by rewrite Z.add_0_r|by rewrite Z.add_0_r|].
  destruct (Hf z) as [-> | ->]; cbn; rewrite IH; f_equal; f_equal; lia.
Qed.
