(* ===== verification/HttpServer.v ===== *)
(** * pkg/ghttp/server.go, response.go and the rest of pkg/thread

    The engine every process serves: its middleware and routes, what each request is
    answered with, and the server's start and shutdown beside the process; running a
    function in a goroutine and running a command. *)

From S2P Require Import Prelude Http.

(** ** response.go *)

Record Response := mkResp { Code : Z; CodeRaw : string; Message : string; Data : option string }.

(** What a handler answers with: a status and a body, which is JSON or the metrics. *)
Inductive body := BJson (r : Response) | BMetrics | BProfile.
Record answerH := mkAns { an_status : Z; an_body : body }.

Definition OK (data : string) : answerH := mkAns 200 (BJson (mkResp 0 EmptyString EmptyString (Some data))).
Definition Fail (statusCode code : Z) (msg : string) : answerH := mkAns statusCode (BJson (mkResp code EmptyString msg None)).

(** ** server.go: NewEngine *)

Inductive middleware := MLog | MCors | MRecover.
Inductive handlerH := HHealth | HMetrics | HPprof.

(** A route: its methods and path. *)
Record route := mkRoute { rt_methods : list string; rt_path : string; rt_handler : handlerH }.
Record Engine := mkEngine { e_middleware : list middleware; e_routes : list route }.

(** The methods of [Any]. *)
Definition anyMethods : list string := ["GET"; "POST"; "PUT"; "PATCH"; "HEAD"; "OPTIONS"; "DELETE"; "CONNECT"; "TRACE"].

(** [pprofRoutes]: what [pprof.Register] adds. *)
Definition NewEngine (Debug usePprof : bool) (pprofRoutes : list (list string * string)) : Engine :=
  mkEngine
    ([MLog; MCors] ++ if negb Debug then [MRecover; MCors] else [])
    ([mkRoute anyMethods "/health" HHealth; mkRoute ["GET"] "/metrics" HMetrics] ++
     if usePprof then (λ x, mkRoute x.1 x.2 HPprof) <$> pprofRoutes else []).

Definition runHandler (h : handlerH) : answerH :=
  match h with
  | HHealth => mkAns 200 (BJson (mkResp 0 EmptyString EmptyString (Some "replay")))
  | HMetrics => mkAns 200 BMetrics
  | HPprof => mkAns 200 BProfile
  end.

(** The route of a request; with [HandleMethodNotAllowed], a path that is served for other
    methods only is [NoMethod], else it is [NoRoute]. *)
Definition dispatch (e : Engine) (method path : string) : answerH :=
  match filter (λ r, method ∈ rt_methods r ∧ rt_path r = path) (e_routes e) with
  | r :: _ => runHandler (rt_handler r)
  | [] => if existsb (λ r, bool_decide (rt_path r = path)) (e_routes e)
          then Fail 405 400 "method not allowed" else Fail 404 400 "api not found"
  end.

(** ** server.go: Serve *)

(** The [WaitGroup] of the process, its context, the goroutine that calls [Serve] (with the
    one that shuts it down), the listener, and the process at its [Wait]. *)
Inductive servePc := SpNew | SpAdded | SpServing | SpReturned.
Inductive stopperPc := StNone | StWaiting | StShutting | StEnded.
#[export] Instance stopperPc_eq_dec : EqDecision stopperPc.
Proof. solve_decision. Defined.
Record hsys := mkH { h_wait : Z; h_cancelled : bool; h_serve : servePc; h_stopper : stopperPc; h_open : bool; h_exited : bool }.

Definition hstart : hsys := mkH 0 false SpNew StNone false false.

(** [Shutdown] closes the listener at once and returns when the requests have ended or its
    five seconds have passed; [ListenAndServe] returns when it fails or is shut down. *)
Inductive hstep : hsys → hsys → Prop :=
| h_add w c op : hstep (mkH w c SpNew StNone op false) (mkH (w + 1) c SpAdded StWaiting op false)
| h_listen (ok : bool) w c st op : 
    let up := ok && bool_decide (st = StWaiting) in
    hstep (mkH w c SpAdded st op false) (mkH w c (if up then SpServing else SpReturned) st up false)
| h_cancel w c p st op : hstep (mkH w c p st op false) (mkH w true p st op false)
| h_shutdown w p op : hstep (mkH w true p StWaiting op false) (mkH w true (match p with SpServing => SpReturned | p => p end) StShutting false false)
| h_done w c p op : hstep (mkH w c p StShutting op false) (mkH (w - 1) c p StEnded op false)
| h_exit p st op : hstep (mkH 0 true p st op false) (mkH 0 true p st op true).

Definition hinv (s : hsys) : Prop :=
  h_wait s = (match h_stopper s with StWaiting | StShutting => 1 | _ => 0 end) ∧
  (h_stopper s = StNone ↔ h_serve s = SpNew) ∧
  (h_open s = true → h_stopper s = StWaiting ∧ h_serve s = SpServing).

Lemma hinv_preserved : preserved hstep hinv.
Proof.
  intros s s' Hs (Hw & Hn & Ho). unfold hinv.
  destruct Hs as [w c op|ok w c st op up|w c p st op|w p op|w c p op|p st op]; cbn [h_wait h_serve h_stopper h_open h_cancelled h_exited] in *.
  - splits; [lia|done|]. intros Hop. by destruct Ho.
  - subst up. destruct ok, st; cbn in *; splits; try done; intuition congruence.
  - by splits.
  - splits; [done|destruct p; intuition congruence|done].
  - splits; [lia|intuition congruence|]. intros Hop. by destruct Ho.
  - by splits.
Qed.

Lemma hreach_inv s : rtc hstep hstart s → hinv s.
Proof. intros Hr. eapply rtc_preserved; [apply hinv_preserved|exact Hr|]. by unfold hinv; splits. Qed.

(** The process ends with the HTTP server shut down: when its last [Wait] returns, the
    listener is closed and [Shutdown] has returned, unless the goroutine of [Serve] had not
    started at all; and once the context is cancelled the [Wait] can always return. *)
Theorem http_shutdown s :
  rtc hstep hstart s →
  (h_exited s = true → h_open s = false ∧ (h_stopper s = StEnded ∨ h_serve s = SpNew)) ∧
  (h_cancelled s = true → h_exited s = false → ∃ s', rtc hstep s s' ∧ h_exited s' = true).
Proof.
  intros Hr. assert (He : h_exited s = true → h_wait s = 0).
  { destruct (rtc_inv_r _ _ Hr) as [<-|(s1 & _ & Hs)]; [done|]. by destruct Hs. }
  apply hreach_inv in Hr as (Hw & Hn & Ho). split.
  - intros Hx. specialize (He Hx). destruct (h_open s); [destruct Ho as [E _]; [done|]; rewrite E in *; lia|].
    split; [done|]. destruct (h_stopper s); try lia; [right; by apply Hn|by left].
  - intros Hc Hx. destruct s as [w c p st op ex]. cbn in *. subst.
    assert (Hlast : ∀ p st op, ∃ s', rtc hstep (mkH 0 true p st op false) s' ∧ h_exited s' = true).
    { intros. eexists. split; [apply rtc_once, h_exit|done]. }
    assert (Hshut : ∀ p op, ∃ s', rtc hstep (mkH 1 true p StShutting op false) s' ∧ h_exited s' = true).
    { intros. destruct (Hlast p0 StEnded op0) as (s' & ? & ?). exists s'. split; [|done]. eapply rtc_l; [apply h_done|done]. }
    destruct st; [apply Hlast| |apply Hshut|apply Hlast].
    destruct (Hshut (match p with SpServing => SpReturned | p => p end) false) as (s' & ? & ?). exists s'. split; [|done].
    eapply rtc_l; [apply h_shutdown|done].
Qed.

(** ** pkg/thread: GoSafe and ExecCommand *)

(** The goroutine's function ends and its channel is closed; [None]: the process ends. *)
Definition GoSafe {S} (CapturePanic : bool) (fn : option (S → ran S)) (s : S) : option (S * bool) :=
  '(s, _) ← RunSafe CapturePanic fn s; Some (s, true).

Definition newline : Ascii.ascii := Ascii.ascii_of_nat 10.

(** The loop of [ReadString]: each line with its newline; [line] is the one being read. What
    is left at the end of the stream comes with an error and is dropped. *)
Fixpoint readLines (out line : string) : list string :=
  match out with
  | EmptyString => []
  | String c out =>
      if decide (c = newline) then (line +:+ String c EmptyString) :: readLines out EmptyString
      else readLines out (line +:+ String c EmptyString)
  end.

(** [pipeErr], [startErr], [waitErr]: what opening the pipe, starting and waiting give. *)
Definition ExecCommand (pipeErr startErr waitErr : go_error) (output : string) : list string * go_error :=
  match pipeErr, startErr with
  | Some e, _ => ([], Some e)
  | None, Some e => ([], Some e)
  | None, None => (readLines output EmptyString, waitErr)
  end.

Definition noNewline (s : string) : Prop := newline ∉ String.list_ascii_of_string s.

Lemma noNewline_snoc s c : noNewline s → c ≠ newline → noNewline (s +:+ String c EmptyString).
Proof.
  unfold noNewline. intros Hs Hc. induction s as [|a s IH].
  - change (newline ∉ [c]). rewrite list_elem_of_singleton. congruence.
  - rewrite append_cons. cbn [String.list_ascii_of_string] in *. rewrite elem_of_cons in *. tauto.
Qed.

(** The lines returned are the whole lines of the output, in order: with an unfinished last
    line, which is dropped, they are the output. *)
Lemma readLines_output out line : noNewline line → ∃ rest,
  line +:+ out = foldr String.append rest (readLines out line) ∧ noNewline rest ∧
  Forall (λ l, ∃ t, l = t +:+ String newline EmptyString ∧ noNewline t) (readLines out line).
Proof.
  revert line. induction out as [|c out IH]; intros line Hl; [exists line; splits; [apply append_nil|done|constructor]|]. cbn [readLines].
  destruct (decide _) as [->|Hc].
  - destruct (IH EmptyString) as (rest & E & Hr & Hf); [by intros ?%elem_of_nil|]. exists rest. cbn [foldr]. splits; [|done|].
    + rewrite <- E, <- append_assoc. done.
    + constructor; [by exists line|done].
  - destruct (IH (line +:+ String c EmptyString)) as (rest & E & Hr & Hf); [by apply noNewline_snoc|]. exists rest. splits; [|done..].
    by rewrite <- E, <- append_assoc.
Qed.

(** A command that ran gives the whole lines of its output, in order, and the error of its
    end; a last line without a newline is dropped. *)
Theorem command_lines waitErr output : ∃ lines rest,
  ExecCommand None None waitErr output = (lines, waitErr) ∧
  output = foldr String.append rest lines ∧ noNewline rest ∧
  Forall (λ l, ∃ t, l = t +:+ String newline EmptyString ∧ noNewline t) lines.
Proof.
  destruct (readLines_output output EmptyString) as (rest & E & Hr & Hf); [by intros ?%elem_of_nil|].
  exists (readLines output EmptyString), rest. splits; try done.
Qed.

(** What the engine answers: the health page for every method, the metrics for [GET], the
    profiles if they are registered, 405 for another method of a known path and 404 for
    every other path. *)
Theorem http_surface Debug usePprof pprofRoutes method path :
  Forall (λ x, x.2 ≠ "/health" ∧ x.2 ≠ "/metrics") pprofRoutes →
  dispatch (NewEngine Debug usePprof pprofRoutes) method path =
    if decide (path = "/health") then
      if decide (method ∈ anyMethods) then mkAns 200 (BJson (mkResp 0 EmptyString EmptyString (Some "replay"))) else Fail 405 400 "method not allowed"
    else if decide (path = "/metrics") then
      if decide (method = "GET") then mkAns 200 BMetrics else Fail 405 400 "method not allowed"
    else if usePprof && bool_decide (Exists (λ x, method ∈ x.1 ∧ x.2 = path) pprofRoutes) then mkAns 200 BProfile
    else if usePprof && bool_decide (Exists (λ x, x.2 = path) pprofRoutes) then Fail 405 400 "method not allowed"
    else Fail 404 400 "api not found".
Proof.
  intros Hp. unfold dispatch, NewEngine. cbn [e_routes]. set (pp := if usePprof then _ else []).
  assert (Hpp : ∀ r, r ∈ pp ↔ ∃ x, usePprof = true ∧ x ∈ pprofRoutes ∧ r = mkRoute x.1 x.2 HPprof).
  { intros r. unfold pp. destruct usePprof; [rewrite list_elem_of_fmap; split; [intros (x & -> & ?); eauto|intros (x & _ & ? & ->); eauto]|]. rewrite elem_of_nil. split; [done|by intros (? & ? & _)]. }
  assert (Hin : ∀ path, Exists (λ x, x.2 = path) pprofRoutes → path ≠ "/health" ∧ path ≠ "/metrics").
  { intros q (x & Hx & <-)%Exists_exists. rewrite Forall_forall in Hp. by apply Hp. }
  assert (Hfilter : filter (λ r, method ∈ rt_methods r ∧ rt_path r = path) pp = [] ∧
      usePprof && bool_decide (Exists (λ x, method ∈ x.1 ∧ x.2 = path) pprofRoutes) = false ∨
    ∃ r l, filter (λ r, method ∈ rt_methods r ∧ rt_path r = path) pp = r :: l ∧ rt_handler r = HPprof ∧
      usePprof && bool_decide (Exists (λ x, method ∈ x.1 ∧ x.2 = path) pprofRoutes) = true ∧ path ≠ "/health" ∧ path ≠ "/metrics").
  { destruct (filter _ pp) as [|r l] eqn:E.
    - left. split; [done|]. apply andb_false_iff. destruct usePprof; [right|by left]. apply bool_decide_eq_false.
      intros (x & Hx & Hm)%Exists_exists. apply (filter_nil_not_elem_of _ _ (mkRoute x.1 x.2 HPprof) E); [done|]. apply Hpp. eauto.
    - right. exists r, l. assert (Hr : r ∈ filter (λ r, method ∈ rt_methods r ∧ rt_path r = path) pp) by (rewrite E; left).
      apply list_elem_of_filter in Hr as [Hm Hr]. apply Hpp in Hr as (x & -> & Hx & ->). cbn in Hm. splits; try done.
      + apply bool_decide_eq_true, Exists_exists. eauto.
      + destruct Hm as [_ <-]. rewrite Forall_forall in Hp. by apply Hp.
      + destruct Hm as [_ <-]. rewrite Forall_forall in Hp. by apply Hp. }
  assert (Hexists : existsb (λ r, bool_decide (rt_path r = path)) pp = usePprof && bool_decide (Exists (λ x, x.2 = path) pprofRoutes)).
  { apply Bool.eq_iff_eq_true. rewrite existsb_exists, andb_true_iff, bool_decide_eq_true, Exists_exists. split.
    - intros (r & Hr%list_elem_of_In & E%bool_decide_eq_true). apply Hpp in Hr as (x & -> & Hx & ->). eauto.
    - intros (-> & x & Hx & E). exists (mkRoute x.1 x.2 HPprof). rewrite <- list_elem_of_In, Hpp, bool_decide_eq_true. eauto. }
  clearbody pp. cbn [app existsb rt_path]. rewrite Hexists.
  destruct (decide (path = "/health")) as [->|Hh]; [|destruct (decide (path = "/metrics")) as [->|Hm]].
  - destruct Hfilter as [[Hf _]|(? & ? & _ & _ & _ & ? & _)]; [|done]. destruct (decide (method ∈ anyMethods)).
    + by rewrite filter_cons_True by done.
    + rewrite !filter_cons_False by (cbn; intuition congruence). by rewrite Hf.
  - destruct Hfilter as [[Hf _]|(? & ? & _ & _ & _ & _ & ?)]; [|done]. rewrite filter_cons_False by (cbn; intuition congruence).
    destruct (decide (method = "GET")) as [->|Hg].
    + rewrite filter_cons_True by (cbn; split; [left|done]). done.
    + rewrite filter_cons_False by (cbn; rewrite list_elem_of_singleton; intuition congruence). by rewrite Hf.
  - rewrite !filter_cons_False by (cbn; intuition congruence). rewrite !bool_decide_eq_false_2 by auto. cbn [orb].
    destruct Hfilter as [[-> ->]|(r & l & -> & Hr & -> & _)]; [done|]. by rewrite Hr.
Qed.
