(* ===== verification/Json.v ===== *)
(** * JSON texts

    The reader of [encoding/json] as far as the tables need it: texts of ASCII
    characters, without [\u] escapes. The parser runs on fuel; [p_ok] shows that twice the
    length of the text is always enough, so the fuel of [jparse] decides nothing. *)

From S2P Require Import Prelude DataBus.

Definition ch (n : nat) : Ascii.ascii := Ascii.ascii_of_nat n.
Definition code (c : Ascii.ascii) : N := Ascii.N_of_ascii c.

Definition cQuote := ch 34.
Definition cComma := ch 44.
Definition cMinus := ch 45.
Definition cColon := ch 58.
Definition cLBracket := ch 91.
Definition cBackslash := ch 92.
Definition cRBracket := ch 93.
Definition cLBrace := ch 123.
Definition cRBrace := ch 125.

(** Numbers keep their text, as the decoder sees it. *)
Inductive jval :=
| JNull
| JBool (b : bool)
| JNum (t : string)
| JStr (s : string)
| JArr (l : list jval)
| JObj (l : list (string * jval)).

Definition isWs (c : Ascii.ascii) : bool := bool_decide (c ∈ [ch 32; ch 9; ch 10; ch 13]).
Fixpoint skipWs (s : string) : string :=
  match s with String c t => if isWs c then skipWs t else s | EmptyString => s end.

Definition escape (c : Ascii.ascii) : option Ascii.ascii :=
  match code c with
  | 34 => Some (ch 34) | 92 => Some (ch 92) | 47 => Some (ch 47) | 98 => Some (ch 8)
  | 102 => Some (ch 12) | 110 => Some (ch 10) | 114 => Some (ch 13) | 116 => Some (ch 9)
  | _ => None
  end%N.

(** Behind the opening quote. *)
Fixpoint pstr (s : string) : option (string * string) :=
  match s with
  | EmptyString => None
  | String c t =>
      if decide (c = cQuote) then Some (EmptyString, t)
      else if decide (c = cBackslash) then
        match t with
        | EmptyString => None
        | String e t => x ← escape e; '(a, r) ← pstr t; Some (String x a, r)
        end
      else if decide (code c < 32)%N then None
      else '(a, r) ← pstr t; Some (String c a, r)
  end.

Definition isDigit (c : Ascii.ascii) : bool := bool_decide (48 ≤ code c ≤ 57)%N.
Fixpoint spanDigits (s : string) : string * string :=
  match s with
  | String c t => if isDigit c then let '(a, r) := spanDigits t in (String c a, r) else (EmptyString, s)
  | EmptyString => (EmptyString, s)
  end.
(** The digits after [pre], at least one. *)
Definition digits1 (pre s : string) : option (string * string) :=
  let '(d, r) := spanDigits s in if decide (d = EmptyString) then None else Some (pre +:+ d, r).

Definition pfrac (s : string) : option (string * string) :=
  match s with
  | String c t => if decide (c = ch 46) then digits1 (String c EmptyString) t else Some (EmptyString, s)
  | EmptyString => Some (EmptyString, s)
  end.
Definition pexp (s : string) : option (string * string) :=
  match s with
  | String c t =>
      if decide (c = ch 101 ∨ c = ch 69) then
        match t with
        | String d u => if decide (d = ch 43 ∨ d = cMinus) then digits1 (String c (String d EmptyString)) u else digits1 (String c EmptyString) t
        | EmptyString => None
        end
      else Some (EmptyString, s)
  | EmptyString => Some (EmptyString, s)
  end.
Definition pint (s : string) : option (string * string) :=
  match s with
  | String c t => if decide (c = ch 48) then Some (String c EmptyString, t) else digits1 EmptyString s
  | EmptyString => None
  end.
Definition pnum (s : string) : option (string * string) :=
  let '(sg, s) := match s with
                  | String c t => if decide (c = cMinus) then (String c EmptyString, t) else (EmptyString, s)
                  | EmptyString => (EmptyString, s)
                  end in
  '(a, s) ← pint s; '(b, s) ← pfrac s; '(c, s) ← pexp s; Some (sg +:+ a +:+ b +:+ c, s).

Fixpoint plit (lit s : string) : option string :=
  match lit, s with
  | EmptyString, _ => Some s
  | String a lit, String b s => if decide (a = b) then plit lit s else None
  | _, _ => None
  end.

Fixpoint pval (n : nat) (s : string) : option (jval * string) :=
  match n with
  | O => None
  | S n =>
      match skipWs s with
      | EmptyString => None
      | String c t =>
          if decide (c = cLBrace) then
            match skipWs t with
            | String d u => if decide (d = cRBrace) then Some (JObj [], u) else '(l, r) ← pmembers n t; Some (JObj l, r)
            | EmptyString => None
            end
          else if decide (c = cLBracket) then
            match skipWs t with
            | String d u => if decide (d = cRBracket) then Some (JArr [], u) else '(l, r) ← pelems n t; Some (JArr l, r)
            | EmptyString => None
            end
          else if decide (c = cQuote) then '(a, r) ← pstr t; Some (JStr a, r)
          else if decide (c = ch 116) then r ← plit "rue" t; Some (JBool true, r)
          else if decide (c = ch 102) then r ← plit "alse" t; Some (JBool false, r)
          else if decide (c = ch 110) then r ← plit "ull" t; Some (JNull, r)
          else '(a, r) ← pnum (String c t); Some (JNum a, r)
      end
  end
with pelems (n : nat) (s : string) : option (list jval * string) :=
  match n with
  | O => None
  | S n =>
      '(v, r) ← pval n s;
      match skipWs r with
      | String d u =>
          if decide (d = cComma) then '(l, r) ← pelems n u; Some (v :: l, r)
          else if decide (d = cRBracket) then Some ([v], u) else None
      | EmptyString => None
      end
  end
with pmembers (n : nat) (s : string) : option (list (string * jval) * string) :=
  match n with
  | O => None
  | S n =>
      match skipWs s with
      | String q t =>
          if decide (q = cQuote) then
            '(k, r) ← pstr t;
            match skipWs r with
            | String d u =>
                if decide (d = cColon) then
                  '(v, r) ← pval n u;
                  match skipWs r with
                  | String d u =>
                      if decide (d = cComma) then '(l, r) ← pmembers n u; Some ((k, v) :: l, r)
                      else if decide (d = cRBrace) then Some ([(k, v)], u) else None
                  | EmptyString => None
                  end
                else None
            | EmptyString => None
            end
          else None
      | EmptyString => None
      end
  end.

(** A whole text: nothing but white space after the value. *)
Definition jparse (s : string) : option jval :=
  '(v, r) ← pval (2 * String.length s) s; if decide (skipWs r = EmptyString) then Some v else None.

(** ** Fuel *)

Abbreviation slen := String.length.

Lemma skipWs_len s : (slen (skipWs s) ≤ slen s)%nat.
Proof. induction s as [|c s IH]; cbn; [done|]. destruct (isWs c); cbn; lia. Qed.

Lemma pstr_len s a r : pstr s = Some (a, r) → (slen r < slen s)%nat.
Proof.
  assert (H : ∀ n s a r, (slen s ≤ n)%nat → pstr s = Some (a, r) → (slen r < slen s)%nat); [|by eapply H].
  clear. induction n as [|n IH]; intros [|c t] a r Hn E; cbn in Hn; try lia; [done|done|]. cbn in E.
  destruct (decide (c = cQuote)); [injection E as _ <-; cbn; lia|]. destruct (decide (c = cBackslash)).
  - destruct t as [|x t]; [done|]. destruct (escape x); [|done]. cbn in E. destruct (pstr t) as [[a' r']|] eqn:Et; [|done]. cbn in E.
    injection E as _ <-. apply IH in Et; cbn in *; lia.
  - destruct (decide (code c < 32)%N); [done|]. destruct (pstr t) as [[a' r']|] eqn:Et; [|done]. cbn in E.
    injection E as _ <-. apply IH in Et; cbn in *; lia.
Qed.

Lemma spanDigits_len s : (slen (spanDigits s).2 ≤ slen s)%nat.
Proof.
  induction s as [|c s IH]; cbn; [done|]. destruct (isDigit c); [|done]. destruct (spanDigits s) as [a r]. cbn in *. lia.
Qed.
Lemma digits1_len pre s a r : digits1 pre s = Some (a, r) → (slen r < slen s)%nat.
Proof.
  unfold digits1. destruct s as [|c s]; cbn; [done|]. pose proof (spanDigits_len s). destruct (isDigit c); cbn; [|done].
  destruct (spanDigits s) as [d r']. cbn in *. intros [= _ <-]. lia.
Qed.
Lemma pfrac_len s a r : pfrac s = Some (a, r) → (slen r ≤ slen s)%nat.
Proof.
  unfold pfrac. destruct s as [|c t]; [by intros [= _ <-]|]. case_decide; [|by intros [= _ <-]]. intros E%digits1_len. cbn. lia.
Qed.
Lemma pexp_len s a r : pexp s = Some (a, r) → (slen r ≤ slen s)%nat.
Proof.
  unfold pexp. destruct s as [|c t]; [by intros [= _ <-]|]. case_decide; [|by intros [= _ <-]]. destruct t as [|d u]; [done|].
  case_decide; intros E%digits1_len; cbn in *; lia.
Qed.
Lemma pint_len s a r : pint s = Some (a, r) → (slen r < slen s)%nat.
Proof.
  unfold pint. destruct s as [|c t]; [done|]. case_decide; [intros [= _ <-]; cbn; lia|]. apply digits1_len.
Qed.
Lemma pnum_len s a r : pnum s = Some (a, r) → (slen r < slen s)%nat.
Proof.
  unfold pnum. set (p := match s with String _ _ => _ | EmptyString => _ end).
  assert (Hp : (slen p.2 ≤ slen s)%nat) by (unfold p; destruct s as [|c t]; cbn; [done|]; case_decide; cbn; lia).
  destruct p as [sg s1]. cbn in Hp. destruct (pint s1) as [[x1 s2]|] eqn:E1; [|done]. cbn.
  destruct (pfrac s2) as [[x2 s3]|] eqn:E2; [|done]. cbn. destruct (pexp s3) as [[x3 s4]|] eqn:E3; [|done]. cbn. intros [= _ <-].
  apply pint_len in E1. apply pfrac_len in E2. apply pexp_len in E3. lia.
Qed.
Lemma plit_len lit s r : plit lit s = Some r → (slen r ≤ slen s)%nat.
Proof.
  revert s r. induction lit as [|a lit IH]; intros [|b s] r; cbn; [by intros [= <-]..|done|]. case_decide; [|done]. intros ?%IH. lia.
Qed.

Definition pval_ok (n : nat) : Prop := ∀ s v r, pval n s = Some (v, r) →
  (slen r < slen s)%nat ∧ ∀ m, (2 * slen s ≤ m)%nat → pval m s = Some (v, r).
Definition pelems_ok (n : nat) : Prop := ∀ s l r, pelems n s = Some (l, r) →
  (slen r < slen s)%nat ∧ ∀ m, (2 * slen s + 1 ≤ m)%nat → pelems m s = Some (l, r).
Definition pmembers_ok (n : nat) : Prop := ∀ s l r, pmembers n s = Some (l, r) →
  (slen r < slen s)%nat ∧ ∀ m, (2 * slen s ≤ m)%nat → pmembers m s = Some (l, r).

Lemma pval_step n : pelems_ok n → pmembers_ok n → pval_ok (S n).
Proof.
  intros He Hm s v r. cbn [pval]. pose proof (skipWs_len s) as Hs. destruct (skipWs s) as [|c t] eqn:Es; [done|]. cbn in Hs. intros E.
  assert (Hpos : ∀ m, (2 * slen s ≤ m)%nat → ∃ m', m = S m' ∧ (2 * slen t + 1 ≤ m')%nat).
  { intros [|m'] Hmm; [lia|]. exists m'. split; [done|lia]. }
  assert (Hskip : (slen (skipWs t) ≤ slen t)%nat) by apply skipWs_len.
  destruct (decide (c = cLBrace)).
  { destruct (skipWs t) as [|d u] eqn:Et; [done|]. destruct (decide (d = cRBrace)).
    - injection E as <- <-. cbn in Hskip. split; [lia|]. intros m (m' & -> & _)%Hpos. cbn [pval]. rewrite Es, Et. by rewrite !decide_True.
    - destruct (pmembers n t) as [[l r']|] eqn:El; [|done]. cbn in E. injection E as <- <-. destruct (Hm _ _ _ El) as [Hl Hf]. split; [lia|].
      intros m (m' & -> & ?)%Hpos. cbn [pval]. rewrite Es, Et, Hf by lia. by rewrite decide_True, decide_False. }
  destruct (decide (c = cLBracket)).
  { destruct (skipWs t) as [|d u] eqn:Et; [done|]. destruct (decide (d = cRBracket)).
    - injection E as <- <-. cbn in Hskip. split; [lia|]. intros m (m' & -> & _)%Hpos. cbn [pval]. rewrite Es, Et.
      by rewrite decide_False, !decide_True.
    - destruct (pelems n t) as [[l r']|] eqn:El; [|done]. cbn in E. injection E as <- <-. destruct (He _ _ _ El) as [Hl Hf]. split; [lia|].
      intros m (m' & -> & ?)%Hpos. cbn [pval]. rewrite Es, Et, Hf by lia. by rewrite decide_False, decide_True, decide_False. }
  split; [|intros m (m' & -> & _)%Hpos; cbn [pval]; rewrite Es; by rewrite !(decide_False (P := c = cLBrace)), !(decide_False (P := c = cLBracket))].
  repeat (case_decide; [|]).
  - destruct (pstr t) as [[a r']|] eqn:Ep; [|done]. cbn in E. injection E as _ <-. apply pstr_len in Ep. lia.
  - destruct (plit _ t) as [r'|] eqn:Ep; [|done]. cbn in E. injection E as _ <-. apply plit_len in Ep. lia.
  - destruct (plit _ t) as [r'|] eqn:Ep; [|done]. cbn in E. injection E as _ <-. apply plit_len in Ep. lia.
  - destruct (plit _ t) as [r'|] eqn:Ep; [|done]. cbn in E. injection E as _ <-. apply plit_len in Ep. lia.
  - destruct (pnum _) as [[a r']|] eqn:Ep; [|done]. cbn in E. injection E as _ <-. apply pnum_len in Ep. cbn in Ep. lia.
Qed.

Lemma pelems_step n : pval_ok n → pelems_ok n → pelems_ok (S n).
Proof.
  intros Hv He s l r. cbn [pelems]. destruct (pval n s) as [[v r1]|] eqn:Ev; [|done]. cbn [mbind option_bind]. intros E.
  destruct (Hv _ _ _ Ev) as [Hr1 Hf]. pose proof (skipWs_len r1) as Hs. destruct (skipWs r1) as [|d u] eqn:Er; [done|]. cbn in Hs.
  destruct (decide (d = cComma)).
  - destruct (pelems n u) as [[l' r2]|] eqn:El; [|done]. cbn in E. injection E as <- <-. destruct (He _ _ _ El) as [Hl Hg]. split; [lia|].
    intros [|m] Hm; [lia|]. cbn [pelems]. rewrite Hf by lia. cbn. rewrite Er, decide_True, Hg by (done || lia). done.
  - destruct (decide (d = cRBracket)); [|done]. injection E as <- <-. split; [lia|].
    intros [|m] Hm; [lia|]. cbn [pelems]. rewrite Hf by lia. cbn. by rewrite Er, decide_False, decide_True by done.
Qed.

Lemma pmembers_step n : pval_ok n → pmembers_ok n → pmembers_ok (S n).
Proof.
  intros Hv He s l r. cbn [pmembers]. pose proof (skipWs_len s) as Hs. destruct (skipWs s) as [|q t] eqn:Es; [done|]. cbn in Hs.
  destruct (decide (q = cQuote)); [|done]. destruct (pstr t) as [[k r0]|] eqn:Ek; [|done]. cbn [mbind option_bind].
  pose proof (pstr_len _ _ _ Ek) as Hk. pose proof (skipWs_len r0) as H0. destruct (skipWs r0) as [|d u] eqn:E0; [done|]. cbn in H0.
  destruct (decide (d = cColon)); [|done]. destruct (pval n u) as [[v r1]|] eqn:Ev; [|done]. cbn [mbind option_bind]. intros E.
  destruct (Hv _ _ _ Ev) as [Hr1 Hf]. pose proof (skipWs_len r1) as H1. destruct (skipWs r1) as [|d2 u2] eqn:E1; [done|]. cbn in H1.
  destruct (decide (d2 = cComma)).
  - destruct (pmembers n u2) as [[l' r2]|] eqn:El; [|done]. cbn in E. injection E as <- <-. destruct (He _ _ _ El) as [Hl Hg]. split; [lia|].
    intros [|m] Hm; [lia|]. cbn [pmembers]. rewrite Es, decide_True by done. rewrite Ek. cbn. rewrite E0, decide_True by done.
    rewrite Hf by lia. cbn. rewrite E1, decide_True by done. by rewrite Hg by lia.
  - destruct (decide (d2 = cRBrace)); [|done]. injection E as <- <-. split; [lia|].
    intros [|m] Hm; [lia|]. cbn [pmembers]. rewrite Es, decide_True by done. rewrite Ek. cbn. rewrite E0, decide_True by done.
    rewrite Hf by lia. cbn. by rewrite E1, decide_False, decide_True by done.
Qed.

(** Twice the length of the text is enough for whatever any fuel parses. *)
Lemma p_ok n : pval_ok n ∧ pelems_ok n ∧ pmembers_ok n.
Proof.
  induction n as [|n (H1 & H2 & H3)]; [by repeat split|].
  split; [by apply pval_step|]. split; [by apply pelems_step|by apply pmembers_step].
Qed.

Lemma jparse_complete n s v r : pval n s = Some (v, r) → skipWs r = EmptyString → jparse s = Some v.
Proof.
  intros E Hr. destruct (proj1 (p_ok n) _ _ _ E) as [_ Hf]. unfold jparse. rewrite Hf by lia. cbn. by rewrite decide_True.
Qed.

(** ** Texts that parse *)

(** What may follow a value inside an object or an array. *)
Definition closes (rest : string) : Prop :=
  match rest with String c _ => c ∈ [cComma; cRBrace; cRBracket; ch 10] | EmptyString => False end.

Definition parses (s : string) (v : jval) : Prop := ∀ rest, closes rest → ∃ n, pval n (s +:+ rest) = Some (v, rest).

(** A string without quotes, backslashes and control characters. *)
Fixpoint plain (s : string) : bool :=
  match s with
  | EmptyString => true
  | String c s => bool_decide (c ≠ cQuote ∧ c ≠ cBackslash ∧ (32 ≤ code c)%N) && plain s
  end.

Definition quoted (s : string) : string := String cQuote s +:+ String cQuote EmptyString.

Lemma pstr_plain s rest : plain s = true → pstr (s +:+ String cQuote rest) = Some (s, rest).
Proof.
  induction s as [|c s IH]; [done|]. rewrite append_cons. cbn [plain]. intros [Hc%bool_decide_eq_true Hs]%andb_true_iff. cbn [pstr].
  destruct Hc as (H1 & H2 & H3). rewrite !decide_False by (done || lia). by rewrite IH.
Qed.

Lemma quoted_app s rest : quoted s +:+ rest = String cQuote (s +:+ String cQuote rest).
Proof. unfold quoted. by rewrite !append_cons, <- append_assoc, append_cons, append_nil_l. Qed.

Lemma parses_str s : plain s = true → parses (quoted s) (JStr s).
Proof.
  intros Hs rest _. exists 1%nat. rewrite quoted_app. cbn [pval skipWs]. change (isWs cQuote) with false. cbn iota.
  rewrite !(decide_False (P := cQuote = cLBrace)), !(decide_False (P := cQuote = cLBracket)), (decide_True (P := cQuote = cQuote)) by done.
  by rewrite pstr_plain.
Qed.

(** *** Integers *)

Fixpoint allDigits (s : string) : bool := match s with EmptyString => true | String c s => isDigit c && allDigits s end.

Lemma isDigit_pretty (d : N) : (d < 10)%N → isDigit (pretty_N_char d) = true.
Proof.
  intros Hd. assert (d ∈ [0; 1; 2; 3; 4; 5; 6; 7; 8; 9]%N) as Hi by (rewrite !elem_of_cons; lia).
  clear Hd. repeat (apply elem_of_cons in Hi as [->|Hi]; [reflexivity|]). by apply elem_of_nil in Hi.
Qed.
Lemma pretty_nonzero (d : N) : (0 < d < 10)%N → pretty_N_char d ≠ ch 48.
Proof.
  intros Hd. assert (d ∈ [1; 2; 3; 4; 5; 6; 7; 8; 9]%N) as Hi by (rewrite !elem_of_cons; lia).
  clear Hd. repeat (apply elem_of_cons in Hi as [->|Hi]; [discriminate|]). by apply elem_of_nil in Hi.
Qed.

Lemma pretty_go_shape (n : N) s : (0 < n)%N →
  ∃ c t, pretty_N_go n s = String c (t +:+ s) ∧ c ≠ ch 48 ∧ isDigit c = true ∧ allDigits t = true.
Proof.
  revert s. induction (N.lt_wf_0 n) as [n _ IH]. intros s Hn. rewrite pretty_N_go_step by lia.
  destruct (decide (n / 10 = 0)%N) as [E|E].
  - rewrite E, pretty_N_go_0. assert (n < 10)%N by (apply N.div_small_iff in E; lia). exists (pretty_N_char (n mod 10)), EmptyString.
    rewrite N.mod_small by lia. split; [done|]. split; [apply pretty_nonzero; lia|]. split; [by apply isDigit_pretty|done].
  - destruct (IH (n / 10)%N ltac:(apply N.div_lt; lia) (String (pretty_N_char (n mod 10)) s) (proj1 (N.neq_0_lt_0 _) E)) as (c & t & -> & H1 & H2 & H3).
    exists c, (t +:+ String (pretty_N_char (n mod 10)) EmptyString). rewrite <- append_assoc. split; [done|]. split; [done|]. split; [done|].
    revert H3. clear. induction t as [|x t IH]; [rewrite append_nil_l; cbn; by rewrite isDigit_pretty by (apply N.mod_lt; lia)|].
    rewrite append_cons. cbn. intros [-> ?]%andb_true_iff. cbn. by apply IH.
Qed.

Lemma spanDigits_all s rest : allDigits s = true → closes rest → spanDigits (s +:+ rest) = (s, rest).
Proof.
  intros Hs Hr. induction s as [|c s IH]; rewrite ?append_nil_l, ?append_cons; cbn in *.
  - destruct rest as [|c r]; [done|]. cbn. assert (isDigit c = false) as ->; [|done].
    unfold closes in Hr. rewrite !elem_of_cons, elem_of_nil in Hr. by destruct Hr as [->|[->|[->|[->|[]]]]].
  - apply andb_true_iff in Hs as [-> Hs]. by rewrite IH.
Qed.

Lemma no_frac rest : closes rest → pfrac rest = Some (EmptyString, rest) ∧ pexp rest = Some (EmptyString, rest).
Proof.
  destruct rest as [|c r]; [done|]. unfold closes. rewrite !elem_of_cons, elem_of_nil. by intros [->|[->|[->|[->|[]]]]].
Qed.

Lemma pnum_digits sg c t rest :
  c ≠ ch 48 → isDigit c = true → allDigits t = true → closes rest → sg = EmptyString ∨ sg = String cMinus EmptyString →
  pnum (sg +:+ String c t +:+ rest) = Some (sg +:+ String c t, rest).
Proof.
  intros H0 Hc Ht Hr Hsg. destruct (no_frac rest Hr) as [Hf He].
  assert (Hm : c ≠ cMinus) by (by intros ->).
  assert (Hi : pint (String c (t +:+ rest)) = Some (String c t, rest)).
  { unfold pint. rewrite decide_False by done. unfold digits1. cbn [spanDigits]. rewrite Hc, spanDigits_all by done. done. }
  unfold pnum. destruct Hsg as [-> | ->]; rewrite ?append_cons, ?append_nil_l.
  - rewrite decide_False by done. rewrite Hi. cbn. rewrite Hf. cbn. rewrite He. cbn. by rewrite !append_nil_l, !append_nil.
  - rewrite decide_True by done. rewrite Hi. cbn. rewrite Hf. cbn. rewrite He. cbn. by rewrite !append_nil_l, !append_nil.
Qed.

(** A character that starts a number starts nothing else. *)
Lemma pval_num c t a r :
  isDigit c = true ∨ c = cMinus → pnum (String c t) = Some (a, r) → pval 1 (String c t) = Some (JNum a, r).
Proof.
  intros Hc E. cbn [pval skipWs].
  assert (Hd : ∀ x, code x ≠ 45%N → isDigit x = false → c ≠ x).
  { intros x H1 H2 ->. destruct Hc as [Hc| ->]; [congruence|done]. }
  assert (isWs c = false) as ->.
  { unfold isWs. apply bool_decide_eq_false_2. rewrite !elem_of_cons, elem_of_nil. intros [->|[->|[->|[->|[]]]]]; by destruct Hc. }
  rewrite (decide_False (P := c = cLBrace)), (decide_False (P := c = cLBracket)), (decide_False (P := c = cQuote)),
    (decide_False (P := c = ch 116)), (decide_False (P := c = ch 102)), (decide_False (P := c = ch 110)) by (by apply Hd).
  by rewrite E.
Qed.

(** Every integer, written in decimal. *)
Lemma parses_int (z : Z) : parses (Itoa z) (JNum (Itoa z)).
Proof.
  intros rest Hr. exists 1%nat. unfold Itoa. destruct z as [|p|p].
  - change (pretty 0) with (String (ch 48) EmptyString). destruct (no_frac rest Hr) as [Hf He].
    apply pval_num; [by left|]. unfold pnum. rewrite ?append_nil_l. rewrite decide_False by done. unfold pint. rewrite decide_True by done. cbn.
    rewrite Hf. cbn. rewrite He. done.
  - change (pretty (Z.pos p)) with (pretty (N.pos p)). unfold pretty, pretty_N. rewrite decide_False by done.
    destruct (pretty_go_shape (N.pos p) EmptyString) as (c & t & E & H1 & H2 & H3); [lia|]. rewrite E, append_nil.
    apply pval_num; [by left|]. apply (pnum_digits EmptyString); auto.
  - change (pretty (Z.neg p)) with (String cMinus (pretty (N.pos p))). unfold pretty, pretty_N. rewrite decide_False by done.
    destruct (pretty_go_shape (N.pos p) EmptyString) as (c & t & E & H1 & H2 & H3); [lia|]. rewrite E, append_nil.
    apply pval_num; [by right|]. apply (pnum_digits (String cMinus EmptyString)); auto.
Qed.

(** *** Objects and arrays *)

Lemma pval_fuel n m s x : pval n s = Some x → (2 * slen s ≤ m)%nat → pval m s = Some x.
Proof. destruct x as [v r]. intros E Hm. by apply (proj1 (p_ok n) _ _ _ E). Qed.
Lemma pelems_fuel n m s x : pelems n s = Some x → (2 * slen s + 1 ≤ m)%nat → pelems m s = Some x.
Proof. destruct x as [v r]. intros E Hm. by apply (proj1 (proj2 (p_ok n)) _ _ _ E). Qed.
Lemma pmembers_fuel n m s x : pmembers n s = Some x → (2 * slen s ≤ m)%nat → pmembers m s = Some x.
Proof. destruct x as [v r]. intros E Hm. by apply (proj2 (proj2 (p_ok n)) _ _ _ E). Qed.

Fixpoint membersText (ms : list (string * string)) : string :=
  match ms with
  | [] => EmptyString
  | [(k, t)] => quoted k +:+ String cColon t
  | (k, t) :: ms => quoted k +:+ String cColon (t +:+ String cComma (membersText ms))
  end.
Definition objText (ms : list (string * string)) : string := String cLBrace (membersText ms +:+ String cRBrace EmptyString).

Definition memberOk (m : string * string) (kv : string * jval) : Prop := kv.1 = m.1 ∧ plain m.1 = true ∧ parses m.2 kv.2.

Lemma pmembers_text ms vs rest :
  Forall2 memberOk ms vs → ms ≠ [] → ∃ n, pmembers n (membersText ms +:+ String cRBrace rest) = Some (vs, rest).
Proof.
  induction 1 as [|[k t] [k' v] ms vs (Hk & Hp & Ht) Hms IH]; [done|intros _]. cbn in Hk, Hp, Ht. subst k'.
  destruct ms as [|m ms].
  - apply Forall2_nil_inv_l in Hms as ->. destruct (Ht (String cRBrace rest)) as [n Hn]; [cbn; set_solver|]. exists (S n).
    cbn [membersText]. rewrite <- append_assoc, quoted_app, append_cons. cbn [pmembers skipWs]. change (isWs cQuote) with false. cbn iota.
    rewrite decide_True by done. rewrite pstr_plain by done. cbn. change (isWs cColon) with false. cbn iota. rewrite decide_True by done.
    rewrite Hn. cbn. done.
  - destruct (IH ltac:(done)) as [n1 Hn1].
    destruct (Ht (String cComma (membersText (m :: ms) +:+ String cRBrace rest))) as [n0 Hn0]; [cbn; set_solver|].
    set (u := membersText (m :: ms) +:+ String cRBrace rest) in *.
    assert (HN : ∃ N, (2 * slen (t +:+ String cComma u) ≤ N ∧ 2 * slen u ≤ N)%nat)
      by (exists (2 * slen (t +:+ String cComma u) + 2 * slen u)%nat; lia).
    destruct HN as (N & HN0 & HN1). exists (S N).
    assert (Em : membersText ((k, t) :: m :: ms) +:+ String cRBrace rest = String cQuote (k +:+ String cQuote (String cColon (t +:+ String cComma u)))).
    { unfold u. cbn [membersText]. destruct m as [km tm]. rewrite <- append_assoc, quoted_app, append_cons, <- append_assoc. done. }
    rewrite Em. clearbody u. cbn [pmembers skipWs]. change (isWs cQuote) with false. cbn iota.
    rewrite decide_True by done. rewrite pstr_plain by done. cbn. change (isWs cColon) with false. cbn iota. rewrite decide_True by done.
    rewrite (pval_fuel _ N _ _ Hn0) by done. cbn. change (isWs cComma) with false. cbn iota. rewrite decide_True by done. rewrite (pmembers_fuel _ N _ _ Hn1) by done. done.
Qed.

Lemma membersText_quote ms rest : ms ≠ [] → ∃ u, membersText ms +:+ rest = String cQuote u.
Proof.
  destruct ms as [|[k t] [|m ms]]; [done|..]; intros _; cbn [membersText]; rewrite <- append_assoc, quoted_app; by eexists.
Qed.

Lemma parses_obj ms vs : Forall2 memberOk ms vs → parses (objText ms) (JObj vs).
Proof.
  intros H rest _. unfold objText. rewrite append_cons, <- append_assoc, append_cons, append_nil_l.
  destruct ms as [|m ms].
  - apply Forall2_nil_inv_l in H as ->. exists 1%nat. done.
  - destruct (pmembers_text (m :: ms) vs rest H ltac:(done)) as [n Hn]. destruct (membersText_quote (m :: ms) (String cRBrace rest) ltac:(done)) as [u Eu].
    exists (S n). rewrite Eu in *. cbn [pval skipWs]. change (isWs cLBrace) with false. change (isWs cQuote) with false. cbn iota.
    rewrite decide_True by done. cbn [skipWs]. change (isWs cQuote) with false. cbn iota. rewrite decide_False by done. by rewrite Hn.
Qed.

Definition cNL := ch 10.
Fixpoint elemsText (es : list string) : string :=
  match es with
  | [] => EmptyString
  | [e] => e
  | e :: es => e +:+ String cComma (String cNL (elemsText es))
  end.
(** An array over several lines. *)
Definition arrText (es : list string) : string :=
  String cLBracket (String cNL (elemsText es +:+ String cNL (String cRBracket EmptyString))).

Lemma pval_ws n c s : isWs c = true → pval n (String c s) = pval n s.
Proof. intros Hc. destruct n as [|n]; [done|]. cbn [pval skipWs]. by rewrite Hc. Qed.
Lemma pelems_ws n c s : isWs c = true → pelems n (String c s) = pelems n s.
Proof. intros Hc. destruct n as [|n]; [done|]. cbn [pelems]. by rewrite pval_ws. Qed.

Lemma pelems_text es vs :
  Forall2 parses es vs → es ≠ [] → ∃ n, pelems n (elemsText es +:+ String cNL (String cRBracket EmptyString)) = Some (vs, EmptyString).
Proof.
  induction 1 as [|e v es vs He Hes IH]; [done|intros _]. destruct es as [|e' es].
  - apply Forall2_nil_inv_l in Hes as ->. destruct (He (String cNL (String cRBracket EmptyString))) as [n Hn]; [cbn; set_solver|]. exists (S n).
    cbn [elemsText pelems]. rewrite Hn. done.
  - destruct (IH ltac:(done)) as [n1 Hn1]. set (u := elemsText (e' :: es) +:+ String cNL (String cRBracket EmptyString)) in *.
    destruct (He (String cComma (String cNL u))) as [n0 Hn0]; [cbn; set_solver|].
    assert (HN : ∃ N, (2 * slen (e +:+ String cComma (String cNL u)) ≤ N ∧ 2 * slen u + 1 ≤ N)%nat)
      by (exists (2 * slen (e +:+ String cComma (String cNL u)) + 2 * slen u + 1)%nat; lia).
    destruct HN as (N & HN0 & HN1). exists (S N).
    assert (Ee : elemsText (e :: e' :: es) +:+ String cNL (String cRBracket EmptyString) = e +:+ String cComma (String cNL u)).
    { unfold u. cbn [elemsText]. rewrite <- append_assoc. done. }
    rewrite Ee. clearbody u. cbn [pelems]. rewrite (pval_fuel _ N _ _ Hn0) by done. cbn. change (isWs cComma) with false. cbn iota. rewrite decide_True by done. rewrite pelems_ws by done.
    rewrite (pelems_fuel _ N _ _ Hn1) by done. done.
Qed.

(** The first character of elements closes no array. *)
Lemma pelems_first n s x : pelems n s = Some x → ∃ c u, skipWs s = String c u ∧ c ≠ cRBracket.
Proof.
  intros Hn. destruct n as [|n]; [done|]. cbn [pelems] in Hn. destruct (pval n s) as [[v r]|] eqn:Ev; [|done].
  destruct n as [|n]; [done|]. cbn [pval] in Ev. destruct (skipWs s) as [|c u]; [done|]. exists c, u. split; [done|]. intros ->. by cbn in Ev.
Qed.

(** The array as a whole text. *)
Lemma jparse_arr es vs : Forall2 parses es vs → jparse (arrText es) = Some (JArr vs).
Proof.
  intros H. destruct es as [|e es].
  - apply Forall2_nil_inv_l in H as ->. done.
  - destruct (pelems_text (e :: es) vs H ltac:(done)) as [n Hn].
    destruct (pelems_first _ _ _ Hn) as (c & u & Es & Hc).
    apply (jparse_complete (S n) _ _ EmptyString); [|done]. unfold arrText. cbn [pval skipWs].
    change (isWs cLBracket) with false. cbn iota. rewrite decide_False, decide_True by done. cbn [skipWs]. change (isWs cNL) with true. cbn iota.
    rewrite Es, decide_False by done. rewrite pelems_ws by done. by rewrite Hn.
Qed.

(** An array on one line. *)
Fixpoint commaText (es : list string) : string :=
  match es with
  | [] => EmptyString
  | [e] => e
  | e :: es => e +:+ String cComma (commaText es)
  end.
Definition listText (es : list string) : string := String cLBracket (commaText es +:+ String cRBracket EmptyString).

Lemma pelems_comma es vs rest :
  Forall2 parses es vs → es ≠ [] → ∃ n, pelems n (commaText es +:+ String cRBracket rest) = Some (vs, rest).
Proof.
  induction 1 as [|e v es vs He Hes IH]; [done|intros _]. destruct es as [|e' es].
  - apply Forall2_nil_inv_l in Hes as ->. destruct (He (String cRBracket rest)) as [n Hn]; [cbn; set_solver|]. exists (S n).
    cbn [commaText pelems]. rewrite Hn. done.
  - destruct (IH ltac:(done)) as [n1 Hn1]. set (u := commaText (e' :: es) +:+ String cRBracket rest) in *.
    destruct (He (String cComma u)) as [n0 Hn0]; [cbn; set_solver|].
    assert (HN : ∃ N, (2 * slen (e +:+ String cComma u) ≤ N ∧ 2 * slen u + 1 ≤ N)%nat)
      by (exists (2 * slen (e +:+ String cComma u) + 2 * slen u + 1)%nat; lia).
    destruct HN as (N & HN0 & HN1). exists (S N).
    assert (Ee : commaText (e :: e' :: es) +:+ String cRBracket rest = e +:+ String cComma u).
    { unfold u. cbn [commaText]. rewrite <- append_assoc. done. }
    rewrite Ee. clearbody u. cbn [pelems]. rewrite (pval_fuel _ N _ _ Hn0) by done. cbn. change (isWs cComma) with false. cbn iota.
    rewrite decide_True by done. by rewrite (pelems_fuel _ N _ _ Hn1).
Qed.

Lemma parses_list es vs : Forall2 parses es vs → parses (listText es) (JArr vs).
Proof.
  intros H rest _. unfold listText. rewrite append_cons, <- append_assoc, append_cons, append_nil_l. destruct es as [|e es].
  - apply Forall2_nil_inv_l in H as ->. exists 1%nat. done.
  - destruct (pelems_comma (e :: es) vs rest H ltac:(done)) as [n Hn]. destruct (pelems_first _ _ _ Hn) as (c & u & Es & Hc).
    exists (S n). cbn [pval skipWs]. change (isWs cLBracket) with false. cbn iota. rewrite decide_False, decide_True by done.
    rewrite Es, decide_False by done. by rewrite Hn.
Qed.
