(* ===== verification/TableMake.v ===== *)
(** * pkg/tb_load/make_cfg: from spreadsheets to tables

    [util.go], [make_struct.go], [make_data.go], [walk_file.go]: every sheet of every
    workbook becomes a protobuf message per row, a table message with the list and the map of
    its rows, and a JSON file with the rows. Spreadsheets are given as the rows of strings that
    the reader library returns; the files written are kept as a map from path to content. Names
    and cells are ASCII texts. *)

From S2P Require Import Prelude DataBus Account Json.

(** ** Strings *)

Definition cUnderscore := ch 95.
Definition cSlash := ch 47.
Definition cDot := ch 46.

Definition isLower (c : Ascii.ascii) : bool := bool_decide (97 ≤ code c ≤ 122)%N.
Definition isUpper (c : Ascii.ascii) : bool := bool_decide (65 ≤ code c ≤ 90)%N.
Definition toUpper (c : Ascii.ascii) : Ascii.ascii := if isLower c then Ascii.ascii_of_N (code c - 32) else c.

Definition capitalize (s : string) : string := match s with String c t => String (toUpper c) t | EmptyString => s end.

Fixpoint concat (l : list string) : string := match l with [] => EmptyString | s :: l => s +:+ concat l end.

(** An empty part contributes nothing either way. *)
Definition snakeToCamel (s : string) : string := concat (capitalize <$> Split cUnderscore s).

(** [strings.Title]: the letters after something that is no letter, digit or underscore. *)
Definition isSeparator (c : Ascii.ascii) : bool :=
  negb (isLower c || isUpper c || isDigit c || bool_decide (c = cUnderscore) || bool_decide (128 ≤ code c)%N).
Fixpoint titleFrom (start : bool) (s : string) : string :=
  match s with
  | EmptyString => EmptyString
  | String c t => String (if start then toUpper c else c) (titleFrom (isSeparator c) t)
  end.
Definition Title (s : string) : string := titleFrom true s.

(** [strings.TrimRight] with a set of characters; [strings.Index] with one. *)
Fixpoint TrimRightSet (cut : list Ascii.ascii) (s : string) : string :=
  match s with
  | EmptyString => EmptyString
  | String c t => let t' := TrimRightSet cut t in if decide (t' = EmptyString ∧ c ∈ cut) then EmptyString else String c t'
  end.
Fixpoint after (c : Ascii.ascii) (s : string) : option string :=
  match s with
  | EmptyString => None
  | String a t => if decide (a = c) then Some t else after c t
  end.

(** ** Descriptions of sheets *)

Record fieldDesc := mkFD { fd_name : string; fd_typ : string }.
Record structDesc := mkSD { sd_field : list fieldDesc; sd_name : string; sd_parent : string }.

Definition makeOneStruct (sheetName : string) (typ name : list string) : result structDesc :=
  if decide (length typ ≠ length name) then Err (ErrMsg "type and name length do not match")
  else Ok (mkSD (zip_with (λ n t, mkFD (snakeToCamel n) t) name typ) sheetName EmptyString).

(** ** The JSON file of a sheet *)

Definition cellText (fd : fieldDesc) (data : string) : string :=
  quoted (fd_name fd) +:+ String cColon (if decide (fd_typ fd = "string") then quoted data else data).

(** The loop of [writeRow]: what was written and the error. *)
Fixpoint writeCells (nf i : nat) (fds : list fieldDesc) (row : list string) (out : string) : string * go_error :=
  match row, fds with
  | data :: row, fd :: fds =>
      if decide (data = EmptyString) then (out, Some (ErrMsg "row has no data"))
      else writeCells nf (S i) fds row (out +:+ cellText fd data +:+ (if decide (i ≠ (nf - 1)%nat) then "," else EmptyString))
  | _, _ => (out, None)
  end.
Definition writeRow (desc : structDesc) (row : list string) (out : string) : string * go_error :=
  let '(out, err) := writeCells (length (sd_field desc)) 0 (sd_field desc) row (out +:+ "{") in
  match err with Some e => (out, Some e) | None => (out +:+ "}", None) end.

(** The rows from the third on. *)
Fixpoint writeRows (desc : structDesc) (rows : list (list string)) (out : string) : string * go_error :=
  match rows with
  | [] => (out, None)
  | row :: rows =>
      if decide (length row ≠ length (sd_field desc)) then (out, Some (ErrMsg "fields"))
      else let '(out, err) := writeRow desc row out in
           match err with
           | Some e => (out, Some e)
           | None => writeRows desc rows (match rows with [] => out | _ => out +:+ String cComma (String cNL EmptyString) end)
           end
  end.
(** The content of the file, complete or not. *)
Definition tableText (desc : structDesc) (rows : list (list string)) : string * go_error :=
  let '(out, err) := writeRows desc (drop 2 rows) (String cLBracket (String cNL EmptyString)) in
  match err with Some e => (out, Some e) | None => (out +:+ String cNL (String cRBracket EmptyString), None) end.

(** ** Files *)

(** [setup.json] is kept as the map it marshals. *)
Inductive file := FText (s : string) | FSetup (m : gmap string (gset string)).
Record world := mkW { w_dirs : gset string; w_files : gmap string file }.

Definition setupSheet : string := "setup".
Definition targetRoot : string := "target/".

(** [MkdirAll]: the directory and those above it. *)
Fixpoint dirsOf (pre s : string) : gset string :=
  match s with
  | EmptyString => {[pre]}
  | String c t => (if decide (c = cSlash) then {[pre]} else ∅) ∪ dirsOf (pre +:+ String c EmptyString) t
  end.

Definition writeJsonData (path sheetName : string) (desc : structDesc) (rows : list (list string)) (w : world) : world * go_error :=
  let '(text, err) := tableText desc rows in
  (mkW (dirsOf EmptyString path ∪ w_dirs w) (<[path +:+ "/" +:+ sheetName +:+ ".json" := FText text]> (w_files w)), err).

Fixpoint setupRows (rows : list (list string)) (ret : gmap string (gset string)) : result (gmap string (gset string)) :=
  match rows with
  | [] => Ok ret
  | [name; keys] :: rows => setupRows rows (<[name := list_to_set (Split cComma keys)]> ret)
  | _ :: _ => Err (ErrMsg "setup row length error")
  end.
(** The directory must exist: only [writeJsonData] makes it. *)
Definition buildSetups (path : string) (rows : list (list string)) (w : world) : world * go_error :=
  match setupRows (drop 1 rows) ∅ with
  | Err e => (w, Some e)
  | Ok m => if decide (path ∈ w_dirs w) then (mkW (w_dirs w) (<[path +:+ "/" +:+ setupSheet +:+ ".json" := FSetup m]> (w_files w)), None)
            else (w, Some (ErrMsg "no such file or directory"))
  end.

(** ** Workbooks *)

Definition errFileEmpty : gerror := ErrMsg "file is empty".

(** [data/login.xlsx] to [login]; the characters of the suffix are a set. *)
Definition xlsxSet : list Ascii.ascii := [cDot; ch 120; ch 108; ch 115].
Definition getFileName (path : string) : string :=
  match after cSlash path with
  | None => path
  | Some _ => default EmptyString (after cSlash (TrimRightSet xlsxSet path))
  end.
Definition getTargetPath (path : string) : string := targetRoot +:+ path.

Abbreviation sheet := (string * list (list string))%type.

Fixpoint readSheets (fileName targetPath : string) (sheets : list sheet) (w : world) : world * result (list structDesc) :=
  match sheets with
  | [] => (w, Ok [])
  | (v, rows) :: sheets =>
      if decide (v = setupSheet) then readSheets fileName targetPath sheets w
      else match rows with
           | names :: types :: _ =>
               match makeOneStruct v types names with
               | Err e => (w, Err e)
               | Ok desc =>
                   let desc := mkSD (sd_field desc) (sd_name desc) fileName in
                   let '(w, err) := writeJsonData targetPath v desc rows w in
                   match err with
                   | Some e => (w, Err e)
                   | None => let '(w, r) := readSheets fileName targetPath sheets w in
                             (w, match r with Ok ds => Ok (desc :: ds) | Err e => Err e end)
                   end
               end
           | _ => (w, Err errFileEmpty)
           end
  end.
Definition readOneExcel (path : string) (sheets : list sheet) (w : world) : world * result (list structDesc) :=
  match last sheets with
  | None => (w, Err errFileEmpty)
  | Some (lastName, lastRows) =>
      let fileName := getFileName path in
      let targetPath := getTargetPath fileName in
      let '(w, err) := if decide (lastName = setupSheet) then buildSetups targetPath lastRows w else (w, None) in
      match err with Some e => (w, Err e) | None => readSheets fileName targetPath sheets w end
  end.

(** A directory as [os.ReadDir] lists it; [NOther] is a file that is no workbook. *)
Inductive node :=
| NFile (name : string) (sheets : list sheet)
| NOther (name : string)
| NDir (name : string) (children : list node).

Definition fileInfo := gmap string (list structDesc).

(** [walkFiles] of one entry; [Join] of a clean path and a name is the path, a slash and the name. *)
Fixpoint walkNode (path : string) (n : node) (w : world) (info : fileInfo) : world * result fileInfo :=
  match n with
  | NOther _ => (w, Ok info)
  | NFile name sheets =>
      let '(w, r) := readOneExcel (path +:+ "/" +:+ name) sheets w in
      match r with
      | Err e => (w, Err e)
      | Ok descs => (w, Ok (<[path := default [] (info !! path) ++ descs]> info))
      end
  | NDir name children =>
      (fix walk children w info :=
         match children with
         | [] => (w, Ok info)
         | n :: children =>
             let '(w, r) := walkNode (path +:+ "/" +:+ name) n w info in
             match r with Err e => (w, Err e) | Ok info => walk children w info end
         end) children w info
  end.
Fixpoint walkAll (path : string) (nodes : list node) (w : world) (info : fileInfo) : world * result fileInfo :=
  match nodes with
  | [] => (w, Ok info)
  | n :: nodes => let '(w, r) := walkNode path n w info in match r with Err e => (w, Err e) | Ok info => walkAll path nodes w info end
  end.

(** ** The protobuf file *)

Definition tabS : string := String (ch 9) EmptyString.
Definition nlS : string := String cNL EmptyString.

Definition messageName (o : structDesc) : string := snakeToCamel (Title (sd_parent o) +:+ Title (sd_name o)).

Definition fieldLine (i : nat) (fd : fieldDesc) : string :=
  tabS +:+ fd_typ fd +:+ tabS +:+ Title (fd_name fd) +:+ tabS +:+ tabS +:+ tabS +:+ " = " +:+ Itoa (Z.of_nat i + 1) +:+ ";" +:+ nlS.
Definition messageText (name : string) (body : list string) : string :=
  nlS +:+ "message " +:+ name +:+ " {" +:+ nlS +:+ concat body +:+ "}" +:+ nlS.
Definition writeOneProto (o : structDesc) : string * string :=
  let name := messageName o in
  let nameRow := name +:+ "Row" in
  (name, messageText nameRow (imap fieldLine (sd_field o)) +:+
         messageText name [tabS +:+ "repeated" +:+ tabS +:+ nameRow +:+ tabS +:+ " List = 1;" +:+ nlS;
                           tabS +:+ "map<string, " +:+ nameRow +:+ ">" +:+ tabS +:+ " Map = 2;" +:+ nlS]).
Definition writeDataStruct (o : structDesc) : string := messageText (messageName o) (imap fieldLine (sd_field o)).

(** [descs]: the sheets in the order of the map. *)
Definition writeProtoFile (descs : list structDesc) : string :=
  "syntax = " +:+ quoted "proto3" +:+ ";" +:+ nlS +:+ "package tb;" +:+ nlS +:+ "option go_package = " +:+ quoted "./;tb" +:+ ";" +:+ nlS +:+
  concat (snd ∘ writeOneProto <$> descs) +:+
  writeDataStruct (mkSD ((λ o, mkFD (messageName o) (messageName o)) <$> descs) "Data" EmptyString).

(** [MakeAll]: no protobuf file after an error. *)
Definition MakeAll (root : string) (nodes : list node) (w : world) : world * option string :=
  let '(w, r) := walkAll root nodes w ∅ in
  match r with
  | Err _ => (w, None)
  | Ok info => (w, Some (writeProtoFile (mjoin (map_to_list info).*2)))
  end.

(** ** What is written *)

Definition cellOf (fd : fieldDesc) (data : string) : string := if decide (fd_typ fd = "string") then quoted data else data.
Definition rowText (desc : structDesc) (row : list string) : string :=
  objText (zip_with (λ fd d, (fd_name fd, cellOf fd d)) (sd_field desc) row).

(** A row that is written: one cell per column, none empty. *)
Definition rowOk (desc : structDesc) (row : list string) : Prop :=
  length row = length (sd_field desc) ∧ Forall (λ d, d ≠ EmptyString) row.

Lemma writeCells_spec nf i fds row out :
  length row = length fds → (i + length fds)%nat = nf → Forall (λ d, d ≠ EmptyString) row →
  writeCells nf i fds row out = (out +:+ membersText (zip_with (λ fd d, (fd_name fd, cellOf fd d)) fds row), None).
Proof.
  revert i fds out. induction row as [|d row IH]; intros i [|fd fds] out Hl Hi Hne; cbn in Hl; try lia.
  - cbn. by rewrite append_nil.
  - apply Forall_cons in Hne as [Hd Hne]. cbn [writeCells]. rewrite decide_False by done. rewrite IH by (done || (cbn in Hi; lia)).
    f_equal. rewrite <- append_assoc. f_equal. unfold cellText. fold (cellOf fd d).
    destruct row as [|d' row], fds as [|fd' fds]; cbn in Hl; try lia.
    + cbn [length] in Hi. rewrite decide_False by lia. cbn. by rewrite !append_nil.
    + cbn [length] in Hi. rewrite decide_True by lia. cbn [zip_with membersText]. rewrite <- !append_assoc, append_cons. done.
Qed.

Lemma writeRow_spec desc row out : rowOk desc row → writeRow desc row out = (out +:+ rowText desc row, None).
Proof.
  intros [Hl Hne]. unfold writeRow. rewrite writeCells_spec by done. f_equal. unfold rowText, objText.
  rewrite <- !append_assoc. done.
Qed.

Lemma writeRows_spec desc rows out :
  Forall (rowOk desc) rows → writeRows desc rows out = (out +:+ elemsText (rowText desc <$> rows), None).
Proof.
  intros H. revert out. induction H as [|row rows Hrow Hrows IH]; intros out; cbn [writeRows].
  - cbn. by rewrite append_nil.
  - rewrite decide_False by (destruct Hrow as [-> _]; lia). rewrite writeRow_spec by done. rewrite IH. f_equal.
    destruct rows as [|row' rows]; cbn [fmap list_fmap elemsText]; [by rewrite append_nil|].
    rewrite <- !append_assoc. done.
Qed.

(** The file of a well-formed sheet is the array of its rows. *)
Lemma tableText_spec desc rows :
  Forall (rowOk desc) (drop 2 rows) → tableText desc rows = (arrText (rowText desc <$> drop 2 rows), None).
Proof.
  intros H. unfold tableText. rewrite writeRows_spec by done. f_equal.
Qed.

(** The sheet of the repository's [login.xlsx] and the file it becomes. *)
Example login_prize_text :
  tableText (mkSD [mkFD "Uid" "uint64"; mkFD "Mail" "int32"; mkFD "Prize" "repeated int32"] "prize" "login")
    [["uid"; "mail"; "prize"]; ["uint64"; "int32"; "repeated int32"]; ["122"; "3"; "[2,3,4]"]; ["222"; "4"; "[4,5,6]"]] =
  ("[" +:+ nlS +:+ "{" +:+ quoted "Uid" +:+ ":122," +:+ quoted "Mail" +:+ ":3," +:+ quoted "Prize" +:+ ":[2,3,4]}," +:+ nlS +:+
   "{" +:+ quoted "Uid" +:+ ":222," +:+ quoted "Mail" +:+ ":4," +:+ quoted "Prize" +:+ ":[4,5,6]}" +:+ nlS +:+ "]", None).
Proof. reflexivity. Qed.
