(* ===== verification/TableRead.v ===== *)
(** * pkg/tb_load/read: loading the tables

    [read.go]: the loader walks the directory of the JSON files, finds by reflection the
    field of the generated [Data] struct that a file belongs to, decodes the rows into it and
    indexes them by key. The generated struct is given as its tables with their columns (name
    and type) after the three internal fields of a message; files are those of
    [TableMake.v]. *)

From S2P Require Import Prelude DataBus Redis Account Json TableMake.

(** ** Values *)

Inductive scalar := SStr | SInt (bits : Z) | SUint (bits : Z).
Inductive ctype := TScalar (s : scalar) | TRep (s : scalar) | TMap (s : scalar).

(** The Go type of a column's protobuf type. *)
Definition scalarType (typ : string) : option scalar :=
  if decide (typ = "string") then Some SStr
  else if decide (typ = "int32") then Some (SInt 32) else if decide (typ = "int64") then Some (SInt 64)
  else if decide (typ = "uint32") then Some (SUint 32) else if decide (typ = "uint64") then Some (SUint 64) else None.
Definition goType (typ : string) : option ctype :=
  match scalarType typ with
  | Some s => Some (TScalar s)
  | None =>
      if decide (typ = "repeated int32") then Some (TRep (SInt 32)) else if decide (typ = "repeated int64") then Some (TRep (SInt 64))
      else if decide (typ = "repeated uint32") then Some (TRep (SUint 32)) else if decide (typ = "repeated string") then Some (TRep SStr)
      else if decide (typ = "map<string,int32>") then Some (TMap (SInt 32)) else if decide (typ = "map<string,string>") then Some (TMap SStr) else None
  end.

Inductive sval := SVStr (s : string) | SVInt (z : Z) | SVUint (z : Z).
Inductive gval := GS (v : sval) | GRep (l : list sval) | GMap (m : gmap string sval).

Definition szero (s : scalar) : sval := match s with SStr => SVStr EmptyString | SInt _ => SVInt 0 | SUint _ => SVUint 0 end.
Definition zero (t : ctype) : gval := match t with TScalar s => GS (szero s) | TRep _ => GRep [] | TMap _ => GMap ∅ end.

(** ** Decoding *)

(** [strconv.ParseInt] of a JSON number. *)
Definition parseInt (bits : Z) (t : string) : option Z :=
  match t with
  | String c u =>
      if decide (c = cMinus) then z ← parseUint 64 u; if decide (z ≤ 2 ^ (bits - 1)) then Some (- z) else None
      else z ← parseUint 64 t; if decide (z < 2 ^ (bits - 1)) then Some z else None
  | EmptyString => None
  end.

(** A null leaves the element as it is, zero. *)
Definition decodeScalar (s : scalar) (j : jval) : option sval :=
  match s, j with
  | SStr, JStr x => Some (SVStr x)
  | SInt b, JNum t => SVInt <$> parseInt b t
  | SUint b, JNum t => SVUint <$> parseUint b t
  | _, JNull => Some (szero s)
  | _, _ => None
  end.
Definition decode (t : ctype) (j : jval) (old : gval) : option gval :=
  match t, j with
  | TScalar _, JNull => Some old
  | TScalar s, _ => GS <$> decodeScalar s j
  | TRep s, JArr l => GRep <$> mapM (decodeScalar s) l
  | TRep _, JNull => Some (GRep [])
  | TMap s, JObj ms =>
      GMap <$> foldl (λ acc kv, m ← acc; v ← decodeScalar s kv.2; Some (<[kv.1 := v]> m)) (Some (match old with GMap m => m | _ => ∅ end)) ms
  | TMap _, JNull => Some (GMap ∅)
  | _, _ => None
  end.

Definition toLower (c : Ascii.ascii) : Ascii.ascii := if isUpper c then Ascii.ascii_of_N (code c + 32) else c.
Fixpoint lower (s : string) : string := match s with EmptyString => EmptyString | String c t => String (toLower c) (lower t) end.

Definition cols := list (string * ctype).
(** The field of a member: its name exactly, or else up to case. *)
Definition findCol (k : string) (cs : cols) : option (nat * (string * ctype)) :=
  match list_find (λ c, c.1 = k) cs with
  | Some r => Some r
  | None => list_find (λ c, lower c.1 = lower k) cs
  end.
Definition decodeMember (cs : cols) (acc : option (list gval)) (kv : string * jval) : option (list gval) :=
  row ← acc;
  match findCol kv.1 cs with
  | None => Some row
  | Some (i, (_, t)) => old ← row !! i; v ← decode t kv.2 old; Some (<[i := v]> row)
  end.
(** A row, or the nil pointer. *)
Definition decodeRow (cs : cols) (j : jval) : option (option (list gval)) :=
  match j with
  | JObj ms => Some <$> foldl (decodeMember cs) (Some ((λ c, zero c.2) <$> cs)) ms
  | JNull => Some None
  | _ => None
  end.
Definition decodeList (cs : cols) (j : jval) : option (list (option (list gval))) :=
  match j with JArr l => mapM (decodeRow cs) l | JNull => Some [] | _ => None end.

(** ** Names *)

(** [strings.TrimSuffix]. *)
Fixpoint TrimSuffix (suf s : string) : string :=
  if decide (s = suf) then EmptyString
  else match s with EmptyString => EmptyString | String c t => String c (TrimSuffix suf t) end.

Definition fieldNameByPath (path : string) : string :=
  match after cSlash path with
  | None => path
  | Some path =>
      match after cSlash path with
      | None => path
      | Some _ => concat (Title <$> Split cSlash (default EmptyString (after cSlash (TrimSuffix ".json" path))))
      end
  end.

(** ** Reading a file *)

Definition fieldStrValue (v : gval) : string :=
  match v with GS (SVStr s) => s | GS (SVInt z) | GS (SVUint z) => Itoa z | _ => EmptyString end.

Definition colValue (cs : cols) (row : list gval) (k : string) : string :=
  match list_find (λ c, c.1 = Title k) cs with
  | Some (i, _) => default EmptyString (fieldStrValue <$> row !! i)
  | None => EmptyString
  end.

(** The key of a row. [keys] is the setup of the file in the order in which the map was
    ranged over for this row; without one, the first column. [None] is a panic: a nil row, or
    a message without columns. *)
Definition rowKey (cs : cols) (keys : option (list string)) (row : option (list gval)) : option string :=
  match keys with
  | Some [] => Some EmptyString
  | Some ks => row ← row; Some (Join cComma (colValue cs row <$> ks))
  | None => row ← row; v ← row !! 0%nat; Some (fieldStrValue v)
  end.

Record Table := mkT { t_List : list (option (list gval)); t_Map : gmap string (option (list gval)) }.
Abbreviation Data := (gmap string Table).

Section Reader.
(** The generated struct; the orders in which Go ranges over the keys of a setup, per row. *)
Context (types : gmap string cols) (order : nat → gset string → list string).

Fixpoint indexRows (cs : cols) (desc : option (gset string)) (i : nat) (rows : list (option (list gval))) (m : gmap string (option (list gval)))
    : option (gmap string (option (list gval))) :=
  match rows with
  | [] => Some m
  | row :: rows => key ← rowKey cs (order i <$> desc) row; indexRows cs desc (S i) rows (<[key := row]> m)
  end.

(** [None] is a panic: no such field. *)
Definition readOne (path text : string) (setups : gmap string (gset string)) (data : Data) : option (result Data) :=
  let name := fieldNameByPath path in
  cs ← types !! name;
  t ← data !! name;
  match j ← jparse text; decodeList cs j with
  | None => Some (Err (ErrMsg "json"))
  | Some rows => m ← indexRows cs (setups !! path) 0 rows (t_Map t); Some (Ok (<[name := mkT rows m]> data))
  end.

(** ** Reading a directory *)

Inductive rnode := RText (name text : string) | RSetup (m : gmap string (gset string)) | ROther (name : string) | RDir (name : string) (children : list rnode).

(** [readSetup]: a directory without a setup is fine. *)
Definition readSetup (path : string) (children : list rnode) (setups : gmap string (gset string)) : gmap string (gset string) :=
  foldr (λ n acc, match n with RSetup m => kmap (λ k, path +:+ "/" +:+ k +:+ ".json") m ∪ acc | _ => acc end) setups children.

Definition isJson (name : string) : bool := bool_decide (TrimSuffix ".json" name ≠ name).

Fixpoint readNode (path : string) (n : rnode) (st : gmap string (gset string) * Data) : option (result (gmap string (gset string) * Data)) :=
  match n with
  | RSetup _ | ROther _ => Some (Ok st)
  | RText name text =>
      if isJson name
      then r ← readOne (path +:+ "/" +:+ name) text st.1 st.2; Some (match r with Ok d => Ok (st.1, d) | Err e => Err e end)
      else Some (Ok st)
  | RDir name children =>
      let path := path +:+ "/" +:+ name in
      (fix walk ns st :=
         match ns with
         | [] => Some (Ok st)
         | n :: ns => r ← readNode path n st; match r with Ok st => walk ns st | Err e => Some (Err e) end
         end) children (readSetup path children st.1, st.2)
  end.
Fixpoint readNodes (path : string) (ns : list rnode) (st : gmap string (gset string) * Data) : option (result (gmap string (gset string) * Data)) :=
  match ns with
  | [] => Some (Ok st)
  | n :: ns => r ← readNode path n st; match r with Ok st => readNodes path ns st | Err e => Some (Err e) end
  end.

(** [LoadTables]: on an error the tables in use stay. *)
Definition LoadTables (path : string) (ns : list rnode) (cfg : option Data) : option (option Data * go_error) :=
  r ← readNodes path ns (∅, (λ _, mkT [] ∅) <$> types);
  Some (match r with Ok st => (Some st.2, None) | Err e => (cfg, Some e) end).

End Reader.

(** ** Initial values: initStruct *)

(** Types and values as reflection sees them; a field of a struct may be unexported. *)
Inductive gtype := TyStruct (fs : list (bool * gtype)) | TyPtr (t : gtype) | TySlice | TyMap | TyChan | TyIface | TyBasic.
Inductive gvalue := VStruct (vs : list gvalue) | VNil | VPtr (v : gvalue) | VSlice | VMap | VChan | VZero.

Fixpoint zeroOf (t : gtype) : gvalue :=
  match t with
  | TyStruct fs => VStruct (map (λ f, zeroOf f.2) fs)
  | TyPtr _ | TySlice | TyMap | TyChan | TyIface => VNil
  | TyBasic => VZero
  end.

(** What a field holds after [initStruct] of its struct. *)
Fixpoint initField (t : gtype) : gvalue :=
  match t with
  | TyStruct fs => VStruct (map (λ f, if f.1 : bool then initField f.2 else zeroOf f.2) fs)
  | TyPtr t => VPtr (match t with TyStruct fs => VStruct (map (λ f, if f.1 : bool then initField f.2 else zeroOf f.2) fs) | _ => zeroOf t end)
  | TySlice => VSlice
  | TyMap => VMap
  | TyChan => VChan
  | TyIface => VNil
  | TyBasic => VZero
  end.
(** [initStruct] of a pointer to a struct; anything else is left alone. *)
Definition initStruct (t : gtype) (v : gvalue) : gvalue :=
  match t with
  | TyPtr u => match u with TyStruct _ => VPtr (initField u) | _ => match v with VNil => VPtr (zeroOf u) | _ => v end end
  | TyStruct _ => initField t
  | _ => v
  end.

(** ** Names agree *)

Lemma count_append c s t : count c (s +:+ t) = (count c s + count c t)%nat.
Proof. apply count_app. Qed.

Lemma TrimSuffix_app suf s : TrimSuffix suf (s +:+ suf) = s.
Proof.
  assert (Hlen : ∀ c s, String c s +:+ suf ≠ suf).
  { intros c x E. apply (f_equal String.length) in E. rewrite append_cons in E. cbn in E.
    assert (String.length (x +:+ suf) = String.length x + String.length suf)%nat; [|lia].
    clear. induction x as [|a x IH]; [done|]. rewrite append_cons. cbn. by rewrite IH. }
  induction s as [|c s IH].
  - rewrite append_nil_l. destruct suf; cbn [TrimSuffix]; by rewrite decide_True.
  - rewrite append_cons. cbn [TrimSuffix]. rewrite decide_False by apply Hlen. by rewrite IH.
Qed.

Lemma toUpper_idem c : toUpper (toUpper c) = toUpper c.
Proof. destruct c as [[] [] [] [] [] [] [] []]; vm_compute; reflexivity. Qed.
Lemma toUpper_underscore c : bool_decide (toUpper c = cUnderscore) = bool_decide (c = cUnderscore).
Proof. destruct c as [[] [] [] [] [] [] [] []]; vm_compute; reflexivity. Qed.

Lemma titleFrom_underscores b s : count cUnderscore (titleFrom b s) = count cUnderscore s.
Proof.
  revert b. induction s as [|c s IH]; intros b; [done|]. cbn [titleFrom count]. rewrite IH. pose proof (toUpper_underscore c) as E.
  destruct b; [|done]. destruct (decide (toUpper c = cUnderscore)), (decide (c = cUnderscore)); try done; exfalso; revert E;
    rewrite ?(bool_decide_eq_true_2 (toUpper c = cUnderscore)), ?(bool_decide_eq_false_2 (toUpper c = cUnderscore)),
      ?(bool_decide_eq_true_2 (c = cUnderscore)), ?(bool_decide_eq_false_2 (c = cUnderscore)) by done; done.
Qed.

Lemma capitalize_title b s : capitalize (titleFrom true s +:+ b) = titleFrom true s +:+ b ∨ s = EmptyString.
Proof. destruct s as [|c s]; [by right|left]. cbn [titleFrom]. rewrite append_cons. cbn [capitalize]. by rewrite toUpper_idem. Qed.

(** The characters that remain. *)
Lemma length_append s t : String.length (s +:+ t) = (String.length s + String.length t)%nat.
Proof. induction s as [|c s IH]; [done|]. rewrite append_cons. cbn. by rewrite IH. Qed.
Lemma snakeToCamel_length s : (String.length (snakeToCamel s) + count cUnderscore s = String.length s)%nat.
Proof.
  unfold snakeToCamel. induction s as [|c s IH]; [done|]. cbn [Split count String.length].
  destruct (decide (c = cUnderscore)); [change (concat (capitalize <$> EmptyString :: Split cUnderscore s)) with (concat (capitalize <$> Split cUnderscore s)); lia|].
  destruct (Split cUnderscore s) as [|x l] eqn:E; [by pose proof (length_Split cUnderscore s) as Hl; rewrite E in Hl|].
  cbn [fmap list_fmap concat] in *. rewrite length_append in *. cbn [capitalize String.length]. destruct x; cbn in *; lia.
Qed.

Definition readerPath (f v : string) : string := "../" +:+ getTargetPath f +:+ "/" +:+ v +:+ ".json".

Lemma fieldName_path f v :
  count cSlash f = 0%nat → count cSlash v = 0%nat → fieldNameByPath (readerPath f v) = Title f +:+ Title v.
Proof.
  intros Hf Hv. unfold fieldNameByPath, readerPath, getTargetPath, targetRoot.
  change (after cSlash ("../" +:+ ("target/" +:+ f) +:+ "/" +:+ v +:+ ".json")) with (Some ("target/" +:+ f +:+ "/" +:+ v +:+ ".json")).
  cbv beta iota. change (after cSlash ("target/" +:+ f +:+ "/" +:+ v +:+ ".json")) with (Some (f +:+ "/" +:+ v +:+ ".json")). cbv beta iota.
  replace ("target/" +:+ f +:+ "/" +:+ v +:+ ".json") with (("target/" +:+ f +:+ "/" +:+ v) +:+ ".json") by (rewrite <- !append_assoc; done).
  rewrite TrimSuffix_app. change (after cSlash ("target/" +:+ f +:+ "/" +:+ v)) with (Some (f +:+ String cSlash v)). cbn [from_option].
  assert (E : Split cSlash (f +:+ String cSlash v) = [f; v]).
  { pose proof (Split_Join cSlash [f; v] ltac:(done)) as H. cbn [Join] in H. apply H. by repeat constructor. }
  change (id (f +:+ String cSlash v)) with (f +:+ String cSlash v). rewrite E. cbn [fmap list_fmap concat]. by rewrite append_nil.
Qed.

(** The loader looks a sheet's table up under the name it was generated with exactly when
    neither the workbook's nor the sheet's name contains an underscore. *)
Lemma names_agree fds f v :
  count cSlash f = 0%nat → count cSlash v = 0%nat →
  fieldNameByPath (readerPath f v) = messageName (mkSD fds v f) ↔ count cUnderscore f = 0%nat ∧ count cUnderscore v = 0%nat.
Proof.
  intros Hf Hv. rewrite fieldName_path by done. unfold messageName. cbn [sd_parent sd_name].
  assert (Hc : count cUnderscore (Title f +:+ Title v) = (count cUnderscore f + count cUnderscore v)%nat)
    by (rewrite count_app; unfold Title; by rewrite !titleFrom_underscores).
  split.
  - intros E. pose proof (snakeToCamel_length (Title f +:+ Title v)) as Hl. rewrite <- E, Hc in Hl. lia.
  - intros [Ef Ev]. unfold snakeToCamel. rewrite Split_whole by lia. cbn [fmap list_fmap concat]. rewrite append_nil.
    unfold Title. destruct (capitalize_title (titleFrom true v) f) as [E| ->]; [by rewrite E|]. cbn [titleFrom]. rewrite append_nil_l.
    destruct (capitalize_title EmptyString v) as [E| ->]; [rewrite append_nil in E; by rewrite E|done].
Qed.

Lemma snakeToCamel_no_underscore s : count cUnderscore (snakeToCamel s) = 0%nat.
Proof.
  unfold snakeToCamel.
  assert (H : Forall (λ x, count cUnderscore x = 0%nat) (Split cUnderscore s)).
  { induction s as [|c s IH]; [by repeat constructor|]. cbn [Split]. destruct (decide (c = cUnderscore)); [by constructor|].
    destruct IH as [|x l Hx Hl]; [by repeat constructor; cbn; rewrite decide_False|]. constructor; [|done]. cbn. by rewrite decide_False. }
  induction H as [|x l Hx _ IH]; [done|]. cbn [fmap list_fmap concat]. rewrite count_app. rewrite IH.
  destruct x as [|c x]; [done|]. cbn [capitalize count] in *. pose proof (toUpper_underscore c) as E.
  destruct (decide (c = cUnderscore)); [done|]. rewrite (bool_decide_eq_false_2 (c = cUnderscore)) in E by done.
  rewrite decide_False by (by apply bool_decide_eq_false in E). lia.
Qed.

(** ** Cells *)

(** A value that a column of a type can hold and a cell can show: texts without quotes,
    backslashes and control characters, integers of the width of their type, no empty text. *)
Definition svalOk (s : scalar) (v : sval) : Prop :=
  match s, v with
  | SStr, SVStr x => plain x = true
  | SInt b, SVInt z => - 2 ^ (b - 1) ≤ z < 2 ^ (b - 1)
  | SUint b, SVUint z => 0 ≤ z < 2 ^ b
  | _, _ => False
  end.
Definition gvalOk (t : ctype) (v : gval) : Prop :=
  match t, v with
  | TScalar s, GS v => svalOk s v ∧ v ≠ SVStr EmptyString
  | TRep s, GRep l => Forall (svalOk s) l
  | TMap s, GMap m => map_Forall (λ k v, plain k = true ∧ svalOk s v) m
  | _, _ => False
  end.

(** What is typed into the cell: a text as it is, a number, a list or a map as JSON. *)
Definition showScalar (v : sval) : string := match v with SVStr s => quoted s | SVInt z | SVUint z => Itoa z end.
Definition showCell (v : gval) : string :=
  match v with
  | GS (SVStr s) => s
  | GS v => showScalar v
  | GRep l => listText (showScalar <$> l)
  | GMap m => objText ((λ kv, (kv.1, showScalar kv.2)) <$> map_to_list m)
  end.

Definition cells (vals : list gval) : list string := showCell <$> vals.

Lemma Itoa_nonempty z : Itoa z ≠ EmptyString.
Proof.
  unfold Itoa. destruct z as [|p|p]; [done| |done]. change (pretty (Z.pos p)) with (pretty (N.pos p)). by apply parse_pretty_N.
Qed.

Lemma parseInt_Itoa bits z : 0 < bits ≤ 64 → - 2 ^ (bits - 1) ≤ z < 2 ^ (bits - 1) → parseInt bits (Itoa z) = Some z.
Proof.
  intros Hb Hz. assert (Hp : 2 ^ (bits - 1) ≤ 2 ^ 63) by (apply Z.pow_le_mono_r; lia).
  destruct (decide (z < 0)) as [Hn|Hn].
  - destruct z as [|p|p]; try lia. unfold Itoa. change (pretty (Z.neg p)) with (String cMinus (Itoa (Z.pos p))). cbn [parseInt].
    rewrite decide_True by done. rewrite parseUint_Itoa by lia. cbn. by rewrite decide_True by lia.
  - pose proof (parseUint_Itoa 64 z ltac:(lia)) as E. unfold parseInt. destruct (Itoa z) as [|c u] eqn:Ez; [by apply Itoa_nonempty in Ez|].
    rewrite decide_False; [rewrite E; cbn; by rewrite decide_True by lia|]. intros ->. by vm_compute in E.
Qed.

Definition scalarOf (t : ctype) : scalar := match t with TScalar s | TRep s | TMap s => s end.
Definition widthOk (s : scalar) : Prop := match s with SInt b => 0 < b ≤ 64 | _ => True end.

Lemma goType_spec typ t : goType typ = Some t → widthOk (scalarOf t) ∧ (t = TScalar SStr ↔ typ = "string").
Proof.
  unfold goType, scalarType. repeat (case_decide; [intros [= <-]; subst; cbn; split; [done || lia|done]|]); done.
Qed.

(** A scalar written as JSON is read back. *)
Lemma scalar_reads s v : widthOk s → svalOk s v → ∃ j, parses (showScalar v) j ∧ j ≠ JNull ∧ decodeScalar s j = Some v.
Proof.
  intros Hw Hv. destruct s as [|b|b], v as [x|z|z]; try done; cbn in Hv |- *.
  - exists (JStr x). split; [by apply parses_str|done].
  - exists (JNum (Itoa z)). split; [apply parses_int|]. split; [done|]. cbn. by rewrite parseInt_Itoa.
  - exists (JNum (Itoa z)). split; [apply parses_int|]. split; [done|]. cbn. by rewrite parseUint_Itoa.
Qed.

Lemma list_reads s l : widthOk s → Forall (svalOk s) l →
  ∃ js, Forall2 parses (showScalar <$> l) js ∧ mapM (decodeScalar s) js = Some l.
Proof.
  intros Hw. induction 1 as [|v l Hv _ (js & Hjs & Hm)]; [by exists []|]. destruct (scalar_reads s v Hw Hv) as (j & Hj & _ & Hd).
  exists (j :: js). split; [by constructor|]. cbn. rewrite Hd. cbn. by rewrite Hm.
Qed.

(** The members of a map, in any order of distinct keys. *)
Lemma members_read s (l : list (string * sval)) (m0 : gmap string sval) :
  widthOk s → Forall (λ kv, plain kv.1 = true ∧ svalOk s kv.2) l →
  ∃ ms, Forall2 memberOk ((λ kv, (kv.1, showScalar kv.2)) <$> l) ms ∧
    foldl (λ acc kv, m ← acc; v ← decodeScalar s kv.2; Some (<[kv.1 := v]> m)) (Some m0) ms = Some (foldl (λ m kv, <[kv.1 := kv.2]> m) m0 l).
Proof.
  intros Hw H. revert m0. induction H as [|[k v] l [Hk Hv] _ IH]; intros m0; [by exists []|].
  destruct (scalar_reads s v Hw Hv) as (j & Hj & _ & Hd). destruct (IH (<[k := v]> m0)) as (ms & Hms & Hf).
  exists ((k, j) :: ms). split; [by constructor|]. cbn [foldl mbind option_bind fst snd] in *. rewrite Hd. cbn. exact Hf.
Qed.

Lemma foldl_insert (l : list (string * sval)) (m0 : gmap string sval) : NoDup l.*1 → foldl (λ m kv, <[kv.1 := kv.2]> m) m0 l = (list_to_map l : gmap string sval) ∪ m0.
Proof.
  revert m0. induction l as [|[k v] l IH]; intros m0 Hn; cbn [foldl fst snd].
  - by rewrite list_to_map_nil, map_empty_union.
  - apply NoDup_cons in Hn as [Hk Hn]. cbn in Hk. rewrite IH, list_to_map_cons by done. rewrite <- insert_union_l. symmetry. apply insert_union_r.
    by apply not_elem_of_list_to_map_1.
Qed.

(** The text the generator writes for a cell is read as this value. *)
Definition cellReads (fd : fieldDesc) (t : ctype) (data : string) (v : gval) : Prop :=
  data ≠ EmptyString ∧ ∃ j, parses (cellOf fd data) j ∧ decode t j (zero t) = Some v.

Lemma cell_reads fd t v : goType (fd_typ fd) = Some t → gvalOk t v → cellReads fd t (showCell v) v.
Proof.
  intros [Hw Hs]%goType_spec Hv. unfold cellReads, cellOf. destruct t as [s|s|s], v as [v|l|m]; try done; cbn [gvalOk scalarOf] in *.
  - destruct Hv as [Hv Hne]. destruct (decide (fd_typ fd = "string")) as [Et|Et].
    + apply Hs in Et as [= ->]. destruct v as [x| |]; try done. split; [by intros E; apply Hne; f_equal|]. exists (JStr x).
      split; [by apply parses_str|done].
    + destruct (scalar_reads s v Hw Hv) as (j & Hj & Hn & Hd).
      destruct v as [x|z|z]; [destruct s; try done; by destruct Et; apply Hs|..]; (split; [apply Itoa_nonempty|]); exists j;
        (split; [exact Hj|]); destruct j; try done; cbn [decode]; by rewrite Hd.
  - rewrite decide_False by (intros E%Hs; done). split; [done|]. destruct (list_reads s l Hw Hv) as (js & Hjs & Hm).
    exists (JArr js). split; [by apply parses_list|]. cbn. by rewrite Hm.
  - rewrite decide_False by (intros E%Hs; done). split; [done|].
    destruct (members_read s (map_to_list m) ∅ Hw) as (ms & Hms & Hf).
    { apply Forall_forall. intros [k v] Hin%elem_of_map_to_list. by apply Hv. }
    exists (JObj ms). split; [by apply parses_obj|]. cbn [decode zero]. rewrite Hf.
    rewrite foldl_insert by apply NoDup_fst_map_to_list. by rewrite list_to_map_to_list, map_union_empty.
Qed.

(** ** Columns *)

Fixpoint allc (P : Ascii.ascii → bool) (s : string) : bool := match s with EmptyString => true | String c s => P c && allc P s end.

Definition isWord (c : Ascii.ascii) : bool := isLower c || isUpper c || isDigit c || bool_decide (c = cUnderscore).

(** The columns of the generated message of a row: [protoc] keeps the names, which are those of
    [writeOneProto]. *)
Definition columns (fds : list fieldDesc) : option cols := mapM (λ fd, t ← goType (fd_typ fd); Some (Title (fd_name fd), t)) fds.

Lemma allc_app P s t : allc P (s +:+ t) = allc P s && allc P t.
Proof. induction s as [|c s IH]; [by rewrite append_nil_l|]. rewrite append_cons. cbn. by rewrite IH, andb_assoc. Qed.

Lemma allc_impl (P Q : Ascii.ascii → bool) s : (∀ c, P c = true → Q c = true) → allc P s = true → allc Q s = true.
Proof. intros H. induction s as [|c s IH]; cbn; [done|]. intros [Hc Hs]%andb_true_iff. by rewrite H, IH. Qed.

Lemma allc_camel P s : (∀ c, P c = true → P (toUpper c) = true) → allc P s = true → allc P (snakeToCamel s) = true.
Proof.
  intros HP Hs. unfold snakeToCamel. assert (HF : Forall (λ x, allc P x = true) (Split cUnderscore s)).
  { induction s as [|c s IH]; [by repeat constructor|]. cbn in Hs. apply andb_true_iff in Hs as [Hc Hs]. specialize (IH Hs). cbn [Split].
    destruct (decide (c = cUnderscore)); [by constructor|]. destruct IH as [|x l Hx Hl]; constructor; cbn; rewrite ?Hc, ?Hx; done. }
  induction HF as [|x l Hx _ IH]; [done|]. cbn [fmap list_fmap concat]. rewrite allc_app, IH, andb_true_r.
  destruct x as [|c x]; [done|]. cbn in *. apply andb_true_iff in Hx as [Hc Hx]. by rewrite HP, Hx.
Qed.

Lemma camel_head s : match snakeToCamel s with String c _ => toUpper c = c | EmptyString => True end.
Proof.
  unfold snakeToCamel. induction (Split cUnderscore s) as [|x l IH]; [done|]. cbn [fmap list_fmap concat]. destruct x as [|c x]; cbn [capitalize].
  - by rewrite append_nil_l.
  - rewrite append_cons. apply toUpper_idem.
Qed.

Lemma isWord_props c : isWord c = true →
  isWord (toUpper c) = true ∧ isSeparator c = false ∧ bool_decide (c ≠ cQuote ∧ c ≠ cBackslash ∧ (32 ≤ code c)%N) = true.
Proof. destruct c as [[] [] [] [] [] [] [] []]; vm_compute; (done || (intros H; discriminate H)). Qed.

Lemma titleFrom_words s : allc isWord s = true → titleFrom false s = s.
Proof.
  induction s as [|c s IH]; cbn; [done|]. intros [Hc Hs]%andb_true_iff. destruct (isWord_props c Hc) as (_ & -> & _). by rewrite IH.
Qed.

(** The name of a column is the same in the protobuf file and in the JSON file. *)
Lemma column_name n : allc isWord n = true → Title (snakeToCamel n) = snakeToCamel n ∧ plain (snakeToCamel n) = true.
Proof.
  intros Hn. assert (Hw : allc isWord (snakeToCamel n) = true) by (apply allc_camel; [intros c Hc; by apply isWord_props|done]).
  pose proof (camel_head n) as Hh. revert Hw Hh. generalize (snakeToCamel n) as s. intros s Hw Hh. split.
  - destruct s as [|c s]; [done|]. cbn in Hw. apply andb_true_iff in Hw as [Hc Hs]. unfold Title. cbn [titleFrom].
    rewrite Hh. destruct (isWord_props c Hc) as (_ & -> & _). by rewrite titleFrom_words.
  - clear Hh. induction s as [|c s IH]; [done|]. cbn in Hw |- *. apply andb_true_iff in Hw as [Hc Hs].
    destruct (isWord_props c Hc) as (_ & _ & ->). by apply IH.
Qed.

(** ** Rows *)

(** A row of a sheet with these columns, the cells reading as these values. *)
Inductive rowReads : list fieldDesc → cols → list string → list gval → Prop :=
| rr_nil : rowReads [] [] [] []
| rr_cons fd fds t cs d row v vals :
    plain (fd_name fd) = true → cellReads fd t d v → rowReads fds cs row vals →
    rowReads (fd :: fds) ((fd_name fd, t) :: cs) (d :: row) (v :: vals).

Definition namesOk (fds : list fieldDesc) : Prop := Forall (λ fd, Title (fd_name fd) = fd_name fd ∧ plain (fd_name fd) = true) fds.

Lemma row_reads fds cs vals :
  namesOk fds → columns fds = Some cs → Forall2 (λ c v, gvalOk c.2 v) cs vals → rowReads fds cs (showCell <$> vals) vals.
Proof.
  intros Hn. revert cs vals. induction Hn as [|fd fds [Ht Hp] _ IH]; intros cs vals E HF.
  - injection E as <-. apply Forall2_nil_inv_l in HF as ->. constructor.
  - unfold columns in E. cbn [mapM] in E. destruct (goType (fd_typ fd)) as [t|] eqn:Eg; [|done]. cbn in E. rewrite Ht in E.
    destruct (mapM _ fds) as [cs'|] eqn:Em; [|done]. cbn in E. injection E as <-.
    apply Forall2_cons_inv_l in HF as (v & vals' & Hv & HF & ->). cbn [fmap list_fmap]. constructor; [done|by apply cell_reads|by apply IH].
Qed.

Lemma columns_names fds cs : namesOk fds → columns fds = Some cs → cs.*1 = fd_name <$> fds.
Proof.
  intros Hn. revert cs. induction Hn as [|fd fds [Ht Hp] _ IH]; intros cs E; [by injection E as <-|].
  unfold columns in E. cbn [mapM] in E. destruct (goType (fd_typ fd)) as [t|]; [|done]. cbn in E. rewrite Ht in E.
  destruct (mapM _ fds) as [cs'|] eqn:Em; [|done]. cbn in E. injection E as <-. cbn. by rewrite (IH cs').
Qed.

Lemma findCol_exact pre n t rest : n ∉ pre.*1 → findCol n (pre ++ (n, t) :: rest) = Some (length pre, (n, t)).
Proof.
  intros Hn. unfold findCol.
  assert (E : list_find (λ c : string * ctype, c.1 = n) (pre ++ (n, t) :: rest) = Some (length pre, (n, t))); [|by rewrite E].
  apply list_find_Some. split; [by apply list_lookup_middle|]. split; [done|]. intros j y Hj Hlt Hy. apply Hn.
  rewrite lookup_app_l in Hj by done. apply list_elem_of_fmap. exists y. split; [done|]. by eapply list_elem_of_lookup_2.
Qed.

Lemma row_members cs pre done0 fds cs2 row vals :
  rowReads fds cs2 row vals → cs = pre ++ cs2 → NoDup cs.*1 → length done0 = length pre →
  ∃ ms, Forall2 memberOk (zip_with (λ fd d, (fd_name fd, cellOf fd d)) fds row) ms ∧
    foldl (decodeMember cs) (Some (done0 ++ ((λ c, zero c.2) <$> cs2))) ms = Some (done0 ++ vals).
Proof.
  intros H. revert pre done0. induction H as [|fd fds t cs2 d row v vals Hp Hc _ IH]; intros pre done0 E Hnd Hl.
  { exists []. split; [constructor|]. done. }
  destruct Hc as (Hne & j & Hj & Hv).
  destruct (IH (pre ++ [(fd_name fd, t)]) (done0 ++ [v])) as (ms & Hms & Hf); [by rewrite <- app_assoc|done|rewrite !length_app; cbn; lia|].
  exists ((fd_name fd, j) :: ms). split; [by constructor|]. cbn [foldl fmap list_fmap]. unfold decodeMember at 2. cbn [fst snd mbind option_bind].
  rewrite E, findCol_exact.
  - rewrite <- Hl, list_lookup_middle by done. cbn [mbind option_bind]. rewrite Hv. cbn [mbind option_bind].
    rewrite insert_app_r_alt, Nat.sub_diag by lia. cbn. rewrite <- app_assoc in Hf. cbn in Hf. rewrite E in Hf. rewrite <- app_assoc in Hf. exact Hf.
  - rewrite E, fmap_app in Hnd. cbn in Hnd. apply NoDup_app in Hnd as (_ & Hx & _). intros Hin. apply (Hx _ Hin). by left.
Qed.

Lemma rowReads_ok desc cs row vals : rowReads (sd_field desc) cs row vals → rowOk desc row.
Proof.
  unfold rowOk. generalize (sd_field desc) as fds. intros fds. induction 1 as [|fd fds t cs d row v vals _ [Hne _] _ [Hl HF]]; [done|].
  split; [cbn; by rewrite Hl|by constructor].
Qed.

(** A good row decodes to its values. *)
Lemma row_decodes desc cs row vals :
  rowReads (sd_field desc) cs row vals → NoDup cs.*1 → ∃ j, parses (rowText desc row) j ∧ decodeRow cs j = Some (Some vals).
Proof.
  intros H Hnd. destruct (row_members cs [] [] _ _ _ _ H eq_refl Hnd eq_refl) as (ms & Hms & Hf).
  exists (JObj ms). split; [by apply parses_obj|]. cbn [decodeRow]. rewrite app_nil_l in Hf. by rewrite Hf.
Qed.

Lemma rows_decode desc cs rows valss :
  Forall2 (rowReads (sd_field desc) cs) rows valss → NoDup cs.*1 →
  ∃ js, Forall2 parses (rowText desc <$> rows) js ∧ mapM (decodeRow cs) js = Some (Some <$> valss).
Proof.
  intros H Hnd. induction H as [|row vals rows valss Hrow _ (js & Hjs & Hm)]; [by exists []|].
  destruct (row_decodes desc cs row vals Hrow Hnd) as (j & Hj & Hd). exists (j :: js). split; [by constructor|]. cbn. rewrite Hd. cbn. by rewrite Hm.
Qed.

(** ** The index *)

(** The last row with this key. *)
Fixpoint lastWith (keys : list string) (rows : list (option (list gval))) (key : string) : option (option (list gval)) :=
  match keys, rows with
  | k :: keys, row :: rows =>
      match lastWith keys rows key with Some r => Some r | None => if decide (k = key) then Some row else None end
  | _, _ => None
  end.

Lemma indexRows_spec order cs desc i rows m m' :
  indexRows order cs desc i rows m = Some m' →
  ∃ keys, length keys = length rows ∧
    (∀ n row key, rows !! n = Some row → keys !! n = Some key → rowKey cs (order (i + n)%nat <$> desc) row = Some key) ∧
    ∀ key, m' !! key = match lastWith keys rows key with Some r => Some r | None => m !! key end.
Proof.
  revert i m m'. induction rows as [|row rows IH]; intros i m m' E; cbn [indexRows] in E.
  - injection E as <-. exists []. done.
  - destruct (rowKey cs (order i <$> desc) row) as [k|] eqn:Ek; [|done]. cbn in E. apply IH in E as (keys & Hl & Hk & Hm).
    exists (k :: keys). split; [cbn; by rewrite Hl|]. split.
    + intros [|n] r key; cbn; [intros [= <-] [= <-]; by rewrite Nat.add_0_r|]. intros H1 H2. rewrite <- Nat.add_succ_comm. by eapply Hk.
    + intros key. rewrite Hm. cbn [lastWith]. destruct (lastWith keys rows key); [done|].
      case_decide as Hkk; [subst; by rewrite lookup_insert_eq|by rewrite lookup_insert_ne].
Qed.

Lemma indexRows_total order cs desc i rows m :
  (∀ row, row ∈ rows → ∃ vals, row = Some vals ∧ vals ≠ []) → ∃ m', indexRows order cs desc i rows m = Some m'.
Proof.
  revert i m. induction rows as [|row rows IH]; intros i m H; cbn [indexRows]; [by eexists|].
  destruct (H row ltac:(by left)) as (vals & -> & Hne).
  assert (Hk : ∃ k, rowKey cs (order i <$> desc) (Some vals) = Some k).
  { unfold rowKey. destruct desc as [ks|]; cbn; [destruct (order i ks); by eexists|]. destruct vals; [done|]. by eexists. }
  destruct Hk as (k & ->). cbn. apply IH. intros r Hr. apply H. by right.
Qed.

Definition emptyData (types : gmap string cols) : Data := (λ _, mkT [] ∅) <$> types.

(** *** File names *)

Lemma TrimRightSet_all cut s : Forall (λ c, c ∈ cut) (String.list_ascii_of_string s) → TrimRightSet cut s = EmptyString.
Proof.
  induction s as [|c s IH]; [done|]. cbn. intros [Hc Hs]%Forall_cons. rewrite IH by done. by rewrite decide_True.
Qed.
Lemma TrimRightSet_suffix cut s suf : TrimRightSet cut suf = EmptyString → TrimRightSet cut (s +:+ suf) = TrimRightSet cut s.
Proof. intros E. induction s as [|c s IH]; [done|]. rewrite append_cons. cbn [TrimRightSet]. by rewrite IH. Qed.

Lemma TrimRightSet_stop cut c t : c ∉ cut ∨ TrimRightSet cut t ≠ EmptyString → TrimRightSet cut (String c t) = String c (TrimRightSet cut t).
Proof. intros H. cbn [TrimRightSet]. rewrite decide_False; [done|]. tauto. Qed.

(** The name of a workbook loses every final [x], [l], [s] and dot of its own. *)
Lemma getFileName_trims n : getFileName ("data/" +:+ n +:+ ".xlsx") = TrimRightSet xlsxSet n.
Proof.
  unfold getFileName. change (after cSlash ("data/" +:+ n +:+ ".xlsx")) with (Some (n +:+ ".xlsx")). cbv beta iota.
  replace ("data/" +:+ n +:+ ".xlsx") with (("data/" +:+ n) +:+ ".xlsx") by (by rewrite <- append_assoc).
  rewrite TrimRightSet_suffix by reflexivity.
  change ("data/" +:+ n) with (String (ch 100) (String (ch 97) (String (ch 116) (String (ch 97) (String cSlash n))))).
  assert (Hs : cSlash ∉ xlsxSet) by (unfold xlsxSet; rewrite !elem_of_cons, elem_of_nil; by intros [?|[?|[?|[?|?]]]]).
  assert (E : TrimRightSet xlsxSet (String cSlash n) = String cSlash (TrimRightSet xlsxSet n)) by (apply TrimRightSet_stop; by left).
  assert (K : ∀ c t u, TrimRightSet xlsxSet t = u → u ≠ EmptyString → TrimRightSet xlsxSet (String c t) = String c u)
    by (intros c t u <- Hu; apply TrimRightSet_stop; by right).
  pose proof (K (ch 97) _ _ E ltac:(done)) as E1. pose proof (K (ch 116) _ _ E1 ltac:(done)) as E2.
  pose proof (K (ch 97) _ _ E2 ltac:(done)) as E3. pose proof (K (ch 100) _ _ E3 ltac:(done)) as E4. by rewrite E4.
Qed.
(** ** Sheets *)

(** A table: the name of its sheet, the names and types of its columns, its values. *)
Record tableSpec := mkTS { ts_name : string; ts_names : list string; ts_typs : list string; ts_vals : list (list gval) }.

(** The sheet that holds it: two rows of headers, then the cells. *)
Definition ts_sheet (x : tableSpec) : sheet := (ts_name x, ts_names x :: ts_typs x :: (cells <$> ts_vals x)).
Definition ts_fields (x : tableSpec) : list fieldDesc := zip_with (λ n t, mkFD (snakeToCamel n) t) (ts_names x) (ts_typs x).
Definition ts_desc (f : string) (x : tableSpec) : structDesc := mkSD (ts_fields x) (ts_name x) f.

(** Names that are words and distinct, one type per name, values that fit. *)
Definition tableOk (x : tableSpec) : Prop :=
  (ts_name x ≠ setupSheet ∧ count cSlash (ts_name x) = 0%nat ∧ count cUnderscore (ts_name x) = 0%nat) ∧
  (ts_names x ≠ [] ∧ length (ts_typs x) = length (ts_names x) ∧ Forall (λ n, allc isWord n = true) (ts_names x) ∧
   NoDup (snakeToCamel <$> ts_names x)) ∧
  ∃ cs, columns (ts_fields x) = Some cs ∧ Forall (Forall2 (λ c v, gvalOk c.2 v) cs) (ts_vals x).

Definition tableFile (f v : string) : string := getTargetPath f +:+ "/" +:+ v +:+ ".json".

Lemma fields_names x : length (ts_typs x) = length (ts_names x) → fd_name <$> ts_fields x = snakeToCamel <$> ts_names x.
Proof.
  unfold ts_fields. generalize (ts_typs x) as ts. induction (ts_names x) as [|n ns IH]; intros [|t ts] E; try done.
  cbn. rewrite IH by (cbn in E; lia). done.
Qed.

Lemma fields_ok x : Forall (λ n, allc isWord n = true) (ts_names x) → namesOk (ts_fields x).
Proof.
  intros H. unfold ts_fields, namesOk. generalize (ts_typs x) as ts. induction H as [|n ns Hn _ IH]; intros [|t ts]; cbn; try constructor; [|done].
  by apply column_name.
Qed.

Lemma rows_read x cs :
  tableOk x → columns (ts_fields x) = Some cs → Forall2 (rowReads (ts_fields x) cs) (cells <$> ts_vals x) (ts_vals x).
Proof.
  intros (_ & (_ & _ & Hw & _) & cs' & E & Hv) E'. replace cs' with cs in Hv by congruence. apply fields_ok in Hw.
  induction Hv as [|vals l H _ IH]; cbn [fmap list_fmap]; constructor; [by apply row_reads|done].
Qed.

Lemma tableText_reads f x : tableOk x →
  tableText (ts_desc f x) (ts_sheet x).2 = (arrText (rowText (ts_desc f x) <$> (cells <$> ts_vals x)), None).
Proof.
  intros Hx. pose proof Hx as (_ & _ & cs & E & _). apply (tableText_spec (ts_desc f x) (ts_sheet x).2). cbn [ts_sheet snd drop].
  rewrite drop_0. pose proof (rows_read x cs Hx E) as HF. revert HF. generalize (cells <$> ts_vals x) as rows. intros rows HF. induction HF as [|row vals rows valss H _ IH]; constructor; [|done].
  by apply (rowReads_ok (ts_desc f x) cs row vals).
Qed.

Lemma tableFile_inj f v v' : tableFile f v = tableFile f v' → v = v'.
Proof.
  unfold tableFile. rewrite !append_assoc. intros E. apply (f_equal (TrimSuffix ".json")) in E. rewrite !TrimSuffix_app in E.
  by apply (inj (String.append _)) in E.
Qed.

(** The sheets of a workbook, one after the other: every file is written and stays. *)
Lemma readSheets_ok f tabs w :
  Forall tableOk tabs → NoDup (ts_name <$> tabs) →
  ∃ w', readSheets f (getTargetPath f) (ts_sheet <$> tabs) w = (w', Ok (ts_desc f <$> tabs)) ∧
    (∀ x, x ∈ tabs → w_files w' !! tableFile f (ts_name x) = Some (FText (tableText (ts_desc f x) (ts_sheet x).2).1)) ∧
    (∀ p, (∀ x, x ∈ tabs → p ≠ tableFile f (ts_name x)) → w_files w' !! p = w_files w !! p).
Proof.
  intros H. revert w. induction H as [|x tabs Hx _ IH]; intros w Hnd.
  { exists w. split; [done|]. split; [|done]. by intros x ?%elem_of_nil. }
  cbn [fmap list_fmap] in Hnd. apply NoDup_cons in Hnd as [Hnew Hnd].
  set (w1 := mkW (dirsOf EmptyString (getTargetPath f) ∪ w_dirs w)
    (<[tableFile f (ts_name x) := FText (tableText (ts_desc f x) (ts_sheet x).2).1]> (w_files w))).
  destruct (IH w1 Hnd) as (w' & Er & Hf & Hk). exists w'. split; [|split].
  - pose proof Hx as ((Hs & _) & (_ & Hl & _) & _). pose proof (tableText_reads f x Hx) as Et. cbn [fmap list_fmap readSheets ts_sheet].
    rewrite decide_False by done. unfold makeOneStruct. rewrite decide_False by lia. cbn [sd_field sd_name].
    change (mkSD _ (ts_name x) f) with (ts_desc f x). unfold writeJsonData. cbn [ts_sheet snd] in Et, w1.
    revert Er. unfold w1. rewrite Et. cbn [fst]. intros Er. unfold tableFile in Er. by rewrite Er.
  - intros y [->|Hy]%elem_of_cons; [|by apply Hf]. rewrite Hk; [apply lookup_insert_eq|].
    intros y Hy E%tableFile_inj. apply Hnew. rewrite E. by apply list_elem_of_fmap_2.
  - intros p Hp. rewrite Hk by (intros y Hy; apply Hp; by right). apply lookup_insert_ne. intros E. by apply (Hp x); [left|].
Qed.

(** Reading the file of a table. *)
Lemma table_reads types order setups f x cs :
  count cSlash f = 0%nat → count cUnderscore f = 0%nat → tableOk x →
  columns (ts_fields x) = Some cs → types !! messageName (ts_desc f x) = Some cs →
  ∃ m, readOne types order (readerPath f (ts_name x)) (tableText (ts_desc f x) (ts_sheet x).2).1 setups (emptyData types) =
      Some (Ok (<[messageName (ts_desc f x) := mkT (Some <$> ts_vals x) m]> (emptyData types))) ∧
    indexRows order cs (setups !! readerPath f (ts_name x)) 0 (Some <$> ts_vals x) ∅ = Some m.
Proof.
  intros Hf Uf Hx Ec Ht. pose proof Hx as ((_ & Hv & Uv) & (Hne & Hl & Hw & Hnd) & cs' & E' & Hvals).
  replace cs' with cs in Hvals by congruence. rewrite tableText_reads by done. cbn [fst].
  assert (Hcn : cs.*1 = snakeToCamel <$> ts_names x) by (rewrite <- fields_names by done; apply columns_names; [by apply fields_ok|done]).
  destruct (rows_decode (ts_desc f x) cs _ _ (rows_read x cs Hx Ec)) as (js & Hjs & Hm); [by rewrite Hcn|].
  assert (Hname : fieldNameByPath (readerPath f (ts_name x)) = messageName (ts_desc f x)) by (by apply names_agree).
  destruct (indexRows_total order cs (setups !! readerPath f (ts_name x)) 0 (Some <$> ts_vals x) ∅) as (m & Em).
  { intros row (vals & -> & Hin)%list_elem_of_fmap. exists vals. split; [done|]. rewrite Forall_forall in Hvals. apply Hvals in Hin.
    intros ->. apply Forall2_nil_inv_r in Hin as ->. cbn in Hcn. by destruct (ts_names x). }
  exists m. split; [|done]. unfold readOne. cbv zeta. rewrite Hname, Ht. cbn [mbind option_bind].
  assert (He : emptyData types !! messageName (ts_desc f x) = Some (mkT [] ∅)) by (unfold emptyData; by rewrite lookup_fmap, Ht).
  rewrite He. cbn [mbind option_bind]. rewrite (jparse_arr _ _ Hjs). cbn [mbind option_bind decodeList t_Map]. rewrite Hm. cbn [t_Map]. by rewrite Em.
Qed.

Lemma workbook_name f : TrimRightSet xlsxSet f = f → getFileName ("data/" +:+ f +:+ ".xlsx") = f.
Proof. intros E. by rewrite getFileName_trims. Qed.


(** *** Tables like those of the repository *)

Definition dailyBase : tableSpec := mkTS "base" ["count"; "level_min"; "tag"] ["int32"; "int32"; "string"]
  [[GS (SVInt 40); GS (SVInt (-1)); GS (SVStr "a")]; [GS (SVInt 7); GS (SVInt 2); GS (SVStr "b c")]].
Definition dailyPrize : tableSpec := mkTS "prize" ["uid"; "no"; "gift"; "days"] ["uint64"; "int32"; "map<string,int32>"; "repeated int32"]
  [[GS (SVUint 122); GS (SVInt 3); GMap {["id" := SVInt 3; "cnt" := SVInt 99]}; GRep [SVInt 2; SVInt 3]]].
Definition dailyCols : cols := [("Count", TScalar (SInt 32)); ("LevelMin", TScalar (SInt 32)); ("Tag", TScalar SStr)].
Definition dailyTypes : gmap string cols :=
  {["DailyBase" := dailyCols;
    "DailyPrize" := [("Uid", TScalar (SUint 64)); ("No", TScalar (SInt 32)); ("Gift", TMap (SInt 32)); ("Days", TRep (SInt 32))]]}.

Example daily_cells :
  (ts_sheet dailyBase).2 = [["count"; "level_min"; "tag"]; ["int32"; "int32"; "string"]; ["40"; "-1"; "a"]; ["7"; "2"; "b c"]] ∧
  showCell (GRep [SVInt 2; SVInt 3]) = "[2,3]".
Proof. split; vm_compute; reflexivity. Qed.

Lemma dailyBase_ok : tableOk dailyBase.
Proof.
  split; [done|]. split.
  - split; [done|]. split; [done|]. split; [by repeat constructor|]. apply (bool_decide_unpack _). vm_compute. exact I.
  - exists dailyCols. split; [reflexivity|]. repeat constructor; done || lia.
Qed.
Lemma dailyPrize_ok : tableOk dailyPrize.
Proof.
  split; [done|]. split.
  - split; [done|]. split; [done|]. split; [by repeat constructor|]. apply (bool_decide_unpack _). vm_compute. exact I.
  - eexists. split; [reflexivity|]. constructor; [|constructor]. constructor; [cbn; split; [lia|done]|]. constructor; [cbn; split; [lia|done]|]. constructor; [|constructor; [|constructor]].
    + apply map_Forall_insert_2; [split; [done|cbn; lia]|]. apply map_Forall_singleton. split; [done|cbn; lia].
    + repeat constructor; cbn; lia.
Qed.


(** ** Where the chain breaks *)

(** The tables of the generated struct are named by the generator. *)
Definition generated (types : gmap string cols) : Prop := ∀ name cs, types !! name = Some cs → ∃ desc, name = messageName desc.

(** A workbook or sheet with an underscore in its name can be generated but never loaded: the
    loader looks for a field that cannot exist, and panics. *)
Theorem underscore_never_loads types order setups f v text data :
  generated types → count cSlash f = 0%nat → count cSlash v = 0%nat → (count cUnderscore f + count cUnderscore v > 0)%nat →
  readOne types order (readerPath f v) text setups data = None.
Proof.
  intros Hg Hf Hv Hu. unfold readOne. cbv zeta. rewrite fieldName_path by done.
  destruct (types !! (Title f +:+ Title v)) as [cs|] eqn:E; [|done]. exfalso. apply Hg in E as [desc E].
  assert (count cUnderscore (Title f +:+ Title v) = 0%nat) as Hz by (rewrite E; apply snakeToCamel_no_underscore).
  rewrite count_app in Hz. unfold Title in Hz. rewrite !titleFrom_underscores in Hz. lia.
Qed.

Lemma underscore_never_loads_witness :
  readOne {["ShopVipGift" := dailyCols]} (λ _ s, elements s) "../target/shop/vip_gift.json" "[]" ∅ ∅ = None ∧
  messageName (mkSD [] "vip_gift" "shop") = "ShopVipGift".
Proof.
  split; [|reflexivity].
  apply (underscore_never_loads {["ShopVipGift" := dailyCols]} (λ _ s, elements s) ∅ "shop" "vip_gift" "[]" ∅); [|reflexivity|reflexivity|vm_compute; lia].
  intros name cs [<- _]%lookup_singleton_Some. by exists (mkSD [] "vip_gift" "shop").
Defined.

Example skills_name : getFileName "data/skills.xlsx" = "ski" ∧ getFileName "data/ski.xlsx" = "ski".
Proof. split; reflexivity. Qed.

(** *** The first run *)

(** A workbook with a setup sheet fails while its target directory does not exist, before
    anything is written that would create it. *)
Lemma first_setup_fails path sheets rows w :
  last sheets = Some (setupSheet, rows) → getTargetPath (getFileName path) ∉ w_dirs w →
  ∃ e, readOneExcel path sheets w = (w, Err e).
Proof.
  intros El Hd. unfold readOneExcel. rewrite El. rewrite decide_True by done. unfold buildSetups.
  destruct (setupRows (drop 1 rows) ∅); [|by eexists]. rewrite decide_False by done. by eexists.
Qed.

(** *** Initial values *)

Definition internals : list (bool * gtype) := [(false, TyStruct []); (false, TyBasic); (false, TySlice)].
Definition tableType : gtype := TyPtr (TyStruct (internals ++ [(true, TySlice); (true, TyMap)])).

(** [initStruct] gives every table of [Data] an empty list and an empty map. *)
Lemma initStruct_tables n :
  initStruct (TyPtr (TyStruct (internals ++ replicate n (true, tableType)))) VNil =
  VPtr (VStruct ([VStruct []; VZero; VNil] ++ replicate n (VPtr (VStruct [VStruct []; VZero; VNil; VSlice; VMap])))).
Proof. cbn. do 5 f_equal. induction n as [|n IH]; cbn; [done|]. by rewrite IH. Qed.

(** *** Keys of a setup *)

(** A key in snake case names no column: it contributes the empty string. *)
Lemma snake_key_empty cs row k :
  Forall (λ c, count cUnderscore c.1 = 0%nat) cs → (count cUnderscore k > 0)%nat → colValue cs row k = EmptyString.
Proof.
  intros Hc Hk. unfold colValue. destruct (list_find _ cs) as [[i c]|] eqn:E; [|done]. exfalso.
  apply list_find_Some in E as (Hi & Hn & _). rewrite Forall_lookup in Hc. apply Hc in Hi. rewrite Hn in Hi.
  unfold Title in Hi. rewrite titleFrom_underscores in Hi. lia.
Qed.

(** So a table indexed by one such key keeps its last row only. *)
Theorem snake_key_keeps_last_row order cs desc k (rows : list (list gval)) m :
  Forall (λ c, count cUnderscore c.1 = 0%nat) cs → (count cUnderscore k > 0)%nat → (∀ i, order i desc = [k]) →
  indexRows order cs (Some desc) 0 (Some <$> rows) ∅ = Some m →
  m = match last rows with Some row => {[EmptyString := Some row]} | None => ∅ end.
Proof.
  intros Hc Hk Ho. assert (H : ∀ i m0, indexRows order cs (Some desc) i (Some <$> rows) m0 =
    Some (match last rows with Some row => <[EmptyString := Some row]> m0 | None => m0 end)).
  { induction rows as [|row rows IH]; intros i m0; [done|]. cbn [fmap list_fmap indexRows]. cbn [option_fmap option_map]. rewrite Ho.
    cbn [rowKey mbind option_bind fmap list_fmap Join]. rewrite snake_key_empty by done. rewrite IH. rewrite last_cons.
    destruct (last rows); [by rewrite insert_insert_eq|done]. }
  rewrite H. intros [= <-]. by destruct (last rows).
Qed.

Lemma snake_key_keeps_last_row_witness :
  indexRows (λ _ _, ["level_min"]) dailyCols (Some {["level_min"]}) 0
    [Some [GS (SVInt 40); GS (SVInt 1); GS (SVStr "a")]; Some [GS (SVInt 7); GS (SVInt 2); GS (SVStr "b")]] ∅ =
  Some {[EmptyString := Some [GS (SVInt 7); GS (SVInt 2); GS (SVStr "b")]]}.
Proof.
  destruct (indexRows (λ _ _, ["level_min"]) dailyCols (Some {["level_min"]}) 0
    [Some [GS (SVInt 40); GS (SVInt 1); GS (SVStr "a")]; Some [GS (SVInt 7); GS (SVInt 2); GS (SVStr "b")]] ∅) as [m|] eqn:E; [|by vm_compute in E].
  f_equal. apply (snake_key_keeps_last_row (λ _ _, ["level_min"]) dailyCols {["level_min"]} "level_min"
    [[GS (SVInt 40); GS (SVInt 1); GS (SVStr "a")]; [GS (SVInt 7); GS (SVInt 2); GS (SVStr "b")]] m); [|vm_compute; lia|done|exact E].
  repeat constructor.
Defined.
